(* ===== verification/_CoqProject ===== *)
-Q . S2P
Prelude.v
Errors.v
Config.v
Keys.v
Sealing.v
Http.v
HttpFacts.v
Srp.v
Session.v
SessionFacts.v
CacheRepo.v
CacheRepoFacts.v
SingleFlight.v
Transport.v
Revision.v
RevisionFacts.v
Node.v
EntityCache.v
Events.v
EventsFacts.v
Upload.v
UploadFacts.v
Names.v
NamesFacts.v
Links.v
LinksFacts.v
Moves.v
MovesFacts.v
LinkCrypto.v
LinkCryptoFacts.v
Content.v
ContentFacts.v
Account.v
AccountFacts.v
SecretFacts.v
PublicLink.v
PublicLinkFacts.v
ThumbnailFacts.v
Drive.v
Nodes.v
NodesFacts.v
SealingFacts.v
DriveFacts.v
Downloads.v
DownloadsFacts.v
Actions.v
ActionsFacts.v
Sharing.v
SharingFacts.v
Drafts.v
DraftsFacts.v
Photos.v
PhotosFacts.v
Clients.v
PhotosClient.v
Figures.v
Redaction.v
Gate.v
GateFacts.v
