(* ===== verification/Prelude.v ===== *)
(** * proton-sdk-rs: a verification development

    The repository holds two Rust crates: [crates/proton-sdk] (the HTTP client,
    sessions and login, the account's keys, cache repositories, OpenPGP wrappers,
    telemetry) and [crates/proton-drive-rs] (the Drive client built on it: nodes
    and their keys, downloads, uploads, moves, events, public links).  This
    library models the parts of both that decide something - state machines,
    retry and refresh protocols, caches, paging, key resolution, what is sealed and
    verified, transfers - as executable definitions over explicit state, and
    proves what makes them correct.

    ** How the code is modelled

    - A fallible [async fn] is a function of the monad [M S A E], [S -> result A E
      * S]; a loop without a structural bound is a function of [FM], the same
      with [None] for fuel that ran out.  What awaits is one step: an
      interleaving that matters is modelled as a step function over explicit
      schedules (SingleFlight, Gate, the refresh bursts of HttpFacts and
      RevisionFacts) or as an argument (permits, batches, completion order in
      Upload).
    - Integers are [Z], with the wrap-around or saturation of the Rust type
      written where the code computes ([wrap_i32], [wrap_u64], [sat_sub],
      [sat_add_u64]).  A [str] or a byte buffer is a [string] of bytes.
    - Code that is not in the repository - reqwest, serde, the packets of OpenPGP,
      SHA-2, bcrypt, AES-GCM, the lru crate, the server - is an argument: a type
      class of operations, with a second class of laws when a theorem relies on
      what is documented of it.  Every law class used has a concrete instance,
      and every main theorem with hypotheses a witness that applies it to concrete
      data.

    ** The files

    A component is a file [X] with its data and operations and, when its proofs
    are long, a file [XFacts] with its theorems.

    Core SDK ([crates/proton-sdk/src]):
    - [Prelude]: results, the two monads, machine integers, [Str] (the string
      methods the code uses), lists and stable sorting, shared lemmas, hints and
      tactics.
    - [Errors]: response codes, envelopes, [ProtonError] and its classification
      ([api.rs], [error.rs], [crypto/errors.rs]).
    - [Config]: defaults, retry policy, client configuration, identifiers
      ([config.rs], [ids.rs]).
    - [Keys]: candidate keys and the bcrypt passphrase of a key ([crypto/keys.rs],
      [messages.rs], [derive.rs]).
    - [Sealing], [SealingFacts]: fresh node keys, volume and share material,
      invitations ([crypto/encrypt.rs]).  Proved: what is sealed for a volume or a
      folder opens again, verified.
    - [Http], [HttpFacts]: the send loops with their retry and replay rules, delays,
      envelope parsing, 401 handling and the shared token refresh, block storage
      calls, telemetry events ([http.rs], [telemetry.rs]).  Proved: which outcomes
      are retried and how often, the wait bounds, one refresh exchange per burst,
      one event per operation.
    - [Srp]: the SRP-6a client ([crypto/srp.rs]).  Proved: agreement with the
      server's secret, the range and termination of the ephemeral loop, the
      fixed-width codecs.
    - [Session], [SessionFacts]: login, second factor, resume, scopes ([session.rs]).
      Proved: a session exists only after the server's proof was verified.
    - [CacheRepo], [CacheRepoFacts]: the tagged key/value repository, its bounded
      in-memory implementation and the encrypting wrapper ([cache.rs]).  Proved:
      both refine a bounded recency list on every sequence of operations; the tag
      index never drifts; tampering clears.
    - [Account], [AccountFacts], [SecretFacts]: the user's and the addresses' keys,
      their cache, the key report and the derived secret ([account.rs],
      [account/]).  Proved: every answer of any sequence of calls is the one the
      server's data gives; no failure is remembered, a public-key lookup's aside; the
      default address is never another one; the secret's material determines the
      passphrases.

    Drive client ([crates/proton-drive-rs/src]):
    - [SingleFlight]: [single_flight.rs] as a step function, any interleaving.
    - [Transport]: session renewal, the block listing and the block-size ranking
      ([transport.rs]).
    - [Revision], [RevisionFacts]: range reads over the block table with recovery
      from expired URLs ([revision.rs]).  Proved: a read returns exactly the slice
      asked for; one re-listing per burst.
    - [Node]: the decrypted node model and its conversions ([node.rs], [sharing.rs],
      [photos.rs], [devices.rs]).
    - [EntityCache]: the typed view over a repository ([cache.rs]), against the
      interface [KeyValueLaws] that [CacheRepo]'s repository implements.
    - [Events], [EventsFacts]: event pages, cache invalidation and the poll loop
      ([events.rs], [event_manager.rs] and their part of [client.rs]).  Proved: what
      is published is the log, in order, and stale entries are gone by then.
    - [Upload], [UploadFacts]: [write_blocks] of [client.rs].  Proved: a write that
      succeeds recorded the whole content, whatever reads and schedules were; it
      always ends; the retries of one block.
    - [Names], [NamesFacts]: names and free names, paths, grouping, public links.
    - [Links], [LinksFacts]: link records and the walk from a link to its parent's
      key.  Proved: soundness against an honest server whatever the entity cache
      says, completeness when the cache is up to date, and the failure when it is
      not.
    - [Moves], [MovesFacts]: a single move and copy, [move_nodes] and the stream
      under it.  Proved: one outcome per node, in order; what the requests may
      contain; termination; what is sent opens under the new parent.
    - [LinkCrypto], [LinkCryptoFacts]: signature checks, claimed authors and the
      verified decryption of links, content keys and attributes ([crypto.rs],
      [proton-sdk/src/crypto/verify.rs]).  Proved: who may be named as an author;
      a signature serves one purpose; verifying does not change what is read.
    - [PublicLink], [PublicLinkFacts], [ThumbnailFacts]: [public_link.rs], the
      visitor's client.  Proved: no session without the server's proof; the
      subtree walk finds exactly what is below; one outcome per thumbnail.
    - [Drive], [DriveFacts]: the state of a [ProtonDriveClient], its bootstrap, the
      share keys of roots.  Proved: when a volume may be created; the bootstrap is
      all or nothing.
    - [Nodes], [NodesFacts]: building nodes, reading them singly and in batches,
      hierarchy, paths, folders, rename, trash listing.  Proved: the walk to the
      root ends and gives the lineage; a path leads back to its node.
    - [Downloads], [DownloadsFacts]: whole-file downloads, ranges, revisions and
      thumbnails.  Proved: what is written is what the manifest check covers; the
      two ways to download agree; the history.
    - [Actions], [ActionsFacts]: trash, restore, delete, leaving, devices.  Proved:
      each node asked for once, in requests the endpoint accepts.
    - [Content], [ContentFacts]: content keys, their packets, the blocks they seal,
      rewrapping, and a private key's operations, over what the [pgp] crate does
      with one packet ([crypto/content.rs], [crypto/keys.rs]).  Proved: a block
      opens with the key that sealed it, a content key with the node key it was
      packed for; a rewrapped message keeps its session key and body.
    - [Sharing], [SharingFacts]: the share of a node, members and invitations,
      public links, bookmarks, what others share with us.  Proved: whom an
      invitation request goes to and what it says; an invitation accepted opens the share and names
      its inviter; a link's password is read back and opens the link.
    - [Drafts], [DraftsFacts]: drafts of files and revisions, their recovery from
      conflicts, sealing, and the one-request upload of small files.  Proved: an
      upload downloads as what was sent; which drafts are deleted; the small
      request says what the blocks would.
    - [Photos], [PhotosFacts]: the timeline, duplicates, albums, the transfers of
      photos into an album or the timeline, tags.  Proved: what is sent for a photo
      opens at the target; a transfer ends when building its payloads does, with one
      outcome per photo unless a whole request is refused; the endpoint's limits;
      batched search as single search; no album is deleted before what it alone
      held is saved.
    - [Clients]: constructors, builders and clones over a heap of what they share.
      Proved: no client dangles, every pool has a permit; what separately built
      clients share, and which settings reach which clones.
    - [PhotosClient]: what the operations of the Photos client ([photos.rs]) ask of
      the Drive client inside it.  Proved: tag updates collected are tag updates
      streamed.
    - [Gate], [GateFacts]: the context-share gate between lookups, moves and
      invalidations, and the locks of the two bootstraps, for any interleaving of
      their callers, cancellations included.  Proved: nothing stale is cached or
      answered; the gate drains; one bootstrap at a time, and none after a success;
      the handler of [Drive] is the gate's lookup.
    - [Figures]: the quota in use and the log line of an event, in binary64.
    - [Redaction]: the hand-written [Debug] of what holds secrets.  Proved: two
      values that differ in their secrets alone show the same.

    The files depend on each other as the components call each other: Session
    on Http, Revision and Upload on Transport, EntityCache on CacheRepo and Node,
    Events and Links on EntityCache, Moves on Links and Names, LinkCrypto on
    Links and Keys, Drive on LinkCrypto and Account, Nodes on Drive, and the
    operations of the Drive client on Nodes.  A definition carries the name of its
    Rust item; fields carry a prefix per record.

    ** Fuel

    Where the code ends, a theorem or lemma says which amount of fuel suffices:
    retries ([max_retries] + 1), pages of a listing ([list_blocks_complete]), pages
    of events ([enumerate_events_complete]), draws of the ephemeral loop, calls of
    [read] and blocks (the reader's measure, [write_blocks_returns]), ancestor
    batches (the folder's depth, [folder_node_key_complete]), turns of a move
    (three per item, [move_nodes_streaming_reports_each]), rounds of a photo transfer
    (two per photo, [transfer_one_outcome_each]), batches of names
    ([get_available_name_first_free]), steps of the gate ([gate_drains]), nodes of a hierarchy
    ([hierarchy_terminates]), folders of a subtree ([enumerate_subtree_finds_all]),
    chunks of a download ([two_downloads_agree]).  The poll loop is meant to run
    forever: it is modelled turn by turn; and seeding its cursor retries for as
    long as the server refuses, so its attempts are bounded by an argument alone.
    Listings whose pages only the server ends take the number of pages as an
    argument too, and so do the layers of compression of an OpenPGP message.

    ** What the modelling showed

    - [SingleFlight.run] clears its slot by key, so a waiter that resumes late
      can clear a successor's: [late_resume_splits_flight].
    - [cached_ancestor_run] trusts the entity cache's parent names, so a key walk
      fails between a move and the event that announces it: [stale_parent_fails].
    - [EventManager.run] never returns, whatever its comment says.
    - The key report tries inactive user keys and every opening user key for a
      token, as the unlock path does; the comments of [account/report.rs] say less.
    - [rename_node] seals the new name under a fresh session key; the comment of
      [rename_device], on the same endpoint, says that cannot be done.
    - [create_public_link] seals a link's password to the address of the share the
      node is in; it is read back with the keys of the My Files address alone, so
      where these differ [update_public_link] refuses: [link_sealed_elsewhere_not_updated].
    - [share_node] invites an address twice that is given twice.
    - A request that is not safe to replay is sent again after 408, 429, 502, 503
      and 504 too, which the comment of [Replay::Unsafe] leaves out: [send_loops_spec].
    ** What is not modelled

    What the [pgp] crate does with one packet, key part or message (operations of
    [PgpOps] and [PgpMessages] in [Content]), the text of timestamps
    (chrono's), plain wire records without behaviour, which serde derives and the
    operations take as arguments.  Mutex poisoning, cancellation outside
    SingleFlight and Gate, log output but an event's line and the timers around the
    Drive client's operations are left out throughout. *)

From Stdlib Require Export ZArith Lia Ascii String Sorted.
From stdpp Require Export base gmap sets list sorting strings pretty.

#[global] Open Scope list_scope.
#[global] Open Scope Z_scope.

(** ** Results: Rust's [Result<A, E>] *)

Inductive result (A E : Type) : Type :=
| Ok (a : A)
| Err (e : E).
Arguments Ok {A E} a.
Arguments Err {A E} e.

#[global] Instance result_eq_dec {A E} `{EqDecision A, EqDecision E} :
  EqDecision (result A E).
Proof. solve_decision. Defined.

Definition result_bind {A B E} (r : result A E) (k : A -> result B E) : result B E :=
  match r with Ok a => k a | Err e => Err e end.

Definition result_map {A B E} (f : A -> B) (r : result A E) : result B E :=
  match r with Ok a => Ok (f a) | Err e => Err e end.

Definition map_err {A E F} (f : E -> F) (r : result A E) : result A F :=
  match r with Ok a => Ok a | Err e => Err (f e) end.

Definition is_ok {A E} (r : result A E) : bool :=
  match r with Ok _ => true | Err _ => false end.

Definition ok_or {A E} (o : option A) (e : E) : result A E :=
  match o with Some a => Ok a | None => Err e end.

Definition ok {A E} (r : result A E) : option A :=
  match r with Ok a => Some a | Err _ => None end.

(** ** Effects: a fallible computation that threads a state [S] *)

Definition M (S A E : Type) : Type := S -> result A E * S.

Definition mret {S A E} (a : A) : M S A E := fun s => (Ok a, s).
Definition mfail {S A E} (e : E) : M S A E := fun s => (Err e, s).
Definition mlift {S A E} (r : result A E) : M S A E := fun s => (r, s).
Definition mget {S E} : M S S E := fun s => (Ok s, s).
Definition mmodify {S E} (f : S -> S) : M S unit E := fun s => (Ok tt, f s).

Definition mbind_ {S A B E} (m : M S A E) (k : A -> M S B E) : M S B E :=
  fun s => match m s with
           | (Ok a, s') => k a s'
           | (Err e, s') => (Err e, s')
           end.

(** [mtry m] runs [m] and hands its outcome over instead of propagating it. *)
Definition mtry {S A E F} (m : M S A E) : M S (result A E) F :=
  fun s => let (r, s') := m s in (Ok r, s').

Declare Scope sdk_scope.
Delimit Scope sdk_scope with sdk.

Notation "'let?' x := r 'in' k" := (result_bind r (fun x => k))
  (at level 10, x pattern, r at level 100, k at level 200) : sdk_scope.
Notation "'let*' x := m 'in' k" := (mbind_ m (fun x => k))
  (at level 10, x pattern, m at level 100, k at level 200) : sdk_scope.
#[global] Open Scope sdk_scope.

(** ** Computations with fuel: [None] when the fuel runs out *)

Definition FM (S A E : Type) : Type := S -> option (result A E * S).

Definition fret {S A E} (a : A) : FM S A E := fun s => Some (Ok a, s).
Definition ffail {S A E} (e : E) : FM S A E := fun s => Some (Err e, s).
Definition flift {S A E} (m : M S A E) : FM S A E := fun s => Some (m s).

Definition ftry {S A E F} (m : FM S A E) : FM S (result A E) F :=
  fun s => match m s with Some (r, s') => Some (Ok r, s') | None => None end.

Definition fbind {S A B E} (m : FM S A E) (k : A -> FM S B E) : FM S B E :=
  fun s => match m s with
           | Some (Ok a, s') => k a s'
           | Some (Err e, s') => Some (Err e, s')
           | None => None
           end.

Notation "'let+' x := m 'in' k" := (fbind m (fun x => k))
  (at level 10, x pattern, m at level 100, k at level 200) : sdk_scope.

(** ** Machine integers *)

Definition u64_max : Z := 2 ^ 64 - 1.
Definition u32_max : Z := 2 ^ 32 - 1.
Definition i32_max : Z := 2 ^ 31 - 1.

Definition wrap_u64 (z : Z) : Z := z mod 2 ^ 64.
Definition wrap_i32 (z : Z) : Z := (z + 2 ^ 31) mod 2 ^ 32 - 2 ^ 31.
Definition wrap_i64 (z : Z) : Z := (z + 2 ^ 63) mod 2 ^ 64 - 2 ^ 63.
Definition sat_sub (a b : Z) : Z := Z.max 0 (a - b).
Definition sat_add_u64 (a b : Z) : Z := Z.min u64_max (a + b).

Lemma wrap_i32_small z : - 2 ^ 31 <= z < 2 ^ 31 -> wrap_i32 z = z.
Proof. intros H. unfold wrap_i32. rewrite Z.mod_small; lia. Qed.

Lemma wrap_i64_small z : - 2 ^ 63 <= z < 2 ^ 63 -> wrap_i64 z = z.
Proof. intros H. unfold wrap_i64. rewrite Z.mod_small; lia. Qed.

Lemma wrap_u64_small z : 0 <= z < 2 ^ 64 -> wrap_u64 z = z.
Proof. intros H. unfold wrap_u64. by apply Z.mod_small. Qed.

(** ** Strings: byte strings, as Rust's UTF-8 [str] *)

Module Str.
(** [str::trim_start_matches(c)] *)
Fixpoint trim_start_matches (c : ascii) (s : string) : string :=
  match s with
  | String a s' => if Ascii.eqb a c then trim_start_matches c s' else s
  | EmptyString => EmptyString
  end.

(** [str::trim_end_matches(c)] *)
Fixpoint trim_end_matches (c : ascii) (s : string) : string :=
  match s with
  | EmptyString => EmptyString
  | String a s' =>
      match trim_end_matches c s' with
      | EmptyString => if Ascii.eqb a c then EmptyString else String a EmptyString
      | t => String a t
      end
  end.

(** [str::ends_with(c)] *)
Fixpoint ends_with (c : ascii) (s : string) : bool :=
  match s with
  | EmptyString => false
  | String a EmptyString => Ascii.eqb a c
  | String _ s' => ends_with c s'
  end.

(** [str::contains(c)] *)
Fixpoint contains (c : ascii) (s : string) : bool :=
  match s with
  | EmptyString => false
  | String a s' => Ascii.eqb a c || contains c s'
  end.

(** [str::split_once(c)]: around the first occurrence. *)
Fixpoint split_once (c : ascii) (s : string) : option (string * string) :=
  match s with
  | EmptyString => None
  | String a s' =>
      if Ascii.eqb a c then Some (EmptyString, s')
      else match split_once c s' with
           | Some (l, r) => Some (String a l, r)
           | None => None
           end
  end.

(** [str::rsplit_once(pat)]: around the last occurrence of a pattern. *)
Fixpoint rsplit_once (pat s : string) : option (string * string) :=
  match s with
  | EmptyString => if String.eqb pat "" then Some (EmptyString, EmptyString) else None
  | String a s' =>
      match rsplit_once pat s' with
      | Some (l, r) => Some (String a l, r)
      | None => if String.prefix pat s
                then Some (EmptyString, String.substring (String.length pat) (String.length s) s)
                else None
      end
  end.

(** [str::split(c)]: always at least one segment. *)
Fixpoint split (c : ascii) (s : string) : list string :=
  match s with
  | EmptyString => [EmptyString]
  | String a s' =>
      if Ascii.eqb a c then EmptyString :: split c s'
      else match split c s' with
           | seg :: segs => String a seg :: segs
           | [] => [String a EmptyString]
           end
  end.

(** [slice.join(sep)] *)
Fixpoint join (sep : string) (l : list string) : string :=
  match l with
  | [] => EmptyString
  | [x] => x
  | x :: l' => x +:+ sep +:+ join sep l'
  end.

Definition is_empty (s : string) : bool :=
  match s with EmptyString => true | _ => false end.

(** A byte that starts a character in a valid UTF-8 string, i.e. one that is
    not a continuation byte [10xxxxxx]. *)
Definition is_char_start (a : ascii) : bool :=
  let n := N_of_ascii a in negb ((128 <=? n) && (n <? 192))%N.

(** [str::chars().count()] *)
Fixpoint chars_count (s : string) : Z :=
  match s with
  | EmptyString => 0
  | String a s' => (if is_char_start a then 1 else 0) + chars_count s'
  end.
End Str.

(** ** Lemmas about results and the state monad *)

Section ResultLemmas.
Context {A B E : Type}.
Implicit Types (r : result A E).

Lemma result_bind_ok r (k : A -> result B E) b :
  result_bind r k = Ok b <-> exists a, r = Ok a /\ k a = Ok b.
Proof. destruct r; simpl; naive_solver. Qed.

Lemma is_ok_spec r : is_ok r = true <-> exists a, r = Ok a.
Proof. destruct r; simpl; naive_solver. Qed.
End ResultLemmas.

Section MonadLemmas.
Context {S A B E : Type}.

Lemma mbind_ok_inv (m : M S A E) (k : A -> M S B E) s b s' :
  mbind_ m k s = (Ok b, s') ->
  exists a s1, m s = (Ok a, s1) /\ k a s1 = (Ok b, s').
Proof. unfold mbind_. destruct (m s) as [[a|e] s1]; naive_solver. Qed.

Lemma mbind_ok (m : M S A E) (k : A -> M S B E) s a s1 :
  m s = (Ok a, s1) -> mbind_ m k s = k a s1.
Proof. unfold mbind_. by intros ->. Qed.

Lemma mbind_err (m : M S A E) (k : A -> M S B E) s e s1 :
  m s = (Err e, s1) -> mbind_ m k s = (Err e, s1).
Proof. unfold mbind_. by intros ->. Qed.
End MonadLemmas.

(** ** Postconditions of a computation *)

(** [triple P m Q]: from a state of [P], [m] ends with an outcome and a state of [Q]. *)
Definition triple {S A E} (P : S -> Prop) (m : M S A E) (Q : result A E -> S -> Prop) : Prop :=
  forall s, P s -> Q (m s).1 (m s).2.

(** Whatever the outcome, [m] keeps [I] and an [Ok] value satisfies [R]. *)
Definition keeps {S A E} (I : S -> Prop) (R : A -> Prop) (m : M S A E) : Prop :=
  triple I m (fun r s => I s /\ match r with Ok a => R a | Err _ => True end).

Section Triples.
Context {S A B E : Type}.
Implicit Types (P : S -> Prop).

Lemma triple_ret P (a : A) (Q : result A E -> S -> Prop) :
  (forall s, P s -> Q (Ok a) s) -> triple P (mret a) Q.
Proof. intros HQ s Hs. by apply HQ. Qed.

Lemma triple_fail P (e : E) (Q : result A E -> S -> Prop) :
  (forall s, P s -> Q (Err e) s) -> triple P (mfail e) Q.
Proof. intros HQ s Hs. by apply HQ. Qed.

Lemma triple_lift P (r : result A E) (Q : result A E -> S -> Prop) :
  (forall s, P s -> Q r s) -> triple P (mlift r) Q.
Proof. intros HQ s Hs. by apply HQ. Qed.

Lemma triple_modify P (f : S -> S) (Q : result unit E -> S -> Prop) :
  (forall s, P s -> Q (Ok tt) (f s)) -> triple P (mmodify f) Q.
Proof. intros HQ s Hs. by apply HQ. Qed.

Lemma triple_bind P (m : M S A E) (k : A -> M S B E) (R : result A E -> S -> Prop)
    (Q : result B E -> S -> Prop) :
  triple P m R -> (forall a, triple (R (Ok a)) (k a) Q) -> (forall e s, R (Err e) s -> Q (Err e) s) ->
  triple P (mbind_ m k) Q.
Proof.
  intros Hm Hk He s Hs. specialize (Hm s Hs). unfold mbind_.
  destruct (m s) as [[a|e] s']; simpl in *; [by apply Hk|by apply He].
Qed.

Lemma triple_weaken P P' (m : M S A E) (Q Q' : result A E -> S -> Prop) :
  triple P m Q -> (forall s, P' s -> P s) -> (forall r s, Q r s -> Q' r s) -> triple P' m Q'.
Proof. intros Hm HP HQ s Hs. apply HQ, Hm. by apply HP. Qed.

Lemma keeps_ret P (R : A -> Prop) a : R a -> keeps P R (mret (E := E) a).
Proof. intros HR. by apply triple_ret. Qed.

Lemma keeps_fail P (R : A -> Prop) e : keeps P R (mfail (E := E) e).
Proof. by apply triple_fail. Qed.

Lemma keeps_modify P f : (forall s, P s -> P (f s)) -> keeps P (fun _ => True) (mmodify (E := E) f).
Proof. intros Hf. apply triple_modify. auto. Qed.

Lemma keeps_bind P (R : A -> Prop) (R' : B -> Prop) (m : M S A E) (k : A -> M S B E) :
  keeps P R m -> (forall a, R a -> keeps P R' (k a)) -> keeps P R' (mbind_ m k).
Proof.
  intros Hm Hk. eapply triple_bind; [exact Hm|..].
  - intros a s [Hs Ha]. by apply (Hk a).
  - by intros e s [Hs _].
Qed.

Lemma keeps_weaken P (R R' : A -> Prop) (m : M S A E) :
  keeps P R m -> (forall a, R a -> R' a) -> keeps P R' m.
Proof.
  intros Hm HR. eapply triple_weaken; [exact Hm|done|]. intros [a|e] s [Hs Ha]; auto.
Qed.
End Triples.

(** ** Lists *)

(** Position of the first element satisfying [f] ([Iterator::position]). *)
Fixpoint position {A} (f : A -> bool) (l : list A) : option nat :=
  match l with
  | [] => None
  | x :: l' => if f x then Some 0%nat else S <$> position f l'
  end.

(** [Vec::remove(i)] for an in-range [i]. *)
Definition remove_at {A} (i : nat) (l : list A) : list A := take i l ++ drop (S i) l.

(** [slice.chunks(n)] for [0 < n]; the length of the slice is fuel enough. *)
Fixpoint chunks_of {A} (fuel n : nat) (l : list A) : list (list A) :=
  match fuel, l with
  | Datatypes.S fuel, _ :: _ => take n l :: chunks_of fuel n (drop n l)
  | _, _ => []
  end.

Definition chunks {A} (n : nat) (l : list A) : list (list A) := chunks_of (length l) n l.

(** [slice::sort_by_key]: stable. *)
Fixpoint insert_by_key {A} (key : A -> Z) (x : A) (l : list A) : list A :=
  match l with
  | [] => [x]
  | y :: l' => if key x <=? key y then x :: l else y :: insert_by_key key x l'
  end.

Definition sort_by_key {A} (key : A -> Z) (l : list A) : list A :=
  foldr (insert_by_key key) [] l.

(** [Iterator::min_by_key]: the first of the least elements. *)
Definition min_by_key {A} (key : A -> Z) (l : list A) : option A :=
  foldl (fun least x => match least with
                        | Some y => if key x <? key y then Some x else least
                        | None => Some x
                        end) None l.

Definition sum_Z (l : list Z) : Z := fold_right Z.add 0 l.

Lemma chunks_of_spec {A} fuel n (l : list A) :
  (0 < n)%nat -> (length l <= fuel)%nat ->
  concat (chunks_of fuel n l) = l /\
  Forall (fun c => (0 < length c <= n)%nat) (chunks_of fuel n l).
Proof.
  intros Hn. revert l. induction fuel as [|fuel IH]; intros [|x l] Hl; simpl in *; try by split; [|constructor].
  - lia.
  - destruct n as [|n]; [lia|]. simpl. destruct (IH (drop n l)) as [Hc Hf].
    { rewrite length_drop. lia. }
    rewrite Hc, take_drop. split; [done|]. constructor; [|done]. simpl. rewrite length_take. lia.
Qed.

Lemma sum_Z_app l1 l2 : sum_Z (l1 ++ l2) = sum_Z l1 + sum_Z l2.
Proof. induction l1; simpl; lia. Qed.

Lemma sum_Z_nonneg l : Forall (fun n => 0 <= n) l -> 0 <= sum_Z l.
Proof. induction 1; simpl; lia. Qed.

Lemma position_Some {A} (f : A -> bool) l i :
  position f l = Some i ->
  exists x, l !! i = Some x /\ f x = true /\
            forall j y, (j < i)%nat -> l !! j = Some y -> f y = false.
Proof.
  revert i. induction l as [|x l IH]; intros i; simpl; [done|].
  destruct (f x) eqn:E.
  - intros [= <-]. exists x. repeat split; [done|]. intros; lia.
  - destruct (position f l) as [k|] eqn:P; simpl; [|done]. intros [= <-].
    destruct (IH k eq_refl) as (y & Hy & Fy & Hb). exists y. repeat split; [done..|].
    intros [|j] z Hj Hz; simpl in Hz; [naive_solver|]. eapply Hb; [|done]. lia.
Qed.

Lemma position_None {A} (f : A -> bool) l :
  position f l = None <-> Forall (fun x => f x = false) l.
Proof.
  induction l as [|x l IH]; simpl; [by split|].
  rewrite Forall_cons. destruct (f x) eqn:E; [naive_solver|].
  destruct (position f l); simpl; naive_solver.
Qed.

Lemma remove_at_Permutation {A} (l : list A) i x :
  l !! i = Some x -> l ≡ₚ x :: remove_at i l.
Proof.
  intros H. unfold remove_at. rewrite <- (take_drop_middle l i x H) at 1.
  by rewrite Permutation_middle.
Qed.

Lemma insert_by_key_Permutation {A} (key : A -> Z) x l : insert_by_key key x l ≡ₚ x :: l.
Proof.
  induction l as [|y l IH]; simpl; [done|]. destruct (key x <=? key y); [done|].
  rewrite IH. constructor.
Qed.

Lemma sort_by_key_Permutation {A} (key : A -> Z) l : sort_by_key key l ≡ₚ l.
Proof. induction l as [|x l IH]; simpl; [done|]. by rewrite insert_by_key_Permutation, IH. Qed.

Lemma sort_by_key_sorted {A} (key : A -> Z) l :
  StronglySorted (fun x y => key x <= key y) l -> sort_by_key key l = l.
Proof.
  induction 1 as [|x l _ IH Hx]; simpl; [done|]. rewrite IH.
  destruct l as [|y l]; simpl; [done|]. apply Forall_cons in Hx as [Hx _].
  by destruct (Z.leb_spec (key x) (key y)); [|lia].
Qed.

Lemma insert_by_key_sorted {A} (key : A -> Z) x l :
  StronglySorted (fun x y => key x <= key y) l ->
  StronglySorted (fun x y => key x <= key y) (insert_by_key key x l).
Proof.
  induction 1 as [|y l Hl IH Hy]; simpl; [by repeat constructor|].
  destruct (Z.leb_spec (key x) (key y)).
  - constructor; [by constructor|]. constructor; [done|].
    eapply Forall_impl; [exact Hy|]. simpl. lia.
  - constructor; [done|]. rewrite insert_by_key_Permutation. constructor; [lia|done].
Qed.

Lemma sort_by_key_StronglySorted {A} (key : A -> Z) l :
  StronglySorted (fun x y => key x <= key y) (sort_by_key key l).
Proof. induction l as [|x l IH]; [constructor|]. by apply insert_by_key_sorted. Qed.

(** Sorting any arrangement of a strictly sorted list gives it back. *)
Lemma sort_by_key_unique {A} (key : A -> Z) k l :
  StronglySorted (fun x y => key x < key y) l -> k ≡ₚ l -> sort_by_key key k = l.
Proof.
  intros Hs Hp. apply (StronglySorted_unique_strong (fun x y => key x <= key y)).
  - intros x y Hx Hy Hxy Hyx. rewrite sort_by_key_Permutation, Hp in Hx. clear k Hp.
    induction Hs as [|z l Hs IH Hz]; [by apply elem_of_nil in Hx|]. rewrite Forall_forall in Hz.
    apply elem_of_cons in Hx as [->|Hx], Hy as [->|Hy]; [done|..|by apply IH].
    + specialize (Hz y Hy). lia.
    + specialize (Hz x Hx). lia.
  - apply sort_by_key_StronglySorted.
  - clear Hp. induction Hs as [|z l Hs IH Hz]; constructor; [done|].
    eapply Forall_impl; [exact Hz|]. simpl. lia.
  - by rewrite sort_by_key_Permutation.
Qed.

(** The first of the least elements heads the stably sorted list. *)
Lemma min_by_key_head {A} (key : A -> Z) l : min_by_key key l = head (sort_by_key key l).
Proof.
  assert (forall acc, foldl (fun least x => match least with
             | Some y => if key x <? key y then Some x else least
             | None => Some x end) acc l =
           match acc, head (sort_by_key key l) with
           | Some y, Some x => if key x <? key y then Some x else Some y
           | None, o => o
           | o, None => o
           end) as Hgen; [|unfold min_by_key; rewrite (Hgen None); by destruct (head _)].
  induction l as [|x l IH]; intros acc; simpl; [by destruct acc|]. rewrite IH. clear IH.
  pose proof (sort_by_key_StronglySorted key l) as Hs.
  destruct (sort_by_key key l) as [|y k]; simpl.
  - destruct acc as [a|]; simpl; [|done]. by destruct (key x <? key a).
  - destruct acc as [a|]; simpl.
    + destruct (Z.ltb_spec (key x) (key a)), (Z.leb_spec (key x) (key y)); simpl;
        repeat match goal with |- context [?a <? ?b] => destruct (Z.ltb_spec a b) end;
        try done; lia.
    + destruct (Z.ltb_spec (key y) (key x)), (Z.leb_spec (key x) (key y)); try done; lia.
Qed.

Lemma min_by_key_cons {A} (key : A -> Z) x l :
  min_by_key key (x :: l) =
    match min_by_key key l with
    | Some y => if key x <=? key y then Some x else Some y
    | None => Some x
    end.
Proof.
  rewrite !min_by_key_head. simpl. destruct (sort_by_key key l) as [|y k]; simpl; [done|].
  by destruct (key x <=? key y).
Qed.

Lemma min_by_key_Some {A} (key : A -> Z) l x :
  min_by_key key l = Some x -> x ∈ l /\ forall y, y ∈ l -> key x <= key y.
Proof.
  rewrite min_by_key_head. pose proof (sort_by_key_StronglySorted key l) as Hs.
  pose proof (sort_by_key_Permutation key l) as Hp.
  destruct (sort_by_key key l) as [|z k]; [done|]. intros [= <-].
  apply StronglySorted_inv in Hs as [_ Hz]. rewrite Forall_forall in Hz. split.
  - rewrite <- Hp. left.
  - intros y. rewrite <- Hp. intros [->|Hy]%elem_of_cons; [lia|auto].
Qed.

(** A partial map that keeps the key and the least element keeps the minimum. *)
Lemma min_by_key_omap {A B} (key : A -> Z) (key' : B -> Z) (f : A -> option B) l x y :
  (forall a b, f a = Some b -> key' b = key a) ->
  min_by_key key l = Some x -> f x = Some y -> min_by_key key' (omap f l) = Some y.
Proof.
  intros Hk. revert x y. induction l as [|a l IH]; intros x y; [done|]. rewrite min_by_key_cons.
  destruct (min_by_key key l) as [m|] eqn:Hm.
  - destruct (Z.leb_spec (key a) (key m)) as [Hle|Hlt]; intros [= <-] Hf; csimpl.
    + rewrite Hf, min_by_key_cons. destruct (min_by_key key' _) as [z|] eqn:Hz; [|done].
      apply min_by_key_Some in Hz as [(w & Hw & Hz)%list_elem_of_omap _].
      apply min_by_key_Some in Hm as [_ Hm]. specialize (Hm w Hw). rewrite (Hk _ _ Hf), (Hk _ _ Hz).
      by destruct (Z.leb_spec (key a) (key w)); [|lia].
    + specialize (IH m y eq_refl Hf). destruct (f a) as [b|] eqn:Hfa; [|done].
      rewrite min_by_key_cons, IH, (Hk _ _ Hfa), (Hk _ _ Hf).
      by destruct (Z.leb_spec (key a) (key m)); [lia|].
  - intros [= <-] Hf. simpl. rewrite Hf. destruct l as [|c l]; [done|].
    rewrite min_by_key_cons in Hm. by destruct (min_by_key key l); [destruct (_ <=? _)|].
Qed.

(** ** The first element with an id, when ids are distinct *)

Lemma find_some_iff {A} (f : A -> string) id (l : list A) x :
  NoDup (map f l) ->
  List.find (fun a => String.eqb (f a) id) l = Some x <-> x ∈ l /\ f x = id.
Proof.
  induction l as [|a l IH]; simpl; intros Hn; [split; [done|by intros [?%elem_of_nil _]]|].
  apply NoDup_cons in Hn as [Ha Hn]. destruct (String.eqb_spec (f a) id) as [He|He].
  - split; [intros [= <-]; split; [left|done]|]. intros [[->|Hx]%elem_of_cons Hid]; [done|].
    exfalso. apply Ha. rewrite He, <- Hid. by apply list_elem_of_fmap_2.
  - rewrite IH by done. split; [intros [? ?]; split; [by right|done]|].
    by intros [[->|Hx]%elem_of_cons Hid].
Qed.

Lemma find_none_iff {A} (f : A -> string) id (l : list A) :
  List.find (fun a => String.eqb (f a) id) l = None <-> id ∉ map f l.
Proof.
  induction l as [|a l IH]; simpl; [by split; [intros _ ?%elem_of_nil|]|].
  rewrite not_elem_of_cons. destruct (String.eqb_spec (f a) id); [naive_solver|].
  rewrite IH. naive_solver.
Qed.

Lemma StronglySorted_by_lookup {A} (R : A -> A -> Prop) l :
  (forall i j x y, (i < j)%nat -> l !! i = Some x -> l !! j = Some y -> R x y) ->
  StronglySorted R l.
Proof.
  induction l as [|x l IH]; intros HR; constructor.
  - apply IH. intros i j a b Hij Ha Hb. by apply (HR (S i) (S j)); [lia|..].
  - apply Forall_forall. intros y [j Hj]%list_elem_of_lookup. by apply (HR 0%nat (S j)); [lia|..].
Qed.

Lemma elem_of_insert_inv {A} (l : list A) i x y : x ∈ <[i := y]> l -> x = y \/ x ∈ l.
Proof.
  intros [j [(_ & -> & _)|[_ Hj]]%list_lookup_insert_Some]%list_elem_of_lookup; [by left|].
  right. by eapply list_elem_of_lookup_2.
Qed.

Lemma filter_all {A} (P : A -> Prop) `{!forall x, Decision (P x)} (l : list A) :
  Forall P l -> filter P l = l.
Proof. induction 1; [done|]. rewrite filter_cons_True by done. by f_equal. Qed.

Lemma filter_none {A} (P : A -> Prop) `{!forall x, Decision (P x)} (l : list A) :
  Forall (fun x => ~ P x) l -> filter P l = [].
Proof. induction 1; [done|]. by rewrite filter_cons_False. Qed.

Lemma filter_ext_elem {A} (P Q : A -> Prop) `{!forall x, Decision (P x)}
  `{!forall x, Decision (Q x)} (l : list A) :
  (forall x, x ∈ l -> P x <-> Q x) -> filter P l = filter Q l.
Proof.
  induction l as [|x l IH]; intros Hpq; [done|]. rewrite !filter_cons.
  rewrite IH by (intros; apply Hpq; by right).
  assert (P x <-> Q x) by (apply Hpq; left). by repeat case_decide; try tauto.
Qed.

(** ** Strings *)

Lemma str_app_nil_l s : EmptyString +:+ s = s.
Proof. reflexivity. Qed.

Lemma str_app_cons a s t : String a s +:+ t = String a (s +:+ t).
Proof. reflexivity. Qed.

Lemma str_app_assoc a b c : (a +:+ b) +:+ c = a +:+ (b +:+ c).
Proof. induction a as [|x a IH]; [done|]. rewrite !str_app_cons. by rewrite IH. Qed.

Lemma str_app_nil_r a : a +:+ EmptyString = a.
Proof. induction a as [|x a IH]; [done|]. rewrite str_app_cons. by rewrite IH. Qed.

Lemma substring_0_app a b : String.substring 0 (String.length a) (a +:+ b) = a.
Proof. induction a as [|c a IH]; [by destruct b|]. rewrite str_app_cons. simpl. by rewrite IH. Qed.

Lemma substring_app_drop a b n :
  String.substring (String.length a) n (a +:+ b) = String.substring 0 n b.
Proof. induction a as [|c a IH]; [done|]. rewrite str_app_cons. simpl. done. Qed.

Lemma substring_ge a n : (String.length a <= n)%nat -> String.substring 0 n a = a.
Proof.
  revert n. induction a as [|c a IH]; intros [|n] Hn; simpl in *; [done..|lia|].
  by rewrite IH by lia.
Qed.

Lemma substring_whole a : String.substring 0 (String.length a) a = a.
Proof. by apply substring_ge. Qed.

Lemma str_length_app a b : String.length (a +:+ b) = (String.length a + String.length b)%nat.
Proof. induction a as [|c a IH]; [done|]. rewrite str_app_cons. simpl. by rewrite IH. Qed.

(** ** Automation *)

Create HintDb sdk.
#[export] Hint Resolve Forall_nil_2 Forall_cons_2 : sdk.
#[export] Hint Resolve mbind_ok mbind_err : sdk.

(** Case analysis on every [let '(_, _) := m s] and [if] of a computation. *)
Ltac step_one :=
  match goal with
  | |- context [match ?x with pair _ _ => _ end] => destruct x eqn:?
  | H : context [match ?x with pair _ _ => _ end] |- _ => destruct x eqn:?
  | |- context [match ?x with Ok _ => _ | Err _ => _ end] => destruct x eqn:?
  | H : context [match ?x with Ok _ => _ | Err _ => _ end] |- _ => destruct x eqn:?
  | |- context [if ?x then _ else _] => destruct x eqn:?
  | H : context [if ?x then _ else _] |- _ => destruct x eqn:?
  end; simplify_eq/=.
Ltac steps := repeat step_one.
