(* ===== verification/Errors.v ===== *)
(** * Errors and the API envelope

    [crates/proton-sdk/src/api.rs] and [crates/proton-sdk/src/error.rs]: the
    response codes, the response envelope, the human-verification challenge and
    the error type every operation of the SDK returns. *)

From S2P Require Import Prelude.

(** A JSON document, as [serde_json::Value] exposes it. *)
Inductive json : Type :=
| JNull
| JBool (b : bool)
| JNumber (z : Z)
| JString (s : string)
| JArray (l : list json)
| JObject (fields : list (string * json)).

Module Json.
(** [Value::get(key)] on an object; [None] on anything else. *)
Definition get (key : string) (v : json) : option json :=
  match v with
  | JObject fields => snd <$> List.find (fun f => String.eqb (fst f) key) fields
  | _ => None
  end.
Definition as_array (v : json) : option (list json) :=
  match v with JArray l => Some l | _ => None end.
Definition as_str (v : json) : option string :=
  match v with JString s => Some s | _ => None end.
End Json.

(** ** Response codes *)

Module ResponseCode.
Inductive t : Type :=
| Unknown
| Unauthorized
| Forbidden
| RequestTimeout
| TooManyRequests
| ServiceUnavailable
| Success
| MultipleResponses
| InvalidRequirements
| InvalidValue
| NotEnoughPermissions
| NotEnoughPermissionsToGrantPermissions
| Blocked
| InvalidEncryptedIdFormat
| AlreadyExists
| DoesNotExist
| Timeout
| IncompatibleState
| InvalidApp
| OutdatedApp
| Offline
| IncorrectLoginCredentials
| HumanVerificationRequired
| InsufficientScope
| AccountDeleted
| AccountDisabled
| InvalidRefreshToken
| NoActiveSubscription
| AddressMissing
| DomainExternal
| ProtonDriveUnknown
| InsufficientQuota
| InsufficientSpace
| InsufficientVolumeQuota
| TooManyChildren
| NestingTooDeep
| AlbumContainsPhotosNotInTimeline.

#[global] Instance eq_dec : EqDecision t.
Proof. solve_decision. Defined.

(** The discriminants of the [repr(i64)] enum. *)
Definition raw (c : t) : Z :=
  match c with
  | Unknown => 0
  | Unauthorized => 401
  | Forbidden => 403
  | RequestTimeout => 408
  | TooManyRequests => 429
  | ServiceUnavailable => 503
  | Success => 1000
  | MultipleResponses => 1001
  | InvalidRequirements => 2000
  | InvalidValue => 2001
  | NotEnoughPermissions => 2011
  | NotEnoughPermissionsToGrantPermissions => 2026
  | Blocked => 2028
  | InvalidEncryptedIdFormat => 2061
  | AlreadyExists => 2500
  | DoesNotExist => 2501
  | Timeout => 2503
  | IncompatibleState => 2511
  | InvalidApp => 5002
  | OutdatedApp => 5003
  | Offline => 7001
  | IncorrectLoginCredentials => 8002
  | HumanVerificationRequired => 9001
  | InsufficientScope => 9101
  | AccountDeleted => 10002
  | AccountDisabled => 10003
  | InvalidRefreshToken => 10013
  | NoActiveSubscription => 22110
  | AddressMissing => 33102
  | DomainExternal => 33103
  | ProtonDriveUnknown => 200000
  | InsufficientQuota => 200001
  | InsufficientSpace => 200002
  | InsufficientVolumeQuota => 200100
  | TooManyChildren => 200300
  | NestingTooDeep => 200301
  | AlbumContainsPhotosNotInTimeline => 200302
  end.

Definition from_raw (z : Z) : t :=
  match z with
  | 401 => Unauthorized
  | 403 => Forbidden
  | 408 => RequestTimeout
  | 429 => TooManyRequests
  | 503 => ServiceUnavailable
  | 1000 => Success
  | 1001 => MultipleResponses
  | 2000 => InvalidRequirements
  | 2001 => InvalidValue
  | 2011 => NotEnoughPermissions
  | 2026 => NotEnoughPermissionsToGrantPermissions
  | 2028 => Blocked
  | 2061 => InvalidEncryptedIdFormat
  | 2500 => AlreadyExists
  | 2501 => DoesNotExist
  | 2503 => Timeout
  | 2511 => IncompatibleState
  | 5002 => InvalidApp
  | 5003 => OutdatedApp
  | 7001 => Offline
  | 8002 => IncorrectLoginCredentials
  | 9001 => HumanVerificationRequired
  | 9101 => InsufficientScope
  | 10002 => AccountDeleted
  | 10003 => AccountDisabled
  | 10013 => InvalidRefreshToken
  | 22110 => NoActiveSubscription
  | 33102 => AddressMissing
  | 33103 => DomainExternal
  | 200000 => ProtonDriveUnknown
  | 200001 => InsufficientQuota
  | 200002 => InsufficientSpace
  | 200100 => InsufficientVolumeQuota
  | 200300 => TooManyChildren
  | 200301 => NestingTooDeep
  | 200302 => AlbumContainsPhotosNotInTimeline
  | _ => Unknown
  end.

(** The derived [Debug] name. *)
Definition debug (c : t) : string :=
  match c with
  | Unknown => "Unknown"
  | Unauthorized => "Unauthorized"
  | Forbidden => "Forbidden"
  | RequestTimeout => "RequestTimeout"
  | TooManyRequests => "TooManyRequests"
  | ServiceUnavailable => "ServiceUnavailable"
  | Success => "Success"
  | MultipleResponses => "MultipleResponses"
  | InvalidRequirements => "InvalidRequirements"
  | InvalidValue => "InvalidValue"
  | NotEnoughPermissions => "NotEnoughPermissions"
  | NotEnoughPermissionsToGrantPermissions => "NotEnoughPermissionsToGrantPermissions"
  | Blocked => "Blocked"
  | InvalidEncryptedIdFormat => "InvalidEncryptedIdFormat"
  | AlreadyExists => "AlreadyExists"
  | DoesNotExist => "DoesNotExist"
  | Timeout => "Timeout"
  | IncompatibleState => "IncompatibleState"
  | InvalidApp => "InvalidApp"
  | OutdatedApp => "OutdatedApp"
  | Offline => "Offline"
  | IncorrectLoginCredentials => "IncorrectLoginCredentials"
  | HumanVerificationRequired => "HumanVerificationRequired"
  | InsufficientScope => "InsufficientScope"
  | AccountDeleted => "AccountDeleted"
  | AccountDisabled => "AccountDisabled"
  | InvalidRefreshToken => "InvalidRefreshToken"
  | NoActiveSubscription => "NoActiveSubscription"
  | AddressMissing => "AddressMissing"
  | DomainExternal => "DomainExternal"
  | ProtonDriveUnknown => "ProtonDriveUnknown"
  | InsufficientQuota => "InsufficientQuota"
  | InsufficientSpace => "InsufficientSpace"
  | InsufficientVolumeQuota => "InsufficientVolumeQuota"
  | TooManyChildren => "TooManyChildren"
  | NestingTooDeep => "NestingTooDeep"
  | AlbumContainsPhotosNotInTimeline => "AlbumContainsPhotosNotInTimeline"
  end.

(** All variants, for case analysis by computation. *)
Definition all : list t :=
  [Unknown; Unauthorized; Forbidden; RequestTimeout; TooManyRequests; ServiceUnavailable; Success; MultipleResponses; InvalidRequirements; InvalidValue; NotEnoughPermissions; NotEnoughPermissionsToGrantPermissions; Blocked; InvalidEncryptedIdFormat; AlreadyExists; DoesNotExist; Timeout; IncompatibleState; InvalidApp; OutdatedApp; Offline; IncorrectLoginCredentials; HumanVerificationRequired; InsufficientScope; AccountDeleted; AccountDisabled; InvalidRefreshToken; NoActiveSubscription; AddressMissing; DomainExternal; ProtonDriveUnknown; InsufficientQuota; InsufficientSpace; InsufficientVolumeQuota; TooManyChildren; NestingTooDeep; AlbumContainsPhotosNotInTimeline].

Lemma all_complete c : c ∈ all.
Proof. destruct c; unfold all; repeat (apply list_elem_of_here || apply list_elem_of_further). Qed.

Lemma from_raw_raw c : from_raw (raw c) = c.
Proof. by destruct c. Qed.

Lemma raw_inj c d : raw c = raw d -> c = d.
Proof. intros H. by rewrite <- (from_raw_raw c), <- (from_raw_raw d), H. Qed.
End ResponseCode.

(** ** The envelope every response embeds *)

Record ApiResponse := {
  ar_code : ResponseCode.t;
  ar_error_message : option string;
  ar_details : option json
}.

Definition ApiResponse_is_success (r : ApiResponse) : bool :=
  match ar_code r with ResponseCode.Success => true | _ => false end.

(** ** Human verification *)

Record HumanVerification := {
  hv_token : string;
  hv_methods : list string
}.

Definition supports_captcha (hv : HumanVerification) : bool :=
  existsb (fun m => String.eqb m "captcha") (hv_methods hv).

(** One upper-case hexadecimal digit, as [{:X}] prints it. *)
Definition hex_digit_upper (n : Z) : ascii :=
  ascii_of_N (Z.to_N (if n <? 10 then 48 + n else 55 + n)).

(** [format!("%{b:02X}")] *)
Definition percent_byte (b : ascii) : string :=
  let n := Z.of_N (N_of_ascii b) in
  String "%" (String (hex_digit_upper (n / 16)) (String (hex_digit_upper (n mod 16)) "")).

(** The bytes [urlencoding_minimal] copies through unchanged. *)
Definition is_unreserved (b : ascii) : bool :=
  let n := Z.of_N (N_of_ascii b) in
  ((65 <=? n) && (n <=? 90)) || ((97 <=? n) && (n <=? 122)) || ((48 <=? n) && (n <=? 57))
  || (n =? 45) || (n =? 95) || (n =? 46) || (n =? 126).

Fixpoint urlencoding_minimal (s : string) : string :=
  match s with
  | EmptyString => EmptyString
  | String b s' =>
      (if is_unreserved b then String b EmptyString else percent_byte b)
        +:+ urlencoding_minimal s'
  end.

Definition verification_url (hv : HumanVerification) : string :=
  "https://verify.proton.me/?embed=1&methods=" +:+ Str.join "," (hv_methods hv)
  +:+ "&token=" +:+ urlencoding_minimal (hv_token hv).

Record HumanVerificationCredential := {
  hvc_token : string;
  hvc_method : string
}.

Definition HumanVerificationCredential_captcha (token : string) : HumanVerificationCredential :=
  {| hvc_token := token; hvc_method := "captcha" |}.

(** ** Errors *)

(** What the SDK observes of a [reqwest::Error]. *)
Record transport_error := {
  te_is_timeout : bool;
  te_is_connect : bool;
  te_is_request : bool;
  te_message : string
}.

#[global] Instance transport_error_eq_dec : EqDecision transport_error.
Proof. solve_decision. Defined.

Inductive CryptoError : Type :=
| CParse (s : string)
| CUnlock (s : string)
| CDecrypt (s : string)
| CEncrypt (s : string)
| CVerification (s : string).

Definition CryptoError_display (e : CryptoError) : string :=
  match e with
  | CParse s => "failed to parse PGP data: " +:+ s
  | CUnlock s => "failed to unlock private key: " +:+ s
  | CDecrypt s => "failed to decrypt: " +:+ s
  | CEncrypt s => "failed to encrypt: " +:+ s
  | CVerification s => "signature verification failed: " +:+ s
  end.

Record ProtonApiError := {
  pe_code : ResponseCode.t;
  pe_http_status : Z;
  pe_message : string;
  pe_details : option json
}.

Inductive ProtonError : Type :=
| Api (e : ProtonApiError)
| Transport (e : transport_error)
| Serialization (msg : string)
| Crypto (e : CryptoError)
| KeysLocked
| InvalidOperation (msg : string).

(** [Result<A>] of the SDK. *)
Abbreviation Res A := (result A ProtonError).

Definition invalid_operation (msg : string) : ProtonError := InvalidOperation msg.

(** [thiserror]'s [Display], from the [#[error(...)]] attributes. *)
Definition ProtonApiError_display (e : ProtonApiError) : string :=
  "proton api error " +:+ ResponseCode.debug (pe_code e) +:+ " (http "
  +:+ pretty (pe_http_status e) +:+ "): " +:+ pe_message e.

Definition ProtonError_display (e : ProtonError) : string :=
  match e with
  | Api e => ProtonApiError_display e
  | Transport e => "HTTP transport error: " +:+ te_message e
  | Serialization m => "serialization error: " +:+ m
  | Crypto e => "cryptography error: " +:+ CryptoError_display e
  | KeysLocked => "none of the account's keys could be unlocked with this password"
  | InvalidOperation m => "invalid operation: " +:+ m
  end.

Definition ProtonApiError_is_retriable (e : ProtonApiError) : bool :=
  match pe_code e with
  | ResponseCode.TooManyRequests | ResponseCode.DoesNotExist => true
  | _ =>
      negb ((400 <=? pe_http_status e) && (pe_http_status e <? 500))
      || (pe_http_status e =? 404) || (pe_http_status e =? 408) || (pe_http_status e =? 429)
  end.

Definition is_retriable (e : ProtonError) : bool :=
  match e with
  | Api e => ProtonApiError_is_retriable e
  | Transport _ => true
  | Serialization _ | Crypto _ | KeysLocked | InvalidOperation _ => false
  end.

Definition is_unauthorized (e : ProtonApiError) : bool := pe_http_status e =? 401.

Definition is_invalid_refresh_token (e : ProtonApiError) : bool :=
  match pe_code e with ResponseCode.InvalidRefreshToken => true | _ => false end.

Definition is_insufficient_scope (e : ProtonApiError) : bool :=
  match pe_code e with ResponseCode.InsufficientScope => true | _ => false end.

Definition is_human_verification_required (e : ProtonApiError) : bool :=
  match pe_code e with ResponseCode.HumanVerificationRequired => true | _ => false end.

(** [serde_json::from_value::<HumanVerification>], for the derived
    [Deserialize]: from an object the token is required and the methods default
    to empty; from an array the two fields are positional. *)
Definition human_verification_of_json (v : json) : option HumanVerification :=
  let parse (token methods : option json) : option HumanVerification :=
    token ← token ≫= Json.as_str;
    methods ← match methods with
              | None => Some []
              | Some m => Json.as_array m ≫= mapM Json.as_str
              end;
    Some {| hv_token := token; hv_methods := methods |} in
  match v with
  | JArray [token] => parse (Some token) None
  | JArray [token; methods] => parse (Some token) (Some methods)
  | _ => parse (Json.get "HumanVerificationToken" v) (Json.get "HumanVerificationMethods" v)
  end.

Definition human_verification (e : ProtonApiError) : option HumanVerification :=
  if negb (is_human_verification_required e) then None
  else pe_details e ≫= human_verification_of_json.

(** ** Percent-encoding is lossless *)

(** The value of an upper-case hexadecimal digit. *)
Definition hex_value (a : ascii) : option Z :=
  let n := Z.of_N (N_of_ascii a) in
  if (48 <=? n) && (n <=? 57) then Some (n - 48)
  else if (65 <=? n) && (n <=? 70) then Some (n - 55)
  else None.

(** Reference decoder: what the verification page's query parser does. *)
Fixpoint percent_decode (s : string) : option string :=
  match s with
  | EmptyString => Some EmptyString
  | String a s' =>
      if Ascii.eqb a "%" then
        match s' with
        | String h (String l s'') =>
            hi ← hex_value h; lo ← hex_value l; r ← percent_decode s'';
            Some (String (ascii_of_N (Z.to_N (16 * hi + lo))) r)
        | _ => None
        end
      else String a <$> percent_decode s'
  end.

Lemma percent_decode_hex b :
  let n := Z.of_N (N_of_ascii b) in
  hex_value (hex_digit_upper (n / 16)) = Some (n / 16)
  /\ hex_value (hex_digit_upper (n mod 16)) = Some (n mod 16)
  /\ ascii_of_N (Z.to_N (16 * (n / 16) + n mod 16)) = b.
Proof. destruct b as [[][][][][][][][]]; vm_compute; auto. Qed.

Lemma is_unreserved_not_percent b : is_unreserved b = true -> Ascii.eqb b "%" = false.
Proof. by destruct b as [[][][][][][][][]]. Qed.

Lemma percent_decode_byte b s :
  percent_decode ((if is_unreserved b then String b EmptyString else percent_byte b) +:+ s)
  = String b <$> percent_decode s.
Proof.
  destruct (is_unreserved b) eqn:U.
  - rewrite str_app_cons. cbn [percent_decode]. by rewrite is_unreserved_not_percent.
  - destruct (percent_decode_hex b) as (H & L & E). unfold percent_byte.
    rewrite !str_app_cons. cbn [percent_decode]. cbn [Ascii.eqb Bool.eqb].
    rewrite H, L. change (EmptyString +:+ s) with s.
    destruct (percent_decode s) as [r|]; [|reflexivity].
    match goal with |- _ = ?t => transitivity (String (ascii_of_N (Z.to_N (16 * (Z.of_N (N_of_ascii b) / 16)
      + Z.of_N (N_of_ascii b) mod 16))) <$> Some r); [reflexivity|by rewrite E] end.
Qed.

Lemma percent_decode_encode s : percent_decode (urlencoding_minimal s) = Some s.
Proof.
  induction s as [|b s IH]; [done|].
  cbn [urlencoding_minimal]. by rewrite percent_decode_byte, IH.
Qed.

(** The characters a query-string value may hold. *)
Definition query_safe (a : ascii) : bool := is_unreserved a || Ascii.eqb a "%".

Fixpoint str_forall (f : ascii -> bool) (s : string) : bool :=
  match s with EmptyString => true | String a s' => f a && str_forall f s' end.

Lemma str_forall_app f s t : str_forall f (s +:+ t) = str_forall f s && str_forall f t.
Proof.
  induction s as [|a s IH]; [reflexivity|].
  rewrite str_app_cons. cbn [str_forall]. by rewrite IH, andb_assoc.
Qed.

Lemma urlencoding_minimal_safe s : str_forall query_safe (urlencoding_minimal s) = true.
Proof.
  induction s as [|b s IH]; [done|]. cbn [urlencoding_minimal].
  rewrite str_forall_app, IH, andb_true_r. by destruct b as [[][][][][][][][]].
Qed.

(** [urlencoding_minimal] loses nothing (the reference decoder recovers the
    token) and emits only bytes that cannot end or split a query value. *)
Theorem urlencoding_minimal_roundtrip s :
  percent_decode (urlencoding_minimal s) = Some s
  /\ str_forall query_safe (urlencoding_minimal s) = true.
Proof. split; [apply percent_decode_encode | apply urlencoding_minimal_safe]. Qed.

(** [is_retriable] in closed form: a transport failure, or an API error whose
    code is a rate limit or [DoesNotExist], or whose HTTP status is not a
    client error other than 404, 408 and 429. *)
Theorem is_retriable_spec e :
  is_retriable e = true <->
  (exists t, e = Transport t) \/
  (exists a, e = Api a /\
     (pe_code a = ResponseCode.TooManyRequests \/ pe_code a = ResponseCode.DoesNotExist
      \/ ~ (400 <= pe_http_status a < 500)
      \/ pe_http_status a = 404 \/ pe_http_status a = 408 \/ pe_http_status a = 429)).
Proof.
  destruct e as [a| | | | |]; simpl; try naive_solver.
  transitivity (ProtonApiError_is_retriable a = true); [done|].
  assert (ProtonApiError_is_retriable a = true <->
          pe_code a = ResponseCode.TooManyRequests \/ pe_code a = ResponseCode.DoesNotExist
          \/ ~ (400 <= pe_http_status a < 500)
          \/ pe_http_status a = 404 \/ pe_http_status a = 408 \/ pe_http_status a = 429) as ->.
  { unfold ProtonApiError_is_retriable.
    destruct (pe_code a) eqn:E; first [by intuition | rewrite !orb_true_iff, negb_true_iff,
      andb_false_iff, Z.leb_gt, Z.ltb_ge, !Z.eqb_eq; intuition (congruence || lia)]. }
  naive_solver.
Qed.
