(* ===== verification/Config.v ===== *)
(** * Client configuration and identifiers

    [crates/proton-sdk/src/config.rs] and [crates/proton-sdk/src/ids.rs].
    A [std::time::Duration] is a number of nanoseconds. *)

From S2P Require Import Prelude.

(** ** Durations *)

Module Duration.
Definition from_secs (s : Z) : Z := s * 1000000000.
Definition from_millis (m : Z) : Z := m * 1000000.
Definition as_millis (d : Z) : Z := d / 1000000.
(** [Duration::MAX]: [u64::MAX] seconds and 999,999,999 nanoseconds. *)
Definition MAX : Z := u64_max * 1000000000 + 999999999.
Definition saturating_mul (d n : Z) : Z := Z.min MAX (d * n).
(** A value the type can hold. *)
Definition valid (d : Z) : Prop := 0 <= d <= MAX.
End Duration.

(** ** Defaults *)

Definition DEFAULT_BASE_URL : string := "https://drive-api.proton.me/".
Definition DEFAULT_REFRESH_REDIRECT_URI : string := "https://proton.me".
Definition DEFAULT_TIMEOUT : Z := Duration.from_secs 30.
Definition DEFAULT_STORAGE_TIMEOUT : Z := Duration.from_secs 300.
Definition DEFAULT_MAX_RETRIES : Z := 3.
Definition DEFAULT_RETRY_BASE_DELAY : Z := Duration.from_millis 500.
Definition DEFAULT_RETRY_MAX_DELAY : Z := Duration.from_secs 30.
Definition DEFAULT_MAX_RETRY_AFTER : Z := Duration.from_secs 120.
Definition API_CONTENT_TYPE : string := "application/vnd.protonmail.api+json".

(** ** Retry policy *)

Record RetryPolicy := {
  max_retries : Z;
  base_delay : Z;
  max_delay : Z;
  max_retry_after : Z
}.

Definition RetryPolicy_default : RetryPolicy :=
  {| max_retries := DEFAULT_MAX_RETRIES;
     base_delay := DEFAULT_RETRY_BASE_DELAY;
     max_delay := DEFAULT_RETRY_MAX_DELAY;
     max_retry_after := DEFAULT_MAX_RETRY_AFTER |}.

Definition RetryPolicy_disabled : RetryPolicy :=
  {| max_retries := 0;
     base_delay := base_delay RetryPolicy_default;
     max_delay := max_delay RetryPolicy_default;
     max_retry_after := max_retry_after RetryPolicy_default |}.

(** The field types: a [u32] and three durations. *)
Record RetryPolicy_wf (p : RetryPolicy) : Prop := {
  wf_max_retries : 0 <= max_retries p <= u32_max;
  wf_base_delay : Duration.valid (base_delay p);
  wf_max_delay : Duration.valid (max_delay p);
  wf_max_retry_after : Duration.valid (max_retry_after p)
}.

(** ** Client configuration *)

Record ProtonClientConfiguration := {
  cfg_base_url : string;
  cfg_app_version : string;
  cfg_user_agent : string;
  cfg_refresh_redirect_uri : string;
  cfg_request_timeout : Z;
  cfg_storage_timeout : Z;
  cfg_retry_policy : RetryPolicy
}.

Definition ProtonClientConfiguration_new (app_version : string) : ProtonClientConfiguration :=
  {| cfg_base_url := DEFAULT_BASE_URL;
     cfg_app_version := app_version;
     cfg_user_agent := "";
     cfg_refresh_redirect_uri := DEFAULT_REFRESH_REDIRECT_URI;
     cfg_request_timeout := DEFAULT_TIMEOUT;
     cfg_storage_timeout := DEFAULT_STORAGE_TIMEOUT;
     cfg_retry_policy := RetryPolicy_default |}.

Definition with_base_url (u : string) (c : ProtonClientConfiguration) :=
  {| cfg_base_url := u; cfg_app_version := cfg_app_version c;
     cfg_user_agent := cfg_user_agent c;
     cfg_refresh_redirect_uri := cfg_refresh_redirect_uri c;
     cfg_request_timeout := cfg_request_timeout c;
     cfg_storage_timeout := cfg_storage_timeout c;
     cfg_retry_policy := cfg_retry_policy c |}.

Definition with_user_agent (u : string) (c : ProtonClientConfiguration) :=
  {| cfg_base_url := cfg_base_url c; cfg_app_version := cfg_app_version c;
     cfg_user_agent := u;
     cfg_refresh_redirect_uri := cfg_refresh_redirect_uri c;
     cfg_request_timeout := cfg_request_timeout c;
     cfg_storage_timeout := cfg_storage_timeout c;
     cfg_retry_policy := cfg_retry_policy c |}.

Definition with_request_timeout (t : Z) (c : ProtonClientConfiguration) :=
  {| cfg_base_url := cfg_base_url c; cfg_app_version := cfg_app_version c;
     cfg_user_agent := cfg_user_agent c;
     cfg_refresh_redirect_uri := cfg_refresh_redirect_uri c;
     cfg_request_timeout := t;
     cfg_storage_timeout := cfg_storage_timeout c;
     cfg_retry_policy := cfg_retry_policy c |}.

Definition with_storage_timeout (t : Z) (c : ProtonClientConfiguration) :=
  {| cfg_base_url := cfg_base_url c; cfg_app_version := cfg_app_version c;
     cfg_user_agent := cfg_user_agent c;
     cfg_refresh_redirect_uri := cfg_refresh_redirect_uri c;
     cfg_request_timeout := cfg_request_timeout c;
     cfg_storage_timeout := t;
     cfg_retry_policy := cfg_retry_policy c |}.

Definition with_retry_policy (p : RetryPolicy) (c : ProtonClientConfiguration) :=
  {| cfg_base_url := cfg_base_url c; cfg_app_version := cfg_app_version c;
     cfg_user_agent := cfg_user_agent c;
     cfg_refresh_redirect_uri := cfg_refresh_redirect_uri c;
     cfg_request_timeout := cfg_request_timeout c;
     cfg_storage_timeout := cfg_storage_timeout c;
     cfg_retry_policy := p |}.

(** ** Identifiers

    The [string_id!] newtypes are transparent strings; a distinct name per use
    keeps signatures readable. *)

Abbreviation SessionId := string.
Abbreviation UserId := string.
Abbreviation AddressId := string.
Abbreviation VolumeId := string.
Abbreviation ShareId := string.
Abbreviation LinkId := string.
Abbreviation DriveEventId := string.
Abbreviation ShareMembershipId := string.
Abbreviation DeviceUid := string.

Record NodeUid := { volume_id : VolumeId; link_id : LinkId }.

#[global] Instance NodeUid_eq_dec : EqDecision NodeUid.
Proof. solve_decision. Defined.

#[global] Program Instance NodeUid_countable : Countable NodeUid :=
  inj_countable' (fun u => (volume_id u, link_id u))
                 (fun p => {| volume_id := p.1; link_id := p.2 |}) _.
Next Obligation. by intros []. Qed.

Definition NodeUid_new (v : VolumeId) (l : LinkId) : NodeUid :=
  {| volume_id := v; link_id := l |}.

(** [Display]: [{volume_id}~{link_id}]. *)
Definition NodeUid_display (u : NodeUid) : string := volume_id u +:+ "~" +:+ link_id u.

Lemma RetryPolicy_default_wf : RetryPolicy_wf RetryPolicy_default.
Proof. split; vm_compute; split; discriminate. Qed.
