(* ===== verification/Keys.v ===== *)
(** * Private keys and key passphrases

    From [crates/proton-sdk/src/crypto/]: the loop over candidate keys
    ([messages.rs], [keys.rs]) and the derivation of a key's passphrase from the
    mailbox password ([derive.rs]).  What the [pgp] and [bcrypt] crates do is the
    interface: opening a locked key, decrypting one message with one key, one
    bcrypt hash. *)

From S2P Require Import Prelude Errors.

(** A [PrivateKey]'s operations, and [String::from_utf8]. *)
Class KeyOps (Key : Type) := {
  decrypt_armored_message : Key -> string -> result string CryptoError;
  key_from_armored : string -> string -> result Key CryptoError;
  utf8_text : string -> result string string
}.

(** What a content key does. *)
Class ContentOps (Key CKey : Type) := {
  decrypt_content_key : Key -> string -> result CKey CryptoError;
  decrypt_thumbnail : CKey -> string -> result string CryptoError;
  decrypt_block : CKey -> string -> result string CryptoError
}.

Class ContentKeyExport (CKey : Type) := { export_content_key : CKey -> result string CryptoError }.

Section Candidates.
Context {Key : Type} `{KeyOps Key}.

(** The [for] of [decrypt_armored_any], with the last error so far. *)
Fixpoint decrypt_armored_any (armored : string) (keys : list Key) (last_err : CryptoError)
  : result string CryptoError :=
  match keys with
  | [] => Err last_err
  | key :: keys =>
      match decrypt_armored_message key armored with
      | Ok plaintext => Ok plaintext
      | Err e => decrypt_armored_any armored keys e
      end
  end.

Definition decrypt_armored_with_keys (armored : string) (keys : list Key)
  : result string CryptoError :=
  decrypt_armored_any armored keys (CDecrypt "no candidate keys").

(** It opens with the first key that can. *)
Lemma decrypt_armored_any_ok armored keys e plaintext :
  decrypt_armored_any armored keys e = Ok plaintext <->
  exists before key after, keys = before ++ key :: after /\
    Forall (fun k => is_ok (decrypt_armored_message k armored) = false) before /\
    decrypt_armored_message key armored = Ok plaintext.
Proof.
  revert e. induction keys as [|k keys IH]; intros e; simpl.
  - split; [done|]. intros (before & key & after & Heq & _). by destruct before.
  - destruct (decrypt_armored_message k armored) as [p|e'] eqn:Hk.
    + split.
      * intros [= ->]. exists [], k, keys. by repeat constructor.
      * intros ([|k' before] & key & after & Heq & Hb & Hkey); simplify_eq/=; [by rewrite Hk in Hkey|].
        apply Forall_cons in Hb as [Hb _]. by rewrite Hk in Hb.
    + rewrite IH. split.
      * intros (before & key & after & -> & Hb & Hkey). exists (k :: before), key, after.
        split_and!; [done| |done]. constructor; [by rewrite Hk|done].
      * intros ([|k' before] & key & after & Heq & Hb & Hkey); simplify_eq/=; [by rewrite Hk in Hkey|].
        apply Forall_cons in Hb as [_ Hb]. by exists before, key, after.
Qed.

(** More candidates never lose a message that opened. *)
Lemma decrypt_armored_any_app armored keys keys' e p :
  decrypt_armored_any armored keys e = Ok p -> decrypt_armored_any armored (keys ++ keys') e = Ok p.
Proof.
  rewrite !decrypt_armored_any_ok. intros (before & key & after & -> & Hb & Hk).
  exists before, key, (after ++ keys'). by rewrite <- app_assoc.
Qed.
End Candidates.

(** ** The mailbox password *)

Definition BCRYPT_COST : Z := 10.
Definition BCRYPT_PREFIX_LEN : nat := 29.

(** [bcrypt::hash_with_salt(..).to_string()], and [base64]'s standard alphabet. *)
Class PassphraseOps := {
  bcrypt_hash : string -> Z -> string -> result string string;
  base64_standard_decode : string -> result string string
}.

(** [str::get(n..)] on the ASCII text a bcrypt hash is. *)
Definition str_from (n : nat) (s : string) : option string :=
  if (n <=? String.length s)%nat
  then Some (String.substring n (String.length s - n) s) else None.

Definition derive_key_passphrase `{PassphraseOps} (password salt : string)
  : result string CryptoError :=
  if negb (Nat.eqb (String.length salt) 16) then
    Err (CUnlock ("key salt must be 16 bytes, got " +:+ pretty (Z.of_nat (String.length salt))))
  else
    let? hash := map_err (fun e => CUnlock ("bcrypt: " +:+ e))
                   (bcrypt_hash password BCRYPT_COST salt) in
    ok_or (str_from BCRYPT_PREFIX_LEN hash) (CUnlock "bcrypt hash shorter than expected").
