(* ===== verification/Sealing.v ===== *)
(** * Sealing new material

    From [crates/proton-sdk/src/crypto/encrypt.rs]: fresh node keys and hash keys,
    and what a new volume, a new share, an invitation and its acceptance are made
    of; from [content.rs], a message under a session key for several recipients.

    The packets of the [pgp] crate and its random generator are the interfaces
    [SealOps] and [SessionKeyOps]; each function here is the composition the code
    makes of them.  The state is whatever draws the randomness. *)

From S2P Require Import Prelude Errors Config Keys.

Inductive KeyVersion := V4 | V6.

Class SealOps (W Key : Type) := {
  fill_bytes : nat -> W -> string * W;
  base64_standard_encode : string -> string;
  (** key parameters, generation, locking and armor *)
  generate_locked_key : KeyVersion -> string -> M W string CryptoError;
  key_encrypt : Key -> string -> M W string CryptoError;
  (** to this key, signed by that one: [text], [compress] *)
  key_encrypt_and_sign : Key -> Key -> string -> bool -> bool -> M W string CryptoError;
  key_sign_detached : Key -> string -> M W string CryptoError;
  sign_detached_binary_with_context : Key -> string -> string -> M W string CryptoError
}.

(** [ContentKey] as a session key that travels. *)
Class SessionKeyOps (W Key Pub CKey : Type) := {
  session_key_generate : W -> CKey * W;
  to_packet : CKey -> Key -> M W string CryptoError;
  to_packet_for_public : CKey -> Pub -> M W string CryptoError;
  seal_block : CKey -> string -> M W string CryptoError;
  armor_message : string -> result string CryptoError
}.

Record GeneratedNodeKey (Key : Type) := {
  gk_key : Key;
  gk_locked_armored : string;
  gk_passphrase : string
}.
Arguments gk_key {Key}. Arguments gk_locked_armored {Key}. Arguments gk_passphrase {Key}.

Record VolumeCreationMaterial := {
  vm_share_key_armored : string;
  vm_share_passphrase : string;
  vm_share_passphrase_signature : string;
  vm_folder_name : string;
  vm_folder_key_armored : string;
  vm_folder_passphrase : string;
  vm_folder_passphrase_signature : string;
  vm_folder_hash_key : string
}.

Record StandardShareMaterial (Key CKey : Type) := {
  ss_share_key_armored : string;
  ss_share_passphrase : string;
  ss_share_passphrase_signature : string;
  ss_passphrase_key_packet : string;
  ss_name_key_packet : string;
  ss_share_key : Key;
  ss_share_session_key : CKey
}.
Arguments ss_share_key_armored {Key CKey}. Arguments ss_share_passphrase {Key CKey}.
Arguments ss_share_passphrase_signature {Key CKey}. Arguments ss_passphrase_key_packet {Key CKey}.
Arguments ss_name_key_packet {Key CKey}. Arguments ss_share_key {Key CKey}.
Arguments ss_share_session_key {Key CKey}.

Definition SHARING_MEMBER_CONTEXT : string := "drive.share-member.member".
Definition SHARING_EXTERNAL_INVITATION_CONTEXT : string := "drive.share-member.external-invitation".
Definition SHARING_INVITER_CONTEXT : string := "drive.share-member.inviter".

Section Sealing.
Context {W Key : Type} `{KeyOps Key} `{SealOps W Key} `{PassphraseOps}.

Definition random_bytes (n : nat) : M W string CryptoError := fun w =>
  let (bytes, w) := fill_bytes n w in (Ok bytes, w).

Definition generate_passphrase : M W string CryptoError :=
  let* bytes := random_bytes 32 in
  mret (base64_standard_encode bytes).

Definition generate_node_key_versioned (version : KeyVersion) : M W (GeneratedNodeKey Key) CryptoError :=
  let* passphrase := generate_passphrase in
  let* pw_string := mlift (map_err (fun e => CEncrypt ("passphrase is not ascii: " +:+ e))
                             (utf8_text passphrase)) in
  let* locked_armored := generate_locked_key version pw_string in
  let* key := mlift (key_from_armored locked_armored passphrase) in
  mret {| gk_key := key; gk_locked_armored := locked_armored; gk_passphrase := passphrase |}.

Definition generate_node_key : M W (GeneratedNodeKey Key) CryptoError := generate_node_key_versioned V4.

Definition generate_node_key_aead : M W (GeneratedNodeKey Key) CryptoError := generate_node_key_versioned V6.

Definition generate_node_hash_key (node_key : Key) : M W string CryptoError :=
  let* bytes := random_bytes 32 in
  key_encrypt_and_sign node_key node_key bytes false false.

Definition build_volume_creation_material (address_key : Key) (root_folder_name : string)
  : M W VolumeCreationMaterial CryptoError :=
  let* share := generate_node_key in
  let* folder := generate_node_key in
  let* share_passphrase := key_encrypt address_key (gk_passphrase share) in
  let* share_passphrase_signature := key_sign_detached address_key (gk_passphrase share) in
  let* folder_name := key_encrypt_and_sign (gk_key share) address_key root_folder_name true false in
  let* folder_passphrase := key_encrypt (gk_key share) (gk_passphrase folder) in
  let* folder_passphrase_signature := key_sign_detached address_key (gk_passphrase folder) in
  let* hash_key := random_bytes 32 in
  let* folder_hash_key := key_encrypt_and_sign (gk_key folder) address_key hash_key false false in
  mret {| vm_share_key_armored := gk_locked_armored share;
          vm_share_passphrase := share_passphrase;
          vm_share_passphrase_signature := share_passphrase_signature;
          vm_folder_name := folder_name;
          vm_folder_key_armored := gk_locked_armored folder;
          vm_folder_passphrase := folder_passphrase;
          vm_folder_passphrase_signature := folder_passphrase_signature;
          vm_folder_hash_key := folder_hash_key |}.

(** ** Shares and invitations *)

Section Sharing.
Context {Pub CKey : Type} `{SessionKeyOps W Key Pub CKey} `{ContentOps Key CKey} `{ContentKeyExport CKey}.

(** The packets, one recipient after another. *)
Fixpoint packets_for (session_key : CKey) (recipients : list Key) (message : string)
  : M W string CryptoError :=
  match recipients with
  | [] => mret message
  | recipient :: recipients =>
      let* packet := to_packet session_key recipient in
      packets_for session_key recipients (message +:+ packet)
  end.

Definition encrypt_message_to (session_key : CKey) (recipients : list Key) (data : string)
  : M W string CryptoError :=
  match recipients with
  | [] => mfail (CEncrypt "encrypt_message_to needs at least one recipient")
  | _ =>
      let* message := packets_for session_key recipients EmptyString in
      let* block := seal_block session_key data in
      mlift (armor_message (message +:+ block))
  end.

Definition build_standard_share_material (node_key : Key)
    (node_passphrase_session_key node_name_session_key : CKey) (address_key : Key)
  : M W (StandardShareMaterial Key CKey) CryptoError :=
  let* generated := generate_node_key in
  let* share_session_key := fun w => let (k, w) := session_key_generate w in (Ok k, w) in
  let* share_passphrase :=
    encrypt_message_to share_session_key [node_key; address_key] (gk_passphrase generated) in
  let* share_passphrase_signature := key_sign_detached address_key (gk_passphrase generated) in
  let* passphrase_key_packet := to_packet node_passphrase_session_key (gk_key generated) in
  let* name_key_packet := to_packet node_name_session_key (gk_key generated) in
  mret {| ss_share_key_armored := gk_locked_armored generated;
          ss_share_passphrase := share_passphrase;
          ss_share_passphrase_signature := share_passphrase_signature;
          ss_passphrase_key_packet := base64_standard_encode passphrase_key_packet;
          ss_name_key_packet := base64_standard_encode name_key_packet;
          ss_share_key := gk_key generated;
          ss_share_session_key := share_session_key |}.

Definition encrypt_invitation (share_session_key : CKey) (inviter_key : Key) (invitee_public_key : Pub)
  : M W (string * string) CryptoError :=
  let* key_packet := to_packet_for_public share_session_key invitee_public_key in
  let* signature := sign_detached_binary_with_context inviter_key key_packet SHARING_INVITER_CONTEXT in
  mret (base64_standard_encode key_packet, base64_standard_encode signature).

Definition accept_invitation (base64_key_packet : string) (invitee_keys : list Key) (signing_key : Key)
  : M W string CryptoError :=
  let* key_packet := mlift (map_err (fun e => CParse ("invitation key packet base64: " +:+ e))
                              (base64_standard_decode base64_key_packet)) in
  let* session_key := mlift (ok_or (head (omap (fun k => ok (decrypt_content_key k key_packet)) invitee_keys))
    (CDecrypt "no invitee key could decrypt the invitation key packet")) in
  let* exported := mlift (export_content_key session_key) in
  let* signature := sign_detached_binary_with_context signing_key exported SHARING_MEMBER_CONTEXT in
  mret (base64_standard_encode signature).

Definition encrypt_external_invitation (share_session_key : CKey) (inviter_key : Key)
    (invitee_email : string) : M W string CryptoError :=
  let* exported := mlift (export_content_key share_session_key) in
  let payload := invitee_email +:+ "|" +:+ base64_standard_encode exported in
  let* signature := sign_detached_binary_with_context inviter_key payload
                      SHARING_EXTERNAL_INVITATION_CONTEXT in
  mret (base64_standard_encode signature).
End Sharing.
End Sealing.
