(* ===== verification/Http.v ===== *)
(** * The HTTP client: retries, envelopes, token refresh

    [crates/proton-sdk/src/http.rs] with the operation timer of
    [crates/proton-sdk/src/telemetry.rs].

    The network, the clock and the random generator are the interface
    [HttpWorld]; what a [reqwest] request carries is the record [request].  The
    mutable half of [Inner] (tokens, telemetry sink, refresh callback) is
    [client_state], the immutable half [ApiHttpClient].  The refresh lock makes
    [refresh_access_token_now] one atomic step. *)

From S2P Require Import Prelude Errors Config.

(** ** Telemetry *)

Inductive Outcome : Type := Success | Failure.

Definition Outcome_as_str (o : Outcome) : string :=
  match o with Success => "success" | Failure => "failure" end.

Record TelemetryEvent := {
  ev_operation : string;
  ev_outcome : Outcome;
  ev_duration : Z;
  ev_attributes : list (string * string)
}.

(** A telemetry sink is named by a number; [None] is [NoopTelemetry]. *)
Abbreviation sink := (option nat).

Record OpTimer := {
  ot_telemetry : sink;
  ot_operation : string;
  ot_start : Z;
  ot_outcome : Outcome;
  ot_attributes : list (string * string)
}.

Definition OpTimer_success (t : OpTimer) : OpTimer :=
  {| ot_telemetry := ot_telemetry t; ot_operation := ot_operation t;
     ot_start := ot_start t; ot_outcome := Success; ot_attributes := ot_attributes t |}.

Definition OpTimer_attr (k v : string) (t : OpTimer) : OpTimer :=
  {| ot_telemetry := ot_telemetry t; ot_operation := ot_operation t;
     ot_start := ot_start t; ot_outcome := ot_outcome t;
     ot_attributes := ot_attributes t ++ [(k, v)] |}.

(** [TelemetryExt::start] *)
Definition OpTimer_start (s : sink) (now : Z) (operation : string) : OpTimer :=
  {| ot_telemetry := s; ot_operation := operation; ot_start := now;
     ot_outcome := Failure; ot_attributes := [] |}.

(** [Drop for OpTimer]: what is recorded, and at which sink. *)
Definition OpTimer_drop (now : Z) (t : OpTimer) : option (nat * TelemetryEvent) :=
  s ← ot_telemetry t;
  Some (s, {| ev_operation := ot_operation t; ev_outcome := ot_outcome t;
              ev_duration := now - ot_start t; ev_attributes := ot_attributes t |}).

(** ** Requests and responses *)

Inductive Method : Type := GET | POST | PUT | DELETE.

Definition Method_as_str (m : Method) : string :=
  match m with GET => "GET" | POST => "POST" | PUT => "PUT" | DELETE => "DELETE" end.

Record multipart_part := {
  part_name : string;
  part_file_name : string;
  part_mime : string;
  part_content : string
}.

Inductive request_body : Type :=
| NoBody
| JsonBody (text : string)
| MultipartBody (parts : list multipart_part).

Record request := {
  rq_method : Method;
  rq_url : string;
  rq_headers : list (string * string);
  rq_bearer : option string;
  rq_timeout : Z;
  rq_body : request_body
}.

(** What the client observes of a [reqwest::Response]: the body is read
    separately and may break off. [rs_retry_after] is the header's value when it
    is a visible string. *)
Record response := {
  rs_status : Z;
  rs_path : string;
  rs_retry_after : option string;
  rs_body : result string transport_error
}.

Abbreviation outcome := (result response transport_error).

(** ** The world the client acts on *)

Class HttpWorld (W : Type) := {
  world_send : request -> W -> outcome * W;
  world_sleep : Z -> W -> W;
  (** a uniform draw from [0..=n] *)
  world_random : Z -> W -> Z * W;
  world_now : W -> Z;
  (** what has been put on the wire, with its outcomes *)
  world_trace : W -> list (request * outcome)
}.

Class HttpWorldLaws (W : Type) `{HttpWorld W} : Prop := {
  trace_send r w : world_trace (world_send r w).2
                   = world_trace w ++ [(r, (world_send r w).1)];
  trace_sleep d w : world_trace (world_sleep d w) = world_trace w;
  trace_random n w : world_trace (world_random n w).2 = world_trace w;
  random_range n w : 0 <= n -> 0 <= (world_random n w).1 <= n
}.

(** What the JSON and HTTP libraries decide: the envelope and the raw [Code] of
    a body, a status code's canonical reason, the refresh response. *)
Class HttpCodec := {
  decode_envelope : string -> option ApiResponse;
  decode_raw_code : string -> option Z;
  canonical_reason : Z -> option string;
  decode_refresh : string -> result (string * string) string;
  encode_refresh : list (string * string) -> string;
  (** [client_builder(config).build()]: the error, when it fails *)
  client_build_error : ProtonClientConfiguration -> option transport_error
}.

(** ** Constants and URL assembly *)

Definition SESSION_ID_HEADER : string := "x-pm-uid".
Definition APP_VERSION_HEADER : string := "x-pm-appversion".
Definition STORAGE_TOKEN_HEADER : string := "pm-storage-token".
Definition HV_TOKEN_HEADER : string := "x-pm-human-verification-token".
Definition HV_TOKEN_TYPE_HEADER : string := "x-pm-human-verification-token-type".

Definition ensure_trailing_slash (url : string) : string :=
  if Str.ends_with "/" url then url else url +:+ "/".

(** ** Retry decisions *)

Inductive Replay : Type := Safe | Unsafe.

#[global] Instance Replay_eq_dec : EqDecision Replay.
Proof. solve_decision. Defined.

Definition is_retryable_status (status : Z) : bool :=
  (status =? 408) || (status =? 429) || (status =? 502) || (status =? 503) || (status =? 504).

Definition is_retryable_error (err : transport_error) (replay : Replay) : bool :=
  te_is_timeout err || te_is_connect err || (bool_decide (replay = Safe) && te_is_request err).

Definition is_ascii_space (a : ascii) : bool :=
  let n := Z.of_N (N_of_ascii a) in ((9 <=? n) && (n <=? 13)) || (n =? 32).

Fixpoint trim_start (s : string) : string :=
  match s with
  | String a s' => if is_ascii_space a then trim_start s' else s
  | EmptyString => EmptyString
  end.

Fixpoint trim_end (s : string) : string :=
  match s with
  | EmptyString => EmptyString
  | String a s' =>
      match trim_end s' with
      | EmptyString => if is_ascii_space a then EmptyString else String a EmptyString
      | t => String a t
      end
  end.

Definition digit_value (a : ascii) : option Z :=
  let n := Z.of_N (N_of_ascii a) in
  if (48 <=? n) && (n <=? 57) then Some (n - 48) else None.

(** Decimal digits into an accumulator, failing past [u64::MAX]. *)
Fixpoint parse_digits (acc : Z) (s : string) : option Z :=
  match s with
  | EmptyString => Some acc
  | String a s' =>
      d ← digit_value a;
      let acc' := 10 * acc + d in
      if u64_max <? acc' then None else parse_digits acc' s'
  end.

(** [str::parse::<u64>()]: an optional [+], then at least one digit. *)
Definition parse_u64 (s : string) : option Z :=
  match s with
  | EmptyString => None
  | String a s' =>
      if Ascii.eqb a "+" then
        match s' with EmptyString => None | _ => parse_digits 0 s' end
      else parse_digits 0 s
  end.

Definition parse_retry_after_secs (value : string) : option Z :=
  Duration.from_secs <$> parse_u64 (trim_end (trim_start value)).

Definition retry_after (r : response) : option Z := rs_retry_after r ≫= parse_retry_after_secs.

(** [1u32.checked_shl(attempt).unwrap_or(u32::MAX)] *)
Definition shl_1_u32 (attempt : Z) : Z := if attempt <? 32 then 2 ^ attempt else u32_max.

(** The jitter's upper bound, in milliseconds. *)
Definition backoff_ceiling_ms (policy : RetryPolicy) (attempt : Z) : Z :=
  wrap_u64 (Duration.as_millis
    (Z.min (Duration.saturating_mul (base_delay policy) (shl_1_u32 attempt)) (max_delay policy))).

(** ** Sending *)

(** A response with its body read to the end. *)
Record Buffered := { bf_status : Z; bf_path : string; bf_bytes : string }.

Definition Buffered_read (r : response) : result Buffered transport_error :=
  let? bytes := rs_body r in
  Ok {| bf_status := rs_status r; bf_path := rs_path r; bf_bytes := bytes |}.

Section Sending.
Context {W : Type} `{HttpWorld W}.

Definition backoff (policy : RetryPolicy) (attempt : Z) (w : W) : Z * W :=
  let ceiling_ms := backoff_ceiling_ms policy attempt in
  if ceiling_ms =? 0 then (0, w)
  else let (ms, w) := world_random ceiling_ms w in (Duration.from_millis ms, w).

(** The wait before a retry of a response with a retryable status. *)
Definition response_delay (policy : RetryPolicy) (r : response) (attempt : Z) (w : W) : Z * W :=
  match retry_after r with
  | Some delay => (Z.min delay (max_retry_after policy), w)
  | None => backoff policy attempt w
  end.

(** The loop of [send_retrying]; [remaining] is [max_retries - attempt], so
    [attempt < policy.max_retries] is [remaining <> 0]. *)
Fixpoint send_retrying_loop (policy : RetryPolicy) (replay : Replay) (build : request)
    (remaining : nat) (attempt : Z) (w : W) : Res Buffered * W :=
  let retry_or_fail (retryable : bool) (err : transport_error) (w : W) :=
    match remaining, retryable with
    | S remaining', true =>
        let (delay, w) := backoff policy attempt w in
        send_retrying_loop policy replay build remaining' (attempt + 1) (world_sleep delay w)
    | _, _ => (Err (Transport err), w)
    end in
  let (out, w) := world_send build w in
  match out with
  | Ok resp =>
      match remaining, is_retryable_status (rs_status resp) with
      | S remaining', true =>
          let (delay, w) := response_delay policy resp attempt w in
          send_retrying_loop policy replay build remaining' (attempt + 1) (world_sleep delay w)
      | _, _ =>
          match Buffered_read resp with
          | Ok buffered => (Ok buffered, w)
          | Err err => retry_or_fail (bool_decide (replay = Safe)) err w
          end
      end
  | Err err => retry_or_fail (is_retryable_error err replay) err w
  end.

Definition send_retrying (policy : RetryPolicy) (replay : Replay) (build : request)
    (w : W) : Res Buffered * W :=
  send_retrying_loop policy replay build (Z.to_nat (max_retries policy)) 0 w.

Fixpoint send_unrepeatable_loop (policy : RetryPolicy) (build : request)
    (remaining : nat) (attempt : Z) (w : W) : Res response * W :=
  let (out, w) := world_send build w in
  match out with
  | Ok resp => (Ok resp, w)
  | Err err =>
      match remaining, te_is_connect err with
      | S remaining', true =>
          let (delay, w) := backoff policy attempt w in
          send_unrepeatable_loop policy build remaining' (attempt + 1) (world_sleep delay w)
      | _, _ => (Err (Transport err), w)
      end
  end.

Definition send_unrepeatable (policy : RetryPolicy) (build : request) (w : W) : Res response * W :=
  send_unrepeatable_loop policy build (Z.to_nat (max_retries policy)) 0 w.
End Sending.

(** ** Reading a response *)

Section Parsing.
Context `{HttpCodec}.

Definition unwrap_or {A} (o : option A) (d : A) : A := match o with Some a => a | None => d end.

Definition api_error (status : Z) (bytes : string) : ProtonError :=
  let envelope := decode_envelope bytes in
  let code := unwrap_or (ar_code <$> envelope) ResponseCode.Unknown in
  let details := envelope ≫= ar_details in
  let message := unwrap_or (envelope ≫= ar_error_message)
                           (unwrap_or (canonical_reason status) "unknown error") in
  Api {| pe_code := code; pe_http_status := status;
         pe_message := message; pe_details := details |}.

(** [StatusCode::is_success]: the 2xx class. *)
Definition status_is_success (status : Z) : bool := (200 <=? status) && (status <? 300).

Definition parse_buffered {T} (decode : string -> result T string) (b : Buffered) : Res T :=
  let failed :=
    match decode_envelope (bf_bytes b) with
    | Some envelope =>
        negb (ApiResponse_is_success envelope)
        && negb (bool_decide (ar_code envelope = ResponseCode.MultipleResponses))
    | None => negb (status_is_success (bf_status b))
    end in
  if failed then Err (api_error (bf_status b) (bf_bytes b))
  else map_err Serialization (decode (bf_bytes b)).

Definition parse_response {T} (decode : string -> result T string) (r : response) : Res T :=
  match Buffered_read r with
  | Ok b => parse_buffered decode b
  | Err e => Err (Transport e)
  end.

(** The check the two block-storage calls make on their body. *)
Definition storage_check (b : Buffered) : Res unit :=
  match decode_envelope (bf_bytes b) with
  | Some envelope =>
      if ApiResponse_is_success envelope then Ok tt
      else Err (api_error (bf_status b) (bf_bytes b))
  | None =>
      if status_is_success (bf_status b) then Ok tt
      else Err (api_error (bf_status b) (bf_bytes b))
  end.
End Parsing.

(** ** The client *)

Record Tokens := { access_token : string; refresh_token : string }.

#[global] Instance Tokens_eq_dec : EqDecision Tokens.
Proof. solve_decision. Defined.

(** The immutable half of [ApiHttpClient]. *)
Record ApiHttpClient := {
  hc_base_url : string;
  hc_config : ProtonClientConfiguration;
  hc_session_id : SessionId;
  hc_route_prefix : string;
  hc_refresh_tokens : bool
}.

(** The shared mutable state of [Inner]; [cs_callbacks] is what the refresh
    callback, when one is set, has been called with. *)
Record client_state (W : Type) := {
  cs_tokens : Tokens;
  cs_telemetry : sink;
  cs_has_callback : bool;
  cs_events : list (nat * TelemetryEvent);
  cs_callbacks : list Tokens;
  cs_world : W
}.
Arguments cs_tokens {W}. Arguments cs_telemetry {W}. Arguments cs_has_callback {W}.
Arguments cs_events {W}. Arguments cs_callbacks {W}. Arguments cs_world {W}.

Definition ApiHttpClient_init {W} (config : ProtonClientConfiguration) (session_id : SessionId)
    (tokens : Tokens) (w : W) : ApiHttpClient * client_state W :=
  ({| hc_base_url := ensure_trailing_slash (cfg_base_url config);
      hc_config := config;
      hc_session_id := session_id;
      hc_route_prefix := "";
      hc_refresh_tokens := true |},
   {| cs_tokens := tokens; cs_telemetry := None; cs_has_callback := false;
      cs_events := []; cs_callbacks := []; cs_world := w |}).

Definition ApiHttpClient_new {W} `{HttpCodec} (config : ProtonClientConfiguration)
    (session_id : SessionId) (tokens : Tokens) (w : W) : Res (ApiHttpClient * client_state W) :=
  match client_build_error config with
  | Some e => Err (Transport e)
  | None => Ok (ApiHttpClient_init config session_id tokens w)
  end.

Definition with_base_route (route : string) (c : ApiHttpClient) : ApiHttpClient :=
  {| hc_base_url := hc_base_url c; hc_config := hc_config c; hc_session_id := hc_session_id c;
     hc_route_prefix := route; hc_refresh_tokens := hc_refresh_tokens c |}.

Definition without_token_refresh (c : ApiHttpClient) : ApiHttpClient :=
  {| hc_base_url := hc_base_url c; hc_config := hc_config c; hc_session_id := hc_session_id c;
     hc_route_prefix := hc_route_prefix c; hc_refresh_tokens := false |}.

(** Field updates of [client_state]. *)
Definition cs_on_world {W} (f : W -> W) (s : client_state W) : client_state W :=
  {| cs_tokens := cs_tokens s; cs_telemetry := cs_telemetry s;
     cs_has_callback := cs_has_callback s; cs_events := cs_events s;
     cs_callbacks := cs_callbacks s; cs_world := f (cs_world s) |}.

Definition set_telemetry {W} (t : sink) (s : client_state W) : client_state W :=
  {| cs_tokens := cs_tokens s; cs_telemetry := t; cs_has_callback := cs_has_callback s;
     cs_events := cs_events s; cs_callbacks := cs_callbacks s; cs_world := cs_world s |}.

Definition set_on_tokens_refreshed {W} (s : client_state W) : client_state W :=
  {| cs_tokens := cs_tokens s; cs_telemetry := cs_telemetry s; cs_has_callback := true;
     cs_events := cs_events s; cs_callbacks := cs_callbacks s; cs_world := cs_world s |}.

Definition current_tokens {W} (s : client_state W) : Tokens := cs_tokens s.

(** The store half of [refresh_access_token_now]: write the tokens, then call
    the callback if one is set. *)
Definition store_tokens {W} (t : Tokens) (s : client_state W) : client_state W :=
  {| cs_tokens := t; cs_telemetry := cs_telemetry s; cs_has_callback := cs_has_callback s;
     cs_events := cs_events s;
     cs_callbacks := if cs_has_callback s then cs_callbacks s ++ [t] else cs_callbacks s;
     cs_world := cs_world s |}.

Definition record_event {W} (e : option (nat * TelemetryEvent)) (s : client_state W)
  : client_state W :=
  match e with
  | None => s
  | Some e =>
      {| cs_tokens := cs_tokens s; cs_telemetry := cs_telemetry s;
         cs_has_callback := cs_has_callback s; cs_events := cs_events s ++ [e];
         cs_callbacks := cs_callbacks s; cs_world := cs_world s |}
  end.

Section Client.
Context {W : Type} `{HttpWorld W} `{HttpCodec}.
Abbreviation CM A := (M (client_state W) A ProtonError).
(** A computation that also owns the operation's timer. *)
Abbreviation TM A := (M (OpTimer * client_state W) A ProtonError).

Definition on_world {A} (f : W -> Res A * W) : CM A := fun s =>
  let (r, w) := f (cs_world s) in (r, cs_on_world (fun _ => w) s).

Definition untimed {A} (m : CM A) : TM A := fun '(t, s) =>
  let (r, s') := m s in (r, (t, s')).

Definition timer_attr (k v : string) : TM unit := mmodify (fun '(t, s) => (OpTimer_attr k v t, s)).
Definition timer_success : TM unit := mmodify (fun '(t, s) => (OpTimer_success t, s)).

(** A scope that owns an [OpTimer]: started on entry, recorded when dropped,
    on every exit. *)
Definition timed {A} (operation : string) (body : TM A) : CM A := fun s =>
  let t := OpTimer_start (cs_telemetry s) (world_now (cs_world s)) operation in
  let '(r, (t', s')) := body (t, s) in
  (r, record_event (OpTimer_drop (world_now (cs_world s')) t') s').

Definition user_agent_header (c : ApiHttpClient) : list (string * string) :=
  if Str.is_empty (cfg_user_agent (hc_config c)) then []
  else [("user-agent", cfg_user_agent (hc_config c))].

Definition api_url (c : ApiHttpClient) (path : string) : string :=
  hc_base_url c +:+ hc_route_prefix c +:+ Str.trim_start_matches "/" path.

Definition policy_of (c : ApiHttpClient) : RetryPolicy := cfg_retry_policy (hc_config c).

(** *** Block storage *)

Definition get_storage_blob (c : ApiHttpClient) (url token : string) : CM string :=
  timed "storage_download" (
    let* b := untimed (on_world (send_retrying (policy_of c) Safe
      {| rq_method := GET; rq_url := url;
         rq_headers := (STORAGE_TOKEN_HEADER, token) :: user_agent_header c;
         rq_bearer := None; rq_timeout := cfg_storage_timeout (hc_config c);
         rq_body := NoBody |})) in
    let* _ := timer_attr "status" (pretty (bf_status b)) in
    let* _ := mlift (storage_check b) in
    let* _ := timer_success in
    mret (bf_bytes b)).

Definition post_storage_blob (c : ApiHttpClient) (url token blob : string) : CM unit :=
  timed "storage_upload" (
    let* b := untimed (on_world (send_retrying (policy_of c) Unsafe
      {| rq_method := POST; rq_url := url;
         rq_headers := (STORAGE_TOKEN_HEADER, token) :: user_agent_header c;
         rq_bearer := None; rq_timeout := cfg_storage_timeout (hc_config c);
         rq_body := MultipartBody
           [{| part_name := "Block"; part_file_name := "blob";
               part_mime := "application/octet-stream"; part_content := blob |}] |})) in
    let* _ := timer_attr "status" (pretty (bf_status b)) in
    let* _ := mlift (storage_check b) in
    timer_success).

(** *** API requests *)

Definition api_request (c : ApiHttpClient) (method : Method) (path : string)
    (body : request_body) (timeout : Z) (token : string) : request :=
  {| rq_method := method; rq_url := api_url c path;
     rq_headers := (SESSION_ID_HEADER, hc_session_id c)
                   :: (APP_VERSION_HEADER, cfg_app_version (hc_config c))
                   :: ("accept", API_CONTENT_TYPE) :: user_agent_header c;
     rq_bearer := Some token; rq_timeout := timeout; rq_body := body |}.

Definition send_with_token (c : ApiHttpClient) (method : Method) (path : string)
    (body : option string) (replay : Replay) (token : string) : CM Buffered :=
  on_world (send_retrying (policy_of c) replay
    (api_request c method path
       match body with Some text => JsonBody text | None => NoBody end
       (cfg_request_timeout (hc_config c)) token)).

Definition send_multipart_with_token (c : ApiHttpClient) (path metadata : string)
    (binary_parts : list (string * string)) (token : string) : CM Buffered :=
  on_world (send_retrying (policy_of c) Unsafe
    (api_request c POST path
       (MultipartBody
          ({| part_name := "Metadata"; part_file_name := "Metadata";
              part_mime := "application/json"; part_content := metadata |}
           :: ((fun p => {| part_name := p.1; part_file_name := p.1;
                            part_mime := "application/octet-stream";
                            part_content := p.2 |}) <$> binary_parts)))
       (cfg_storage_timeout (hc_config c)) token)).

(** *** Token refresh *)

Definition request_refresh (c : ApiHttpClient) (refresh_token : string) : CM Tokens :=
  let* resp := on_world (send_unrepeatable (policy_of c)
    {| rq_method := POST; rq_url := hc_base_url c +:+ "auth/v4/refresh";
       rq_headers := [(SESSION_ID_HEADER, hc_session_id c);
                      (APP_VERSION_HEADER, cfg_app_version (hc_config c));
                      ("accept", API_CONTENT_TYPE)];
       rq_bearer := None; rq_timeout := cfg_request_timeout (hc_config c);
       rq_body := JsonBody (encode_refresh
         [("ResponseType", "token"); ("GrantType", "refresh_token");
          ("RefreshToken", refresh_token);
          ("RedirectURI", cfg_refresh_redirect_uri (hc_config c))]) |}) in
  let* refreshed := mlift (parse_response decode_refresh resp) in
  mret {| access_token := refreshed.1; refresh_token := refreshed.2 |}.

(** Atomic: it runs under the refresh lock. *)
Definition refresh_access_token_now (c : ApiHttpClient) (rejected : string) : CM string :=
  let* s := mget in
  let current := cs_tokens s in
  if negb (String.eqb (access_token current) rejected) then mret (access_token current)
  else
    let* refreshed := request_refresh c (refresh_token current) in
    let* _ := mmodify (store_tokens refreshed) in
    mret (access_token refreshed).

(** Detached on a task of its own; the task does not fail. *)
Definition refresh_access_token (c : ApiHttpClient) (rejected : string) : CM string :=
  refresh_access_token_now c rejected.

Definition is_terminal_account_state (bytes : string) : bool :=
  match decode_envelope bytes with
  | Some envelope =>
      match ar_code envelope with
      | ResponseCode.AccountDeleted | ResponseCode.AccountDisabled => true
      | _ => false
      end
  | None => false
  end.

Definition handle_unauthorized (c : ApiHttpClient) (method : Method) (path : string)
    (body : option string) (replay : Replay) (b : Buffered) (rejected : string) : CM Buffered :=
  if is_terminal_account_state (bf_bytes b) then mfail (api_error 401 (bf_bytes b))
  else
    let* token := refresh_access_token c rejected in
    send_with_token c method path body replay token.

Definition send {T} (c : ApiHttpClient) (method : Method) (path : string)
    (body : option string) (replay : Replay) (decode : string -> result T string) : CM T :=
  timed "http_request" (
    let* _ := timer_attr "method" (Method_as_str method) in
    let* s := mget in
    let token := access_token (cs_tokens s.2) in
    let* b := untimed (send_with_token c method path body replay token) in
    let* b := if (bf_status b =? 401) && hc_refresh_tokens c
              then untimed (handle_unauthorized c method path body replay b token)
              else mret b in
    let* _ := timer_attr "status" (pretty (bf_status b)) in
    let* parsed := mlift (parse_buffered decode b) in
    let* _ := timer_success in
    mret parsed).

Definition post_multipart {T} (c : ApiHttpClient) (path : string) (metadata : result string string)
    (binary_parts : list (string * string)) (decode : string -> result T string) : CM T :=
  let* metadata := mlift (map_err Serialization metadata) in
  timed "http_request" (
    let* _ := timer_attr "method" "POST" in
    let* s := mget in
    let rejected := access_token (cs_tokens s.2) in
    let* b := untimed (send_multipart_with_token c path metadata binary_parts rejected) in
    let* b := if (bf_status b =? 401) && hc_refresh_tokens c
              then
                if is_terminal_account_state (bf_bytes b) then mfail (api_error 401 (bf_bytes b))
                else
                  let* token := untimed (refresh_access_token c rejected) in
                  untimed (send_multipart_with_token c path metadata binary_parts token)
              else mret b in
    let* _ := timer_attr "status" (pretty (bf_status b)) in
    let* parsed := mlift (parse_buffered decode b) in
    let* _ := timer_success in
    mret parsed).

(** *** The typed verbs *)

Definition http_get {T} c path (decode : string -> result T string) : CM T :=
  send c GET path None Safe decode.
Definition http_post {T} c path body (decode : string -> result T string) : CM T :=
  send c POST path (Some body) Unsafe decode.
Definition http_post_query {T} c path body (decode : string -> result T string) : CM T :=
  send c POST path (Some body) Safe decode.
Definition http_put {T} c path body (decode : string -> result T string) : CM T :=
  send c PUT path (Some body) Unsafe decode.
Definition http_delete {T} c path (decode : string -> result T string) : CM T :=
  send c DELETE path None Unsafe decode.
Definition http_delete_with_body {T} c path body (decode : string -> result T string) : CM T :=
  send c DELETE path (Some body) Unsafe decode.

(** *** Session-less requests *)

Definition unauthenticated_url (config : ProtonClientConfiguration) (path : string) : string :=
  ensure_trailing_slash (cfg_base_url config) +:+ Str.trim_start_matches "/" path.

Definition unauthenticated_headers (config : ProtonClientConfiguration) : list (string * string) :=
  (APP_VERSION_HEADER, cfg_app_version config) :: ("accept", API_CONTENT_TYPE)
  :: (if Str.is_empty (cfg_user_agent config) then []
      else [("user-agent", cfg_user_agent config)]).

Definition get_unauthenticated {T} (config : ProtonClientConfiguration) (path : string)
    (decode : string -> result T string) (w : W) : Res T * W :=
  match client_build_error config with Some e => (Err (Transport e), w) | None =>
  let (r, w) := send_retrying (cfg_retry_policy config) Safe
    {| rq_method := GET; rq_url := unauthenticated_url config path;
       rq_headers := unauthenticated_headers config; rq_bearer := None;
       rq_timeout := cfg_request_timeout config; rq_body := NoBody |} w in
  (result_bind r (parse_buffered decode), w)
  end.

Definition post_unauthenticated_verified {T} (config : ProtonClientConfiguration)
    (path body : string) (verification : option HumanVerificationCredential)
    (decode : string -> result T string) (w : W) : Res T * W :=
  match client_build_error config with Some e => (Err (Transport e), w) | None =>
  let (r, w) := send_retrying (cfg_retry_policy config) Unsafe
    {| rq_method := POST; rq_url := unauthenticated_url config path;
       rq_headers := unauthenticated_headers config
         ++ match verification with
            | Some hv => [(HV_TOKEN_HEADER, hvc_token hv); (HV_TOKEN_TYPE_HEADER, hvc_method hv)]
            | None => []
            end;
       rq_bearer := None; rq_timeout := cfg_request_timeout config;
       rq_body := JsonBody body |} w in
  (result_bind r (parse_buffered decode), w)
  end.

Definition post_unauthenticated {T} (config : ProtonClientConfiguration) (path body : string)
    (decode : string -> result T string) (w : W) : Res T * W :=
  post_unauthenticated_verified config path body None decode w.
End Client.
