(* ===== verification/HttpFacts.v ===== *)
(** * The HTTP client: theorems

    What [Http] promises: how often and after which outcomes a request is sent
    again, how long a retry waits, that a refresh token is spent once, that a
    burst of rejected requests costs one refresh, and what telemetry reports. *)

From S2P Require Import Prelude Errors Config Http.

(** ** A scripted world, for concrete runs *)

Record scripted := {
  sc_script : list outcome;
  sc_dice : Z;
  sc_clock : Z;
  sc_slept : list Z;
  sc_trace : list (request * outcome)
}.

Definition sc_connect_error : transport_error :=
  {| te_is_timeout := false; te_is_connect := true; te_is_request := true;
     te_message := "connection refused" |}.

Definition scripted_send (r : request) (w : scripted) : outcome * scripted :=
  let '(out, rest) :=
    match sc_script w with
    | out :: rest => (out, rest)
    | [] => (Err sc_connect_error, [])
    end in
  (out, {| sc_script := rest; sc_dice := sc_dice w; sc_clock := sc_clock w + 1;
           sc_slept := sc_slept w; sc_trace := sc_trace w ++ [(r, out)] |}).

#[global] Instance scripted_world : HttpWorld scripted := {
  world_send := scripted_send;
  world_sleep d w := {| sc_script := sc_script w; sc_dice := sc_dice w;
                        sc_clock := sc_clock w + d; sc_slept := sc_slept w ++ [d];
                        sc_trace := sc_trace w |};
  world_random n w := (Z.min (Z.max 0 (sc_dice w)) (Z.max 0 n), w);
  world_now := sc_clock;
  world_trace := sc_trace
}.

#[global] Instance scripted_laws : HttpWorldLaws scripted.
Proof.
  split; simpl; intros; try done; try lia.
  unfold scripted_send. by destruct (sc_script w).
Qed.

Definition scripted_init (script : list outcome) : scripted :=
  {| sc_script := script; sc_dice := 0; sc_clock := 0; sc_slept := []; sc_trace := [] |}.

(** A plain response: status and body, no [Retry-After]. *)
Definition plain (status : Z) (body : string) : outcome :=
  Ok {| rs_status := status; rs_path := "/"; rs_retry_after := None; rs_body := Ok body |}.

(** A codec for concrete runs: a body is its own decoding, an envelope is one of
    a few fixed texts. *)
Definition demo_envelope (body : string) : option ApiResponse :=
  let env c := Some {| ar_code := c; ar_error_message := None; ar_details := None |} in
  if String.eqb body "ok" then env ResponseCode.Success
  else if String.eqb body "multi" then env ResponseCode.MultipleResponses
  else if String.eqb body "denied" then env ResponseCode.Unauthorized
  else if String.eqb body "deleted" then env ResponseCode.AccountDeleted
  else None.

#[global] Instance demo_codec : HttpCodec := {
  decode_envelope := demo_envelope;
  decode_raw_code _ := None;
  canonical_reason _ := None;
  decode_refresh body := if String.eqb body "fresh" then Ok ("access2", "refresh2") else Err "bad";
  encode_refresh fields := Str.join "&" ((fun f => f.1 +:+ "=" +:+ f.2) <$> fields);
  client_build_error _ := None
}.

(** ** When may a request be sent again? *)

(** The reference: which outcomes of an attempt allow another one. *)
Definition may_resend (replay : Replay) (out : outcome) : Prop :=
  match out with
  | Ok resp =>
      rs_status resp ∈ [408; 429; 502; 503; 504]
      \/ (replay = Safe /\ exists e, rs_body resp = Err e)
  | Err e =>
      te_is_timeout e = true \/ te_is_connect e = true
      \/ (replay = Safe /\ te_is_request e = true)
  end.

(** What the caller is handed for the last attempt's outcome. *)
Definition settle (out : outcome) : Res Buffered :=
  match out with
  | Ok resp => map_err Transport (Buffered_read resp)
  | Err e => Err (Transport e)
  end.

Lemma is_retryable_status_spec s :
  is_retryable_status s = true <-> s ∈ [408; 429; 502; 503; 504].
Proof.
  unfold is_retryable_status. rewrite !orb_true_iff, !Z.eqb_eq, !elem_of_cons.
  rewrite elem_of_nil. naive_solver.
Qed.

Lemma is_retryable_error_spec e replay :
  is_retryable_error e replay = true <-> may_resend replay (Err e).
Proof.
  unfold is_retryable_error; simpl.
  rewrite !orb_true_iff, andb_true_iff, bool_decide_eq_true. naive_solver.
Qed.

Lemma Buffered_read_err r e : Buffered_read r = Err e -> rs_body r = Err e.
Proof. unfold Buffered_read. destruct (rs_body r); simpl; congruence. Qed.

Lemma Buffered_read_ok r b : Buffered_read r = Ok b -> exists s, rs_body r = Ok s.
Proof. unfold Buffered_read. destruct (rs_body r); simpl; naive_solver. Qed.

Section Retry.
Context {W : Type} `{HttpWorldLaws W}.

Lemma trace_backoff p a w : world_trace (backoff p a w).2 = world_trace w.
Proof.
  unfold backoff. case_match; [done|].
  destruct (world_random _ w) as [n w'] eqn:E. simpl.
  by rewrite <- (trace_random (backoff_ceiling_ms p a) w), E.
Qed.

Lemma trace_response_delay p r a w : world_trace (response_delay p r a w).2 = world_trace w.
Proof. unfold response_delay. destruct (retry_after r); [done|apply trace_backoff]. Qed.

(** How a run of attempts went: the outcomes [outs] that were retried, the
    outcome [last] that settled the call. *)
Definition attempts_spec (replay : Replay) (build : request) (budget : nat)
    (w w' : W) (r : Res Buffered) : Prop :=
  exists outs last,
    world_trace w' = world_trace w ++ ((fun o => (build, o)) <$> (outs ++ [last]))
    /\ Forall (may_resend replay) outs
    /\ (length outs <= budget)%nat
    /\ (may_resend replay last -> length outs = budget)
    /\ r = settle last.

Lemma attempts_spec_last replay build budget w w' last :
  world_trace w' = world_trace w ++ [(build, last)] ->
  (may_resend replay last -> budget = 0%nat) ->
  attempts_spec replay build budget w w' (settle last).
Proof.
  intros Ht Hb. exists [], last. repeat split; simpl; auto with lia.
  intros Hm. by rewrite (Hb Hm).
Qed.

Lemma attempts_spec_again replay build budget w w1 w2 w' out r :
  world_trace w1 = world_trace w ++ [(build, out)] ->
  may_resend replay out ->
  world_trace w2 = world_trace w1 ->
  attempts_spec replay build budget w2 w' r ->
  attempts_spec replay build (S budget) w w' r.
Proof.
  intros H1 Hm H2 (outs & last & Ht & Hf & Hl & Hb & ->).
  exists (out :: outs), last. repeat split; simpl.
  - rewrite Ht, H2, H1, <- (assoc_L (++)). done.
  - by constructor.
  - lia.
  - intros Hr. by rewrite (Hb Hr).
Qed.

Lemma sleep_after_backoff p a w w1 :
  world_trace w1 = world_trace w ->
  world_trace (world_sleep (backoff p a w1).1 (backoff p a w1).2) = world_trace w.
Proof. intros <-. by rewrite trace_sleep, trace_backoff. Qed.

Lemma send_retrying_loop_spec policy replay build remaining attempt w :
  attempts_spec replay build remaining w
    (send_retrying_loop policy replay build remaining attempt w).2
    (send_retrying_loop policy replay build remaining attempt w).1.
Proof.
  revert attempt w. induction remaining as [|n IH]; intros attempt w;
    cbn [send_retrying_loop];
    pose proof (trace_send build w) as Ht;
    destruct (world_send build w) as [out w1]; simpl in Ht; destruct out as [resp|e].
  - assert (Hs : attempts_spec replay build 0 w w1 (settle (Ok resp)))
      by (by apply attempts_spec_last).
    simpl in Hs. by destruct (Buffered_read resp).
  - assert (Hs : attempts_spec replay build 0 w w1 (settle (Err e)))
      by (by apply attempts_spec_last).
    exact Hs.
  - destruct (is_retryable_status (rs_status resp)) eqn:Hst.
    + pose proof (trace_response_delay policy resp attempt w1) as Hd.
      destruct (response_delay policy resp attempt w1) as [d w2]; simpl in Hd.
      eapply attempts_spec_again; [done| |by rewrite trace_sleep|apply IH].
      left. by apply is_retryable_status_spec.
    + assert (Hns : rs_status resp ∉ [408; 429; 502; 503; 504])
        by (rewrite <- is_retryable_status_spec; congruence).
      destruct (Buffered_read resp) as [b|e] eqn:Hr.
      * replace (@Ok Buffered ProtonError b) with (settle (Ok resp)) by (simpl; by rewrite Hr).
        apply attempts_spec_last; [done|]. intros [?|[_ [? Hb]]]; [done|].
        apply Buffered_read_ok in Hr as [? Hr]. congruence.
      * apply Buffered_read_err in Hr as Hb. case_bool_decide as Hsafe.
        -- pose proof (trace_backoff policy attempt w1) as Hd.
           destruct (backoff policy attempt w1) as [d w2]; simpl in Hd.
           eapply attempts_spec_again; [done| |by rewrite trace_sleep|apply IH].
           right. eauto.
        -- replace (@Err Buffered ProtonError (Transport e)) with (settle (Ok resp))
             by (simpl; by rewrite Hr).
           apply attempts_spec_last; [done|]. intros [?|[? _]]; done.
  - destruct (is_retryable_error e replay) eqn:Hre.
    + pose proof (trace_backoff policy attempt w1) as Hd.
      destruct (backoff policy attempt w1) as [d w2]; simpl in Hd.
      eapply attempts_spec_again; [done| |by rewrite trace_sleep|apply IH].
      by apply is_retryable_error_spec.
    + apply (attempts_spec_last replay build (S n) w w1 (Err e)); [done|].
      intros Hm%is_retryable_error_spec. congruence.
Qed.

(** The attempts [send_retrying] makes are exactly those the policy allows. *)
Lemma send_retrying_spec policy replay build w :
  attempts_spec replay build (Z.to_nat (max_retries policy)) w
    (send_retrying policy replay build w).2 (send_retrying policy replay build w).1.
Proof. apply send_retrying_loop_spec. Qed.

(** *** The unrepeatable send *)

(** A failure to connect: the request never left. *)
Definition never_left (out : outcome) : Prop := exists e, out = Err e /\ te_is_connect e = true.

Lemma send_unrepeatable_loop_spec policy build remaining attempt w :
  exists errs last,
    world_trace (send_unrepeatable_loop policy build remaining attempt w).2
      = world_trace w ++ ((fun o => (build, o)) <$> (errs ++ [last]))
    /\ Forall never_left errs
    /\ (length errs <= remaining)%nat
    /\ (never_left last -> length errs = remaining)
    /\ (send_unrepeatable_loop policy build remaining attempt w).1 = map_err Transport last.
Proof.
  revert attempt w. induction remaining as [|n IH]; intros attempt w;
    cbn [send_unrepeatable_loop]; pose proof (trace_send build w) as Ht;
    destruct (world_send build w) as [out w1]; simpl in Ht; destruct out as [resp|e].
  1,3: by (exists [], (Ok resp); split_and!; simpl; auto with lia; intros (? & ? & _)).
  1: by (exists [], (Err e); split_and!; simpl; auto with lia).
  destruct (te_is_connect e) eqn:Hc;
    [|by (exists [], (Err e); split_and!; simpl; auto with lia; intros (? & [= <-] & ?); congruence)].
  pose proof (trace_backoff policy attempt w1) as Hd.
  destruct (backoff policy attempt w1) as [d w2]; simpl in Hd.
  destruct (IH (attempt + 1) (world_sleep d w2)) as (errs & last & Htr & Hf & Hl & Hn & Hr).
  exists (Err e :: errs), last. split_and!; simpl.
  - rewrite Htr, trace_sleep, Hd, Ht, <- (assoc_L (++)). done.
  - constructor; [by exists e|done].
  - lia.
  - intros Hnl. by rewrite (Hn Hnl).
  - done.
Qed.

(** C1: How often and after what the two send loops send.  [send_retrying] tries
    again after exactly these outcomes: a timeout, a failure to connect, an answer
    408, 429, 502, 503 or 504, and for a request that only reads also any other
    failure of the request or a body that broke off; [send_unrepeatable] after a
    failure to connect alone.  Both stop at the first other outcome or when
    [max_retries] are spent, send the same request every time, and hand the caller
    the last outcome. *)
Theorem send_loops_spec policy replay build w :
  (let '(r, w') := send_retrying policy replay build w in
   exists outs last,
     world_trace w' = world_trace w ++ ((fun o => (build, o)) <$> (outs ++ [last]))
     /\ Forall (may_resend replay) outs
     /\ (length outs <= Z.to_nat (max_retries policy))%nat
     /\ (may_resend replay last -> length outs = Z.to_nat (max_retries policy))
     /\ r = settle last)
  /\ (let '(r, w') := send_unrepeatable policy build w in
      exists outs last,
        world_trace w' = world_trace w ++ ((fun o => (build, o)) <$> (outs ++ [last]))
        /\ Forall never_left outs
        /\ (length outs <= Z.to_nat (max_retries policy))%nat
        /\ (never_left last -> length outs = Z.to_nat (max_retries policy))
        /\ r = map_err Transport last).
Proof.
  split.
  - pose proof (send_retrying_spec policy replay build w) as H'. by destruct (send_retrying _ _ _ _).
  - pose proof (send_unrepeatable_loop_spec policy build (Z.to_nat (max_retries policy)) 0 w) as H'.
    unfold send_unrepeatable. by destruct (send_unrepeatable_loop _ _ _ _ _).
Qed.
End Retry.

(** ** How long a retry waits *)

Lemma backoff_ceiling_ms_bound p a :
  RetryPolicy_wf p -> 0 <= a ->
  0 <= backoff_ceiling_ms p a /\
  Duration.from_millis (backoff_ceiling_ms p a)
    <= Z.min (max_delay p) (base_delay p * shl_1_u32 a).
Proof.
  intros Hp Ha. destruct Hp as [_ [Hb _] [Hm _] _].
  assert (Hs : 1 <= shl_1_u32 a).
  { unfold shl_1_u32, u32_max. case_match; [|lia].
    pose proof (Z.pow_pos_nonneg 2 a). lia. }
  unfold backoff_ceiling_ms, Duration.saturating_mul, Duration.as_millis, Duration.from_millis.
  assert (HM : 0 <= Duration.MAX) by (vm_compute; discriminate).
  set (c := Z.min (Z.min Duration.MAX (base_delay p * shl_1_u32 a)) (max_delay p)).
  assert (Hc : 0 <= c <= Z.min (max_delay p) (base_delay p * shl_1_u32 a)) by (unfold c; nia).
  assert (Hd : 0 <= c / 1000000) by (apply Z.div_pos; lia).
  pose proof (Z.mod_le (c / 1000000) (2 ^ 64) Hd ltac:(lia)) as Hw.
  pose proof (Z.mod_pos_bound (c / 1000000) (2 ^ 64) ltac:(lia)).
  unfold wrap_u64. split; [lia|].
  pose proof (Z.mul_div_le c 1000000 ltac:(lia)). lia.
Qed.

Lemma parse_digits_bound t : forall acc n,
  0 <= acc <= u64_max -> parse_digits acc t = Some n -> 0 <= n <= u64_max.
Proof.
  induction t as [|c t IH]; intros acc n Hacc; cbn [parse_digits]; [naive_solver|].
  unfold digit_value. destruct ((48 <=? _) && _) eqn:Hd; cbn; [|done].
  destruct (u64_max <? _) eqn:Hm; [done|]. apply IH. lia.
Qed.

Lemma parse_u64_bound t n : parse_u64 t = Some n -> 0 <= n <= u64_max.
Proof.
  assert (0 <= 0 <= u64_max) by (vm_compute; split; discriminate).
  destruct t as [|c t]; [done|]. cbn [parse_u64].
  destruct (Ascii.eqb c "+"); [destruct t; [done|]|]; by apply parse_digits_bound.
Qed.

Lemma retry_after_nonneg r d : retry_after r = Some d -> 0 <= d.
Proof.
  unfold retry_after, parse_retry_after_secs. destruct (rs_retry_after r) as [s|]; [|done].
  cbn. destruct (parse_u64 _) as [n|] eqn:E; [|done]. intros [= <-].
  apply parse_u64_bound in E. unfold Duration.from_secs. lia.
Qed.

Section Waiting.
Context {W : Type} `{HttpWorldLaws W}.

Lemma backoff_bound p a w :
  RetryPolicy_wf p -> 0 <= a ->
  0 <= (backoff p a w).1 <= Z.min (max_delay p) (base_delay p * shl_1_u32 a).
Proof.
  intros Hp Ha. destruct (backoff_ceiling_ms_bound p a Hp Ha) as [H0' H1].
  unfold backoff. destruct (_ =? 0) eqn:E.
  - apply Z.eqb_eq in E. rewrite E in H1. unfold Duration.from_millis in H1. simpl. lia.
  - pose proof (random_range (backoff_ceiling_ms p a) w H0') as Hr.
    destruct (world_random _ w) as [ms w']. simpl in *.
    unfold Duration.from_millis in *. lia.
Qed.

(** Every wait before a retry is bounded: by the server's [Retry-After] and the
    policy's clamp when the header parses, and by the exponential ceiling and
    [max_delay] otherwise. *)
Theorem response_delay_bound p r a w :
  RetryPolicy_wf p -> 0 <= a ->
  0 <= (response_delay p r a w).1
  /\ match retry_after r with
     | Some d => (response_delay p r a w).1 = Z.min d (max_retry_after p)
     | None => (response_delay p r a w).1 <= Z.min (max_delay p) (base_delay p * shl_1_u32 a)
     end.
Proof.
  intros Hp Ha. unfold response_delay. destruct (retry_after r) as [d|] eqn:E; simpl.
  - split; [|done]. destruct Hp as [_ _ _ [? _]].
    apply retry_after_nonneg in E. lia.
  - pose proof (backoff_bound p a w Hp Ha). lia.
Qed.
End Waiting.

(** ** Token refresh *)

Section Refresh.
Context {W : Type} `{HttpWorldLaws W} `{HttpCodec}.
Implicit Types (s : client_state W) (c : ApiHttpClient).

(** The request that spends [s]'s refresh token. *)
Definition refresh_request c (token : string) : request :=
  {| rq_method := POST; rq_url := hc_base_url c +:+ "auth/v4/refresh";
     rq_headers := [(SESSION_ID_HEADER, hc_session_id c);
                    (APP_VERSION_HEADER, cfg_app_version (hc_config c));
                    ("accept", API_CONTENT_TYPE)];
     rq_bearer := None; rq_timeout := cfg_request_timeout (hc_config c);
     rq_body := JsonBody (encode_refresh
       [("ResponseType", "token"); ("GrantType", "refresh_token");
        ("RefreshToken", token);
        ("RedirectURI", cfg_refresh_redirect_uri (hc_config c))]) |}.

Definition trace_of s : list (request * outcome) := world_trace (cs_world s).

Lemma request_refresh_spec c token s :
  exists errs last,
    trace_of (request_refresh c token s).2
      = trace_of s ++ ((fun o => (refresh_request c token, o)) <$> (errs ++ [last]))
    /\ Forall (fun o => exists e, o = Err e /\ te_is_connect e = true) errs
    /\ cs_tokens (request_refresh c token s).2 = cs_tokens s
    /\ cs_events (request_refresh c token s).2 = cs_events s
    /\ cs_callbacks (request_refresh c token s).2 = cs_callbacks s
    /\ cs_has_callback (request_refresh c token s).2 = cs_has_callback s
    /\ (request_refresh c token s).1
       = match last with
         | Ok resp =>
             match parse_response decode_refresh resp with
             | Ok (a, r) => Ok {| access_token := a; refresh_token := r |}
             | Err e => Err e
             end
         | Err e => Err (Transport e)
         end.
Proof.
  unfold request_refresh, mbind_, on_world, send_unrepeatable.
  destruct (send_unrepeatable_loop_spec (policy_of c) (refresh_request c token)
              (Z.to_nat (max_retries (policy_of c))) 0 (cs_world s))
    as (errs & last & Ht & Hf & _ & _ & Hr).
  exists errs, last. fold (refresh_request c token).
  destruct (send_unrepeatable_loop _ _ _ _ _) as [r w]. simpl in Ht, Hr. subst r.
  destruct last as [resp|e]; simpl; [|done].
  unfold mlift, mret. destruct (parse_response decode_refresh resp) as [[a r]|e]; done.
Qed.

(** A failed refresh leaves the stored tokens alone; a successful one stores
    exactly the answered pair before returning, and tells the callback. *)
Lemma refresh_now_fresh c s :
  let '(r, s') := refresh_access_token_now c (access_token (cs_tokens s)) s in
  match (request_refresh c (refresh_token (cs_tokens s)) s).1 with
  | Ok t => r = Ok (access_token t) /\ cs_tokens s' = t
            /\ cs_callbacks s' = cs_callbacks s ++ (if cs_has_callback s then [t] else [])
  | Err e => r = Err e /\ cs_tokens s' = cs_tokens s /\ cs_callbacks s' = cs_callbacks s
  end.
Proof.
  unfold refresh_access_token_now, mbind_, mget. rewrite String.eqb_refl. simpl.
  destruct (request_refresh_spec c (refresh_token (cs_tokens s)) s)
    as (errs & last & _ & _ & Ht & _ & Hc & Hh & _).
  destruct (request_refresh c _ s) as [[t|e] s']; simpl in *; [|done].
  repeat split. rewrite Hc, Hh. destruct (cs_has_callback s); [done|].
  by rewrite (right_id_L [] (++)).
Qed.

Lemma refresh_now_stale c rejected s :
  access_token (cs_tokens s) <> rejected ->
  refresh_access_token_now c rejected s = (Ok (access_token (cs_tokens s)), s).
Proof.
  intros Hne. unfold refresh_access_token_now, mbind_, mget.
  destruct (String.eqb_spec (access_token (cs_tokens s)) rejected); done.
Qed.

(** [n] tasks that were all answered 401 for the token [rejected], in the order
    in which they obtain the refresh lock. *)
Fixpoint refresh_burst c (rejected : string) (n : nat) : M (client_state W) (list string) ProtonError :=
  match n with
  | O => mret []
  | S n => let* t := refresh_access_token c rejected in
           let* ts := refresh_burst c rejected n in
           mret (t :: ts)
  end.

Lemma refresh_burst_stale c rejected n s :
  access_token (cs_tokens s) <> rejected ->
  refresh_burst c rejected n s = (Ok (replicate n (access_token (cs_tokens s))), s).
Proof.
  intros Hne. induction n as [|n IH]; [done|].
  cbn [refresh_burst]. unfold refresh_access_token, mbind_.
  by rewrite refresh_now_stale, IH by done.
Qed.

(** C3: A burst of [n + 1] rejected requests costs one refresh exchange: when it
    succeeds with a new access token, every task gets that token and only one
    message that reached the server spends the refresh token (attempts before
    it never connected). *)
Theorem refresh_burst_one_exchange c n s t s1 :
  refresh_access_token_now c (access_token (cs_tokens s)) s = (Ok t, s1) ->
  t <> access_token (cs_tokens s) ->
  refresh_burst c (access_token (cs_tokens s)) (S n) s = (Ok (replicate (S n) t), s1)
  /\ exists errs last,
       trace_of s1 = trace_of s
         ++ ((fun o => (refresh_request c (refresh_token (cs_tokens s)), o)) <$> (errs ++ [last]))
       /\ Forall (fun o => exists e, o = Err e /\ te_is_connect e = true) errs.
Proof.
  intros Hr Hne. pose proof (refresh_now_fresh c s) as Hf. rewrite Hr in Hf.
  assert (Htok : access_token (cs_tokens s1) = t).
  { destruct (request_refresh c _ s).1 as [u|e]; destruct Hf as (? & ? & _); congruence. }
  split.
  - cbn [refresh_burst]. unfold refresh_access_token at 1.
    rewrite (mbind_ok _ _ _ _ _ Hr).
    erewrite mbind_ok; [|apply refresh_burst_stale; congruence].
    rewrite Htok. done.
  - destruct (request_refresh_spec c (refresh_token (cs_tokens s)) s)
      as (errs & last & Ht & Hfa & _).
    exists errs, last. split; [|done].
    unfold refresh_access_token_now, mbind_, mget in Hr. rewrite String.eqb_refl in Hr.
    simpl in Hr. destruct (request_refresh c _ s) as [[u|e] s2]; [|done].
    injection Hr as _ <-. exact Ht.
Qed.
End Refresh.

(** ** What one call sends, and what telemetry reports *)

Section Calls.
Context {W : Type} `{HttpWorldLaws W} `{HttpCodec}.
Implicit Types (s : client_state W) (c : ApiHttpClient).

(** [m] leaves the recorded events and the timer's identity and outcome. *)
Definition still_open {A} (m : M (OpTimer * client_state W) A ProtonError) : Prop :=
  forall t s, let '(_, (t', s')) := m (t, s) in
    cs_events s' = cs_events s /\ ot_telemetry t' = ot_telemetry t
    /\ ot_operation t' = ot_operation t /\ ot_outcome t' = ot_outcome t.

(** [m] marks the timer successful exactly when it returns a value. *)
Definition reports {A} (m : M (OpTimer * client_state W) A ProtonError) : Prop :=
  forall t s, ot_outcome t = Failure ->
    let '(r, (t', s')) := m (t, s) in
    cs_events s' = cs_events s /\ ot_telemetry t' = ot_telemetry t
    /\ ot_operation t' = ot_operation t
    /\ (ot_outcome t' = Success <-> is_ok r = true).

Lemma still_open_bind {A B} (m : M (OpTimer * client_state W) A ProtonError)
    (k : A -> M (OpTimer * client_state W) B ProtonError) :
  still_open m -> (forall a, still_open (k a)) -> still_open (mbind_ m k).
Proof.
  intros Hm Hk t s. unfold mbind_. specialize (Hm t s).
  destruct (m (t, s)) as [[a|e] [t1 s1]]; [|done].
  specialize (Hk a t1 s1). destruct (k a (t1, s1)) as [r [t2 s2]]. intuition congruence.
Qed.

Lemma reports_bind {A B} (m : M (OpTimer * client_state W) A ProtonError)
    (k : A -> M (OpTimer * client_state W) B ProtonError) :
  still_open m -> (forall a, reports (k a)) -> reports (mbind_ m k).
Proof.
  intros Hm Hk t s Hf. unfold mbind_. specialize (Hm t s).
  destruct (m (t, s)) as [[a|e] [t1 s1]].
  - destruct Hm as (E & T & O & U). specialize (Hk a t1 s1 ltac:(congruence)).
    destruct (k a (t1, s1)) as [r [t2 s2]].
    destruct Hk as (? & ? & ? & ?). repeat split; try congruence; tauto.
  - destruct Hm as (? & ? & ? & Hu). repeat split; try congruence.
    rewrite Hu, Hf. simpl. congruence.
Qed.

Lemma reports_success {A} (a : A) : reports (mbind_ timer_success (fun _ => mret a)).
Proof. intros t s Hf. simpl. naive_solver. Qed.

Lemma reports_success_unit : reports timer_success.
Proof. intros t s Hf. simpl. naive_solver. Qed.

Lemma still_open_attr k v : still_open (timer_attr k v).
Proof. by intros t s. Qed.
Lemma still_open_lift {A} (r : Res A) : still_open (mlift r).
Proof. by intros t s. Qed.
Lemma still_open_ret {A} (a : A) : still_open (mret a).
Proof. by intros t s. Qed.
Lemma still_open_fail {A} (e : ProtonError) : still_open (@mfail _ A _ e).
Proof. by intros t s. Qed.
Lemma still_open_get : still_open mget.
Proof. by intros t s. Qed.

Lemma still_open_untimed {A} (m : M (client_state W) A ProtonError) :
  (forall s, cs_events (m s).2 = cs_events s) -> still_open (untimed m).
Proof. intros Hm t s. unfold untimed. specialize (Hm s). by destruct (m s). Qed.

Lemma events_on_world {A} (f : W -> Res A * W) s : cs_events (on_world f s).2 = cs_events s.
Proof. unfold on_world. by destruct (f (cs_world s)). Qed.

Lemma events_send_with_token c m path body replay tok s :
  cs_events (send_with_token c m path body replay tok s).2 = cs_events s.
Proof. apply events_on_world. Qed.

Lemma events_refresh c rejected s :
  cs_events (refresh_access_token c rejected s).2 = cs_events s.
Proof.
  unfold refresh_access_token, refresh_access_token_now, mbind_, mget.
  destruct (negb _); [done|].
  destruct (request_refresh_spec c (refresh_token (cs_tokens s)) s)
    as (_ & _ & _ & _ & _ & He & _).
  by destruct (request_refresh c _ s) as [[t|e] s'].
Qed.

Lemma events_handle_unauthorized c m path body replay b rejected s :
  cs_events (handle_unauthorized c m path body replay b rejected s).2 = cs_events s.
Proof.
  unfold handle_unauthorized. destruct (is_terminal_account_state _); [done|].
  unfold mbind_. pose proof (events_refresh c rejected s) as Hr.
  destruct (refresh_access_token c rejected s) as [[tok|e] s1]; [|done].
  simpl in Hr. rewrite <- Hr. apply events_on_world.
Qed.

Lemma timed_reports {A} (op : string) (m : M (OpTimer * client_state W) A ProtonError) s k :
  reports m -> cs_telemetry s = Some k ->
  exists ev, cs_events (timed op m s).2 = cs_events s ++ [(k, ev)]
    /\ ev_operation ev = op
    /\ (ev_outcome ev = Success <-> is_ok (timed op m s).1 = true).
Proof.
  intros Hm Hk. unfold timed, OpTimer_start. rewrite Hk.
  match goal with |- context [m (?t, s)] => specialize (Hm t s eq_refl) end.
  destruct (m _) as [r [t' s']]. simpl in *. destruct Hm as (He & Ht & Ho & Hs).
  unfold OpTimer_drop. rewrite Ht. simpl. rewrite He. eexists. repeat split; [done|..]; tauto.
Qed.
End Calls.

#[export] Hint Resolve still_open_attr still_open_lift still_open_ret still_open_fail still_open_get still_open_untimed
  events_on_world events_send_with_token events_refresh events_handle_unauthorized reports_success
  reports_success_unit : sdk.
#[export] Hint Resolve still_open_bind reports_bind : sdk.
#[export] Hint Extern 2 (still_open (if ?b then _ else _)) => destruct b : sdk.

Ltac reports_tac :=
  repeat (first [apply reports_success | apply reports_success_unit
                | apply reports_bind; [|intros ?]]);
  try (apply still_open_untimed); auto with sdk.

Lemma parse_buffered_rejected `{HttpCodec} {T} (dec : string -> result T string) b :
  status_is_success (bf_status b) = false ->
  match decode_envelope (bf_bytes b) with
  | Some env => ar_code env <> ResponseCode.Success /\ ar_code env <> ResponseCode.MultipleResponses
  | None => True
  end ->
  parse_buffered dec b = Err (api_error (bf_status b) (bf_bytes b)).
Proof.
  intros Hst Henv. unfold parse_buffered.
  destruct (decode_envelope (bf_bytes b)) as [env|]; [|by rewrite Hst].
  destruct Henv as [H1 H2]. rewrite bool_decide_eq_false_2 by done.
  unfold ApiResponse_is_success. by destruct (ar_code env).
Qed.

(** ** What a request without a session was answered *)

Section Answered.
Context {W : Type} `{HttpWorldLaws W} `{HttpCodec}.

(** Between [w] and [w'] one request was sent to [path], perhaps more than once, and
    the last response to it carried [value]. *)
Definition answered_to {T} (m : Method) (body : request_body) (config : ProtonClientConfiguration) (path : string)
    (decode : string -> result T string) (value : T) (w w' : W) : Prop :=
  exists q outs resp text,
    world_trace w' = world_trace w ++ ((fun o => (q, o)) <$> outs) ++ [(q, Ok resp)] /\
    rq_method q = m /\ rq_url q = unauthenticated_url config path /\ rq_body q = body /\
    rs_body resp = Ok text /\ decode text = Ok value.

Definition answered {T} (config : ProtonClientConfiguration) (path body : string)
    (decode : string -> result T string) (value : T) (w w' : W) : Prop :=
  answered_to POST (JsonBody body) config path decode value w w'.

Lemma parse_buffered_ok {T} (decode : string -> result T string) b v :
  parse_buffered decode b = Ok v -> decode (bf_bytes b) = Ok v.
Proof.
  unfold parse_buffered. match goal with |- context [if ?failed then _ else _] => destruct failed end; [done|].
  destruct (decode (bf_bytes b)); simpl; congruence.
Qed.

Lemma Buffered_read_bytes r b : Buffered_read r = Ok b -> rs_body r = Ok (bf_bytes b).
Proof. unfold Buffered_read. destruct (rs_body r); simpl; [|done]. by intros [= <-]. Qed.

Lemma retrying_answered {T} config path p rp q (decode : string -> result T string) v w :
  rq_url q = unauthenticated_url config path ->
  result_bind (send_retrying p rp q w).1 (parse_buffered decode) = Ok v ->
  answered_to (rq_method q) (rq_body q) config path decode v w (send_retrying p rp q w).2.
Proof.
  intros Hurl Hv. destruct (send_retrying_spec p rp q w) as (outs & last & Ht & _ & _ & _ & Hr).
  destruct (send_retrying p rp q w) as [r w1]. simpl in *. subst r. destruct last as [resp|e]; [|done]. simpl in Hv.
  destruct (Buffered_read resp) as [b|e] eqn:Hb; [|done]. simpl in Hv.
  exists q, outs, resp, (bf_bytes b).
  split_and!; [|done..|by apply Buffered_read_bytes|by apply parse_buffered_ok]. by rewrite Ht, fmap_app.
Qed.

Lemma post_unauthenticated_answered {T} config path body hv (decode : string -> result T string) v w w' :
  post_unauthenticated_verified config path body hv decode w = (Ok v, w') ->
  answered config path body decode v w w'.
Proof.
  unfold post_unauthenticated_verified. destruct (client_build_error config); [done|].
  match goal with |- context [send_retrying ?p ?rp ?q w] =>
    pose proof (retrying_answered config path p rp q decode v w eq_refl) as Ha;
    destruct (send_retrying p rp q w) as [r w1] end.
  intros [= Hv <-]. by apply Ha.
Qed.

Lemma get_unauthenticated_answered {T} config path (decode : string -> result T string) v w w' :
  get_unauthenticated config path decode w = (Ok v, w') ->
  answered_to GET NoBody config path decode v w w'.
Proof.
  unfold get_unauthenticated. destruct (client_build_error config); [done|].
  match goal with |- context [send_retrying ?p ?rp ?q w] =>
    pose proof (retrying_answered config path p rp q decode v w eq_refl) as Ha;
    destruct (send_retrying p rp q w) as [r w1] end.
  intros [= Hv <-]. by apply Ha.
Qed.
End Answered.

Section CallTheorems.
Context {W : Type} `{HttpWorldLaws W} `{HttpCodec}.
Implicit Types (s : client_state W) (c : ApiHttpClient).

(** Every API call, block download and block upload records exactly one event
    at the sink that was attached when it started, and the event says
    [Success] exactly when the caller got a value. *)
Theorem calls_record_one_event {T} c m path body replay (dec : string -> result T string)
    url token blob s k :
  cs_telemetry s = Some k ->
  (exists ev, cs_events (send c m path body replay dec s).2 = cs_events s ++ [(k, ev)]
     /\ ev_operation ev = "http_request"
     /\ (ev_outcome ev = Success <-> is_ok (send c m path body replay dec s).1 = true))
  /\ (exists ev, cs_events (get_storage_blob c url token s).2 = cs_events s ++ [(k, ev)]
     /\ ev_operation ev = "storage_download"
     /\ (ev_outcome ev = Success <-> is_ok (get_storage_blob c url token s).1 = true))
  /\ (exists ev, cs_events (post_storage_blob c url token blob s).2 = cs_events s ++ [(k, ev)]
     /\ ev_operation ev = "storage_upload"
     /\ (ev_outcome ev = Success <-> is_ok (post_storage_blob c url token blob s).1 = true)).
Proof.
  intros Hk. split_and!; apply timed_reports; try done; reports_tac.
Qed.

(** The request of one round of [send]. *)
Definition round_request c m path (body : option string) (token : string) : request :=
  api_request c m path match body with Some text => JsonBody text | None => NoBody end
    (cfg_request_timeout (hc_config c)) token.

(** The attempts one round may make. *)
Definition round_budget c : nat := S (Z.to_nat (max_retries (policy_of c))).

Lemma trace_timed {A} (op : string) (m : M (OpTimer * client_state W) A ProtonError) s :
  let t := OpTimer_start (cs_telemetry s) (world_now (cs_world s)) op in
  trace_of (timed op m s).2 = trace_of (m (t, s)).2.2
  /\ cs_tokens (timed op m s).2 = cs_tokens (m (t, s)).2.2
  /\ (timed op m s).1 = (m (t, s)).1.
Proof.
  intros t. unfold timed. fold t. destruct (m (t, s)) as [r [t' s']]. simpl.
  by destruct (OpTimer_drop _ t').
Qed.

Lemma round_spec c m path body replay token s :
  let '(r, s') := send_with_token c m path body replay token s in
  cs_tokens s' = cs_tokens s /\
  exists outs last,
    trace_of s' = trace_of s
      ++ ((fun o => (round_request c m path body token, o)) <$> (outs ++ [last]))
    /\ (length (outs ++ [last]) <= round_budget c)%nat
    /\ r = settle last.
Proof.
  unfold send_with_token, on_world. fold (round_request c m path body token).
  destruct (send_retrying_spec (policy_of c) replay (round_request c m path body token)
              (cs_world s)) as (outs & last & Ht & _ & Hl & _ & Hr).
  destruct (send_retrying _ _ _ _) as [r w]. simpl in *. split; [done|].
  exists outs, last. rewrite length_app. unfold round_budget. simpl. split_and!; [done|lia|done].
Qed.

Lemma refresh_round_spec c s :
  let '(r, s') := refresh_access_token c (access_token (cs_tokens s)) s in
  exists outs last,
    trace_of s' = trace_of s
      ++ ((fun o => (refresh_request c (refresh_token (cs_tokens s)), o)) <$> (outs ++ [last]))
    /\ Forall (fun o => exists e, o = Err e /\ te_is_connect e = true) outs
    /\ (forall tok, r = Ok tok -> tok = access_token (cs_tokens s')).
Proof.
  unfold refresh_access_token, refresh_access_token_now, mbind_, mget.
  rewrite String.eqb_refl. simpl.
  destruct (request_refresh_spec c (refresh_token (cs_tokens s)) s)
    as (outs & last & Ht & Hf & _).
  destruct (request_refresh c _ s) as [[t|e] s'];
    exists outs, last; split_and!; try done; simpl; naive_solver.
Qed.

(** From [s] to [s'] one call sent: a first round with the stored access token; only
    if it was answered 401 on a client that refreshes, one refresh exchange whose
    attempts but the last never connected; then one more round, with the token
    stored from then on. *)
Definition exchanged (c : ApiHttpClient) (m : Method) (path : string) (body : option string)
    (s s' : client_state W) : Prop :=
  exists first refresh second,
    trace_of s' = trace_of s
      ++ ((fun o => (round_request c m path body (access_token (cs_tokens s)), o)) <$> first)
      ++ ((fun o => (refresh_request c (refresh_token (cs_tokens s)), o)) <$> refresh)
      ++ ((fun o => (round_request c m path body (access_token (cs_tokens s')), o)) <$> second)
    /\ (length first <= round_budget c)%nat /\ (length second <= round_budget c)%nat
    /\ (refresh <> [] -> hc_refresh_tokens c = true
         /\ exists resp, List.last first (Err sc_connect_error) = Ok resp /\ rs_status resp = 401)
    /\ (second <> [] -> refresh <> [])
    /\ Forall (fun o => exists e, o = Err e /\ te_is_connect e = true) (removelast refresh)
    /\ (refresh = [] -> cs_tokens s' = cs_tokens s).

Lemma exchanged_round c m path body s s' outs :
  trace_of s' = trace_of s ++ ((fun o => (round_request c m path body (access_token (cs_tokens s)), o)) <$> outs) ->
  cs_tokens s' = cs_tokens s -> (length outs <= round_budget c)%nat -> exchanged c m path body s s'.
Proof.
  intros Ht Hk Hl. exists outs, [], []. rewrite Ht. simpl. rewrite !(right_id_L [] (++)).
  split_and!; first [done|lia|congruence].
Qed.

(** After a round that was answered 401. *)
Lemma exchanged_unauthorized c m path body replay b s s1 outs resp :
  trace_of s1 = trace_of s
    ++ ((fun o => (round_request c m path body (access_token (cs_tokens s)), o)) <$> (outs ++ [Ok resp])) ->
  cs_tokens s1 = cs_tokens s -> (length (outs ++ [Ok resp]) <= round_budget c)%nat ->
  hc_refresh_tokens c = true -> rs_status resp = 401 ->
  exchanged c m path body s (handle_unauthorized c m path body replay b (access_token (cs_tokens s)) s1).2.
Proof.
  intros Ht Htok Hl Href H401. unfold handle_unauthorized.
  destruct (is_terminal_account_state (bf_bytes b)); [by eapply exchanged_round|].
  unfold mbind_. rewrite <- Htok. pose proof (refresh_round_spec c s1) as Hrr.
  destruct (refresh_access_token c (access_token (cs_tokens s1)) s1) as [rr s2].
  destruct Hrr as (outs2 & last2 & Ht2 & Hf2 & Hrr). rewrite Htok in *.
  assert (Hnn : outs2 ++ [last2] <> []) by (by destruct outs2).
  assert (Hlast : List.last (outs ++ [Ok resp]) (Err sc_connect_error) = Ok resp) by apply last_last.
  destruct rr as [tok|e]; cbn [fst snd].
  - specialize (Hrr tok eq_refl). subst tok.
    pose proof (round_spec c m path body replay (access_token (cs_tokens s2)) s2) as Hround.
    destruct (send_with_token c m path body replay _ s2) as [r3 s3].
    destruct Hround as (Htok3 & outs3 & last3 & Ht3 & Hl3 & _).
    exists (outs ++ [Ok resp]), (outs2 ++ [last2]), (outs3 ++ [last3]). rewrite removelast_last. simpl.
    rewrite Htok3, Ht3, Ht2, Ht, <- !(assoc_L (++)). split_and!; try done. by eauto.
  - exists (outs ++ [Ok resp]), (outs2 ++ [last2]), []. rewrite removelast_last. simpl.
    rewrite Ht2, Ht, (right_id_L [] (++)), <- !(assoc_L (++)). split_and!; try done; [lia|by eauto].
Qed.

(** C2: One call, in full: a first round with the stored access token; only
    if it was answered 401 on a client that refreshes, one refresh exchange whose
    attempts but the last never connected; then one more round, with the
    token that is stored from then on, and nothing else. *)
Theorem send_exchanges {T} c m path body replay (dec : string -> result T string) s :
  exchanged c m path body s (send c m path body replay dec s).2.
Proof.
  assert (Hext : forall s1 s2, trace_of s2 = trace_of s1 -> cs_tokens s2 = cs_tokens s1 ->
    exchanged c m path body s s1 -> exchanged c m path body s s2).
  { intros s1 s2 E1 E2. unfold exchanged. by rewrite E1, E2. }
  unfold send. match goal with |- context [timed ?op ?m s] => destruct (trace_timed op m s) as (Ht & Hk & _) end.
  eapply Hext; [exact Ht|exact Hk|]. clear Ht Hk.
  unfold mbind_, timer_attr, mmodify, mget, untimed, mlift, mret, timer_success; cbn [fst snd].
  pose proof (round_spec c m path body replay (access_token (cs_tokens s)) s) as Hround.
  destruct (send_with_token c m path body replay _ s) as [r1 s1].
  destruct Hround as (Htok & outs & last & Ht & Hl & Hr).
  destruct r1 as [b|e]; [|by eapply exchanged_round].
  destruct ((bf_status b =? 401) && hc_refresh_tokens c) eqn:E401.
  2: { by destruct (parse_buffered dec b); eapply exchanged_round. }
  apply andb_true_iff in E401 as [E401%Z.eqb_eq Href].
  destruct last as [resp|e]; simpl in Hr; [|done].
  assert (H401 : rs_status resp = 401).
  { unfold Buffered_read in Hr. destruct (rs_body resp); simpl in Hr; by simplify_eq/=. }
  pose proof (exchanged_unauthorized c m path body replay b s s1 outs resp Ht Htok Hl Href H401) as He.
  destruct (handle_unauthorized _ _ _ _ _ _ _ s1) as [[b2|e] s2]; [|done].
  cbn beta iota. by destruct (parse_buffered dec b2).
Qed.

(** With refreshing off (an anonymous visitor session), a 401 reaches the
    caller as that 401: one request is sent and no token is spent. *)
Theorem no_refresh_surfaces_401 {T} c m path body replay (dec : string -> result T string) s resp bytes :
  (world_send (round_request (without_token_refresh c) m path body (access_token (cs_tokens s)))
     (cs_world s)).1 = Ok resp ->
  rs_status resp = 401 -> rs_body resp = Ok bytes ->
  match decode_envelope bytes with
  | Some env => ar_code env <> ResponseCode.Success /\ ar_code env <> ResponseCode.MultipleResponses
  | None => True
  end ->
  (exists e, (send (without_token_refresh c) m path body replay dec s).1 = Err (Api e)
             /\ pe_http_status e = 401)
  /\ trace_of (send (without_token_refresh c) m path body replay dec s).2
     = trace_of s
       ++ [(round_request (without_token_refresh c) m path body (access_token (cs_tokens s)), Ok resp)]
  /\ cs_tokens (send (without_token_refresh c) m path body replay dec s).2 = cs_tokens s.
Proof.
  intros Hs H401 Hb Henv. unfold send.
  match goal with |- context [timed ?op ?m s] => destruct (trace_timed op m s) as (Ht & Hk & Hr) end.
  rewrite Ht, Hk, Hr. clear Ht Hk Hr.
  unfold mbind_, timer_attr, mmodify, mget, untimed, mlift, send_with_token, on_world,
    send_retrying; cbn [fst snd hc_refresh_tokens without_token_refresh].
  fold (round_request (without_token_refresh c) m path body (access_token (cs_tokens s))).
  pose proof (trace_send (round_request (without_token_refresh c) m path body
    (access_token (cs_tokens s))) (cs_world s)) as Ht.
  set (q := round_request _ _ _ _ _) in *.
  assert (Hloop : send_retrying_loop (policy_of (without_token_refresh c)) replay q
      (Z.to_nat (max_retries (policy_of (without_token_refresh c)))) 0 (cs_world s)
    = (Ok {| bf_status := 401; bf_path := rs_path resp; bf_bytes := bytes |},
       (world_send q (cs_world s)).2)).
  { assert (Hbr : Buffered_read resp
      = Ok {| bf_status := 401; bf_path := rs_path resp; bf_bytes := bytes |})
      by (unfold Buffered_read; rewrite Hb; simpl; by rewrite H401).
    assert (Hnr : is_retryable_status (rs_status resp) = false) by (by rewrite H401).
    set (n := Z.to_nat _). destruct n; cbn [send_retrying_loop];
      destruct (world_send q (cs_world s)) as [o w1]; simpl in Hs; subst o;
      by rewrite ?Hnr, Hbr. }
  rewrite Hloop. cbn [fst snd bf_status bf_bytes]. rewrite andb_false_r.
  unfold mret. cbn [fst snd]. rewrite parse_buffered_rejected by done.
  cbn [fst snd]. split_and!.
  - unfold api_error. eexists. split; [reflexivity|done].
  - unfold trace_of. simpl. rewrite Ht, Hs. done.
  - done.
Qed.
End CallTheorems.

(** ** Concrete runs *)

Definition demo_config : ProtonClientConfiguration :=
  with_base_url "https://drive-api.proton.me" (ProtonClientConfiguration_new "external-drive-x@0.1.0").

Definition demo_tokens : Tokens := {| access_token := "access1"; refresh_token := "refresh1" |}.

Definition demo_client : ApiHttpClient :=
  with_base_route "drive/" (ApiHttpClient_init demo_config "sid" demo_tokens tt).1.

(** The client's state over a scripted network, reporting to sink 7. *)
Definition demo_state (script : list outcome) : client_state scripted :=
  set_telemetry (Some 7%nat)
    (set_on_tokens_refreshed (ApiHttpClient_init demo_config "sid" demo_tokens (scripted_init script)).2).

Definition timeout_error : transport_error :=
  {| te_is_timeout := true; te_is_connect := false; te_is_request := true; te_message := "timed out" |}.

Definition demo_request : request :=
  round_request demo_client GET "/volumes" None "access1".

Example send_url : rq_url demo_request = "https://drive-api.proton.me/drive/volumes".
Proof. reflexivity. Qed.

(** An unsafe request is sent again after a 504 and a timeout; an unrepeatable one
    returns the 504. *)
Lemma send_loops_spec_witness :
  (exists outs last, Forall (may_resend Unsafe) outs /\ length outs = 2%nat /\ last = plain 200 "ok") /\
  (send_unrepeatable (policy_of demo_client) demo_request (scripted_init [plain 504 ""; plain 200 "ok"])).1
    = Ok {| rs_status := 504; rs_path := "/"; rs_retry_after := None; rs_body := Ok "" |}.
Proof.
  split; [|vm_compute; reflexivity].
  destruct (send_loops_spec (policy_of demo_client) Unsafe demo_request
    (scripted_init [plain 504 ""; Err timeout_error; plain 200 "ok"])) as [H _]. revert H.
  destruct (send_retrying _ _ _ _) as [r w'] eqn:E. vm_compute in E. injection E as <- <-.
  intros (outs & last & Ht & Hf & _).
  assert (Hl : length (outs ++ [last]) = 3%nat).
  { apply (f_equal length) in Ht. rewrite length_app, length_fmap in Ht. symmetry. exact Ht. }
  exists outs, (plain 200 "ok"). split; [exact Hf|]. split; [|reflexivity].
  rewrite length_app in Hl. simpl in Hl. lia.
Defined.

Lemma response_delay_bound_witness :
  RetryPolicy_wf RetryPolicy_default
  /\ (response_delay RetryPolicy_default
        {| rs_status := 429; rs_path := "/"; rs_retry_after := Some " 9000 "; rs_body := Ok "" |}
        0 (scripted_init [])).1 = DEFAULT_MAX_RETRY_AFTER.
Proof.
  split; [apply RetryPolicy_default_wf|].
  destruct (response_delay_bound RetryPolicy_default
        {| rs_status := 429; rs_path := "/"; rs_retry_after := Some " 9000 "; rs_body := Ok "" |}
        0 (scripted_init []) RetryPolicy_default_wf ltac:(lia)) as [_ H].
  etransitivity; [exact H|]. vm_compute. reflexivity.
Defined.

Lemma refresh_burst_one_exchange_witness :
  (refresh_burst demo_client "access1" 3 (demo_state [plain 200 "fresh"])).1
    = Ok ["access2"; "access2"; "access2"].
Proof.
  destruct (refresh_burst_one_exchange demo_client 2 (demo_state [plain 200 "fresh"]) "access2"
    (refresh_access_token_now demo_client "access1" (demo_state [plain 200 "fresh"])).2)
    as [H _]; [vm_compute; reflexivity|vm_compute; discriminate|].
  exact (f_equal fst H).
Defined.

Lemma calls_record_one_event_witness :
  exists ev,
    cs_events (send demo_client GET "volumes" None Safe (@Ok string string)
                 (demo_state [plain 200 "ok"])).2 = [(7%nat, ev)]
    /\ ev_outcome ev = Success.
Proof.
  destruct (calls_record_one_event demo_client GET "volumes" None Safe (@Ok string string)
    "u" "t" "b" (demo_state [plain 200 "ok"]) 7%nat eq_refl) as [(ev & He & _ & Ho) _].
  exists ev. split; [exact He|]. apply Ho. vm_compute. reflexivity.
Defined.

Lemma send_exchanges_witness :
  exists first refresh second,
    trace_of (send demo_client GET "volumes" None Safe (@Ok string string)
                (demo_state [plain 401 "denied"; plain 200 "fresh"; plain 200 "ok"])).2
      = ((fun o => (round_request demo_client GET "volumes" None "access1", o)) <$> first)
        ++ ((fun o => (refresh_request demo_client "refresh1", o)) <$> refresh)
        ++ ((fun o => (round_request demo_client GET "volumes" None "access2", o)) <$> second)
    /\ (send demo_client GET "volumes" None Safe (@Ok string string)
                (demo_state [plain 401 "denied"; plain 200 "fresh"; plain 200 "ok"])).1 = Ok "ok".
Proof.
  destruct (send_exchanges demo_client GET "volumes" None Safe (@Ok string string)
    (demo_state [plain 401 "denied"; plain 200 "fresh"; plain 200 "ok"]))
    as (f & r & s & H & _).
  exists f, r, s. split; [exact H|vm_compute; reflexivity].
Defined.

Lemma no_refresh_surfaces_401_witness :
  exists e, (send (without_token_refresh demo_client) GET "volumes" None Safe (@Ok string string)
               (demo_state [plain 401 "denied"])).1 = Err (Api e) /\ pe_http_status e = 401.
Proof.
  refine (proj1 (no_refresh_surfaces_401 demo_client GET "volumes" None Safe (@Ok string string)
    (demo_state [plain 401 "denied"])
    {| rs_status := 401; rs_path := "/"; rs_retry_after := None; rs_body := Ok "denied" |}
    "denied" eq_refl eq_refl eq_refl _)).
  split; vm_compute; discriminate.
Defined.
