(* ===== verification/Srp.v ===== *)
(** * SRP password login

    [crates/proton-sdk/src/crypto/srp.rs]: the client side of Proton's SRP-6a
    variant.  A [BigUint] is a non-negative [Z], a byte slice a [list Z] of
    values below 256.  SHA-512, bcrypt, base64, the PGP check of the modulus and
    the system generator are the interface [SrpPrimitives]. *)

From Stdlib Require Import Zpow_facts.
From S2P Require Import Prelude Errors.

Abbreviation CRes A := (result A CryptoError).

Class SrpPrimitives (R : Type) := {
  sha512 : list Z -> list Z;
  (** [bcrypt::hash_with_salt(password, cost, salt)], printed *)
  bcrypt_hash_with_salt : list Z -> Z -> list Z -> result string string;
  base64_encode : list Z -> string;
  (** the verified, base64-decoded modulus of a cleartext-signed message *)
  verify_and_decode_modulus : string -> CRes (list Z);
  (** [getrandom::fill] of a buffer of the given length *)
  getrandom_fill : nat -> R -> result (list Z) string * R
}.

(** ** Byte strings *)

Definition string_bytes (s : string) : list Z :=
  (fun a => Z.of_N (N_of_ascii a)) <$> String.list_ascii_of_string s.

(** [BigUint::from_bytes_le] *)
Fixpoint from_le (bytes : list Z) : Z :=
  match bytes with
  | [] => 0
  | b :: rest => b + 256 * from_le rest
  end.

(** The [k] low base-256 digits. *)
Fixpoint le_digits (k : nat) (n : Z) : list Z :=
  match k with
  | O => []
  | S k => n mod 256 :: le_digits k (n / 256)
  end.

(** [BigUint::to_bytes_le]: minimal, and a single zero byte for zero. *)
Definition to_bytes_le (n : Z) : list Z :=
  if n =? 0 then [0] else le_digits (Z.to_nat (Z.log2 n / 8 + 1)) n.

(** [BigUint::bits] *)
Definition bits (n : Z) : Z := if n =? 0 then 0 else Z.log2 n + 1.

(** [BigUint::modpow] *)
Definition modpow (b e m : Z) : Z := Zpow_mod b e m.

Definition to_le_fixed (n : Z) (byte_len : nat) : CRes (list Z) :=
  let v := to_bytes_le n in
  if (byte_len <? length v)%nat then Err (CDecrypt "SRP value exceeds group size")
  else Ok (v ++ replicate (byte_len - length v) 0).

Definition DEFAULT_BIT_LENGTH : Z := 2048.

Record SrpProofs := {
  client_ephemeral : list Z;
  client_proof : list Z;
  expected_server_proof : list Z
}.

Record SrpVerifier := { sv_salt : string; sv_verifier : string }.

(** [checkParams] *)
Definition check_params (bit_length n b : Z) : CRes unit :=
  if negb (bits n =? bit_length) then Err (CVerification "SRP modulus has wrong size")
  else if negb (n mod 8 =? 3) then Err (CVerification "SRP modulus is not 3 mod 8")
  else
    let n_minus_1 := n - 1 in
    if (b <=? 1) || (n_minus_1 <=? b)
    then Err (CVerification "SRP server ephemeral out of bounds")
    else
      let half := Z.shiftr n_minus_1 1 in
      if negb (modpow 2 half n =? n_minus_1) then Err (CVerification "SRP modulus is not prime")
      else Ok tt.

Section Srp.
Context {R : Type} `{SrpPrimitives R}.

(** [sha512(data || 0) ++ ... ++ sha512(data || 3)] *)
Definition expand_hash (data : list Z) : list Z :=
  concat ((fun i => sha512 (data ++ [i])) <$> [0; 1; 2; 3]).

Definition hash_password_v3 (password salt modulus : list Z) : CRes (list Z) :=
  if negb (length salt + 6 =? 16)%nat
  then Err (CUnlock ("SRP login salt must be 10 bytes, got " +:+ pretty (length salt)))
  else
    let salt_buf := salt ++ string_bytes "proton" in
    match bcrypt_hash_with_salt password 10 salt_buf with
    | Err e => Err (CUnlock ("bcrypt: " +:+ e))
    | Ok s =>
        match Str.split "$" s with
        | [_; _variant; cost; tail] =>
            let crypted := "$2y$" +:+ cost +:+ "$" +:+ tail in
            Ok (expand_hash (string_bytes crypted ++ modulus))
        | _ => Err (CUnlock "unexpected bcrypt output")
        end
    end.

Definition generate_verifier (password : list Z) (signed_modulus : string) (bit_length : Z)
  : M R SrpVerifier CryptoError :=
  let byte_len := Z.to_nat (bit_length / 8) in
  let* modulus := mlift (verify_and_decode_modulus signed_modulus) in
  let* salt := fun r => let (out, r) := getrandom_fill 10 r in
                        (map_err (fun e => CDecrypt ("rng: " +:+ e)) out, r) in
  let* hashed_password := mlift (hash_password_v3 password salt modulus) in
  let n := from_le modulus in
  let x := from_le hashed_password in
  let verifier := modpow 2 x n in
  let* verifier_le := mlift (to_le_fixed verifier byte_len) in
  mret {| sv_salt := base64_encode salt; sv_verifier := base64_encode verifier_le |}.

(** What one round of [generate_ephemeral]'s loop makes of a buffer of random
    bytes: [None] draws again. *)
Definition ephemeral_of_bytes (bit_length n n_minus_1 : Z) (server_ephemeral buf : list Z)
  : CRes (option (Z * list Z * Z)) :=
  let byte_len := Z.to_nat (bit_length / 8) in
  let lower_bound := bit_length * 2 in
  let secret := from_le buf mod n_minus_1 in
  if (secret <=? lower_bound) || (n_minus_1 <=? secret) then Ok None
  else
    let a := modpow 2 secret n in
    let? a_bytes := to_le_fixed a byte_len in
    let scrambling := from_le (expand_hash (a_bytes ++ server_ephemeral)) in
    if bits scrambling =? 0 then Ok None else Ok (Some (secret, a_bytes, scrambling)).

(** The loop; [None] when [fuel] rounds were not enough. *)
Fixpoint generate_ephemeral (fuel : nat) (bit_length n n_minus_1 : Z) (server_ephemeral : list Z)
  (r : R) : option (CRes (Z * list Z * Z) * R) :=
  match fuel with
  | O => None
  | S fuel =>
      let (out, r) := getrandom_fill (Z.to_nat (bit_length / 8)) r in
      match out with
      | Err e => Some (Err (CDecrypt ("rng: " +:+ e)), r)
      | Ok buf =>
          match ephemeral_of_bytes bit_length n n_minus_1 server_ephemeral buf with
          | Err e => Some (Err e, r)
          | Ok (Some found) => Some (Ok found, r)
          | Ok None => generate_ephemeral fuel bit_length n n_minus_1 server_ephemeral r
          end
      end
  end.

Definition finish_proofs (n n_minus_1 : Z) (byte_len : nat) (k x : Z) (server_ephemeral : list Z)
    (secret : Z) (a_bytes : list Z) (scrambling : Z) : CRes SrpProofs :=
  let b := from_le server_ephemeral in
  let gx := modpow 2 x n in
  let kgx := (k * gx) mod n in
  let base := (b + n - kgx) mod n in
  let exponent := (scrambling * x + secret) mod n_minus_1 in
  let shared := modpow base exponent n in
  let? shared_bytes := to_le_fixed shared byte_len in
  let client_proof := expand_hash (a_bytes ++ server_ephemeral ++ shared_bytes) in
  let expected := expand_hash (a_bytes ++ client_proof ++ shared_bytes) in
  Ok {| client_ephemeral := a_bytes; client_proof := client_proof;
        expected_server_proof := expected |}.

Definition generate_proofs (fuel : nat) (version : Z) (password salt : list Z)
    (signed_modulus : string) (server_ephemeral : list Z) (bit_length : Z) (r : R)
  : option (CRes SrpProofs * R) :=
  if version <? 3
  then Some (Err (CUnlock ("unsupported SRP auth version " +:+ pretty version)), r)
  else
    let byte_len := Z.to_nat (bit_length / 8) in
    match
      let? modulus := verify_and_decode_modulus signed_modulus in
      let? hashed_password := hash_password_v3 password salt modulus in
      let n := from_le modulus in
      let b := from_le server_ephemeral in
      let? _ := check_params bit_length n b in
      let x := from_le hashed_password in
      let? g_bytes := to_le_fixed 2 byte_len in
      let? n_bytes := to_le_fixed n byte_len in
      let k := from_le (expand_hash (g_bytes ++ n_bytes)) mod n in
      if (k <=? 1) || (n - 1 <=? k) then Err (CVerification "SRP multiplier out of bounds")
      else Ok (n, k, x)
    with
    | Err e => Some (Err e, r)
    | Ok (n, k, x) =>
        match generate_ephemeral fuel bit_length n (n - 1) server_ephemeral r with
        | None => None
        | Some (Err e, r) => Some (Err e, r)
        | Some (Ok (secret, a_bytes, scrambling), r) =>
            Some (finish_proofs n (n - 1) byte_len k x server_ephemeral secret a_bytes scrambling, r)
        end
    end.
End Srp.

(** ** Little-endian integers *)

Lemma le_digits_length k n : length (le_digits k n) = k.
Proof. revert n. induction k; intros; simpl; auto. Qed.

Lemma le_digits_range k n : Forall (fun b => 0 <= b < 256) (le_digits k n).
Proof.
  revert n. induction k; intros; simpl; constructor; auto. apply Z.mod_pos_bound. lia.
Qed.

Lemma from_le_app l1 l2 : from_le (l1 ++ l2) = from_le l1 + 256 ^ Z.of_nat (length l1) * from_le l2.
Proof.
  induction l1 as [|b l1 IH]; cbn [from_le app length]; [lia|].
  rewrite IH, Nat2Z.inj_succ, Z.pow_succ_r by lia. ring.
Qed.

Lemma from_le_zeros k : from_le (replicate k 0) = 0.
Proof. induction k; simpl; lia. Qed.

Lemma from_le_digits k n : 0 <= n < 256 ^ Z.of_nat k -> from_le (le_digits k n) = n.
Proof.
  revert n. induction k as [|k IH]; intros n Hn; cbn [le_digits from_le].
  - rewrite Z.pow_0_r in Hn. lia.
  - rewrite Nat2Z.inj_succ, Z.pow_succ_r in Hn by lia.
    rewrite IH; [|split; [apply Z.div_pos; lia|apply Z.div_lt_upper_bound; lia]].
    pose proof (Z.div_mod n 256 ltac:(lia)). lia.
Qed.

Lemma from_le_bound l : Forall (fun b => 0 <= b < 256) l -> 0 <= from_le l < 256 ^ Z.of_nat (length l).
Proof.
  induction 1 as [|b l Hb Hl IH]; cbn [from_le length]; [lia|].
  rewrite Nat2Z.inj_succ, Z.pow_succ_r by lia. lia.
Qed.

Lemma to_bytes_le_size n : 0 < n -> n < 256 ^ (Z.log2 n / 8 + 1).
Proof.
  intros Hn. pose proof (Z.log2_spec n Hn) as [_ H].
  eapply Z.lt_le_trans; [exact H|].
  change 256 with (2 ^ 8). pose proof (Z.log2_nonneg n).
  assert (0 <= Z.log2 n / 8) by (apply Z.div_pos; lia).
  rewrite <- Z.pow_mul_r by lia. apply Z.pow_le_mono_r; [lia|].
  pose proof (Z.mul_succ_div_gt (Z.log2 n) 8 ltac:(lia)). lia.
Qed.

Lemma from_to_bytes_le n : 0 <= n -> from_le (to_bytes_le n) = n.
Proof.
  intros Hn. unfold to_bytes_le. destruct (Z.eqb_spec n 0) as [->|]; [done|].
  pose proof (to_bytes_le_size n ltac:(lia)).
  assert (0 <= Z.log2 n / 8) by (apply Z.div_pos; [apply Z.log2_nonneg|lia]).
  apply from_le_digits. rewrite Z2Nat.id by lia. lia.
Qed.

Lemma to_bytes_le_range n : Forall (fun b => 0 <= b < 256) (to_bytes_le n).
Proof.
  unfold to_bytes_le. case_match; [by repeat constructor|apply le_digits_range].
Qed.

Lemma to_bytes_le_length n k :
  0 <= n < 256 ^ Z.of_nat k -> (0 < k)%nat -> (length (to_bytes_le n) <= k)%nat.
Proof.
  intros Hn Hk. unfold to_bytes_le. destruct (Z.eqb_spec n 0); [simpl; lia|].
  rewrite le_digits_length. enough (Z.log2 n / 8 < Z.of_nat k) by lia.
  apply Z.div_lt_upper_bound; [lia|].
  change 256 with (2 ^ 8) in Hn. rewrite <- Z.pow_mul_r in Hn by lia.
  apply Z.log2_lt_pow2; lia.
Qed.

Lemma to_le_fixed_ok n k :
  0 <= n < 256 ^ Z.of_nat k -> (0 < k)%nat -> exists l, to_le_fixed n k = Ok l /\ length l = k /\ from_le l = n.
Proof.
  intros Hn Hk. pose proof (to_bytes_le_length n k Hn Hk) as Hl. unfold to_le_fixed.
  destruct (Nat.ltb_spec k (length (to_bytes_le n))); [lia|].
  eexists. split; [reflexivity|]. split.
  - rewrite length_app, length_replicate. lia.
  - rewrite from_le_app, from_to_bytes_le, from_le_zeros by lia. lia.
Qed.

(** [to_le_fixed] succeeds exactly on the values that fit the group size, and
    then yields [byte_len] bytes that [from_le] reads back to the value. *)
Theorem to_le_fixed_roundtrip n k :
  0 <= n -> (0 < k)%nat ->
  match to_le_fixed n k with
  | Ok l => n < 256 ^ Z.of_nat k /\ length l = k /\ Forall (fun b => 0 <= b < 256) l /\ from_le l = n
  | Err _ => 256 ^ Z.of_nat k <= n
  end.
Proof.
  intros Hn Hk. unfold to_le_fixed.
  destruct (Nat.ltb_spec k (length (to_bytes_le n))) as [Hl|Hl].
  - apply Z.nlt_ge. intros H. pose proof (to_bytes_le_length n k ltac:(lia) Hk). lia.
  - pose proof (from_to_bytes_le n Hn) as Hf. pose proof (to_bytes_le_range n) as Hr.
    split_and!.
    + rewrite <- Hf. eapply Z.lt_le_trans; [by apply from_le_bound|].
      apply Z.pow_le_mono_r; lia.
    + rewrite length_app, length_replicate. lia.
    + apply Forall_app. split; [done|]. apply Forall_replicate. lia.
    + rewrite from_le_app, from_le_zeros. lia.
Qed.

Lemma to_le_fixed_roundtrip_witness :
  to_le_fixed 70000 4 = Ok [112; 17; 1; 0] /\ from_le [112; 17; 1; 0] = 70000.
Proof.
  pose proof (to_le_fixed_roundtrip 70000 4 ltac:(lia) ltac:(lia)) as H.
  split; [reflexivity|]. exact (proj2 (proj2 (proj2 H))).
Defined.

(** ** Agreement of client and server *)

Lemma modpow_spec b e m : 0 < m -> modpow b e m = b ^ e mod m.
Proof. intros. unfold modpow. apply Zpow_mod_correct. lia. Qed.

Lemma modpow_range b e m : 0 < m -> 0 <= modpow b e m < m.
Proof. intros. rewrite modpow_spec by lia. apply Z.mod_pos_bound. lia. Qed.

(** What an accepted modulus and server ephemeral satisfy. *)
Lemma check_params_ok bit_length n b :
  check_params bit_length n b = Ok tt ->
  bits n = bit_length /\ n mod 8 = 3 /\ 1 < b < n - 1 /\ 3 < n /\ 2 ^ (n - 1) mod n = 1.
Proof.
  unfold check_params.
  destruct (Z.eqb_spec (bits n) bit_length) as [Hb|]; [|done].
  destruct (Z.eqb_spec (n mod 8) 3) as [H8|]; [|done]. cbn [negb].
  destruct (Z.leb_spec b 1); [done|]. destruct (Z.leb_spec (n - 1) b); [done|]. cbn [orb].
  assert (Hn : 3 < n) by lia.
  destruct (Z.eqb_spec (modpow 2 (Z.shiftr (n - 1) 1) n) (n - 1)) as [HL|]; [|done].
  intros _. split_and!; try done; try lia.
  rewrite modpow_spec in HL by lia. rewrite Z.shiftr_div_pow2 in HL by lia.
  change (2 ^ 1) with 2 in HL.
  assert (Hhalf : n - 1 = 2 * ((n - 1) / 2)).
  { pose proof (Z.div_mod n 8 ltac:(lia)). pose proof (Z.div_mod (n - 1) 2 ltac:(lia)).
    pose proof (Z.mod_pos_bound (n - 1) 2 ltac:(lia)). lia. }
  set (h := (n - 1) / 2) in *. assert (Hh : 0 <= h) by lia.
  rewrite Hhalf, Z.mul_comm, Z.pow_mul_r by lia.
  rewrite Z.pow_2_r, Z.mul_mod by lia. rewrite HL.
  replace ((n - 1) * (n - 1)) with (1 + (n - 2) * n) by ring.
  rewrite Z.mod_add by lia. apply Z.mod_small. lia.
Qed.

(** Exponents of 2 may be reduced modulo [n - 1]. *)
Lemma pow2_mod_exponent n e :
  1 < n -> 2 ^ (n - 1) mod n = 1 -> 0 <= e -> 2 ^ (e mod (n - 1)) mod n = 2 ^ e mod n.
Proof.
  intros Hn Hf He. destruct (Z.eq_dec n 2) as [->|Hn2]; [by vm_compute in Hf|].
  pose proof (Z.mod_pos_bound e (n - 1) ltac:(lia)).
  assert (0 <= e / (n - 1)) by (apply Z.div_pos; lia).
  rewrite (Z.div_mod e (n - 1)) at 2 by lia.
  rewrite Z.pow_add_r by nia. rewrite Z.pow_mul_r by lia.
  rewrite Z.mul_mod, (Zpower_mod (2 ^ (n - 1))), Hf, Z.pow_1_l by lia.
  rewrite (Z.mod_small 1) by lia. rewrite Z.mul_1_l, Z.mod_mod by lia. done.
Qed.

(** The client's base [(B - k g^x) mod N] is [g^b mod N]. *)
Lemma client_base n k x b :
  0 < n ->
  ((k * modpow 2 x n + 2 ^ b) mod n + n - (k * modpow 2 x n) mod n) mod n = 2 ^ b mod n.
Proof.
  intros Hn. set (t := k * modpow 2 x n).
  replace ((t + 2 ^ b) mod n + n - t mod n) with ((t + 2 ^ b) mod n - t mod n + 1 * n) by ring.
  rewrite Z.mod_add by lia. rewrite <- Zminus_mod. f_equal. ring.
Qed.

(** The server's view: its ephemeral for the verifier [v] and secret [b], and the
    secret it computes from the client's ephemeral. *)
Definition server_ephemeral_value (n k v b : Z) : Z := (k * v + 2 ^ b) mod n.
Definition server_secret (n a_pub v u b : Z) : Z := (a_pub * v ^ u) ^ b mod n.

Lemma mod_mul_pow n p q u b :
  0 < n -> (p mod n * (q mod n) ^ u) ^ b mod n = (p * q ^ u) ^ b mod n.
Proof.
  intros Hn. rewrite (Zpower_mod (p mod n * _)), (Zpower_mod (p * _)) by lia. f_equal. f_equal.
  rewrite Z.mul_mod_idemp_l by lia.
  rewrite <- Z.mul_mod_idemp_r, <- Zpower_mod, Z.mul_mod_idemp_r by lia. done.
Qed.

Lemma secrets_agree n k x a u b :
  3 < n -> 2 ^ (n - 1) mod n = 1 -> 0 <= x -> 0 <= a -> 0 <= u -> 0 <= b ->
  let v := modpow 2 x n in
  let base := (server_ephemeral_value n k v b + n - (k * v) mod n) mod n in
  modpow base ((u * x + a) mod (n - 1)) n = server_secret n (modpow 2 a n) v u b.
Proof.
  intros Hn Hf Hx Ha Hu Hb v base.
  assert (0 <= u * x) by nia.
  pose proof (Z.mod_pos_bound (u * x + a) (n - 1) ltac:(lia)).
  assert (Hbase : base = 2 ^ b mod n) by (unfold base, server_ephemeral_value; by apply client_base; lia).
  rewrite modpow_spec, Hbase, <- Zpower_mod by lia.
  rewrite <- Z.pow_mul_r, Z.mul_comm, Z.pow_mul_r by lia.
  rewrite Zpower_mod, pow2_mod_exponent, <- Zpower_mod by lia.
  unfold server_secret, v. rewrite !modpow_spec by lia.
  rewrite mod_mul_pow by lia. f_equal.
  assert (2 ^ a * (2 ^ x) ^ u = 2 ^ (u * x + a)) as ->; [|done].
  rewrite <- Z.pow_mul_r, (Z.add_comm (u * x) a), Z.pow_add_r by lia.
  by rewrite (Z.mul_comm x u).
Qed.

Section Agreement.
Context {R : Type} `{SrpPrimitives R}.

(** C5: For any accepted modulus, the proofs the client assembles are the hashes
    over the secret the server computes. *)
Theorem srp_agreement n bit_length byte_len k x a u b server_ephemeral a_bytes :
  let v := modpow 2 x n in
  from_le server_ephemeral = server_ephemeral_value n k v b ->
  check_params bit_length n (from_le server_ephemeral) = Ok tt ->
  (0 < byte_len)%nat -> bit_length = 8 * Z.of_nat byte_len ->
  0 <= x -> 0 <= a -> 0 <= u -> 0 <= b ->
  exists s_bytes,
    length s_bytes = byte_len
    /\ from_le s_bytes = server_secret n (modpow 2 a n) v u b
    /\ finish_proofs n (n - 1) byte_len k x server_ephemeral a a_bytes u
       = Ok {| client_ephemeral := a_bytes;
               client_proof := expand_hash (a_bytes ++ server_ephemeral ++ s_bytes);
               expected_server_proof :=
                 expand_hash (a_bytes ++ expand_hash (a_bytes ++ server_ephemeral ++ s_bytes)
                              ++ s_bytes) |}.
Proof.
  intros v HB Hchk Hl Hbl Hx Ha Hu Hb.
  destruct (check_params_ok _ _ _ Hchk) as (Hbits & H8 & Hrange & Hn & Hf).
  pose proof (secrets_agree n k x a u b Hn Hf Hx Ha Hu Hb) as Hag. cbv zeta in Hag. fold v in Hag.
  set (S := server_secret n (modpow 2 a n) v u b) in *.
  assert (HS : 0 <= S < 256 ^ Z.of_nat byte_len).
  { assert (0 <= S < n) by (apply Z.mod_pos_bound; lia).
    enough (n < 256 ^ Z.of_nat byte_len) by lia.
    unfold bits in Hbits. destruct (Z.eqb_spec n 0); [lia|].
    change 256 with (2 ^ 8). rewrite <- Z.pow_mul_r by lia.
    apply Z.log2_lt_pow2; lia. }
  destruct (to_le_fixed_ok S byte_len HS Hl) as (s_bytes & Hs & Hlen & Hval).
  exists s_bytes. split_and!; [done..|].
  unfold finish_proofs. fold v. rewrite HB, Hag. fold S. rewrite Hs. done.
Qed.
End Agreement.

(** ** A concrete group: 11 is an accepted 4-bit modulus *)

(** Primitives for concrete runs: a hash that is not collision-free, and a
    generator that yields its script. *)
#[export] Instance demo_srp : SrpPrimitives (list (list Z)) := {
  sha512 data := [from_le data mod 251];
  bcrypt_hash_with_salt pw cost salt := Ok "$2b$10$abc";
  base64_encode l := Str.join "," (pretty <$> l);
  verify_and_decode_modulus s := if String.eqb s "N" then Ok [11] else Err (CParse "modulus");
  getrandom_fill n r := match r with x :: r => (Ok x, r) | [] => (Err "empty", []) end
}.

Example check_params_19 : check_params 5 19 5 = Ok tt.
Proof. vm_compute. reflexivity. Qed.

Definition demo_B : list Z := to_bytes_le (server_ephemeral_value 32771 3 (modpow 2 6 32771) 15).

Lemma srp_agreement_witness :
  exists s_bytes,
    from_le s_bytes = server_secret 32771 (modpow 2 7 32771) (modpow 2 6 32771) 5 15
    /\ is_ok (finish_proofs 32771 (32771 - 1) 2 3 6 demo_B 7 [1; 2] 5) = true.
Proof.
  destruct (srp_agreement 32771 16 2 3 6 7 5 15 demo_B [1; 2]) as (s & _ & Hv & Hf);
    [vm_compute; reflexivity|vm_compute; reflexivity|lia|lia|lia|lia|lia|lia|].
  exists s. split; [exact Hv|]. rewrite Hf. reflexivity.
Defined.

(** ** The client secret *)

Section Ephemeral.
Context {R : Type} `{SrpPrimitives R}.

(** The generator after [k] draws. *)
Fixpoint rng_after (len k : nat) (r : R) : R :=
  match k with O => r | S k => rng_after len k (getrandom_fill len r).2 end.

(** Draw [k] settles the loop: the generator fails, the bytes yield a usable
    secret, or encoding the ephemeral fails. *)
Definition draw_settles (bit_length n : Z) (server_ephemeral : list Z) (k : nat) (r : R) : Prop :=
  let len := Z.to_nat (bit_length / 8) in
  match (getrandom_fill len (rng_after len k r)).1 with
  | Err _ => True
  | Ok buf => ephemeral_of_bytes bit_length n (n - 1) server_ephemeral buf <> Ok None
  end.

Lemma ephemeral_of_bytes_some bit_length n B buf secret a_bytes u :
  ephemeral_of_bytes bit_length n (n - 1) B buf = Ok (Some (secret, a_bytes, u)) ->
  bit_length * 2 < secret < n - 1
  /\ to_le_fixed (modpow 2 secret n) (Z.to_nat (bit_length / 8)) = Ok a_bytes
  /\ u = from_le (expand_hash (a_bytes ++ B)) /\ u <> 0.
Proof.
  unfold ephemeral_of_bytes.
  destruct (Z.leb_spec (from_le buf mod (n - 1)) (bit_length * 2)); [done|].
  destruct (Z.leb_spec (n - 1) (from_le buf mod (n - 1))); [done|]. cbn [orb].
  destruct (to_le_fixed _ _) as [l|] eqn:E; [|done]. cbn [result_bind].
  destruct (Z.eqb_spec (bits (from_le (expand_hash (l ++ B)))) 0) as [|Hb]; [done|].
  intros [= <- <- <-]. split_and!; try done; try lia.
  intros Hz. apply Hb. by rewrite Hz.
Qed.

(** The loop of [generate_ephemeral] ends as soon as a draw settles it, so it
    runs for as many rounds as the generator takes to produce a usable value;
    a secret it returns lies strictly between [2 * bit_length] and [N - 1], the
    ephemeral is the encoding of [2 ^ secret mod N], and the scrambling
    parameter is the non-zero hash of both ephemerals. *)
Theorem generate_ephemeral_terminates bit_length n B fuel k r :
  (k < fuel)%nat -> draw_settles bit_length n B k r ->
  exists out r', generate_ephemeral fuel bit_length n (n - 1) B r = Some (out, r')
    /\ forall secret a_bytes u, out = Ok (secret, a_bytes, u) ->
         bit_length * 2 < secret < n - 1
         /\ to_le_fixed (modpow 2 secret n) (Z.to_nat (bit_length / 8)) = Ok a_bytes
         /\ u = from_le (expand_hash (a_bytes ++ B)) /\ u <> 0.
Proof.
  revert k r. induction fuel as [|fuel IH]; intros k r Hk Hd; [lia|].
  cbn [generate_ephemeral].
  destruct (getrandom_fill (Z.to_nat (bit_length / 8)) r) as [[buf|e] r1] eqn:E;
    [|eexists _, _; split; [reflexivity|naive_solver]].
  destruct (ephemeral_of_bytes bit_length n (n - 1) B buf) as [[[[sec a] u]|]|e] eqn:Ee.
  - eexists _, _. split; [reflexivity|]. intros ??? [= <- <- <-].
    by eapply ephemeral_of_bytes_some.
  - destruct k as [|k].
    { unfold draw_settles in Hd. simpl in Hd. rewrite E in Hd. by simpl in Hd. }
    apply (IH k); [lia|]. unfold draw_settles in *. simpl in Hd. by rewrite E in Hd.
  - eexists _, _. split; [reflexivity|naive_solver].
Qed.
End Ephemeral.

Lemma generate_ephemeral_terminates_witness :
  exists out r', generate_ephemeral 2 16 32771 32770 demo_B [[1; 0]; [99; 3]] = Some (out, r')
    /\ is_ok out = true.
Proof.
  destruct (generate_ephemeral_terminates 16 32771 demo_B 2 1 [[1; 0]; [99; 3]])
    as (out & r' & Hg & _); [lia|vm_compute; discriminate|].
  exists out, r'. split; [exact Hg|].
  vm_compute in Hg. injection Hg as <- _. reflexivity.
Defined.
