(* ===== verification/Session.v ===== *)
(** * The authenticated session

    [crates/proton-sdk/src/session.rs]: resuming from stored tokens, SRP login,
    the second factor.  Base64 decoding and serde's derived (de)serializers are
    the interface [SessionCodec]; the generator used by the handshake is part of
    the world. *)

From S2P Require Import Prelude Errors Config Http Srp.

Inductive PasswordMode : Type := Single | Dual.

Definition PasswordMode_from_wire (value : Z) : PasswordMode :=
  match value with 1 => Single | _ => Dual end.

Record SecondFactorMethods := { totp : bool; fido2 : bool }.

Definition SecondFactorMethods_default : SecondFactorMethods := {| totp := false; fido2 := false |}.

Definition SecondFactorMethods_from_wire (enabled : Z) : SecondFactorMethods :=
  {| totp := negb (Z.land enabled 1 =? 0); fido2 := negb (Z.land enabled 2 =? 0) |}.

Record ResumeParameters := {
  rp_session_id : SessionId;
  rp_username : string;
  rp_user_id : UserId;
  rp_access_token : string;
  rp_refresh_token : string;
  rp_scopes : list string;
  rp_is_waiting_for_second_factor_code : bool;
  rp_password_mode : PasswordMode
}.

(** [http] is the client together with the state it shares. *)
Record ProtonApiSession (W : Type) := {
  ss_client : ApiHttpClient;
  ss_http : client_state W;
  ss_session_id : SessionId;
  ss_username : string;
  ss_user_id : UserId;
  ss_scopes : list string;
  ss_password_mode : PasswordMode;
  ss_is_waiting_for_second_factor : bool;
  ss_second_factor_methods : SecondFactorMethods
}.
Arguments ss_client {W}. Arguments ss_http {W}. Arguments ss_session_id {W}.
Arguments ss_username {W}. Arguments ss_user_id {W}. Arguments ss_scopes {W}.
Arguments ss_password_mode {W}. Arguments ss_is_waiting_for_second_factor {W}.
Arguments ss_second_factor_methods {W}.

(** ** Wire types *)

Record SessionInitiationResponse := {
  si_version : Z;
  si_modulus : string;
  si_server_ephemeral : string;
  si_salt : string;
  si_srp_session : string
}.

Record AuthenticationRequest := {
  aq_username : string;
  aq_client_ephemeral : string;
  aq_client_proof : string;
  aq_srp_session : string
}.

Record AuthenticationResponse := {
  au_session_id : SessionId;
  au_user_id : UserId;
  au_server_proof : string;
  au_access_token : string;
  au_refresh_token : string;
  au_scopes : list string;
  au_password_mode : Z;
  (** [Enabled] of the optional [2FA] object *)
  au_second_factor : option Z
}.

Class SessionCodec := {
  base64_decode : string -> result (list Z) string;
  encode_initiation : string -> string;
  decode_initiation : string -> result SessionInitiationResponse string;
  encode_authentication : AuthenticationRequest -> string;
  decode_authentication : string -> result AuthenticationResponse string;
  encode_second_factor : string -> string;
  decode_scopes : string -> result (list string) string;
  decode_any_envelope : string -> result ApiResponse string
}.

(** [str::trim], on the ASCII text base64 is. *)
Definition trim (s : string) : string := trim_end (trim_start s).

Section Session.
Context {W : Type} `{HttpWorld W} `{HttpCodec} `{SrpPrimitives W} `{SessionCodec}.

Definition resume (config : ProtonClientConfiguration) (params : ResumeParameters) (w : W)
  : Res (ProtonApiSession W) :=
  let tokens := {| access_token := rp_access_token params;
                   refresh_token := rp_refresh_token params |} in
  let? (client, http) := ApiHttpClient_new config (rp_session_id params) tokens w in
  Ok {| ss_client := client; ss_http := http;
        ss_session_id := rp_session_id params;
        ss_username := rp_username params;
        ss_user_id := rp_user_id params;
        ss_scopes := rp_scopes params;
        ss_password_mode := rp_password_mode params;
        ss_is_waiting_for_second_factor := rp_is_waiting_for_second_factor_code params;
        ss_second_factor_methods := SecondFactorMethods_default |}.

(** The first half of [begin_verified]: initiate, decode, run the handshake.
    [None] when the handshake ran out of [fuel]. *)
Definition begin_handshake (bit_length : Z) (fuel : nat) (config : ProtonClientConfiguration)
    (username : string) (password : list Z) (verification : option HumanVerificationCredential)
    (w : W) : option (Res (SessionInitiationResponse * SrpProofs) * W) :=
  let (init, w) := post_unauthenticated_verified config "auth/v4/info"
                     (encode_initiation username) verification decode_initiation w in
  match
    let? init := init in
    let? salt := map_err (fun e => invalid_operation ("decode SRP salt: " +:+ e))
                         (base64_decode (trim (si_salt init))) in
    let? server_ephemeral := map_err (fun e => invalid_operation ("decode server ephemeral: " +:+ e))
                         (base64_decode (trim (si_server_ephemeral init))) in
    Ok (init, salt, server_ephemeral)
  with
  | Err e => Some (Err e, w)
  | Ok (init, salt, server_ephemeral) =>
      match generate_proofs fuel (si_version init) password salt (si_modulus init)
              server_ephemeral bit_length w with
      | None => None
      | Some (Err e, w) => Some (Err (Crypto e), w)
      | Some (Ok proofs, w) => Some (Ok (init, proofs), w)
      end
  end.

(** [begin_verified] for any group size; the code passes [DEFAULT_BIT_LENGTH]. *)
Definition begin_verified_sized (bit_length : Z) (fuel : nat) (config : ProtonClientConfiguration)
    (username : string) (password : list Z) (verification : option HumanVerificationCredential)
    (w : W) : option (Res (ProtonApiSession W) * W) :=
  match begin_handshake bit_length fuel config username password verification w with
  | None => None
  | Some (Err e, w) => Some (Err e, w)
  | Some (Ok (init, proofs), w) =>
      let (auth, w) := post_unauthenticated_verified config "auth/v4"
        (encode_authentication
           {| aq_username := username;
              aq_client_ephemeral := base64_encode (client_ephemeral proofs);
              aq_client_proof := base64_encode (client_proof proofs);
              aq_srp_session := si_srp_session init |})
        verification decode_authentication w in
      Some (
        let? auth := auth in
        let? server_proof := map_err (fun e => invalid_operation ("decode server proof: " +:+ e))
                               (base64_decode (trim (au_server_proof auth))) in
        if negb (bool_decide (server_proof = expected_server_proof proofs))
        then Err (invalid_operation "SRP server proof mismatch — server failed authentication")
        else
          let tokens := {| access_token := au_access_token auth;
                           refresh_token := au_refresh_token auth |} in
          let? (client, http) := ApiHttpClient_new config (au_session_id auth) tokens w in
          let enabled := match au_second_factor auth with None => 0 | Some e => e end in
          Ok {| ss_client := client; ss_http := http;
                ss_session_id := au_session_id auth;
                ss_username := username;
                ss_user_id := au_user_id auth;
                ss_scopes := au_scopes auth;
                ss_password_mode := PasswordMode_from_wire (au_password_mode auth);
                ss_is_waiting_for_second_factor := negb (enabled =? 0);
                ss_second_factor_methods := SecondFactorMethods_from_wire enabled |}, w)
  end.

Definition begin_verified (fuel : nat) (config : ProtonClientConfiguration)
    (username : string) (password : list Z) (verification : option HumanVerificationCredential)
    (w : W) : option (Res (ProtonApiSession W) * W) :=
  begin_verified_sized DEFAULT_BIT_LENGTH fuel config username password verification w.

Definition begin (fuel : nat) (config : ProtonClientConfiguration) (username : string)
    (password : list Z) (w : W) : option (Res (ProtonApiSession W) * W) :=
  begin_verified fuel config username password None w.

(** The session with its shared HTTP state replaced. *)
Definition session_with_http (s : ProtonApiSession W) (h : client_state W) : ProtonApiSession W :=
  {| ss_client := ss_client s; ss_http := h; ss_session_id := ss_session_id s;
     ss_username := ss_username s; ss_user_id := ss_user_id s; ss_scopes := ss_scopes s;
     ss_password_mode := ss_password_mode s;
     ss_is_waiting_for_second_factor := ss_is_waiting_for_second_factor s;
     ss_second_factor_methods := ss_second_factor_methods s |}.

Definition session_http {A} (m : ApiHttpClient -> M (client_state W) A ProtonError)
  : M (ProtonApiSession W) A ProtonError := fun s =>
  let (r, h) := m (ss_client s) (ss_http s) in (r, session_with_http s h).

Definition apply_second_factor_code (code : string) : M (ProtonApiSession W) unit ProtonError :=
  let* scopes := session_http (fun c =>
    http_post c "auth/v4/2fa" (encode_second_factor code) decode_scopes) in
  mmodify (fun s =>
    {| ss_client := ss_client s; ss_http := ss_http s; ss_session_id := ss_session_id s;
       ss_username := ss_username s; ss_user_id := ss_user_id s; ss_scopes := scopes;
       ss_password_mode := ss_password_mode s;
       ss_is_waiting_for_second_factor := false;
       ss_second_factor_methods := ss_second_factor_methods s |}).

Definition refresh_scopes : M (ProtonApiSession W) unit ProtonError :=
  let* scopes := session_http (fun c => http_get c "auth/v4/scopes" decode_scopes) in
  mmodify (fun s =>
    {| ss_client := ss_client s; ss_http := ss_http s; ss_session_id := ss_session_id s;
       ss_username := ss_username s; ss_user_id := ss_user_id s; ss_scopes := scopes;
       ss_password_mode := ss_password_mode s;
       ss_is_waiting_for_second_factor := ss_is_waiting_for_second_factor s;
       ss_second_factor_methods := ss_second_factor_methods s |}).

Definition end_session : M (ProtonApiSession W) unit ProtonError :=
  let* _ := session_http (fun c => http_delete c "auth/v4" decode_any_envelope) in
  mret tt.
End Session.
