(* ===== verification/SessionFacts.v ===== *)
(** * The authenticated session: theorems *)

From S2P Require Import Prelude Errors Config Http HttpFacts Srp Session.

(** A request that carries no session: no bearer token and no session id. *)
Definition sessionless (r : request) : Prop :=
  rq_bearer r = None /\ Forall (fun h => fst h <> SESSION_ID_HEADER) (rq_headers r).

(** [w'] extends [w]'s trace with session-less requests only. *)
Definition only_sessionless {W} `{HttpWorld W} (w w' : W) : Prop :=
  exists sent, world_trace w' = world_trace w ++ sent /\ Forall (fun p => sessionless (fst p)) sent.

(** Drawing random bytes sends nothing. *)
Class SrpWorldLaws (W : Type) `{HttpWorld W} `{SrpPrimitives W} : Prop := {
  trace_getrandom n w : world_trace (getrandom_fill n w).2 = world_trace w
}.

Section Begin.
Context {W : Type} `{HttpWorldLaws W} `{HttpCodec} `{SrpPrimitives W}.
Context `{!SrpWorldLaws W} `{SessionCodec}.

Lemma only_sessionless_refl (w w' : W) :
  world_trace w' = world_trace w -> only_sessionless w w'.
Proof. intros Ht. exists []. rewrite Ht, (right_id_L [] (++)). by split. Qed.

Lemma only_sessionless_trans (w1 w2 w3 : W) :
  only_sessionless w1 w2 -> only_sessionless w2 w3 -> only_sessionless w1 w3.
Proof.
  intros (s1 & E1 & F1) (s2 & E2 & F2). exists (s1 ++ s2).
  rewrite E2, E1, (assoc_L (++)). split; [done|]. by apply Forall_app.
Qed.

Lemma post_unauthenticated_sessionless {T} config path body hv (dec : string -> result T string) w :
  only_sessionless w (post_unauthenticated_verified config path body hv dec w).2.
Proof.
  unfold post_unauthenticated_verified.
  destruct (client_build_error config); [by apply only_sessionless_refl|].
  match goal with |- context [send_retrying ?p ?rp ?q w] =>
    set (q0 := q); destruct (send_retrying_spec p rp q0 w) as (outs & last & Ht & _);
    destruct (send_retrying p rp q0 w) as [r w'] end.
  simpl in *. eexists. split; [exact Ht|].
  apply Forall_fmap, Forall_forall. intros o _. split; [done|].
  unfold q0, unauthenticated_headers. simpl.
  apply Forall_cons. split; [done|]. apply Forall_cons. split; [done|].
  apply Forall_app. split; [by case_match; repeat constructor|].
  by destruct hv; repeat constructor.
Qed.

Lemma generate_ephemeral_trace fuel bl n B w out w' :
  generate_ephemeral fuel bl n (n - 1) B w = Some (out, w') -> world_trace w' = world_trace w.
Proof.
  revert w. induction fuel as [|fuel IH]; intros w; simpl; [done|].
  pose proof (trace_getrandom (Z.to_nat (bl / 8)) w) as Ht.
  destruct (getrandom_fill _ w) as [[buf|e] w1]; simpl in Ht; [|by intros [= <- <-]].
  destruct (ephemeral_of_bytes _ _ _ _ _) as [[found|]|e]; [by intros [= <- <-]| |by intros [= <- <-]].
  intros Hg. by rewrite (IH _ Hg).
Qed.

Lemma generate_proofs_trace fuel v pw salt m B bl w out w' :
  generate_proofs fuel v pw salt m B bl w = Some (out, w') -> world_trace w' = world_trace w.
Proof.
  unfold generate_proofs. destruct (v <? 3); [by intros [= <- <-]|].
  match goal with |- context [match ?scrut with Ok _ => _ | Err _ => _ end] =>
    destruct scrut as [[[n k] x]|e] end; [|by intros [= <- <-]].
  destruct (generate_ephemeral fuel bl n (n - 1) B w) as [[[[[s a] u]|e] w1]|] eqn:E; [| |done];
    intros [= <- <-]; by eapply generate_ephemeral_trace.
Qed.

Lemma begin_handshake_sessionless bl fuel config user pw hv w out w' :
  begin_handshake bl fuel config user pw hv w = Some (out, w') -> only_sessionless w w'.
Proof.
  unfold begin_handshake.
  pose proof (post_unauthenticated_sessionless config "auth/v4/info" (encode_initiation user) hv
                decode_initiation w) as Hs.
  destruct (post_unauthenticated_verified _ _ _ _ _ _) as [init w1]. simpl in Hs.
  match goal with |- context [match ?scrut with Ok _ => _ | Err _ => _ end] =>
    destruct scrut as [[[i salt] B]|e] end; [|by intros [= <- <-]].
  destruct (generate_proofs _ _ _ _ _ _ _ _) as [[[proofs|e] w2]|] eqn:E; [| |done];
    intros [= <- <-]; (eapply only_sessionless_trans; [exact Hs|]);
    apply only_sessionless_refl; by eapply generate_proofs_trace.
Qed.

Lemma begin_handshake_answered bl fuel config user pw hv w init proofs w2 :
  begin_handshake bl fuel config user pw hv w = Some (Ok (init, proofs), w2) ->
  exists salt ephemeral w1,
    answered config "auth/v4/info" (encode_initiation user) decode_initiation init w w1 /\
    base64_decode (trim (si_salt init)) = Ok salt /\
    base64_decode (trim (si_server_ephemeral init)) = Ok ephemeral /\
    generate_proofs fuel (si_version init) pw salt (si_modulus init) ephemeral bl w1 = Some (Ok proofs, w2).
Proof.
  unfold begin_handshake.
  destruct (post_unauthenticated_verified _ _ _ _ _ _) as [[i|e] w1] eqn:Ep; simpl; [|done].
  apply post_unauthenticated_answered in Ep.
  destruct (base64_decode (trim (si_salt i))) as [salt|] eqn:Es; simpl; [|done].
  destruct (base64_decode (trim (si_server_ephemeral i))) as [eph|] eqn:Ee; simpl; [|done].
  destruct (generate_proofs _ _ _ _ _ _ _ _) as [[[p|e] w3]|] eqn:Eg; [|done..].
  intros [= <- <- <-]. by exists salt, eph, w1.
Qed.

(** What the client asks to log in with. *)
Definition login_request (user : string) (init : SessionInitiationResponse) (proofs : SrpProofs)
  : AuthenticationRequest :=
  {| aq_username := user; aq_client_ephemeral := base64_encode (client_ephemeral proofs);
     aq_client_proof := base64_encode (client_proof proofs); aq_srp_session := si_srp_session init |}.

(** C4: For every group size, the default included: a login that yields a session
    has authenticated the server.  The server's last response to [auth/v4/info]
    gave the parameters of the handshake; its last response to the client's proof,
    sent to [auth/v4], carried the proof that the handshake expects; and the session
    holds that very response's tokens, ids, scopes and password mode, waits for a
    second factor exactly when it enables one, by the methods it names.  Nothing sent
    during the login carried a session. *)
Theorem begin_authenticates_server bl fuel config user pw hv w sess w' :
  begin_verified_sized bl fuel config user pw hv w = Some (Ok sess, w') ->
  only_sessionless w w'
  /\ exists init salt ephemeral proofs auth w1 w2,
       answered config "auth/v4/info" (encode_initiation user) decode_initiation init w w1
       /\ base64_decode (trim (si_salt init)) = Ok salt
       /\ base64_decode (trim (si_server_ephemeral init)) = Ok ephemeral
       /\ generate_proofs fuel (si_version init) pw salt (si_modulus init) ephemeral bl w1 = Some (Ok proofs, w2)
       /\ answered config "auth/v4" (encode_authentication (login_request user init proofs))
            decode_authentication auth w2 w'
       /\ base64_decode (trim (au_server_proof auth)) = Ok (expected_server_proof proofs)
       /\ current_tokens (ss_http sess)
          = {| access_token := au_access_token auth; refresh_token := au_refresh_token auth |}
       /\ hc_session_id (ss_client sess) = au_session_id auth
       /\ ss_session_id sess = au_session_id auth /\ ss_username sess = user
       /\ ss_user_id sess = au_user_id auth /\ ss_scopes sess = au_scopes auth
       /\ ss_password_mode sess = PasswordMode_from_wire (au_password_mode auth)
       /\ let enabled := default 0 (au_second_factor auth) in
          (ss_is_waiting_for_second_factor sess = true <-> enabled <> 0)
          /\ totp (ss_second_factor_methods sess) = Z.testbit enabled 0
          /\ fido2 (ss_second_factor_methods sess) = Z.testbit enabled 1.
Proof.
  unfold begin_verified_sized.
  destruct (begin_handshake bl fuel config user pw hv w) as [[[[init proofs]|e] w1]|] eqn:Hh; [|done..].
  pose proof (begin_handshake_sessionless _ _ _ _ _ _ _ _ _ Hh) as Hs1.
  apply begin_handshake_answered in Hh as (salt & eph & w0 & Ha & Hsalt & Heph & Hg).
  match goal with |- context [post_unauthenticated_verified ?c ?p ?b ?v ?d ?w] =>
    pose proof (post_unauthenticated_sessionless c p b v d w) as Hs2;
    destruct (post_unauthenticated_verified c p b v d w) as [[auth|e] w2] eqn:Hpost end; [|done].
  apply post_unauthenticated_answered in Hpost.
  simpl in Hs2 |- *. intros Heq.
  destruct (base64_decode (trim (au_server_proof auth))) as [proof|e] eqn:Hp; [|done]. simpl in Heq.
  case_bool_decide as Hproof; [|done]. simpl in Heq. unfold ApiHttpClient_new in Heq.
  destruct (client_build_error config); [done|]. simpl in Heq. injection Heq as <- <-.
  split; [by eapply only_sessionless_trans|].
  exists init, salt, eph, proofs, auth, w0, w1. split_and!; simpl; try done; [by rewrite Hp, Hproof|..].
  - unfold default. destruct (au_second_factor auth) as [e|]; [|naive_solver].
    destruct (Z.eqb_spec e 0); naive_solver.
  - assert (forall e, negb (Z.land e 1 =? 0) = Z.testbit e 0) as Hb; [|by destruct (au_second_factor auth)].
    intros e. change 1 with (Z.ones 1). rewrite Z.land_ones by lia. change (2 ^ 1) with 2.
    rewrite <- Z.bit0_mod. by destruct (Z.testbit e 0).
  - assert (forall e, negb (Z.land e 2 =? 0) = Z.testbit e 1) as Hb; [|by destruct (au_second_factor auth)].
    intros e. assert (Z.land e 2 = 2 * (Z.b2z (Z.testbit e 1))) as ->; [|by destruct (Z.testbit e 1)].
    apply Z.bits_inj'. intros i Hi. rewrite Z.land_spec.
    destruct (Z.eq_dec i 1) as [->|Hne].
    + by destruct (Z.testbit e 1).
    + rewrite (Z.pow2_bits_false 1) by lia. rewrite andb_false_r.
      destruct (Z.testbit e 1); [|by rewrite Z.testbit_0_l].
      by rewrite (Z.pow2_bits_false 1) by lia.
Qed.

(** A second-factor code either is accepted, which adopts the answered scopes and
    ends the waiting, or leaves both as they were; nothing else of the session's
    own state changes. *)
Theorem second_factor_transition code (s : ProtonApiSession W) :
  let '(r, s') := apply_second_factor_code code s in
  match r with
  | Ok _ => ss_is_waiting_for_second_factor s' = false
            /\ exists h, http_post (ss_client s) "auth/v4/2fa" (encode_second_factor code)
                           decode_scopes (ss_http s) = (Ok (ss_scopes s'), h)
  | Err _ => ss_is_waiting_for_second_factor s' = ss_is_waiting_for_second_factor s
             /\ ss_scopes s' = ss_scopes s
  end
  /\ ss_session_id s' = ss_session_id s /\ ss_user_id s' = ss_user_id s
  /\ ss_second_factor_methods s' = ss_second_factor_methods s.
Proof.
  unfold apply_second_factor_code, mbind_, session_http.
  destruct (http_post _ _ _ _ _) as [[scopes|e] h]; simpl; [|done].
  split_and!; try done. by exists h.
Qed.
End Begin.

(** ** A concrete login over a 16-bit group *)

#[export] Instance login_srp : SrpPrimitives scripted := {
  sha512 data := [from_le data mod 251];
  bcrypt_hash_with_salt _ _ _ := Ok "$2b$10$abc";
  base64_encode l := Str.join "," (pretty <$> l);
  verify_and_decode_modulus s :=
    if String.eqb s "N" then Ok (to_bytes_le 32771) else Err (CParse "modulus");
  getrandom_fill n w := (Ok (replicate n 77), w)
}.

#[export] Instance login_srp_laws : SrpWorldLaws scripted.
Proof. by split. Qed.

Definition login_salt : list Z := [1; 2; 3; 4; 5; 6; 7; 8; 9; 10].
Definition login_password : list Z := string_bytes "hunter2".

(** The proof an honest server would answer. *)
Definition login_server_proof : list Z :=
  match generate_proofs 3 4 login_password login_salt "N" [9; 9] 16 (scripted_init []) with
  | Some (Ok p, _) => expected_server_proof p
  | _ => []
  end.

#[export] Instance login_codec : SessionCodec := {
  base64_decode s :=
    if String.eqb s "salt" then Ok login_salt
    else if String.eqb s "B" then Ok [9; 9]
    else if String.eqb s "proof" then Ok login_server_proof
    else Err "base64";
  encode_initiation u := u;
  decode_initiation _ := Ok {| si_version := 4; si_modulus := "N"; si_server_ephemeral := " B ";
                               si_salt := "salt"; si_srp_session := "srp" |};
  encode_authentication r := aq_client_proof r;
  decode_authentication _ :=
    Ok {| au_session_id := "sid"; au_user_id := "uid"; au_server_proof := "proof";
          au_access_token := "a"; au_refresh_token := "r"; au_scopes := ["full"];
          au_password_mode := 1; au_second_factor := Some 3 |};
  encode_second_factor c := c;
  decode_scopes _ := Ok [];
  decode_any_envelope _ := Err "unused"
}.

Lemma begin_authenticates_server_witness :
  exists sess w',
    begin_verified_sized 16 3 demo_config "me" login_password None
      (scripted_init [plain 200 "ok"; plain 200 "ok"]) = Some (Ok sess, w')
    /\ only_sessionless (scripted_init [plain 200 "ok"; plain 200 "ok"]) w'
    /\ ss_is_waiting_for_second_factor sess = true.
Proof.
  destruct (begin_verified_sized 16 3 demo_config "me" login_password None
      (scripted_init [plain 200 "ok"; plain 200 "ok"])) as [[[sess|e] w']|] eqn:E;
    [|vm_compute in E; discriminate E|vm_compute in E; discriminate E].
  exists sess, w'. split; [reflexivity|]. split.
  - exact (proj1 (begin_authenticates_server _ _ _ _ _ _ _ _ _ E)).
  - vm_compute in E. injection E as <- <-. reflexivity.
Defined.
