(* ===== verification/CacheRepo.v ===== *)
(** * The cache repositories

    [crates/proton-sdk/src/cache.rs]: the key/value store with tags, its bounded
    in-memory implementation and the encrypting wrapper.  The LRU map of the
    [lru] crate is the interface [LruCache] (operations) with [LruLaws] (the
    crate's documented behaviour); a [HashMap] is a [gmap], a [HashSet] a
    [gset].  Each operation runs under the repository's lock, so it is one
    atomic step. *)

From S2P Require Import Prelude Errors Srp.

(** ** The repository interface *)

Class CacheRepository (S : Type) := {
  repo_set : string -> string -> list string -> M S unit ProtonError;
  repo_get : string -> M S (option string) ProtonError;
  repo_remove : string -> M S unit ProtonError;
  repo_remove_by_tag : string -> M S unit ProtonError;
  repo_clear : M S unit ProtonError;
  repo_get_by_tags : list string -> M S (list (string * string)) ProtonError
}.

Definition set_untagged {S} `{CacheRepository S} (key value : string) : M S unit ProtonError :=
  repo_set key value [].

(** ** The LRU map *)

Fixpoint assoc_get {V} (k : string) (l : list (string * V)) : option V :=
  match l with
  | [] => None
  | (k', v) :: l => if decide (k' = k) then Some v else assoc_get k l
  end.

Fixpoint assoc_del {V} (k : string) (l : list (string * V)) : list (string * V) :=
  match l with
  | [] => []
  | (k', v) :: l => if decide (k' = k) then l else (k', v) :: assoc_del k l
  end.

Class LruCache (L : Type) := {
  lru_new : nat -> L;
  (** the entry displaced: the old value of the key, or the evicted entry *)
  lru_push : string -> string -> L -> option (string * string) * L;
  lru_get : string -> L -> option string * L;
  lru_peek : string -> L -> option string;
  lru_pop : string -> L -> option string * L;
  lru_len : L -> nat;
  lru_clear : L -> L;
  (** contents, most recently used first, and the capacity *)
  lru_entries : L -> list (string * string);
  lru_cap : L -> nat
}.

(** What the [lru] crate documents. *)
Class LruLaws (L : Type) `{LruCache L} : Prop := {
  lru_new_entries n : lru_entries (lru_new n) = [];
  lru_new_cap n : lru_cap (lru_new n) = n;
  lru_push_entries k v c :
    lru_entries (lru_push k v c).2
    = (k, v) :: match assoc_get k (lru_entries c) with
                | Some _ => assoc_del k (lru_entries c)
                | None => if (length (lru_entries c) <? lru_cap c)%nat then lru_entries c
                          else removelast (lru_entries c)
                end;
  lru_push_displaced k v c :
    (lru_push k v c).1
    = match assoc_get k (lru_entries c) with
      | Some old => Some (k, old)
      | None => if (length (lru_entries c) <? lru_cap c)%nat then None
                else last (lru_entries c)
      end;
  lru_get_value k c : (lru_get k c).1 = assoc_get k (lru_entries c);
  lru_get_entries k c :
    lru_entries (lru_get k c).2
    = match assoc_get k (lru_entries c) with
      | Some v => (k, v) :: assoc_del k (lru_entries c)
      | None => lru_entries c
      end;
  lru_peek_value k c : lru_peek k c = assoc_get k (lru_entries c);
  lru_pop_entries k c : lru_entries (lru_pop k c).2 = assoc_del k (lru_entries c);
  lru_len_entries c : lru_len c = length (lru_entries c);
  lru_clear_entries c : lru_entries (lru_clear c) = [];
  lru_cap_push k v c : lru_cap (lru_push k v c).2 = lru_cap c;
  lru_cap_get k c : lru_cap (lru_get k c).2 = lru_cap c;
  lru_cap_pop k c : lru_cap (lru_pop k c).2 = lru_cap c;
  lru_cap_clear c : lru_cap (lru_clear c) = lru_cap c
}.

(** ** The in-memory repository *)

Definition DEFAULT_CACHE_CAPACITY : nat := Z.to_nat 8192.

Record InMemoryState (L : Type) := {
  entries : L;
  key_to_tags : gmap string (gset string);
  tag_to_keys : gmap string (gset string)
}.
Arguments entries {L}. Arguments key_to_tags {L}. Arguments tag_to_keys {L}.

Section InMemory.
Context {L : Type} `{LruCache L}.
Implicit Types (s : InMemoryState L).

Definition with_capacity (capacity : nat) : InMemoryState L :=
  {| entries := lru_new (match capacity with O => 1%nat | n => n end);
     key_to_tags := ∅; tag_to_keys := ∅ |}.

Definition InMemory_default : InMemoryState L := with_capacity DEFAULT_CACHE_CAPACITY.

Definition cache_len s : nat := lru_len (entries s).
Definition cache_is_empty s : bool := (cache_len s =? 0)%nat.
Definition tag_index_len s : nat := size (key_to_tags s).

(** One turn of the loop of [clear_tags_for_key]. *)
Definition unlink_tag (key tag : string) (m : gmap string (gset string))
  : gmap string (gset string) :=
  match m !! tag with
  | Some keys =>
      let keys := keys ∖ {[key]} in
      if decide (keys = ∅) then delete tag m else <[tag := keys]> m
  | None => m
  end.

Definition clear_tags_for_key (key : string) s : InMemoryState L :=
  match key_to_tags s !! key with
  | Some tags =>
      {| entries := entries s;
         key_to_tags := delete key (key_to_tags s);
         tag_to_keys := foldr (unlink_tag key) (tag_to_keys s) (elements tags) |}
  | None => s
  end.

(** One turn of the tag loop of [set]: [entry(tag).or_default().insert(key)]. *)
Definition link_tag (key tag : string) (m : gmap string (gset string))
  : gmap string (gset string) :=
  <[tag := {[key]} ∪ default ∅ (m !! tag)]> m.

Definition mem_set (key value : string) (tags : list string) : M (InMemoryState L) unit ProtonError :=
  fun s =>
  let s := clear_tags_for_key key s in
  let (displaced, lru) := lru_push key value (entries s) in
  let s := {| entries := lru; key_to_tags := key_to_tags s; tag_to_keys := tag_to_keys s |} in
  let s := match displaced with
           | Some (evicted, _) =>
               if decide (evicted = key) then s else clear_tags_for_key evicted s
           | None => s
           end in
  let tag_set : gset string := list_to_set tags in
  (Ok tt,
   {| entries := entries s;
      key_to_tags := <[key := tag_set]> (key_to_tags s);
      tag_to_keys := foldr (link_tag key) (tag_to_keys s) (elements tag_set) |}).

Definition mem_get (key : string) : M (InMemoryState L) (option string) ProtonError := fun s =>
  let (v, lru) := lru_get key (entries s) in
  (Ok v, {| entries := lru; key_to_tags := key_to_tags s; tag_to_keys := tag_to_keys s |}).

(** [entries.pop(key)] then [clear_tags_for_key]. *)
Definition drop_key (key : string) s : InMemoryState L :=
  clear_tags_for_key key
    {| entries := (lru_pop key (entries s)).2;
       key_to_tags := key_to_tags s; tag_to_keys := tag_to_keys s |}.

Definition mem_remove (key : string) : M (InMemoryState L) unit ProtonError := fun s =>
  (Ok tt, drop_key key s).

Definition mem_remove_by_tag (tag : string) : M (InMemoryState L) unit ProtonError := fun s =>
  let keys := elements (default ∅ (tag_to_keys s !! tag)) in
  (Ok tt, foldr drop_key s keys).

Definition mem_clear : M (InMemoryState L) unit ProtonError := fun s =>
  (Ok tt, {| entries := lru_clear (entries s); key_to_tags := ∅; tag_to_keys := ∅ |}).

(** The candidate loop of [get_by_tags]; [None] is its early return of nothing. *)
Fixpoint gather_candidates s (tags : list string) (candidates : option (gset string))
  : option (gset string) :=
  match tags with
  | [] => Some (default ∅ candidates)
  | tag :: tags =>
      match tag_to_keys s !! tag with
      | None => None
      | Some keys =>
          let c := match candidates with Some existing => existing ∩ keys | None => keys end in
          if decide (c = ∅) then None else gather_candidates s tags (Some c)
      end
  end.

Definition mem_get_by_tags (tags : list string)
  : M (InMemoryState L) (list (string * string)) ProtonError := fun s =>
  match tags with
  | [] => (Ok [], s)
  | _ =>
      match gather_candidates s tags None with
      | None => (Ok [], s)
      | Some candidates =>
          (Ok (omap (fun key => v ← lru_peek key (entries s); Some (key, v)) (elements candidates)), s)
      end
  end.

#[export] Instance InMemoryCacheRepository : CacheRepository (InMemoryState L) := {
  repo_set := mem_set;
  repo_get := mem_get;
  repo_remove := mem_remove;
  repo_remove_by_tag := mem_remove_by_tag;
  repo_clear := mem_clear;
  repo_get_by_tags := mem_get_by_tags
}.
End InMemory.

(** ** The encrypting wrapper *)

(** The primitives: HKDF-SHA256 with the key as input material, AES-256-GCM,
    base64, UTF-8 validation and the system generator [R].  Bytes are strings. *)
Class AeadPrimitives (R : Type) := {
  hkdf_expand : string -> string -> string -> nat -> result string string;
  (** sealing with key and nonce; the tag is appended *)
  gcm_encrypt : string -> string -> string -> option string;
  gcm_decrypt : string -> string -> string -> option string;
  b64_encode : string -> string;
  b64_decode : string -> result string string;
  from_utf8 : string -> result string string;
  fill_salt : nat -> R -> result string string * R
}.

Definition SALT_LEN : nat := 16.
Definition KEY_LEN : nat := 32.
Definition NONCE_LEN : nat := 12.
Definition TAG_LEN : nat := 16.
Definition ENCRYPTION_CONTEXT : string := "Drive.EncryptedCacheRepository".

Definition str_take (n : nat) (s : string) : string := String.substring 0 n s.
Definition str_drop (n : nat) (s : string) : string :=
  String.substring n (String.length s - n) s.

Section Encrypted.
Context {S R : Type} `{CacheRepository S} `{AeadPrimitives R}.

Definition enc_derive (encryption_key salt entry_key : string) : Res (string * string) :=
  let info := ENCRYPTION_CONTEXT +:+ entry_key in
  let? okm := map_err (fun e => invalid_operation ("cache HKDF expand: " +:+ e))
                (hkdf_expand salt encryption_key info (KEY_LEN + NONCE_LEN)) in
  Ok (str_take KEY_LEN okm, str_drop KEY_LEN okm).

Definition enc_encrypt (encryption_key entry_key plaintext : string) : M (S * R) string ProtonError :=
  fun '(s, r) =>
  let (salt, r) := fill_salt SALT_LEN r in
  (let? salt := map_err (fun e => invalid_operation ("cache salt: " +:+ e)) salt in
   let? (key, nonce) := enc_derive encryption_key salt entry_key in
   let? sealed := ok_or (gcm_encrypt key nonce plaintext) (invalid_operation "cache encrypt failed") in
   Ok (b64_encode (salt +:+ sealed)), (s, r)).

Definition enc_decrypt (encryption_key entry_key encoded : string) : Res (option string) :=
  let? combined := map_err (fun e => invalid_operation ("cache base64: " +:+ e)) (b64_decode encoded) in
  if (String.length combined <? SALT_LEN + TAG_LEN)%nat
  then Err (invalid_operation "cache value too short")
  else
    let salt := str_take SALT_LEN combined in
    let sealed := str_drop SALT_LEN combined in
    let? (key, nonce) := enc_derive encryption_key salt entry_key in
    match gcm_decrypt key nonce sealed with
    | Some plaintext =>
        let? text := map_err (fun e => invalid_operation ("cache utf8: " +:+ e)) (from_utf8 plaintext) in
        Ok (Some text)
    | None => Ok None
    end.

(** An operation of the wrapped repository. *)
Definition on_inner {A} (m : M S A ProtonError) : M (S * R) A ProtonError := fun '(s, r) =>
  let (out, s) := m s in (out, (s, r)).

Definition enc_set (encryption_key key value : string) (tags : list string)
  : M (S * R) unit ProtonError :=
  let* encrypted := enc_encrypt encryption_key key value in
  on_inner (repo_set key encrypted tags).

Definition enc_get (encryption_key key : string) : M (S * R) (option string) ProtonError :=
  let* found := on_inner (repo_get key) in
  match found with
  | None => mret None
  | Some encrypted =>
      let* opened := mlift (enc_decrypt encryption_key key encrypted) in
      match opened with
      | Some value => mret (Some value)
      | None => let* _ := on_inner repo_clear in mret None
      end
  end.

(** The loop of [get_by_tags]; [None] when an entry failed authentication. *)
Fixpoint open_all (encryption_key : string) (l : list (string * string))
  : Res (option (list (string * string))) :=
  match l with
  | [] => Ok (Some [])
  | (key, encrypted) :: l =>
      let? opened := enc_decrypt encryption_key key encrypted in
      match opened with
      | None => Ok None
      | Some value =>
          let? rest := open_all encryption_key l in
          Ok (cons (key, value) <$> rest)
      end
  end.

Definition enc_get_by_tags (encryption_key : string) (tags : list string)
  : M (S * R) (list (string * string)) ProtonError :=
  let* stored := on_inner (repo_get_by_tags tags) in
  let* out := mlift (open_all encryption_key stored) in
  match out with
  | Some out => mret out
  | None => let* _ := on_inner repo_clear in mret []
  end.

Definition EncryptedCacheRepository (encryption_key : string) : CacheRepository (S * R) := {|
  repo_set := enc_set encryption_key;
  repo_get := enc_get encryption_key;
  repo_remove k := on_inner (repo_remove k);
  repo_remove_by_tag t := on_inner (repo_remove_by_tag t);
  repo_clear := on_inner repo_clear;
  repo_get_by_tags := enc_get_by_tags encryption_key
|}.
End Encrypted.
