(* ===== verification/CacheRepoFacts.v ===== *)
(** * Facts about the cache repositories

    The in-memory repository refines a recency list: a list of entries
    [(key, (value, tags))], most recently used first, on which every operation
    is a one-line list function.  The two tag indexes are an implementation
    detail the refinement hides; that they never drift from the entries is
    [index_ok] and is part of the simulation relation.  The encrypting wrapper
    is proved transparent, and a rejected entry clears the cache. *)

From S2P Require Import Prelude Errors Srp CacheRepo.

(** ** Association lists *)

Section Assoc.
Context {V : Type}.
Implicit Types (l : list (string * V)).

Lemma assoc_get_elem k v l : assoc_get k l = Some v -> (k, v) ∈ l.
Proof.
  induction l as [|[k' v'] l IH]; simpl; [done|].
  case_decide; [intros; simplify_eq; left|intros; right; auto].
Qed.

Lemma assoc_get_None k l : assoc_get k l = None <-> k ∉ l.*1.
Proof.
  induction l as [|[k' v'] l IH]; simpl; [split; [intros _ H; inversion H|done]|].
  rewrite elem_of_cons. case_decide; subst; [naive_solver|].
  rewrite IH. naive_solver.
Qed.

Lemma elem_assoc_get k v l : NoDup l.*1 -> (k, v) ∈ l -> assoc_get k l = Some v.
Proof.
  induction l as [|[k' v'] l IH]; simpl; [intros _ H; inversion H|].
  rewrite NoDup_cons, elem_of_cons. intros [Hn Hd] [[= <- <-]|Hin]; [by case_decide|].
  case_decide; [subst|by apply IH].
  destruct Hn. apply list_elem_of_fmap. by exists (k, v).
Qed.

Lemma assoc_del_filter k l :
  NoDup l.*1 -> assoc_del k l = filter (fun e => e.1 <> k) l.
Proof.
  induction l as [|[k' v'] l IH]; simpl; [done|]. rewrite NoDup_cons. intros [Hn Hd].
  rewrite filter_cons; simpl. case_decide; subst; [|rewrite decide_True by done; by f_equal; apply IH].
  rewrite decide_False by naive_solver. symmetry. apply filter_all.
  apply Forall_forall. intros [a b] Hin Heq; simpl in *; subst. apply Hn.
  apply list_elem_of_fmap. by exists (k, b).
Qed.

Lemma assoc_del_absent k l : k ∉ l.*1 -> assoc_del k l = l.
Proof.
  induction l as [|[k' v'] l IH]; simpl; [done|]. rewrite not_elem_of_cons.
  intros [? ?]. case_decide; [congruence|]. f_equal; auto.
Qed.

Lemma assoc_del_keys k l : NoDup l.*1 -> NoDup (assoc_del k l).*1 /\ k ∉ (assoc_del k l).*1.
Proof.
  intros Hd. rewrite assoc_del_filter by done. split.
  - eapply sublist_NoDup; [done|]. apply fmap_sublist, sublist_filter.
  - intros Hin. apply list_elem_of_fmap in Hin as ([a b] & -> & Hin).
    apply list_elem_of_filter in Hin. naive_solver.
Qed.

Lemma assoc_get_del k k' l :
  NoDup l.*1 -> assoc_get k (assoc_del k' l) = if decide (k = k') then None else assoc_get k l.
Proof.
  intros Hd. case_decide; subst; [by apply assoc_get_None, assoc_del_keys|].
  induction l as [|[a b] l IH]; simpl; [done|]. apply NoDup_cons in Hd as [_ Hd].
  repeat (case_decide; simpl; subst; try done); by apply IH.
Qed.

Lemma assoc_del_length k v l :
  assoc_get k l = Some v -> length l = S (length (assoc_del k l)).
Proof.
  induction l as [|[a b] l IH]; simpl; [done|]. case_decide; [done|]. intros Hg%IH; simpl; lia.
Qed.

Lemma assoc_get_fmap {W} (f : V -> W) k l :
  assoc_get k (prod_map id f <$> l) = f <$> assoc_get k l.
Proof. induction l as [|[a b] l IH]; simpl; [done|]. by case_decide. Qed.

Lemma assoc_del_fmap {W} (f : V -> W) k l :
  assoc_del k (prod_map id f <$> l) = prod_map id f <$> assoc_del k l.
Proof. induction l as [|[a b] l IH]; simpl; [done|]. case_decide; simpl; [done|]. by f_equal. Qed.

Lemma keys_fmap {W} (f : V -> W) l : (prod_map id f <$> l).*1 = l.*1.
Proof. induction l as [|[a b] l IH]; simpl; [done|]. by f_equal. Qed.

Lemma removelast_take l : removelast l = take (length l - 1) l.
Proof.
  induction l as [|x [|y l] IH]; [done..|].
  change (removelast (x :: y :: l)) with (x :: removelast (y :: l)). rewrite IH. simpl.
  by rewrite Nat.sub_0_r.
Qed.

Lemma removelast_assoc_del k v l :
  NoDup l.*1 -> last l = Some (k, v) -> removelast l = assoc_del k l.
Proof.
  intros Hd (l' & ->)%last_Some. rewrite removelast_last.
  rewrite fmap_app in Hd. apply NoDup_app in Hd as (_ & Hk & _).
  induction l' as [|[a b] l' IH]; simpl; [by rewrite decide_True by done|].
  rewrite decide_False; [|intros ->; eapply (Hk k); simpl; set_solver].
  f_equal. apply IH. intros x Hx. apply Hk. by right.
Qed.

Lemma take_push cap x k l :
  NoDup l.*1 -> (length l <= cap)%nat -> (0 < cap)%nat ->
  take cap (x :: assoc_del k l)
  = x :: match assoc_get k l with
         | Some _ => assoc_del k l
         | None => if (length l <? cap)%nat then l else removelast l
         end.
Proof.
  intros Hd Hl Hc. destruct cap as [|cap]; [lia|]. simpl. f_equal.
  destruct (assoc_get k l) as [v|] eqn:E.
  - apply assoc_del_length in E. rewrite take_ge; [done|lia].
  - apply assoc_get_None in E. rewrite assoc_del_absent by done.
    destruct (Nat.ltb_spec (length l) (S cap)); [rewrite take_ge; [done|lia]|].
    rewrite removelast_take. f_equal. lia.
Qed.
End Assoc.

(** ** The tag indexes *)

(** [key_to_tags] and [tag_to_keys] are each other's inverse, and no tag keeps
    an empty key set behind. *)
Definition index_ok (kt tk : gmap string (gset string)) : Prop :=
  (forall t k, k ∈ default ∅ (tk !! t) <-> exists ts, kt !! k = Some ts /\ t ∈ ts) /\
  (forall t, tk !! t <> Some ∅).

Lemma index_ok_empty : index_ok ∅ ∅.
Proof.
  split; intros t; [intros k|]; rewrite !lookup_empty; [|done]. simpl. split; [set_solver|].
  by intros (ts & Hk & _).
Qed.

Lemma unlink_tag_spec k t tk :
  (forall t', tk !! t' <> Some ∅) ->
  (forall t', default ∅ (unlink_tag k t tk !! t')
              = if decide (t' = t) then default ∅ (tk !! t') ∖ {[k]} else default ∅ (tk !! t')) /\
  (forall t', unlink_tag k t tk !! t' <> Some ∅).
Proof.
  intros Hne. unfold unlink_tag. destruct (tk !! t) as [keys|] eqn:E.
  - case_decide as Hc; split; intros t'; destruct (decide (t' = t)) as [->|Ht];
      rewrite ?lookup_delete_eq, ?lookup_insert_eq, ?lookup_delete_ne, ?lookup_insert_ne by done;
      rewrite ?E; simpl; [by rewrite Hc| done..| congruence | done].
  - split; [|done]. intros t'. case_decide; subst; [rewrite E; simpl; set_solver|done].
Qed.

Lemma unlink_tags_spec k ts tk :
  (forall t', tk !! t' <> Some ∅) ->
  (forall t', default ∅ (foldr (unlink_tag k) tk ts !! t')
              = if decide (t' ∈ ts) then default ∅ (tk !! t') ∖ {[k]} else default ∅ (tk !! t')) /\
  (forall t', foldr (unlink_tag k) tk ts !! t' <> Some ∅).
Proof.
  intros Hne. induction ts as [|t ts [IH1 IH2]]; simpl.
  - by split.
  - destruct (unlink_tag_spec k t _ IH2) as [H1 H2]. split; [|done]. intros t'. rewrite H1, IH1.
    repeat case_decide; subst; set_solver.
Qed.

Lemma link_tags_spec k ts tk :
  (forall t', tk !! t' <> Some ∅) ->
  (forall t', default ∅ (foldr (link_tag k) tk ts !! t')
              = if decide (t' ∈ ts) then {[k]} ∪ default ∅ (tk !! t') else default ∅ (tk !! t')) /\
  (forall t', foldr (link_tag k) tk ts !! t' <> Some ∅).
Proof.
  intros Hne. induction ts as [|t ts [IH1 IH2]]; simpl.
  - by split.
  - unfold link_tag at 1 3. split; intros t'; destruct (decide (t' = t)) as [->|Ht].
    + rewrite lookup_insert_eq; simpl. rewrite IH1. repeat case_decide; set_solver.
    + rewrite lookup_insert_ne by done. rewrite IH1. repeat case_decide; set_solver.
    + rewrite lookup_insert_eq. intros [= H]. set_solver.
    + by rewrite lookup_insert_ne by done.
Qed.

Lemma index_unlink k ts kt tk :
  index_ok kt tk -> kt !! k = Some ts ->
  index_ok (delete k kt) (foldr (unlink_tag k) tk (elements ts)).
Proof.
  intros [Hi Hne] Hk. destruct (unlink_tags_spec k (elements ts) tk Hne) as [H1 H2].
  split; [|done]. intros t k'. rewrite H1.
  destruct (decide (k' = k)) as [->|Hkk]; rewrite ?lookup_delete_eq, ?lookup_delete_ne by done.
  - split; [|by intros (? & ? & _)]. case_decide as Ht; [set_solver|].
    rewrite Hi. rewrite elem_of_elements in Ht. naive_solver.
  - rewrite <- Hi. case_decide; set_solver.
Qed.

Lemma index_link k ts kt tk :
  index_ok kt tk -> kt !! k = None ->
  index_ok (<[k := ts]> kt) (foldr (link_tag k) tk (elements ts)).
Proof.
  intros [Hi Hne] Hk. destruct (link_tags_spec k (elements ts) tk Hne) as [H1 H2].
  split; [|done]. intros t k'. rewrite H1.
  destruct (decide (k' = k)) as [->|Hkk]; rewrite ?lookup_insert_eq, ?lookup_insert_ne by done.
  - split.
    + case_decide as Ht; rewrite elem_of_elements in Ht; [by exists ts|].
      rewrite Hi. intros (? & ? & _). congruence.
    + intros (? & [= <-] & Ht). rewrite decide_True by (by apply elem_of_elements). set_solver.
  - rewrite <- Hi. case_decide; set_solver.
Qed.

(** ** The recency list *)

(** Abstract state: [(key, (value, tags))], most recently used first. *)
Abbreviation recency := (list (string * (string * gset string))).

Inductive cache_op :=
| OpSet (key value : string) (tags : list string)
| OpGet (key : string)
| OpRemove (key : string)
| OpRemoveByTag (tag : string)
| OpClear
| OpGetByTags (tags : list string).

Inductive cache_out :=
| OutUnit
| OutValue (v : option string)
| OutEntries (l : list (string * string)).

Definition tagged_with (tags : list string) (e : string * (string * gset string)) : Prop :=
  list_to_set tags ⊆ e.2.2.
#[global] Instance tagged_with_dec tags e : Decision (tagged_with tags e).
Proof. unfold tagged_with. apply _. Defined.

(** What the repository promises, for a capacity [cap]. *)
Definition spec_op (cap : nat) (op : cache_op) (a : recency) : cache_out * recency :=
  match op with
  | OpSet k v tags => (OutUnit, take cap ((k, (v, list_to_set tags)) :: assoc_del k a))
  | OpGet k => (OutValue (fst <$> assoc_get k a),
                match assoc_get k a with
                | Some e => (k, e) :: assoc_del k a
                | None => a
                end)
  | OpRemove k => (OutUnit, assoc_del k a)
  | OpRemoveByTag t => (OutUnit, filter (fun e => t ∉ e.2.2) a)
  | OpClear => (OutUnit, [])
  | OpGetByTags [] => (OutEntries [], a)
  | OpGetByTags tags => (OutEntries (prod_map id fst <$> filter (tagged_with tags) a), a)
  end.

(** The order of a tag sweep is a [HashSet]'s. *)
Definition out_equiv (o1 o2 : cache_out) : Prop :=
  match o1, o2 with
  | OutEntries l1, OutEntries l2 => l1 ≡ₚ l2
  | _, _ => o1 = o2
  end.

(** Running an operation of a repository. *)
Definition run_op {S} `{CacheRepository S} (op : cache_op) : M S cache_out ProtonError :=
  match op with
  | OpSet k v tags => let* _ := repo_set k v tags in mret OutUnit
  | OpGet k => let* v := repo_get k in mret (OutValue v)
  | OpRemove k => let* _ := repo_remove k in mret OutUnit
  | OpRemoveByTag t => let* _ := repo_remove_by_tag t in mret OutUnit
  | OpClear => let* _ := repo_clear in mret OutUnit
  | OpGetByTags tags => let* l := repo_get_by_tags tags in mret (OutEntries l)
  end.

Fixpoint run_ops {S} `{CacheRepository S} (ops : list cache_op) (s : S)
  : list (result cache_out ProtonError) * S :=
  match ops with
  | [] => ([], s)
  | op :: ops => let (o, s) := run_op op s in
                 let (os, s) := run_ops ops s in (o :: os, s)
  end.

Fixpoint spec_ops (cap : nat) (ops : list cache_op) (a : recency) : list cache_out * recency :=
  match ops with
  | [] => ([], a)
  | op :: ops => let (o, a) := spec_op cap op a in
                 let (os, a) := spec_ops cap ops a in (o :: os, a)
  end.

(** ** Refinement *)

Section Refinement.
Context {L : Type} `{LruLaws L}.
Implicit Types (s : InMemoryState L) (a : recency).

(** The concrete state [s] represents the recency list [a]. *)
Record repr (cap : nat) a s : Prop := {
  repr_entries : lru_entries (entries s) = prod_map id fst <$> a;
  repr_cap : lru_cap (entries s) = cap;
  repr_tags k : key_to_tags s !! k = snd <$> assoc_get k a;
  repr_index : index_ok (key_to_tags s) (tag_to_keys s);
  repr_nodup : NoDup a.*1;
  repr_len : (length a <= cap)%nat
}.

Lemma clear_tags_spec k s :
  index_ok (key_to_tags s) (tag_to_keys s) ->
  entries (clear_tags_for_key k s) = entries s /\
  key_to_tags (clear_tags_for_key k s) = delete k (key_to_tags s) /\
  index_ok (key_to_tags (clear_tags_for_key k s)) (tag_to_keys (clear_tags_for_key k s)).
Proof.
  intros Hi. unfold clear_tags_for_key. destruct (key_to_tags s !! k) eqn:E; simpl.
  - split_and!; [done..|]. by apply index_unlink.
  - by rewrite delete_id.
Qed.

Lemma repr_drop_key cap k a s : repr cap a s -> repr cap (assoc_del k a) (drop_key k s).
Proof.
  intros [He Hc Ht Hi Hd Hl]. unfold drop_key.
  set (s1 := {| entries := _ |}). destruct (clear_tags_spec k s1 Hi) as (E1 & E2 & E3).
  split; [| | |done| |].
  - rewrite E1. simpl. by rewrite lru_pop_entries, He, assoc_del_fmap.
  - rewrite E1. simpl. by rewrite lru_cap_pop.
  - intros k'. rewrite E2. simpl. rewrite assoc_get_del by done.
    destruct (decide (k' = k)) as [->|]; [by rewrite lookup_delete_eq|].
    by rewrite lookup_delete_ne.
  - by apply assoc_del_keys.
  - destruct (assoc_get k a) eqn:E; [apply assoc_del_length in E; lia|].
    apply assoc_get_None in E. by rewrite assoc_del_absent.
Qed.

Lemma repr_get cap k a s :
  repr cap a s ->
  exists s', mem_get k s = (Ok (fst <$> assoc_get k a), s') /\
             repr cap (spec_op cap (OpGet k) a).2 s'.
Proof.
  intros [He Hc Ht Hi Hd Hl]. unfold mem_get.
  destruct (lru_get k (entries s)) as [v lru] eqn:E.
  pose proof (lru_get_value k (entries s)) as Hv. pose proof (lru_get_entries k (entries s)) as Hn.
  pose proof (lru_cap_get k (entries s)) as Hp.
  rewrite E in Hv, Hn, Hp. simpl in Hv, Hn, Hp. rewrite He, assoc_get_fmap in Hv, Hn.
  exists {| entries := lru; key_to_tags := key_to_tags s; tag_to_keys := tag_to_keys s |}.
  rewrite Hv. split; [done|]. simpl.
  destruct (assoc_get k a) as [[v0 ts]|] eqn:Ek; simpl in *;
    [|split; simpl; done || congruence].
  destruct (assoc_del_keys k a Hd). split; simpl; try done.
  - by rewrite Hn, assoc_del_fmap.
  - congruence.
  - intros k'. rewrite Ht, assoc_get_del by done.
    repeat case_decide; subst; try done; by rewrite Ek.
  - by constructor.
  - apply assoc_del_length in Ek. lia.
Qed.


Lemma repr_remove_all cap ks a s :
  repr cap a s -> repr cap (filter (fun e => e.1 ∉ ks) a) (foldr drop_key s ks).
Proof.
  intros Hr. induction ks as [|k ks IH]; cbn [foldr].
  - rewrite filter_all; [done|]. apply Forall_forall. intros ? _ Hin. inversion Hin.
  - replace (filter (fun e => e.1 ∉ k :: ks) a)
      with (assoc_del k (filter (fun e => e.1 ∉ ks) a)); [by apply repr_drop_key|].
    rewrite assoc_del_filter by apply IH. rewrite list_filter_filter.
    apply list_filter_iff. intros x. rewrite not_elem_of_cons. naive_solver.
Qed.

Lemma repr_tagged cap t a s :
  repr cap a s -> forall e, e ∈ a -> e.1 ∈ default ∅ (tag_to_keys s !! t) <-> t ∈ e.2.2.
Proof.
  intros Hr [k [v ts]] Hin. destruct (repr_index _ _ _ Hr) as [Hi _]. rewrite Hi; simpl.
  rewrite (repr_tags _ _ _ Hr), (elem_assoc_get _ _ _ (repr_nodup _ _ _ Hr) Hin). simpl.
  naive_solver.
Qed.

Lemma repr_remove_by_tag cap t a s :
  repr cap a s ->
  repr cap (filter (fun e => t ∉ e.2.2) a) (mem_remove_by_tag t s).2.
Proof.
  intros Hr. unfold mem_remove_by_tag; simpl.
  set (ks := elements _). replace (filter (fun e => t ∉ e.2.2) a) with
    (filter (fun e => e.1 ∉ ks) a); [by apply repr_remove_all|].
  apply filter_ext_elem. intros e He. unfold ks.
  rewrite elem_of_elements. by rewrite (repr_tagged _ _ _ _ Hr e He).
Qed.

(** The repository between the push of [set] and its tag linking: the new key
    has no tags yet, the other entries [a'] are intact. *)
Record pushed (cap : nat) (k v : string) a' s : Prop := {
  pushed_entries : lru_entries (entries s) = (k, v) :: (prod_map id fst <$> a');
  pushed_cap : lru_cap (entries s) = cap;
  pushed_tags k' : key_to_tags s !! k' = snd <$> assoc_get k' a';
  pushed_index : index_ok (key_to_tags s) (tag_to_keys s);
  pushed_nodup : NoDup (k :: a'.*1);
  pushed_len : (S (length a') <= cap)%nat
}.

Lemma pushed_link cap k v ts a' s :
  pushed cap k v a' s ->
  repr cap ((k, (v, ts)) :: a')
    {| entries := entries s;
       key_to_tags := <[k := ts]> (key_to_tags s);
       tag_to_keys := foldr (link_tag k) (tag_to_keys s) (elements ts) |}.
Proof.
  intros [He Hc Ht Hi Hd Hl]. split; simpl; try done.
  - intros k'. case_decide; subst; [by rewrite lookup_insert_eq|].
    by rewrite lookup_insert_ne.
  - apply index_link; [done|]. rewrite Ht. apply NoDup_cons in Hd as [Hd _].
    apply assoc_get_None in Hd. by rewrite Hd.
Qed.

(** The LRU displaced its oldest entry; its tags go with it. *)
Lemma pushed_evict cap k v ev e a s :
  lru_entries (entries s) = (k, v) :: removelast (prod_map id fst <$> a) ->
  lru_cap (entries s) = cap ->
  (forall k', key_to_tags s !! k' = snd <$> assoc_get k' a) ->
  index_ok (key_to_tags s) (tag_to_keys s) ->
  NoDup a.*1 -> k ∉ a.*1 -> (length a <= cap)%nat -> last a = Some (ev, e) ->
  ev <> k /\ pushed cap k v (removelast a) (clear_tags_for_key ev s).
Proof.
  intros He Hc Ht Hi Hd Hk Hl El.
  assert (Hin : (ev, e) ∈ a) by (apply last_Some in El as [a0 ->]; set_solver).
  assert (Hev : ev ∈ a.*1) by (apply list_elem_of_fmap; by exists (ev, e)).
  split; [naive_solver|]. destruct (clear_tags_spec ev s Hi) as (F1 & F2 & F3).
  apply elem_assoc_get in Hin; [|done]. apply assoc_del_length in Hin.
  rewrite (removelast_assoc_del ev e) by done. destruct (assoc_del_keys ev a Hd).
  split; rewrite ?F1; simpl; [ |done| |done| |lia].
  - rewrite He, (removelast_assoc_del ev e.1), assoc_del_fmap;
      rewrite ?keys_fmap, ?fmap_last, ?El; done.
  - intros k'. rewrite F2, assoc_get_del by done.
    case_decide; subst; [by rewrite lookup_delete_eq|by rewrite lookup_delete_ne].
  - constructor; [|done]. rewrite assoc_del_filter by done.
    intros (x & -> & Hx)%list_elem_of_fmap. apply Hk, list_elem_of_fmap. exists x.
    by apply list_elem_of_filter in Hx as [_ ?].
Qed.

Lemma repr_set cap k v tags a s :
  repr cap a s -> (0 < cap)%nat ->
  repr cap (spec_op cap (OpSet k v tags) a).2 (mem_set k v tags s).2.
Proof.
  intros [He Hc Ht Hi Hd Hl] Hpos. cbn [spec_op snd]. rewrite take_push by done.
  unfold mem_set. destruct (clear_tags_spec k s Hi) as (E1 & E2 & E3).
  set (s1 := clear_tags_for_key k s) in *.
  pose proof (lru_push_entries k v (entries s1)) as Pe.
  pose proof (lru_push_displaced k v (entries s1)) as Pd.
  pose proof (lru_cap_push k v (entries s1)) as Pc.
  destruct (lru_push k v (entries s1)) as [displaced lru]. simpl in Pe, Pd, Pc.
  rewrite E1, He, Hc, assoc_get_fmap, length_fmap in Pe, Pd. rewrite E1, Hc in Pc.
  set (s2 := {| entries := lru |}).
  assert (Hk2 : forall k', key_to_tags s2 !! k' = snd <$> assoc_get k' (assoc_del k a)).
  { intros k'. simpl. rewrite E2, assoc_get_del by done.
    case_decide; subst; [by rewrite lookup_delete_eq|by rewrite lookup_delete_ne]. }
  destruct (assoc_del_keys k a Hd) as [Hd1 Hd2].
  destruct (assoc_get k a) as [[v0 ts]|] eqn:Ek; simpl in Pe, Pd.
  - subst displaced. rewrite decide_True by done. apply (pushed_link cap k v).
    apply assoc_del_length in Ek.
    split; simpl; [by rewrite Pe, assoc_del_fmap|done|done|done|by constructor|lia].
  - apply assoc_get_None in Ek as Hna. rewrite assoc_del_absent in Hk2, Hd1, Hd2 by done.
    destruct (Nat.ltb_spec (length a) cap); subst displaced.
    + apply (pushed_link cap k v). split; simpl; [done|done|done|done|by constructor|lia].
    + rewrite fmap_last. destruct (last a) as [[ev e]|] eqn:El; simpl;
        [|apply last_None in El; subst; simpl in *; lia].
      destruct (pushed_evict cap k v ev e a s2) as [Hne Hp]; try done.
      rewrite decide_False by done. by apply (pushed_link cap k v).
Qed.

Definition is_candidate (c : option (gset string)) (k : string) : Prop :=
  match c with Some ks => k ∈ ks | None => True end.

Lemma gather_spec cap tags a s :
  repr cap a s ->
  forall c, c <> None \/ tags <> [] ->
  forall e, e ∈ a ->
  e.1 ∈ default ∅ (gather_candidates s tags c) <-> is_candidate c e.1 /\ tagged_with tags e.
Proof.
  intros Hr. unfold tagged_with. induction tags as [|t tags IH]; intros c Hc e He.
  - destruct c as [ks|]; simpl; [set_solver|naive_solver].
  - cbn [gather_candidates]. pose proof (repr_tagged _ t _ _ Hr e He) as Ht.
    destruct (tag_to_keys s !! t) as [keys|]; simpl in Ht; [|set_solver].
    set (c' := match c with Some ks => ks ∩ keys | None => keys end).
    assert (Hc' : e.1 ∈ c' <-> is_candidate c e.1 /\ t ∈ e.2.2)
      by (unfold c'; destruct c; simpl; set_solver).
    case_decide as Hz; [simpl; set_solver|].
    rewrite IH by (done || (left; done)). simpl. set_solver.
Qed.

Definition peek_entry s (key : string) : option (string * string) :=
  v ← lru_peek key (entries s); Some (key, v).

Lemma peek_entries_keys s (ks : list string) :
  (omap (peek_entry s) ks).*1 `sublist_of` ks.
Proof.
  induction ks as [|k ks IH]; simpl; [done|]. unfold peek_entry at 1.
  destruct (lru_peek k (entries s)); simpl; by constructor.
Qed.

Lemma repr_get_by_tags cap tags a s :
  repr cap a s ->
  exists l, mem_get_by_tags tags s = (Ok l, s) /\
            out_equiv (OutEntries l) (spec_op cap (OpGetByTags tags) a).1.
Proof.
  intros Hr. destruct tags as [|t tags]; 
    [exists []; split; [done|]; constructor|].
  set (T := t :: tags). cbn [mem_get_by_tags T].
  assert (Hne : (None : option (gset string)) <> None \/ T <> []) by by right.
  pose proof (gather_spec cap T a s Hr None Hne) as Hg.
  exists (omap (peek_entry s) (elements (default ∅ (gather_candidates s T None)))). split.
  { fold T. by destruct (gather_candidates s T None). }
  change (omap (peek_entry s) (elements (default ∅ (gather_candidates s T None)))
          ≡ₚ prod_map id fst <$> filter (tagged_with T) a).
  pose proof (repr_nodup _ _ _ Hr) as Hd. apply NoDup_Permutation.
  - eapply (NoDup_fmap_1 fst), sublist_NoDup; [|apply peek_entries_keys]. apply NoDup_elements.
  - eapply (NoDup_fmap_1 fst). rewrite keys_fmap. eapply sublist_NoDup; [done|].
    apply fmap_sublist, sublist_filter.
  - intros [k v]. rewrite list_elem_of_omap, list_elem_of_fmap. unfold peek_entry. split.
    + intros (k' & Hk & Hp). rewrite lru_peek_value, (repr_entries _ _ _ Hr), assoc_get_fmap in Hp.
      destruct (assoc_get k' a) as [[w ts]|] eqn:E; simplify_eq/=. apply assoc_get_elem in E.
      exists (k, (v, ts)). split; [done|]. apply list_elem_of_filter. split; [|done].
      rewrite elem_of_elements in Hk. by apply (proj1 (Hg (k, (v, ts)) E) Hk).
    + intros ([k' [w ts]] & Heq & Hin). simplify_eq/=. apply list_elem_of_filter in Hin as [Ht Hin].
      exists k'. rewrite elem_of_elements. split; [by apply (Hg _ Hin)|].
      rewrite lru_peek_value, (repr_entries _ _ _ Hr), assoc_get_fmap.
      by rewrite (elem_assoc_get k' (w, ts) a Hd Hin).
Qed.

Lemma run_op_repr cap op a s :
  repr cap a s -> (0 < cap)%nat ->
  exists o s', run_op op s = (Ok o, s') /\ out_equiv o (spec_op cap op a).1 /\
               repr cap (spec_op cap op a).2 s'.
Proof.
  intros Hr Hp. destruct op as [k v tags|k|k|t| |tags].
  - pose proof (repr_set cap k v tags a s Hr Hp) as Hs.
    exists OutUnit, (mem_set k v tags s).2. split; [|by split].
    unfold run_op, repo_set; simpl. unfold mbind_, mret.
    unfold mem_set. by destruct (lru_push _ _ _).
  - destruct (repr_get cap k a s Hr) as (s' & E & Hs).
    exists (OutValue (fst <$> assoc_get k a)), s'. split; [|by split].
    unfold run_op, repo_get; simpl. by rewrite (mbind_ok _ _ _ _ _ E).
  - exists OutUnit, (drop_key k s). split; [done|]. split; [done|]. by apply repr_drop_key.
  - exists OutUnit, (mem_remove_by_tag t s).2. split; [done|]. split; [done|].
    by apply repr_remove_by_tag.
  - exists OutUnit, (mem_clear s).2. split; [done|]. split; [done|]. destruct Hr.
    split; simpl; [by rewrite lru_clear_entries|by rewrite lru_cap_clear|done| |constructor|lia].
    apply index_ok_empty.
  - destruct (repr_get_by_tags cap tags a s Hr) as (l & E & Ho).
    exists (OutEntries l), s. split; [|split; [done|by destruct tags]].
    unfold run_op, repo_get_by_tags; simpl. by rewrite (mbind_ok _ _ _ _ _ E).
Qed.

Lemma run_ops_repr cap ops a s :
  repr cap a s -> (0 < cap)%nat ->
  exists outs s', run_ops ops s = (Ok <$> outs, s') /\
                  Forall2 out_equiv outs (spec_ops cap ops a).1 /\
                  repr cap (spec_ops cap ops a).2 s'.
Proof.
  intros Hr Hp. revert a s Hr. induction ops as [|op ops IH]; intros a s Hr.
  { exists [], s. by split_and!. }
  cbn [run_ops spec_ops]. destruct (run_op_repr cap op a s Hr Hp) as (o & s1 & E1 & Ho & Hr1).
  rewrite E1. destruct (spec_op cap op a) as [oa a1]. simpl in Ho, Hr1.
  destruct (IH a1 s1 Hr1) as (os & s2 & E2 & Hos & Hr2). rewrite E2.
  destruct (spec_ops cap ops a1) as [osa a2]. exists (o :: os), s2.
  split_and!; [done|by constructor|done].
Qed.

Lemma repr_with_capacity n : repr (Nat.max 1 n) [] (with_capacity n : InMemoryState L).
Proof.
  split; simpl; [|destruct n; by rewrite lru_new_cap|done|apply index_ok_empty|constructor|lia].
  by destruct n; rewrite lru_new_entries.
Qed.

Lemma repr_tag_index_len cap a s :
  repr cap a s -> tag_index_len s = length a /\ cache_len s = length a.
Proof.
  intros Hr. unfold tag_index_len, cache_len.
  rewrite lru_len_entries, (repr_entries _ _ _ Hr), length_fmap. split; [|done].
  replace (key_to_tags s) with (list_to_map (prod_map id snd <$> a) : gmap string (gset string)).
  - rewrite map_size_list_to_map; [by rewrite length_fmap|].
    rewrite keys_fmap. apply Hr.
  - apply map_eq. intros k. rewrite (repr_tags _ _ _ Hr), <- assoc_get_fmap.
    induction (prod_map id snd <$> a) as [|[k' v'] l IH]; [done|]. simpl.
    case_decide; subst; [by rewrite lookup_insert_eq|by rewrite lookup_insert_ne].
Qed.

(** C36: on every sequence of operations from an empty repository of any
    capacity, the in-memory cache answers exactly as the recency list does (a
    tag sweep up to its unspecified order): [set] puts the entry in front and
    drops the least recently used beyond the capacity (at least one), [get]
    moves the entry to the front, [remove] and [remove_by_tag] drop exactly the
    named entries, [get_by_tags] lists exactly the entries carrying all the
    tags; no operation fails. *)
Theorem in_memory_refines_recency (capacity : nat) (ops : list cache_op) :
  let spec := spec_ops (Nat.max 1 capacity) ops [] in
  exists outs s',
    run_ops ops (with_capacity capacity : InMemoryState L) = (Ok <$> outs, s') /\
    Forall2 out_equiv outs spec.1 /\
    lru_entries (entries s') = prod_map id fst <$> spec.2.
Proof.
  destruct (run_ops_repr (Nat.max 1 capacity) ops [] _ (repr_with_capacity capacity))
    as (outs & s' & E & Ho & Hr); [lia|].
  exists outs, s'. split_and!; [done..|]. apply Hr.
Qed.

(** The bound and the tag indexes hold after every sequence of operations:
    never more than the capacity's entries (at least one), the tag index knows
    exactly the held keys, a tag only ever names held keys, and no tag is left
    with an empty key set. *)
Theorem in_memory_tag_index_sound (capacity : nat) (ops : list cache_op) :
  let s := (run_ops ops (with_capacity capacity : InMemoryState L)).2 in
  (cache_len s <= Nat.max 1 capacity)%nat /\
  tag_index_len s = cache_len s /\
  (forall tag key, key ∈ default ∅ (tag_to_keys s !! tag) ->
                   is_Some (lru_peek key (entries s)) /\
                   exists tags, key_to_tags s !! key = Some tags /\ tag ∈ tags) /\
  (forall tag, tag_to_keys s !! tag <> Some ∅).
Proof.
  destruct (run_ops_repr (Nat.max 1 capacity) ops [] _ (repr_with_capacity capacity))
    as (outs & s' & E & _ & Hr); [lia|]. rewrite E. simpl.
  destruct (repr_tag_index_len _ _ _ Hr) as [-> ->].
  split_and!; [apply Hr|done| |apply Hr].
  intros tag key Hk. apply (repr_index _ _ _ Hr) in Hk as (ts & Hk & Ht).
  split; [|by exists ts].
  rewrite (repr_tags _ _ _ Hr) in Hk. rewrite lru_peek_value, (repr_entries _ _ _ Hr), assoc_get_fmap.
  by destruct (assoc_get key _).
Qed.
End Refinement.

(** ** A concrete LRU map *)

Record list_lru := { ll_entries : list (string * string); ll_cap : nat }.

Definition ll_push (k v : string) (c : list_lru) : option (string * string) * list_lru :=
  let es := ll_entries c in
  match assoc_get k es with
  | Some old => (Some (k, old), {| ll_entries := (k, v) :: assoc_del k es; ll_cap := ll_cap c |})
  | None =>
      if (length es <? ll_cap c)%nat
      then (None, {| ll_entries := (k, v) :: es; ll_cap := ll_cap c |})
      else (last es, {| ll_entries := (k, v) :: removelast es; ll_cap := ll_cap c |})
  end.

Definition ll_get (k : string) (c : list_lru) : option string * list_lru :=
  match assoc_get k (ll_entries c) with
  | Some v => (Some v, {| ll_entries := (k, v) :: assoc_del k (ll_entries c); ll_cap := ll_cap c |})
  | None => (None, c)
  end.

#[export] Instance list_lru_cache : LruCache list_lru := {
  lru_new n := {| ll_entries := []; ll_cap := n |};
  lru_push := ll_push;
  lru_get := ll_get;
  lru_peek k c := assoc_get k (ll_entries c);
  lru_pop k c := (assoc_get k (ll_entries c),
                  {| ll_entries := assoc_del k (ll_entries c); ll_cap := ll_cap c |});
  lru_len c := length (ll_entries c);
  lru_clear c := {| ll_entries := []; ll_cap := ll_cap c |};
  lru_entries := ll_entries;
  lru_cap := ll_cap
}.

#[export] Instance list_lru_laws : LruLaws list_lru.
Proof.
  split; simpl; try done; intros; unfold ll_push, ll_get;
    destruct (assoc_get k _) as [?|]; try done; by destruct (_ <? _)%nat.
Qed.

Definition demo_ops : list cache_op :=
  [OpSet "a" "1" ["x"; "y"]; OpSet "b" "2" ["x"]; OpGet "a"; OpSet "c" "3" ["y"];
   OpGetByTags ["x"]; OpRemoveByTag "y"; OpGet "a"].

Lemma in_memory_refines_recency_witness :
  let spec := spec_ops 2 demo_ops [] in
  (exists outs s',
    run_ops demo_ops (with_capacity 2 : InMemoryState list_lru) = (Ok <$> outs, s') /\
    Forall2 out_equiv outs spec.1 /\
    lru_entries (entries s') = prod_map id fst <$> spec.2) /\
  spec.1 = [OutUnit; OutUnit; OutValue (Some "1"); OutUnit; OutEntries [("a", "1")];
            OutUnit; OutValue None]%string.
Proof.
  split; [exact (in_memory_refines_recency (L := list_lru) 2 demo_ops)|vm_compute; reflexivity].
Defined.

Lemma in_memory_tag_index_sound_witness :
  let s := (run_ops demo_ops (with_capacity 2 : InMemoryState list_lru)).2 in
  (cache_len s <= 2)%nat /\ tag_index_len s = cache_len s.
Proof.
  destruct (in_memory_tag_index_sound (L := list_lru) 2 demo_ops) as (H1 & H2 & _).
  split; [exact H1|exact H2].
Defined.

(** ** The encrypting wrapper *)

(** What the primitives document: HKDF expands to any length up to 255 hash
    blocks, GCM opens what it sealed under the same key and nonce and adds a
    tag, base64 decodes what it encoded, and the generator does not fail. *)
Class AeadLaws (R : Type) `{AeadPrimitives R} : Prop := {
  hkdf_expand_ok salt ikm info n :
    (n <= 255 * 32)%nat -> exists okm, hkdf_expand salt ikm info n = Ok okm;
  gcm_opens key nonce p :
    exists c, gcm_encrypt key nonce p = Some c /\ gcm_decrypt key nonce c = Some p /\
              String.length c = (String.length p + TAG_LEN)%nat;
  b64_roundtrip s : b64_decode (b64_encode s) = Ok s;
  fill_salt_ok n r : exists salt r', fill_salt n r = (Ok salt, r') /\ String.length salt = n
}.

Lemma str_take_app a b : str_take (String.length a) (a +:+ b) = a.
Proof. apply substring_0_app. Qed.

Lemma str_drop_app a b : str_drop (String.length a) (a +:+ b) = b.
Proof.
  unfold str_drop. rewrite str_length_app, substring_app_drop.
  replace (_ - _)%nat with (String.length b) by lia. apply substring_whole.
Qed.

Section EncryptedFacts.
Context {L R : Type} `{LruLaws L} `{AeadLaws R}.
Variable encryption_key : string.

(** A stored value that opens to [v] under the entry's own key. *)
Definition opens_to (key : string) (stored v : string) : Prop :=
  enc_decrypt encryption_key key stored = Ok (Some v).

Lemma enc_encrypt_opens {S} key v (s : S) r :
  from_utf8 v = Ok v ->
  exists stored r', enc_encrypt encryption_key key v (s, r) = (Ok stored, (s, r')) /\
                    opens_to key stored v.
Proof.
  intros Hv. unfold enc_encrypt. destruct (fill_salt_ok SALT_LEN r) as (salt & r' & -> & Hs).
  simpl. unfold enc_derive.
  destruct (hkdf_expand_ok salt encryption_key (ENCRYPTION_CONTEXT +:+ key) (KEY_LEN + NONCE_LEN))
    as [okm Ho]; [unfold KEY_LEN, NONCE_LEN; lia|]. rewrite Ho. simpl.
  destruct (gcm_opens (str_take KEY_LEN okm) (str_drop KEY_LEN okm) v) as (c & -> & Hd & Hl).
  exists (b64_encode (salt +:+ c)), r'. split; [done|].
  unfold opens_to, enc_decrypt. rewrite b64_roundtrip. cbn [map_err result_bind].
  rewrite str_length_app, Hs, Hl.
  destruct (Nat.ltb_spec (SALT_LEN + (String.length v + TAG_LEN)) (SALT_LEN + TAG_LEN)); [lia|].
  rewrite <- Hs, str_take_app, str_drop_app. unfold enc_derive. rewrite Ho. simpl.
  by rewrite Hd, Hv.
Qed.

(** Encrypted recency list [a] against its plaintext [p]. *)
Definition sealed (e p : string * (string * gset string)) : Prop :=
  e.1 = p.1 /\ e.2.2 = p.2.2 /\ opens_to e.1 e.2.1 p.2.1.

Lemma sealed_keys a p : Forall2 sealed a p -> a.*1 = p.*1.
Proof. induction 1 as [|e q a p (E & _) _ IH]; [done|]. rewrite !fmap_cons. by rewrite E, IH. Qed.

Lemma sealed_get k a p :
  Forall2 sealed a p ->
  match assoc_get k a, assoc_get k p with
  | Some e, Some q => sealed (k, e) (k, q)
  | None, None => True
  | _, _ => False
  end.
Proof.
  induction 1 as [|[k1 e] [k2 q] a p (E & T & O) _ IH]; [done|]. simpl in *. subst.
  by case_decide; subst.
Qed.

Lemma sealed_del k a p : Forall2 sealed a p -> Forall2 sealed (assoc_del k a) (assoc_del k p).
Proof.
  induction 1 as [|[k1 e] [k2 q] a p (E & T & O) Hp IH]; [done|]. simpl in *. subst.
  case_decide; [done|]. by constructor.
Qed.

Lemma sealed_filter (P : string * (string * gset string) -> Prop) `{!forall e, Decision (P e)} a p :
  (forall e q, sealed e q -> P e <-> P q) ->
  Forall2 sealed a p -> Forall2 sealed (filter P a) (filter P p).
Proof.
  intros Hpq. induction 1 as [|e q a p Hs _ IH]; [done|].
  rewrite !filter_cons. specialize (Hpq _ _ Hs). repeat case_decide; try tauto. by constructor.
Qed.

(** Opening a sweep of sealed entries, in whatever order they come. *)
Lemma open_all_sealed a p :
  Forall2 sealed a p ->
  open_all encryption_key (prod_map id fst <$> a) = Ok (Some (prod_map id fst <$> p)).
Proof.
  induction 1 as [|[k1 [e t]] [k2 [q u]] a p (E & T & O) _ IH]; [done|]. simpl in E, T, O. subst.
  rewrite !fmap_cons. cbn [open_all prod_map id fst snd] in *. unfold opens_to in O.
  rewrite O. cbn [result_bind]. by rewrite IH.
Qed.

Lemma open_all_perm l1 l2 o :
  l1 ≡ₚ l2 -> open_all encryption_key l1 = Ok (Some o) ->
  exists o', open_all encryption_key l2 = Ok (Some o') /\ o ≡ₚ o'.
Proof.
  intros Hp. revert o. induction Hp as [|[k e] l1 l2 _ IH|[k e] [k' e'] l|l1 l2 l3 _ IH1 _ IH2];
    simpl; intros o Ho.
  - by exists o.
  - destruct (enc_decrypt encryption_key k e) as [[v|]|]; simplify_eq/=.
    destruct (open_all encryption_key l1) as [[r|]|]; simplify_eq/=.
    destruct (IH r eq_refl) as (o' & -> & Hp'). simpl. eexists. split; [done|]. by constructor.
  - repeat match goal with
           | H : context [enc_decrypt encryption_key ?k ?e] |- _ =>
               destruct (enc_decrypt encryption_key k e) as [[?|]|]; simplify_eq/=
           end.
    destruct (open_all encryption_key l) as [[r|]|]; simplify_eq/=. eexists. split; [done|].
    constructor.
  - destruct (IH1 o Ho) as (o1 & E1 & P1). destruct (IH2 o1 E1) as (o2 & E2 & P2).
    exists o2. split; [done|]. by trans o1.
Qed.

Definition value_ok (op : cache_op) : Prop :=
  match op with OpSet _ v _ => from_utf8 v = Ok v | _ => True end.

Abbreviation enc_op := (@run_op _ (EncryptedCacheRepository (S := InMemoryState L) (R := R) encryption_key)).
Abbreviation enc_ops := (@run_ops _ (EncryptedCacheRepository (S := InMemoryState L) (R := R) encryption_key)).

Definition enc_repr (cap : nat) (p : recency) (sr : InMemoryState L * R) : Prop :=
  exists a, repr cap a sr.1 /\ Forall2 sealed a p.

Lemma enc_set_step cap p sr k v tags :
  enc_repr cap p sr -> (0 < cap)%nat -> from_utf8 v = Ok v ->
  exists sr', enc_set encryption_key k v tags sr = (Ok tt, sr') /\
              enc_repr cap (spec_op cap (OpSet k v tags) p).2 sr'.
Proof.
  destruct sr as [s r]. intros (a & Hr & Hp) Hc Hv.
  destruct (enc_encrypt_opens k v s r Hv) as (stored & r' & E & Ho).
  unfold enc_set. rewrite (mbind_ok _ _ _ _ _ E). unfold on_inner. simpl.
  pose proof (repr_set cap k stored tags a s Hr Hc) as Hs.
  destruct (mem_set k stored tags s) as [out s'] eqn:Em.
  assert (out = Ok tt) as -> by (unfold mem_set in Em; destruct (lru_push _ _ _); by simplify_eq).
  exists (s', r'). split; [done|]. eexists. split; [exact Hs|].
  cbn [spec_op snd]. apply Forall2_take. constructor; [done|]. by apply sealed_del.
Qed.

Lemma enc_get_step cap p sr k :
  enc_repr cap p sr ->
  exists sr', enc_get encryption_key k sr = (Ok (fst <$> assoc_get k p), sr') /\
              enc_repr cap (spec_op cap (OpGet k) p).2 sr'.
Proof.
  destruct sr as [s r]. intros (a & Hr & Hp).
  destruct (repr_get cap k a s Hr) as (s' & E & Hs). exists (s', r).
  unfold enc_get, on_inner, mbind_ at 1. simpl in E |- *. rewrite E.
  pose proof (sealed_get k a p Hp) as Hg. pose proof (sealed_del k a p Hp) as Hd. simpl in Hs |- *.
  destruct (assoc_get k a) as [e|], (assoc_get k p) as [q|]; simpl in *; try done.
  - split; [|exists ((k, e) :: assoc_del k a); split; [done|by constructor]].
    destruct Hg as (_ & _ & Ho). unfold opens_to in Ho. simpl in Ho.
    unfold mlift, mbind_. by rewrite Ho.
  - split; [done|]. by exists a.
Qed.

Lemma enc_get_by_tags_step cap p sr tags :
  enc_repr cap p sr ->
  exists l, enc_get_by_tags encryption_key tags sr = (Ok l, sr) /\
            out_equiv (OutEntries l) (spec_op cap (OpGetByTags tags) p).1.
Proof.
  destruct sr as [s r]. intros (a & Hr & Hp).
  destruct (repr_get_by_tags cap tags a s Hr) as (l & E & Ho).
  assert (Hall : exists o, open_all encryption_key l = Ok (Some o) /\
                 out_equiv (OutEntries o) (spec_op cap (OpGetByTags tags) p).1).
  { destruct tags as [|t tags].
    - simpl in Ho. apply Permutation_nil_r in Ho. subst. exists []. split; [done|constructor].
    - assert (Hf : Forall2 sealed (filter (tagged_with (t :: tags)) a)
                                  (filter (tagged_with (t :: tags)) p)).
      { apply sealed_filter; [|done]. intros e q (_ & Et & _). unfold tagged_with. by rewrite Et. }
      apply open_all_sealed in Hf.
      destruct (open_all_perm _ l _ (Permutation_sym Ho) Hf) as (o & Eo & Po).
      exists o. split; [done|]. by apply Permutation_sym. }
  destruct Hall as (o & Eo & Hq). exists o. split; [|done].
  unfold enc_get_by_tags, on_inner, mlift, mbind_. simpl in E |- *. rewrite E, Eo. done.
Qed.

Lemma enc_op_step cap p sr op :
  enc_repr cap p sr -> (0 < cap)%nat -> value_ok op ->
  exists o sr', enc_op op sr = (Ok o, sr') /\ out_equiv o (spec_op cap op p).1 /\
                enc_repr cap (spec_op cap op p).2 sr'.
Proof.
  intros Hr Hc Hv. destruct op as [k v tags|k|k|t| |tags]; simpl in Hv.
  - destruct (enc_set_step cap p sr k v tags Hr Hc Hv) as (sr' & E & Hr').
    exists OutUnit, sr'. split; [|by split]. simpl. by rewrite (mbind_ok _ _ _ _ _ E).
  - destruct (enc_get_step cap p sr k Hr) as (sr' & E & Hr').
    eexists _, sr'. split; [simpl; by rewrite (mbind_ok _ _ _ _ _ E)|by split].
  - destruct sr as [s r], Hr as (a & Hr & Hp). exists OutUnit, (drop_key k s, r).
    split_and!; [done..|]. exists (assoc_del k a). split; [by apply repr_drop_key|].
    by apply sealed_del.
  - destruct sr as [s r], Hr as (a & Hr & Hp). exists OutUnit, ((mem_remove_by_tag t s).2, r).
    split_and!; [done..|]. eexists. split; [by apply repr_remove_by_tag|].
    apply sealed_filter; [|done]. intros e q (_ & Et & _). by rewrite Et.
  - destruct sr as [s r], Hr as (a & Hr & Hp).
    destruct (run_op_repr cap OpClear a s Hr Hc) as (o & s' & E & _ & Hr').
    exists OutUnit, ((mem_clear s).2, r). split_and!; [done..|]. exists []. split; [|done].
    by injection E as _ <-.
  - destruct (enc_get_by_tags_step cap p sr tags Hr) as (l & E & Ho).
    exists (OutEntries l), sr. split; [simpl; by rewrite (mbind_ok _ _ _ _ _ E)|].
    split; [done|by destruct tags].
Qed.

Lemma enc_ops_repr cap ops p sr :
  enc_repr cap p sr -> (0 < cap)%nat -> Forall value_ok ops ->
  exists outs sr', enc_ops ops sr = (Ok <$> outs, sr') /\
                   Forall2 out_equiv outs (spec_ops cap ops p).1 /\
                   enc_repr cap (spec_ops cap ops p).2 sr'.
Proof.
  intros Hr Hc Hv. revert p sr Hr. induction Hv as [|op ops Hv _ IH]; intros p sr Hr.
  { exists [], sr. by split_and!. }
  cbn [run_ops spec_ops]. destruct (enc_op_step cap p sr op Hr Hc Hv) as (o & s1 & E1 & Ho & Hr1).
  rewrite E1. destruct (spec_op cap op p) as [oa p1]. simpl in Ho, Hr1.
  destruct (IH p1 s1 Hr1) as (os & s2 & E2 & Hos & Hr2). rewrite E2.
  destruct (spec_ops cap ops p1) as [osa p2]. exists (o :: os), s2.
  split_and!; [done|by constructor|done].
Qed.

(** C37: the encrypting wrapper is transparent: over an in-memory repository,
    every sequence of operations (on valid UTF-8 values) succeeds and answers
    exactly as the plaintext recency list does, although the repository only
    ever holds sealed values; each held value opens to the plaintext under
    its own entry key. *)
Theorem encrypted_cache_transparent (capacity : nat) (ops : list cache_op) (r : R) :
  Forall value_ok ops ->
  let spec := spec_ops (Nat.max 1 capacity) ops [] in
  exists outs s' r',
    enc_ops ops (with_capacity capacity, r) = (Ok <$> outs, (s', r')) /\
    Forall2 out_equiv outs spec.1 /\
    Forall2 (fun held e => held.1 = e.1 /\ opens_to held.1 held.2 e.2.1)
            (lru_entries (entries s')) spec.2.
Proof.
  intros Hv. destruct (enc_ops_repr (Nat.max 1 capacity) ops [] (with_capacity capacity, r))
    as (outs & [s' r'] & E & Ho & a & Hr & Hp); [|lia|done|].
  { exists []. split; [apply repr_with_capacity|done]. }
  exists outs, s', r'. split_and!; [done..|]. simpl in Hr. rewrite (repr_entries _ _ _ Hr).
  clear -Hp. induction Hp as [|[k e] q a p (E & _ & O) _ IH]; [done|].
  rewrite fmap_cons. by constructor.
Qed.

(** Tampering is a miss, never a wrong answer: when an entry the
    wrapper reads fails authentication, [get] answers [None] and a tag sweep
    answers nothing, and in both cases the inner cache has been cleared. *)
Theorem tampered_entry_clears (cap : nat) (a : recency) (s : InMemoryState L) (r : R)
    (key stored tag : string) (tags : gset string) :
  repr cap a s -> assoc_get key a = Some (stored, tags) -> tag ∈ tags ->
  enc_decrypt encryption_key key stored = Ok None ->
  (exists s', enc_get encryption_key key (s, r) = (Ok None, (s', r)) /\
              lru_entries (entries s') = [] /\ tag_index_len s' = 0%nat) /\
  ((forall k e, (k, e) ∈ a -> is_ok (enc_decrypt encryption_key k e.1)) ->
   exists s', enc_get_by_tags encryption_key [tag] (s, r) = (Ok [], (s', r)) /\
              lru_entries (entries s') = [] /\ tag_index_len s' = 0%nat).
Proof.
  intros Hr Hg Ht Hd. split.
  - destruct (repr_get cap key a s Hr) as (s' & E & Hs). exists (mem_clear s').2.
    unfold enc_get, on_inner, mlift, mbind_. simpl in E |- *. rewrite E, Hg. simpl. rewrite Hd.
    split_and!; [done|apply lru_clear_entries|done].
  - intros Hok. destruct (repr_get_by_tags cap [tag] a s Hr) as (l & E & Ho).
    exists (mem_clear s).2. unfold enc_get_by_tags, on_inner, mlift, mbind_. simpl in E |- *.
    rewrite E. assert (Hn : open_all encryption_key l = Ok None); [|by rewrite Hn; simpl;
      split_and!; [done|apply lru_clear_entries|done]].
    assert (Hin : (key, stored) ∈ l).
    { cbn in Ho. rewrite Ho. apply list_elem_of_fmap. exists (key, (stored, tags)).
      split; [done|]. apply list_elem_of_filter. split; [|by apply assoc_get_elem].
      unfold tagged_with. set_solver. }
    assert (Hl : forall k e, (k, e) ∈ l -> is_ok (enc_decrypt encryption_key k e)).
    { intros k e Hke. cbn in Ho. rewrite Ho in Hke.
      apply list_elem_of_fmap in Hke as ([k' e'] & ? & Hke). simplify_eq/=.
      apply list_elem_of_filter in Hke as [_ Hke]. by apply Hok. }
    clear -Hd Hin Hl. induction l as [|[k e] l IH]; [inversion Hin|]. simpl.
    destruct (enc_decrypt encryption_key k e) as [[v|]|] eqn:Ee.
    + simpl. apply elem_of_cons in Hin as [|Hin]; [congruence|].
      rewrite IH; [done|done|]. intros. apply Hl. by right.
    + done.
    + specialize (Hl k e ltac:(left)). by rewrite Ee in Hl.
Qed.
End EncryptedFacts.

(** ** Concrete primitives for the witnesses *)

Fixpoint repeat_char (n : nat) (c : ascii) : string :=
  match n with O => EmptyString | S n => String c (repeat_char n c) end.

Definition toy_tag : string := "0123456789abcdef".

Definition toy_open (key nonce sealed : string) : option string :=
  let n := (String.length sealed - TAG_LEN)%nat in
  if String.eqb (str_drop n sealed) toy_tag then Some (str_take n sealed) else None.

#[export] Instance toy_aead : AeadPrimitives unit := {
  hkdf_expand salt ikm info n := Ok (repeat_char n "k");
  gcm_encrypt key nonce p := Some (p +:+ toy_tag);
  gcm_decrypt := toy_open;
  b64_encode s := s;
  b64_decode s := Ok s;
  from_utf8 s := Ok s;
  fill_salt n r := (Ok (repeat_char n "s"), r)
}.

#[export] Instance toy_aead_laws : AeadLaws unit.
Proof.
  split; simpl.
  - intros. by eexists.
  - intros key nonce p. exists (p +:+ toy_tag). split_and!; [done| |by rewrite str_length_app].
    unfold toy_open. rewrite str_length_app.
    assert (E : (String.length p + String.length toy_tag - TAG_LEN)%nat = String.length p)
      by (change (String.length toy_tag) with TAG_LEN; lia).
    cbv zeta. rewrite E. by rewrite str_drop_app, str_take_app.
  - done.
  - intros n r. exists (repeat_char n "s"), r. split; [done|]. induction n; simpl; congruence.
Qed.

Lemma encrypted_cache_transparent_witness :
  exists outs s' r',
    @run_ops _ (EncryptedCacheRepository (S := InMemoryState list_lru) (R := unit) "key")
             demo_ops (with_capacity 2, tt) = (Ok <$> outs, (s', r')) /\
    Forall2 out_equiv outs (spec_ops 2 demo_ops []).1.
Proof.
  destruct (encrypted_cache_transparent (L := list_lru) (R := unit) "key" 2 demo_ops tt)
    as (outs & s' & r' & E & Ho & _); [repeat constructor|].
  exists outs, s', r'. split; [exact E|exact Ho].
Defined.

Definition tampered_state : InMemoryState list_lru :=
  (mem_set "a" "sssssssssssssssstruncated-and-forged" ["x"] (with_capacity 2)).2.

Lemma tampered_entry_clears_witness :
  exists s', enc_get (R := unit) "key" "a" (tampered_state, tt) = (Ok None, (s', tt)) /\
             lru_entries (entries s') = [] /\ tag_index_len s' = 0%nat.
Proof.
  destruct (tampered_entry_clears (L := list_lru) (R := unit) "key" 2
              [("a", ("sssssssssssssssstruncated-and-forged", {["x"]}))]%string
              tampered_state tt "a" "sssssssssssssssstruncated-and-forged" "x" {["x"]})
    as [H _].
  - pose proof (repr_set (L := list_lru) 2 "a" "sssssssssssssssstruncated-and-forged" ["x"]%string []
                  (with_capacity 2) (repr_with_capacity 2) ltac:(lia)) as Hr.
    exact Hr.
  - reflexivity.
  - set_solver.
  - vm_compute. reflexivity.
  - exact H.
Defined.
