(* ===== verification/SingleFlight.v ===== *)
(** * Collapsing concurrent loads

    [crates/proton-drive-rs/src/single_flight.rs].  [SingleFlight::run] is
    three atomic sections separated by awaits: join-or-start under the map's
    lock, the wait for the shared load, and the removal of the slot under the
    lock again.  Calls interleave freely, so the component is a step function on
    events and its properties hold on every run. *)

From S2P Require Import Prelude Errors.

(** ** State *)

Inductive call_phase (V : Type) : Type :=
| Joined                                  (* holds a clone of the shared load *)
| Returned (out : result V ProtonError)
| Dropped.                                (* the caller went away *)
Arguments Joined {V}. Arguments Returned {V} out. Arguments Dropped {V}.

Record sf_call (K V : Type) := { ca_key : K; ca_load : nat; ca_phase : call_phase V }.
Arguments ca_key {K V}. Arguments ca_load {K V}. Arguments ca_phase {K V}.

Record sf_load (K V : Type) := { ld_key : K; ld_outcome : option (result V ProtonError) }.
Arguments ld_key {K V}. Arguments ld_outcome {K V}.

(** [inflight] maps a key to its load; every load and every call ever made are
    kept, numbered in order of appearance. *)
Record SingleFlight (K V : Type) `{Countable K} := {
  inflight : gmap K nat;
  sf_loads : list (sf_load K V);
  sf_calls : list (sf_call K V)
}.
Arguments inflight {K V _ _}. Arguments sf_loads {K V _ _}. Arguments sf_calls {K V _ _}.

(** A failure as every waiter receives it. *)
Definition rebuild_error (e : ProtonError) : ProtonError :=
  match e with
  | Api e => Api e
  | other => invalid_operation (ProtonError_display other)
  end.

Section SingleFlight.
Context {K V : Type} `{Countable K}.
Implicit Types (s : SingleFlight K V).

Definition SingleFlight_default : SingleFlight K V :=
  {| inflight := ∅; sf_loads := []; sf_calls := [] |}.

Inductive sf_event :=
| Arrive (key : K)                               (* the first locked section of [run] *)
| Finish (load : nat) (out : result V ProtonError) (* the shared future resolves *)
| Resume (call : nat)                            (* a waiter sees it, clears the slot, returns *)
| Cancel (call : nat).                           (* a waiter's future is dropped *)

Definition run_arrive (key : K) s : SingleFlight K V :=
  match inflight s !! key with
  | Some existing =>
      {| inflight := inflight s; sf_loads := sf_loads s;
         sf_calls := sf_calls s ++ [{| ca_key := key; ca_load := existing; ca_phase := Joined |}] |}
  | None =>
      let load := length (sf_loads s) in
      {| inflight := <[key := load]> (inflight s);
         sf_loads := sf_loads s ++ [{| ld_key := key; ld_outcome := None |}];
         sf_calls := sf_calls s ++ [{| ca_key := key; ca_load := load; ca_phase := Joined |}] |}
  end.

Definition is_waiting_on (load : nat) (c : sf_call K V) : bool :=
  bool_decide (ca_load c = load) && match ca_phase c with Joined => true | _ => false end.

(** A shared load only makes progress while some waiter polls it. *)
Definition run_finish (load : nat) (out : result V ProtonError) s : option (SingleFlight K V) :=
  match sf_loads s !! load with
  | Some {| ld_key := key; ld_outcome := None |} =>
      if existsb (is_waiting_on load) (sf_calls s)
      then Some {| inflight := inflight s;
                   sf_loads := <[load := {| ld_key := key; ld_outcome := Some out |}]> (sf_loads s);
                   sf_calls := sf_calls s |}
      else None
  | _ => None
  end.

Definition run_resume (call : nat) s : option (SingleFlight K V) :=
  match sf_calls s !! call with
  | Some {| ca_key := key; ca_load := load; ca_phase := Joined |} =>
      match sf_loads s !! load with
      | Some {| ld_outcome := Some outcome |} =>
          Some {| inflight := delete key (inflight s); sf_loads := sf_loads s;
                  sf_calls := <[call := {| ca_key := key; ca_load := load;
                                           ca_phase := Returned (map_err rebuild_error outcome) |}]>
                                (sf_calls s) |}
      | _ => None
      end
  | _ => None
  end.

Definition run_cancel (call : nat) s : option (SingleFlight K V) :=
  match sf_calls s !! call with
  | Some {| ca_key := key; ca_load := load; ca_phase := Joined |} =>
      Some {| inflight := inflight s; sf_loads := sf_loads s;
              sf_calls := <[call := {| ca_key := key; ca_load := load; ca_phase := Dropped |}]>
                            (sf_calls s) |}
  | _ => None
  end.

Definition sf_step (e : sf_event) s : option (SingleFlight K V) :=
  match e with
  | Arrive key => Some (run_arrive key s)
  | Finish load out => run_finish load out s
  | Resume call => run_resume call s
  | Cancel call => run_cancel call s
  end.

Fixpoint sf_run (es : list sf_event) s : option (SingleFlight K V) :=
  match es with
  | [] => Some s
  | e :: es => s ← sf_step e s; sf_run es s
  end.

(** ** Counting *)

Definition loads_of (key : K) s : nat :=
  length (filter (fun l => ld_key l = key) (sf_loads s)).

Definition has_returned (key : K) (c : sf_call K V) : Prop :=
  ca_key c = key /\ match ca_phase c with Returned _ => True | _ => False end.
#[global] Instance has_returned_dec key c : Decision (has_returned key c).
Proof. unfold has_returned. destruct (ca_phase c); apply _. Defined.

Definition returned_of (key : K) s : nat :=
  length (filter (has_returned key) (sf_calls s)).

(** ** The invariant of every run *)

(** The call's load exists, is for its key, and a returned call got its outcome. *)
Definition call_ok (loads : list (sf_load K V)) (c : sf_call K V) : Prop :=
  exists l, loads !! ca_load c = Some l /\ ld_key l = ca_key c /\
  match ca_phase c with
  | Returned out => exists o, ld_outcome l = Some o /\ out = map_err rebuild_error o
  | _ => True
  end.

Record sf_inv s : Prop := {
  inv_slot k l : inflight s !! k = Some l ->
                 exists ld, sf_loads s !! l = Some ld /\ ld_key ld = k;
  inv_calls : Forall (call_ok (sf_loads s)) (sf_calls s);
  (** a load somebody has returned from is in no slot *)
  inv_retired k l c out : inflight s !! k = Some l -> c ∈ sf_calls s ->
                          ca_phase c = Returned out -> ca_load c <> l;
  (** every load of a key after the first was made possible by a return *)
  inv_count k : (loads_of k s + match inflight s !! k with Some _ => 0 | None => 1 end
                 <= 1 + returned_of k s)%nat
}.

Lemma sf_inv_default : sf_inv SingleFlight_default.
Proof. split; simpl; [done|constructor|done|]. intros k. rewrite lookup_empty. done. Qed.

Lemma call_ok_app loads l c : call_ok loads c -> call_ok (loads ++ [l]) c.
Proof. intros (ld & Hl & Hr). exists ld. split; [by apply lookup_app_l_Some|done]. Qed.

Lemma loads_of_app k s loads l calls i :
  sf_loads s = loads ->
  loads_of k {| inflight := i; sf_loads := loads ++ [l]; sf_calls := calls |}
  = (loads_of k s + if decide (ld_key l = k) then 1 else 0)%nat.
Proof.
  intros <-. unfold loads_of. simpl. rewrite filter_app, length_app. f_equal.
  rewrite filter_cons. by case_decide.
Qed.

Lemma returned_of_app k (calls : list (sf_call K V)) c :
  ca_phase c = Joined ->
  length (filter (has_returned k) (calls ++ [c])) = length (filter (has_returned k) calls).
Proof.
  intros Hc. rewrite filter_app, length_app, filter_cons.
  rewrite decide_False; [simpl; lia|]. unfold has_returned. rewrite Hc. naive_solver.
Qed.

(** Updating one element changes a count by what the element contributes. *)
Lemma filter_insert_length {A} (P : A -> Prop) `{!forall x, Decision (P x)} (l : list A) i x y :
  l !! i = Some x ->
  (length (filter P (<[i := y]> l)) + (if decide (P x) then 1 else 0)
   = length (filter P l) + (if decide (P y) then 1 else 0))%nat.
Proof.
  revert i. induction l as [|z l IH]; intros [|i]; simpl; intros Hi; simplify_eq.
  - rewrite !filter_cons. repeat case_decide; simpl; lia.
  - specialize (IH i Hi). rewrite !filter_cons. destruct (decide (P z)); simpl in *; lia.
Qed.

Lemma filter_two_length {A} (P : A -> Prop) `{!forall x, Decision (P x)} (l : list A) i j x y :
  i <> j -> l !! i = Some x -> l !! j = Some y -> P x -> P y -> (2 <= length (filter P l))%nat.
Proof.
  assert (Hone : forall (l : list A) j y, l !! j = Some y -> P y -> (1 <= length (filter P l))%nat).
  { clear. intros l j y Hj Hp. assert (Hin : y ∈ filter P l)
      by (apply list_elem_of_filter; split; [done|by eapply list_elem_of_lookup_2]).
    destruct (filter P l); [inversion Hin|simpl; lia]. }
  revert i j. induction l as [|z l IH]; intros [|i] [|j] Hne; simpl; try done; intros Hi Hj Hx Hy;
    rewrite filter_cons.
  - simplify_eq. rewrite decide_True by done. specialize (Hone l j y Hj Hy). simpl. lia.
  - simplify_eq. rewrite decide_True by done. specialize (Hone l i x Hi Hx). simpl. lia.
  - assert (i <> j) as Hij by congruence. specialize (IH i j Hij Hi Hj Hx Hy).
    case_decide; simpl; lia.
Qed.

Lemma arrive_inv k s : sf_inv s -> sf_inv (run_arrive k s).
Proof.
  intros [Hs Hc Hr Hn]. unfold run_arrive. destruct (inflight s !! k) as [l|] eqn:E.
  - split; simpl; [done| | |].
    + apply Forall_app. split; [done|]. constructor; [|constructor].
      destruct (Hs k l E) as (ld & ? & ?). by exists ld.
    + intros k' l' c out Hk [Hin|Hin%list_elem_of_singleton]%elem_of_app Hp; [by eapply Hr|].
      by subst c.
    + intros k'. specialize (Hn k'). unfold returned_of in *. simpl.
      by rewrite returned_of_app.
  - assert (Hold : forall c, c ∈ sf_calls s -> (ca_load c < length (sf_loads s))%nat).
    { intros c Hin. rewrite Forall_forall in Hc. destruct (Hc c Hin) as (ld & Hl & _).
      by apply lookup_lt_Some in Hl. }
    split; simpl.
    + intros k' l' Hk'. destruct (decide (k' = k)) as [->|Hkk].
      * rewrite lookup_insert_eq in Hk'. simplify_eq. eexists.
        split; [apply list_lookup_middle; done|done].
      * rewrite lookup_insert_ne in Hk' by done. destruct (Hs k' l' Hk') as (ld & Hl & ?).
        exists ld. split; [by apply lookup_app_l_Some|done].
    + apply Forall_app. split; [eapply Forall_impl; [done|intros; by apply call_ok_app]|].
      constructor; [|constructor]. eexists. split; [by apply list_lookup_middle|done].
    + intros k' l' c out Hk' [Hin|Hin%list_elem_of_singleton]%elem_of_app Hp; [|by subst c].
      destruct (decide (k' = k)) as [->|Hkk].
      * rewrite lookup_insert_eq in Hk'. simplify_eq. specialize (Hold c Hin). lia.
      * rewrite lookup_insert_ne in Hk' by done. by eapply Hr.
    + intros k'. specialize (Hn k'). erewrite loads_of_app by done. unfold returned_of in *. simpl.
      rewrite returned_of_app by done. destruct (decide (k = k')) as [->|Hkk].
      * rewrite lookup_insert_eq. rewrite E in Hn. lia.
      * rewrite lookup_insert_ne by done. lia.
Qed.

Lemma finish_inv load out s s' : sf_inv s -> run_finish load out s = Some s' -> sf_inv s'.
Proof.
  intros [Hs Hc Hr Hn]. unfold run_finish.
  destruct (sf_loads s !! load) as [[key [o|]]|] eqn:E; [done| |done].
  destruct (existsb _ _); [|done]. intros [= <-].
  assert (Hlt : (load < length (sf_loads s))%nat) by by eapply lookup_lt_Some.
  split; simpl; [| |done|].
  - intros k l Hk. destruct (Hs k l Hk) as (ld & Hl & Hkey).
    destruct (decide (l = load)) as [->|]; [|exists ld; by rewrite list_lookup_insert_ne by done].
    eexists. rewrite list_lookup_insert_eq by done. split; [done|]. simpl. by simplify_eq/=.
  - eapply Forall_impl; [exact Hc|]. intros c (ld & Hl & Hkey & Hp).
    destruct (decide (ca_load c = load)) as [Heq|];
      [|exists ld; by rewrite list_lookup_insert_ne by done].
    eexists. rewrite Heq, list_lookup_insert_eq by done. split; [done|]. simpl.
    rewrite Heq, E in Hl. simplify_eq/=. split; [done|].
    destruct (ca_phase c) as [|r|]; [done| |done]. by destruct Hp as (? & ? & ?).
  - intros k. specialize (Hn k). unfold loads_of, returned_of in *. simpl.
    pose proof (filter_insert_length (fun l => ld_key l = k) _ _ _
      {| ld_key := key; ld_outcome := Some out |} E) as Hf. simpl in Hf.
    destruct (decide (key = k)); lia.
Qed.

Lemma call_settle_inv k l ph call s :
  sf_inv s -> sf_calls s !! call = Some {| ca_key := k; ca_load := l; ca_phase := Joined |} ->
  match ph with
  | Returned out => exists ld o, sf_loads s !! l = Some ld /\ ld_outcome ld = Some o /\
                                 out = map_err rebuild_error o
  | Dropped => True
  | Joined => False
  end ->
  sf_inv {| inflight := match ph with Returned _ => delete k (inflight s) | _ => inflight s end;
            sf_loads := sf_loads s;
            sf_calls := <[call := {| ca_key := k; ca_load := l; ca_phase := ph |}]> (sf_calls s) |}.
Proof.
  intros [Hs Hc Hr Hn] Hcall Hph.
  assert (Hck : call_ok (sf_loads s) {| ca_key := k; ca_load := l; ca_phase := Joined |})
    by (eapply Forall_lookup_1; [exact Hc|exact Hcall]).
  destruct Hck as (ld & Hl & Hkey & _). simpl in Hl, Hkey.
  set (i' := match ph with Returned _ => _ | _ => _ end).
  assert (Hsub : forall k' l', i' !! k' = Some l' ->
            inflight s !! k' = Some l' /\ (forall out, ph = Returned out -> k' <> k)).
  { intros k' l'. subst i'. destruct ph; [done| |done].
    rewrite lookup_delete_Some. naive_solver. }
  split; simpl.
  - intros k' l' Hk. apply Hs. by apply Hsub.
  - apply Forall_insert; [done|]. exists ld. simpl. split_and!; [done..|].
    destruct ph as [|out|]; [done| |done]. destruct Hph as (ld' & o & Hl' & Ho & ->).
    rewrite Hl in Hl'. simplify_eq. by exists o.
  - intros k' l' c out Hk Hin Hp. destruct (Hsub _ _ Hk) as [Hk' Hne].
    apply elem_of_insert_inv in Hin as [->|Hin]; [|by eapply Hr]. simpl in *. subst ph.
    specialize (Hne _ eq_refl). intros <-. destruct (Hs _ _ Hk') as (ld' & Hl' & Hk2).
    rewrite Hl in Hl'. naive_solver.
  - intros k'. specialize (Hn k'). unfold loads_of, returned_of in *. simpl.
    pose proof (filter_insert_length (has_returned k') _ _ _
      {| ca_key := k; ca_load := l; ca_phase := ph |} Hcall) as Hf.
    destruct (decide (has_returned k' {| ca_key := k; ca_load := l; ca_phase := Joined |}))
      as [[_ []]|_].
    subst i'. destruct ph as [|out|]; [done| |].
    + destruct (decide (k' = k)) as [->|Hkk].
      * rewrite decide_True in Hf by done.
        rewrite lookup_delete_eq. destruct (inflight s !! k); lia.
      * rewrite lookup_delete_ne by done. case_decide; lia.
    + case_decide; lia.
Qed.

Lemma sf_step_inv e s s' : sf_inv s -> sf_step e s = Some s' -> sf_inv s'.
Proof.
  intros Hi. destruct e as [key|load out|call|call]; simpl.
  - intros [= <-]. by apply arrive_inv.
  - by apply finish_inv.
  - unfold run_resume. destruct (sf_calls s !! call) as [[k l []]|] eqn:E; try done.
    destruct (sf_loads s !! l) as [[k' [o|]]|] eqn:El; try done. intros [= <-].
    apply (call_settle_inv k l (Returned (map_err rebuild_error o))); [done..|].
    eexists _, o. by split_and!.
  - unfold run_cancel. destruct (sf_calls s !! call) as [[k l []]|] eqn:E; try done.
    intros [= <-]. by apply (call_settle_inv k l Dropped).
Qed.

Lemma sf_run_inv es s s' : sf_inv s -> sf_run es s = Some s' -> sf_inv s'.
Proof.
  revert s. induction es as [|e es IH]; simpl; intros s Hi; [by intros [= <-]|].
  destruct (sf_step e s) as [s1|] eqn:E; [|done]. apply IH. by eapply sf_step_inv.
Qed.

(** A load somebody has returned from is never joined again. *)
Lemma retired_not_joined es s s' c l n :
  sf_inv s -> sf_run es s = Some s' ->
  c ∈ sf_calls s -> (exists out, ca_phase c = Returned out) -> ca_load c = l ->
  (forall j c', (n <= j)%nat -> sf_calls s !! j = Some c' -> ca_load c' <> l) ->
  forall j c', (n <= j)%nat -> sf_calls s' !! j = Some c' -> ca_load c' <> l.
Proof.
  revert s c. induction es as [|e es IH]; simpl; intros s c Hi; [by intros [= <-]|].
  destruct (sf_step e s) as [s1|] eqn:E; [|done]. intros Hrun Hin [out Hret] Hl Hnew.
  assert (Hlt : (l < length (sf_loads s))%nat).
  { subst l. pose proof (proj1 (Forall_forall _ _) (inv_calls s Hi) c Hin) as (ld & Hld & _).
    by eapply lookup_lt_Some. }
  pose proof (sf_step_inv _ _ _ Hi E) as Hi1.
  destruct e as [key|ld o|call|call]; simpl in E.
  - injection E as <-. apply (IH (run_arrive key s) c Hi1 Hrun); [|by exists out|done|].
    + unfold run_arrive. destruct (inflight s !! key); simpl; apply elem_of_app; by left.
    + intros j c' Hj. unfold run_arrive. destruct (inflight s !! key) as [l'|] eqn:Es; simpl;
        intros [|[_ Hc']]%lookup_app_Some; try by eapply Hnew.
      * apply list_lookup_singleton_Some in Hc' as [_ <-]. simpl. intros ->.
        by eapply (inv_retired s Hi).
      * apply list_lookup_singleton_Some in Hc' as [_ <-]. simpl. lia.
  - unfold run_finish in E. destruct (sf_loads s !! ld) as [[? []]|]; try done.
    destruct (existsb _ _); [|done]. injection E as <-.
    by apply (IH _ c Hi1 Hrun Hin (ex_intro _ out Hret) Hl).
  - unfold run_resume in E. destruct (sf_calls s !! call) as [[k1 l1 []]|] eqn:Ec; try done.
    destruct (sf_loads s !! l1) as [[? []]|]; try done. injection E as <-.
    apply (IH _ c Hi1 Hrun); [|by exists out|done|]; simpl.
    + apply list_elem_of_lookup in Hin as [i Hi']. apply list_elem_of_lookup. exists i.
      rewrite list_lookup_insert_ne; [done|]. intros <-. by rewrite Ec in Hi'; simplify_eq.
    + intros j c' Hj [(<- & <- & _)|[_ Hc']]%list_lookup_insert_Some; [|by eapply Hnew].
      by apply (Hnew _ _ Hj Ec).
  - unfold run_cancel in E. destruct (sf_calls s !! call) as [[k1 l1 []]|] eqn:Ec; try done.
    injection E as <-. apply (IH _ c Hi1 Hrun); [|by exists out|done|]; simpl.
    + apply list_elem_of_lookup in Hin as [i Hi']. apply list_elem_of_lookup. exists i.
      rewrite list_lookup_insert_ne; [done|]. intros <-. by rewrite Ec in Hi'; simplify_eq.
    + intros j c' Hj [(<- & <- & _)|[_ Hc']]%list_lookup_insert_Some; [|by eapply Hnew].
      by apply (Hnew _ _ Hj Ec).
Qed.

(** C38: whatever the interleaving of arrivals, completions, returns and
    cancellations: a call that returned got the outcome of a load of its own
    key (an API failure intact, any other failure as an invalid operation with
    the original message), and as long as no call for a key has returned, all
    calls for it share a single load; in general a key has at most one load
    more than it has had returns. *)
Theorem single_flight_shares (es : list (sf_event)) s :
  sf_run es SingleFlight_default = Some s ->
  (forall c out, c ∈ sf_calls s -> ca_phase c = Returned out ->
     exists o, sf_loads s !! ca_load c = Some {| ld_key := ca_key c; ld_outcome := Some o |} /\
               out = map_err rebuild_error o) /\
  (forall key, (loads_of key s <= 1 + returned_of key s)%nat) /\
  (forall key c1 c2, returned_of key s = 0%nat -> c1 ∈ sf_calls s -> c2 ∈ sf_calls s ->
     ca_key c1 = key -> ca_key c2 = key -> ca_load c1 = ca_load c2).
Proof.
  intros Hrun. pose proof (sf_run_inv _ _ _ sf_inv_default Hrun) as Hi.
  pose proof (proj1 (Forall_forall _ _) (inv_calls s Hi)) as Hcalls.
  split_and!.
  - intros c out Hin Hp. destruct (Hcalls c Hin) as ([k o] & Hl & Hk & Ho).
    rewrite Hp in Ho. destruct Ho as (o' & Ho & ->). simpl in *. subst. by exists o'.
  - intros key. pose proof (inv_count s Hi key). destruct (inflight s !! key); lia.
  - intros key c1 c2 Hz H1 H2 Hk1 Hk2. pose proof (inv_count s Hi key) as Hn.
    assert (Hle : (loads_of key s <= 1)%nat) by (destruct (inflight s !! key); lia).
    destruct (Hcalls c1 H1) as (ld1 & Hl1 & E1 & _), (Hcalls c2 H2) as (ld2 & Hl2 & E2 & _).
    destruct (decide (ca_load c1 = ca_load c2)) as [|Hne]; [done|exfalso].
    eapply (filter_two_length (fun l => ld_key l = key) (sf_loads s)) in Hne;
      [|exact Hl1|exact Hl2|congruence|congruence].
    unfold loads_of in Hle. lia.
Qed.

(** A result is never served stale: once a call has returned from a load,
    no call that arrives afterwards joins that load. *)
Theorem single_flight_fresh_after_return es1 es2 s1 s2 i j c c' out :
  sf_run es1 SingleFlight_default = Some s1 -> sf_run es2 s1 = Some s2 ->
  sf_calls s1 !! i = Some c -> ca_phase c = Returned out ->
  (length (sf_calls s1) <= j)%nat -> sf_calls s2 !! j = Some c' ->
  ca_load c' <> ca_load c.
Proof.
  intros Hr1 Hr2 Hc Hp Hj Hc'. pose proof (sf_run_inv _ _ _ sf_inv_default Hr1) as Hi.
  eapply (retired_not_joined es2 s1 s2 c (ca_load c) (length (sf_calls s1)) Hi Hr2);
    [by eapply list_elem_of_lookup_2|by exists out|done| |exact Hj|exact Hc'].
  intros j' c'' Hj' Hl%lookup_lt_Some. lia.
Qed.
End SingleFlight.
Arguments sf_event K V : clear implicits.

(** ** Concrete runs *)

Definition sf_final (es : list (sf_event string Z)) : SingleFlight string Z :=
  default SingleFlight_default (sf_run es SingleFlight_default).

Definition shared_events : list (sf_event string Z) :=
  [Arrive "node"; Arrive "other"; Arrive "node"; Finish 0 (Ok 7); Arrive "node"]%string.

Lemma single_flight_shares_witness :
  sf_run shared_events SingleFlight_default = Some (sf_final shared_events) /\
  forall c1 c2, c1 ∈ sf_calls (sf_final shared_events) -> c2 ∈ sf_calls (sf_final shared_events) ->
    ca_key c1 = "node"%string -> ca_key c2 = "node"%string -> ca_load c1 = ca_load c2.
Proof.
  assert (E : sf_run shared_events SingleFlight_default = Some (sf_final shared_events))
    by (vm_compute; reflexivity).
  split; [exact E|]. destruct (single_flight_shares shared_events _ E) as (_ & _ & Hs).
  assert (Hz : returned_of "node"%string (sf_final shared_events) = 0%nat)
    by (vm_compute; reflexivity).
  intros c1 c2. exact (Hs "node"%string c1 c2 Hz).
Defined.

Definition fresh_events : list (sf_event string Z) :=
  [Arrive "node"; Finish 0 (Ok 1); Resume 0]%string.

Lemma single_flight_fresh_after_return_witness :
  exists s2 c c', sf_run [Arrive "node"]%string (sf_final fresh_events) = Some s2 /\
    sf_calls (sf_final fresh_events) !! 0%nat = Some c /\ sf_calls s2 !! 1%nat = Some c' /\
    ca_load c' <> ca_load c.
Proof.
  assert (E1 : sf_run fresh_events SingleFlight_default = Some (sf_final fresh_events))
    by (vm_compute; reflexivity).
  assert (E2 : sf_run [Arrive "node"]%string (sf_final fresh_events)
               = Some (run_arrive "node"%string (sf_final fresh_events))) by reflexivity.
  assert (E3 : sf_calls (sf_final fresh_events) !! 0%nat
               = Some {| ca_key := "node"%string; ca_load := 0; ca_phase := Returned (Ok 1) |})
    by (vm_compute; reflexivity).
  assert (E4 : sf_calls (run_arrive "node"%string (sf_final fresh_events)) !! 1%nat
               = Some {| ca_key := "node"%string; ca_load := 1; ca_phase := Joined |})
    by (vm_compute; reflexivity).
  eexists _, _, _. split; [exact E2|]. split; [exact E3|]. split; [exact E4|].
  apply (single_flight_fresh_after_return _ _ _ _ 0 1 _ _ (Ok 1) E1 E2 E3 eq_refl); [|exact E4].
  apply Nat.leb_le. vm_compute. reflexivity.
Defined.

(** A waiter that resumes late clears the slot by key alone, so it can clear the
    slot of a successor load that is still running: two loads of one key are then
    in flight at once, each with a waiter. *)
Theorem late_resume_splits_flight :
  exists (es : list (sf_event string Z)) s,
    sf_run es SingleFlight_default = Some s /\
    exists i j c1 c2 l1 l2, sf_calls s !! i = Some c1 /\ sf_calls s !! j = Some c2 /\
      ca_load c1 <> ca_load c2 /\ ca_phase c1 = Joined /\ ca_phase c2 = Joined /\
      sf_loads s !! ca_load c1 = Some l1 /\ sf_loads s !! ca_load c2 = Some l2 /\
      ld_key l1 = ld_key l2 /\ ld_outcome l1 = None /\ ld_outcome l2 = None.
Proof.
  set (es := [Arrive "node"; Arrive "node"; Finish 0 (Ok 1); Resume 0; Arrive "node";
              Resume 1; Arrive "node"]%string : list (sf_event string Z)).
  exists es, (sf_final es). split; [vm_compute; reflexivity|].
  exists 2%nat, 3%nat,
    {| ca_key := "node"%string; ca_load := 1; ca_phase := Joined |},
    {| ca_key := "node"%string; ca_load := 2; ca_phase := Joined |},
    {| ld_key := "node"%string; ld_outcome := None |},
    {| ld_key := "node"%string; ld_outcome := None |}.
  split_and!; (vm_compute; reflexivity) || done.
Qed.
