(* ===== verification/Transport.v ===== *)
(** * The revision transport

    [crates/proton-drive-rs/src/transport.rs]: the narrow seam a revision read
    needs from its client: one-shot session renewal around authenticated calls,
    the speculative paging of the block listing, and the ranking of block-size
    sources. *)

From S2P Require Import Prelude Errors Config Http.

(** ** Wire records ([dtos.rs]) *)

Record BlockDto := { bl_index : Z; bl_bare_url : string; bl_token : string }.

Record ThumbnailDto := { th_id : option string; th_type : Z; th_hash_digest : option string }.

Record RevisionDto := {
  rev_id : string;
  rev_manifest_signature : option string;
  rev_signature_email : option string;
  rev_extended_attributes : option string;
  rev_thumbnails : list ThumbnailDto;
  rev_blocks : list BlockDto
}.

Record DecryptedFileContentDigests := { sha1 : option string }.

Record DecryptedCommonExtendedAttributes := {
  xa_size : option Z;
  xa_modification_time : option string;
  xa_block_sizes : option (list Z);
  xa_digests : option DecryptedFileContentDigests
}.

(** [std::mem::take(&mut first.blocks)]. *)
Definition without_blocks (r : RevisionDto) : RevisionDto :=
  {| rev_id := rev_id r; rev_manifest_signature := rev_manifest_signature r;
     rev_signature_email := rev_signature_email r;
     rev_extended_attributes := rev_extended_attributes r;
     rev_thumbnails := rev_thumbnails r; rev_blocks := [] |}.

Definition DEFAULT_BLOCK_SIZE : Z := Z.shiftl 1 22.

(** ** Sessions *)

(** The live session of type [S] over a client whose mutable state is
    [client_state W]: the client to use now with its generation, and renewal. *)
Class BlockSession (W S : Type) := {
  session_http : S -> ApiHttpClient * Z;
  session_client : S -> client_state W;
  session_update : client_state W -> S -> S;
  session_renew : Z -> M S unit ProtonError
}.

(** A bearer session renews its own tokens, so [renew] does nothing and the
    generation never moves. *)
#[export] Instance StaticSession {W} : BlockSession W (ApiHttpClient * client_state W) := {
  session_http s := (s.1, 0);
  session_client s := s.2;
  session_update cs s := (s.1, cs);
  session_renew _ := mret tt
}.

Definition is_session_expired (error : ProtonError) : bool :=
  match error with Api e => pe_http_status e =? 401 | _ => false end.

Section Transport.
Context {W S : Type} `{HttpWorld W} `{HttpCodec} `{BlockSession W S}.

(** A call through the session's current client. *)
Definition session_call {T} (call : ApiHttpClient -> M (client_state W) T ProtonError)
  : M S T ProtonError := fun s =>
  let (r, cs) := call (session_http (W := W) s).1 (session_client s) in
  (r, session_update cs s).

(** The body [get] and [post_query] share. *)
Definition with_renewal {T} (call : ApiHttpClient -> M (client_state W) T ProtonError)
  : M S T ProtonError := fun s =>
  let generation := (session_http (W := W) s).2 in
  match session_call call s with
  | (Err e, s1) =>
      if is_session_expired e
      then (let* _ := session_renew (W := W) generation in session_call call) s1
      else (Err e, s1)
  | other => other
  end.

Definition transport_get {T} (path : string) (decode : string -> result T string)
  : M S T ProtonError := with_renewal (fun c => http_get c path decode).

Definition transport_post_query {T} (path body : string) (decode : string -> result T string)
  : M S T ProtonError := with_renewal (fun c => http_post_query c path body decode).

(** ** The block listing *)

Definition PAGE_SIZE : Z := 50.
Definition MAX_PAGE_WINDOW : nat := 6.

Definition page_path (volume_id link_id revision_id : string) (page_index : Z) : string :=
  "v2/volumes/" +:+ volume_id +:+ "/files/" +:+ link_id +:+ "/revisions/" +:+ revision_id
  +:+ "?FromBlockIndex=" +:+ pretty (wrap_i32 (page_index * PAGE_SIZE + 1))
  +:+ "&PageSize=" +:+ pretty PAGE_SIZE +:+ "&NoBlockUrls=0".
End Transport.

(** The paging over any [page] action. *)
Section Paging.
Context {S : Type} (page : Z -> M S RevisionDto ProtonError).

Definition is_short (blocks : list BlockDto) : bool := Z.of_nat (length blocks) <? PAGE_SIZE.

(** The responses of a batch, in order; once a page came up short the rest are
    received and discarded. *)
Fixpoint drain_batch (batch : list Z) (blocks : list BlockDto) (complete : bool)
  : M S (list BlockDto * bool) ProtonError :=
  match batch with
  | [] => mret (blocks, complete)
  | p :: batch =>
      let* response := page p in
      if complete then drain_batch batch blocks complete
      else drain_batch batch (blocks ++ rev_blocks response) (is_short (rev_blocks response))
  end.

(** [None] when the fuel (the number of batches) runs out. *)
Fixpoint page_loop (fuel : nat) (next_page : Z) (window : nat)
    (blocks : list BlockDto) (complete : bool) (s : S)
  : option (result (list BlockDto) ProtonError * S) :=
  if complete then Some (Ok blocks, s)
  else match fuel with
       | O => None
       | Datatypes.S fuel =>
           let batch := (fun i => wrap_i32 (next_page + Z.of_nat i)) <$> seq 0 window in
           match drain_batch batch blocks complete s with
           | (Err e, s) => Some (Err e, s)
           | (Ok (blocks, complete), s) =>
               page_loop fuel (wrap_i32 (next_page + Z.of_nat window))
                 (Nat.min (window * 2) MAX_PAGE_WINDOW) blocks complete s
           end
       end.

(** The contiguity check: block [offset] must carry index [offset + 1]. *)
Fixpoint contiguous_from (offset : nat) (blocks : list BlockDto) : bool :=
  match blocks with
  | [] => true
  | b :: blocks => (bl_index b =? wrap_i32 (wrap_i32 (Z.of_nat offset) + 1))
                   && contiguous_from (Datatypes.S offset) blocks
  end.

Definition list_blocks_with (fuel : nat) (s : S)
  : option (result (RevisionDto * list BlockDto) ProtonError * S) :=
  match page 0 s with
  | (Err e, s) => Some (Err e, s)
  | (Ok first, s) =>
      match page_loop fuel 1 2 (rev_blocks first) (is_short (rev_blocks first)) s with
      | None => None
      | Some (Err e, s) => Some (Err e, s)
      | Some (Ok blocks, s) =>
          let blocks := sort_by_key bl_index blocks in
          Some (if contiguous_from 0 blocks then Ok (without_blocks first, blocks)
                else Err (invalid_operation
                            "file contents are incomplete (non-contiguous blocks)"), s)
      end
  end.
End Paging.

Definition list_blocks {W S} `{HttpWorld W} `{HttpCodec} `{BlockSession W S}
    (decode_revision : string -> result RevisionDto string) (fuel : nat)
    (volume_id link_id revision_id : string) (s : S)
  : option (result (RevisionDto * list BlockDto) ProtonError * S) :=
  list_blocks_with
    (fun i => transport_get (W := W) (page_path volume_id link_id revision_id i) decode_revision)
    fuel s.

(** ** Block sizes *)

(** The second and third rungs. *)
Definition rank_by_total (common : option DecryptedCommonExtendedAttributes)
    (revision_id : string) (block_count : nat) : Res (list Z) :=
  let block := DEFAULT_BLOCK_SIZE in
  match (total ← (c ← common; xa_size c); if 0 <=? total then Some total else None) with
  | Some total =>
      Ok ((fun i => Z.min (sat_sub total (block * Z.of_nat i)) block) <$> seq 0 block_count)
  | None =>
      if (block_count <=? 1)%nat then Ok (replicate block_count block)
      else Err (invalid_operation ("revision " +:+ revision_id +:+ " has "
             +:+ pretty (Z.of_nat block_count) +:+ " blocks but no usable size information "
             +:+ "(no block sizes and no total in its extended attributes)"))
  end.

Definition rank_block_sizes (common : option DecryptedCommonExtendedAttributes)
    (revision_id : string) (block_count : nat) : Res (list Z) :=
  match (c ← common; xa_block_sizes c) with
  | Some sizes =>
      if (length sizes =? block_count)%nat
      then match position (fun n => n <=? 0) sizes with
           | Some bad => Err (invalid_operation ("revision " +:+ revision_id
                +:+ " records a non-positive size for block " +:+ pretty (Z.of_nat bad)))
           | None => Ok sizes
           end
      else rank_by_total common revision_id block_count
  | None => rank_by_total common revision_id block_count
  end.

(** ** Properties *)

(** *** Renewal *)

Section RenewalFacts.
Context {W S : Type} `{HttpWorld W} `{HttpCodec} `{BlockSession W S}.

(** An authenticated call runs once, and a second time only after a 401 and
    a renewal of the very generation the first one used; every other outcome,
    403 and 404 included, is the caller's as it is, and a failed renewal is
    reported instead of replaying the call. *)
Theorem renewal_replays_once {T} (call : ApiHttpClient -> M (client_state W) T ProtonError) s :
  let '(r, s') := with_renewal call s in
  let generation := (session_http (W := W) s).2 in
  exists r1 s1, session_call call s = (r1, s1) /\
  match r1 with
  | Err e =>
      if is_session_expired e
      then match session_renew (W := W) generation s1 with
           | (Err e2, s2) => r = Err e2 /\ s' = s2
           | (Ok _, s2) => session_call call s2 = (r, s')
           end
      else r = Err e /\ s' = s1
  | Ok v => r = Ok v /\ s' = s1
  end.
Proof.
  unfold with_renewal, mbind_. destruct (session_call call s) as [[v|e] s1] eqn:E.
  - exists (Ok v), s1. by split.
  - destruct (is_session_expired e) eqn:Ex.
    + destruct (session_renew (session_http s).2 s1) as [[[]|e2] s2] eqn:Er.
      * destruct (session_call call s2) as [r s3] eqn:E2. exists (Err e), s1.
        rewrite Ex, Er. by split.
      * exists (Err e), s1. by rewrite Ex, Er.
    + exists (Err e), s1. by rewrite Ex.
Qed.
End RenewalFacts.

(** *** Paging *)

Section PagingFacts.
Context {S : Type} (page : Z -> M S RevisionDto ProtonError).

(** [contiguous_from] is the statement that the blocks are numbered from
    [offset + 1] without a gap. *)
Lemma contiguous_from_spec offset blocks :
  Z.of_nat (offset + length blocks) < 2 ^ 31 ->
  contiguous_from offset blocks = true <->
  forall i b, blocks !! i = Some b -> bl_index b = Z.of_nat (offset + i) + 1.
Proof.
  revert offset. induction blocks as [|b blocks IH]; intros offset Hl; simpl; [naive_solver|].
  simpl in Hl. rewrite !(wrap_i32_small (Z.of_nat offset)) by lia.
  rewrite wrap_i32_small by lia. rewrite andb_true_iff, Z.eqb_eq, IH by lia. split.
  - intros [Hb Hr] [|i] c; simpl; intros Hc; simplify_eq; [lia|].
    rewrite (Hr i c Hc). lia.
  - intros Hr. split; [rewrite (Hr 0%nat b eq_refl); lia|].
    intros i c Hc. rewrite (Hr (Datatypes.S i) c Hc). lia.
Qed.

Lemma page_loop_complete fuel next window blocks s :
  page_loop page fuel next window blocks true s = Some (Ok blocks, s).
Proof. by destruct fuel. Qed.

(** The server serves the block table [table]: page [i] holds the blocks from
    [50 * i] on, up to 50 of them.  [inv] is any condition the calls keep. *)
Definition serves (table : list BlockDto) (meta : RevisionDto) (inv : S -> Prop) : Prop :=
  forall i s, inv s -> exists s',
    page (Z.of_nat i) s
    = (Ok {| rev_id := rev_id meta; rev_manifest_signature := rev_manifest_signature meta;
             rev_signature_email := rev_signature_email meta;
             rev_extended_attributes := rev_extended_attributes meta;
             rev_thumbnails := rev_thumbnails meta;
             rev_blocks := take 50 (drop (50 * i) table) |}, s') /\ inv s'.

(** Whatever the server answers: a listing that succeeds carries the metadata
    of the first page and a block table numbered 1, 2, 3, ... without gap or
    repetition, so a revision with missing or duplicated blocks is an error. *)
Theorem list_blocks_sound fuel s metadata blocks s' :
  list_blocks_with page fuel s = Some (Ok (metadata, blocks), s') ->
  Z.of_nat (length blocks) < 2 ^ 31 ->
  (exists first s1, page 0 s = (Ok first, s1) /\ metadata = without_blocks first) /\
  forall i b, blocks !! i = Some b -> bl_index b = Z.of_nat i + 1.
Proof.
  unfold list_blocks_with. destruct (page 0 s) as [[first|e] s1]; [|done].
  destruct (page_loop _ _ _ _ _ _ _) as [[[bs|e] s2]|]; [|done..].
  destruct (contiguous_from 0 _) eqn:E; [|done]. intros [= <- <- <-] Hl.
  split; [by exists first, s1|]. by rewrite contiguous_from_spec in E.
Qed.

Context (table : list BlockDto) (meta : RevisionDto) (inv : S -> Prop).
Hypothesis Hserves : serves table meta inv.

Definition pages_done (n : nat) : Prop := (length table < 50 * n)%nat.

Lemma is_short_page i :
  is_short (take 50 (drop (50 * i) table)) = bool_decide (pages_done (Datatypes.S i)).
Proof.
  unfold is_short, PAGE_SIZE, pages_done. rewrite length_take, length_drop.
  case_bool_decide; [apply Z.ltb_lt|apply Z.ltb_ge]; lia.
Qed.

Lemma take_next_page i :
  take (50 * i) table ++ take 50 (drop (50 * i) table) = take (50 * Datatypes.S i) table.
Proof. rewrite take_take_drop. f_equal. lia. Qed.

Lemma wrap_seq n w :
  Z.of_nat (n + w) < 2 ^ 31 ->
  Z.of_nat <$> seq n w = (fun i => wrap_i32 (Z.of_nat n + Z.of_nat i)) <$> seq 0 w.
Proof.
  intros Hb. apply list_eq. intros i. rewrite !list_lookup_fmap.
  destruct (decide (i < w)%nat) as [Hi|Hi].
  - rewrite !lookup_seq_lt by done. simpl. rewrite wrap_i32_small by lia. f_equal. lia.
  - by rewrite !lookup_seq_ge by lia.
Qed.

(** A batch of consecutive pages extends the collected prefix. *)
Lemma drain_batch_serves k n s :
  inv s -> exists s', inv s' /\
  drain_batch page (Z.of_nat <$> seq n k) (take (50 * n) table) (bool_decide (pages_done n)) s
  = (Ok (take (50 * (n + k)) table, bool_decide (pages_done (n + k))), s').
Proof.
  revert n s. induction k as [|k IH]; intros n s Hi; cbn [seq fmap list_fmap drain_batch].
  - exists s. split; [done|]. by rewrite (Nat.add_0_r n).
  - destruct (Hserves n s Hi) as (s1 & E & Hi1). unfold mbind_. rewrite E.
    destruct (IH (Datatypes.S n) s1 Hi1) as (s2 & Hi2 & E2). exists s2. split; [done|].
    rewrite Nat.add_succ_r. rewrite Nat.add_succ_l in E2. cbn [rev_blocks].
    rewrite <- E2. destruct (decide (pages_done n)) as [Hd|Hd].
    + assert (Hd' : pages_done (Datatypes.S n)) by (unfold pages_done in *; lia).
      rewrite !bool_decide_eq_true_2 by done. unfold pages_done in Hd.
      by rewrite !take_ge by lia.
    + rewrite (bool_decide_eq_false_2 (pages_done n)) by done.
      by rewrite take_next_page, is_short_page.
Qed.

Lemma page_loop_serves fuel n w s :
  inv s -> (1 <= w <= 6)%nat -> (length table < 50 * (n + fuel))%nat ->
  Z.of_nat (length table) < 2 ^ 31 ->
  exists s', inv s' /\
  page_loop page fuel (Z.of_nat n) w (take (50 * n) table) (bool_decide (pages_done n)) s
  = Some (Ok table, s').
Proof.
  revert n w s. induction fuel as [|fuel IH]; intros n w s Hi Hw Hl Hb;
    destruct (decide (pages_done n)) as [Hd|Hd];
    rewrite ?(bool_decide_eq_true_2 (pages_done n)), ?(bool_decide_eq_false_2 (pages_done n)) by done.
  - exists s. split; [done|]. unfold pages_done in Hd. by rewrite page_loop_complete, take_ge by lia.
  - unfold pages_done in Hd. lia.
  - exists s. split; [done|]. unfold pages_done in Hd. by rewrite page_loop_complete, take_ge by lia.
  - cbn [page_loop]. destruct (drain_batch_serves w n s Hi) as (s1 & Hi1 & E1).
    rewrite (bool_decide_eq_false_2 (pages_done n)) in E1 by done. unfold pages_done in Hd.
    replace ((fun i => wrap_i32 (Z.of_nat n + Z.of_nat i)) <$> seq 0 w)
      with (Z.of_nat <$> seq n w) by (apply wrap_seq; lia).
    rewrite E1. rewrite wrap_i32_small by lia. rewrite <- Nat2Z.inj_add.
    apply IH; unfold MAX_PAGE_WINDOW; [done|lia..].
Qed.

(** The speculative paging is complete and terminates: when the server serves
    a block table numbered 1..n, as many batches as the table has pages suffice,
    and the listing returns the whole table in order with the revision's
    metadata, whatever the surplus pages of a batch contain. *)
Theorem list_blocks_complete fuel s :
  (forall i b, table !! i = Some b -> bl_index b = Z.of_nat i + 1) ->
  Z.of_nat (length table) < 2 ^ 31 -> (length table < 50 * Datatypes.S fuel)%nat -> inv s ->
  exists s', inv s' /\
  list_blocks_with page fuel s = Some (Ok (without_blocks meta, table), s').
Proof.
  intros Hidx Hb Hf Hi. unfold list_blocks_with.
  destruct (Hserves 0%nat s Hi) as (s1 & E1 & Hi1). change (Z.of_nat 0) with 0 in E1. rewrite E1.
  cbn [rev_blocks]. rewrite is_short_page.
  destruct (page_loop_serves fuel 1 2 s1 Hi1) as (s2 & Hi2 & E2); [lia..|].
  replace (take 50 (drop (50 * 0) table)) with (take (50 * 1) table) by done.
  change (Z.of_nat 1) with 1 in E2. rewrite E2. exists s2. split; [done|].
  assert (Hs : sort_by_key bl_index table = table).
  { apply sort_by_key_sorted, StronglySorted_by_lookup. intros i j x y Hij Hx Hy.
    rewrite (Hidx i x Hx), (Hidx j y Hy). lia. }
  rewrite Hs. rewrite (proj2 (contiguous_from_spec 0%nat table Hb)); [done|].
  intros i b Hib. by rewrite (Hidx i b Hib).
Qed.
End PagingFacts.

(** A two-and-a-bit page table, and a server that logs the pages asked for. *)
Definition demo_table : list BlockDto :=
  (fun i => {| bl_index := Z.of_nat i + 1; bl_bare_url := "u"; bl_token := "t" |}) <$> seq 0 120.

Definition demo_meta : RevisionDto :=
  {| rev_id := "rev"; rev_manifest_signature := None; rev_signature_email := None;
     rev_extended_attributes := None; rev_thumbnails := []; rev_blocks := [] |}.

Definition demo_page (table : list BlockDto) (i : Z) : M (list Z) RevisionDto ProtonError :=
  fun s => (Ok {| rev_id := "rev"; rev_manifest_signature := None; rev_signature_email := None;
                  rev_extended_attributes := None; rev_thumbnails := [];
                  rev_blocks := take 50 (drop (50 * Z.to_nat i) table) |}, s ++ [i]).

Lemma list_blocks_sound_witness :
  list_blocks_with (demo_page demo_table) 2 [] = Some (Ok (demo_meta, demo_table), [0; 1; 2]) /\
  forall i b, demo_table !! i = Some b -> bl_index b = Z.of_nat i + 1.
Proof.
  assert (E : list_blocks_with (demo_page demo_table) 2 []
              = Some (Ok (demo_meta, demo_table), [0; 1; 2])) by (vm_compute; reflexivity).
  split; [exact E|]. apply (list_blocks_sound _ _ _ _ _ _ E). apply Z.ltb_lt. vm_compute. reflexivity.
Defined.

Lemma list_blocks_complete_witness :
  exists s', list_blocks_with (demo_page demo_table) 2 [] = Some (Ok (demo_meta, demo_table), s').
Proof.
  destruct (list_blocks_complete (demo_page demo_table) demo_table demo_meta (fun _ => True))
    with (fuel := 2%nat) (s := @nil Z) as (s' & _ & E).
  - intros i s _. unfold demo_page. rewrite Nat2Z.id. eexists. split; [reflexivity|exact I].
  - intros i b. unfold demo_table. rewrite list_lookup_fmap.
    destruct (seq 0 120 !! i) as [j|] eqn:Ej; [|discriminate].
    apply lookup_seq in Ej as [Ej _]. simpl. intros [= <-]. simpl. lia.
  - apply Z.ltb_lt. vm_compute. reflexivity.
  - apply Nat.ltb_lt. vm_compute. reflexivity.
  - exact I.
  - exists s'. exact E.
Defined.

(** *** Block sizes *)

(** The uploader's layout: full blocks and a last one of 1..4 MiB. *)
Fixpoint standard_layout (sizes : list Z) : Prop :=
  match sizes with
  | [] => True
  | [last] => 0 < last <= DEFAULT_BLOCK_SIZE
  | size :: sizes => size = DEFAULT_BLOCK_SIZE /\ standard_layout sizes
  end.

Definition sizes_from_total (total : Z) (k n : nat) : list Z :=
  (fun i => Z.min (sat_sub total (DEFAULT_BLOCK_SIZE * Z.of_nat i)) DEFAULT_BLOCK_SIZE) <$> seq k n.

Lemma DEFAULT_BLOCK_SIZE_pos : 0 < DEFAULT_BLOCK_SIZE.
Proof. reflexivity. Qed.

Lemma standard_layout_pos sizes : standard_layout sizes -> Forall (fun n => 0 < n) sizes.
Proof.
  pose proof DEFAULT_BLOCK_SIZE_pos as Hb.
  induction sizes as [|a [|b sizes] IH]; cbn [standard_layout]; [constructor| |].
  - intros Ha. constructor; [lia|constructor].
  - intros [-> Hs]. constructor; [done|by apply IH].
Qed.

Lemma sizes_from_total_layout sizes k total :
  standard_layout sizes -> total = DEFAULT_BLOCK_SIZE * Z.of_nat k + sum_Z sizes ->
  sizes_from_total total k (length sizes) = sizes.
Proof.
  pose proof DEFAULT_BLOCK_SIZE_pos as Hb. revert k.
  induction sizes as [|a sizes IH]; intros k Hs Ht; [done|].
  unfold sizes_from_total in *. cbn [length seq]. rewrite fmap_cons.
  pose proof (standard_layout_pos _ Hs) as Hp. apply Forall_cons in Hp as [Ha Hp].
  assert (Hn : 0 <= sum_Z sizes).
  { apply sum_Z_nonneg. eapply Forall_impl; [exact Hp|]. simpl. lia. }
  cbn [sum_Z foldr] in Ht. fold (sum_Z sizes) in Ht. f_equal.
  - unfold sat_sub. destruct sizes as [|b sizes]; cbn [standard_layout] in Hs.
    + simpl in Ht. lia.
    + destruct Hs as [-> _]. lia.
  - destruct sizes as [|b sizes]; [done|]. destruct Hs as [-> Hs]. apply IH; [done|]. lia.
Qed.

Lemma sizes_from_total_sum total k n :
  0 <= total ->
  sum_Z (sizes_from_total total k n)
  = Z.min (Z.max 0 (total - DEFAULT_BLOCK_SIZE * Z.of_nat k)) (DEFAULT_BLOCK_SIZE * Z.of_nat n).
Proof.
  pose proof DEFAULT_BLOCK_SIZE_pos as Hb. intros Ht. revert k.
  induction n as [|n IH]; intros k; [simpl; lia|]. unfold sizes_from_total in *.
  cbn [seq]. rewrite fmap_cons. cbn [sum_Z foldr].
  match goal with |- context [foldr Z.add 0 ?l] => change (foldr Z.add 0 l) with (sum_Z l) end.
  rewrite IH. unfold sat_sub. nia.
Qed.

(** The lower rungs answer with a cut of the total, or for at most one block. *)
Lemma rank_by_total_ok common revision_id count sizes :
  rank_by_total common revision_id count = Ok sizes ->
  length sizes = count /\ Forall (fun n => 0 <= n) sizes /\
  ((exists total, (c ← common; xa_size c) = Some total /\ 0 <= total /\
      sum_Z sizes = Z.min total (DEFAULT_BLOCK_SIZE * Z.of_nat count))
   \/ (count <= 1)%nat).
Proof.
  unfold rank_by_total at 1. pose proof DEFAULT_BLOCK_SIZE_pos as Hb.
  destruct (total ← c ← common; xa_size c; if 0 <=? total then Some total else None)
    as [total|] eqn:Et.
  - destruct (c ← common; xa_size c) as [total'|] eqn:Es; [|done]. cbn [mbind option_bind] in Et.
    destruct (Z.leb_spec 0 total') as [Hpos|]; simplify_eq.
    intros [= <-]. split_and!; [by rewrite length_fmap, length_seq| |left].
    + apply Forall_fmap, Forall_true. intros i. unfold sat_sub. simpl. lia.
    + exists total. split_and!; [done..|].
      pose proof (sizes_from_total_sum total 0 count Hpos) as Hsum.
      unfold sizes_from_total in Hsum. rewrite Hsum. lia.
  - destruct (Nat.leb_spec count 1); [|done]. intros [= <-].
    split_and!; [by rewrite length_replicate|apply Forall_replicate; lia|by right].
Qed.

(** The ranking of a revision's block-size sources: one size per block or an
    error; a recorded vector of the right length is taken verbatim and has only
    positive entries; otherwise the sizes cut the recorded total (as far as the
    blocks reach); a revision of several blocks with neither source is refused.
    For the uploader's layout the vector and the total yield the same, true
    sizes. *)
Theorem rank_block_sizes_spec common revision_id count :
  (forall sizes, rank_block_sizes common revision_id count = Ok sizes ->
     length sizes = count /\ Forall (fun n => 0 <= n) sizes /\
     ((c ← common; xa_block_sizes c) = Some sizes /\ Forall (fun n => 0 < n) sizes
      \/ (exists total, (c ← common; xa_size c) = Some total /\ 0 <= total /\
            sum_Z sizes = Z.min total (DEFAULT_BLOCK_SIZE * Z.of_nat count))
      \/ (count <= 1)%nat)) /\
  (forall sizes, standard_layout sizes -> length sizes = count ->
     (c ← common; xa_block_sizes c) = Some sizes
     \/ ((forall v, (c ← common; xa_block_sizes c) = Some v -> length v <> count) /\
         (c ← common; xa_size c) = Some (sum_Z sizes)) ->
     rank_block_sizes common revision_id count = Ok sizes).
Proof.
  pose proof (rank_by_total_ok common revision_id count) as Hrung.
  split.
  - intros sizes. unfold rank_block_sizes.
    destruct (c ← common; xa_block_sizes c) as [v|] eqn:Ev; [|intros (?&?&?)%Hrung; tauto].
    destruct (Nat.eqb_spec (length v) count) as [Hlen|]; [|intros (?&?&?)%Hrung; tauto].
    destruct (position _ v) eqn:Ep; [done|]. intros [= <-]. apply position_None in Ep.
    assert (Hpos : Forall (fun n => 0 < n) v).
    { eapply Forall_impl; [exact Ep|]. intros n Hn%Z.leb_gt. lia. }
    split_and!; [done| |by left]. eapply Forall_impl; [exact Hpos|]. simpl. lia.
  - intros sizes Hs Hlen Hsrc. unfold rank_block_sizes.
    pose proof (standard_layout_pos _ Hs) as Hpos. destruct Hsrc as [->|[Hv Ht]].
    + rewrite (proj2 (Nat.eqb_eq _ _) Hlen). rewrite (proj2 (position_None _ _)); [done|].
      eapply Forall_impl; [exact Hpos|]. intros n Hn. simpl in Hn. apply Z.leb_gt. lia.
    + assert (Hr : rank_by_total common revision_id count = Ok sizes).
      { unfold rank_by_total. rewrite Ht. cbn [mbind option_bind].
        destruct (Z.leb_spec 0 (sum_Z sizes)) as [|Hneg].
        - pose proof (sizes_from_total_layout sizes 0 (sum_Z sizes) Hs ltac:(lia)) as He.
          unfold sizes_from_total in He. by rewrite <- Hlen, He.
        - pose proof (sum_Z_nonneg sizes). assert (0 <= sum_Z sizes); [|lia]. apply sum_Z_nonneg.
          eapply Forall_impl; [exact Hpos|]. simpl. lia. }
      destruct (c ← common; xa_block_sizes c) as [v|]; [|done].
      destruct (Nat.eqb_spec (length v) count) as [He|]; [|done]. by destruct (Hv v eq_refl).
Qed.
