(* ===== verification/Revision.v ===== *)
(** * The seekable revision reader

    [crates/proton-drive-rs/src/revision.rs]: the block table with its
    expired-URL recovery ([BlockTargets]) and the reader that serves plaintext
    ranges from the blocks they overlap ([RevisionReader::read_at]).  Bytes are
    strings.  The concurrent fetches of a read are consumed in block order
    ([buffered]), and are modelled as made in that order; the in-flight permits
    only delay them. *)

From S2P Require Import Prelude Errors Config Http Transport.

(** ** History entries *)

Inductive RevisionState := Active | Superseded.

Definition RevisionState_from_raw (value : option Z) : RevisionState :=
  match value with Some 2 => Superseded | _ => Active end.

Record Revision := {
  rv_file_uid : NodeUid;
  rv_revision_id : string;
  rv_state : RevisionState;
  rv_creation_time : Z;
  rv_size_on_storage : Z;
  rv_claimed_size : option Z;
  rv_claimed_modification_time : option string;
  rv_claimed_sha1 : option string;
  rv_signature_email : option string;
  rv_has_thumbnails : bool
}.

Definition is_active (r : Revision) : bool :=
  match rv_state r with Active => true | Superseded => false end.

(** ** The block table *)

Record BlockTable := { bt_blocks : list BlockDto; bt_generation : Z }.

(** The immutable half; the table is part of the state. *)
Record BlockTargets := {
  tg_uid : NodeUid;
  tg_revision_id : string;
  tg_expected_blocks : nat
}.

Definition is_expired_block_url (error : ProtonError) : bool :=
  match error with
  | Api e => (pe_http_status e =? 401) || (pe_http_status e =? 403) || (pe_http_status e =? 404)
  | _ => false
  end.

(** The parts of a read that go to the network: listing the revision again and
    fetching one blob.  [Targets] below supplies them from the transport. *)
Section Targets.
Context {S : Type}.
Context (relist : FM S (RevisionDto * list BlockDto) ProtonError).
Context (fetch : string -> string -> M S string ProtonError).
Context (targets : BlockTargets).

Definition location (index : nat) : FM (BlockTable * S) (string * string * Z) ProtonError :=
  fun '(table, s) =>
  match bt_blocks table !! index with
  | Some block => fret (bl_bare_url block, bl_token block, bt_generation table) (table, s)
  | None => ffail (invalid_operation ("block " +:+ pretty (Z.of_nat index)
              +:+ " is missing from revision " +:+ tg_revision_id targets)) (table, s)
  end.

(** Runs under the refresh lock, so refreshes are atomic among themselves. *)
Definition refresh (seen_generation : Z) : FM (BlockTable * S) unit ProtonError :=
  fun '(table, s) =>
  if negb (bt_generation table =? seen_generation) then Some (Ok tt, (table, s))
  else match relist s with
       | None => None
       | Some (Err e, s) => Some (Err e, (table, s))
       | Some (Ok (_, blocks), s) =>
           if negb (length blocks =? tg_expected_blocks targets)%nat
           then Some (Err (invalid_operation ("revision " +:+ tg_revision_id targets
                  +:+ " changed block count while open ("
                  +:+ pretty (Z.of_nat (tg_expected_blocks targets)) +:+ " -> "
                  +:+ pretty (Z.of_nat (length blocks)) +:+ ")")), (table, s))
           else Some (Ok tt, ({| bt_blocks := blocks;
                                 bt_generation := wrap_u64 (bt_generation table + 1) |}, s))
       end.

Definition fetch_blob (url token : string) : FM (BlockTable * S) string ProtonError :=
  fun '(table, s) => let (r, s) := fetch url token s in Some (r, (table, s)).

Definition ciphertext (index : nat) : FM (BlockTable * S) string ProtonError :=
  let+ (url, token, generation) := location index in
  fun ts =>
  match fetch_blob url token ts with
  | Some (Err e, ts) =>
      if is_expired_block_url e
      then (let+ _ := refresh generation in
            let+ (url, token, _) := location index in
            fetch_blob url token) ts
      else Some (Err e, ts)
  | other => other
  end.

(** ** Reading *)

(** The loop of [plan_blocks]; [block_start] is a [u64] running sum. *)
Fixpoint plan_from (index : nat) (block_start : Z) (block_sizes : list Z) (offset end_ : Z)
  : list (nat * Z) :=
  match block_sizes with
  | [] => []
  | block_size :: block_sizes =>
      if end_ <=? block_start then []
      else
        let block_end := wrap_u64 (block_start + block_size) in
        (if offset <? block_end then [(index, block_start)] else [])
        ++ plan_from (Datatypes.S index) block_end block_sizes offset end_
  end.

Definition plan_blocks (block_sizes : list Z) (offset end_ : Z) : list (nat * Z) :=
  plan_from 0 0 block_sizes offset end_.

Definition splice_block (out plaintext : string) (block_start offset end_ : Z) : string :=
  let from := sat_sub offset block_start in
  let to := Z.min (end_ - block_start) (Z.of_nat (String.length plaintext)) in
  if from <? to
  then out +:+ String.substring (Z.to_nat from) (Z.to_nat (to - from)) plaintext
  else out.

Record RevisionReader := { rr_block_sizes : list Z; rr_file_size : Z }.

Definition RevisionReader_new (block_sizes : list Z) : RevisionReader :=
  {| rr_block_sizes := block_sizes; rr_file_size := wrap_u64 (sum_Z block_sizes) |}.

Context (decrypt_block : string -> result string CryptoError).

Definition block_plaintext (index : nat) : FM (BlockTable * S) string ProtonError :=
  let+ c := ciphertext index in
  flift (mlift (map_err Crypto (decrypt_block c))).

Fixpoint read_blocks (wanted : list (nat * Z)) (offset end_ : Z) (out : string)
  : FM (BlockTable * S) string ProtonError :=
  match wanted with
  | [] => fret out
  | (index, block_start) :: wanted =>
      let+ plaintext := block_plaintext index in
      read_blocks wanted offset end_ (splice_block out plaintext block_start offset end_)
  end.

Definition read_at (reader : RevisionReader) (offset len : Z)
  : FM (BlockTable * S) string ProtonError :=
  if (len =? 0) || (rr_file_size reader <=? offset) then fret EmptyString
  else
    let end_ := Z.min (sat_add_u64 offset len) (rr_file_size reader) in
    read_blocks (plan_blocks (rr_block_sizes reader) offset end_) offset end_ EmptyString.
End Targets.

(** A block table as a reader opens it. *)
Definition BlockTable_new (blocks : list BlockDto) : BlockTable :=
  {| bt_blocks := blocks; bt_generation := 0 |}.

(** The reader over a transport session. *)
Definition reader_read_at {W S} `{HttpWorld W} `{HttpCodec} `{BlockSession W S}
    (decode_revision : string -> result RevisionDto string) (fuel : nat)
    (decrypt_block : string -> result string CryptoError)
    (targets : BlockTargets) (reader : RevisionReader) (offset len : Z)
  : FM (BlockTable * S) string ProtonError :=
  read_at
    (list_blocks (W := W) decode_revision fuel (volume_id (tg_uid targets))
       (link_id (tg_uid targets)) (tg_revision_id targets))
    (fun url token => session_call (W := W) (fun c => get_storage_blob c url token))
    targets decrypt_block reader offset len.
