(* ===== verification/RevisionFacts.v ===== *)
(** * Facts about the revision reader

    Reads return exactly the requested slice of the plaintext, an expired block
    URL costs one listing, and a burst of them still one. *)

From S2P Require Import Prelude Errors Config Http Transport Revision.

(** ** Byte strings as lists *)

Abbreviation bytes := list_ascii_of_string.

Lemma bytes_app a b : bytes (a +:+ b) = bytes a ++ bytes b.
Proof. induction a as [|c a IH]; [done|]. rewrite str_app_cons. simpl. by rewrite IH. Qed.

Lemma bytes_length s : length (bytes s) = String.length s.
Proof. induction s; simpl; congruence. Qed.

Lemma bytes_substring n m s : bytes (String.substring n m s) = take m (drop n (bytes s)).
Proof.
  revert n m. induction s as [|c s IH]; intros [|n] [|m]; simpl; rewrite ?IH, ?drop_0; done.
Qed.

(** The part of [l], a stretch of the file beginning at [start], that falls
    inside [offset, end_). *)
Definition cut {A} (start offset end_ : Z) (l : list A) : list A :=
  drop (Z.to_nat (offset - start)) (take (Z.to_nat (end_ - start)) l).

Lemma cut_app {A} start offset end_ (l k : list A) :
  cut start offset end_ (l ++ k)
  = cut start offset end_ l ++ cut (start + Z.of_nat (length l)) offset end_ k.
Proof.
  unfold cut. rewrite take_app, skipn_app, length_take.
  destruct (decide (Z.to_nat (end_ - start) <= length l)%nat) as [Hle|Hgt].
  - replace (Z.to_nat (end_ - start) - length l)%nat with 0%nat by lia.
    replace (Z.to_nat (end_ - (start + Z.of_nat (length l)))) with 0%nat by lia.
    by rewrite !take_0, !drop_nil.
  - rewrite Nat.min_r by lia. f_equal. f_equal; [lia|]. f_equal. lia.
Qed.

Lemma cut_after {A} start offset end_ (l : list A) : end_ <= start -> cut start offset end_ l = [].
Proof. intros Hs. unfold cut. replace (Z.to_nat (end_ - start)) with 0%nat by lia. by rewrite take_0, drop_nil. Qed.

Lemma cut_before {A} start offset end_ (l : list A) :
  start + Z.of_nat (length l) <= offset -> cut start offset end_ l = [].
Proof. intros Hs. unfold cut. apply drop_ge. rewrite length_take. lia. Qed.

Lemma splice_block_cut out p start offset end_ :
  start < end_ ->
  bytes (splice_block out p start offset end_) = bytes out ++ cut start offset end_ (bytes p).
Proof.
  intros Hs. unfold splice_block, cut, sat_sub. rewrite <- bytes_length.
  set (l := bytes p). set (from := Z.max 0 (offset - start)).
  set (to := Z.min (end_ - start) (Z.of_nat (length l))).
  assert (Hto : take (Z.to_nat (end_ - start)) l = take (Z.to_nat to) l).
  { destruct (decide (end_ - start <= Z.of_nat (length l))); subst to;
      [by rewrite Z.min_l by lia|]. rewrite Z.min_r, !take_ge by lia. done. }
  rewrite Hto. replace (Z.to_nat (offset - start)) with (Z.to_nat from) by lia.
  destruct (Z.ltb_spec from to).
  - rewrite bytes_app, bytes_substring. fold l. rewrite skipn_firstn_comm. f_equal. f_equal. lia.
  - rewrite drop_ge; [by rewrite app_nil_r|]. rewrite length_take. lia.
Qed.

Section ReadFacts.
Context {S : Type}.
Context (relist : FM S (RevisionDto * list BlockDto) ProtonError).
Context (fetch : string -> string -> M S string ProtonError).
Context (targets : BlockTargets) (decrypt_block : string -> result string CryptoError).
Context (plains : list string) (inv : BlockTable * S -> Prop).

(** The storage serves, and the content key opens, the blocks [plains]. *)
Hypothesis Hblocks : forall i p ts, inv ts -> plains !! i = Some p ->
  exists ts', block_plaintext relist fetch targets decrypt_block i ts = Some (Ok p, ts') /\ inv ts'.

Definition plain_size (p : string) : Z := Z.of_nat (String.length p).

Definition whole_file : list ascii := concat (bytes <$> plains).

Lemma sum_sizes_nonneg (ps : list string) : 0 <= sum_Z (plain_size <$> ps).
Proof. apply sum_Z_nonneg, Forall_fmap, Forall_true. intros p. unfold plain_size. simpl. lia. Qed.

Lemma read_blocks_plan ps index start offset end_ out ts :
  inv ts -> (forall i p, ps !! i = Some p -> plains !! (index + i)%nat = Some p) ->
  0 <= start -> start + sum_Z (plain_size <$> ps) < 2 ^ 64 ->
  exists res ts', inv ts' /\
    read_blocks relist fetch targets decrypt_block
      (plan_from index start (plain_size <$> ps) offset end_) offset end_ out ts
    = Some (Ok res, ts') /\
    bytes res = bytes out ++ cut start offset end_ (concat (bytes <$> ps)).
Proof.
  revert index start out ts. induction ps as [|p ps IH]; intros index start out ts Hi Hps Hst Hsum.
  { exists out, ts. split_and!; [done..|]. unfold cut. simpl. by rewrite take_nil, drop_nil, app_nil_r. }
  rewrite !fmap_cons. rewrite fmap_cons in Hsum. cbn [plan_from sum_Z foldr concat] in *. fold (sum_Z (plain_size <$> ps)) in Hsum.
  pose proof (sum_sizes_nonneg ps) as Hn. assert (Hp : 0 <= plain_size p) by (unfold plain_size; lia).
  assert (Hlen : plain_size p = Z.of_nat (length (bytes p)))
    by (unfold plain_size; by rewrite bytes_length).
  destruct (Z.leb_spec end_ start) as [Hend|Hend].
  { exists out, ts. split_and!; [done..|]. by rewrite cut_after, app_nil_r. }
  rewrite wrap_u64_small by lia. rewrite cut_app, <- Hlen, app_assoc.
  assert (Hps' : forall i q, ps !! i = Some q -> plains !! (Datatypes.S index + i)%nat = Some q).
  { intros i q Hq. rewrite <- (Hps (Datatypes.S i) q Hq). f_equal. lia. }
  destruct (Z.ltb_spec offset (start + plain_size p)) as [Hoff|Hoff]; simpl.
  - destruct (Hblocks index p ts Hi) as (ts1 & E & Hi1).
    { rewrite <- (Hps 0%nat p eq_refl). f_equal. lia. }
    unfold fbind. rewrite E. rewrite <- splice_block_cut by done.
    apply IH; [done|done|lia|lia].
  - rewrite (cut_before start) by lia. rewrite app_nil_r. apply IH; [done|done|lia|lia].
Qed.

Lemma whole_file_length : Z.of_nat (length whole_file) = sum_Z (plain_size <$> plains).
Proof.
  unfold whole_file. clear Hblocks. induction plains as [|p ps IH]; [done|]. rewrite !fmap_cons.
  cbn [concat sum_Z foldr]. rewrite length_app, bytes_length.
  change (foldr Z.add 0 (plain_size <$> ps)) with (sum_Z (plain_size <$> ps)).
  rewrite <- IH. unfold plain_size. lia.
Qed.

(** In terms of [cut]. *)
Lemma read_at_cut offset len ts :
  0 <= offset -> 0 <= len -> sum_Z (plain_size <$> plains) < 2 ^ 64 -> inv ts ->
  exists out ts', inv ts' /\
    read_at relist fetch targets decrypt_block (RevisionReader_new (plain_size <$> plains))
      offset len ts = Some (Ok out, ts') /\
    bytes out = cut 0 offset (offset + len) whole_file.
Proof.
  intros Ho Hl Hsum Hi. unfold read_at. cbn [RevisionReader_new rr_file_size rr_block_sizes].
  pose proof (sum_sizes_nonneg plains) as Hn. pose proof whole_file_length as Hw.
  rewrite wrap_u64_small by lia. unfold cut. rewrite !Z.sub_0_r.
  destruct (Z.eqb_spec len 0) as [->|Hlen]; simpl.
  { exists EmptyString, ts. split_and!; [done..|]. rewrite Z.add_0_r. symmetry. apply drop_ge.
    rewrite length_take. lia. }
  destruct (Z.leb_spec (sum_Z (plain_size <$> plains)) offset); simpl.
  { exists EmptyString, ts. split_and!; [done..|]. symmetry. apply drop_ge. rewrite length_take. lia. }
  set (end_ := Z.min (sat_add_u64 offset len) (sum_Z (plain_size <$> plains))).
  destruct (read_blocks_plan plains 0 0 offset end_ EmptyString ts Hi) as (res & ts' & Hi' & E & Hb);
    [done|lia|lia|].
  exists res, ts'. split_and!; [done|exact E|]. rewrite Hb. simpl. unfold cut. rewrite !Z.sub_0_r.
  fold whole_file. f_equal. subst end_. unfold sat_add_u64, u64_max.
  destruct (Z.le_gt_cases (sum_Z (plain_size <$> plains)) (offset + len)).
  - rewrite !take_ge by lia. done.
  - rewrite !Z.min_l by lia. f_equal. lia.
Qed.

(** C6: a read returns exactly the bytes [offset, offset + len) of the file,
    clamped to its end, for every offset and length: when the block sizes are
    those of the blocks and every block is served and opens, no byte is shifted,
    lost or repeated, and blocks outside the range are not needed. *)
Theorem read_at_exact offset len ts :
  0 <= offset -> 0 <= len -> sum_Z (plain_size <$> plains) < 2 ^ 64 -> inv ts ->
  exists out ts', inv ts' /\
    read_at relist fetch targets decrypt_block (RevisionReader_new (plain_size <$> plains))
      offset len ts = Some (Ok out, ts') /\
    bytes out = drop (Z.to_nat offset) (take (Z.to_nat (offset + len)) whole_file).
Proof.
  intros Ho Hl Hsum Hi. destruct (read_at_cut offset len ts Ho Hl Hsum Hi) as (out & ts' & Hi' & E & Hb).
  exists out, ts'. split_and!; [done..|]. rewrite Hb. unfold cut. by rewrite !Z.sub_0_r.
Qed.
End ReadFacts.

(** ** The block table *)

Section TargetFacts.
Context {S : Type}.
Context (relist : FM S (RevisionDto * list BlockDto) ProtonError).
Context (fetch : string -> string -> M S string ProtonError).
Context (targets : BlockTargets).

(** Fetching a block is at most two fetches and one listing: a second fetch,
    with the re-listed URL and token of the same block, happens only after the
    first failed with 401, 403 or 404 and the table was refreshed (or found
    already replaced); any other failure, a failed listing and a changed block
    count are reported as they are, and a block the table lacks costs no
    request. *)
Theorem ciphertext_recovers_once index table s :
  ciphertext relist fetch targets index (table, s) =
  match bt_blocks table !! index with
  | None => ffail (invalid_operation ("block " +:+ pretty (Z.of_nat index)
              +:+ " is missing from revision " +:+ tg_revision_id targets)) (table, s)
  | Some b =>
      match fetch (bl_bare_url b) (bl_token b) s with
      | (Err e, s1) =>
          if (match e with
              | Api a => bool_decide (pe_http_status a ∈ [401; 403; 404])
              | _ => false
              end)
          then match refresh relist targets (bt_generation table) (table, s1) with
               | None => None
               | Some (Err e2, ts2) => Some (Err e2, ts2)
               | Some (Ok _, (table2, s2)) =>
                   match bt_blocks table2 !! index with
                   | None => ffail (invalid_operation ("block " +:+ pretty (Z.of_nat index)
                         +:+ " is missing from revision " +:+ tg_revision_id targets)) (table2, s2)
                   | Some b2 =>
                       let (r, s3) := fetch (bl_bare_url b2) (bl_token b2) s2 in
                       Some (r, (table2, s3))
                   end
               end
          else Some (Err e, (table, s1))
      | (Ok blob, s1) => Some (Ok blob, (table, s1))
      end
  end.
Proof.
  unfold ciphertext, fbind, location. destruct (bt_blocks table !! index) as [b|]; [|done].
  unfold fret, fetch_blob. destruct (fetch _ _ s) as [[blob|e] s1]; [done|].
  assert (He : is_expired_block_url e = match e with
            | Api a => bool_decide (pe_http_status a ∈ [401; 403; 404]) | _ => false end).
  { destruct e as [a| | | | |]; try done. unfold is_expired_block_url.
    destruct (Z.eqb_spec (pe_http_status a) 401), (Z.eqb_spec (pe_http_status a) 403),
      (Z.eqb_spec (pe_http_status a) 404); simpl; symmetry;
      [apply bool_decide_eq_true_2; set_solver..|apply bool_decide_eq_false_2; set_solver]. }
  rewrite He. destruct (match e with Api _ => _ | _ => _ end); [|done].
  destruct (refresh relist targets _ _) as [[[[]|e2] [table2 s2]]|]; [|done..].
  by destruct (bt_blocks table2 !! index).
Qed.

(** Any number of tasks refreshing one after the other, all having seen
    generation [g]; the first error stops the run. *)
Fixpoint refresh_all (n : nat) (g : Z) : FM (BlockTable * S) unit ProtonError :=
  match n with
  | O => fret tt
  | Datatypes.S n => let+ _ := refresh relist targets g in refresh_all n g
  end.

(** A burst of expired URLs re-lists the revision once: when any number of
    tasks that saw the same generation refresh in turn, the outcome and the
    state (so the requests sent) are those of the first refresh alone; it
    installs a table with the expected number of blocks under the next
    generation, or fails and leaves the table as it was. *)
Theorem refresh_burst_one_listing n table s :
  0 <= bt_generation table < u64_max ->
  refresh_all (Datatypes.S n) (bt_generation table) (table, s)
  = refresh relist targets (bt_generation table) (table, s) /\
  match refresh relist targets (bt_generation table) (table, s) with
  | Some (Ok _, (table', _)) =>
      bt_generation table' = bt_generation table + 1 /\
      length (bt_blocks table') = tg_expected_blocks targets
  | Some (Err _, (table', _)) => table' = table
  | None => True
  end.
Proof.
  intros Hg. set (g := bt_generation table).
  assert (Hsame : forall k table' s', bt_generation table' = g + 1 ->
            refresh_all k g (table', s') = Some (Ok tt, (table', s'))).
  { intros k table' s' Ht. induction k as [|k IH]; [done|]. simpl. unfold fbind, refresh.
    rewrite Ht. by destruct (Z.eqb_spec (g + 1) g); [lia|]. }
  cbn [refresh_all]. unfold fbind at 1.
  assert (Hr : match refresh relist targets g (table, s) with
               | Some (Ok _, (table', _)) => bt_generation table' = g + 1 /\
                   length (bt_blocks table') = tg_expected_blocks targets
               | Some (Err _, (table', _)) => table' = table
               | None => True
               end).
  { unfold refresh. fold g. rewrite Z.eqb_refl. simpl.
    destruct (relist s) as [[[[m bs]|e] s1]|]; [|done..].
    destruct (Nat.eqb_spec (length bs) (tg_expected_blocks targets)); [|done]. simpl.
    split; [|done]. fold g. rewrite wrap_u64_small; unfold u64_max in Hg; lia. }
  split; [|exact Hr]. revert Hr.
  destruct (refresh relist targets g (table, s)) as [[[[]|e] [table' s']]|]; [|done..].
  intros [Hr _]. by apply Hsame.
Qed.
End TargetFacts.

(** ** Concrete runs *)

(** Storage over a request counter: URLs minted before the first listing have
    expired. *)
Definition toy_relist : FM nat (RevisionDto * list BlockDto) ProtonError := fun n =>
  Some (Ok (demo_meta, [{| bl_index := 1; bl_bare_url := "new1"; bl_token := "t" |};
                        {| bl_index := 2; bl_bare_url := "new2"; bl_token := "t" |}]%string),
        Datatypes.S n).

Definition toy_expired : ProtonError :=
  Api {| pe_code := ResponseCode.Unknown; pe_http_status := 404; pe_message := "";
         pe_details := None |}.

Definition toy_fetch (url token : string) : M nat string ProtonError := fun n =>
  if String.eqb url "new1" then (Ok "hello "%string, n)
  else if String.eqb url "new2" then (Ok "world"%string, n)
  else (Err toy_expired, n).

Definition toy_targets : BlockTargets :=
  {| tg_uid := NodeUid_new "v" "l"; tg_revision_id := "r"; tg_expected_blocks := 2 |}.

Definition toy_table (prefix : string) (generation : Z) : BlockTable :=
  {| bt_blocks := [{| bl_index := 1; bl_bare_url := prefix +:+ "1"; bl_token := "t" |};
                   {| bl_index := 2; bl_bare_url := prefix +:+ "2"; bl_token := "t" |}];
     bt_generation := generation |}.

Definition toy_inv (ts : BlockTable * nat) : Prop :=
  ts = (toy_table "old" 0, 0%nat) \/ ts = (toy_table "new" 1, 1%nat).

Definition toy_plains : list string := ["hello "; "world"]%string.

Lemma read_at_exact_witness :
  exists out ts',
    read_at toy_relist toy_fetch toy_targets (fun c => Ok c)
      (RevisionReader_new (plain_size <$> toy_plains)) 4 5 (toy_table "old" 0, 0%nat)
    = Some (Ok out, ts') /\ bytes out = bytes "o wor".
Proof.
  destruct (read_at_exact toy_relist toy_fetch toy_targets (fun c => Ok c) toy_plains toy_inv)
    with (offset := 4) (len := 5) (ts := (toy_table "old" 0, 0%nat)) as (out & ts' & _ & E & Hb).
  - intros i p ts [-> | ->] Hp; destruct i as [|[|i]]; simpl in Hp; try discriminate Hp;
      injection Hp as <-; eexists; (split; [vm_compute; reflexivity|]); right; reflexivity.
  - lia.
  - lia.
  - vm_compute. reflexivity.
  - left. reflexivity.
  - exists out, ts'. split; [exact E|]. rewrite Hb. reflexivity.
Defined.

Lemma refresh_burst_one_listing_witness :
  refresh_all toy_relist toy_targets 3 0 (toy_table "old" 0, 0%nat)
  = Some (Ok tt, (toy_table "new" 1, 1%nat)).
Proof.
  destruct (refresh_burst_one_listing toy_relist toy_targets 2 (toy_table "old" 0) 0%nat) as [E _];
    [unfold u64_max; simpl; lia|].
  refine (eq_trans E _). vm_compute. reflexivity.
Defined.
