(* ===== verification/Node.v ===== *)
(** * The decrypted node model

    [node.rs], and the parts of [sharing.rs], [photos.rs], [devices.rs] and
    [crypto/verify.rs] a node is made of: verification outcomes, roles,
    memberships, photo tags and locations, thumbnails.  An [f64] is a
    [SpecFloat.spec_float]. *)

From Stdlib Require Import SpecFloat.
From S2P Require Import Prelude Errors Config Transport Revision.

(** ** Verification outcomes ([crypto/verify.rs]) *)

Inductive VerificationStatus := VOk | NotSigned | NoVerifier | Failed.

Definition VerificationStatus_is_ok (s : VerificationStatus) : bool :=
  match s with VOk => true | _ => false end.

Record NodeVerification := {
  nv_name : VerificationStatus;
  nv_passphrase : VerificationStatus;
  nv_content_key : option VerificationStatus;
  nv_extended_attributes : option VerificationStatus
}.

Definition NodeVerification_default : NodeVerification :=
  {| nv_name := NotSigned; nv_passphrase := NotSigned;
     nv_content_key := None; nv_extended_attributes := None |}.

Definition is_fully_verified (v : NodeVerification) : bool :=
  let ok s := match s with VOk | NotSigned => true | _ => false end in
  let is_none_or o := match o with Some s => ok s | None => true end in
  ok (nv_name v) && ok (nv_passphrase v)
  && is_none_or (nv_content_key v) && is_none_or (nv_extended_attributes v).

(** ** Roles ([sharing.rs]) *)

Inductive MemberRole := Viewer | Editor | Admin | Inherited.

#[global] Instance MemberRole_eq_dec : EqDecision MemberRole.
Proof. solve_decision. Defined.

Definition VIEWER_PERMISSIONS : Z := 4.
Definition EDITOR_PERMISSIONS : Z := 6.
Definition ADMIN_PERMISSIONS : Z := 22.

Definition to_permissions (r : MemberRole) : option Z :=
  match r with
  | Viewer => Some VIEWER_PERMISSIONS
  | Editor => Some EDITOR_PERMISSIONS
  | Admin => Some ADMIN_PERMISSIONS
  | Inherited => None
  end.

Definition from_permissions_exact (permissions : option Z) : option MemberRole :=
  match permissions with
  | None => Some Inherited
  | Some p =>
      if p =? VIEWER_PERMISSIONS then Some Viewer
      else if p =? EDITOR_PERMISSIONS then Some Editor
      else if p =? ADMIN_PERMISSIONS then Some Admin
      else None
  end.

Definition from_permissions (permissions : option Z) : MemberRole :=
  match permissions with
  | None => Inherited
  | Some p =>
      if p =? VIEWER_PERMISSIONS then Viewer
      else if p =? EDITOR_PERMISSIONS then Editor
      else if p =? ADMIN_PERMISSIONS then Admin
      else Viewer
  end.

Record ShareMembership := {
  sm_share_id : string;
  sm_membership_id : string;
  sm_permissions : Z;
  sm_invite_time : option Z;
  sm_inviter_email : option string;
  sm_inviter_verification : option VerificationStatus
}.

Definition membership_role (m : ShareMembership) : MemberRole :=
  from_permissions (Some (sm_permissions m)).
Definition role_exact (m : ShareMembership) : option MemberRole :=
  from_permissions_exact (Some (sm_permissions m)).

Inductive ExternalInvitationState := Pending | UserRegistered.

Definition ExternalInvitationState_from_raw (state : Z) : ExternalInvitationState :=
  if state =? 1 then Pending else UserRegistered.

(** What [Debug] shows for a secret. *)
Definition redacted (secret : option string) : option string :=
  (fun _ => "<redacted>") <$> secret.

(** ** Photos ([photos.rs]) *)

Inductive PhotoTag :=
| Favorite | Screenshot | Video | LivePhoto | MotionPhoto
| Selfie | Portrait | Burst | Panorama | Raw.

Definition PhotoTag_as_i32 (t : PhotoTag) : Z :=
  match t with
  | Favorite => 0 | Screenshot => 1 | Video => 2 | LivePhoto => 3 | MotionPhoto => 4
  | Selfie => 5 | Portrait => 6 | Burst => 7 | Panorama => 8 | Raw => 9
  end.

Definition PhotoTag_from_raw (value : Z) : option PhotoTag :=
  match value with
  | 0 => Some Favorite | 1 => Some Screenshot | 2 => Some Video | 3 => Some LivePhoto
  | 4 => Some MotionPhoto | 5 => Some Selfie | 6 => Some Portrait | 7 => Some Burst
  | 8 => Some Panorama | 9 => Some Raw
  | _ => None
  end.

Record PhotoLocation := { latitude : spec_float; longitude : spec_float }.

(** [90.0] and [180.0] as binary64: 53-bit mantissas. *)
Definition f64_90 (negative : bool) : spec_float := S754_finite negative (90 * 2 ^ 46) (-46).
Definition f64_180 (negative : bool) : spec_float := S754_finite negative (180 * 2 ^ 45) (-45).

(** [(lo..=hi).contains(&x)] *)
Definition f64_within (lo hi x : spec_float) : bool := SFleb lo x && SFleb x hi.

Definition from_claimed (lat lon : option spec_float) : option PhotoLocation :=
  lat ← lat; lon ← lon;
  if f64_within (f64_90 true) (f64_90 false) lat && f64_within (f64_180 true) (f64_180 false) lon
  then Some {| latitude := lat; longitude := lon |}
  else None.

Record PhotoProperties := {
  pp_capture_time : Z;
  pp_content_hash : option string;
  pp_main_photo_uid : option NodeUid;
  pp_related_photo_uids : list NodeUid;
  pp_tags : list PhotoTag;
  pp_album_uids : list NodeUid;
  pp_location : option PhotoLocation
}.

Record AlbumProperties := {
  ap_photo_count : Z;
  ap_cover_photo_uid : option NodeUid;
  ap_last_activity_time : option Z
}.

(** ** Nodes *)

Record FileData := {
  fd_media_type : string;
  fd_total_size_on_storage : Z;
  fd_active_revision_state : option RevisionState;
  fd_active_revision_id : option string;
  fd_claimed_size : option Z;
  fd_claimed_modification_time : option string;
  fd_content_sha1 : option string
}.

Inductive NodeKind := Folder | File (data : FileData).

Record Node := {
  nd_uid : NodeUid;
  nd_parent_uid : option NodeUid;
  nd_kind : NodeKind;
  nd_name : string;
  nd_creation_time : Z;
  nd_modification_time : Z;
  nd_trashed : bool;
  nd_is_shared : bool;
  nd_is_shared_publicly : bool;
  nd_signature_email : option string;
  nd_membership : option ShareMembership;
  nd_direct_role : option MemberRole;
  nd_share_id : option string;
  nd_photo : option PhotoProperties;
  nd_album : option AlbumProperties;
  nd_verification : NodeVerification
}.

Definition is_folder (n : Node) : bool :=
  match nd_kind n with Folder => true | File _ => false end.
Definition is_file (n : Node) : bool :=
  match nd_kind n with File _ => true | Folder => false end.

(** ** Thumbnails *)

Inductive ThumbnailType := TThumbnail | TPreview.

Definition ThumbnailType_as_i32 (t : ThumbnailType) : Z :=
  match t with TThumbnail => 1 | TPreview => 2 end.

Record Thumbnail := { tn_type : ThumbnailType; tn_content : string }.

Definition Thumbnail_new (t : ThumbnailType) (content : string) : Res Thumbnail :=
  if Str.is_empty content then Err (invalid_operation "Thumbnail content must not be empty.")
  else Ok {| tn_type := t; tn_content := content |}.

(** ** Devices ([devices.rs]) *)

Inductive DeviceType := Windows | MacOs | Linux.

Definition DeviceType_as_i32 (t : DeviceType) : Z :=
  match t with Windows => 1 | MacOs => 2 | Linux => 3 end.

Definition DeviceType_from_raw (value : Z) : Res DeviceType :=
  match value with
  | 1 => Ok Windows
  | 2 => Ok MacOs
  | 3 => Ok Linux
  | other => Err (invalid_operation ("unsupported device type " +:+ pretty other))
  end.

Record DeviceMetadata := {
  dm_uid : string;
  dm_device_type : DeviceType;
  dm_root_folder_uid : NodeUid;
  dm_creation_time : Z;
  dm_last_sync_time : option Z;
  dm_has_deprecated_name : bool;
  dm_share_id : string
}.

Record Device := {
  dv_uid : string;
  dv_device_type : DeviceType;
  dv_name : Res string;
  dv_root_folder_uid : NodeUid;
  dv_creation_time : Z;
  dv_last_sync_time : option Z;
  dv_share_id : string
}.

Definition into_device (m : DeviceMetadata) (name : Res string) : Device :=
  {| dv_uid := dm_uid m; dv_device_type := dm_device_type m; dv_name := name;
     dv_root_folder_uid := dm_root_folder_uid m; dv_creation_time := dm_creation_time m;
     dv_last_sync_time := dm_last_sync_time m; dv_share_id := dm_share_id m |}.

(** ** Properties *)

(** Permissions on the wire: every role that can be sent reads back as
    itself, under both decodings; the exact decoding accepts no other mask, and
    never a stronger role than the lenient one, which only ever adds [Viewer]. *)
Theorem role_permissions_roundtrip :
  (forall r, from_permissions_exact (to_permissions r) = Some r /\
             from_permissions (to_permissions r) = r) /\
  (forall p r, from_permissions_exact p = Some r -> to_permissions r = p) /\
  (forall p, from_permissions p = default Viewer (from_permissions_exact p)).
Proof.
  split_and!.
  - by intros [].
  - intros [p|] r; simpl; [|by intros [= <-]].
    destruct (Z.eqb_spec p VIEWER_PERMISSIONS), (Z.eqb_spec p EDITOR_PERMISSIONS),
      (Z.eqb_spec p ADMIN_PERMISSIONS); intros; simplify_eq; done.
  - intros [p|]; simpl; [|done]. by repeat case_match.
Qed.

Lemma PhotoTag_roundtrip t : PhotoTag_from_raw (PhotoTag_as_i32 t) = Some t.
Proof. by destruct t. Qed.
