(* ===== verification/EntityCache.v ===== *)
(** * The Drive entity cache

    [crates/proton-drive-rs/src/cache.rs]: a typed view over a [CacheRepository]
    that stores JSON under stable keys.  Its theorems are proved against
    [KeyValueLaws], what any repository promises about its contents; the
    in-memory repository discharges them.  [serde_json] is [JsonCodec]. *)

From S2P Require Import Prelude Errors Config Srp CacheRepo CacheRepoFacts Transport Revision Node.

(** ** Entities *)

Record CachedNodeInfo := {
  ci_node : Node;
  ci_membership_share_id : option ShareId;
  ci_name_hash_digest : string
}.

(** [serde_json::to_string] and [from_str] at a type. *)
Class JsonCodec (A : Type) := {
  to_json : A -> result string string;
  from_json : string -> result A string
}.

(** The value survives serialization. *)
Definition json_faithful {A} `{JsonCodec A} (a : A) : Prop :=
  exists s, to_json a = Ok s /\ from_json s = Ok a.

Definition CLIENT_UID_KEY : string := "client:id".
Definition MAIN_VOLUME_ID_KEY : string := "volume:main:id".
Definition MY_FILES_SHARE_ID_KEY : string := "share:my-files:id".

Definition node_key (uid : NodeUid) : string := "node:" +:+ NodeUid_display uid.

Section EntityCache.
Context {S : Type} `{CacheRepository S} `{!JsonCodec string} `{!JsonCodec CachedNodeInfo}.

Definition get_json {T} `{JsonCodec T} (key : string) : M S (option T) ProtonError :=
  let* raw := repo_get key in
  match raw with
  | None => mret None
  | Some raw =>
      match from_json raw with
      | Ok value => mret (Some value)
      | Err _ => let* _ := repo_remove key in mret None
      end
  end.

Definition set_json {T} `{JsonCodec T} (key : string) (value : T) : M S unit ProtonError :=
  let* serialized := mlift (map_err Serialization (to_json value)) in
  repo_set key serialized [].

Definition client_uid : M S (option string) ProtonError := repo_get CLIENT_UID_KEY.
Definition set_client_uid (uid : string) : M S unit ProtonError := repo_set CLIENT_UID_KEY uid [].
Definition main_volume_id : M S (option VolumeId) ProtonError := get_json MAIN_VOLUME_ID_KEY.
Definition set_main_volume_id (v : VolumeId) : M S unit ProtonError := set_json MAIN_VOLUME_ID_KEY v.
Definition my_files_share_id : M S (option ShareId) ProtonError := get_json MY_FILES_SHARE_ID_KEY.
Definition set_my_files_share_id (s : ShareId) : M S unit ProtonError :=
  set_json MY_FILES_SHARE_ID_KEY s.

Definition set_node (uid : NodeUid) (node : Node) (membership_share_id : option ShareId)
    (name_hash_digest : string) : M S unit ProtonError :=
  set_json (node_key uid)
    {| ci_node := node; ci_membership_share_id := membership_share_id;
       ci_name_hash_digest := name_hash_digest |}.

Definition try_get_node (uid : NodeUid) : M S (option CachedNodeInfo) ProtonError :=
  get_json (node_key uid).

Definition remove_node (uid : NodeUid) : M S unit ProtonError := repo_remove (node_key uid).

Definition entity_clear : M S unit ProtonError := repo_clear.
End EntityCache.

(** ** What a repository promises about its contents *)

Class KeyValueLaws (S : Type) `{CacheRepository S} := {
  kv_inv : S -> Prop;
  kv_at : S -> string -> option string;
  kv_get s k : kv_inv s -> exists s', repo_get k s = (Ok (kv_at s k), s') /\ kv_inv s' /\
                 forall k', kv_at s' k' = kv_at s k';
  (** a [set] may evict other entries, never alter them *)
  kv_set s k v tags : kv_inv s -> exists s', repo_set k v tags s = (Ok tt, s') /\ kv_inv s' /\
                        kv_at s' k = Some v /\
                        forall k', k' <> k -> kv_at s' k' = kv_at s k' \/ kv_at s' k' = None;
  kv_remove s k : kv_inv s -> exists s', repo_remove k s = (Ok tt, s') /\ kv_inv s' /\
                    forall k', kv_at s' k' = if decide (k' = k) then None else kv_at s k';
  kv_clear s : kv_inv s -> exists s', repo_clear s = (Ok tt, s') /\ kv_inv s' /\
                 forall k, kv_at s' k = None
}.

(** *** The in-memory repository keeps the promise *)

Lemma assoc_get_take {V} k n (l : list (string * V)) :
  assoc_get k (take n l) = assoc_get k l \/ assoc_get k (take n l) = None.
Proof.
  revert n. induction l as [|[a b] l IH]; intros [|n]; simpl; [by left|by left|by right|].
  case_decide; [by left|apply IH].
Qed.

#[export] Program Instance InMemoryKeyValue {L} `{LruLaws L} : KeyValueLaws (InMemoryState L) := {
  kv_inv s := exists cap a, repr cap a s /\ (0 < cap)%nat;
  kv_at s k := assoc_get k (lru_entries (entries s))
}.
Next Obligation.
  intros L ? ? s k (cap & a & Hr & Hc). destruct (repr_get cap k a s Hr) as (s' & E & Hr').
  exists s'. rewrite (repr_entries _ _ _ Hr), assoc_get_fmap. split; [exact E|].
  split; [by exists cap, (spec_op cap (OpGet k) a).2|]. intros k'.
  rewrite (repr_entries _ _ _ Hr'). rewrite !assoc_get_fmap. simpl.
  destruct (assoc_get k a) as [e|] eqn:Ek; [|done]. simpl.
  rewrite assoc_get_del by apply Hr. repeat case_decide; subst; try done. by rewrite Ek.
Qed.
Next Obligation.
  intros L ? ? s k v tags (cap & a & Hr & Hc).
  pose proof (repr_set cap k v tags a s Hr Hc) as Hr'.
  destruct (mem_set k v tags s) as [r s'] eqn:E.
  assert (r = Ok tt) as -> by (unfold mem_set in E; destruct (lru_push _ _ _); by simplify_eq).
  exists s'. split; [exact E|]. simpl in Hr'. split; [by eexists _, _|].
  rewrite (repr_entries _ _ _ Hr'), (repr_entries _ _ _ Hr). destruct cap as [|cap]; [lia|].
  cbn [take]. split.
  - rewrite fmap_cons. simpl. by rewrite decide_True by done.
  - intros k' Hk. rewrite fmap_cons. simpl. rewrite decide_False by done. rewrite !assoc_get_fmap.
    destruct (assoc_get_take k' cap (assoc_del k a)) as [-> | ->]; [left|by right].
    rewrite assoc_get_del by apply Hr. by rewrite decide_False by done.
Qed.
Next Obligation.
  intros L ? ? s k (cap & a & Hr & Hc). exists (drop_key k s). split; [done|].
  pose proof (repr_drop_key cap k a s Hr) as Hr'. split; [by exists cap, (assoc_del k a)|].
  intros k'. rewrite (repr_entries _ _ _ Hr'), (repr_entries _ _ _ Hr), !assoc_get_fmap.
  rewrite assoc_get_del by apply Hr. by case_decide.
Qed.

Next Obligation.
  intros L ? ? s (cap & a & Hr & Hc).
  destruct (run_op_repr cap OpClear a s Hr Hc) as (o & s' & E & _ & Hr').
  exists s'. unfold run_op, mbind_ in E. destruct (repo_clear s) as [[[]|e] s1] eqn:Ec;
    simpl in E; [|done]. injection E as _ ->. split; [done|].
  split; [by exists cap, []|]. intros k. by rewrite (repr_entries _ _ _ Hr').
Qed.

(** ** Keys *)

Inductive entity := EClientUid | EMainVolume | EMyFilesShare | ENode (uid : NodeUid).

Definition entity_key (e : entity) : string :=
  match e with
  | EClientUid => CLIENT_UID_KEY
  | EMainVolume => MAIN_VOLUME_ID_KEY
  | EMyFilesShare => MY_FILES_SHARE_ID_KEY
  | ENode uid => node_key uid
  end.

(** Volume ids are the server's, and contain no tilde. *)
Definition entity_wf (e : entity) : Prop :=
  match e with ENode uid => Str.contains "~" (volume_id uid) = false | _ => True end.

Lemma split_at_tilde v1 l1 v2 l2 :
  Str.contains "~" v1 = false -> Str.contains "~" v2 = false ->
  v1 +:+ "~" +:+ l1 = v2 +:+ "~" +:+ l2 -> v1 = v2 /\ l1 = l2.
Proof.
  revert v2. induction v1 as [|c v1 IH]; intros [|d v2] H1 H2 E.
  - by injection E.
  - change (String "~" l1 = String d (v2 +:+ "~" +:+ l2)) in E. injection E as <- _. done.
  - change (String c (v1 +:+ "~" +:+ l1) = String "~" l2) in E. injection E as -> _. done.
  - change (String c (v1 +:+ "~" +:+ l1) = String d (v2 +:+ "~" +:+ l2)) in E.
    injection E as <- E. simpl in H1, H2. apply orb_false_iff in H1 as [_ H1], H2 as [_ H2].
    by destruct (IH v2 H1 H2 E) as [-> ->].
Qed.

Lemma entity_key_inj e1 e2 :
  entity_wf e1 -> entity_wf e2 -> entity_key e1 = entity_key e2 -> e1 = e2.
Proof.
  destruct e1 as [| | |[v1 l1]], e2 as [| | |[v2 l2]]; simpl; intros W1 W2; try done.
  unfold node_key, NodeUid_display; simpl. intros E.
  assert (E' : v1 +:+ "~" +:+ l1 = v2 +:+ "~" +:+ l2) by by injection E.
  by destruct (split_at_tilde _ _ _ _ W1 W2 E') as [-> ->].
Qed.

(** ** Properties *)

Section EntityFacts.
Context {S : Type} `{KeyValueLaws S} `{!JsonCodec string} `{!JsonCodec CachedNodeInfo}.

Lemma set_json_stores {T} `{JsonCodec T} key (value : T) s :
  kv_inv s -> json_faithful value ->
  exists raw s', set_json key value s = (Ok tt, s') /\ kv_inv s' /\
    from_json raw = Ok value /\ kv_at s' key = Some raw /\
    forall k', k' <> key -> kv_at s' k' = kv_at s k' \/ kv_at s' k' = None.
Proof.
  intros Hi (raw & E1 & E2). destruct (kv_set s key raw [] Hi) as (s' & E & Hi' & Hk & Ho).
  exists raw, s'. split_and!; [|done..]. unfold set_json, mlift, mbind_. rewrite E1. exact E.
Qed.

Lemma get_json_spec {T} `{JsonCodec T} key s :
  kv_inv s ->
  exists s', get_json (T := T) key s
             = (Ok (raw ← kv_at s key; ok (from_json raw)), s') /\ kv_inv s' /\
    forall k', kv_at s' k' = (if decide (k' = key)
                              then raw ← kv_at s key; if is_ok (from_json (A := T) raw)
                                                      then Some raw else None
                              else kv_at s k').
Proof.
  intros Hi. destruct (kv_get s key Hi) as (s1 & E1 & Hi1 & Hs1).
  unfold get_json. rewrite (mbind_ok _ _ _ _ _ E1). destruct (kv_at s key) as [raw|] eqn:Ek; simpl.
  - destruct (from_json raw) as [v|e] eqn:Ev; simpl.
    + exists s1. split_and!; [done..|]. intros k'. rewrite Hs1. case_decide; by subst.
    + destruct (kv_remove s1 key Hi1) as (s2 & E2 & Hi2 & Hs2). rewrite (mbind_ok _ _ _ _ _ E2).
      exists s2. split_and!; [done..|]. intros k'. rewrite Hs2, Hs1. done.
  - exists s1. split_and!; [done..|]. intros k'. rewrite Hs1. case_decide; by subst.
Qed.

(** A cached node reads back as it was stored, together with its membership
    share and name hash, until it is removed; storing it may evict other
    entities but never alters or invents one, because no two entities share a
    key.  This holds over every repository that keeps [KeyValueLaws]. *)
Theorem entity_cache_node_roundtrip uid node share digest s :
  let info := {| ci_node := node; ci_membership_share_id := share;
                 ci_name_hash_digest := digest |} in
  kv_inv s -> entity_wf (ENode uid) -> json_faithful info ->
  exists s1, set_node uid node share digest s = (Ok tt, s1) /\
    (exists s2, try_get_node uid s1 = (Ok (Some info), s2) /\
                forall k, kv_at s2 k = kv_at s1 k) /\
    (exists s2 s3, remove_node uid s1 = (Ok tt, s2) /\ try_get_node uid s2 = (Ok None, s3)) /\
    (forall e, entity_wf e -> e <> ENode uid ->
       kv_at s1 (entity_key e) = kv_at s (entity_key e) \/ kv_at s1 (entity_key e) = None).
Proof.
  intros info Hi Hw Hj.
  destruct (set_json_stores (node_key uid) info s Hi Hj) as (raw & s1 & E1 & Hi1 & Hraw & Hk & Ho).
  exists s1. split_and!; [exact E1| | |].
  - destruct (get_json_spec (T := CachedNodeInfo) (node_key uid) s1 Hi1) as (s2 & E2 & _ & Hs2).
    exists s2. unfold try_get_node. rewrite E2, Hk. simpl. rewrite Hraw. split; [done|].
    intros k. rewrite Hs2, Hk. simpl. rewrite Hraw. simpl. case_decide; by subst.
  - destruct (kv_remove s1 (node_key uid) Hi1) as (s2 & E2 & Hi2 & Hs2).
    destruct (get_json_spec (T := CachedNodeInfo) (node_key uid) s2 Hi2) as (s3 & E3 & _).
    exists s2, s3. split; [exact E2|]. unfold try_get_node. rewrite E3, Hs2.
    by rewrite decide_True by done.
  - intros e We Hne. apply Ho. intros Heq. apply Hne. by apply entity_key_inj.
Qed.

(** A malformed entry is a miss: reading it answers nothing, evicts exactly
    that entry and leaves every other entry as it was, so the next read is an
    ordinary miss. *)
Theorem malformed_entry_is_evicted uid raw e s :
  kv_inv s -> kv_at s (node_key uid) = Some raw -> from_json (A := CachedNodeInfo) raw = Err e ->
  exists s', try_get_node uid s = (Ok None, s') /\ kv_at s' (node_key uid) = None /\
    forall k, k <> node_key uid -> kv_at s' k = kv_at s k.
Proof.
  intros Hi Hk He. unfold try_get_node.
  destruct (get_json_spec (T := CachedNodeInfo) (node_key uid) s Hi) as (s' & E & _ & Hs).
  exists s'. rewrite E, Hk. simpl. rewrite He. split_and!; [done| |].
  - rewrite Hs, decide_True by done. rewrite Hk. simpl. by rewrite He.
  - intros k Hne. by rewrite Hs, decide_False by done.
Qed.
End EntityFacts.

(** ** Witnesses *)

Definition demo_uid : NodeUid := NodeUid_new "vol" "link".

Definition demo_node : Node :=
  {| nd_uid := demo_uid; nd_parent_uid := None; nd_kind := Folder; nd_name := "Docs";
     nd_creation_time := 1; nd_modification_time := 2; nd_trashed := false;
     nd_is_shared := false; nd_is_shared_publicly := false; nd_signature_email := None;
     nd_membership := None; nd_direct_role := None; nd_share_id := None; nd_photo := None;
     nd_album := None; nd_verification := NodeVerification_default |}.

Definition demo_info : CachedNodeInfo :=
  {| ci_node := demo_node; ci_membership_share_id := Some "share-1"%string;
     ci_name_hash_digest := "abc123" |}.

(** A codec that knows one document. *)
#[export] Instance demo_json : JsonCodec CachedNodeInfo := {
  to_json _ := Ok "{Docs}"%string;
  from_json s := if String.eqb s "{Docs}" then Ok demo_info else Err "expected value"%string
}.

#[export] Instance string_json : JsonCodec string := { to_json s := Ok s; from_json s := Ok s }.

Lemma with_capacity_inv n : kv_inv (with_capacity n : InMemoryState list_lru).
Proof. exists (Nat.max 1 n), []. split; [apply repr_with_capacity|lia]. Qed.

Lemma entity_cache_node_roundtrip_witness :
  exists s1 s2,
    set_node demo_uid demo_node (Some "share-1"%string) "abc123"
      (with_capacity 8 : InMemoryState list_lru) = (Ok tt, s1) /\
    try_get_node demo_uid s1 = (Ok (Some demo_info), s2).
Proof.
  destruct (entity_cache_node_roundtrip demo_uid demo_node (Some "share-1"%string) "abc123"
              (with_capacity 8 : InMemoryState list_lru)) as (s1 & E1 & (s2 & E2 & _) & _).
  - apply with_capacity_inv.
  - reflexivity.
  - exists "{Docs}"%string. split; reflexivity.
  - exists s1, s2. split; [exact E1|exact E2].
Defined.

Lemma malformed_entry_is_evicted_witness :
  exists s s', repo_set (node_key demo_uid) "not json" [] (with_capacity 8 : InMemoryState list_lru)
               = (Ok tt, s) /\
    try_get_node demo_uid s = (Ok None, s') /\ kv_at s' (node_key demo_uid) = None.
Proof.
  destruct (kv_set (with_capacity 8 : InMemoryState list_lru) (node_key demo_uid) "not json" []
              (with_capacity_inv 8)) as (s & E & Hi & Hk & _).
  assert (He : from_json (A := CachedNodeInfo) "not json" = Err "expected value"%string)
    by (vm_compute; reflexivity).
  destruct (malformed_entry_is_evicted demo_uid "not json" "expected value" s Hi Hk He)
    as (s' & E' & Hn & _).
  exists s, s'. split; [exact E|]. split; [exact E'|exact Hn].
Defined.
