(* ===== verification/Events.v ===== *)
(** * Remote events and the managed poll loop

    [events.rs], [event_manager.rs], and from [client.rs] the mapping of wire
    events, the draining enumeration and the cache invalidation.  The network
    is the two calls of [EventApi]; the client's caches are [EventCaches].
    [EventManager::run] never returns, so it is modelled one turn at a time. *)

From S2P Require Import Prelude Errors Config Http Srp CacheRepo CacheRepoFacts Transport Revision.
From S2P Require Import Node EntityCache.

(** ** Events *)

Inductive DriveEvent :=
| NodeUpdated (id : DriveEventId) (node_uid : NodeUid) (parent_node_uid : option NodeUid)
              (is_trashed is_shared : bool)
| NodeDeleted (id : DriveEventId) (node_uid : NodeUid) (parent_node_uid : option NodeUid)
| CursorAdvanced (id : DriveEventId)
| ContinuityLost (id : DriveEventId)
| ScopeAccessLost (id : DriveEventId)
| SharedWithMeUpdated (id : DriveEventId).

Definition event_id (e : DriveEvent) : DriveEventId :=
  match e with
  | NodeUpdated id _ _ _ _ | NodeDeleted id _ _ | CursorAdvanced id
  | ContinuityLost id | ScopeAccessLost id | SharedWithMeUpdated id => id
  end.

Record VolumeEventLinkDto := {
  vel_id : LinkId;
  vel_parent_id : option LinkId;
  vel_is_shared : bool;
  vel_is_trashed : bool
}.

Record VolumeEventDto := {
  ve_id : DriveEventId;
  ve_event_type : Z;
  ve_link : VolumeEventLinkDto
}.

Record VolumeEventListResponse := {
  vp_last_event_id : DriveEventId;
  vp_events : list VolumeEventDto;
  vp_more_entries_exist : bool;
  vp_refresh_required : bool
}.

Definition to_drive_event (volume_id : VolumeId) (event : VolumeEventDto) : Res DriveEvent :=
  let node_uid := NodeUid_new volume_id (vel_id (ve_link event)) in
  let parent_node_uid := NodeUid_new volume_id <$> vel_parent_id (ve_link event) in
  let t := ve_event_type event in
  if (1 <=? t) && (t <=? 3)
  then Ok (NodeUpdated (ve_id event) node_uid parent_node_uid
             (vel_is_trashed (ve_link event)) (vel_is_shared (ve_link event)))
  else if t =? 0 then Ok (NodeDeleted (ve_id event) node_uid parent_node_uid)
  else Err (invalid_operation ("unknown volume event type " +:+ pretty t)).

(** The [for] loop over a page. *)
Fixpoint map_events (volume_id : VolumeId) (events : list VolumeEventDto) : Res (list DriveEvent) :=
  match events with
  | [] => Ok []
  | e :: events =>
      let? d := to_drive_event volume_id e in
      let? ds := map_events volume_id events in
      Ok (d :: ds)
  end.

(** ** Enumeration *)

Class EventApi (S : Type) := {
  latest_event_id : VolumeId -> M S DriveEventId ProtonError;
  events_page : VolumeId -> DriveEventId -> M S VolumeEventListResponse ProtonError
}.

(** The client's own calls. *)
Definition EventApi_http {W} `{HttpWorld W} `{HttpCodec} (c : ApiHttpClient)
    (decode_latest : string -> result DriveEventId string)
    (decode_page : string -> result VolumeEventListResponse string)
  : EventApi (client_state W) := {|
  latest_event_id v := http_get c ("volumes/" +:+ v +:+ "/events/latest") decode_latest;
  events_page v cursor := http_get c ("v2/volumes/" +:+ v +:+ "/events/" +:+ cursor) decode_page
|}.

Section Enumerate.
Context {S : Type} `{EventApi S}.

(** The paging loop; the fuel is a number of pages. *)
Fixpoint drain_events (fuel : nat) (volume_id : VolumeId) (cursor : DriveEventId)
    (events : list DriveEvent) : FM S (list DriveEvent) ProtonError :=
  match fuel with
  | O => fun _ => None
  | Datatypes.S fuel =>
      let+ page := flift (events_page volume_id cursor) in
      if vp_refresh_required page
      then fret (events ++ [ContinuityLost (vp_last_event_id page)])
      else match vp_events page with
           | [] => fret (if String.eqb (vp_last_event_id page) cursor then events
                         else events ++ [CursorAdvanced (vp_last_event_id page)])
           | dtos =>
               let+ mapped := flift (mlift (map_events volume_id dtos)) in
               if negb (vp_more_entries_exist page) then fret (events ++ mapped)
               else drain_events fuel volume_id (vp_last_event_id page) (events ++ mapped)
           end
  end.

Definition enumerate_events (fuel : nat) (volume_id : VolumeId) (cursor : option DriveEventId)
  : FM S (list DriveEvent) ProtonError :=
  match cursor with
  | None => let+ id := flift (latest_event_id volume_id) in fret [CursorAdvanced id]
  | Some cursor => drain_events fuel volume_id cursor []
  end.
End Enumerate.

(** ** Cache invalidation *)

(** The parts of the client's state an event touches: the two bounded maps by
    their contents ([DriveCache]) and the entity cache's repository.  [Key] is
    an unlocked folder key. *)
Record EventCaches (Key S : Type) := {
  folder_keys : gmap NodeUid Key;
  context_share_ids : gmap NodeUid ShareId;
  entities : S
}.
Arguments folder_keys {Key S}. Arguments context_share_ids {Key S}. Arguments entities {Key S}.

Section Invalidate.
Context {Key S : Type} `{CacheRepository S}.

Definition on_entities {A} (m : M S A ProtonError) : M (EventCaches Key S) A ProtonError :=
  fun c => let (r, s) := m (entities c) in
           (r, {| folder_keys := folder_keys c; context_share_ids := context_share_ids c;
                  entities := s |}).

Definition with_folder_keys (f : gmap NodeUid Key -> gmap NodeUid Key) (c : EventCaches Key S)
  : EventCaches Key S :=
  {| folder_keys := f (folder_keys c); context_share_ids := context_share_ids c;
     entities := entities c |}.

Definition clear_context_shares (c : EventCaches Key S) : EventCaches Key S :=
  {| folder_keys := folder_keys c; context_share_ids := ∅; entities := entities c |}.

Definition invalidate_caches_for_event (event : DriveEvent)
  : M (EventCaches Key S) unit ProtonError :=
  match event with
  | NodeUpdated _ node_uid _ _ _ | NodeDeleted _ node_uid _ =>
      let* _ := mmodify (with_folder_keys (delete node_uid)) in
      let* _ := mmodify clear_context_shares in
      on_entities (remove_node node_uid)
  | ContinuityLost _ | ScopeAccessLost _ =>
      let* _ := mmodify (with_folder_keys (fun _ => ∅)) in
      let* _ := mmodify clear_context_shares in
      on_entities entity_clear
  | SharedWithMeUpdated _ => mmodify clear_context_shares
  | CursorAdvanced _ => mret tt
  end.
End Invalidate.

(** ** The poll loop *)

Definition DEFAULT_FOREGROUND_INTERVAL : Z := Duration.from_secs 30.
Definition DEFAULT_BACKGROUND_INTERVAL : Z := Duration.from_secs (10 * 60).
Definition RETRY_MIN : Z := Duration.from_secs 1.

Record EventManagerConfig := {
  foreground_interval : Z;
  background_interval : Z;
  channel_capacity : nat
}.

Definition EventManagerConfig_default : EventManagerConfig :=
  {| foreground_interval := DEFAULT_FOREGROUND_INTERVAL;
     background_interval := DEFAULT_BACKGROUND_INTERVAL;
     channel_capacity := 256 |}.

Class CursorStore (C : Type) := {
  cursor_load : M C (option DriveEventId) ProtonError;
  cursor_save : DriveEventId -> M C unit ProtonError
}.

#[export] Instance MemoryCursorStore : CursorStore (option DriveEventId) := {
  cursor_load := mget;
  cursor_save cursor := mmodify (fun _ => Some cursor)
}.

(** What the manager does to the outside, in order; a published event stands with
    the caches as its subscribers find them. *)
Inductive effect (Key S : Type) :=
| Slept (d : Z)
| Published (e : DriveEvent) (caches : EventCaches Key S)
| Saved (cursor : DriveEventId).
Arguments Slept {Key S}. Arguments Published {Key S}. Arguments Saved {Key S}.

Record ManagerState (N Key S C : Type) := {
  ms_net : N;
  ms_caches : EventCaches Key S;
  ms_store : C;
  ms_foreground : bool;
  ms_log : list (effect Key S)
}.
Arguments ms_net {N Key S C}. Arguments ms_caches {N Key S C}. Arguments ms_store {N Key S C}.
Arguments ms_foreground {N Key S C}. Arguments ms_log {N Key S C}.

(** [with_config] and [new]: the manager, in the foreground, and the room of its
    broadcast channel. *)
Definition EventManager_with_config {N Key S C} (net : N) (caches : EventCaches Key S) (store : C)
    (config : EventManagerConfig) : ManagerState N Key S C * nat :=
  ({| ms_net := net; ms_caches := caches; ms_store := store; ms_foreground := true; ms_log := [] |},
   Nat.max (channel_capacity config) 1).

Definition EventManager_new {N Key S C} (net : N) (caches : EventCaches Key S) (store : C)
  : ManagerState N Key S C * nat :=
  EventManager_with_config net caches store EventManagerConfig_default.

Section Manager.
Context {N Key S C : Type} `{EventApi N} `{CacheRepository S} `{CursorStore C}.
Context (fuel : nat) (scope : VolumeId) (config : EventManagerConfig).
Implicit Types (m : ManagerState N Key S C).

Definition emit (es : list (effect Key S)) m : ManagerState N Key S C :=
  {| ms_net := ms_net m; ms_caches := ms_caches m; ms_store := ms_store m;
     ms_foreground := ms_foreground m; ms_log := ms_log m ++ es |}.

Definition set_foreground (foreground : bool) m : ManagerState N Key S C :=
  {| ms_net := ms_net m; ms_caches := ms_caches m; ms_store := ms_store m;
     ms_foreground := foreground; ms_log := ms_log m |}.

Definition current_interval m : Z :=
  if ms_foreground m then foreground_interval config else background_interval config.

(** [enumerate_events] on the client; [None] when the paging fuel runs out. *)
Definition poll (cursor : option DriveEventId) m
  : option (result (list DriveEvent) ProtonError * ManagerState N Key S C) :=
  match enumerate_events fuel scope cursor (ms_net m) with
  | None => None
  | Some (r, n) =>
      Some (r, {| ms_net := n; ms_caches := ms_caches m; ms_store := ms_store m;
                  ms_foreground := ms_foreground m; ms_log := ms_log m |})
  end.

(** [store.save(cursor)]; a failure is logged and dropped. *)
Definition save_cursor (cursor : DriveEventId) m : ManagerState N Key S C :=
  let (r, c) := cursor_save cursor (ms_store m) in
  let m := {| ms_net := ms_net m; ms_caches := ms_caches m; ms_store := c;
              ms_foreground := ms_foreground m; ms_log := ms_log m |} in
  match r with Ok _ => emit [Saved cursor] m | Err _ => m end.

Definition save_last (events : list DriveEvent) m : option DriveEventId * ManagerState N Key S C :=
  match last events with
  | Some e => (Some (event_id e), save_cursor (event_id e) m)
  | None => (None, m)
  end.

(** The retry loop of [resolve_start_cursor]; the fuel is a number of attempts. *)
Fixpoint seed_loop (attempts : nat) (delay : Z) m
  : option (option DriveEventId * ManagerState N Key S C) :=
  match attempts with
  | O => None
  | Datatypes.S attempts =>
      match poll None m with
      | None => None
      | Some (Ok events, m) => Some (save_last events m)
      | Some (Err _, m) =>
          seed_loop attempts (Z.min (delay * 2) (background_interval config)) (emit [Slept delay] m)
      end
  end.

Definition resolve_start_cursor (attempts : nat) m
  : option (option DriveEventId * ManagerState N Key S C) :=
  let (loaded, c) := cursor_load (ms_store m) in
  let m := {| ms_net := ms_net m; ms_caches := ms_caches m; ms_store := c;
              ms_foreground := ms_foreground m; ms_log := ms_log m |} in
  match loaded with
  | Ok (Some cursor) => Some (Some cursor, m)
  | _ => seed_loop attempts RETRY_MIN m
  end.

(** [events_tx.send(event)] *)
Definition publish (e : DriveEvent) m : ManagerState N Key S C := emit [Published e (ms_caches m)] m.

(** The [for event in &events] body: an invalidation that fails is logged only. *)
Definition apply_event (e : DriveEvent) m : ManagerState N Key S C :=
  let (_, caches) := invalidate_caches_for_event e (ms_caches m) in
  publish e {| ms_net := ms_net m; ms_caches := caches; ms_store := ms_store m;
               ms_foreground := ms_foreground m; ms_log := ms_log m |}.

(** One turn of the loop of [run], on its local [cursor] and [retry]. *)
Definition poll_turn (cursor : option DriveEventId) (retry : Z) m
  : option (option DriveEventId * Z * ManagerState N Key S C) :=
  let m := emit [Slept (current_interval m)] m in
  match poll cursor m with
  | None => None
  | Some (Err _, m) =>
      Some (cursor, Z.min (retry * 2) (current_interval m), emit [Slept retry] m)
  | Some (Ok [], m) => Some (cursor, RETRY_MIN, m)
  | Some (Ok events, m) =>
      let m := fold_left (fun m e => apply_event e m) events m in
      let (cursor, m) := save_last events m in
      Some (cursor, RETRY_MIN, m)
  end.

(** The first [turns] turns of the loop. *)
Fixpoint run_turns (turns : nat) (cursor : option DriveEventId) (retry : Z) m
  : option (option DriveEventId * Z * ManagerState N Key S C) :=
  match turns with
  | O => Some (cursor, retry, m)
  | Datatypes.S turns =>
      match poll_turn cursor retry m with
      | None => None
      | Some (cursor, retry, m) => run_turns turns cursor retry m
      end
  end.

(** [run], cut after [turns] turns. *)
Definition run (attempts turns : nat) m
  : option (option DriveEventId * Z * ManagerState N Key S C) :=
  match resolve_start_cursor attempts m with
  | None => None
  | Some (cursor, m) => run_turns turns cursor RETRY_MIN m
  end.
End Manager.
