(* ===== verification/EventsFacts.v ===== *)
(** * Facts about events and the poll loop *)

From S2P Require Import Prelude Errors Config Http Srp CacheRepo CacheRepoFacts Transport Revision.
From S2P Require Import Node EntityCache Events.

(** ** Invalidation *)

Section InvalidateFacts.
Context {Key S : Type} `{KeyValueLaws S}.
Implicit Types (c : EventCaches Key S).

(** What a cached entry of node [uid] looks like from outside. *)
Definition holds_nothing_of (uid : NodeUid) c : Prop :=
  folder_keys c !! uid = None /\ kv_at (entities c) (node_key uid) = None.

(** After an event is applied, nothing it made stale is served: an updated or
    deleted node has no folder key and no entity entry left, a lost continuity
    or scope leaves no folder key and no entity at all, and each of these (and a
    shared-with-me change) leaves no context-share mapping; state the event does
    not concern is untouched, and a cursor event changes nothing. *)
Theorem event_invalidates (event : DriveEvent) c :
  kv_inv (entities c) ->
  exists c', invalidate_caches_for_event event c = (Ok tt, c') /\ kv_inv (entities c') /\
  match event with
  | NodeUpdated _ uid _ _ _ | NodeDeleted _ uid _ =>
      holds_nothing_of uid c' /\ context_share_ids c' = ∅ /\
      (forall u, u <> uid -> folder_keys c' !! u = folder_keys c !! u) /\
      (forall k, k <> node_key uid -> kv_at (entities c') k = kv_at (entities c) k)
  | ContinuityLost _ | ScopeAccessLost _ =>
      (forall uid, holds_nothing_of uid c') /\ context_share_ids c' = ∅ /\
      (forall k, kv_at (entities c') k = None)
  | SharedWithMeUpdated _ =>
      context_share_ids c' = ∅ /\ folder_keys c' = folder_keys c /\ entities c' = entities c
  | CursorAdvanced _ => c' = c
  end.
Proof.
  intros Hi.
  assert (Hnode : forall uid, exists c',
    (let* _ := mmodify (with_folder_keys (delete uid)) in
     let* _ := mmodify clear_context_shares in
     on_entities (remove_node uid)) c = (@Ok unit ProtonError tt, c') /\ kv_inv (entities c') /\
    holds_nothing_of uid c' /\ context_share_ids c' = ∅ /\
    (forall u, u <> uid -> folder_keys c' !! u = folder_keys c !! u) /\
    (forall k, k <> node_key uid -> kv_at (entities c') k = kv_at (entities c) k)).
  { intros uid. destruct (kv_remove (entities c) (node_key uid) Hi) as (s' & E & Hi' & Hs).
    unfold mbind_, mmodify, on_entities, remove_node. simpl. rewrite E.
    eexists. split; [done|]. simpl. split; [done|]. unfold holds_nothing_of. simpl.
    split_and!; [apply lookup_delete_eq|by rewrite Hs, decide_True by done|done| |].
    - intros u Hu. by rewrite lookup_delete_ne.
    - intros k Hk. by rewrite Hs, decide_False by done. }
  assert (Hall : exists c',
    (let* _ := mmodify (with_folder_keys (fun _ => ∅)) in
     let* _ := mmodify clear_context_shares in
     on_entities entity_clear) c = (@Ok unit ProtonError tt, c') /\ kv_inv (entities c') /\
    (forall uid, holds_nothing_of uid c') /\ context_share_ids c' = ∅ /\
    (forall k, kv_at (entities c') k = None)).
  { destruct (kv_clear (entities c) Hi) as (s' & E & Hi' & Hs).
    unfold mbind_, mmodify, on_entities, entity_clear. simpl. rewrite E.
    eexists. split; [done|]. simpl. split; [done|]. unfold holds_nothing_of. simpl. split_and!;
      [|done|done]. intros uid. split; [apply lookup_empty|apply Hs]. }
  destruct event; simpl; [apply Hnode|apply Hnode| |exact Hall|exact Hall|].
  - by exists c.
  - eexists. split; [reflexivity|]. by split.
Qed.
End InvalidateFacts.

(** ** Enumeration *)

(** The event a wire event stands for; the fallback is never used on the types
    [to_drive_event] knows. *)
Definition event_of (v : VolumeId) (e : VolumeEventDto) : DriveEvent :=
  match to_drive_event v e with Ok d => d | Err _ => CursorAdvanced (ve_id e) end.

Definition known_type (e : VolumeEventDto) : Prop := 0 <= ve_event_type e <= 3.

Lemma event_of_id v e : event_id (event_of v e) = ve_id e.
Proof.
  unfold event_of, to_drive_event. destruct (_ && _); [done|]. by destruct (_ =? _).
Qed.

Lemma to_drive_event_known v e : known_type e -> to_drive_event v e = Ok (event_of v e).
Proof.
  intros Hk. unfold known_type in Hk. unfold event_of. unfold to_drive_event.
  destruct (Z.leb_spec 1 (ve_event_type e)), (Z.leb_spec (ve_event_type e) 3); simpl; [done|lia| |lia].
  destruct (Z.eqb_spec (ve_event_type e) 0); [done|lia].
Qed.

Lemma map_events_known v es : Forall known_type es -> map_events v es = Ok (event_of v <$> es).
Proof.
  induction 1 as [|e es Hk _ IH]; [done|]. cbn [map_events].
  rewrite to_drive_event_known by done. simpl. by rewrite IH.
Qed.

Section EnumerateFacts.
Context {N : Type} `{EventApi N}.
Context (v : VolumeId) (c0 : DriveEventId) (log : list VolumeEventDto) (inv : N -> Prop).

(** The cursor after the first [i] events of the volume's log. *)
Definition cursor_at (i : nat) : DriveEventId :=
  match i with O => c0 | Datatypes.S j => from_option ve_id c0 (log !! j) end.

(** The server pages its log: from a cursor, some of the following events, at
    least one while there are any. *)
Definition serves_log : Prop :=
  forall i n, (i <= length log)%nat -> inv n -> exists n' k,
    (i + k <= length log)%nat /\ (k = 0%nat -> i = length log) /\ inv n' /\
    events_page v (cursor_at i) n
    = (Ok {| vp_last_event_id := cursor_at (i + k); vp_events := take k (drop i log);
             vp_more_entries_exist := bool_decide (i + k < length log)%nat;
             vp_refresh_required := false |}, n').

Hypothesis Hserves : serves_log.
Hypothesis Hknown : Forall known_type log.

Lemma drain_events_complete fuel i acc n :
  (i <= length log)%nat -> (length log - i < fuel)%nat -> inv n ->
  exists n', inv n' /\
    drain_events fuel v (cursor_at i) acc n
    = Some (Ok (acc ++ (event_of v <$> drop i log)), n').
Proof.
  revert i acc n. induction fuel as [|fuel IH]; intros i acc n Hi Hf Hn; [lia|].
  destruct (Hserves i n Hi Hn) as (n' & k & Hk & Hz & Hn' & E).
  cbn [drain_events]. unfold fbind at 1, flift at 1. rewrite E. cbn [vp_refresh_required vp_events
    vp_last_event_id vp_more_entries_exist].
  assert (Hd : drop i log = take k (drop i log) ++ drop (i + k) log)
    by (by rewrite <- drop_drop, take_drop).
  destruct (take k (drop i log)) as [|e es] eqn:Et.
  - assert (k = 0)%nat as ->.
    { destruct k; [done|]. apply (f_equal length) in Et. rewrite length_take, length_drop in Et.
      cbn [length] in Et. lia. }
    specialize (Hz eq_refl). subst i. rewrite Nat.add_0_r, String.eqb_refl.
    exists n'. split; [done|]. by rewrite drop_all, app_nil_r.
  - assert (Hke : Forall known_type (e :: es)).
    { rewrite <- Et. by apply Forall_take, Forall_drop. }
    unfold fbind, flift, mlift. rewrite (map_events_known v _ Hke).
    assert (k <> 0)%nat by (intros ->; by rewrite take_0 in Et).
    destruct (decide (i + k < length log)%nat) as [Hm|Hm].
    + rewrite bool_decide_eq_true_2 by done. cbn [negb].
      destruct (IH (i + k)%nat (acc ++ (event_of v <$> e :: es)) n') as (n2 & Hn2 & E2);
        [lia|lia|done|].
      exists n2. split; [done|]. rewrite E2, Hd, fmap_app. by rewrite app_assoc.
    + rewrite bool_decide_eq_false_2 by done. cbn [negb]. exists n'. split; [done|].
      rewrite Hd. rewrite (drop_ge log) by lia. by rewrite app_nil_r.
Qed.

(** The cursor a consumer persists after a stretch of the log. *)
Lemma last_event_cursor i j :
  (i <= j <= length log)%nat ->
  from_option event_id (cursor_at i) (last (event_of v <$> take (j - i) (drop i log))) = cursor_at j.
Proof.
  intros Hij. rewrite fmap_last, last_lookup, length_take, length_drop.
  destruct (decide (i = j)) as [->|Hne].
  - replace (j - j)%nat with 0%nat by lia. by rewrite take_0.
  - rewrite lookup_take_lt by lia. rewrite lookup_drop.
    destruct j as [|j]; [lia|].
    replace (i + Nat.pred (Nat.min (Datatypes.S j - i) (length log - i)))%nat with j by lia.
    simpl. destruct (log !! j) as [e|] eqn:Ej; simpl; [apply event_of_id|].
    apply lookup_ge_None in Ej. lia.
Qed.

(** Draining from any cursor of the volume's log terminates and returns
    exactly the events after it, each once and in order, however the server
    splits them into pages; the last event's id is the cursor of the log's end,
    and draining again from there returns nothing. *)
Theorem enumerate_events_complete fuel i n :
  (i <= length log)%nat -> (length log < fuel)%nat -> inv n ->
  exists n' n'',
    enumerate_events fuel v (Some (cursor_at i)) n
    = Some (Ok (event_of v <$> drop i log), n') /\
    from_option event_id (cursor_at i) (last (event_of v <$> drop i log))
    = cursor_at (length log) /\
    enumerate_events fuel v (Some (cursor_at (length log))) n' = Some (Ok [], n'').
Proof.
  intros Hi Hf Hn. destruct (drain_events_complete fuel i [] n) as (n' & Hn' & E); [lia|lia|done|].
  destruct (drain_events_complete fuel (length log) [] n') as (n'' & _ & E'); [lia|lia|done|].
  exists n', n''. simpl in *. rewrite drop_all in E'. split_and!; [exact E| |exact E'].
  rewrite <- (last_event_cursor i (length log)) by lia. by rewrite take_ge by (rewrite length_drop; lia).
Qed.
End EnumerateFacts.

(** ** The poll loop *)

(** What the poll loop needs of the entity cache's repository: a removal or a clearing
    that succeeds leaves nothing behind.  It may fail. *)
Class RemovalLaws (S : Type) `{CacheRepository S} := {
  rm_inv : S -> Prop;
  rm_at : S -> string -> option string;
  rm_remove s k : rm_inv s -> rm_inv (repo_remove k s).2 /\
    ((repo_remove k s).1 = Ok tt -> rm_at (repo_remove k s).2 k = None);
  rm_clear s : rm_inv s -> rm_inv (repo_clear s).2 /\
    ((repo_clear s).1 = Ok tt -> forall k, rm_at (repo_clear s).2 k = None)
}.

#[export] Instance key_value_removal {S} `{KeyValueLaws S} : RemovalLaws S.
Proof.
  refine {| rm_inv := kv_inv; rm_at := kv_at |}.
  - intros s k Hi. destruct (kv_remove s k Hi) as (s' & -> & Hi' & Hs). split; [done|]. intros _. simpl.
    by rewrite Hs, decide_True.
  - intros s Hi. destruct (kv_clear s Hi) as (s' & -> & Hi' & Hs). done.
Defined.

Section Stale.
Context {Key S : Type} `{RemovalLaws S}.

(** The caches [c] serve nothing that [e] made stale; an entry of the entity cache is
    left only where the repository refused to remove it. *)
Definition invalidated_for (e : DriveEvent) (c : EventCaches Key S) : Prop :=
  match e with
  | NodeUpdated _ uid _ _ _ | NodeDeleted _ uid _ =>
      folder_keys c !! uid = None /\ context_share_ids c = ∅ /\
      (rm_at (entities c) (node_key uid) = None \/
       exists s error, rm_inv s /\ repo_remove (node_key uid) s = (Err error, entities c))
  | ContinuityLost _ | ScopeAccessLost _ =>
      folder_keys c = ∅ /\ context_share_ids c = ∅ /\
      ((forall k, rm_at (entities c) k = None) \/
       exists s error, rm_inv s /\ repo_clear s = (Err error, entities c))
  | SharedWithMeUpdated _ => context_share_ids c = ∅
  | CursorAdvanced _ => True
  end.

Lemma invalidate_leaves_nothing e (c : EventCaches Key S) :
  rm_inv (entities c) ->
  let c' := (invalidate_caches_for_event e c).2 in rm_inv (entities c') /\ invalidated_for e c'.
Proof.
  intros Hi. destruct e as [id uid ? ? ?|id uid ?|id|id|id|id]; simpl;
    unfold mbind_, mmodify, on_entities, remove_node, entity_clear; simpl; [| |done| | |done].
  1,2: destruct (rm_remove (entities c) (node_key uid) Hi) as [Hi' Hr];
    destruct (repo_remove (node_key uid) (entities c)) as [[[]|e1] s'] eqn:E; simpl in *; (split; [done|]);
    (split_and!; [apply lookup_delete_eq|done|]); [left; by apply Hr|right; by exists (entities c), e1].
  all: destruct (rm_clear (entities c) Hi) as [Hi' Hr];
    destruct (repo_clear (entities c)) as [[[]|e1] s'] eqn:E; simpl in *; (split; [done|]);
    (split_and!; [done..|]); [left; by apply Hr|right; by exists (entities c), e1].
Qed.

Definition published (l : list (effect Key S)) : list DriveEvent :=
  omap (fun ef => match ef with Published e _ => Some e | _ => None end) l.

(** An event is published once the caches hold nothing that it made stale, and a
    cursor is only saved once every event up to it has been published. *)
Inductive well_ordered : list (effect Key S) -> Prop :=
| wo_nil : well_ordered []
| wo_slept l d : well_ordered l -> well_ordered (l ++ [Slept d])
| wo_event l e c : well_ordered l -> invalidated_for e c -> well_ordered (l ++ [Published e c])
| wo_saved l e : well_ordered l -> last (published l) = Some e ->
                 well_ordered (l ++ [Saved (event_id e)]).

Lemma published_app l k : published (l ++ k) = published l ++ published k.
Proof. apply omap_app. Qed.

(** The cursor that a restart finds. *)
Definition last_saved (l : list (effect Key S)) : option DriveEventId :=
  last (omap (fun ef => match ef with Saved cursor => Some cursor | _ => None end) l).

Lemma last_saved_snoc l ef :
  last_saved (l ++ [ef]) = match ef with Saved cursor => Some cursor | _ => last_saved l end.
Proof. unfold last_saved. rewrite omap_app. destruct ef; simpl; rewrite ?app_nil_r; [done..|]. apply last_snoc. Qed.
End Stale.

Section ManagerFacts.
Context {N Key S C : Type} `{EventApi N} `{RemovalLaws S} `{CursorStore C}.
Context (fuel : nat) (v : VolumeId) (config : EventManagerConfig).
Context (c0 : DriveEventId) (log : list VolumeEventDto) (inv : N -> Prop).
Implicit Types (m : ManagerState N Key S C).

(** The server pages the volume's log, as it likes: a request for a page may fail,
    and an answer holds some of the events after the cursor, none while the server
    lags behind or there are none, with its word on whether there are more. *)
Definition pages_log : Prop :=
  forall i n, (i <= length log)%nat -> inv n -> exists n', inv n' /\
    ((exists e, events_page v (cursor_at c0 log i) n = (Err e, n')) \/
     (exists k more, (i + k <= length log)%nat /\
        events_page v (cursor_at c0 log i) n
        = (Ok {| vp_last_event_id := cursor_at c0 log (i + k); vp_events := take k (drop i log);
                 vp_more_entries_exist := more; vp_refresh_required := false |}, n'))).

Hypothesis Hpages : pages_log.
Hypothesis Hknown : Forall known_type log.
Hypothesis Hfuel : (length log < fuel)%nat.

(** A stretch of the log, split where a page ends. *)
Lemma stretch_split {A} (f : VolumeEventDto -> A) i j k :
  (i <= j <= k)%nat ->
  (f <$> take (j - i) (drop i log)) ++ (f <$> take (k - j) (drop j log)) = f <$> take (k - i) (drop i log).
Proof.
  intros Hijk. rewrite <- fmap_app. f_equal. rewrite <- (take_drop (j - i) (take (k - i) (drop i log))). f_equal.
  - rewrite take_take. by replace ((j - i) `min` (k - i))%nat with (j - i)%nat by lia.
  - rewrite skipn_firstn_comm, drop_drop. replace (i + (j - i))%nat with j by lia.
    by replace (k - i - (j - i))%nat with (k - j)%nat by lia.
Qed.

(** A drain fails, or returns a stretch of the log after the cursor. *)
Lemma drain_events_stretch fuel' i acc n :
  (i <= length log)%nat -> (length log - i < fuel')%nat -> inv n -> exists n', inv n' /\
    ((exists e, drain_events fuel' v (cursor_at c0 log i) acc n = Some (Err e, n')) \/
     (exists j, (i <= j <= length log)%nat /\
        drain_events fuel' v (cursor_at c0 log i) acc n
        = Some (Ok (acc ++ (event_of v <$> take (j - i) (drop i log))), n'))).
Proof.
  revert i acc n. induction fuel' as [|fuel' IH]; intros i acc n Hi Hf Hn; [lia|].
  remember (drain_events (Datatypes.S fuel') v (cursor_at c0 log i) acc n) as drained eqn:Ed.
  cbn [drain_events] in Ed. unfold fbind at 1, flift at 1 in Ed.
  destruct (Hpages i n Hi Hn) as (n' & Hn' & [[e E]|(k & more & Hk & E)]); rewrite E in Ed; [exists n'; eauto|].
  cbn [vp_refresh_required vp_events vp_last_event_id vp_more_entries_exist] in Ed. subst drained.
  destruct (take k (drop i log)) as [|e es] eqn:Et.
  - assert (k = 0 \/ i = length log)%nat as Hz.
    { destruct k; [by left|right]. apply (f_equal length) in Et. rewrite length_take, length_drop in Et.
      cbn [length] in Et. lia. }
    assert (i + k = i)%nat as -> by lia. rewrite String.eqb_refl. exists n'. split; [done|]. right. exists i.
    split; [lia|]. by rewrite Nat.sub_diag, take_0, app_nil_r.
  - assert (Hke : Forall known_type (e :: es)) by (rewrite <- Et; by apply Forall_take, Forall_drop).
    unfold fbind, flift, mlift. rewrite (map_events_known v _ Hke), <- Et.
    assert (k <> 0)%nat by (intros ->; by rewrite take_0 in Et). destruct more; cbn [negb].
    + destruct (IH (i + k)%nat (acc ++ (event_of v <$> take k (drop i log))) n') as (n2 & Hn2 & Hr); [lia|lia|done|].
      exists n2. split; [done|]. destruct Hr as [He|(j & Hj & ->)]; [by left|right]. exists j. split; [lia|].
      rewrite <- app_assoc. rewrite <- (stretch_split (event_of v) i (i + k) j) by lia.
      by replace (i + k - i)%nat with k by lia.
    + exists n'. split; [done|]. right. exists (i + k)%nat. split; [lia|]. by replace (i + k - i)%nat with k by lia.
Qed.

Lemma apply_event_effects e m :
  exists c, apply_event e m = {| ms_net := ms_net m; ms_caches := c; ms_store := ms_store m;
                                 ms_foreground := ms_foreground m; ms_log := ms_log m ++ [Published e c] |} /\
    (rm_inv (entities (ms_caches m)) -> rm_inv (entities c) /\ invalidated_for e c).
Proof.
  unfold apply_event. pose proof (invalidate_leaves_nothing e (ms_caches m)) as Hi.
  destruct (invalidate_caches_for_event e (ms_caches m)) as [r c]. by exists c.
Qed.

Lemma apply_events_log (events : list DriveEvent) m :
  let m' := fold_left (fun m e => apply_event e m) events m in
  ms_net m' = ms_net m /\ ms_store m' = ms_store m /\ ms_foreground m' = ms_foreground m /\
  published (ms_log m') = published (ms_log m) ++ events /\
  last_saved (ms_log m') = last_saved (ms_log m) /\
  (rm_inv (entities (ms_caches m)) -> well_ordered (ms_log m) ->
   rm_inv (entities (ms_caches m')) /\ well_ordered (ms_log m')).
Proof.
  revert m. induction events as [|e events IH]; intros m; simpl; [by rewrite app_nil_r|].
  destruct (apply_event_effects e m) as (c & -> & Hc).
  match goal with |- context [fold_left _ events ?m1] => destruct (IH m1) as (E1 & E2 & E3 & E4 & E6 & E5) end.
  simpl in *. split_and!; [done..| |by rewrite E6, last_saved_snoc|].
  - rewrite E4, published_app. by rewrite <- app_assoc.
  - intros Hi Hw. destruct (Hc Hi). apply E5; [done|]. by constructor.
Qed.

(** The store takes every cursor. *)
Definition saves : Prop := forall cursor (c : C), (cursor_save cursor c).1 = Ok tt.

Lemma save_cursor_log cursor m :
  ms_net (save_cursor cursor m) = ms_net m /\ ms_caches (save_cursor cursor m) = ms_caches m /\
  ((ms_log (save_cursor cursor m) = ms_log m /\ ~ saves) \/
   ms_log (save_cursor cursor m) = ms_log m ++ [Saved cursor]).
Proof.
  unfold save_cursor. destruct (cursor_save cursor (ms_store m)) as [[[]|e] c] eqn:E; simpl;
    (split; [done|split; [done|]]); [by right|left]. split; [done|]. intros Hs.
  specialize (Hs cursor (ms_store m)). by rewrite E in Hs.
Qed.

(** Where the store takes every cursor, the last one saved is the one reached. *)
Definition saved_up_to (i j : nat) m m' : Prop := saves ->
  last_saved (ms_log m') = Some (cursor_at c0 log j) \/ (j = i /\ last_saved (ms_log m') = last_saved (ms_log m)).

Definition sound m : Prop := inv (ms_net m) /\ rm_inv (entities (ms_caches m)) /\ well_ordered (ms_log m).

Lemma poll_turn_step i retry m :
  (i <= length log)%nat -> sound m ->
  exists j retry' m', (i <= j <= length log)%nat /\
    poll_turn fuel v config (Some (cursor_at c0 log i)) retry m
    = Some (Some (cursor_at c0 log j), retry', m') /\ sound m' /\
    published (ms_log m') = published (ms_log m) ++ (event_of v <$> take (j - i) (drop i log)) /\
    saved_up_to i j m m'.
Proof.
  intros Hi (Hn & Hrm & Hw). unfold poll_turn, poll, enumerate_events.
  destruct (drain_events_stretch fuel i [] (ms_net m) Hi ltac:(lia) Hn) as (n' & Hn' & [[e E]|(j & Hj & E)]);
    cbn [emit ms_net]; rewrite E.
  - eexists i, _, _. split; [lia|]. split; [reflexivity|]. unfold sound. simpl.
    rewrite Nat.sub_diag, take_0, app_nil_r, !published_app, !app_nil_r. split_and!; [done|done| |done|].
    + by repeat constructor.
    + intros _. right. simpl. by rewrite !last_saved_snoc.
  - pose proof (last_event_cursor v c0 log i j Hj) as Hlast. cbn [app].
    destruct (event_of v <$> take (j - i) (drop i log)) as [|e es] eqn:Ees.
    + eexists j, _, _. split; [done|]. simpl in Hlast. rewrite Hlast. split; [reflexivity|]. unfold sound. simpl.
      rewrite published_app. simpl. rewrite Ees, !app_nil_r. split_and!; [done|done| |done|]; [by constructor|].
      intros _. right. simpl. rewrite last_saved_snoc. split; [|done].
      apply (f_equal length) in Ees. rewrite length_fmap, length_take, length_drop in Ees. simpl in Ees. lia.
    + set (m1 := {| ms_net := n' |}). pose proof (apply_events_log (e :: es) m1) as Ha.
      set (m2 := fold_left (fun m e => apply_event e m) (e :: es) m1) in *. cbv zeta in Ha.
      destruct Ha as (F1 & _ & _ & F4 & _ & F5).
      unfold save_last. destruct (last (e :: es)) as [le|] eqn:El; [|by apply last_None in El].
      simpl in Hlast. destruct (save_cursor_log (event_id le) m2) as (G1 & G0 & G2).
      exists j, RETRY_MIN, (save_cursor (event_id le) m2). split; [done|].
      rewrite <- Hlast. split; [reflexivity|]. unfold sound. rewrite G1, G0, F1.
      assert (Hp1 : published (ms_log m1) = published (ms_log m))
        by (unfold m1; simpl; rewrite published_app; by rewrite app_nil_r).
      destruct F5 as [F5 F6]; [exact Hrm|by constructor|].
      destruct G2 as [[G2 Hno]|G2]; rewrite Ees, G2, ?published_app, F4, Hp1; simpl; rewrite ?app_nil_r;
        (split; [split_and!; [done..|]|split; [done|]]).
      * done.
      * by intros Hs%Hno.
      * constructor; [done|]. rewrite F4, last_app. by rewrite El.
      * intros _. left. by rewrite G2, last_saved_snoc, <- Hlast.
Qed.

(** C40: However often polls fail, each subscriber-visible event is published
    exactly once and in the volume's order.  However the server pages its log, with
    failed requests and answers that lag behind it in between, after any number of
    turns the events published since the start are precisely the stretch of the log
    from the start cursor to the loop's cursor.  When an event is published, the
    caches serve nothing that it made stale - its node's folder key and all
    context-share mappings are gone, and so is the node's cached entry unless the
    repository refused to remove it, which is only logged.  A cursor is only ever
    saved after all events up to it were published, so a restart repeats events
    but never skips one; and where the store takes every cursor, the last one saved
    is the loop's own, once anything was published. *)
Theorem run_turns_publishes_log turns i retry m :
  (i <= length log)%nat -> inv (ms_net m) -> rm_inv (entities (ms_caches m)) -> well_ordered (ms_log m) ->
  exists j retry' m', (i <= j <= length log)%nat /\
    run_turns fuel v config turns (Some (cursor_at c0 log i)) retry m
    = Some (Some (cursor_at c0 log j), retry', m') /\
    published (ms_log m') = published (ms_log m) ++ (event_of v <$> take (j - i) (drop i log)) /\
    well_ordered (ms_log m') /\ saved_up_to i j m m'.
Proof.
  intros Hi Hn Hrm Hw. assert (sound m) as Hs by done. clear Hn Hrm Hw. revert i retry m Hi Hs.
  induction turns as [|turns IH]; intros i retry m Hi Hs.
  { exists i, retry, m. rewrite Nat.sub_diag, take_0, app_nil_r. destruct Hs as (_ & _ & ?).
    split_and!; [lia|lia|done|done|done|]. intros _. by right. }
  destruct (poll_turn_step i retry m Hi Hs) as (j & r1 & m1 & Hj & E1 & Hs1 & Hp1 & Hv1).
  destruct (IH j r1 m1) as (k & r2 & m2 & Hk & E2 & Hp2 & Hw2 & Hv2); [lia|done|].
  exists k, r2, m2. split; [lia|]. cbn [run_turns]. rewrite E1. split; [exact E2|].
  split; [by rewrite Hp2, Hp1, <- app_assoc, stretch_split by lia|]. split; [done|].
  intros Hok. destruct (Hv2 Hok) as [?|[-> ->]]; [by left|]. by apply Hv1.
Qed.

(** A failed poll changes nothing but the wait: the cursor, the caches and
    the store stay as they are, nothing is published, the loop sleeps the
    current retry delay on top of the interval and doubles it up to the poll
    interval; a successful poll resets it to one second. *)
Theorem failed_poll_backs_off cursor retry m e n :
  enumerate_events fuel v cursor (ms_net m) = Some (Err e, n) ->
  poll_turn fuel v config cursor retry m
  = Some (cursor, Z.min (retry * 2) (current_interval config m),
          {| ms_net := n; ms_caches := ms_caches m; ms_store := ms_store m;
             ms_foreground := ms_foreground m;
             ms_log := ms_log m ++ [Slept (current_interval config m); Slept retry] |}).
Proof.
  intros E. unfold poll_turn, poll. simpl. rewrite E. unfold emit. simpl.
  by rewrite <- app_assoc.
Qed.
End ManagerFacts.

(** ** Witnesses *)

Definition demo_event (id link : string) (ty : Z) : VolumeEventDto :=
  {| ve_id := id; ve_event_type := ty;
     ve_link := {| vel_id := link; vel_parent_id := None; vel_is_shared := false;
                   vel_is_trashed := false |} |}.

Definition demo_log : list VolumeEventDto :=
  [demo_event "e1" "a" 1; demo_event "e2" "b" 3; demo_event "e3" "a" 0]%string.

(** A server that fails once (state [true]) and then serves pages of two. *)
Definition demo_index (cursor : DriveEventId) : nat :=
  match position (fun e => String.eqb (ve_id e) cursor) demo_log with
  | Some i => Datatypes.S i
  | None => 0
  end.

#[export] Instance demo_events : EventApi bool := {
  latest_event_id _ s := (Ok "e3"%string, s);
  events_page _ cursor s :=
    if s then (Err (invalid_operation "offline"), false)
    else let i := demo_index cursor in
         let k := Nat.min 2 (3 - i) in
         (Ok {| vp_last_event_id := cursor_at "e0" demo_log (i + k);
                vp_events := take k (drop i demo_log);
                vp_more_entries_exist := bool_decide (i + k < 3)%nat;
                vp_refresh_required := false |}, false)
}.

Lemma demo_serves : serves_log "v" "e0" demo_log (fun s => s = false).
Proof.
  intros i n Hi ->. destruct i as [|[|[|[|i]]]]; simpl in Hi; [..|exfalso; lia];
    [exists false, 2%nat|exists false, 2%nat|exists false, 1%nat|exists false, 0%nat];
    (split; [simpl; lia|split; [intros; simpl; lia|split; [reflexivity|reflexivity]]]).
Qed.

Lemma enumerate_events_complete_witness :
  exists n' n'',
    enumerate_events 4 "v" (Some "e1"%string) false
    = Some (Ok (event_of "v" <$> drop 1 demo_log), n') /\
    enumerate_events 4 "v" (Some "e3"%string) n' = Some (Ok [], n'').
Proof.
  destruct (enumerate_events_complete "v" "e0" demo_log (fun s => s = false) demo_serves)
    with (fuel := 4%nat) (i := 1%nat) (n := false) as (n' & n'' & E1 & _ & E2).
  - unfold demo_log. repeat apply Forall_cons_2; try apply Forall_nil_2; unfold known_type; simpl; lia.
  - simpl. lia.
  - simpl. lia.
  - reflexivity.
  - exists n', n''. split; [exact E1|exact E2].
Defined.

Definition demo_manager (offline : bool)
  : ManagerState bool unit (InMemoryState list_lru) (option DriveEventId) :=
  {| ms_net := offline;
     ms_caches := {| folder_keys := ∅; context_share_ids := ∅; entities := with_capacity 4 |};
     ms_store := None; ms_foreground := true; ms_log := [] |}.

Lemma demo_pages : pages_log "v" "e0" demo_log (fun _ => True).
Proof.
  intros i n Hi _. exists false. split; [exact I|]. destruct n; [left; eexists; reflexivity|right].
  destruct i as [|[|[|[|i]]]]; simpl in Hi; [..|exfalso; lia];
    [exists 2%nat, true|exists 2%nat, false|exists 1%nat, false|exists 0%nat, false];
    (split; [simpl; lia|reflexivity]).
Qed.

Lemma demo_known : Forall known_type demo_log.
Proof. unfold demo_log. repeat apply Forall_cons_2; try apply Forall_nil_2; unfold known_type; simpl; lia. Qed.

Lemma run_turns_publishes_log_witness :
  exists j retry' m',
    run_turns 4 "v" EventManagerConfig_default 2 (Some "e1"%string) RETRY_MIN (demo_manager true)
    = Some (Some (cursor_at "e0" demo_log j), retry', m') /\
    published (ms_log m') = [] ++ (event_of "v" <$> take (j - 1) (drop 1 demo_log)) /\
    well_ordered (ms_log m') /\ last_saved (ms_log m') = Some "e3"%string /\ j = 3%nat.
Proof.
  destruct (run_turns_publishes_log 4 "v" EventManagerConfig_default "e0" demo_log (fun _ => True)
              demo_pages demo_known ltac:(simpl; lia) 2 1 RETRY_MIN (demo_manager true))
    as (j & r & m' & Hj & E & Hp & Hw & Hv); [simpl; lia|exact I|exact (with_capacity_inv 4)|constructor|].
  exists j, r, m'. split; [exact E|]. split; [exact Hp|]. split; [exact Hw|].
  destruct j as [|[|[|[|j]]]]; [exfalso; lia| | | |exfalso; simpl in Hj; lia];
    [vm_compute in E; discriminate E..|].
  destruct Hv as [Hv|[Hv _]]; [by intros cursor c|split; [exact Hv|reflexivity]|discriminate Hv].
Defined.

(** A repository out of order. *)
Definition stuck_repository : CacheRepository unit := {|
  repo_set _ _ _ := mfail (invalid_operation "stuck"); repo_get _ := mfail (invalid_operation "stuck");
  repo_remove _ := mfail (invalid_operation "stuck"); repo_remove_by_tag _ := mfail (invalid_operation "stuck");
  repo_clear := mfail (invalid_operation "stuck"); repo_get_by_tags _ := mfail (invalid_operation "stuck")
|}.

(** The folder key is dropped and the event published all the same. *)
Example failed_removal_is_published :
  let e := NodeUpdated "e1" (NodeUid_new "v" "a") None false false in
  let c := {| folder_keys := {[ NodeUid_new "v" "a" := 1%nat ]}; context_share_ids := ∅; entities := tt |} in
  ms_log (@apply_event bool nat unit unit stuck_repository e
    {| ms_net := true; ms_caches := c; ms_store := tt; ms_foreground := true; ms_log := [] |})
  = [Published e {| folder_keys := ∅; context_share_ids := ∅; entities := tt |}].
Proof. vm_compute. reflexivity. Qed.

Lemma failed_poll_backs_off_witness :
  exists m', poll_turn 4 "v" EventManagerConfig_default (Some "e1"%string) RETRY_MIN
               (demo_manager true)
             = Some (Some "e1"%string, Duration.from_secs 2, m') /\ ms_net m' = false.
Proof.
  eexists. split.
  - apply (failed_poll_backs_off 4 "v" EventManagerConfig_default (Some "e1"%string) RETRY_MIN
             (demo_manager true) (invalid_operation "offline") false). reflexivity.
  - reflexivity.
Defined.

Lemma event_invalidates_witness :
  exists c', invalidate_caches_for_event (NodeDeleted "e" demo_uid None)
               (ms_caches (demo_manager true)) = (Ok tt, c') /\ holds_nothing_of demo_uid c'.
Proof.
  destruct (event_invalidates (NodeDeleted "e" demo_uid None) (ms_caches (demo_manager true)))
    as (c' & E & _ & Hn & _); [exact (with_capacity_inv 4)|].
  exists c'. split; [exact E|exact Hn].
Defined.
