(* ===== verification/Upload.v ===== *)
(** * Writing a revision's content

    From [crates/proton-drive-rs/src/client.rs]: reading the plaintext block by
    block, encrypting and signing each block, requesting upload targets in
    batches, storing the ciphertexts with retries, and assembling the manifest
    ([write_blocks] and everything below it).  Bytes are strings.

    The encryptor and the uploader run concurrently over a bounded channel;
    here the blocks are encrypted first and uploaded afterwards.  What
    concurrency leaves open is an argument: which permits are free ([permits]),
    how the channel's contents fall into batches ([receive]), and in which order
    the uploads of a batch complete ([completion]). *)

From S2P Require Import Prelude Errors Config Http Transport Revision Node.

(** ** Constants *)

Definition SMALL_UPLOAD_SIZE_LIMIT : Z := 128 * 1024.
Definition MAX_CONCURRENT_BLOCK_ENCRYPTS : nat := 4.
Definition MAX_BLOCK_UPLOAD_ATTEMPTS : nat := 3.

(** ** Wire and pipeline records *)

Record BlockCreationRequest := {
  bc_index : Z;
  bc_size : Z;
  bc_encrypted_signature : string;
  bc_hash : string;
  bc_verifier_token : string
}.

Record ThumbnailCreationRequest := { tc_size : Z; tc_thumbnail_type : Z; tc_hash : string }.

Record UploadContext := {
  uc_address_id : AddressId;
  uc_volume_id : VolumeId;
  uc_link_id : LinkId;
  uc_revision_id : string
}.

Record BlockUploadPreparationRequest := {
  bp_context : UploadContext;
  bp_blocks : list BlockCreationRequest;
  bp_thumbnails : list ThumbnailCreationRequest
}.

Record BlockUploadTarget := {
  ut_bare_url : string;
  ut_token : string;
  ut_index : option Z;
  ut_thumbnail_type : option Z
}.

Record BlockUploadPreparationResponse := {
  upload_targets : list BlockUploadTarget;
  thumbnail_upload_targets : list BlockUploadTarget
}.

Record PreparedBlock := {
  pb_ciphertext : string;
  pb_digest : string;
  pb_request : BlockCreationRequest
}.

Record EncryptedThumbnail := {
  et_thumbnail_type : Z;
  et_ciphertext : string;
  et_digest : string;
  et_request : ThumbnailCreationRequest
}.

Record UploadJob := {
  uj_index : option Z;
  uj_ciphertext : string;
  uj_digest : string;
  uj_request : option BlockCreationRequest;
  uj_target : BlockUploadTarget
}.

Record BlockWriteResult := {
  bw_manifest : string;
  bw_block_sizes : list Z;
  bw_total_size : Z;
  bw_sha1_hex : string
}.

(** ** Small helpers *)

Definition small_upload_applicable (plaintext_size : Z) : bool :=
  Z.min u64_max (plaintext_size * 11) <? SMALL_UPLOAD_SIZE_LIMIT * 10.

Definition small_upload_should_fall_back (error : ProtonError) : bool :=
  match error with
  | Api e => match pe_code e with ResponseCode.AlreadyExists => true | _ => false end
  | _ => false
  end.

Definition byte_xor (a b : ascii) : ascii := ascii_of_N (N.lxor (N_of_ascii a) (N_of_ascii b)).

Fixpoint verification_token (code ciphertext : string) : string :=
  match code with
  | EmptyString => EmptyString
  | String c code =>
      match ciphertext with
      | EmptyString => String (byte_xor c zero) (verification_token code EmptyString)
      | String b ciphertext => String (byte_xor c b) (verification_token code ciphertext)
      end
  end.

Definition concat_bytes (l : list string) : string := foldr String.append EmptyString l.

Definition assemble_manifest (thumbnails : list string) (blocks : list (Z * string)) : string :=
  concat_bytes thumbnails +:+ concat_bytes (snd <$> sort_by_key fst blocks).

Definition is_expired_upload_token (error : ProtonError) : bool :=
  match error with
  | Api e => (pe_http_status e =? 404)
             || match pe_code e with ResponseCode.DoesNotExist => true | _ => false end
  | _ => false
  end.

Definition is_upload_timeout (error : ProtonError) : bool :=
  match error with Transport e => te_is_timeout e | _ => false end.

(** [position .. .or_else(position ..)] then [remove]. *)
Definition take_target (mine unnamed : BlockUploadTarget -> bool) (targets : list BlockUploadTarget)
  : option (BlockUploadTarget * list BlockUploadTarget) :=
  i ← match position mine targets with Some i => Some i | None => position unnamed targets end;
  t ← targets !! i;
  Some (t, remove_at i targets).

Definition take_block_target (targets : list BlockUploadTarget) (index : Z)
  : option (BlockUploadTarget * list BlockUploadTarget) :=
  take_target (fun t => bool_decide (ut_index t = Some index))
              (fun t => bool_decide (ut_index t = None)) targets.

Definition take_thumbnail_target (targets : list BlockUploadTarget) (thumbnail_type : Z)
  : option (BlockUploadTarget * list BlockUploadTarget) :=
  take_target (fun t => bool_decide (ut_thumbnail_type t = Some thumbnail_type))
              (fun t => bool_decide (ut_thumbnail_type t = None)) targets.

(** ** Reading *)

Inductive read_outcome := RData (d : string) | RInterrupted | RError (msg : string).

(** A [std::io::Read]: [reader_read n] fills at most [n] bytes. *)
Class Reader (R : Type) := { reader_read : Z -> R -> read_outcome * R }.

(** The documented contract, over what the reader has left to give. *)
Class ReaderLaws (R : Type) `{Reader R} := {
  reader_rest : R -> string;
  reader_measure : R -> nat;
  read_data n r d r' : 0 < n -> reader_read n r = (RData d, r') ->
    reader_rest r = d +:+ reader_rest r' /\ Z.of_nat (String.length d) <= n /\
    (d = EmptyString -> reader_rest r = EmptyString /\
                        (reader_measure r' <= reader_measure r)%nat) /\
    (d <> EmptyString -> (reader_measure r' < reader_measure r)%nat);
  read_interrupted n r r' : reader_read n r = (RInterrupted, r') ->
    reader_rest r' = reader_rest r /\ (reader_measure r' < reader_measure r)%nat
}.

(** [read_full_block] into a buffer with [room] bytes left; [buf] is what it
    holds. The fuel bounds the calls of [read]. *)
Fixpoint read_full_block {R} `{Reader R} (fuel : nat) (room : Z) (buf : string)
  : FM R string ProtonError :=
  if room <=? 0 then fret buf
  else match fuel with
       | O => fun _ => None
       | S fuel => fun r =>
           match reader_read room r with
           | (RData EmptyString, r) => Some (Ok buf, r)
           | (RData d, r) =>
               read_full_block fuel (room - Z.of_nat (String.length d)) (buf +:+ d) r
           | (RInterrupted, r) => read_full_block fuel room buf r
           | (RError e, r) => Some (Err (invalid_operation ("read block: " +:+ e)), r)
           end
       end.

(** ** Encryption *)

(** The content key, node key and signing key of an open draft, as the crypto
    operations an upload performs with them; they draw on a generator in [S]. *)
Class DraftKeys (S : Type) := {
  encrypt_block : string -> M S string CryptoError;
  encrypt_thumbnail : string -> M S string CryptoError;
  sign_detached : string -> M S string CryptoError;
  node_encrypt : string -> M S string CryptoError;
  sha256 : string -> string;
  sha1_hex_of : string -> string;
  base64 : string -> string
}.

Definition crypto {S A} (m : M S A CryptoError) : M S A ProtonError := fun s =>
  let (r, s) := m s in (map_err Crypto r, s).

Section Encrypt.
Context {S : Type} `{DraftKeys S}.

Definition encrypt_content_block (verification_code : string) (index : Z) (plaintext : string)
  : M S (string * string * BlockCreationRequest) ProtonError :=
  let* ciphertext := crypto (encrypt_block plaintext) in
  let digest := sha256 ciphertext in
  let token := verification_token verification_code ciphertext in
  let* plaintext_signature := crypto (sign_detached plaintext) in
  let* encrypted_signature := crypto (node_encrypt plaintext_signature) in
  mret (ciphertext, digest,
        {| bc_index := index;
           bc_size := wrap_i32 (Z.of_nat (String.length ciphertext));
           bc_encrypted_signature := encrypted_signature;
           bc_hash := base64 digest;
           bc_verifier_token := base64 token |}).

Definition encrypt_thumbnail_block (thumbnail : Thumbnail) : M S EncryptedThumbnail ProtonError :=
  let* ciphertext := crypto (encrypt_thumbnail (tn_content thumbnail)) in
  let digest := sha256 ciphertext in
  let thumbnail_type := ThumbnailType_as_i32 (tn_type thumbnail) in
  mret {| et_thumbnail_type := thumbnail_type;
          et_request := {| tc_size := wrap_i32 (Z.of_nat (String.length ciphertext));
                           tc_thumbnail_type := thumbnail_type; tc_hash := base64 digest |};
          et_ciphertext := ciphertext; et_digest := digest |}.

Fixpoint mapM_ {A B} (f : A -> M S B ProtonError) (l : list A) : M S (list B) ProtonError :=
  match l with
  | [] => mret []
  | x :: l => let* y := f x in let* ys := mapM_ f l in mret (y :: ys)
  end.
End Encrypt.

(** *** The encryptor's window *)

(** Its locals: blocks being encrypted (in index order), the folded sizes, total
    and hash input, the next index, and whether the reader is drained. *)
Record EncryptState := {
  es_encrypting : list (Z * string);
  es_block_sizes : list Z;
  es_total_size : Z;
  es_hashed : string;
  es_index : Z;
  es_reader_drained : bool
}.

Definition EncryptState_init : EncryptState :=
  {| es_encrypting := []; es_block_sizes := []; es_total_size := 0; es_hashed := EmptyString;
     es_index := 1; es_reader_drained := false |}.

Definition es_drain (st : EncryptState) : EncryptState :=
  {| es_encrypting := es_encrypting st; es_block_sizes := es_block_sizes st;
     es_total_size := es_total_size st; es_hashed := es_hashed st;
     es_index := es_index st; es_reader_drained := true |}.

Definition es_push (buf : string) (st : EncryptState) : EncryptState :=
  let n := Z.of_nat (String.length buf) in
  {| es_encrypting := es_encrypting st ++ [(es_index st, buf)];
     es_block_sizes := es_block_sizes st ++ [n];
     es_total_size := es_total_size st + n;
     es_hashed := es_hashed st +:+ buf;
     es_index := es_index st + 1;
     es_reader_drained := es_reader_drained st |}.

Definition es_pop (rest : list (Z * string)) (st : EncryptState) : EncryptState :=
  {| es_encrypting := rest; es_block_sizes := es_block_sizes st;
     es_total_size := es_total_size st; es_hashed := es_hashed st;
     es_index := es_index st; es_reader_drained := es_reader_drained st |}.

Section Encryptor.
Context {S R : Type} `{DraftKeys S} `{Reader R}.
Context (read_fuel : nat).
(** [try_acquire_owned]: whether a permit is free while blocks are in flight. *)
Context (permits : S -> bool * S).

(** The inner [while]: fill the window.  At most four turns push a block. *)
Fixpoint fill_window (turns : nat) (st : EncryptState) : FM (S * R) EncryptState ProtonError :=
  match turns with
  | O => fret st
  | Datatypes.S turns => fun '(s, r) =>
      if negb (es_reader_drained st)
         && (length (es_encrypting st) <? MAX_CONCURRENT_BLOCK_ENCRYPTS)%nat
      then
        let (permit, s) := match es_encrypting st with [] => (true, s) | _ => permits s end in
        if negb permit then Some (Ok st, (s, r))
        else match read_full_block read_fuel DEFAULT_BLOCK_SIZE EmptyString r with
             | None => None
             | Some (Err e, r) => Some (Err e, (s, r))
             | Some (Ok buf, r) =>
                 if Str.is_empty buf then Some (Ok (es_drain st), (s, r))
                 else fill_window turns (es_push buf st) (s, r)
             end
      else Some (Ok st, (s, r))
  end.

(** The outer loop; [sent] is what went into the channel.  The fuel is a number
    of blocks. *)
Fixpoint encrypt_loop (fuel : nat) (verification_code : string) (st : EncryptState)
    (sent : list PreparedBlock) : FM (S * R) (EncryptState * list PreparedBlock) ProtonError :=
  match fuel with
  | O => fun _ => None
  | Datatypes.S fuel =>
      let+ st := fill_window MAX_CONCURRENT_BLOCK_ENCRYPTS st in
      match es_encrypting st with
      | [] => fret (st, sent)
      | (index, buf) :: rest => fun '(s, r) =>
          match encrypt_content_block verification_code index buf s with
          | (Err e, s) => Some (Err e, (s, r))
          | (Ok (ciphertext, digest, request), s) =>
              encrypt_loop fuel verification_code (es_pop rest st)
                (sent ++ [{| pb_ciphertext := ciphertext; pb_digest := digest;
                             pb_request := request |}]) (s, r)
          end
      end
  end.

Definition encrypt_content_blocks (fuel : nat) (verification_code : string)
  : FM (S * R) (list Z * Z * string * list PreparedBlock) ProtonError :=
  let+ (st, sent) := encrypt_loop fuel verification_code EncryptState_init [] in
  fret (es_block_sizes st, es_total_size st, sha1_hex_of (es_hashed st), sent).
End Encryptor.

(** ** Storing *)

Section Store.
Context {S : Type}.
(** [post_storage_blob url token blob] and [POST blocks]. *)
Context (store_blob : string -> string -> string -> M S unit ProtonError).
Context (post_blocks : BlockUploadPreparationRequest -> M S BlockUploadPreparationResponse ProtonError).
Context (context : UploadContext).

Definition request_upload_targets (blocks : list BlockCreationRequest)
    (thumbnails : list ThumbnailCreationRequest) : M S BlockUploadPreparationResponse ProtonError :=
  post_blocks {| bp_context := context; bp_blocks := blocks; bp_thumbnails := thumbnails |}.

(** The target after a failed attempt that will be retried: a fresh one when the
    token expired and the block can be re-prepared. *)
Definition next_target (job : UploadJob) (target : BlockUploadTarget) (error : ProtonError)
  : M S BlockUploadTarget ProtonError :=
  if is_upload_timeout error then mret target
  else match is_expired_upload_token error, uj_request job with
       | true, Some request =>
           let* prepared := request_upload_targets [request] [] in
           mlift (ok_or (head (upload_targets prepared))
                    (invalid_operation "block upload preparation returned no target"))
       | _, _ => mret target
       end.

(** The loop of [upload_one_block] with [remaining] attempts after this one; the flag
    is the file's [downshifted]. *)
Fixpoint upload_attempts (remaining : nat) (job : UploadJob) (target : BlockUploadTarget)
  : M (bool * S) (option (Z * string)) ProtonError := fun '(downshifted, s) =>
  let (outcome, s) := store_blob (ut_bare_url target) (ut_token target) (uj_ciphertext job) s in
  match outcome with
  | Ok _ => (Ok ((fun index => (index, uj_digest job)) <$> uj_index job), (downshifted, s))
  | Err error =>
      match remaining with
      | O => (Err error, (downshifted, s))
      | Datatypes.S remaining =>
          if negb (is_retriable error) then (Err error, (downshifted, s))
          else
            let downshifted := downshifted || is_upload_timeout error in
            match next_target job target error s with
            | (Err e, s) => (Err e, (downshifted, s))
            | (Ok target, s) => upload_attempts remaining job target (downshifted, s)
            end
      end
  end.

Definition upload_one_block (job : UploadJob) : M (bool * S) (option (Z * string)) ProtonError :=
  upload_attempts (MAX_BLOCK_UPLOAD_ATTEMPTS - 1) job (uj_target job).

Fixpoint thumbnail_jobs (thumbnails : list EncryptedThumbnail) (targets : list BlockUploadTarget)
  : Res (list UploadJob) :=
  match thumbnails with
  | [] => Ok []
  | t :: thumbnails =>
      let? (target, targets) := ok_or (take_thumbnail_target targets (et_thumbnail_type t))
        (invalid_operation ("thumbnail upload preparation returned no target for type "
           +:+ pretty (et_thumbnail_type t))) in
      let? jobs := thumbnail_jobs thumbnails targets in
      Ok ({| uj_index := None; uj_ciphertext := et_ciphertext t; uj_digest := et_digest t;
             uj_request := None; uj_target := target |} :: jobs)
  end.

Fixpoint block_jobs (batch : list PreparedBlock) (targets : list BlockUploadTarget)
  : Res (list UploadJob) :=
  match batch with
  | [] => Ok []
  | b :: batch =>
      let index := bc_index (pb_request b) in
      let? (target, targets) := ok_or (take_block_target targets index)
        (invalid_operation ("block upload preparation returned no target for block "
           +:+ pretty index)) in
      let? jobs := block_jobs batch targets in
      Ok ({| uj_index := Some index; uj_ciphertext := pb_ciphertext b; uj_digest := pb_digest b;
             uj_request := Some (pb_request b); uj_target := target |} :: jobs)
  end.

(** An action on the inner state, leaving [downshifted] alone. *)
Definition keep_flag {A} (m : M S A ProtonError) : M (bool * S) A ProtonError := fun '(d, s) =>
  let (r, s) := m s in (r, (d, s)).

Fixpoint run_jobs (jobs : list UploadJob)
  : M (bool * S) (list (option (Z * string))) ProtonError :=
  match jobs with
  | [] => mret []
  | job :: jobs =>
      let* stored := upload_one_block job in
      let* rest := run_jobs jobs in
      mret (stored :: rest)
  end.

(** [buffer_unordered]: the order in which a batch's uploads complete. *)
Context (completion : list (option (Z * string)) -> list (option (Z * string))).

Definition upload_batch (batch : list PreparedBlock) (thumbnails : list EncryptedThumbnail)
  : M (bool * S) (list (Z * string)) ProtonError :=
  let* prepared := keep_flag (request_upload_targets (pb_request <$> batch)
                                (et_request <$> thumbnails)) in
  let* tjobs := mlift (thumbnail_jobs thumbnails (thumbnail_upload_targets prepared)) in
  let* bjobs := mlift (block_jobs batch (upload_targets prepared)) in
  let* stored := run_jobs (tjobs ++ bjobs) in
  mret (omap id (completion stored)).

(** The receive loop: the thumbnails ride the first batch, or a batch of their
    own when there is no content. *)
Fixpoint upload_batches (batches : list (list PreparedBlock))
    (pending : list EncryptedThumbnail) (digests : list (Z * string))
  : M (bool * S) (list (Z * string)) ProtonError :=
  match batches with
  | [] =>
      match pending with
      | [] => mret digests
      | _ => let* _ := upload_batch [] pending in mret digests
      end
  | batch :: batches =>
      let* stored := upload_batch batch pending in
      upload_batches batches [] (digests ++ stored)
  end.

(** [downshifted] is local to the file. *)
Definition upload_prepared_blocks (batches : list (list PreparedBlock))
    (thumbnails : list EncryptedThumbnail) : M S (list (Z * string)) ProtonError := fun s =>
  let '(r, (_, s)) := upload_batches batches thumbnails [] (false, s) in (r, s).
End Store.

(** ** The whole write *)

Section Write.
Context {S R : Type} `{DraftKeys S} `{Reader R}.
Context (store_blob : string -> string -> string -> M S unit ProtonError).
Context (post_blocks : BlockUploadPreparationRequest -> M S BlockUploadPreparationResponse ProtonError).
Context (fetch_verification_code : M S string ProtonError).
Context (context : UploadContext).
Context (permits : S -> bool * S).
Context (receive : list PreparedBlock -> list (list PreparedBlock)).
Context (completion : list (option (Z * string)) -> list (option (Z * string))).

Definition on_fst {A} (m : M S A ProtonError) : FM (S * R) A ProtonError := fun '(s, r) =>
  let (a, s) := m s in Some (a, (s, r)).

Definition write_blocks (read_fuel fuel : nat) (thumbnails : list Thumbnail)
  : FM (S * R) BlockWriteResult ProtonError :=
  let+ verification_code := on_fst fetch_verification_code in
  let thumbnails := sort_by_key (fun t => ThumbnailType_as_i32 (tn_type t)) thumbnails in
  let+ encrypted_thumbnails := on_fst (mapM_ encrypt_thumbnail_block thumbnails) in
  let+ (sizes, total, sha, sent) := encrypt_content_blocks read_fuel permits fuel verification_code in
  let+ content_digests := on_fst (upload_prepared_blocks store_blob post_blocks context completion
                                    (receive sent) encrypted_thumbnails) in
  if negb (length content_digests =? length sizes)%nat
  then ffail (invalid_operation ("upload stored " +:+ pretty (Z.of_nat (length content_digests))
         +:+ " of " +:+ pretty (Z.of_nat (length sizes)) +:+ " content blocks"))
  else fret {| bw_manifest := assemble_manifest (et_digest <$> encrypted_thumbnails) content_digests;
               bw_block_sizes := sizes; bw_total_size := total; bw_sha1_hex := sha |}.
End Write.
