(* ===== verification/UploadFacts.v ===== *)
(** * Facts about writing a revision's content

    A successful upload recorded the whole file: the sizes cut it into the
    standard layout, the hash covers it, and the manifest lists the digest of
    every stored ciphertext in block order, however reads, permits, batches and
    completions fell. *)

From S2P Require Import Prelude Errors Config Http Transport Revision Node Upload.

(** ** Byte strings *)

Definition size_of (c : string) : Z := Z.of_nat (String.length c).

Lemma concat_bytes_app l k : concat_bytes (l ++ k) = concat_bytes l +:+ concat_bytes k.
Proof.
  induction l as [|x l IH]; [done|]. cbn [app concat_bytes foldr].
  fold (concat_bytes (l ++ k)). rewrite IH. by rewrite str_app_assoc.
Qed.

Lemma concat_bytes_snoc l x : concat_bytes (l ++ [x]) = concat_bytes l +:+ x.
Proof. rewrite concat_bytes_app. unfold concat_bytes at 2. simpl. by rewrite str_app_nil_r. Qed.

Lemma size_concat l : size_of (concat_bytes l) = sum_Z (size_of <$> l).
Proof.
  unfold size_of. induction l as [|x l IH]; [done|]. rewrite fmap_cons. cbn [concat_bytes foldr sum_Z].
  rewrite str_length_app. fold (concat_bytes l). unfold sum_Z in IH. lia.
Qed.

(** ** Reading *)

Section ReadFacts.
Context {R : Type} `{ReaderLaws R}.

Lemma read_full_block_spec fuel room buf r out r' :
  read_full_block fuel room buf r = Some (Ok out, r') ->
  exists d, out = buf +:+ d /\ reader_rest r = d +:+ reader_rest r' /\ size_of d <= Z.max 0 room /\
    (size_of d < room -> reader_rest r' = EmptyString) /\
    (reader_measure r' <= reader_measure r)%nat /\
    (d <> EmptyString -> (reader_measure r' < reader_measure r)%nat).
Proof.
  revert room buf r. induction fuel as [|fuel IH]; intros room buf r; simpl;
    (destruct (Z.leb_spec room 0);
      [intros [= <- <-]; exists EmptyString; rewrite str_app_nil_r; unfold size_of; simpl;
       split_and!; [done|done|lia|lia|lia|done]|]); [done|].
  destruct (reader_read room r) as [[d| |e] r1] eqn:E; [| |done].
  - apply read_data in E as (E1 & E2 & E3 & E4); [|lia].
    destruct d as [|c d].
    + intros [= <- <-]. destruct (E3 eq_refl) as [E3a E3b]. exists EmptyString. rewrite str_app_nil_r.
      rewrite E3a in E1. unfold size_of. simpl. split_and!; [done|by rewrite E3a|lia|by rewrite E1|done|done].
    + intros (d' & -> & R1 & R2 & R3 & R4 & R5)%IH. exists (String c d +:+ d').
      assert (Hs : size_of (String c d +:+ d') = size_of (String c d) + size_of d')
        by (unfold size_of; rewrite str_length_app; lia).
      fold (size_of (String c d)) in *. assert (0 < size_of (String c d)) by (unfold size_of; simpl; lia).
      specialize (E4 ltac:(done)).
      split_and!; [by rewrite str_app_assoc|by rewrite E1, R1, str_app_assoc|lia| |lia|lia].
      intros Hlt. apply R3. lia.
  - apply read_interrupted in E as [E1 E2]. intros (d & -> & R1 & R2 & R3 & R4 & R5)%IH.
    exists d. rewrite <- E1. split_and!; [done|done|lia|done|lia|intros; specialize (R5 ltac:(done)); lia].
Qed.

(** Enough fuel: one call of [read] per unit of the reader's measure. *)
Lemma read_full_block_total fuel room buf r :
  (reader_measure r < fuel)%nat -> exists out r', read_full_block fuel room buf r = Some (out, r').
Proof.
  revert room buf r. induction fuel as [|fuel IH]; intros room buf r Hf; [lia|]. simpl.
  destruct (Z.leb_spec room 0); [by eexists _, _|].
  destruct (reader_read room r) as [[d| |e] r1] eqn:E; [| |by eexists _, _].
  - apply read_data in E as (_ & _ & _ & E4); [|lia]. destruct d as [|c d]; [by eexists _, _|].
    specialize (E4 ltac:(done)). apply IH. lia.
  - apply read_interrupted in E as [_ E2]. apply IH. lia.
Qed.
End ReadFacts.

(** ** The encryptor *)

(** The blocks read so far with their 1-based indices. *)
Definition indexed (chunks : list string) : list (Z * string) :=
  imap (fun i c => (Z.of_nat i + 1, c)) chunks.

Lemma indexed_snoc chunks c :
  indexed (chunks ++ [c]) = indexed chunks ++ [(Z.of_nat (length chunks) + 1, c)].
Proof. unfold indexed. rewrite imap_app. simpl. by rewrite Nat.add_0_r. Qed.

Lemma indexed_length chunks : length (indexed chunks) = length chunks.
Proof. apply length_imap. Qed.

Section EncryptFacts.
Context {S R : Type} `{DraftKeys S} `{ReaderLaws R}.
Context (read_fuel : nat) (permits : S -> bool * S) (code : string).

(** What a block in the channel is for the plaintext [c] at [index]. *)
Definition prepared_from (ic : Z * string) (b : PreparedBlock) : Prop :=
  bc_index (pb_request b) = ic.1 /\ pb_digest b = sha256 (pb_ciphertext b) /\
  exists s s', encrypt_block ic.2 s = (Ok (pb_ciphertext b), s').

(** The encryptor's state: [chunks] are the blocks read from [data], all full but
    possibly the last, which is only short at the end; [sent] are those already
    in the channel, the window holds the others. *)
Record enc_inv (data : string) (chunks : list string) (st : EncryptState)
    (sent : list PreparedBlock) (r : R) : Prop := {
  ei_data : data = concat_bytes chunks +:+ reader_rest r;
  ei_sizes : es_block_sizes st = size_of <$> chunks;
  ei_total : es_total_size st = sum_Z (size_of <$> chunks);
  ei_hashed : es_hashed st = concat_bytes chunks;
  ei_index : es_index st = Z.of_nat (length chunks) + 1;
  ei_window : es_encrypting st = drop (length sent) (indexed chunks);
  ei_sent_len : (length sent <= length chunks)%nat;
  ei_sent : Forall2 prepared_from (take (length sent) (indexed chunks)) sent;
  ei_pos : Forall (fun c => 0 < size_of c <= DEFAULT_BLOCK_SIZE) chunks;
  ei_full i c : chunks !! i = Some c -> size_of c < DEFAULT_BLOCK_SIZE ->
                Datatypes.S i = length chunks /\ reader_rest r = EmptyString;
  ei_drained : es_reader_drained st = true -> reader_rest r = EmptyString
}.

Lemma enc_inv_push data chunks st sent r buf r1 :
  enc_inv data chunks st sent r ->
  read_full_block read_fuel DEFAULT_BLOCK_SIZE EmptyString r = Some (Ok buf, r1) ->
  if Str.is_empty buf then enc_inv data chunks (es_drain st) sent r1
  else enc_inv data (chunks ++ [buf]) (es_push buf st) sent r1.
Proof.
  intros [Hd Hs Ht Hh Hi Hw Hl Hsent Hp Hf Hdr] E.
  apply read_full_block_spec in E as (d & -> & R1 & R2 & R3 & _).
  rewrite Z.max_r in R2 by (pose proof DEFAULT_BLOCK_SIZE_pos; lia).
  change (EmptyString +:+ d) with d. destruct d as [|x d]; cbn [Str.is_empty].
  - assert (Hr : reader_rest r1 = EmptyString) by (apply R3; reflexivity).
    assert (Hr0 : reader_rest r = EmptyString) by (by rewrite R1).
    split; simpl; try done; [by rewrite Hd, Hr0, Hr|].
    intros i c Hc Hlt. split; [by eapply Hf|done].
  - set (buf := String x d) in *. assert (Hpos : 0 < size_of buf) by (unfold size_of; simpl; lia).
    assert (Hall : forall i c, chunks !! i = Some c -> size_of c = DEFAULT_BLOCK_SIZE).
    { intros i c Hc. rewrite Forall_lookup in Hp. specialize (Hp i c Hc).
      destruct (decide (size_of c < DEFAULT_BLOCK_SIZE)) as [Hlt|]; [|lia].
      destruct (Hf i c Hc Hlt) as [_ He]. rewrite R1 in He. done. }
    assert (Hlen : length (chunks ++ [buf]) = Datatypes.S (length chunks))
      by (rewrite length_app; simpl; lia).
    split; simpl; rewrite ?Hlen.
    + by rewrite Hd, concat_bytes_snoc, str_app_assoc, R1.
    + by rewrite Hs, fmap_app.
    + rewrite Ht, fmap_app, sum_Z_app. change (sum_Z (size_of <$> [buf])) with (size_of buf + 0).
      fold (size_of buf). unfold size_of. simpl. lia.
    + by rewrite Hh, concat_bytes_snoc.
    + rewrite Hi. lia.
    + rewrite Hw, Hi, indexed_snoc, drop_app_le by (by rewrite indexed_length). done.
    + lia.
    + by rewrite indexed_snoc, take_app_le by (by rewrite indexed_length).
    + apply Forall_app. split; [done|]. constructor; [lia|constructor].
    + intros i c [Hc|[Hge Hc]]%lookup_app_Some Hlt.
      * rewrite (Hall i c Hc) in Hlt. lia.
      * apply list_lookup_singleton_Some in Hc as [Hi0 <-]. split; [lia|]. by apply R3.
    + intros Hdrained. specialize (Hdr Hdrained). rewrite R1 in Hdr. done.
Qed.

Lemma fill_window_inv turns data chunks st sent s r st' s' r' :
  enc_inv data chunks st sent r ->
  fill_window read_fuel permits turns st (s, r) = Some (Ok st', (s', r')) ->
  exists chunks', enc_inv data chunks' st' sent r'.
Proof.
  revert chunks st s r. induction turns as [|turns IH]; intros chunks st s r Hi; simpl;
    [intros [= <- <- <-]; by exists chunks|].
  destruct (negb _ && _) eqn:Ec; [|intros [= <- <- <-]; by exists chunks].
  destruct (match es_encrypting st with [] => (true, s) | _ => permits s end) as [permit s1].
  destruct permit; simpl; [|intros [= <- <- <-]; by exists chunks].
  destruct (read_full_block _ _ _ r) as [[[buf|e] r1]|] eqn:E; [|done..].
  pose proof (enc_inv_push _ _ _ _ _ _ _ Hi E) as Hp. destruct (Str.is_empty buf).
  - intros [= <- <- <-]. by exists chunks.
  - by eapply IH.
Qed.

Lemma fill_window_nonempty turns st s r st' s' r' :
  es_encrypting st <> [] ->
  fill_window read_fuel permits turns st (s, r) = Some (Ok st', (s', r')) ->
  es_encrypting st' <> [].
Proof.
  revert st s r. induction turns as [|turns IH]; intros st s r Hn; simpl; [by intros [= <- _ _]|].
  destruct (negb _ && _); [|by intros [= <- _ _]].
  destruct (match es_encrypting st with [] => (true, s) | _ => permits s end) as [permit s1].
  destruct permit; simpl; [|by intros [= <- _ _]].
  destruct (read_full_block _ _ _ r) as [[[buf|e] r1]|]; [|done..].
  destruct (Str.is_empty buf); [by intros [= <- _ _]|]. apply IH. simpl.
  by destruct (es_encrypting st).
Qed.

(** A window left empty means the reader is drained: with nothing in flight no
    permit is waited for in vain. *)
Lemma fill_window_empty turns data chunks st sent s r st' s' r' :
  (0 < turns)%nat -> enc_inv data chunks st sent r ->
  fill_window read_fuel permits turns st (s, r) = Some (Ok st', (s', r')) ->
  es_encrypting st' = [] -> reader_rest r' = EmptyString.
Proof.
  intros Ht Hi E Hempty. destruct turns as [|turns]; [lia|]. cbn [fill_window] in E.
  destruct (es_reader_drained st) eqn:Ed; simpl in E.
  { injection E as <- <- <-. by apply Hi. }
  destruct (length (es_encrypting st) <? MAX_CONCURRENT_BLOCK_ENCRYPTS)%nat eqn:El.
  2:{ injection E as <- <- <-. apply Nat.ltb_ge in El. rewrite Hempty in El.
      unfold MAX_CONCURRENT_BLOCK_ENCRYPTS in El. simpl in El. lia. }
  destruct (match es_encrypting st with [] => (true, s) | _ => permits s end) as [permit s1] eqn:Ep.
  destruct permit; simpl in E.
  2:{ injection E as <- <- <-. rewrite Hempty in Ep. done. }
  destruct (read_full_block _ _ _ r) as [[[buf|e] r1]|] eqn:Er; [|done..].
  pose proof (enc_inv_push _ _ _ _ _ _ _ Hi Er) as Hp. destruct (Str.is_empty buf).
  - injection E as <- <- <-. by apply Hp.
  - exfalso. eapply (fill_window_nonempty turns (es_push buf st)); [|exact E|exact Hempty].
    simpl. by destruct (es_encrypting st).
Qed.

Lemma encrypt_content_block_ok index buf s ciphertext digest request s' :
  encrypt_content_block code index buf s = (Ok (ciphertext, digest, request), s') ->
  prepared_from (index, buf)
    {| pb_ciphertext := ciphertext; pb_digest := digest; pb_request := request |}.
Proof.
  unfold encrypt_content_block, crypto, mbind_, mret. intros E.
  destruct (encrypt_block buf s) as [[c|e] s1] eqn:E1; simpl in E; [|done].
  destruct (sign_detached buf s1) as [[sig|e] s2]; simpl in E; [|done].
  destruct (node_encrypt sig s2) as [[es|e] s3]; simpl in E; [|done].
  injection E as <- <- <- <-. split_and!; [done..|]. by exists s, s1.
Qed.

Lemma enc_inv_pop data chunks st sent r index buf rest b :
  enc_inv data chunks st sent r -> es_encrypting st = (index, buf) :: rest ->
  prepared_from (index, buf) b -> enc_inv data chunks (es_pop rest st) (sent ++ [b]) r.
Proof.
  intros [Hd Hs Ht Hh Hi Hw Hl Hsent Hp Hf Hdr] He Hb. rewrite He in Hw.
  assert (Hhd : indexed chunks !! length sent = Some (index, buf)).
  { rewrite <- (Nat.add_0_r (length sent)), <- lookup_drop, <- Hw. done. }
  assert (Hlt : (length sent < length chunks)%nat)
    by (apply lookup_lt_Some in Hhd; by rewrite indexed_length in Hhd).
  assert (Hlen : length (sent ++ [b]) = Datatypes.S (length sent)) by (rewrite length_app; simpl; lia).
  split; simpl; rewrite ?Hlen; try done.
  - apply (f_equal (drop 1)) in Hw. rewrite drop_drop, Nat.add_comm in Hw. simpl in Hw.
    by rewrite drop_0 in Hw.
  - rewrite (take_S_r _ _ _ Hhd). apply Forall2_app; [done|]. constructor; [done|constructor].
Qed.

Lemma encrypt_loop_inv fuel data chunks st sent s r st' sent' s' r' :
  enc_inv data chunks st sent r ->
  encrypt_loop read_fuel permits fuel code st sent (s, r) = Some (Ok (st', sent'), (s', r')) ->
  exists chunks', enc_inv data chunks' st' sent' r' /\ length sent' = length chunks' /\
    reader_rest r' = EmptyString.
Proof.
  revert chunks st sent s r. induction fuel as [|fuel IH]; intros chunks st sent s r Hi E; [done|].
  cbn [encrypt_loop] in E. unfold fbind in E.
  destruct (fill_window _ _ _ st (s, r)) as [[[st1|e] [s1 r1]]|] eqn:Ef; [|done..].
  destruct (fill_window_inv _ _ _ _ _ _ _ _ _ _ Hi Ef) as [chunks1 Hi1].
  destruct (es_encrypting st1) as [|[index buf] rest] eqn:Ew.
  - injection E as <- <- <- <-. exists chunks1. split_and!; [done| |].
    + pose proof (ei_window _ _ _ _ _ Hi1) as Hw. pose proof (ei_sent_len _ _ _ _ _ Hi1).
      rewrite Ew in Hw. apply (f_equal length) in Hw. rewrite length_drop, indexed_length in Hw.
      simpl in Hw. lia.
    + by eapply (fill_window_empty MAX_CONCURRENT_BLOCK_ENCRYPTS); [unfold MAX_CONCURRENT_BLOCK_ENCRYPTS; lia|exact Hi|..].
  - destruct (encrypt_content_block code index buf s1) as [[[[c d] q]|e] s2] eqn:Eb; [|done].
    eapply IH; [|exact E]. eapply enc_inv_pop; [done..|]. by eapply encrypt_content_block_ok.
Qed.

Lemma enc_inv_init r : enc_inv (reader_rest r) [] EncryptState_init [] r.
Proof. by split; simpl; try done; constructor. Qed.

Lemma full_chunks_layout (chunks : list string) :
  Forall (fun c => 0 < size_of c <= DEFAULT_BLOCK_SIZE) chunks ->
  (forall i c, chunks !! i = Some c -> size_of c < DEFAULT_BLOCK_SIZE ->
     Datatypes.S i = length chunks) ->
  standard_layout (size_of <$> chunks).
Proof.
  induction 1 as [|c chunks Hc Hp IH]; intros Hf; [done|].
  destruct chunks as [|c' chunks]; [done|]. rewrite fmap_cons.
  change (size_of c = DEFAULT_BLOCK_SIZE /\ standard_layout (size_of <$> (c' :: chunks))). split.
  - destruct (decide (size_of c < DEFAULT_BLOCK_SIZE)) as [Hlt|]; [|lia].
    specialize (Hf 0%nat c eq_refl Hlt). simpl in Hf. lia.
  - apply IH. intros i x Hx Hlt. specialize (Hf (Datatypes.S i) x Hx Hlt). simpl in *. lia.
Qed.

Lemma encrypt_content_blocks_spec fuel s r sizes total sha sent s' r' :
  encrypt_content_blocks read_fuel permits fuel code (s, r)
  = Some (Ok (sizes, total, sha, sent), (s', r')) ->
  exists chunks, reader_rest r = concat_bytes chunks /\ sizes = size_of <$> chunks /\
    standard_layout sizes /\ total = size_of (reader_rest r) /\
    sha = sha1_hex_of (reader_rest r) /\ Forall2 prepared_from (indexed chunks) sent.
Proof.
  unfold encrypt_content_blocks, fbind, fret.
  destruct (encrypt_loop _ _ _ _ _ _ (s, r)) as [[[[st sent1]|e] [s1 r1]]|] eqn:E; [|done..].
  intros [= <- <- <- <- <- <-].
  destruct (encrypt_loop_inv _ _ _ _ _ _ _ _ _ _ _ (enc_inv_init r) E)
    as (chunks & [Hd Hs Ht Hh Hi Hw Hl Hsent Hp Hf Hdr] & Hlen & Hr).
  rewrite Hr, str_app_nil_r in Hd. exists chunks. split_and!; [done|done| | | |].
  - rewrite Hs. apply full_chunks_layout; [done|]. intros i c Hc Hlt. by eapply Hf.
  - by rewrite Ht, Hd, size_concat.
  - by rewrite Hh, Hd.
  - rewrite take_ge in Hsent by (rewrite indexed_length; lia). done.
Qed.

(** *** Termination: each block taken costs the reader part of its measure *)

Lemma fill_window_total turns st s r :
  (reader_measure r < read_fuel)%nat ->
  exists out s' r', fill_window read_fuel permits turns st (s, r) = Some (out, (s', r')) /\
    (forall st', out = Ok st' ->
       (reader_measure r' <= reader_measure r)%nat /\
       (length (es_encrypting st') + reader_measure r'
        <= length (es_encrypting st) + reader_measure r)%nat).
Proof.
  revert st s r. induction turns as [|turns IH]; intros st s r Hm; simpl.
  { eexists _, _, _. split; [done|]. intros ? [= <-]. lia. }
  destruct (negb _ && _).
  2:{ eexists _, _, _. split; [done|]. intros ? [= <-]. lia. }
  destruct (match es_encrypting st with [] => (true, s) | _ => permits s end) as [permit s1].
  destruct permit; simpl.
  2:{ eexists _, _, _. split; [done|]. intros ? [= <-]. lia. }
  destruct (read_full_block_total read_fuel DEFAULT_BLOCK_SIZE EmptyString r Hm)
    as (out & r1 & E). rewrite E. destruct out as [buf|e].
  2:{ eexists _, _, _. split; [done|]. done. }
  apply read_full_block_spec in E as (d & -> & _ & _ & _ & R4 & R5).
  change (EmptyString +:+ d) with d. destruct d as [|x d]; cbn [Str.is_empty].
  { eexists _, _, _. split; [done|]. intros ? [= <-]. simpl. lia. }
  specialize (R5 ltac:(done)). destruct (IH (es_push (String x d) st) s1 r1) as (out & s' & r' & E & Hb);
    [lia|]. exists out, s', r'. split; [done|]. intros st' ->. specialize (Hb st' eq_refl).
  simpl in Hb. rewrite length_app in Hb. simpl in Hb. lia.
Qed.

Lemma encrypt_loop_total fuel st sent s r :
  (reader_measure r < read_fuel)%nat ->
  (length (es_encrypting st) + reader_measure r < fuel)%nat ->
  is_Some (encrypt_loop read_fuel permits fuel code st sent (s, r)).
Proof.
  revert st sent s r. induction fuel as [|fuel IH]; intros st sent s r Hm Hf; [lia|].
  cbn [encrypt_loop]. unfold fbind.
  destruct (fill_window_total MAX_CONCURRENT_BLOCK_ENCRYPTS st s r Hm) as (out & s1 & r1 & E & Hb).
  rewrite E. destruct out as [st1|e]; [|done]. specialize (Hb st1 eq_refl).
  destruct (es_encrypting st1) as [|[index buf] rest] eqn:Ew; [done|].
  destruct (encrypt_content_block code index buf s1) as [[[[c d] q]|e] s2]; [|done].
  simpl in Hb. apply IH; simpl; lia.
Qed.
End EncryptFacts.

(** ** Storing *)

(** One [POST] to a storage host, and what it answered. *)
Record Attempt := {
  at_url : string;
  at_token : string;
  at_blob : string;
  at_outcome : result unit ProtonError
}.

Section StoreFacts.
Context {S : Type}.
Context (store_blob : string -> string -> string -> M S unit ProtonError).
Context (post_blocks : BlockUploadPreparationRequest -> M S BlockUploadPreparationResponse ProtonError).
Context (context : UploadContext).

(** The store with its attempts on record. *)
Definition logged_store (url token blob : string) : M (list Attempt * S) unit ProtonError :=
  fun '(log, s) =>
    let (out, s') := store_blob url token blob s in
    (out, (log ++ [{| at_url := url; at_token := token; at_blob := blob; at_outcome := out |}], s')).

Definition logged_post (q : BlockUploadPreparationRequest)
  : M (list Attempt * S) BlockUploadPreparationResponse ProtonError :=
  fun '(log, s) => let (out, s') := post_blocks q s in (out, (log, s')).

(** [b] comes right after [a]: only a retriable failure is tried again, and the
    target changes only after an expired token of a block that can be prepared
    again. *)
Definition retry_of (job : UploadJob) (a b : Attempt) : Prop :=
  exists e, at_outcome a = Err e /\ is_retriable e = true /\
    (at_url b = at_url a /\ at_token b = at_token a
     \/ is_expired_upload_token e = true /\ is_upload_timeout e = false /\
        is_Some (uj_request job)).

(** What the last attempt decides. *)
Definition decided_by (job : UploadJob) (count : nat) (a : Attempt)
    (res : result (option (Z * string)) ProtonError) : Prop :=
  match at_outcome a with
  | Ok _ => res = Ok ((fun index => (index, uj_digest job)) <$> uj_index job)
  | Err e =>
      (res = Err e /\ (count = MAX_BLOCK_UPLOAD_ATTEMPTS \/ is_retriable e = false))
      \/ (is_expired_upload_token e = true /\ is_Some (uj_request job) /\
          (count < MAX_BLOCK_UPLOAD_ATTEMPTS)%nat /\ exists e', res = Err e')
  end.

Definition chained (job : UploadJob) (log : list Attempt) : Prop :=
  forall i a b, log !! i = Some a -> log !! Datatypes.S i = Some b -> retry_of job a b.

Lemma chained_cons job a b log :
  retry_of job a b -> chained job (b :: log) -> chained job (a :: b :: log).
Proof.
  intros Hab Hc [|i] x y Hx Hy; [simpl in *; by simplify_eq|].
  by apply (Hc i).
Qed.

Lemma next_target_spec job target e log s out log' s' :
  next_target logged_post context job target e (log, s) = (out, (log', s')) ->
  log' = log /\
  (out = Ok target
   \/ is_upload_timeout e = false /\ is_expired_upload_token e = true /\ is_Some (uj_request job)).
Proof.
  unfold next_target, mret. destruct (is_upload_timeout e); [intros [= <- <- <-]; auto|].
  destruct (is_expired_upload_token e); [|intros [= <- <- <-]; auto].
  destruct (uj_request job) as [q|]; [|intros [= <- <- <-]; auto].
  unfold mbind_, request_upload_targets, logged_post, mlift.
  destruct (post_blocks _ s) as [[resp|e'] s1]; intros [= <- <- <-]; split; auto.
Qed.

Ltac single_attempt a :=
  intros [= <- <- <- <-]; exists a, [], a;
  (split_and!; [done..|by repeat constructor|done|simpl; lia|]);
  unfold decided_by; simpl; auto.

Lemma upload_attempts_log remaining job target d log s res d' log' s' :
  (remaining < MAX_BLOCK_UPLOAD_ATTEMPTS)%nat ->
  upload_attempts logged_store logged_post context remaining job target (d, (log, s))
  = (res, (d', (log', s'))) ->
  exists first more a,
    log' = log ++ first :: more /\ last (first :: more) = Some a /\
    at_url first = ut_bare_url target /\ at_token first = ut_token target /\
    Forall (fun a => at_blob a = uj_ciphertext job) (first :: more) /\
    chained job (first :: more) /\ (length more <= remaining)%nat /\
    decided_by job (MAX_BLOCK_UPLOAD_ATTEMPTS - remaining + length more) a res.
Proof.
  revert target d log s. induction remaining as [|remaining IH]; intros target d log s Hr;
    cbn [upload_attempts]; unfold logged_store at 1;
    destruct (store_blob _ _ _ s) as [out s1] eqn:Es;
    set (a := {| at_url := ut_bare_url target; at_token := ut_token target;
                 at_blob := uj_ciphertext job; at_outcome := out |}).
  all: assert (Hone : chained job [a]) by (intros [|i] x y Hx Hy; simpl in *; done).
  - destruct out as [[]|e]; single_attempt a.
  - destruct out as [[]|e].
    { single_attempt a. }
    destruct (is_retriable e) eqn:Er; cbn [negb].
    2:{ single_attempt a. }
    destruct (next_target _ _ job target e _) as [out2 [log2 s2]] eqn:En.
    apply next_target_spec in En as [-> Hn]. destruct out2 as [target2|e2].
    + intros (b & more & z & -> & Hz & Hu & Htk & Hb & Hc & Hm & Hd)%IH; [|lia].
      exists a, (b :: more), z. rewrite <- app_assoc. split_and!; try done.
      * constructor; [done|exact Hb].
      * apply chained_cons; [|done]. exists e. split_and!; [done..|].
        destruct Hn as [[= ->]|(? & ? & ?)]; auto.
      * simpl. lia.
      * cbn [length]. replace (MAX_BLOCK_UPLOAD_ATTEMPTS - Datatypes.S remaining
          + Datatypes.S (length more))%nat with
          (MAX_BLOCK_UPLOAD_ATTEMPTS - remaining + length more)%nat by lia. done.
    + intros [= <- <- <- <-]. destruct Hn as [|(? & ? & ?)]; [done|].
      exists a, [], a. split_and!; [done..|by repeat constructor|done|simpl; lia|].
      unfold decided_by. simpl. right. split_and!; [done..| |by exists e2].
      unfold MAX_BLOCK_UPLOAD_ATTEMPTS in *. lia.
Qed.

(** A block is posted at most three times, always with the same ciphertext; it
    is posted again only after a retriable failure, to the same target unless its
    token had expired and a fresh target was prepared; the last post decides: a
    stored block yields its index and digest, a failure that is final or the
    third is returned. *)
Theorem upload_one_block_attempts job d s res d' log s' :
  upload_one_block logged_store logged_post context job (d, ([], s)) = (res, (d', (log, s'))) ->
  exists first more a,
    log = first :: more /\ last log = Some a /\
    (length log <= MAX_BLOCK_UPLOAD_ATTEMPTS)%nat /\
    at_url first = ut_bare_url (uj_target job) /\ at_token first = ut_token (uj_target job) /\
    Forall (fun a => at_blob a = uj_ciphertext job) log /\ chained job log /\
    decided_by job (length log) a res.
Proof.
  intros E. apply upload_attempts_log in E as (b & more & a & -> & Ha & Hu & Ht & Hb & Hc & Hl & Hd);
    [|unfold MAX_BLOCK_UPLOAD_ATTEMPTS; lia].
  exists b, more, a. unfold MAX_BLOCK_UPLOAD_ATTEMPTS in *. simpl in *. split_and!; try done. lia.
Qed.

(** *** Batches *)

Definition job_result (job : UploadJob) : option (Z * string) :=
  (fun index => (index, uj_digest job)) <$> uj_index job.

(** Some post of this ciphertext was accepted. *)
Definition accepted (ciphertext : string) : Prop :=
  exists url token s s', store_blob url token ciphertext s = (Ok tt, s').

Definition stored_pair (b : PreparedBlock) : Z * string := (bc_index (pb_request b), pb_digest b).

Lemma upload_attempts_ok remaining job target ds r ds' :
  upload_attempts store_blob post_blocks context remaining job target ds = (Ok r, ds') ->
  r = job_result job /\ accepted (uj_ciphertext job).
Proof.
  revert target ds. induction remaining as [|remaining IH]; intros target [d s];
    cbn [upload_attempts]; destruct (store_blob _ _ _ s) as [[[]|e] s1] eqn:Es.
  1,3: intros [= <- _]; split; [done|]; by eexists _, _, _, _.
  - done.
  - destruct (negb _); [done|].
    destruct (next_target _ _ _ _ _ _) as [[target2|e2] s2]; [apply IH|done].
Qed.

Lemma run_jobs_ok jobs ds rs ds' :
  run_jobs store_blob post_blocks context jobs ds = (Ok rs, ds') ->
  rs = job_result <$> jobs /\ Forall (fun j => accepted (uj_ciphertext j)) jobs.
Proof.
  revert ds rs. induction jobs as [|job jobs IH]; intros ds rs; cbn [run_jobs].
  - intros [= <- <-]. by split.
  - intros (r & ds1 & [-> Ha]%upload_attempts_ok & (rs' & ds2 & E & [= <- <-])%mbind_ok_inv)
      %mbind_ok_inv.
    apply IH in E as [-> Hs]. split; [done|by constructor].
Qed.

Lemma thumbnail_jobs_ok thumbnails targets jobs :
  thumbnail_jobs thumbnails targets = Ok jobs ->
  omap id (job_result <$> jobs) = [] /\ uj_ciphertext <$> jobs = et_ciphertext <$> thumbnails.
Proof.
  revert targets jobs. induction thumbnails as [|t thumbnails IH]; intros targets jobs;
    cbn [thumbnail_jobs]; [by intros [= <-]|].
  destruct (take_thumbnail_target _ _) as [[target rest]|]; simpl; [|done].
  destruct (thumbnail_jobs thumbnails rest) as [js|] eqn:E; simpl; [|done].
  intros [= <-]. apply IH in E as [E1 E2]. split; [done|]. rewrite !fmap_cons. by rewrite E2.
Qed.

Lemma block_jobs_ok batch targets jobs :
  block_jobs batch targets = Ok jobs ->
  job_result <$> jobs = Some ∘ stored_pair <$> batch /\
  uj_ciphertext <$> jobs = pb_ciphertext <$> batch.
Proof.
  revert targets jobs. induction batch as [|b batch IH]; intros targets jobs;
    cbn [block_jobs]; [by intros [= <-]|].
  destruct (take_block_target _ _) as [[target rest]|]; simpl; [|done].
  destruct (block_jobs batch rest) as [js|] eqn:E; simpl; [|done].
  intros [= <-]. apply IH in E as [E1 E2]. rewrite !fmap_cons. by rewrite E1, E2.
Qed.

Context (completion : list (option (Z * string)) -> list (option (Z * string))).
Context (Hcompletion : forall l, completion l ≡ₚ l).

Lemma omap_id_Some {A} (l : list A) : omap id (Some <$> l) = l.
Proof.
  induction l as [|x l IH]; [done|]. change (x :: omap id (Some <$> l) = x :: l). by rewrite IH.
Qed.

Lemma upload_batch_ok batch thumbnails ds digests ds' :
  upload_batch store_blob post_blocks context completion batch thumbnails ds = (Ok digests, ds') ->
  digests ≡ₚ stored_pair <$> batch /\
  Forall accepted (et_ciphertext <$> thumbnails) /\ Forall accepted (pb_ciphertext <$> batch).
Proof.
  unfold upload_batch.
  intros (prepared & ds1 & _ & (tjobs & ds2 & Ht & (bjobs & ds3 & Hb & (rs & ds4 & Hr & Hd)
    %mbind_ok_inv)%mbind_ok_inv)%mbind_ok_inv)%mbind_ok_inv.
  unfold mlift in Ht, Hb. injection Ht as Ht <-. injection Hb as Hb <-. injection Hd as <- <-.
  apply thumbnail_jobs_ok in Ht as [Ht1 Ht2]. apply block_jobs_ok in Hb as [Hb1 Hb2].
  apply run_jobs_ok in Hr as [-> Ha]. rewrite Hcompletion, fmap_app, omap_app, Ht1, Hb1.
  rewrite list_fmap_compose, omap_id_Some. split; [done|].
  rewrite <- Ht2, <- Hb2, !Forall_fmap. by apply Forall_app in Ha.
Qed.

Lemma upload_batches_ok batches pending digests ds digests' ds' :
  upload_batches store_blob post_blocks context completion batches pending digests ds
  = (Ok digests', ds') ->
  digests' ≡ₚ digests ++ (stored_pair <$> concat batches) /\
  Forall accepted (et_ciphertext <$> pending) /\
  Forall accepted (pb_ciphertext <$> concat batches).
Proof.
  revert pending digests ds. induction batches as [|batch batches IH]; intros pending digests ds;
    cbn [upload_batches].
  - rewrite app_nil_r. destruct pending as [|t pending].
    + intros [= <- <-]. split_and!; [done|constructor..].
    + intros (_d & ds1 & (_ & Ht & _)%upload_batch_ok & [= <- <-])%mbind_ok_inv. by split_and!; [| |constructor].
  - intros (stored & ds1 & (Hs & Ht & Hb)%upload_batch_ok & (Hp & _ & Hrest)%IH)%mbind_ok_inv.
    cbn [concat]. rewrite !fmap_app, Forall_app. split_and!; [|done..].
    rewrite Hp, Hs. by rewrite app_assoc.
Qed.
End StoreFacts.

(** ** The whole write *)

Section WriteFacts.
Context {S R : Type} `{DraftKeys S} `{ReaderLaws R}.
Context (store_blob : string -> string -> string -> M S unit ProtonError).
Context (post_blocks : BlockUploadPreparationRequest -> M S BlockUploadPreparationResponse ProtonError).
Context (fetch_verification_code : M S string ProtonError).
Context (context : UploadContext).
Context (permits : S -> bool * S).
Context (receive : list PreparedBlock -> list (list PreparedBlock)).
Context (completion : list (option (Z * string)) -> list (option (Z * string))).

Definition thumbnail_from (t : Thumbnail) (e : EncryptedThumbnail) : Prop :=
  et_thumbnail_type e = ThumbnailType_as_i32 (tn_type t) /\ et_digest e = sha256 (et_ciphertext e) /\
  exists s s', encrypt_thumbnail (tn_content t) s = (Ok (et_ciphertext e), s').

Lemma encrypt_thumbnails_ok thumbnails s es s' :
  mapM_ encrypt_thumbnail_block thumbnails s = (Ok es, s') -> Forall2 thumbnail_from thumbnails es.
Proof.
  revert s es. induction thumbnails as [|t thumbnails IH]; intros s es; cbn [mapM_].
  - intros [= <- <-]. constructor.
  - intros (e & s1 & E & (es' & s2 & E2 & [= <- <-])%mbind_ok_inv)%mbind_ok_inv.
    apply IH in E2. constructor; [|done]. revert E. unfold encrypt_thumbnail_block, crypto, mbind_, mret.
    destruct (encrypt_thumbnail (tn_content t) s) as [[c|x] s3] eqn:Ec; simpl; [|done].
    intros [= <- <-]. split_and!; [done..|]. by exists s, s3.
Qed.

(** The indices of the prepared blocks are strictly increasing. *)
Lemma prepared_sorted (chunks : list string) (sent : list PreparedBlock) :
  Forall2 prepared_from (indexed chunks) sent ->
  StronglySorted (fun x y : Z * string => x.1 < y.1) (stored_pair <$> sent).
Proof.
  intros HF. apply StronglySorted_by_lookup. intros i j x y Hij Hx Hy.
  apply list_lookup_fmap_Some in Hx as (b & -> & Hb), Hy as (c & -> & Hc).
  destruct (Forall2_lookup_r _ _ _ _ _ HF Hb) as ([k p] & Hk & Pk & _).
  destruct (Forall2_lookup_r _ _ _ _ _ HF Hc) as ([k' p'] & Hk' & Pk' & _).
  simpl in *. unfold indexed in *. rewrite list_lookup_imap in Hk, Hk'.
  destruct (chunks !! i); [|done]. destruct (chunks !! j); [|done]. simplify_eq/=. lia.
Qed.

(** What a write that succeeds recorded. *)
Lemma write_blocks_recorded read_fuel fuel thumbnails s r res s' r' :
  (forall l, concat (receive l) = l) -> (forall l, completion l ≡ₚ l) ->
  write_blocks store_blob post_blocks fetch_verification_code context permits receive completion
    read_fuel fuel thumbnails (s, r) = Some (Ok res, (s', r')) ->
  exists chunks prepared thumbs,
    reader_rest r = concat_bytes chunks /\
    bw_block_sizes res = size_of <$> chunks /\ standard_layout (bw_block_sizes res) /\
    bw_total_size res = size_of (reader_rest r) /\
    bw_sha1_hex res = sha1_hex_of (reader_rest r) /\
    Forall2 prepared_from (indexed chunks) prepared /\
    Forall2 thumbnail_from (sort_by_key (fun t => ThumbnailType_as_i32 (tn_type t)) thumbnails) thumbs /\
    Forall (accepted store_blob) (et_ciphertext <$> thumbs) /\
    Forall (accepted store_blob) (pb_ciphertext <$> prepared) /\
    bw_manifest res = concat_bytes (et_digest <$> thumbs) +:+ concat_bytes (pb_digest <$> prepared).
Proof.
  intros Hrec Hcomp. unfold write_blocks, fbind, on_fst, fret.
  destruct (fetch_verification_code s) as [[code|e] s1]; [|done].
  destruct (mapM_ _ _ s1) as [[thumbs|e] s2] eqn:Et; [|done].
  destruct (encrypt_content_blocks _ _ _ _ (s2, r)) as [[[[[[sizes total] sha] sent]|e] [s3 r3]]|] eqn:Ee;
    [|done..].
  unfold upload_prepared_blocks.
  destruct (upload_batches _ _ _ _ _ _ _ _) as [[digests|e] [d s4]] eqn:Eu; [|done].
  destruct (negb _); [done|]. intros [= <- <- <-].
  apply encrypt_thumbnails_ok in Et.
  apply encrypt_content_blocks_spec in Ee as (chunks & Hd & -> & Hl & -> & -> & Hp).
  apply upload_batches_ok in Eu as (Hdig & Ha & Hb); [|done].
  rewrite Hrec in Hdig, Hb. exists chunks, sent, thumbs. simpl. split_and!; try done.
  unfold assemble_manifest. f_equal.
  rewrite (sort_by_key_unique fst digests (stored_pair <$> sent)); [|by eapply prepared_sorted|done].
  by rewrite <- list_fmap_compose.
Qed.

(** C7: a write that succeeds recorded the whole content. For some cut of what the
    reader had left into blocks, all of 4 MiB but the last: the recorded sizes
    are the blocks' sizes in order and the total and the hash those of the
    content; block [i] was encrypted from the [i]-th piece and its ciphertext
    accepted by a storage host; and the manifest lists the thumbnail digests by
    type and then the digests of the stored ciphertexts in block order -
    whatever the reads, permits, batches and completion order were. *)
Theorem write_blocks_manifest read_fuel fuel thumbnails s r res s' r' :
  (forall l, concat (receive l) = l) -> (forall l, completion l ≡ₚ l) ->
  write_blocks store_blob post_blocks fetch_verification_code context permits receive completion
    read_fuel fuel thumbnails (s, r) = Some (Ok res, (s', r')) ->
  exists chunks prepared thumbs,
    reader_rest r = concat_bytes chunks /\
    bw_block_sizes res = size_of <$> chunks /\ standard_layout (bw_block_sizes res) /\
    bw_total_size res = size_of (reader_rest r) /\
    bw_sha1_hex res = sha1_hex_of (reader_rest r) /\
    Forall2 prepared_from (indexed chunks) prepared /\
    Forall2 thumbnail_from (sort_by_key (fun t => ThumbnailType_as_i32 (tn_type t)) thumbnails) thumbs /\
    Forall (accepted store_blob) (et_ciphertext <$> thumbs) /\
    Forall (accepted store_blob) (pb_ciphertext <$> prepared) /\
    bw_manifest res = concat_bytes (et_digest <$> thumbs) +:+ concat_bytes (pb_digest <$> prepared).
Proof. apply write_blocks_recorded. Qed.

(** A write always comes to an end: with as many units of fuel as the reader
    still answers calls (its measure), the read and encrypt loops never run
    out, whatever permits are granted. *)
Theorem write_blocks_returns read_fuel fuel thumbnails s r :
  (reader_measure r < read_fuel)%nat -> (reader_measure r < fuel)%nat ->
  is_Some (write_blocks store_blob post_blocks fetch_verification_code context permits receive
             completion read_fuel fuel thumbnails (s, r)).
Proof.
  intros Hr Hf. unfold write_blocks, encrypt_content_blocks, fbind, on_fst, fret, ffail.
  destruct (fetch_verification_code s) as [[code|e] s1]; [|done].
  destruct (mapM_ _ _ s1) as [[thumbs|e] s2]; [|done].
  destruct (encrypt_loop_total read_fuel permits code fuel EncryptState_init [] s2 r) as [out E];
    [done|simpl; lia|].
  rewrite E. destruct out as [[[st sent]|e] [s3 r3]]; [|done].
  destruct (upload_prepared_blocks _ _ _ _ _ _ s3) as [[digests|e] s4]; [|done].
  by destruct (negb _).
Qed.
End WriteFacts.

(** ** Concrete inputs *)

(** A reader of a string: two interruptions, then at most three bytes a call. *)
Record TrickleReader := { tr_interruptions : nat; tr_left : string }.

Fixpoint split_at (n : nat) (s : string) : string * string :=
  match n, s with
  | Datatypes.S n, String c s => let (a, b) := split_at n s in (String c a, b)
  | _, _ => (EmptyString, s)
  end.

Lemma split_at_spec n s :
  (split_at n s).1 +:+ (split_at n s).2 = s /\ (String.length (split_at n s).1 <= n)%nat /\
  ((split_at n s).1 = EmptyString -> n = 0%nat \/ s = EmptyString).
Proof.
  revert s. induction n as [|n IH]; intros [|c s]; simpl; [naive_solver lia..|].
  specialize (IH s). destruct (split_at n s) as [a b]. simpl in *.
  rewrite str_app_cons. destruct IH as (-> & H2 & _). split_and!; [done|lia|done].
Qed.

#[export] Instance trickle_Reader : Reader TrickleReader := {
  reader_read n r :=
    match tr_interruptions r with
    | Datatypes.S k => (RInterrupted, {| tr_interruptions := k; tr_left := tr_left r |})
    | O => let (d, left) := split_at (Z.to_nat (Z.min n 3)) (tr_left r) in
           (RData d, {| tr_interruptions := 0; tr_left := left |})
    end
}.

#[export, refine] Instance trickle_ReaderLaws : ReaderLaws TrickleReader := {
  reader_rest := tr_left;
  reader_measure r := (tr_interruptions r + String.length (tr_left r))%nat
}.
Proof.
  - intros n [[|k] s] d r' Hn; simpl; [|done].
    destruct (split_at_spec (Z.to_nat (Z.min n 3)) s) as (H1 & H2 & H3).
    destruct (split_at _ s) as [a b]. intros [= <- <-]. simpl in *. subst s.
    rewrite str_length_app. split_and!; [done|lia| |].
    + intros ->. destruct H3 as [|Hs]; [done|lia|]. split; [done|simpl; lia].
    + intros Hne. destruct a; [done|]. simpl. lia.
  - intros n [[|k] s] r'; simpl; [by destruct (split_at _ _)|]. intros [= <-]. simpl. split; [done|lia].
Defined.

(** Keys that tag what they touch, over any state. *)
#[export] Instance toy_keys {S} : DraftKeys S := {
  encrypt_block p s := (Ok ("E" +:+ p), s);
  encrypt_thumbnail p s := (Ok ("T" +:+ p), s);
  sign_detached p s := (Ok "sig", s);
  node_encrypt p s := (Ok ("N" +:+ p), s);
  sha256 c := "<" +:+ c +:+ ">";
  sha1_hex_of c := "sha1:" +:+ c;
  base64 c := c
}.

(** A storage service whose first post finds its token expired. *)
Definition toy_store (url token blob : string) : M nat unit ProtonError := fun n =>
  match n with
  | O => (Err (Api {| pe_code := ResponseCode.DoesNotExist; pe_http_status := 422;
                      pe_message := "token expired"; pe_details := None |}), 1%nat)
  | _ => (Ok tt, Datatypes.S n)
  end.

(** [POST blocks]: one target per request, the thumbnails' in the opposite order. *)
Definition toy_post (q : BlockUploadPreparationRequest)
  : M nat BlockUploadPreparationResponse ProtonError :=
  mret {| upload_targets :=
            (fun b => {| ut_bare_url := "https://storage/" +:+ pretty (bc_index b);
                         ut_token := bc_verifier_token b; ut_index := Some (bc_index b);
                         ut_thumbnail_type := None |}) <$> bp_blocks q;
          thumbnail_upload_targets :=
            (fun t => {| ut_bare_url := "https://storage/thumbnail"; ut_token := "t";
                         ut_index := None;
                         ut_thumbnail_type := Some (tc_thumbnail_type t) |})
              <$> rev (bp_thumbnails q) |}.

Definition toy_context : UploadContext :=
  {| uc_address_id := "a"; uc_volume_id := "v"; uc_link_id := "l"; uc_revision_id := "r" |}.

Definition toy_reader : TrickleReader := {| tr_interruptions := 2; tr_left := "hello world" |}.

Definition toy_thumbnails : list Thumbnail :=
  [{| tn_type := TPreview; tn_content := "big" |}; {| tn_type := TThumbnail; tn_content := "tn" |}].

Definition toy_permits (n : nat) : bool * nat := (true, n).
Definition toy_receive (l : list PreparedBlock) : list (list PreparedBlock) := [l].

Definition toy_write (thumbnails : list Thumbnail) :=
  write_blocks toy_store toy_post (mret "code") toy_context toy_permits toy_receive (@rev _) 20 20
    thumbnails (1%nat, toy_reader).

Example toy_write_result :
  (fun o => match o with (Ok res, _) => Some res | _ => None end) <$> toy_write toy_thumbnails
  = Some (Some {| bw_manifest := "<Ttn><Tbig><Ehello world>"; bw_block_sizes := [11];
                  bw_total_size := 11; bw_sha1_hex := "sha1:hello world" |}).
Proof. vm_compute. reflexivity. Qed.

Lemma write_blocks_manifest_witness :
  exists chunks prepared thumbs, "hello world" = concat_bytes chunks /\
    Forall2 (@prepared_from nat _) (indexed chunks) prepared /\
    "<Ttn><Tbig><Ehello world>"
    = concat_bytes (et_digest <$> thumbs) +:+ concat_bytes (pb_digest <$> prepared).
Proof.
  destruct (write_blocks_manifest toy_store toy_post (mret "code") toy_context toy_permits
      toy_receive (@rev _) 20 20 toy_thumbnails 1%nat toy_reader
      {| bw_manifest := "<Ttn><Tbig><Ehello world>"; bw_block_sizes := [11];
         bw_total_size := 11; bw_sha1_hex := "sha1:hello world" |} 4%nat
      {| tr_interruptions := 0; tr_left := "" |})
    as (chunks & prepared & thumbs & Hd & _ & _ & _ & _ & Hp & _ & _ & _ & Hm).
  - intros l. simpl. by rewrite app_nil_r.
  - intros l. symmetry. apply Permutation_rev.
  - vm_compute. reflexivity.
  - by exists chunks, prepared, thumbs.
Defined.

Lemma write_blocks_returns_witness : is_Some (toy_write toy_thumbnails).
Proof.
  apply (write_blocks_returns toy_store toy_post (mret "code") toy_context toy_permits toy_receive
    (@rev _) 20 20 toy_thumbnails 1%nat toy_reader); simpl; lia.
Defined.

Definition toy_job : UploadJob :=
  {| uj_index := Some 1; uj_ciphertext := "E"; uj_digest := "<E>";
     uj_request := Some {| bc_index := 1; bc_size := 1; bc_encrypted_signature := "sig";
                           bc_hash := "<E>"; bc_verifier_token := "fresh" |};
     uj_target := {| ut_bare_url := "https://storage/old"; ut_token := "stale";
                     ut_index := Some 1; ut_thumbnail_type := None |} |}.

(** The expired token is answered by a second post to the fresh target. *)
Lemma upload_one_block_attempts_witness :
  exists log, (at_token <$> log) = ["stale"; "fresh"] /\ chained toy_job log.
Proof.
  destruct (upload_one_block (logged_store toy_store) (logged_post toy_post) toy_context toy_job
              (false, ([], 0%nat))) as [res [d [log n]]] eqn:E.
  destruct (upload_one_block_attempts toy_store toy_post toy_context toy_job false 0%nat res d log n E)
    as (_ & _ & _ & _ & _ & _ & _ & _ & _ & Hc & _).
  exists log. split; [|exact Hc]. vm_compute in E. by injection E as <- <- <- <-.
Defined.

(** ** The verification token *)

Lemma log2_byte a : (N.log2 (N_of_ascii a) < 8)%N.
Proof.
  pose proof (N_ascii_bounded a) as Ha. destruct (N.eq_dec (N_of_ascii a) 0%N) as [->|Hz]; [done|].
  apply N.log2_lt_pow2; [lia|exact Ha].
Qed.

Lemma lxor_byte a b : (N.lxor (N_of_ascii a) (N_of_ascii b) < 256)%N.
Proof.
  destruct (N.eq_dec (N.lxor (N_of_ascii a) (N_of_ascii b)) 0%N) as [->|Hz]; [done|].
  change 256%N with (2 ^ 8)%N. apply N.log2_lt_pow2; [lia|].
  pose proof (N.log2_lxor (N_of_ascii a) (N_of_ascii b)). pose proof (log2_byte a).
  pose proof (log2_byte b). lia.
Qed.

Lemma byte_xor_cancel a b : byte_xor (byte_xor a b) b = a.
Proof.
  unfold byte_xor. rewrite N_ascii_embedding by apply lxor_byte.
  rewrite N.lxor_assoc, N.lxor_nilpotent, N.lxor_0_r. apply ascii_N_embedding.
Qed.

Lemma byte_xor_zero a : byte_xor a zero = a.
Proof. unfold byte_xor. rewrite N.lxor_0_r. apply ascii_N_embedding. Qed.

(** The verification token has the code's length, its [i]-th byte is the code's
    xor the ciphertext's, a ciphertext that is too short being padded with zeros,
    and xoring with the ciphertext once more gives the code back: the server can
    check it against the ciphertext it stored. *)
Theorem verification_token_spec code ciphertext :
  String.length (verification_token code ciphertext) = String.length code /\
  (forall i, String.get i (verification_token code ciphertext)
             = (fun c => byte_xor c (default zero (String.get i ciphertext))) <$> String.get i code) /\
  verification_token (verification_token code ciphertext) ciphertext = code.
Proof.
  revert ciphertext. induction code as [|c code IH]; intros [|b ciphertext]; simpl; [done..| |].
  - destruct (IH EmptyString) as (Hl & Hg & Hr). split_and!; [by rewrite Hl| |].
    + intros [|i]; [done|]. simpl. rewrite Hg. by destruct i.
    + by rewrite Hr, !byte_xor_zero.
  - destruct (IH ciphertext) as (Hl & Hg & Hr). split_and!; [by rewrite Hl| |].
    + intros [|i]; [done|]. simpl. apply Hg.
    + by rewrite Hr, byte_xor_cancel.
Qed.
