(* ===== verification/Names.v ===== *)
(** * Names, paths and public links

    From [crates/proton-drive-rs/src/client.rs]: name validation, the search for
    a free name in a folder, path splitting and joining, grouping by volume, and
    the parsing of public share URLs.  A [str] is its UTF-8 bytes.  The HMAC, the
    hex encoding and the HTTP calls are parameters. *)

From S2P Require Import Prelude Errors Config Node.

(** ** Names *)

Definition MAX_NODE_NAME_LENGTH : Z := 255.
Definition NAME_AVAILABILITY_BATCH : nat := 10.

Definition validate_node_name (name : string) : Res unit :=
  if Str.is_empty name then Err (invalid_operation "Name must not be empty")
  else if MAX_NODE_NAME_LENGTH <? Str.chars_count name
  then Err (invalid_operation ("Name must be " +:+ pretty MAX_NODE_NAME_LENGTH
              +:+ " characters long at most"))
  else Ok tt.

Inductive AvailableNameTarget := File | Folder.

(** [original.split_at(original.rfind('.'))]: the extension keeps its dot. *)
Fixpoint split_extension (original : string) : option (string * string) :=
  match original with
  | EmptyString => None
  | String a s =>
      match split_extension s with
      | Some (stem, ext) => Some (String a stem, ext)
      | None => if Ascii.eqb a "." then Some (EmptyString, original) else None
      end
  end.

(** The [i]-th alternate, from 1. *)
Definition alternate_file_name (original : string) (i : nat) : string :=
  let (stem, ext) := default (original, EmptyString) (split_extension original) in
  stem +:+ " (" +:+ pretty i +:+ ")" +:+ ext.

Definition alternate_folder_name (original : string) (i : nat) : string :=
  original +:+ " (" +:+ pretty i +:+ ")".

(** The candidate stream: the name itself, then its alternates. *)
Definition candidate (target : AvailableNameTarget) (name : string) (i : nat) : string :=
  match i with
  | O => name
  | _ => match target with
         | File => alternate_file_name name i
         | Folder => alternate_folder_name name i
         end
  end.

Record NodeNameAvailabilityRequest := { name_hashes : list string; client_uid : list string }.

Record NameHashUnavailabilityDto := { nu_name_hash : string }.

Record NodeNameAvailabilityResponse := {
  available_hashes : list string;
  unavailable_hashes : list NameHashUnavailabilityDto
}.

Section AvailableName.
Context {S Key : Type}.
Context (folder_node_key : NodeUid -> M S Key ProtonError).
Context (parent_hash_key : NodeUid -> Key -> M S string ProtonError).
(** [hex::encode(hmac_sha256(key, bytes))] *)
Context (hex_hmac : string -> string -> string).
(** [http.post_query]. *)
Context (post_query : string -> NodeNameAvailabilityRequest -> M S NodeNameAvailabilityResponse ProtonError).
Context (session_id : string).

(** One batch of the candidates: the digests in order and the names by digest. *)
Definition name_batch (hash_key : string) (candidates : list string)
  : list string * gmap string string :=
  foldl (fun '(order, by_digest) c =>
           let digest := hex_hmac hash_key c in
           (order ++ [digest], <[digest := c]> by_digest)) ([], ∅) candidates.

(** The loop, from candidate [next]; the fuel is a number of batches. *)
Fixpoint available_name_loop (fuel : nat) (parent_uid : NodeUid) (hash_key : string)
    (candidates : nat -> string) (next : nat) : FM S string ProtonError :=
  match fuel with
  | O => fun _ => None
  | Datatypes.S fuel =>
      let (order, by_digest) :=
        name_batch hash_key (candidates <$> seq next NAME_AVAILABILITY_BATCH) in
      let path := "v2/volumes/" +:+ volume_id parent_uid +:+ "/links/" +:+ link_id parent_uid
                  +:+ "/checkAvailableHashes" in
      let+ response := flift (post_query path
                         {| name_hashes := order; client_uid := [session_id] |}) in
      match available_hashes response with
      | digest :: _ =>
          flift (mlift (ok_or (by_digest !! digest)
                   (invalid_operation "server returned an unknown name hash digest")))
      | [] => available_name_loop fuel parent_uid hash_key candidates
                (next + NAME_AVAILABILITY_BATCH)
      end
  end.

Definition get_available_name (fuel : nat) (parent_uid : NodeUid) (name : string)
    (target : AvailableNameTarget) : FM S string ProtonError :=
  let+ parent_key := flift (folder_node_key parent_uid) in
  let+ hash_key := flift (parent_hash_key parent_uid parent_key) in
  available_name_loop fuel parent_uid hash_key (candidate target name) 0.
End AvailableName.

(** ** Paths *)

Definition path_segments (path : string) : list string :=
  filter (fun segment => Str.is_empty segment = false) (Str.split "/" path).

Definition join_node_path (names : list string) : string :=
  let path := foldl (fun path name => path +:+ "/" +:+ name) EmptyString names in
  if Str.is_empty path then "/" else path.

(** ** Batches of nodes *)

Inductive NodeAction := Trash | Restore | Delete.

Definition NodeAction_path (a : NodeAction) (volume_id : VolumeId) : string :=
  match a with
  | Trash => "v2/volumes/" +:+ volume_id +:+ "/trash_multiple"
  | Restore => "v2/volumes/" +:+ volume_id +:+ "/trash/restore_multiple"
  | Delete => "v2/volumes/" +:+ volume_id +:+ "/trash/delete_multiple"
  end.

(** [groups.iter_mut().find(..)] then push, or a new group at the end. *)
Fixpoint add_to_group (uid : NodeUid) (groups : list (VolumeId * list LinkId))
  : list (VolumeId * list LinkId) :=
  match groups with
  | [] => [(volume_id uid, [link_id uid])]
  | (vid, ids) :: groups =>
      if decide (vid = volume_id uid) then (vid, ids ++ [link_id uid]) :: groups
      else (vid, ids) :: add_to_group uid groups
  end.

Definition group_by_volume (uids : list NodeUid) : list (VolumeId * list LinkId) :=
  foldl (fun groups uid => add_to_group uid groups) [] uids.

(** ** Public links *)

Definition PUBLIC_LINK_PASSWORD_LEN : nat := 12.

Definition parse_public_link_url (url : string) : Res (string * string) :=
  let invalid := invalid_operation "invalid public link url" in
  let? (before_hash, password) := ok_or (Str.split_once "#" url) invalid in
  let? (_, after_container) := ok_or (Str.rsplit_once "/urls/" before_hash) invalid in
  let token := Str.trim_end_matches "/" after_container in
  if Str.is_empty token || Str.contains "/" token || Str.is_empty password then Err invalid
  else Ok (token, password).

Definition public_link_permissions (role : MemberRole) : Res Z :=
  ok_or (p ← to_permissions role;
         match role with Viewer | Editor => Some p | _ => None end)
        (invalid_operation "a public link can only grant the Viewer or Editor role").

(** [char_indices().nth(n)]: the bytes before the [n]-th character, and the rest;
    [None] with no such character. *)
Fixpoint split_chars (n : nat) (s : string) : option (string * string) :=
  match s with
  | EmptyString => None
  | String a s' =>
      let push := fun '(l, r) => (String a l, r) in
      if Str.is_char_start a then
        match n with
        | O => Some (EmptyString, s)
        | Datatypes.S n => push <$> split_chars n s'
        end
      else push <$> split_chars n s'
  end.

Definition split_link_password (password : string) : string * option string :=
  let (generated, custom) :=
    default (password, EmptyString) (split_chars PUBLIC_LINK_PASSWORD_LEN password) in
  (generated, if Str.is_empty custom then None else Some custom).
