(* ===== verification/NamesFacts.v ===== *)
(** * Facts about names, paths and public links *)

From S2P Require Import Prelude Errors Config Node.
From S2P Require Import Names.

(** ** Free names *)

Section AvailableNameFacts.
Context {S Key : Type}.
Context (hex_hmac : string -> string -> string).
Context (post_query : string -> NodeNameAvailabilityRequest -> M S NodeNameAvailabilityResponse ProtonError).
Context (session_id : string).
Context (free : string -> bool).

(** The endpoint answers with the free ones of the hashes it is asked about, in
    the order asked. *)
Definition answers_free : Prop :=
  forall path request s, exists response s',
    post_query path request s = (Ok response, s') /\
    available_hashes response = filter (fun h => free h = true) (name_hashes request).

Definition digest_map (hash_key : string) (m : gmap string string) (cs : list string)
  : gmap string string := foldl (fun m c => <[hex_hmac hash_key c := c]> m) m cs.

Lemma name_batch_spec hash_key cs :
  name_batch hex_hmac hash_key cs = (hex_hmac hash_key <$> cs, digest_map hash_key ∅ cs).
Proof.
  unfold name_batch, digest_map. cbv zeta.
  enough (Hg : forall order (m : gmap string string),
    foldl (fun '(order, by_digest) c =>
             (order ++ [hex_hmac hash_key c], <[hex_hmac hash_key c := c]> by_digest)) (order, m) cs
    = (order ++ (hex_hmac hash_key <$> cs), foldl (fun m c => <[hex_hmac hash_key c := c]> m) m cs))
    by apply Hg.
  induction cs as [|c cs IH]; intros order m; simpl; [by rewrite app_nil_r|].
  rewrite IH. by rewrite <- app_assoc.
Qed.

(** A candidate is found under its digest, up to collisions among candidates. *)
Lemma name_batch_lookup hash_key cs m c :
  (forall x y, x ∈ cs -> y ∈ cs -> hex_hmac hash_key x = hex_hmac hash_key y -> x = y) ->
  c ∈ cs \/ m !! hex_hmac hash_key c = Some c /\
            (forall x, x ∈ cs -> hex_hmac hash_key x = hex_hmac hash_key c -> x = c) ->
  digest_map hash_key m cs !! hex_hmac hash_key c = Some c.
Proof.
  revert m. induction cs as [|x cs IH]; intros m Hinj Hc; simpl.
  { destruct Hc as [Hc|[Hc _]]; [by apply elem_of_nil in Hc|done]. }
  apply IH; [intros a b Ha Hb; apply Hinj; by right|].
  destruct Hc as [[->|Hc]%elem_of_cons|[Hm Hx]].
  - right. rewrite lookup_insert_eq. split; [done|].
    intros y Hy E. apply Hinj; [by right|left|done].
  - by left.
  - right. split; [|intros y Hy; apply Hx; by right].
    destruct (decide (hex_hmac hash_key x = hex_hmac hash_key c)) as [E|Hne].
    + rewrite E, lookup_insert_eq. f_equal. apply Hx; [left|done].
    + by rewrite lookup_insert_ne.
Qed.

Context (Hfree : answers_free).

Lemma available_name_loop_first fuel parent hash_key (cand : nat -> string) next n s :
  (forall i j, hex_hmac hash_key (cand i) = hex_hmac hash_key (cand j) -> cand i = cand j) ->
  (next <= n)%nat -> free (hex_hmac hash_key (cand n)) = true ->
  (forall i, (next <= i < n)%nat -> free (hex_hmac hash_key (cand i)) = false) ->
  (n < next + fuel * NAME_AVAILABILITY_BATCH)%nat ->
  exists s', available_name_loop hex_hmac post_query session_id fuel parent hash_key cand next s
             = Some (Ok (cand n), s').
Proof.
  intros Hinj. revert next s. induction fuel as [|fuel IH]; intros next s Hn Hf Hb Hfuel;
    [simpl in Hfuel; lia|].
  cbn [available_name_loop]. rewrite name_batch_spec.
  set (cs := cand <$> seq next NAME_AVAILABILITY_BATCH). unfold fbind, flift at 1.
  destruct (Hfree ("v2/volumes/" +:+ volume_id parent +:+ "/links/" +:+ link_id parent
                     +:+ "/checkAvailableHashes")
              {| name_hashes := hex_hmac hash_key <$> cs; client_uid := [session_id] |} s)
    as (response & s1 & -> & Ha).
  cbn [name_hashes] in Ha. unfold cs in Ha. rewrite <- list_fmap_compose in Ha.
  destruct (decide (n < next + NAME_AVAILABILITY_BATCH)%nat) as [Hin|Hout].
  - assert (Hcut : seq next NAME_AVAILABILITY_BATCH
        = seq next (n - next) ++ n :: seq (Datatypes.S n) (next + NAME_AVAILABILITY_BATCH - Datatypes.S n)).
    { replace NAME_AVAILABILITY_BATCH
        with ((n - next) + Datatypes.S (next + NAME_AVAILABILITY_BATCH - Datatypes.S n))%nat at 1 by lia.
      rewrite seq_app. simpl. by replace (next + (n - next))%nat with n by lia. }
    rewrite Hcut, fmap_app, filter_app, filter_none, fmap_cons, filter_cons_True in Ha.
    2: exact Hf.
    2:{ apply Forall_fmap, Forall_seq. intros i Hi. simpl. rewrite Hb by lia. done. }
    rewrite Ha. unfold flift, mlift. exists s1. cbn [app compose].
    rewrite name_batch_lookup; [done| |left].
    + intros x y Hx Hy E. unfold cs in *.
      apply list_elem_of_fmap in Hx as (i & -> & _), Hy as (j & -> & _). by apply Hinj.
    + unfold cs. apply list_elem_of_fmap_2, elem_of_seq. lia.
  - rewrite filter_none in Ha.
    2:{ apply Forall_fmap, Forall_seq. intros i Hi. simpl. rewrite Hb by lia. done. }
    rewrite Ha. apply IH; [lia|done| |].
    + intros i Hi. apply Hb. lia.
    + rewrite Nat.mul_succ_l in Hfuel. lia.
Qed.
End AvailableNameFacts.

(** When the server answers which of the hashes asked are free, in the order
    asked, and the candidate names' hashes do not collide, the search returns the
    first name of the stream - the name itself, then its numbered alternates -
    whose hash is free, after one request per ten candidates; in particular a free
    name comes back unchanged. *)
Theorem get_available_name_first_free {S Key : Type} folder_node_key parent_hash_key hex_hmac
    post_query session_id free parent name target fuel n (parent_key : Key) hash_key (s s1 s2 : S) :
  folder_node_key parent s = (Ok parent_key, s1) ->
  parent_hash_key parent parent_key s1 = (Ok hash_key, s2) ->
  answers_free post_query free ->
  (forall i j, hex_hmac hash_key (candidate target name i) = hex_hmac hash_key (candidate target name j) ->
     candidate target name i = candidate target name j) ->
  free (hex_hmac hash_key (candidate target name n)) = true ->
  (forall i, (i < n)%nat -> free (hex_hmac hash_key (candidate target name i)) = false) ->
  (n / NAME_AVAILABILITY_BATCH < fuel)%nat ->
  exists s', get_available_name folder_node_key parent_hash_key hex_hmac post_query session_id fuel
               parent name target s = Some (Ok (candidate target name n), s').
Proof.
  intros Hk Hh Hfree Hinj Hn Hb Hfuel. unfold get_available_name, fbind, flift.
  rewrite Hk. simpl. rewrite Hh.
  eapply available_name_loop_first; [done|done|lia|done|intros i Hi; apply Hb; lia|].
  pose proof (Nat.div_mod_eq n NAME_AVAILABILITY_BATCH).
  pose proof (Nat.mod_upper_bound n NAME_AVAILABILITY_BATCH ltac:(done)). nia.
Qed.

(** A folder in which only "report.txt" and "report (1).txt" are taken; digests in clear. *)
Definition toy_free (h : string) : bool :=
  negb (bool_decide (h ∈ ["k:report.txt"; "k:report (1).txt"])).

Definition toy_query (_ : string) (request : NodeNameAvailabilityRequest)
  : M nat NodeNameAvailabilityResponse ProtonError := fun n =>
  (Ok {| available_hashes := filter (fun h => toy_free h = true) (name_hashes request);
         unavailable_hashes := [] |}, S n).

Lemma get_available_name_first_free_witness :
  exists s', get_available_name (fun _ => mret tt) (fun _ _ => mret "k:") String.append toy_query
    "session" 1 {| volume_id := "v"; link_id := "l" |} "report.txt" File 0%nat
  = Some (Ok "report (2).txt", s').
Proof.
  apply (get_available_name_first_free (fun _ => mret tt) (fun _ _ => mret "k:") String.append
    toy_query "session" toy_free {| volume_id := "v"; link_id := "l" |} "report.txt" File 1 2 tt "k:"
    0%nat 0%nat 0%nat).
  - reflexivity.
  - reflexivity.
  - intros path request s. by eexists _, _.
  - intros i j E. rewrite !str_app_cons in E. by injection E.
  - vm_compute. reflexivity.
  - intros [|[|i]] Hi; [vm_compute; reflexivity..|lia].
  - vm_compute. lia.
Defined.

(** ** Public links *)

Fixpoint slashes (s : string) : nat :=
  match s with
  | EmptyString => 0
  | String a s => ((if Ascii.eqb a "/" then 1 else 0) + slashes s)%nat
  end.

Lemma slashes_app a b : slashes (a +:+ b) = (slashes a + slashes b)%nat.
Proof. induction a as [|x a IH]; [done|]. rewrite str_app_cons. simpl. lia. Qed.

Lemma contains_slashes s : Str.contains "/" s = false <-> slashes s = 0%nat.
Proof.
  induction s as [|a s IH]; [done|]. simpl. destruct (Ascii.eqb a "/"); simpl; [done|exact IH].
Qed.

Lemma contains_app c a b : Str.contains c (a +:+ b) = Str.contains c a || Str.contains c b.
Proof.
  induction a as [|x a IH]; [done|]. rewrite str_app_cons. simpl. by rewrite IH, orb_assoc.
Qed.

Lemma split_once_Some c s l r :
  Str.split_once c s = Some (l, r) -> s = l +:+ String c r /\ Str.contains c l = false.
Proof.
  revert l. induction s as [|a s IH]; intros l; simpl; [done|].
  destruct (Ascii.eqb_spec a c) as [->|Hne]; [by intros [= <- <-]|].
  destruct (Str.split_once c s) as [[l' r']|]; [|done]. intros [= <- <-].
  destruct (IH l' eq_refl) as [-> Hl]. split; [done|]. simpl. rewrite Hl.
  by apply Ascii.eqb_neq in Hne as ->.
Qed.

Lemma split_once_app c l r :
  Str.contains c l = false -> Str.split_once c (l +:+ String c r) = Some (l, r).
Proof.
  induction l as [|a l IH]; intros Hl.
  - change (EmptyString +:+ String c r) with (String c r). simpl. by rewrite Ascii.eqb_refl.
  - rewrite str_app_cons. simpl in *. apply orb_false_iff in Hl as [-> Hl]. by rewrite IH.
Qed.

Lemma prefix_spec pat s : String.prefix pat s = true -> exists r, s = pat +:+ r.
Proof.
  revert s. induction pat as [|a pat IH]; intros s Hp; [by exists s|].
  destruct s as [|b s]; [done|]. simpl in Hp. destruct (ascii_dec a b) as [<-|]; [|done].
  destruct (IH s Hp) as [r ->]. by exists r.
Qed.

Lemma prefix_app pat r : String.prefix pat (pat +:+ r) = true.
Proof.
  induction pat as [|a pat IH]; [by destruct r|]. rewrite str_app_cons. simpl. by destruct (ascii_dec a a).
Qed.

Lemma substring_after pat r :
  String.substring (String.length pat) (String.length (pat +:+ r)) (pat +:+ r) = r.
Proof. rewrite substring_app_drop. apply substring_ge. rewrite str_length_app. lia. Qed.

Lemma rsplit_once_Some pat s l r :
  Str.rsplit_once pat s = Some (l, r) -> s = l +:+ pat +:+ r.
Proof.
  revert l. induction s as [|a s IH]; intros l.
  - simpl. destruct (String.eqb_spec pat "") as [->|]; [|done]. by intros [= <- <-].
  - cbn [Str.rsplit_once]. destruct (Str.rsplit_once pat s) as [[l' r']|].
    + intros [= <- <-]. by rewrite str_app_cons, <- IH.
    + destruct (String.prefix pat (String a s)) eqn:Ep; [|done].
      apply prefix_spec in Ep as [r0 E]. rewrite E, substring_after. by intros [= <- <-].
Qed.

(** A pattern with more slashes than the text does not occur in it. *)
Lemma rsplit_once_slashes pat s :
  (slashes s < slashes pat)%nat -> Str.rsplit_once pat s = None.
Proof.
  induction s as [|a s IH]; intros Hs.
  - simpl. destruct (String.eqb_spec pat ""); [subst; simpl in Hs; lia|done].
  - cbn [Str.rsplit_once]. rewrite IH by (simpl in Hs; lia).
    destruct (String.prefix pat (String a s)) eqn:Ep; [|done].
    apply prefix_spec in Ep as [r E]. rewrite E, slashes_app in Hs. lia.
Qed.

Lemma rsplit_urls_app l r :
  slashes r = 0%nat -> Str.rsplit_once "/urls/" (l +:+ "/urls/" +:+ r) = Some (l, r).
Proof.
  intros Hr. induction l as [|a l IH].
  - rewrite str_app_nil_l. change ("/urls/" +:+ r) with (String "/" ("urls/" +:+ r)).
    cbn [Str.rsplit_once]. rewrite rsplit_once_slashes by (rewrite slashes_app, Hr; simpl; lia).
    change (String "/" ("urls/" +:+ r)) with ("/urls/" +:+ r).
    by rewrite prefix_app, substring_after.
  - rewrite str_app_cons. cbn [Str.rsplit_once]. by rewrite IH.
Qed.

Lemma trim_end_spec c s : exists n, s = Str.trim_end_matches c s +:+ Nat.iter n (String c) EmptyString.
Proof.
  induction s as [|a s [n IH]]; [by exists 0%nat|]. cbn [Str.trim_end_matches].
  destruct (Str.trim_end_matches c s) as [|b t].
  - destruct (Ascii.eqb_spec a c) as [->|].
    + exists (S n). rewrite IH. by destruct n.
    + exists n. rewrite str_app_cons. by rewrite IH at 1.
  - exists n. rewrite str_app_cons. by rewrite IH at 1.
Qed.

Lemma trim_end_no_slash s : slashes s = 0%nat -> Str.trim_end_matches "/" s = s.
Proof.
  induction s as [|a s IH]; intros Hs; [done|]. simpl in Hs. cbn [Str.trim_end_matches].
  destruct (Ascii.eqb_spec a "/") as [->|]; [done|]. rewrite IH by done. by destruct s.
Qed.

(** A public share URL parses to the token that follows its last [/urls/] and the
    secret after its first [#] exactly when both are there: whatever parses has
    that shape (trailing slashes apart), with a token that is one non-empty path
    segment and a non-empty secret; and every URL of that shape parses to its
    token and secret. In particular [.../urls/#secret] is refused. *)
Theorem parse_public_link_url_spec :
  (forall url token password, parse_public_link_url url = Ok (token, password) ->
     exists base n, url = base +:+ "/urls/" +:+ token +:+ Nat.iter n (String "/") EmptyString
                          +:+ "#" +:+ password /\
       token <> EmptyString /\ Str.contains "/" token = false /\ password <> EmptyString) /\
  (forall base token password,
     Str.contains "#" base = false -> Str.contains "#" token = false ->
     token <> EmptyString -> Str.contains "/" token = false -> password <> EmptyString ->
     parse_public_link_url (base +:+ "/urls/" +:+ token +:+ "#" +:+ password) = Ok (token, password)).
Proof.
  split.
  - intros url token password. unfold parse_public_link_url.
    destruct (Str.split_once "#" url) as [[before pw]|] eqn:Es; simpl; [|done].
    destruct (Str.rsplit_once "/urls/" before) as [[base after]|] eqn:Er; simpl; [|done].
    destruct (_ || _) eqn:Ec; [done|]. intros [= <- <-].
    apply orb_false_iff in Ec as [[Ht Hc]%orb_false_iff Hp].
    apply split_once_Some in Es as [-> _]. apply rsplit_once_Some in Er as ->.
    destruct (trim_end_spec "/" after) as [n En]. exists base, n.
    split_and!; [|by intros Hz; rewrite Hz in Ht|done|by intros ->].
    rewrite En at 1. by rewrite !str_app_assoc.
  - intros base token password Hb Ht Hne Hc Hp. unfold parse_public_link_url.
    assert (Hcut : base +:+ "/urls/" +:+ token +:+ "#" +:+ password
                   = (base +:+ "/urls/" +:+ token) +:+ String "#" password)
      by by rewrite !str_app_assoc.
    rewrite Hcut, split_once_app by (by rewrite !contains_app, Hb, Ht). simpl.
    apply contains_slashes in Hc as Hs. rewrite rsplit_urls_app by done. simpl.
    rewrite trim_end_no_slash, Hc by done.
    destruct token; [done|]. by destruct password.
Qed.

Lemma split_chars_spec n s :
  match split_chars n s with
  | Some (l, r) => s = l +:+ r /\ Str.chars_count l = Z.of_nat n /\ r <> EmptyString
  | None => Str.chars_count s <= Z.of_nat n
  end.
Proof.
  revert n. induction s as [|a s IH]; intros n; cbn [split_chars]; [simpl; lia|].
  destruct (Str.is_char_start a) eqn:Ea; [destruct n as [|n]|]; simpl; rewrite ?Ea; [done|..];
    [specialize (IH n)|specialize (IH n)];
    destruct (split_chars n s) as [[l r]|]; simpl; rewrite ?Ea; try lia;
    destruct IH as (-> & Hl & Hr); rewrite str_app_cons; split_and!; try done; lia.
Qed.

(** The stored secret of a public link splits into a generated part, its first
    twelve characters or all of it, and the custom password that follows, which
    is absent exactly when nothing follows. *)
Theorem split_link_password_spec password :
  let (generated, custom) := split_link_password password in
  password = generated +:+ default EmptyString custom /\ custom <> Some EmptyString /\
  (is_Some custom -> Str.chars_count generated = 12) /\
  (custom = None -> Str.chars_count password <= 12).
Proof.
  unfold split_link_password. pose proof (split_chars_spec PUBLIC_LINK_PASSWORD_LEN password) as Hs.
  destruct (split_chars _ password) as [[l r]|]; simpl.
  - destruct Hs as (-> & Hl & Hr). destruct r as [|a r]; [done|]. simpl. split_and!; done.
  - rewrite str_app_nil_r. split_and!; [done|done|by intros []|done].
Qed.

(** ** Paths *)

(** A name that can be a path segment. *)
Definition segment_ok (name : string) : Prop :=
  name <> EmptyString /\ Str.contains "/" name = false.

Lemma split_no_sep c s : Str.contains c s = false -> Str.split c s = [s].
Proof.
  induction s as [|a s IH]; intros Hs; [done|]. simpl in *. apply orb_false_iff in Hs as [-> Hs].
  by rewrite IH.
Qed.

Lemma split_app c l r :
  Str.contains c l = false -> Str.split c (l +:+ String c r) = l :: Str.split c r.
Proof.
  induction l as [|a l IH]; intros Hl.
  - rewrite str_app_nil_l. simpl. by rewrite Ascii.eqb_refl.
  - rewrite str_app_cons. simpl in *. apply orb_false_iff in Hl as [-> Hl]. by rewrite IH.
Qed.

Lemma split_segments c s : Forall (fun x => Str.contains c x = false) (Str.split c s).
Proof.
  induction s as [|a s IH]; simpl; [by repeat constructor|].
  destruct (Ascii.eqb a c) eqn:Ea; [by constructor|].
  destruct (Str.split c s) as [|x l]; [by constructor; [simpl; by rewrite Ea|]|].
  apply Forall_cons in IH as [Hx Hl]. constructor; [simpl; by rewrite Ea|done].
Qed.

Lemma join_fold names p :
  foldl (fun path name => path +:+ "/" +:+ name) p names
  = p +:+ foldr (fun name path => "/" +:+ name +:+ path) EmptyString names.
Proof.
  revert p. induction names as [|x names IH]; intros p; cbn [foldl foldr]; [by rewrite str_app_nil_r|].
  rewrite IH. by rewrite !str_app_assoc.
Qed.

Lemma split_joined names :
  Forall segment_ok names ->
  Str.split "/" (foldr (fun name path => "/" +:+ name +:+ path) EmptyString names)
  = EmptyString :: names.
Proof.
  induction names as [|x names IH]; intros Hok; [done|]. apply Forall_cons in Hok as [[_ Hx] Hn].
  specialize (IH Hn). cbn [foldr].
  change ("/" +:+ x +:+ ?p) with (String "/" (x +:+ p)). cbn [Str.split].
  rewrite Ascii.eqb_refl. f_equal. destruct names as [|y names].
  - cbn [foldr]. rewrite str_app_nil_r. by apply split_no_sep.
  - cbn [foldr] in *. change ("/" +:+ y +:+ ?p) with (String "/" (y +:+ p)) in *.
    rewrite split_app by done. f_equal. cbn [Str.split] in IH. rewrite Ascii.eqb_refl in IH.
    by injection IH.
Qed.

Lemma join_then_split names :
  Forall segment_ok names -> path_segments (join_node_path names) = names.
Proof.
  intros Hok. unfold join_node_path. rewrite join_fold, str_app_nil_l.
  destruct names as [|x names]; [done|].
  destruct (Str.is_empty _) eqn:Ee; [done|]. unfold path_segments. rewrite split_joined by done.
  rewrite filter_cons_False by done. apply filter_all. eapply Forall_impl; [exact Hok|].
  intros y [Hy _]. by destruct y.
Qed.

(** Joining a chain of node names into a path and splitting it again gives the
    names back, and splitting any path yields only non-empty names without a
    slash: a path names the same chain of nodes however it was written. *)
Theorem node_path_roundtrip :
  (forall names, Forall segment_ok names -> path_segments (join_node_path names) = names) /\
  (forall path, Forall segment_ok (path_segments path)) /\
  (forall path, path_segments (join_node_path (path_segments path)) = path_segments path).
Proof.
  assert (Hsplit : forall path, Forall segment_ok (path_segments path)).
  { intros path. unfold path_segments. apply Forall_forall. intros x [Hx Hin]%list_elem_of_filter.
    pose proof (split_segments "/" path) as Hs. rewrite Forall_forall in Hs.
    split; [by intros ->|by apply Hs]. }
  split_and!; [apply join_then_split|done|]. intros path. by apply join_then_split.
Qed.

(** ** Grouping *)

Definition ids_of (vid : VolumeId) (groups : list (VolumeId * list LinkId)) : list LinkId :=
  concat (snd <$> filter (fun g => g.1 = vid) groups).

Lemma add_to_group_ids uid groups vid :
  NoDup (fst <$> groups) ->
  ids_of vid (add_to_group uid groups)
  = ids_of vid groups ++ (if decide (volume_id uid = vid) then [link_id uid] else []).
Proof.
  unfold ids_of. induction groups as [|[v ids] groups IH]; intros Hnd; cbn [add_to_group].
  - rewrite filter_cons. cbn [fst]. by destruct (decide (volume_id uid = vid)).
  - rewrite fmap_cons in Hnd. apply NoDup_cons in Hnd as [Hv Hnd]. simpl in Hv.
    destruct (decide (v = volume_id uid)) as [->|Hne]; rewrite !filter_cons; cbn [fst].
    + destruct (decide (volume_id uid = vid)) as [<-|]; [|by rewrite app_nil_r].
      rewrite !filter_none; [simpl; by rewrite !app_nil_r|].
      apply Forall_forall. intros [v' ids'] Hin Heq. simpl in Heq. subst v'.
      apply Hv. by apply (list_elem_of_fmap_2 fst) in Hin.
    + destruct (decide (v = vid)); rewrite ?fmap_cons; cbn [concat snd];
        rewrite IH by done; by rewrite ?app_assoc.
Qed.

Lemma add_to_group_volumes uid groups :
  fst <$> add_to_group uid groups
  = (fst <$> groups) ++ (if decide (volume_id uid ∈ fst <$> groups) then [] else [volume_id uid]).
Proof.
  induction groups as [|[v ids] groups IH]; [done|]. cbn [add_to_group]. rewrite fmap_cons. cbn [fst].
  destruct (decide (v = volume_id uid)) as [->|Hne].
  - rewrite decide_True by left. by rewrite app_nil_r.
  - rewrite fmap_cons, IH. cbn [fst app]. f_equal. f_equal.
    destruct (decide (volume_id uid ∈ fst <$> groups)).
    + rewrite decide_True; [done|by right].
    + rewrite decide_False; [done|]. intros [Heq|]%elem_of_cons; congruence.
Qed.

Lemma add_to_group_nonempty uid groups :
  Forall (fun g => g.2 <> []) groups -> Forall (fun g => g.2 <> []) (add_to_group uid groups).
Proof.
  induction 1 as [|[v ids] groups Hg Hall IH]; cbn [add_to_group]; [by repeat constructor|].
  destruct (decide _); constructor; [by destruct ids|done|exact Hg|exact IH].
Qed.

(** Grouping by volume makes one non-empty group per volume, holding exactly that
    volume's links in the order they were given. *)
Theorem group_by_volume_spec uids :
  NoDup (fst <$> group_by_volume uids) /\
  Forall (fun g => g.2 <> []) (group_by_volume uids) /\
  (forall vid, ids_of vid (group_by_volume uids)
               = link_id <$> filter (fun u => volume_id u = vid) uids).
Proof.
  unfold group_by_volume. induction uids as [|uid uids IH] using rev_ind.
  - split_and!; [constructor|constructor|done].
  - rewrite foldl_app. cbn [foldl]. destruct IH as (Hnd & Hne & Hids). split_and!.
    + rewrite add_to_group_volumes. destruct (decide _) as [|Hv]; [by rewrite app_nil_r|].
      apply NoDup_app. split_and!; [done| |apply NoDup_singleton].
      by intros x Hx ->%list_elem_of_singleton.
    + by apply add_to_group_nonempty.
    + intros vid. rewrite add_to_group_ids, Hids, filter_app, fmap_app by done. f_equal.
      rewrite filter_cons. by destruct (decide (volume_id uid = vid)).
Qed.
