(* ===== verification/Links.v ===== *)
(** * Link details and the key walk

    From [crates/proton-drive-rs/src/client.rs] and [dtos.rs]: what the server says
    of a link, and how the key that opens it is found - up the ancestor chain to
    a decrypted folder key or a share key, then back down, one decryption per
    ancestor ([resolve_parent_key_walk], [folder_node_key]).

    The PGP operations on keys are the interface [KeyOps], the bounded map of
    decrypted folder keys is [KeyStore] (eviction is allowed at every insertion).
    The requests, the entity cache and the share keys are arguments. *)

From S2P Require Import Prelude Errors Config Keys Node.
From S2P Require Import EntityCache.

(** ** Wire records *)

Record LinkDto := {
  ln_id : LinkId;
  ln_link_type : Z;
  ln_parent_id : option LinkId;
  ln_state : Z;
  ln_creation_time : Z;
  ln_modification_time : Z;
  ln_trash_time : option Z;
  ln_trashed_legacy : option Z;
  ln_name : string;
  ln_name_hash : option string;
  ln_key : string;
  ln_passphrase : string;
  ln_passphrase_signature : option string;
  ln_signature_email : option string;
  ln_name_signature_email : option string;
  ln_third_party : bool;
  ln_sdk : bool
}.

Inductive LinkType := LFolder | LFile | LAlbum | LUnknown.

Definition LinkType_from_raw (raw : Z) : LinkType :=
  match raw with 1 => LFolder | 2 => LFile | 3 => LAlbum | _ => LUnknown end.

Inductive LinkState := LDraft | LActive | LTrashed | LDeleted | LRestoring.

Definition LinkState_as_i32 (s : LinkState) : Z :=
  match s with LDraft => 0 | LActive => 1 | LTrashed => 2 | LDeleted => 3 | LRestoring => 4 end.

Definition parsed_type (l : LinkDto) : LinkType := LinkType_from_raw (ln_link_type l).

Definition is_trashed (l : LinkDto) : bool :=
  (ln_state l =? LinkState_as_i32 LTrashed)
  || bool_decide (is_Some (ln_trash_time l)) || bool_decide (is_Some (ln_trashed_legacy l)).

Record FolderDto := { fo_hash_key : string; fo_extended_attributes : option string }.

Record ActiveRevisionDto := {
  ar_id : string;
  ar_creation_time : Z;
  ar_state : option Z;
  ar_encrypted_size : Z;
  ar_signature_email : option string;
  ar_extended_attributes : option string;
  ar_third_party : bool;
  ar_sdk : bool
}.

Record FileDto := {
  fi_media_type : string;
  fi_total_size_on_storage : Z;
  fi_content_key_packet : option string;
  fi_content_key_signature : option string;
  fi_active_revision : option ActiveRevisionDto
}.

Record PhotoAlbumInclusionDto := { pa_album_link_id : LinkId; pa_creation_time : Z }.

Record PhotoDto := {
  ph_file : FileDto;
  ph_capture_time : Z;
  ph_content_hash : option string;
  ph_main_photo_link_id : option LinkId;
  ph_related_photo_link_ids : list LinkId;
  ph_tags : list Z;
  ph_album_inclusions : list PhotoAlbumInclusionDto
}.

Record AlbumDto := {
  al_hash_key : string;
  al_extended_attributes : option string;
  al_photo_count : Z;
  al_cover_link_id : option LinkId;
  al_last_activity_time : Z
}.

Record LinkSharingDto := { ls_share_id : ShareId; ls_share_url_id : option string }.

Record ShareMembershipSummaryDto := {
  sd_share_id : ShareId;
  sd_membership_id : string;
  sd_permissions : Z;
  sd_invite_time : option Z;
  sd_inviter_email : option string;
  sd_member_share_passphrase_key_packet : option string;
  sd_inviter_share_passphrase_key_packet_signature : option string
}.

Record LinkDetailsDto := {
  ld_link : LinkDto;
  ld_folder : option FolderDto;
  ld_file : option FileDto;
  ld_photo : option PhotoDto;
  ld_album : option AlbumDto;
  ld_sharing : option LinkSharingDto;
  ld_membership : option ShareMembershipSummaryDto
}.

Record LinkDetailsResponse := { lr_links : list LinkDetailsDto }.

Record LinkDetailsRequest := { lq_link_ids : list LinkId }.

Record FolderChildrenResponse := {
  fc_link_ids : list LinkId;
  fc_anchor_id : option LinkId;
  fc_more_results_exist : bool
}.

Record FolderProperties := { fp_hash_key : string; fp_extended_attributes : option string }.

Definition file_properties (d : LinkDetailsDto) : option FileDto :=
  match ld_file d with Some f => Some f | None => ph_file <$> ld_photo d end.

Definition folder_properties (d : LinkDetailsDto) : option FolderProperties :=
  match ld_folder d with
  | Some f => Some {| fp_hash_key := fo_hash_key f;
                      fp_extended_attributes := fo_extended_attributes f |}
  | None => (fun a => {| fp_hash_key := al_hash_key a;
                         fp_extended_attributes := al_extended_attributes a |}) <$> ld_album d
  end.

(** ** Keys *)

Record DecryptedLink (Key : Type) := { dl_node_key : Key; dl_name : string }.
Arguments dl_node_key {Key}. Arguments dl_name {Key}.

Definition decrypt_link {Key} `{KeyOps Key} (parent_key : Key) (link : LinkDto)
  : Res (DecryptedLink Key) :=
  let? passphrase := map_err Crypto (decrypt_armored_message parent_key (ln_passphrase link)) in
  let? node_key := map_err Crypto (key_from_armored (ln_key link) passphrase) in
  let? name_bytes := map_err Crypto (decrypt_armored_message parent_key (ln_name link)) in
  let? name := map_err (fun e => invalid_operation ("node name is not valid UTF-8: " +:+ e))
                 (utf8_text name_bytes) in
  Ok {| dl_node_key := node_key; dl_name := name |}.

(** The decrypted folder keys held in the client's state: a bounded map that may
    drop entries of its own accord when one is put. *)
Class KeyStore (S Key : Type) := {
  folder_key_get : NodeUid -> M S (option Key) ProtonError;
  folder_key_put : NodeUid -> Key -> M S unit ProtonError
}.

(** ** Parent keys of a batch *)

Inductive ParentKeyId := Parent (id : LinkId) | Root (id : LinkId).

#[global] Instance ParentKeyId_eq_dec : EqDecision ParentKeyId.
Proof. solve_decision. Defined.

#[global, refine] Instance ParentKeyId_countable : Countable ParentKeyId :=
  inj_countable' (fun k => match k with Parent i => inl i | Root i => inr i end)
    (fun s => match s with inl i => Parent i | inr i => Root i end) _.
Proof. by intros []. Defined.

Definition ParentKeyId_of (link : LinkDto) : ParentKeyId :=
  match ln_parent_id link with
  | Some parent_id => Parent parent_id
  | None => Root (ln_id link)
  end.

Fixpoint resolve_parent_keys_from {S K} (resolve : LinkDto -> FM S K ProtonError)
    (keys : gmap ParentKeyId K) (links : list LinkDetailsDto) : FM S (gmap ParentKeyId K) ProtonError :=
  match links with
  | [] => fret keys
  | details :: links =>
      let link := ld_link details in
      let id := ParentKeyId_of link in
      match keys !! id with
      | Some _ => resolve_parent_keys_from resolve keys links
      | None =>
          let+ outcome := ftry (resolve link) in
          match outcome with
          | Ok key => resolve_parent_keys_from resolve (<[id := key]> keys) links
          | Err _ => resolve_parent_keys_from resolve keys links
          end
      end
  end.

Definition resolve_parent_keys {S K} (links : list LinkDetailsDto)
    (resolve : LinkDto -> FM S K ProtonError) : FM S (gmap ParentKeyId K) ProtonError :=
  resolve_parent_keys_from resolve ∅ links.

(** ** The walk *)

Definition MAX_BATCH_COUNT : nat := 150.

Section Walk.
Context {S Key : Type} `{KeyOps Key} `{KeyStore S Key}.
(** [http.post_query] of link details. *)
Context (post_links : string -> LinkDetailsRequest -> M S LinkDetailsResponse ProtonError).
(** [entities.try_get_node] *)
Context (entity_node : NodeUid -> M S (option CachedNodeInfo) ProtonError).
Context (photos_share_key : M S Key ProtonError).
Context (root_link_share_key : VolumeId -> LinkId -> FM S Key ProtonError).

Definition get_link_details_ctx (volume_id : VolumeId) (link_ids : list LinkId) (for_photos : bool)
  : M S LinkDetailsResponse ProtonError :=
  let path := if for_photos then "photos/volumes/" +:+ volume_id +:+ "/links"
              else "v2/volumes/" +:+ volume_id +:+ "/links" in
  post_links path {| lq_link_ids := link_ids |}.

Definition get_link_details (volume_id : VolumeId) (link_ids : list LinkId)
  : M S LinkDetailsResponse ProtonError :=
  get_link_details_ctx volume_id link_ids false.

(** The loop of [cached_ancestor_run] with room for [room] more ids. *)
Fixpoint extend_run (room : nat) (volume_id : VolumeId) (current : LinkId) (run : list LinkId)
  : M S (list LinkId) ProtonError :=
  match room with
  | O => mret run
  | Datatypes.S room =>
      let* cached := mtry (entity_node (NodeUid_new volume_id current)) in
      match cached with
      | Ok (Some info) =>
          match nd_parent_uid (ci_node info) with
          | None => mret run
          | Some parent_uid =>
              let* held := folder_key_get parent_uid in
              match held with
              | Some _ => mret run
              | None => extend_run room volume_id (link_id parent_uid) (run ++ [link_id parent_uid])
              end
          end
      | _ => mret run
      end
  end.

Definition cached_ancestor_run (volume_id : VolumeId) (first : LinkId)
  : M S (list LinkId) ProtonError :=
  extend_run (MAX_BATCH_COUNT - 1) volume_id first [first].

(** [collect] into a [HashMap]: a later link replaces an earlier one of its id. *)
Definition links_by_id (details : list LinkDetailsDto) : gmap LinkId LinkDto :=
  foldl (fun m d => <[ln_id (ld_link d) := ld_link d]> m) ∅ details.

(** The [for] over the run: the ancestors in order, and where the climb goes on. *)
Fixpoint take_ancestors (volume_id : VolumeId) (run : list LinkId) (by_id : gmap LinkId LinkDto)
    (ancestry : list LinkDto) (current : option LinkId) : Res (list LinkDto * option LinkId) :=
  match run with
  | [] => Ok (ancestry, current)
  | ancestor_id :: run =>
      let? ancestor := ok_or (by_id !! ancestor_id)
        (invalid_operation ("ancestor " +:+ NodeUid_display (NodeUid_new volume_id ancestor_id)
                              +:+ " not found")) in
      take_ancestors volume_id run (delete ancestor_id by_id) (ancestry ++ [ancestor])
        (ln_parent_id ancestor)
  end.

(** The [while let] loop; the fuel bounds the batches fetched. *)
Fixpoint climb (fuel : nat) (volume_id : VolumeId) (for_photos : bool) (ancestry : list LinkDto)
    (current : option LinkId) : FM S (list LinkDto * option Key) ProtonError :=
  match current with
  | None => fret (ancestry, None)
  | Some parent_id =>
      match fuel with
      | O => fun _ => None
      | Datatypes.S fuel =>
          let+ held := flift (folder_key_get (NodeUid_new volume_id parent_id)) in
          match held with
          | Some key => fret (ancestry, Some key)
          | None =>
              let+ run := flift (cached_ancestor_run volume_id parent_id) in
              let+ details := flift (get_link_details_ctx volume_id run for_photos) in
              let+ (ancestry, current) := flift (mlift
                (take_ancestors volume_id run (links_by_id (lr_links details)) ancestry None)) in
              climb fuel volume_id for_photos ancestry current
          end
      end
  end.

(** The way down, over the ancestors from the topmost. *)
Fixpoint descend (volume_id : VolumeId) (key : Key) (ancestors : list LinkDto)
  : M S Key ProtonError :=
  match ancestors with
  | [] => mret key
  | ancestor :: ancestors =>
      let* decrypted := mlift (decrypt_link key ancestor) in
      let* _ := folder_key_put (NodeUid_new volume_id (ln_id ancestor)) (dl_node_key decrypted) in
      descend volume_id (dl_node_key decrypted) ancestors
  end.

Definition resolve_parent_key_walk (fuel : nat) (volume_id : VolumeId) (link : LinkDto)
    (for_photos : bool) : FM S Key ProtonError :=
  let+ (ancestry, base_key) := climb fuel volume_id for_photos [] (ln_parent_id link) in
  let+ key := match base_key with
              | Some key => fret key
              | None =>
                  if for_photos then flift photos_share_key
                  else root_link_share_key volume_id
                         (match last ancestry with Some a => ln_id a | None => ln_id link end)
              end in
  flift (descend volume_id key (rev ancestry)).

(** The walk behind the fast path; concurrent callers share one walk through
    [SingleFlight]. *)
Definition resolve_parent_key_ctx (fuel : nat) (volume_id : VolumeId) (link : LinkDto)
    (for_photos : bool) : FM S Key ProtonError :=
  let+ held := flift (match ln_parent_id link with
                      | Some parent_id => folder_key_get (NodeUid_new volume_id parent_id)
                      | None => mret None
                      end) in
  match held with
  | Some key => fret key
  | None => resolve_parent_key_walk fuel volume_id link for_photos
  end.

Definition resolve_parent_key (fuel : nat) (volume_id : VolumeId) (link : LinkDto)
  : FM S Key ProtonError :=
  resolve_parent_key_ctx fuel volume_id link false.

Definition folder_node_key (fuel : nat) (uid : NodeUid) : FM S Key ProtonError :=
  let+ held := flift (folder_key_get uid) in
  match held with
  | Some key => fret key
  | None =>
      let+ details := flift (get_link_details (volume_id uid) [link_id uid]) in
      let+ first := flift (mlift (ok_or (head (lr_links details))
        (invalid_operation ("folder " +:+ NodeUid_display uid +:+ " not found")))) in
      let link := ld_link first in
      let+ parent_key := resolve_parent_key fuel (volume_id uid) link in
      let+ decrypted := flift (mlift (decrypt_link parent_key link)) in
      let+ _ := flift (folder_key_put uid (dl_node_key decrypted)) in
      fret (dl_node_key decrypted)
  end.

Definition parent_hash_key_ctx (parent_uid : NodeUid) (parent_key : Key) (for_photos : bool)
  : M S string ProtonError :=
  let* details := get_link_details_ctx (volume_id parent_uid) [link_id parent_uid] for_photos in
  let not_folder := invalid_operation "parent node is not a folder" in
  let* detail := mlift (ok_or (head (lr_links details)) not_folder) in
  let* folder := mlift (ok_or (folder_properties detail) not_folder) in
  mlift (map_err Crypto (decrypt_armored_message parent_key (fp_hash_key folder))).

Definition parent_hash_key (parent_uid : NodeUid) (parent_key : Key) : M S string ProtonError :=
  parent_hash_key_ctx parent_uid parent_key false.
End Walk.

(** ** Listings

    Both clients list a folder by the same loop over its pages. *)

Section Listing.
Context {S : Type} (get_children : string -> M S FolderChildrenResponse ProtonError).

Definition children_path (folder_uid : NodeUid) (anchor : option LinkId) : string :=
  "v2/volumes/" +:+ volume_id folder_uid +:+ "/folders/" +:+ link_id folder_uid +:+ "/children"
  +:+ match anchor with Some anchor_id => "?AnchorID=" +:+ anchor_id | None => EmptyString end.

(** The [loop] of [enumerate_folder_children_node_uids]; the fuel bounds the pages. *)
Fixpoint children_pages (fuel : nat) (folder_uid : NodeUid) (uids : list NodeUid)
    (anchor : option LinkId) : FM S (list NodeUid) ProtonError :=
  match fuel with
  | O => fun _ => None
  | Datatypes.S fuel =>
      let+ page := flift (get_children (children_path folder_uid anchor)) in
      match fc_link_ids page with
      | [] => fret uids
      | link_ids =>
          let uids := uids ++ (NodeUid_new (volume_id folder_uid) <$> link_ids) in
          if negb (fc_more_results_exist page) then fret uids
          else match fc_anchor_id page with
               | None => fret uids
               | anchor => children_pages fuel folder_uid uids anchor
               end
      end
  end.
End Listing.
