(* ===== verification/LinksFacts.v ===== *)
(** * Facts about the key walk

    Against an honest server, the walk only ever yields the right key and only
    caches right keys, whatever the entity cache says and whichever requests
    fail; with an entity cache that is up to date it always succeeds.  An entity
    cache that is behind a move makes it fail. *)

From S2P Require Import Prelude Errors Config Keys Node.
From S2P Require Import EntityCache.
From S2P Require Import Links.

(** What a bounded map of folder keys promises: a put may evict, never invent. *)
Class KeyStoreLaws (S Key : Type) `{KeyStore S Key} := {
  key_at : S -> NodeUid -> option Key;
  key_get_spec uid s : exists s', folder_key_get uid s = (Ok (key_at s uid), s') /\
                         forall u, key_at s' u = key_at s u;
  key_put_spec uid k s : exists s', folder_key_put uid k s = (Ok tt, s') /\
                         forall u k', key_at s' u = Some k' -> u = uid /\ k' = k \/ key_at s u = Some k'
}.

(** ** The parent keys of a batch *)

Section ParentKeys.
Context {S K : Type} (resolve : LinkDto -> M S K ProtonError).

(** [resolve] with its calls and what they gave on record. *)
Definition logged (link : LinkDto) : M (list (ParentKeyId * option K) * S) K ProtonError :=
  fun '(log, s) => let (r, s') := resolve link s in
                   (r, (log ++ [(ParentKeyId_of link, ok r)], s')).

Definition resolved (calls : list (ParentKeyId * option K)) : list ParentKeyId :=
  omap (fun c => match c.2 with Some _ => Some c.1 | None => None end) calls.

Lemma elem_of_resolved id calls : id ∈ resolved calls <-> exists k, (id, Some k) ∈ calls.
Proof.
  unfold resolved. rewrite list_elem_of_omap. split.
  - intros ([i [k|]] & Hin & Heq); simpl in Heq; simplify_eq. by exists k.
  - intros [k Hin]. by exists (id, Some k).
Qed.

Lemma resolve_parent_keys_from_spec keys links log s :
  exists keys' calls s',
    resolve_parent_keys_from (fun link => flift (logged link)) keys links (log, s)
    = Some (Ok keys', (log ++ calls, s')) /\
    (forall id k, keys' !! id = Some k <-> keys !! id = Some k \/ (id, Some k) ∈ calls) /\
    NoDup (resolved calls) /\
    (forall id o, (id, o) ∈ calls -> keys !! id = None) /\
    (forall d, d ∈ links -> is_Some (keys !! ParentKeyId_of (ld_link d)) \/
                            (exists o, (ParentKeyId_of (ld_link d), o) ∈ calls)).
Proof.
  revert keys log s. induction links as [|d links IH]; intros keys log s; cbn [resolve_parent_keys_from].
  { exists keys, [], s. rewrite app_nil_r. split_and!; try done; [|constructor|..].
    - intros id k. rewrite elem_of_nil. naive_solver.
    - intros id o H. by apply elem_of_nil in H.
    - intros d H. by apply elem_of_nil in H. }
  set (id := ParentKeyId_of (ld_link d)). destruct (keys !! id) as [k|] eqn:Ek.
  { destruct (IH keys log s) as (keys' & calls & s' & E & H1 & H3 & H4 & H5).
    exists keys', calls, s'. split_and!; try done.
    intros d' [->|Hd]%elem_of_cons; [left; by exists k|by apply H5]. }
  unfold fbind, ftry, flift at 1, logged at 1. destruct (resolve (ld_link d) s) as [[key|e] s1]; cbn [ok]; fold id.
  - destruct (IH (<[id := key]> keys) (log ++ [(id, Some key)]) s1)
      as (keys' & calls & s' & E & H1 & H3 & H4 & H5).
    exists keys', ((id, Some key) :: calls), s'. rewrite E, <- app_assoc. split_and!; [done|..].
    + intros i k. rewrite H1, elem_of_cons. destruct (decide (i = id)) as [->|Hne].
      * rewrite lookup_insert_eq. naive_solver.
      * rewrite lookup_insert_ne by done. naive_solver.
    + apply NoDup_cons. split; [|done]. fold (resolved calls).
      intros [k Hin]%elem_of_resolved. apply H4 in Hin. by rewrite lookup_insert_eq in Hin.
    + intros i o [[= -> ->]|Hin]%elem_of_cons; [done|]. apply H4 in Hin.
      destruct (decide (i = id)) as [->|Hne]; [done|by rewrite lookup_insert_ne in Hin].
    + intros d' [->|Hd]%elem_of_cons; [right; exists (Some key); left|].
      destruct (H5 d' Hd) as [Hs|[o Ho]]; [|right; exists o; by right].
      destruct (decide (ParentKeyId_of (ld_link d') = id)) as [->|Hne]; [right; exists (Some key); left|].
      left. by rewrite lookup_insert_ne in Hs.
  - destruct (IH keys (log ++ [(id, None)]) s1) as (keys' & calls & s' & E & H1 & H3 & H4 & H5).
    exists keys', ((id, None) :: calls), s'. rewrite E, <- app_assoc. split_and!; [done|..].
    + intros i k. rewrite H1, elem_of_cons. naive_solver.
    + done.
    + intros i o [[= -> ->]|Hin]%elem_of_cons; [done|by eapply H4].
    + intros d' [->|Hd]%elem_of_cons; [right; exists None; left|].
      destruct (H5 d' Hd) as [Hs|[o Ho]]; [by left|right; exists o; by right].
Qed.

(** Resolving the parent keys of a batch asks for the key of every link of the
    batch, succeeds at most once per distinct key - so siblings share one
    resolution, a root is never confused with its children, and two roots never
    share a key - and the map it returns holds exactly the keys that resolved: a
    link whose key did not is left out and fails no other. *)
Theorem resolve_parent_keys_spec links s :
  exists keys calls s',
    resolve_parent_keys links (fun link => flift (logged link)) ([], s)
    = Some (Ok keys, (calls, s')) /\
    (forall id k, keys !! id = Some k <-> (id, Some k) ∈ calls) /\
    NoDup (resolved calls) /\
    (forall d, d ∈ links -> exists o, (ParentKeyId_of (ld_link d), o) ∈ calls).
Proof.
  destruct (resolve_parent_keys_from_spec ∅ links [] s)
    as (keys & calls & s' & E & H1 & H3 & _ & H5).
  exists keys, calls, s'. split_and!; [exact E| |done|].
  - intros id k. rewrite H1, lookup_empty. naive_solver.
  - intros d Hd. destruct (H5 d Hd) as [Hs|Hb]; [|done]. rewrite lookup_empty in Hs. by destruct Hs.
Qed.
End ParentKeys.

(** ** The walk *)

Section WalkFacts.
Context {S Key : Type} `{KeyOps Key} `{KeyStoreLaws S Key}.
Context (post_links : string -> LinkDetailsRequest -> M S LinkDetailsResponse ProtonError).
Context (entity_node : NodeUid -> M S (option CachedNodeInfo) ProtonError).
Context (photos_share_key : M S Key ProtonError).
Context (root_link_share_key : VolumeId -> LinkId -> FM S Key ProtonError).

(** The links that exist, and the keys they have. *)
Context (tree : VolumeId -> LinkId -> option LinkDto).
Context (node_key_of share_key_of : NodeUid -> Key).

(** The key a link was encrypted to. *)
Definition parent_key_of (volume_id : VolumeId) (link : LinkDto) : Key :=
  match ln_parent_id link with
  | Some parent_id => node_key_of (NodeUid_new volume_id parent_id)
  | None => share_key_of (NodeUid_new volume_id (ln_id link))
  end.

(** A link is opened by the key it was encrypted to, and by no other. *)
Definition sealed : Prop := forall vol id link, tree vol id = Some link ->
  ln_id link = id /\
  (exists name, decrypt_link (parent_key_of vol link) link
                = Ok {| dl_node_key := node_key_of (NodeUid_new vol id); dl_name := name |}) /\
  (forall k d, decrypt_link k link = Ok d -> k = parent_key_of vol link).

(** Every cached folder key is the right one. *)
Definition keys_right (s : S) : Prop := forall uid k, key_at s uid = Some k -> k = node_key_of uid.

Definition keeps {A} (m : M S A ProtonError) : Prop :=
  forall s r s', keys_right s -> m s = (r, s') -> keys_right s'.

Definition links_path (vol : VolumeId) (for_photos : bool) : string :=
  if for_photos then "photos/volumes/" +:+ vol +:+ "/links" else "v2/volumes/" +:+ vol +:+ "/links".

(** The rest of the client and its peers, while a request is under way, cache only
    right keys; a server that answers tells the truth about the links. *)
Record honest : Prop := {
  honest_sealed : sealed;
  honest_links vol ids for_photos s r s' :
    keys_right s -> post_links (links_path vol for_photos) {| lq_link_ids := ids |} s = (r, s') ->
    keys_right s' /\
    forall response d, r = Ok response -> d ∈ lr_links response ->
      tree vol (ln_id (ld_link d)) = Some (ld_link d) /\ ln_id (ld_link d) ∈ ids;
  honest_entities uid : keeps (entity_node uid);
  honest_root vol id s r s' :
    keys_right s -> root_link_share_key vol id s = Some (r, s') ->
    keys_right s' /\ forall k, r = Ok k -> k = share_key_of (NodeUid_new vol id);
  honest_photos s r s' :
    keys_right s -> photos_share_key s = (r, s') ->
    keys_right s' /\ forall k vol id link, r = Ok k -> tree vol id = Some link ->
                       ln_parent_id link = None -> k = share_key_of (NodeUid_new vol id)
}.

Context (Hh : honest).

Lemma get_keeps uid s r s' :
  keys_right s -> folder_key_get uid s = (r, s') -> keys_right s' /\ r = Ok (key_at s uid).
Proof.
  intros Hs E. destruct (key_get_spec uid s) as (s1 & E1 & Hk). rewrite E1 in E. simplify_eq.
  split; [|done]. intros u k. rewrite Hk. apply Hs.
Qed.

Lemma put_keeps uid s r s' :
  keys_right s -> folder_key_put uid (node_key_of uid) s = (r, s') -> keys_right s' /\ r = Ok tt.
Proof.
  intros Hs E. destruct (key_put_spec uid (node_key_of uid) s) as (s1 & E1 & Hk).
  rewrite E1 in E. simplify_eq. split; [|done].
  intros u k [[-> ->]|Hu]%Hk; [done|by apply Hs].
Qed.

Lemma links_by_id_tree vol (links : list LinkDetailsDto) :
  (forall d, d ∈ links -> tree vol (ln_id (ld_link d)) = Some (ld_link d)) ->
  forall id link, links_by_id links !! id = Some link -> tree vol id = Some link.
Proof.
  unfold links_by_id. intros Ht.
  enough (Hg : forall m : gmap LinkId LinkDto,
    (forall id link, m !! id = Some link -> tree vol id = Some link) -> forall id link,
    foldl (fun m d => <[ln_id (ld_link d) := ld_link d]> m) m links !! id = Some link ->
    tree vol id = Some link)
    by (apply Hg; intros id link; by rewrite lookup_empty).
  induction links as [|d links IH]; intros m Hm; [done|]. cbn [foldl].
  apply IH; [intros d' Hd; apply Ht; by right|].
  intros id link [[<- <-]|[_ Hl]]%lookup_insert_Some; [apply Ht; left|by apply Hm].
Qed.

Lemma extend_run_keeps room vol current run : keeps (extend_run entity_node room vol current run).
Proof.
  revert current run. induction room as [|room IH]; intros current run s r s' Hs;
    cbn [extend_run]; [by intros [= <- <-]|].
  unfold mbind_ at 1, mtry. destruct (entity_node _ s) as [c s1] eqn:Ee.
  pose proof (honest_entities Hh _ _ _ _ Hs Ee) as Hs1.
  destruct c as [[info|]|e]; [|by intros [= <- <-]..].
  destruct (nd_parent_uid _) as [pu|]; [|by intros [= <- <-]].
  unfold mbind_. destruct (folder_key_get pu s1) as [h s2] eqn:Eg.
  apply get_keeps in Eg as [Hs2 ->]; [|done].
  destruct (key_at s1 pu); [by intros [= <- <-]|]. by apply IH.
Qed.

(** The climb's result: links of the tree, the first being where it started. *)
Definition climbed (vol : VolumeId) (start : option LinkId) (ancestry : list LinkDto)
    (base : option Key) : Prop :=
  (forall a, a ∈ ancestry -> tree vol (ln_id a) = Some a) /\
  (forall a, head ancestry = Some a -> start = Some (ln_id a)) /\
  (ancestry = [] -> match base with
                    | Some k => exists id, start = Some id /\ k = node_key_of (NodeUid_new vol id)
                    | None => start = None
                    end).

Lemma take_ancestors_spec vol run (by_id : gmap LinkId LinkDto) ancestry current anc' current' :
  (forall id link, by_id !! id = Some link -> tree vol id = Some link) -> sealed ->
  take_ancestors vol run by_id ancestry current = Ok (anc', current') ->
  exists more, anc' = ancestry ++ more /\ (ln_id <$> more) = run /\
    (forall a, a ∈ more -> tree vol (ln_id a) = Some a) /\
    current' = match last more with Some a => ln_parent_id a | None => current end.
Proof.
  intros Hb Hseal. revert by_id ancestry current Hb.
  induction run as [|id run IH]; intros by_id ancestry current Hb; cbn [take_ancestors].
  { intros [= <- <-]. exists []. rewrite app_nil_r. split_and!; try done.
    intros a Ha. by apply elem_of_nil in Ha. }
  destruct (by_id !! id) as [a|] eqn:Ea; simpl; [|done].
  intros (more & -> & <- & Hm & ->)%IH.
  2:{ intros i l Hl. apply Hb. by apply lookup_delete_Some in Hl as [_ Hl]. }
  apply Hb in Ea. destruct (Hseal _ _ _ Ea) as [Hid _].
  exists (a :: more). rewrite <- app_assoc, fmap_cons, Hid. split_and!; try done.
  - intros x [->|Hx]%elem_of_cons; [by rewrite Hid|by apply Hm].
  - destruct more as [|b more]; [done|]. rewrite (last_cons_cons a).
    destruct (last (b :: more)) eqn:El; [done|]. by apply last_None in El.
Qed.

Lemma extend_run_prefix room vol current run s run' s' :
  extend_run entity_node room vol current run s = (Ok run', s') -> exists more, run' = run ++ more.
Proof.
  revert current run s. induction room as [|room IH]; intros current run s; cbn [extend_run].
  { intros [= <- _]. exists []. by rewrite app_nil_r. }
  assert (Hnil : exists more, run = run ++ more) by (exists []; by rewrite app_nil_r).
  unfold mbind_ at 1, mtry. destruct (entity_node _ s) as [c s1].
  destruct c as [[info|]|e]; [|by intros [= <- _]..].
  destruct (nd_parent_uid _) as [pu|]; [|by intros [= <- _]].
  unfold mbind_. destruct (folder_key_get pu s1) as [[[k|]|e] s2]; [by intros [= <- _]| |done].
  intros [more ->]%IH. exists ([link_id pu] ++ more). by rewrite app_assoc.
Qed.

Lemma get_details_honest vol ids for_photos s r s' :
  keys_right s -> get_link_details_ctx post_links vol ids for_photos s = (r, s') ->
  keys_right s' /\ forall response d, r = Ok response -> d ∈ lr_links response ->
    tree vol (ln_id (ld_link d)) = Some (ld_link d) /\ ln_id (ld_link d) ∈ ids.
Proof. apply (honest_links Hh). Qed.

Lemma climb_sound fuel vol for_photos start ancestry current s r s' :
  keys_right s ->
  (forall a, a ∈ ancestry -> tree vol (ln_id a) = Some a) ->
  (forall a, head ancestry = Some a -> start = Some (ln_id a)) ->
  (ancestry = [] -> current = start) ->
  climb post_links entity_node fuel vol for_photos ancestry current s = Some (r, s') ->
  keys_right s' /\ forall anc' base, r = Ok (anc', base) -> climbed vol start anc' base.
Proof.
  revert ancestry current s. induction fuel as [|fuel IH]; intros ancestry current s Hs Ht Hhd Hc;
    destruct current as [p|]; cbn [climb]; [done| | |].
  1,3: intros [= <- <-]; split; [done|]; intros anc' base [= <- <-]; split_and!; try done;
       intros ->; by rewrite <- Hc.
  unfold fbind at 1, flift. destruct (folder_key_get _ s) as [h s1] eqn:Eg.
  apply get_keeps in Eg as [Hs1 ->]; [|done].
  destruct (key_at s _) as [k|] eqn:Ek.
  { intros [= <- <-]. split; [done|]. intros anc' base [= <- <-]. split_and!; try done.
    intros ->. rewrite <- Hc by done. exists p. split; [done|]. by apply Hs. }
  unfold fbind at 1. destruct (cached_ancestor_run entity_node vol p s1) as [run s2] eqn:Er.
  pose proof (extend_run_keeps _ _ _ _ _ _ _ Hs1 Er) as Hs2.
  destruct run as [run|e]; [|by intros [= <- <-]].
  apply extend_run_prefix in Er as [more ->].
  unfold fbind at 1. destruct (get_link_details_ctx _ _ _ _ s2) as [resp s3] eqn:Ed.
  apply get_details_honest in Ed as [Hs3 Hd]; [|done].
  destruct resp as [resp|e]; [|by intros [= <- <-]].
  unfold fbind at 1, mlift.
  destruct (take_ancestors _ _ _ _ _) as [[anc1 cur1]|e] eqn:Ea; [|by intros [= <- <-]].
  apply take_ancestors_spec in Ea as (anc & -> & Hids & Hin & ->).
  3: apply (honest_sealed Hh).
  2: apply links_by_id_tree; intros d Hdin; by eapply Hd.
  assert (Hne : exists a anc', anc = a :: anc' /\ ln_id a = p).
  { destruct anc as [|a anc']; [done|]. injection Hids as Hids _. by exists a, anc'. }
  destruct Hne as (a & anc' & -> & Ha). apply IH; [done| | |by destruct ancestry].
  - intros x [Hx|Hx]%elem_of_app; [by apply Ht|by apply Hin].
  - intros x Hx. destruct ancestry as [|b ancestry]; [|by apply Hhd].
    injection Hx as <-. rewrite <- Hc by done. by rewrite Ha.
Qed.

Lemma descend_sound vol k ancestry s r s' :
  keys_right s -> (forall a, a ∈ ancestry -> tree vol (ln_id a) = Some a) ->
  descend vol k (rev ancestry) s = (r, s') ->
  keys_right s' /\ forall key, r = Ok key ->
    key = match head ancestry with Some a => node_key_of (NodeUid_new vol (ln_id a)) | None => k end.
Proof.
  revert k s. induction ancestry as [|a ancestry IH] using rev_ind; intros k s Hs Ht.
  { intros [= <- <-]. split; [done|]. by intros key [= <-]. }
  rewrite rev_app_distr. cbn [rev app descend]. unfold mbind_ at 1, mlift.
  assert (Hta : tree vol (ln_id a) = Some a) by (apply Ht; apply elem_of_app; right; left).
  destruct (honest_sealed Hh _ _ _ Hta) as (_ & [name Hopen] & Hexcl).
  destruct (decrypt_link k a) as [d|e] eqn:Ed; [|by intros [= <- <-]].
  apply Hexcl in Ed as Hk. subst k. rewrite Hopen in Ed. injection Ed as <-.
  unfold mbind_ at 1. cbn [dl_node_key].
  destruct (folder_key_put _ _ s) as [w s1] eqn:Ep. apply put_keeps in Ep as [Hs1 ->]; [|done].
  intros E. apply IH in E as [Hs' Hr]; [|done|intros b Hb; apply Ht; apply elem_of_app; by left].
  split; [done|]. intros key ->. rewrite (Hr key eq_refl). by destruct ancestry.
Qed.

Lemma walk_sound fuel vol link for_photos s r s' :
  keys_right s -> tree vol (ln_id link) = Some link ->
  resolve_parent_key_walk post_links entity_node photos_share_key root_link_share_key fuel vol link
    for_photos s = Some (r, s') ->
  keys_right s' /\ forall key, r = Ok key -> key = parent_key_of vol link.
Proof.
  intros Hs Ht. unfold resolve_parent_key_walk, fbind at 1.
  destruct (climb _ _ _ _ _ _ _ s) as [[c s1]|] eqn:Ec; [|done].
  apply (climb_sound _ _ _ (ln_parent_id link)) in Ec as [Hs1 Hc]; try done.
  2: intros a Ha; by apply elem_of_nil in Ha.
  destruct c as [[anc base]|e]; [|by intros [= <- <-]]. specialize (Hc anc base eq_refl).
  destruct Hc as (Hin & Hhd & Hnil). unfold fbind, flift.
  destruct base as [k|].
  - unfold fret. intros [= E]. apply descend_sound in E as [Hs' Hr]; [|done..]. split; [done|].
    intros key Hkey. rewrite (Hr key Hkey). unfold parent_key_of. destruct anc as [|a anc]; simpl.
    + destruct (Hnil eq_refl) as (id & -> & ->). done.
    + by rewrite (Hhd a eq_refl).
  - destruct (if for_photos then _ else _) as [[k s2]|] eqn:Es; [|done].
    assert (Hk : keys_right s2 /\ (anc = [] -> forall k', k = Ok k' -> k' = parent_key_of vol link)).
    { unfold parent_key_of. destruct for_photos.
      - injection Es as Es. apply (honest_photos Hh) in Es as [Hs2 Hk]; [|done]. split; [done|]. intros -> k' ->.
        rewrite (Hnil eq_refl). apply (Hk k' vol _ link); [done|done|by apply Hnil].
      - apply (honest_root Hh) in Es as [Hs2 Hk]; [|done]. split; [done|]. intros -> k' ->.
        rewrite (Hnil eq_refl). by apply Hk. }
    destruct Hk as [Hs2 Hk]. destruct k as [k|e]; [|by intros [= <- <-]].
    intros [= E]. apply descend_sound in E as [Hs' Hr]; [|done..]. split; [done|].
    intros key Hkey. rewrite (Hr key Hkey). destruct anc as [|a anc]; simpl; [by apply Hk|].
    unfold parent_key_of. by rewrite (Hhd a eq_refl).
Qed.

Lemma resolve_parent_key_ctx_sound fuel vol link for_photos s r s' :
  keys_right s -> tree vol (ln_id link) = Some link ->
  resolve_parent_key_ctx post_links entity_node photos_share_key root_link_share_key fuel vol link
    for_photos s = Some (r, s') ->
  keys_right s' /\ forall key, r = Ok key -> key = parent_key_of vol link.
Proof.
  intros Hs Ht. unfold resolve_parent_key_ctx, fbind at 1, flift.
  destruct (ln_parent_id link) as [p|] eqn:Ep.
  - destruct (folder_key_get _ s) as [h s1] eqn:Eg. apply get_keeps in Eg as [Hs1 ->]; [|done].
    destruct (key_at s _) as [k|] eqn:Ek; [|by apply walk_sound].
    intros [= <- <-]. split; [done|]. intros key [= <-]. unfold parent_key_of. rewrite Ep. by apply Hs.
  - unfold mret. by apply walk_sound.
Qed.

Lemma folder_key_sound fuel uid s r s' :
  keys_right s ->
  folder_node_key post_links entity_node photos_share_key root_link_share_key fuel uid s = Some (r, s') ->
  keys_right s' /\ forall key, r = Ok key -> key = node_key_of uid.
Proof.
  intros Hs. unfold folder_node_key, fbind at 1, flift.
  destruct (folder_key_get _ s) as [h s1] eqn:Eg. apply get_keeps in Eg as [Hs1 ->]; [|done].
  destruct (key_at s uid) as [k|] eqn:Ek.
  { intros [= <- <-]. split; [done|]. intros key [= <-]. by apply Hs. }
  unfold fbind at 1. destruct (get_link_details _ _ _ s1) as [resp s2] eqn:Ed.
  apply get_details_honest in Ed as [Hs2 Hd]; [|done].
  destruct resp as [resp|e]; [|by intros [= <- <-]].
  unfold fbind at 1, mlift. destruct (head (lr_links resp)) as [first|] eqn:Ef; cbn [ok_or];
    [|by intros [= <- <-]].
  destruct (Hd resp first eq_refl) as [Ht Hid]; [by apply head_Some_elem_of|].
  apply list_elem_of_singleton in Hid. unfold fbind at 1.
  destruct (resolve_parent_key _ _ _ _ _ _ _ s2) as [[k s3]|] eqn:Ek2; [|done].
  apply resolve_parent_key_ctx_sound in Ek2 as [Hs3 Hk]; [|done..].
  destruct k as [k|e]; [|by intros [= <- <-]]. rewrite (Hk k eq_refl).
  destruct (honest_sealed Hh _ _ _ Ht) as (_ & [name Hopen] & _). unfold fbind at 1.
  rewrite Hopen. unfold fbind. cbn [dl_node_key]. rewrite Hid.
  change (NodeUid_new (volume_id uid) (link_id uid)) with {| volume_id := volume_id uid; link_id := link_id uid |}.
  replace {| volume_id := volume_id uid; link_id := link_id uid |} with uid by by destruct uid.
  destruct (folder_key_put _ _ s3) as [w s4] eqn:Ep. apply put_keeps in Ep as [Hs4 ->]; [|done].
  intros [= <- <-]. split; [done|]. by intros key [= <-].
Qed.

(** C12: against an honest server, [folder_node_key] is sound whatever the entity cache
    holds, stale names of parents included, and whichever requests fail: a key it
    returns is the folder's own key, and the cache of folder keys never receives a
    wrong key, even on an error. *)
Theorem folder_node_key_sound fuel uid s r s' :
  keys_right s ->
  folder_node_key post_links entity_node photos_share_key root_link_share_key fuel uid s = Some (r, s') ->
  keys_right s' /\ forall key, r = Ok key -> key = node_key_of uid.
Proof. apply folder_key_sound. Qed.

(** *** With a reliable server and an entity cache that is up to date *)

Context (depth : VolumeId -> LinkId -> nat).

Record reliable : Prop := {
  links_answer vol ids for_photos s r s' :
    keys_right s -> post_links (links_path vol for_photos) {| lq_link_ids := ids |} s = (r, s') ->
    exists response, r = Ok response /\
      forall id link, id ∈ ids -> tree vol id = Some link ->
        exists d, d ∈ lr_links response /\ ld_link d = link;
  root_answers vol id s :
    keys_right s -> exists k s', root_link_share_key vol id s = Some (Ok k, s');
  photos_answer s r s' : keys_right s -> photos_share_key s = (r, s') -> exists k, r = Ok k;
  tree_closed vol id link p : tree vol id = Some link -> ln_parent_id link = Some p ->
    is_Some (tree vol p);
  tree_deep vol id link p : tree vol id = Some link -> ln_parent_id link = Some p ->
    (depth vol p < depth vol id)%nat;
  entities_fresh uid s info s' pu link :
    entity_node uid s = (Ok (Some info), s') -> nd_parent_uid (ci_node info) = Some pu ->
    tree (volume_id uid) (link_id uid) = Some link -> ln_parent_id link = Some (link_id pu)
}.

Context (Hr : reliable).

(** [anc] are the consecutive ancestors from [cur], the last one's parent being [end_]. *)
Fixpoint chain (vol : VolumeId) (cur : option LinkId) (anc : list LinkDto) (end_ : option LinkId) : Prop :=
  match anc with
  | [] => cur = end_
  | a :: anc => cur = Some (ln_id a) /\ tree vol (ln_id a) = Some a /\
                chain vol (ln_parent_id a) anc end_
  end.

Lemma chain_app vol cur anc1 anc2 end_ :
  chain vol cur (anc1 ++ anc2) end_ <-> exists m, chain vol cur anc1 m /\ chain vol m anc2 end_.
Proof.
  revert cur. induction anc1 as [|a anc1 IH]; intros cur; simpl; [naive_solver|]. rewrite IH.
  naive_solver.
Qed.

Lemma chain_last vol cur anc end_ :
  chain vol cur anc end_ -> end_ = match last anc with Some a => ln_parent_id a | None => cur end.
Proof.
  induction anc as [|a anc _] using rev_ind; [done|]. rewrite chain_app, last_snoc.
  by intros (m & _ & _ & _ & ->).
Qed.

Lemma chain_tree vol cur anc end_ a : chain vol cur anc end_ -> a ∈ anc -> tree vol (ln_id a) = Some a.
Proof.
  revert cur. induction anc as [|b anc IH]; intros cur; [by intros _ ?%elem_of_nil|].
  intros (_ & Hb & Hc) [->|Ha]%elem_of_cons; [done|by eapply IH].
Qed.

Lemma chain_depth vol p anc end_ a :
  chain vol (Some p) anc end_ -> a ∈ anc -> (depth vol (ln_id a) <= depth vol p)%nat.
Proof.
  revert p. induction anc as [|b anc IH]; intros p; [by intros _ ?%elem_of_nil|].
  intros ([= ->] & Hb & Hc) [->|Ha]%elem_of_cons; [done|].
  destruct (ln_parent_id b) as [q|] eqn:Eq.
  - specialize (IH q Hc Ha). pose proof (tree_deep Hr _ _ _ _ Hb Eq). lia.
  - destruct anc as [|c anc]; [by apply elem_of_nil in Ha|]. by destruct Hc as [Hc _].
Qed.

Lemma chain_end_depth vol p anc q :
  chain vol (Some p) anc (Some q) -> (depth vol q + length anc <= depth vol p)%nat.
Proof.
  revert p. induction anc as [|b anc IH]; intros p; simpl; [intros [= ->]; lia|].
  intros ([= ->] & Hb & Hc). destruct (ln_parent_id b) as [r|] eqn:Er.
  - specialize (IH r Hc). pose proof (tree_deep Hr _ _ _ _ Hb Er). lia.
  - destruct anc as [|c anc]; [done|]. by destruct Hc as [Hc _].
Qed.

Lemma links_by_id_has vol response link :
  (forall d, d ∈ lr_links response -> tree vol (ln_id (ld_link d)) = Some (ld_link d)) ->
  (exists d, d ∈ lr_links response /\ ld_link d = link) ->
  links_by_id (lr_links response) !! ln_id link = Some link.
Proof.
  intros Ht (d & Hd & <-).
  assert (Hsome : is_Some (links_by_id (lr_links response) !! ln_id (ld_link d))).
  { unfold links_by_id. generalize (∅ : gmap LinkId LinkDto) as m. clear Ht.
    induction (lr_links response) as [|e links IH]; [by apply elem_of_nil in Hd|]. intros m.
    cbn [foldl]. apply elem_of_cons in Hd as [<-|Hd]; [|by apply IH].
    clear IH. assert (Hm : is_Some (<[ln_id (ld_link d) := ld_link d]> m !! ln_id (ld_link d)))
      by (rewrite lookup_insert_eq; by eexists).
    revert Hm. generalize (<[ln_id (ld_link d) := ld_link d]> m) as m'.
    induction links as [|f links IH]; intros m' Hm; [done|]. cbn [foldl]. apply IH.
    rewrite lookup_insert_is_Some'. by right. }
  destruct Hsome as [l Hl]. rewrite Hl. pose proof (links_by_id_tree _ _ Ht _ _ Hl) as Hl'.
  rewrite (Ht d Hd) in Hl'. congruence.
Qed.

Lemma take_ancestors_chain vol cur anc end_ (by_id : gmap LinkId LinkDto) ancestry c0 :
  chain vol cur anc end_ -> (forall a, a ∈ anc -> by_id !! ln_id a = Some a) ->
  take_ancestors vol (ln_id <$> anc) by_id ancestry c0
  = Ok (ancestry ++ anc, match last anc with Some a => ln_parent_id a | None => c0 end).
Proof.
  revert cur by_id ancestry c0. induction anc as [|a anc IH]; intros cur by_id ancestry c0 Hc Hb;
    [by rewrite app_nil_r|].
  rewrite fmap_cons. cbn [take_ancestors]. rewrite Hb by left. cbn [ok_or result_bind].
  destruct Hc as (_ & Ha & Hc). rewrite (IH (ln_parent_id a)).
  - rewrite <- app_assoc. do 3 f_equal. destruct anc as [|b anc]; [done|].
    rewrite (last_cons_cons a). destruct (last (b :: anc)) eqn:El; [done|]. by apply last_None in El.
  - done.
  - intros b Hin. rewrite lookup_delete_ne; [apply Hb; by right|].
    intros Heq. destruct (ln_parent_id a) as [p|] eqn:Ep.
    + pose proof (chain_depth _ _ _ _ _ Hc Hin). pose proof (tree_deep Hr _ _ _ _ Ha Ep).
      rewrite Heq in *. lia.
    + destruct anc as [|c anc]; [by apply elem_of_nil in Hin|]. by destruct Hc as [Hc _].
Qed.

Lemma extend_run_chain room vol current link run s :
  keys_right s -> tree vol current = Some link ->
  exists anc end_ s', extend_run entity_node room vol current run s = (Ok (run ++ (ln_id <$> anc)), s') /\
    chain vol (ln_parent_id link) anc end_.
Proof.
  revert current link run s. induction room as [|room IH]; intros current link run s Hs Ht;
    cbn [extend_run].
  { exists [], (ln_parent_id link), s. by rewrite app_nil_r. }
  assert (Hstop : forall s1 : S, exists anc end_ s',
            (@Ok _ ProtonError run, s1) = (Ok (run ++ (ln_id <$> anc)), s') /\
            chain vol (ln_parent_id link) anc end_).
  { intros s1. exists [], (ln_parent_id link), s1. by rewrite app_nil_r. }
  unfold mbind_ at 1, mtry. destruct (entity_node _ s) as [c s1] eqn:Ee.
  pose proof (honest_entities Hh _ _ _ _ Hs Ee) as Hs1.
  destruct c as [[info|]|e]; [|apply Hstop..].
  destruct (nd_parent_uid _) as [pu|] eqn:Ep; [|apply Hstop].
  pose proof (entities_fresh Hr _ _ _ _ _ _ Ee Ep Ht) as Hp.
  unfold mbind_. destruct (folder_key_get pu s1) as [h s2] eqn:Eg.
  apply get_keeps in Eg as [Hs2 ->]; [|done].
  destruct (key_at s1 pu); [apply Hstop|].
  destruct (tree_closed Hr _ _ _ _ Ht Hp) as [parent Hparent].
  destruct (honest_sealed Hh _ _ _ Hparent) as [Hid _].
  destruct (IH (link_id pu) parent (run ++ [link_id pu]) s2 Hs2 Hparent) as (anc & end_ & s' & E & Hc).
  exists (parent :: anc), end_, s'. rewrite E, fmap_cons, Hid, <- app_assoc. split; [done|].
  simpl. rewrite Hp, Hid. by split_and!.
Qed.

Lemma climb_complete fuel vol for_photos ancestry start current s :
  keys_right s -> chain vol start ancestry current ->
  (forall p, current = Some p -> is_Some (tree vol p) /\ (depth vol p < fuel)%nat) ->
  exists anc base end_ s',
    climb post_links entity_node fuel vol for_photos ancestry current s = Some (Ok (anc, base), s') /\
    chain vol start anc end_ /\
    match base with
    | Some k => exists id, end_ = Some id /\ k = node_key_of (NodeUid_new vol id)
    | None => end_ = None
    end /\ keys_right s'.
Proof.
  revert ancestry current s. induction fuel as [|fuel IH]; intros ancestry current s Hs Hc Hp;
    destruct current as [p|]; cbn [climb].
  - destruct (Hp p eq_refl). lia.
  - by exists ancestry, None, None, s.
  - unfold fbind at 1, flift. destruct (folder_key_get _ s) as [h s1] eqn:Eg.
    apply get_keeps in Eg as [Hs1 ->]; [|done].
    destruct (key_at s _) as [k|] eqn:Ek.
    { exists ancestry, (Some k), (Some p), s1. split_and!; try done. exists p. split; [done|]. by apply Hs. }
    destruct (Hp p eq_refl) as [[link Ht] Hd].
    unfold fbind at 1, cached_ancestor_run.
    destruct (extend_run_chain (MAX_BATCH_COUNT - 1) vol p link [p] s1 Hs1 Ht) as (anc & end_ & s2 & Er & Hca).
    rewrite Er. pose proof (extend_run_keeps _ _ _ _ _ _ _ Hs1 Er) as Hs2.
    unfold fbind at 1. destruct (get_link_details_ctx _ _ _ _ s2) as [resp s3] eqn:Ed.
    destruct (links_answer Hr _ _ _ _ _ _ Hs2 Ed) as (response & -> & Hans).
    apply get_details_honest in Ed as [Hs3 Hdet]; [|done].
    destruct (honest_sealed Hh _ _ _ Ht) as [Hid _].
    assert (Hca2 : chain vol (Some p) (link :: anc) end_) by (simpl; by rewrite Hid).
    unfold fbind at 1, mlift.
    replace ([p] ++ (ln_id <$> anc)) with (ln_id <$> (link :: anc)) in * by (rewrite fmap_cons; by rewrite Hid).
    rewrite (take_ancestors_chain vol (Some p) (link :: anc) end_).
    + assert (Hend : match last (link :: anc) with Some a => ln_parent_id a | None => None end = end_).
      { rewrite (chain_last _ _ _ _ Hca2). destruct (last (link :: anc)) eqn:El; [done|].
        by apply last_None in El. }
      rewrite Hend. apply IH; [done| |].
      * apply chain_app. by exists (Some p).
      * intros q ->. pose proof (chain_end_depth _ _ _ _ Hca2) as Hq. simpl in Hq. split; [|lia].
        destruct (last (link :: anc)) as [a|] eqn:El; [|done].
        apply last_Some in El as [l El].
        apply (tree_closed Hr vol (ln_id a) a); [|done].
        apply (chain_tree _ _ _ _ _ Hca2). rewrite El. apply elem_of_app. right. left.
    + done.
    + intros a Ha. apply (links_by_id_has vol).
      * intros d Hdin. by eapply Hdet.
      * apply (Hans (ln_id a)); [by apply list_elem_of_fmap_2|]. by eapply chain_tree.
  - by exists ancestry, None, None, s.
Qed.

Lemma descend_complete vol k cur anc end_ s :
  keys_right s -> chain vol cur anc end_ ->
  (forall a, last anc = Some a -> k = parent_key_of vol a) ->
  exists key s', descend vol k (rev anc) s = (Ok key, s') /\ keys_right s'.
Proof.
  revert k end_ s. induction anc as [|a anc IH] using rev_ind; intros k end_ s Hs Hc Hk.
  { by exists k, s. }
  rewrite rev_app_distr. cbn [rev app descend]. unfold mbind_ at 1, mlift.
  apply chain_app in Hc as (m & Hc & -> & Ha & Hend).
  destruct (honest_sealed Hh _ _ _ Ha) as (_ & [name Hopen] & _).
  rewrite (Hk a) by apply last_snoc. rewrite Hopen. cbn [dl_node_key]. unfold mbind_ at 1.
  destruct (folder_key_put _ _ s) as [w s1] eqn:Ep. apply put_keeps in Ep as [Hs1 ->]; [|done].
  apply (IH _ (Some (ln_id a))); [done..|]. intros b Hb. apply chain_last in Hc. rewrite Hb in Hc.
  unfold parent_key_of. by rewrite <- Hc.
Qed.

Lemma walk_complete fuel vol link for_photos s :
  keys_right s -> tree vol (ln_id link) = Some link ->
  (depth vol (ln_id link) <= fuel)%nat ->
  exists s', resolve_parent_key_walk post_links entity_node photos_share_key root_link_share_key fuel vol
    link for_photos s = Some (Ok (parent_key_of vol link), s') /\ keys_right s'.
Proof.
  intros Hs Ht Hf.
  enough (exists key s', resolve_parent_key_walk post_links entity_node photos_share_key
            root_link_share_key fuel vol link for_photos s = Some (Ok key, s')) as (key & s' & E).
  { destruct (walk_sound _ _ _ _ _ _ _ Hs Ht E) as [Hs' Hk]. exists s'. by rewrite <- (Hk key eq_refl). }
  unfold resolve_parent_key_walk, fbind at 1.
  destruct (climb_complete fuel vol for_photos [] (ln_parent_id link) (ln_parent_id link) s)
    as (anc & base & end_ & s1 & E & Hc & Hb & Hs1); [done|done| |].
  { intros p Hp. split; [by eapply tree_closed|]. pose proof (tree_deep Hr _ _ _ _ Ht Hp). lia. }
  rewrite E. unfold fbind, flift. pose proof (chain_last _ _ _ _ Hc) as Hlast.
  destruct base as [k|].
  - destruct Hb as (id & -> & ->). unfold fret.
    destruct (descend_complete vol (node_key_of (NodeUid_new vol id)) (ln_parent_id link) anc (Some id) s1)
      as (key & s' & Ed & _); [done..| |by exists key, s'; rewrite Ed].
    intros a Ha. rewrite Ha in Hlast. unfold parent_key_of. by rewrite <- Hlast.
  - subst end_.
    assert (Hroot : exists k s2,
      (if for_photos then fun s => Some (photos_share_key s)
       else root_link_share_key vol (match last anc with Some a => ln_id a | None => ln_id link end)) s1
      = Some (Ok k, s2) /\ keys_right s2 /\ forall a, last anc = Some a -> k = parent_key_of vol a).
    { destruct for_photos.
      - destruct (photos_share_key s1) as [k s2] eqn:Es.
        destruct (photos_answer Hr _ _ _ Hs1 Es) as [k' ->].
        destruct (honest_photos Hh _ _ _ Hs1 Es) as [Hs2 Hk]. exists k', s2. split; [done|]. split; [done|].
        intros a Ha. rewrite Ha in Hlast. unfold parent_key_of. rewrite <- Hlast.
        apply (Hk k' vol (ln_id a) a); [done| |done]. apply last_Some in Ha as [l ->].
        eapply chain_tree; [exact Hc|]. apply elem_of_app. right. left.
      - destruct (root_answers Hr vol (match last anc with Some a => ln_id a | None => ln_id link end) _ Hs1)
          as (k' & s2 & Es).
        destruct (honest_root Hh _ _ _ _ _ Hs1 Es) as [Hs2 Hk]. exists k', s2. split_and!; try done.
        intros a Ha. rewrite Ha in Hlast, Hk. unfold parent_key_of. rewrite <- Hlast. by apply Hk. }
    destruct Hroot as (k & s2 & Es & Hs2 & Hk). cbv match.
    match goal with |- context [match ?m with Some _ => _ | None => _ end] =>
      replace m with (Some (@Ok Key ProtonError k, s2)) by exact (eq_sym Es) end.
    destruct (descend_complete vol k (ln_parent_id link) anc None s2) as (key & s' & Ed & _); [done..|].
    exists key, s'. by rewrite Ed.
Qed.

(** C11: with a server that answers and an entity cache that names no wrong parent,
    [folder_node_key] always returns the folder's own key: the climb ends within
    as many batches as the folder is deep, each ancestor is fetched, and every
    decryption on the way down succeeds. *)
Theorem folder_node_key_complete fuel uid link s :
  keys_right s -> tree (volume_id uid) (link_id uid) = Some link ->
  (depth (volume_id uid) (link_id uid) <= fuel)%nat ->
  exists s', folder_node_key post_links entity_node photos_share_key root_link_share_key fuel uid s
             = Some (Ok (node_key_of uid), s') /\ keys_right s'.
Proof.
  intros Hs Ht Hf.
  enough (exists key s', folder_node_key post_links entity_node photos_share_key root_link_share_key
            fuel uid s = Some (Ok key, s')) as (key & s' & E).
  { destruct (folder_key_sound _ _ _ _ _ Hs E) as [Hs' Hk]. exists s'. by rewrite <- (Hk key eq_refl). }
  unfold folder_node_key, fbind at 1, flift.
  destruct (folder_key_get _ s) as [h s1] eqn:Eg. apply get_keeps in Eg as [Hs1 ->]; [|done].
  destruct (key_at s uid) as [k|]; [by exists k, s1|].
  unfold fbind at 1. destruct (get_link_details _ _ _ s1) as [resp s2] eqn:Ed.
  destruct (links_answer Hr (volume_id uid) [link_id uid] false _ _ _ Hs1 Ed) as (response & -> & Hans).
  apply get_details_honest in Ed as [Hs2 Hd]; [|done].
  destruct (Hans (link_id uid) link) as (d0 & Hd0 & _); [left|done|].
  destruct (head (lr_links response)) as [first|] eqn:Ef;
    [|by apply head_None in Ef; rewrite Ef in Hd0; apply elem_of_nil in Hd0].
  destruct (Hd response first eq_refl) as [Ht1 Hid]; [by apply head_Some_elem_of|].
  apply list_elem_of_singleton in Hid. unfold fbind at 1, mlift. cbn [ok_or].
  destruct (honest_sealed Hh _ _ _ Ht1) as (_ & [name Hopen] & _).
  assert (Hkey : exists s3, resolve_parent_key post_links entity_node photos_share_key
            root_link_share_key fuel (volume_id uid) (ld_link first) s2
            = Some (Ok (parent_key_of (volume_id uid) (ld_link first)), s3)).
  { unfold resolve_parent_key, resolve_parent_key_ctx, fbind at 1, flift.
    destruct (ln_parent_id (ld_link first)) as [p|] eqn:Ep.
    - destruct (folder_key_get _ s2) as [h s3] eqn:Eg. apply get_keeps in Eg as [Hs3 ->]; [|done].
      destruct (key_at s2 _) as [k|] eqn:Ek.
      + exists s3. unfold parent_key_of. rewrite Ep. by rewrite (Hs2 _ _ Ek).
      + destruct (walk_complete fuel (volume_id uid) (ld_link first) false s3) as (s4 & E & _);
          [done..|by rewrite Hid|by exists s4].
    - destruct (walk_complete fuel (volume_id uid) (ld_link first) false s2) as (s4 & E & _);
        [done..|by rewrite Hid|by exists s4]. }
  destruct Hkey as [s3 Ek]. unfold fbind at 1. rewrite Ek. unfold fbind at 1. rewrite Hopen.
  unfold fbind. cbn [dl_node_key].
  destruct (key_put_spec uid (node_key_of (NodeUid_new (volume_id uid) (ln_id (ld_link first)))) s3)
    as (s4 & Ep & _).
  rewrite Ep. by eexists _, s4.
Qed.

(** *** An entity cache that is behind *)

Lemma climb_prefix fuel vol for_photos ancestry current s anc' base s' :
  climb post_links entity_node fuel vol for_photos ancestry current s = Some (Ok (anc', base), s') ->
  exists more, anc' = ancestry ++ more.
Proof.
  revert ancestry current s. induction fuel as [|fuel IH]; intros ancestry current s;
    destruct current as [p|]; cbn [climb]; [done| | |].
  1,3: intros [= <- _ _]; exists []; by rewrite app_nil_r.
  unfold fbind at 1, flift. destruct (folder_key_get _ s) as [[[k|]|e] s1]; [| |done].
  { intros [= <- _ _]. exists []. by rewrite app_nil_r. }
  unfold fbind at 1. destruct (cached_ancestor_run _ vol p s1) as [[run|e] s2]; [|done].
  unfold fbind at 1. destruct (get_link_details_ctx _ _ _ _ s2) as [[resp|e] s3]; [|done].
  unfold fbind at 1, mlift. generalize (links_by_id (lr_links resp)) as by_id.
  assert (Htake : forall run by_id anc c0 anc1 c1, take_ancestors vol run by_id anc c0 = Ok (anc1, c1) ->
            exists more, anc1 = anc ++ more).
  { clear. induction run as [|i run IH]; intros by_id anc c0 anc1 c1; cbn [take_ancestors].
    - intros [= <- _]. exists []. by rewrite app_nil_r.
    - destruct (by_id !! i) as [a|]; simpl; [|done]. intros [more ->]%IH.
      exists (a :: more). by rewrite <- app_assoc. }
  intros by_id. destruct (take_ancestors _ _ _ _ _) as [[anc1 c1]|e] eqn:Ea; [|done].
  apply Htake in Ea as [m1 ->]. intros [m2 ->]%IH. exists (m1 ++ m2). by rewrite app_assoc.
Qed.

Lemma descend_last vol k a ancestry s key s' :
  descend vol k (rev (a :: ancestry)) s = (Ok key, s') ->
  exists k' s1 d, descend vol k (rev ancestry) s = (Ok k', s1) /\ decrypt_link k' a = Ok d.
Proof.
  cbn [rev]. generalize (rev ancestry) as l. intros l. revert k s.
  induction l as [|b l IH]; intros k s; cbn [app descend].
  - unfold mbind_ at 1, mlift. destruct (decrypt_link k a) as [d|e] eqn:Ed; [|done].
    intros _. by exists k, s, d.
  - unfold mbind_ at 1 3, mlift. destruct (decrypt_link k b) as [d|e]; [|done].
    unfold mbind_ at 1 2. destruct (folder_key_put _ _ s) as [[[]|e] s1]; [|done]. apply IH.
Qed.

(** The run of ancestors to fetch is named by the entity cache and never compared
    with what the server says: when the cache still names a folder's former parent
    after a move, and neither key is held, the walk from that folder's children
    decrypts the folder with the former parent's key and never returns a key,
    although the server's answer named the true parent. *)
Theorem stale_parent_fails vol link p folder former info fuel s r s' :
  keys_right s -> ln_parent_id link = Some p -> tree vol p = Some folder ->
  (forall s, exists s', entity_node (NodeUid_new vol p) s = (Ok (Some info), s') /\
                        forall u, key_at s' u = key_at s u) ->
  nd_parent_uid (ci_node info) = Some former ->
  key_at s (NodeUid_new vol p) = None -> key_at s former = None ->
  node_key_of (NodeUid_new vol (link_id former)) <> parent_key_of vol folder ->
  resolve_parent_key_walk post_links entity_node photos_share_key root_link_share_key fuel vol link
    false s = Some (r, s') ->
  exists e, r = Err e.
Proof.
  intros Hs Hp Ht Hent Hpu Hk1 Hk2 Hne. unfold resolve_parent_key_walk, fbind at 1. rewrite Hp.
  destruct fuel as [|fuel]; [done|]. cbn [climb]. unfold fbind at 1, flift at 1.
  destruct (key_get_spec (NodeUid_new vol p) s) as (s1 & Eg & Hv1). rewrite Eg, Hk1.
  assert (Hs1 : keys_right s1) by (intros u k; rewrite Hv1; apply Hs).
  unfold fbind at 1, flift at 1. destruct (cached_ancestor_run entity_node vol p s1) as [run s2] eqn:Er.
  pose proof (extend_run_keeps _ _ _ _ _ _ _ Hs1 Er) as Hs2.
  destruct run as [run|e]; [|intros [= <- <-]; by exists e].
  assert (Hrun : exists more, run = p :: link_id former :: more).
  { revert Er. unfold cached_ancestor_run. change (MAX_BATCH_COUNT - 1)%nat with 149%nat. cbn [extend_run].
    unfold mbind_ at 1, mtry. destruct (Hent s1) as (s3 & Ee & Hv3). rewrite Ee, Hpu.
    unfold mbind_ at 1. destruct (key_get_spec former s3) as (s4 & Eg4 & _).
    rewrite Eg4, Hv3, Hv1, Hk2. intros E. apply (extend_run_prefix 148) in E as [more ->].
    by exists more. }
  destruct Hrun as [more ->].
  unfold fbind at 1, flift at 1. destruct (get_link_details_ctx _ _ _ _ s2) as [resp s3] eqn:Ed.
  apply get_details_honest in Ed as [Hs3 Hd]; [|done].
  destruct resp as [resp|e]; [|intros [= <- <-]; by exists e].
  unfold fbind at 1, flift at 1, mlift.
  destruct (take_ancestors _ _ _ _ _) as [[anc1 cur1]|e] eqn:Ea; [|intros [= <- <-]; by exists e].
  apply take_ancestors_spec in Ea as (anc & -> & Hids & Hin & Hcur).
  3: apply (honest_sealed Hh).
  2: apply links_by_id_tree; intros d Hdin; by eapply Hd.
  destruct anc as [|a [|b anc]]; [done..|]. injection Hids as Ha Hb _.
  assert (Hfolder : a = folder).
  { pose proof (Hin a ltac:(left)) as Hta. rewrite Ha, Ht in Hta. congruence. }
  subst a. rewrite app_nil_l.
  destruct (climb _ _ _ _ _ _ _ s3) as [[c s4]|] eqn:Ec; [|done].
  pose proof Ec as Ec2. apply (climb_sound _ _ _ (Some p)) in Ec2 as [Hs4 Hc4]; [|done|done| |done].
  2:{ intros x [= <-]. by rewrite Ha. }
  destruct c as [[anc' base]|e]; [|intros [= <- <-]; by exists e].
  apply climb_prefix in Ec as [rest ->]. destruct (Hc4 _ _ eq_refl) as (Hin4 & _ & _).
  unfold fbind, flift. clear Hcur.
  destruct ((match base with
             | Some k => fret k
             | None => root_link_share_key vol
                 (match last ((folder :: b :: anc) ++ rest) with Some a => ln_id a | None => ln_id link end)
             end) s4) as [[key s5]|] eqn:Ek; [|done].
  destruct key as [key|e]; [|intros [= <- <-]; by exists e].
  assert (Hs5 : keys_right s5).
  { destruct base as [k|]; [by injection Ek as <- <-|]. by apply (honest_root Hh) in Ek as [Hs5 _]. }
  intros [= E]. destruct r as [k|e]; [|by exists e]. exfalso.
  change ((rev (anc ++ rest) ++ [b]) ++ [folder]) with (rev (folder :: b :: anc ++ rest)) in E.
  apply descend_last in E as (k' & s6 & d & E & Hopen).
  apply descend_sound in E as [_ Hk']; [|done|intros x Hx; apply Hin4; by right].
  specialize (Hk' k' eq_refl). simpl in Hk'.
  destruct (honest_sealed Hh _ _ _ Ht) as (_ & _ & Hexcl). apply Hexcl in Hopen.
  apply Hne. by rewrite <- Hopen, Hk', Hb.
Qed.
End WalkFacts.

(** ** A small volume

    A root with two folders, and a folder inside one of them; the keys are named
    after their owners and a message names the key it is for. *)

#[export] Instance toy_keyops : KeyOps string := {
  decrypt_armored_message k m :=
    match Str.split_once ":" m with
    | Some (k', payload) => if String.eqb k k' then Ok payload else Err (CDecrypt "missing key")
    | None => Err (CDecrypt "not a message")
    end;
  key_from_armored armored _ := Ok armored;
  utf8_text s := Ok s
}.

#[export] Instance toy_keystore : KeyStore (gmap NodeUid string) string := {
  folder_key_get uid s := (Ok (s !! uid), s);
  folder_key_put uid k s := (Ok tt, <[uid := k]> s)
}.

#[export, refine] Instance toy_keystore_laws : KeyStoreLaws (gmap NodeUid string) string := {
  key_at s uid := s !! uid
}.
Proof.
  - intros uid s. by exists s.
  - intros uid k s. eexists. split; [done|]. intros u k' [[<- <-]|[_ Hu]]%lookup_insert_Some; auto.
Defined.

Definition toy_parent_key (parent : option LinkId) : string :=
  match parent with Some p => "key-" +:+ p | None => "share" end.

Definition toy_link (id : LinkId) (parent : option LinkId) : LinkDto :=
  {| ln_id := id; ln_link_type := 1; ln_parent_id := parent; ln_state := 1; ln_creation_time := 0;
     ln_modification_time := 0; ln_trash_time := None; ln_trashed_legacy := None;
     ln_name := toy_parent_key parent +:+ ":name"; ln_name_hash := None;
     ln_key := "key-" +:+ id; ln_passphrase := toy_parent_key parent +:+ ":pass";
     ln_passphrase_signature := None; ln_signature_email := None; ln_name_signature_email := None;
     ln_third_party := false; ln_sdk := false |}.

(** [r] holds [a] and [b]; [f] is in [a]. *)
Definition toy_links : list LinkDto :=
  [toy_link "r" None; toy_link "a" (Some "r"); toy_link "b" (Some "r"); toy_link "f" (Some "a")].

Definition toy_tree (_ : VolumeId) (id : LinkId) : option LinkDto :=
  head (filter (fun l => ln_id l = id) toy_links).

Definition toy_node_key (uid : NodeUid) : string := "key-" +:+ link_id uid.
Definition toy_share_key (_ : NodeUid) : string := "share".

Definition toy_details (l : LinkDto) : LinkDetailsDto :=
  {| ld_link := l; ld_folder := None; ld_file := None; ld_photo := None; ld_album := None;
     ld_sharing := None; ld_membership := None |}.

Definition toy_server {S} (_ : string) (q : LinkDetailsRequest) : M S LinkDetailsResponse ProtonError :=
  mret {| lr_links := toy_details <$> omap (toy_tree "") (lq_link_ids q) |}.

Definition toy_root_key {S} (_ : VolumeId) (_ : LinkId) : FM S string ProtonError := fret "share".
Definition toy_photos_key {S} : M S string ProtonError := mret "share".

(** The entity cache: cold, or still naming [b] as the parent of [a]. *)
Definition toy_cold {S} (_ : NodeUid) : M S (option CachedNodeInfo) ProtonError := mret None.

Definition toy_stale_info : CachedNodeInfo :=
  {| ci_node := {| nd_uid := NodeUid_new "v" "a"; nd_parent_uid := Some (NodeUid_new "v" "b");
                   nd_kind := Folder; nd_name := "a"; nd_creation_time := 0;
                   nd_modification_time := 0; nd_trashed := false; nd_is_shared := false;
                   nd_is_shared_publicly := false; nd_signature_email := None;
                   nd_membership := None; nd_direct_role := None; nd_share_id := None;
                   nd_photo := None; nd_album := None;
                   nd_verification := NodeVerification_default |};
     ci_membership_share_id := None; ci_name_hash_digest := "" |}.

Definition toy_stale {S} (uid : NodeUid) : M S (option CachedNodeInfo) ProtonError :=
  mret (if decide (uid = NodeUid_new "v" "a") then Some toy_stale_info else None).

Lemma toy_tree_cases vol id l (P : LinkDto -> Prop) :
  toy_tree vol id = Some l -> Forall P toy_links -> P l /\ ln_id l = id.
Proof.
  unfold toy_tree. intros Hh Hp. apply head_Some_elem_of in Hh.
  apply list_elem_of_filter in Hh as [<- Hin]. rewrite Forall_forall in Hp. split; [by apply Hp|done].
Qed.

Lemma toy_sealed : sealed toy_tree toy_node_key toy_share_key.
Proof.
  intros vol id l Ht.
  destruct (toy_tree_cases vol id l (fun x =>
    (exists name, decrypt_link (parent_key_of toy_node_key toy_share_key vol x) x
                  = Ok {| dl_node_key := "key-" +:+ ln_id x; dl_name := name |}) /\
    (forall k d, decrypt_link k x = Ok d -> k = parent_key_of toy_node_key toy_share_key vol x)) Ht)
    as [[[name Hopen] Hexcl] Hid].
  - assert (Hone : forall key m payload, Str.split_once ":" m = Some (key, payload) -> forall k p,
              decrypt_armored_message k m = Ok p -> k = key).
    { intros key m payload Hm k p. simpl. rewrite Hm. by destruct (String.eqb_spec k key). }
    repeat (constructor; [split; [eexists; vm_compute; reflexivity|]|]); [..|constructor];
      intros k d; unfold decrypt_link;
      destruct (decrypt_armored_message k _) as [p|] eqn:Ep; simpl; try done; intros _;
      (eapply Hone in Ep; [exact Ep|vm_compute; reflexivity]).
  - subst id. split_and!; [done| |done]. by exists name.
Qed.

Lemma toy_omap_tree vol (ids : list LinkId) d :
  d ∈ (toy_details <$> omap (toy_tree vol) ids) ->
  toy_tree vol (ln_id (ld_link d)) = Some (ld_link d) /\ ln_id (ld_link d) ∈ ids.
Proof.
  intros (l & -> & (id & Hid & Hl)%list_elem_of_omap)%list_elem_of_fmap. simpl.
  destruct (toy_sealed _ _ _ Hl) as [-> _]. done.
Qed.

Lemma toy_honest (entity_node : NodeUid -> M (gmap NodeUid string) (option CachedNodeInfo) ProtonError) :
  (forall uid s, (entity_node uid s).2 = s) ->
  honest toy_server entity_node toy_photos_key toy_root_key toy_tree toy_node_key toy_share_key.
Proof.
  intros He. split.
  - apply toy_sealed.
  - intros vol ids ph s r s' Hs [= <- <-]. split; [done|]. intros response d [= <-]. exact (toy_omap_tree "" ids d).
  - intros uid s r s' Hs E. specialize (He uid s). rewrite E in He. by simpl in He; subst.
  - intros vol id s r s' Hs [= <- <-]. split; [done|]. by intros k [= <-].
  - intros s r s' Hs [= <- <-]. split; [done|]. by intros k vol id l [= <-].
Qed.

Definition toy_depth (_ : VolumeId) (id : LinkId) : nat :=
  if decide (id = "r") then 0 else if decide (id = "f") then 2 else 1.

Lemma toy_reliable :
  reliable toy_server (@toy_cold (gmap NodeUid string)) toy_photos_key toy_root_key toy_tree
    toy_node_key toy_depth.
Proof.
  split.
  - intros vol ids ph s r s' _ [= <- <-]. eexists. split; [done|]. intros id l Hin Hl.
    exists (toy_details l). split; [|done]. apply list_elem_of_fmap_2, list_elem_of_omap. by exists id.
  - intros vol id s _. by eexists _, s.
  - intros s r s' _ [= <- <-]. by eexists.
  - intros vol id l p Hl. destruct (toy_tree_cases vol id l
      (fun x => forall p, ln_parent_id x = Some p -> is_Some (toy_tree vol p)) Hl) as [Hp _]; [|apply Hp].
    repeat (apply Forall_cons_2; [simpl; intros q Hq; simplify_eq; by eexists|]). constructor.
  - intros vol id l p Hl. destruct (toy_tree_cases vol id l
      (fun x => forall p, ln_parent_id x = Some p -> (toy_depth vol p < toy_depth vol (ln_id x))%nat) Hl)
      as [Hp <-]; [|apply Hp].
    repeat (apply Forall_cons_2; [simpl; intros q Hq; simplify_eq; vm_compute; lia|]). constructor.
  - done.
Qed.

Lemma toy_empty_right : keys_right toy_node_key (∅ : gmap NodeUid string).
Proof. intros uid k Hk. simpl in Hk. by rewrite lookup_empty in Hk. Qed.

Lemma folder_node_key_complete_witness :
  exists s', folder_node_key toy_server toy_cold toy_photos_key toy_root_key 2 (NodeUid_new "v" "f")
               (∅ : gmap NodeUid string) = Some (Ok "key-f", s').
Proof.
  destruct (folder_node_key_complete toy_server toy_cold toy_photos_key toy_root_key toy_tree
      toy_node_key toy_share_key (toy_honest toy_cold (fun _ _ => eq_refl)) toy_depth toy_reliable
      2 (NodeUid_new "v" "f") (toy_link "f" (Some "a")) ∅) as (s' & E & _).
  - apply toy_empty_right.
  - vm_compute. reflexivity.
  - vm_compute. lia.
  - exists s'. exact E.
Defined.

(** With the entity cache behind, a folder key found is still right. *)
Lemma folder_node_key_sound_witness :
  exists s', folder_node_key toy_server toy_stale toy_photos_key toy_root_key 5 (NodeUid_new "v" "b")
               (∅ : gmap NodeUid string) = Some (Ok "key-b", s') /\ keys_right toy_node_key s'.
Proof.
  destruct (folder_node_key toy_server toy_stale toy_photos_key toy_root_key 5 (NodeUid_new "v" "b")
              (∅ : gmap NodeUid string)) as [[r s']|] eqn:E; [|exfalso; vm_compute in E; discriminate].
  destruct (folder_node_key_sound toy_server toy_stale toy_photos_key toy_root_key toy_tree
      toy_node_key toy_share_key (toy_honest toy_stale (fun _ _ => eq_refl)) 5 (NodeUid_new "v" "b")
      ∅ r s' toy_empty_right E) as [Hs' _].
  exists s'. split; [|exact Hs']. f_equal. f_equal. vm_compute in E. congruence.
Defined.

(** The walk from [f], up to date and behind: the server answers alike. *)
Lemma stale_parent_fails_witness :
  (exists s', resolve_parent_key_walk toy_server toy_cold toy_photos_key toy_root_key 5 "v"
     (toy_link "f" (Some "a")) false (∅ : gmap NodeUid string) = Some (Ok "key-a", s')) /\
  (exists e s', resolve_parent_key_walk toy_server toy_stale toy_photos_key toy_root_key 5 "v"
     (toy_link "f" (Some "a")) false (∅ : gmap NodeUid string) = Some (Err e, s')).
Proof.
  split; [eexists; vm_compute; reflexivity|].
  destruct (resolve_parent_key_walk toy_server toy_stale toy_photos_key toy_root_key 5 "v"
     (toy_link "f" (Some "a")) false (∅ : gmap NodeUid string)) as [[r s']|] eqn:E;
    [|exfalso; vm_compute in E; discriminate].
  destruct (stale_parent_fails toy_server toy_stale toy_photos_key toy_root_key toy_tree
      toy_node_key toy_share_key (toy_honest toy_stale (fun _ _ => eq_refl)) "v"
      (toy_link "f" (Some "a")) "a" (toy_link "a" (Some "r")) (NodeUid_new "v" "b") toy_stale_info 5 ∅ r s')
    as [e ->].
  - apply toy_empty_right.
  - reflexivity.
  - vm_compute. reflexivity.
  - intros s. exists s. split; [reflexivity|done].
  - reflexivity.
  - reflexivity.
  - reflexivity.
  - vm_compute. discriminate.
  - exact E.
  - exists e, s'. reflexivity.
Defined.
