(* ===== verification/Moves.v ===== *)
(** * Moving several nodes

    From [crates/proton-drive-rs/src/client.rs]: [move_nodes], the preparation of
    each move, the queue of batches and the single retry of a link whose
    original hash was out of date.  A stream of outcomes is the list of what it
    yields.  The requests, the keys they need and the PGP operations are
    arguments. *)

From S2P Require Import Prelude Errors Config Keys Node.
From S2P Require Import EntityCache Names Links.

(** ** Data *)

Record NodeMoveItem := { mi_uid : NodeUid; mi_target_name : option string }.

Record MoveMultipleLinksItem := {
  ml_link_id : LinkId;
  ml_name : string;
  ml_passphrase : string;
  ml_name_hash : string;
  ml_original_hash : string;
  ml_passphrase_signature : option string
}.

Record MoveMultipleLinksRequest := {
  mm_parent_link_id : LinkId;
  mm_links : list MoveMultipleLinksItem;
  mm_name_signature_email : string;
  mm_signature_email : option string
}.

Record LinkIdResponsePair := { lp_link_id : LinkId; lp_response : ApiResponse }.

Record AggregateLinksResponse := { ag_responses : list LinkIdResponsePair }.

Record MoveParts := {
  mp_passphrase : string;
  mp_encrypted_name : string;
  mp_name_hash : string;
  mp_original_hash : string;
  mp_anonymous_signature : option string;
  mp_current_name : string
}.

Record PreparedMove := {
  pm_uid : NodeUid;
  pm_item : MoveMultipleLinksItem;
  pm_source_parent : option LinkId;
  pm_current_name : string;
  pm_anonymous : bool;
  pm_retried : bool
}.

Definition Outcome : Type := NodeUid * Res unit.

Record MoveRun := {
  mr_parent : NodeUid;
  mr_email : string;
  mr_queue : list PreparedMove;
  mr_outcomes : list Outcome
}.

Definition push_outcome (o : Outcome) (run : MoveRun) : MoveRun :=
  {| mr_parent := mr_parent run; mr_email := mr_email run; mr_queue := mr_queue run;
     mr_outcomes := mr_outcomes run ++ [o] |}.

Definition push_queue (p : PreparedMove) (run : MoveRun) : MoveRun :=
  {| mr_parent := mr_parent run; mr_email := mr_email run; mr_queue := mr_queue run ++ [p];
     mr_outcomes := mr_outcomes run |}.

(** ** Batches *)

(** The [for] of [take_move_batch] over what is left of the queue. *)
Fixpoint split_batch (anonymous : bool) (queue batch rest : list PreparedMove)
  : list PreparedMove * list PreparedMove :=
  match queue with
  | [] => (batch, rest)
  | prepared :: queue =>
      if (length batch <? MAX_BATCH_COUNT)%nat && Bool.eqb (pm_anonymous prepared) anonymous
      then split_batch anonymous queue (batch ++ [prepared]) rest
      else split_batch anonymous queue batch (rest ++ [prepared])
  end.

(** The batch and the new queue. *)
Definition take_move_batch (queue : list PreparedMove) : list PreparedMove * list PreparedMove :=
  match queue with
  | [] => ([], [])
  | front :: _ => split_batch (pm_anonymous front) queue [] []
  end.

Definition aggregate_outcomes (response : AggregateLinksResponse) : list (LinkId * Res unit) :=
  (fun pair =>
     (lp_link_id pair,
      if ApiResponse_is_success (lp_response pair) then Ok tt
      else Err (Api {| pe_code := ar_code (lp_response pair); pe_http_status := 200;
                       pe_message := default EmptyString (ar_error_message (lp_response pair));
                       pe_details := ar_details (lp_response pair) |}))) <$> ag_responses response.

(** One node's move or copy, as it is sent. *)
Record MoveLinkRequest := {
  mv_parent_link_id : LinkId;
  mv_passphrase : string;
  mv_signature_email : option string;
  mv_passphrase_signature : option string;
  mv_name : string;
  mv_name_signature_email : string;
  mv_name_hash : string;
  mv_original_hash : string
}.

Record CopyLinkRequest := {
  cq_target_volume_id : VolumeId;
  cq_target_parent_link_id : LinkId;
  cq_passphrase : string;
  cq_signature_email : option string;
  cq_passphrase_signature : option string;
  cq_name : string;
  cq_name_signature_email : string;
  cq_name_hash : string
}.

Record CopyLinkResponse := { cx_link_id : LinkId }.

(** The keys' operations a move performs besides decryption. *)
Class MoveCrypto (S Key : Type) := {
  rewrap_message_to : Key -> string -> Key -> M S string CryptoError;
  sign_detached_with : Key -> string -> M S string CryptoError;
  encrypt_and_sign : Key -> Key -> string -> M S string CryptoError;
  hex_hmac : string -> string -> string
}.

Definition lift_crypto {S A} (m : M S A CryptoError) : M S A ProtonError := fun s =>
  let (r, s) := m s in (map_err Crypto r, s).

Section Moves.
Context {S Key : Type} `{KeyOps Key} `{MoveCrypto S Key}.
Context (folder_node_key : NodeUid -> M S Key ProtonError).
Context (parent_hash_key : NodeUid -> Key -> M S string ProtonError).
Context (membership_address : M S (AddressId * string * Key) ProtonError).
Context (get_link_details : VolumeId -> list LinkId -> M S LinkDetailsResponse ProtonError).
(** [entities.try_get_node] *)
Context (entity_node : NodeUid -> M S (option CachedNodeInfo) ProtonError).
(** [http.put] of a batch. *)
Context (put_moves : string -> MoveMultipleLinksRequest -> M S AggregateLinksResponse ProtonError).
Context (clear_context_share_ids : S -> S).

(** [run_context_share_mutation]; its gate excludes concurrent lookups. *)
Definition run_context_share_mutation {A} (request : M S A ProtonError) : M S A ProtonError :=
  let* _ := mmodify clear_context_share_ids in
  let* result := mtry request in
  let* _ := mmodify clear_context_share_ids in
  mlift result.

Definition cached_original_name_hash (uid : NodeUid) (link : LinkDto)
  : M S (option string) ProtonError :=
  let* info := entity_node uid in
  match info with
  | Some info => if negb (Str.is_empty (ci_name_hash_digest info))
                 then mret (Some (ci_name_hash_digest info))
                 else mret (ln_name_hash link)
  | None => mret (ln_name_hash link)
  end.

Definition original_name_hash (uid : NodeUid) (link : LinkDto) (parent_key : Key)
    (parent_hash_key : string) : M S string ProtonError :=
  let* hash := cached_original_name_hash uid link in
  match hash with
  | Some hash => mret hash
  | None =>
      let* current_name := mlift (map_err Crypto (decrypt_armored_message parent_key (ln_name link))) in
      mret (hex_hmac parent_hash_key current_name)
  end.

Definition build_move_parts (uid : NodeUid) (link : LinkDto) (target_name : option string)
    (dest_parent_key : Key) (dest_hash_key : string) (signing_key : Key)
  : M S MoveParts ProtonError :=
  let* parent_id := mlift (ok_or (ln_parent_id link)
                             (invalid_operation "cannot move the root node")) in
  let source_parent_uid := NodeUid_new (volume_id uid) parent_id in
  let* source_parent_key := folder_node_key source_parent_uid in
  let* source_hash_key := parent_hash_key source_parent_uid source_parent_key in
  let* current_name := mlift (map_err Crypto (decrypt_armored_message source_parent_key (ln_name link))) in
  let* original_hash := original_name_hash uid link source_parent_key source_hash_key in
  let* passphrase := lift_crypto (rewrap_message_to source_parent_key (ln_passphrase link) dest_parent_key) in
  let* anonymous_signature :=
    if match ln_signature_email link with Some e => Str.is_empty e | None => true end
    then
      let* plaintext := mlift (map_err Crypto
                                 (decrypt_armored_message source_parent_key (ln_passphrase link))) in
      let* signature := lift_crypto (sign_detached_with signing_key plaintext) in
      mret (Some signature)
    else mret None in
  let name := default current_name target_name in
  let* encrypted_name := lift_crypto (encrypt_and_sign dest_parent_key signing_key name) in
  mret {| mp_passphrase := passphrase; mp_encrypted_name := encrypted_name;
          mp_name_hash := hex_hmac dest_hash_key name; mp_original_hash := original_hash;
          mp_anonymous_signature := anonymous_signature; mp_current_name := current_name |}.

(** *** One node *)

(** The node's link. *)
Definition link_of (uid : NodeUid) : M S LinkDto ProtonError :=
  let* details := get_link_details (volume_id uid) [link_id uid] in
  let* first := mlift (ok_or (head (lr_links details))
                         (invalid_operation ("node " +:+ NodeUid_display uid +:+ " not found"))) in
  mret (ld_link first).

(** The parts of a move or copy under [new_parent], with the email they are signed by. *)
Definition parts_under (uid new_parent : NodeUid) (link : LinkDto) (name : option string)
  : M S (MoveParts * string) ProtonError :=
  let* dest_parent_key := folder_node_key new_parent in
  let* dest_hash_key := parent_hash_key new_parent dest_parent_key in
  let* (_, email, signing_key) := membership_address in
  let* parts := build_move_parts uid link name dest_parent_key dest_hash_key signing_key in
  mret (parts, email).

(** The email goes with a signature only. *)
Definition signed_by (parts : MoveParts) (email : string) : option string :=
  (fun _ => email) <$> mp_anonymous_signature parts.

Definition move_node (put_move : string -> MoveLinkRequest -> M S unit ProtonError)
    (uid new_parent : NodeUid) : M S unit ProtonError :=
  if negb (bool_decide (volume_id uid = volume_id new_parent))
  then mfail (invalid_operation "cross-volume move is not supported")
  else
    let* link := link_of uid in
    let* (parts, email) := parts_under uid new_parent link None in
    run_context_share_mutation
      (put_move ("v2/volumes/" +:+ volume_id uid +:+ "/links/" +:+ link_id uid +:+ "/move")
        {| mv_parent_link_id := link_id new_parent; mv_passphrase := mp_passphrase parts;
           mv_signature_email := signed_by parts email;
           mv_passphrase_signature := mp_anonymous_signature parts;
           mv_name := mp_encrypted_name parts; mv_name_signature_email := email;
           mv_name_hash := mp_name_hash parts; mv_original_hash := mp_original_hash parts |}).

Definition copy_node (post_copy : string -> CopyLinkRequest -> M S CopyLinkResponse ProtonError)
    (uid new_parent : NodeUid) (name : option string) : M S NodeUid ProtonError :=
  let* _ := mlift (match name with Some name => validate_node_name name | None => Ok tt end) in
  let* link := link_of uid in
  let* (parts, email) := parts_under uid new_parent link name in
  let* response := post_copy ("volumes/" +:+ volume_id uid +:+ "/links/" +:+ link_id uid +:+ "/copy")
    {| cq_target_volume_id := volume_id new_parent; cq_target_parent_link_id := link_id new_parent;
       cq_passphrase := mp_passphrase parts; cq_signature_email := signed_by parts email;
       cq_passphrase_signature := mp_anonymous_signature parts; cq_name := mp_encrypted_name parts;
       cq_name_signature_email := email; cq_name_hash := mp_name_hash parts |} in
  mret (NodeUid_new (volume_id new_parent) (cx_link_id response)).

(** *** Preparation *)

(** The first loop of [prepare_moves]: what is refused outright, and the targets. *)
Fixpoint screen_moves (parent : NodeUid) (items : list NodeMoveItem) (seen : gset LinkId)
    (outcomes : list Outcome) (targets : list NodeMoveItem) : list Outcome * list NodeMoveItem :=
  match items with
  | [] => (outcomes, targets)
  | item :: items =>
      let uid := mi_uid item in
      let reject e := screen_moves parent items seen (outcomes ++ [(uid, Err e)]) targets in
      if negb (bool_decide (volume_id uid = volume_id parent))
      then reject (invalid_operation "cross-volume move is not supported")
      else match validate_node_name <$> mi_target_name item with
           | Some (Err e) => reject e
           | _ =>
               if bool_decide (link_id uid ∈ seen)
               then reject (invalid_operation ("node " +:+ NodeUid_display uid
                              +:+ " is listed more than once in one move"))
               else screen_moves parent items ({[ link_id uid ]} ∪ seen) outcomes (targets ++ [item])
           end
  end.

Fixpoint fetch_links (vol : VolumeId) (chunks : list (list LinkId)) (links : gmap LinkId LinkDto)
  : M S (gmap LinkId LinkDto) ProtonError :=
  match chunks with
  | [] => mret links
  | chunk :: chunks =>
      let* details := get_link_details vol chunk in
      fetch_links vol chunks
        (foldl (fun m d => <[ln_id (ld_link d) := ld_link d]> m) links (lr_links details))
  end.

(** The last loop of [prepare_moves]. *)
Fixpoint encrypt_moves (links : gmap LinkId LinkDto) (dest_parent_key : Key) (dest_hash_key : string)
    (signing_key : Key) (targets : list NodeMoveItem) (run : MoveRun) : M S MoveRun ProtonError :=
  match targets with
  | [] => mret run
  | item :: targets =>
      let uid := mi_uid item in
      let continue := encrypt_moves links dest_parent_key dest_hash_key signing_key targets in
      match links !! link_id uid with
      | None => continue (push_outcome
                  (uid, Err (invalid_operation ("node " +:+ NodeUid_display uid +:+ " not found"))) run)
      | Some link =>
          let* parts := mtry (build_move_parts uid link (mi_target_name item) dest_parent_key
                                dest_hash_key signing_key) in
          match parts with
          | Err e => continue (push_outcome (uid, Err e) run)
          | Ok parts =>
              continue (push_queue
                {| pm_uid := uid;
                   pm_item := {| ml_link_id := link_id uid; ml_name := mp_encrypted_name parts;
                                 ml_passphrase := mp_passphrase parts;
                                 ml_name_hash := mp_name_hash parts;
                                 ml_original_hash := mp_original_hash parts;
                                 ml_passphrase_signature := mp_anonymous_signature parts |};
                   pm_source_parent := ln_parent_id link;
                   pm_current_name := mp_current_name parts;
                   pm_anonymous := bool_decide (is_Some (mp_anonymous_signature parts));
                   pm_retried := false |} run)
          end
      end
  end.

Definition prepare_moves (items : list NodeMoveItem) (parent : NodeUid) : M S MoveRun ProtonError :=
  let (outcomes, targets) := screen_moves parent items ∅ [] [] in
  let run := {| mr_parent := parent; mr_email := EmptyString; mr_queue := []; mr_outcomes := outcomes |} in
  match targets with
  | [] => mret run
  | _ =>
      let* dest_parent_key := folder_node_key parent in
      let* dest_hash_key := parent_hash_key parent dest_parent_key in
      let* (_, email, signing_key) := membership_address in
      let run := {| mr_parent := parent; mr_email := email; mr_queue := []; mr_outcomes := outcomes |} in
      let link_ids := (fun item => link_id (mi_uid item)) <$> targets in
      let* links := fetch_links (volume_id parent)
                      (chunks_of (length link_ids) MAX_BATCH_COUNT link_ids) ∅ in
      encrypt_moves links dest_parent_key dest_hash_key signing_key targets run
  end.

(** *** Submission *)

Definition remote_original_hash (prepared : PreparedMove) : M S string ProtonError :=
  let uid := pm_uid prepared in
  let out_of_sync := invalid_operation ("node " +:+ NodeUid_display uid
                       +:+ " changed while it was being moved") in
  let* details := get_link_details (volume_id uid) [link_id uid] in
  let* first := mlift (ok_or (head (lr_links details))
                         (invalid_operation ("node " +:+ NodeUid_display uid +:+ " not found"))) in
  let link := ld_link first in
  match ln_parent_id link, ln_name_hash link with
  | Some parent_id, Some hash =>
      if negb (bool_decide (Some parent_id = pm_source_parent prepared)) || Str.is_empty hash
      then mfail out_of_sync
      else
        let* parent_key := folder_node_key (NodeUid_new (volume_id uid) parent_id) in
        let* name := mlift (map_err Crypto (decrypt_armored_message parent_key (ln_name link))) in
        if negb (String.eqb name (pm_current_name prepared)) then mfail out_of_sync else mret hash
  | _, _ => mfail out_of_sync
  end.

Definition with_remote_hash (hash : string) (p : PreparedMove) : PreparedMove :=
  {| pm_uid := pm_uid p;
     pm_item := {| ml_link_id := ml_link_id (pm_item p); ml_name := ml_name (pm_item p);
                   ml_passphrase := ml_passphrase (pm_item p);
                   ml_name_hash := ml_name_hash (pm_item p); ml_original_hash := hash;
                   ml_passphrase_signature := ml_passphrase_signature (pm_item p) |};
     pm_source_parent := pm_source_parent p; pm_current_name := pm_current_name p;
     pm_anonymous := pm_anonymous p; pm_retried := true |}.

(** [collect] into a [HashMap]. *)
Definition outcomes_by_link (l : list (LinkId * Res unit)) : gmap LinkId (Res unit) :=
  foldl (fun m '(id, r) => <[id := r]> m) ∅ l.

(** Whether an answer is an out-of-date hash that was not retried yet. *)
Definition wants_retry (answer : option (Res unit)) (prepared : PreparedMove) : bool :=
  match answer with
  | Some (Err (Api error)) =>
      match pe_code error with ResponseCode.InvalidRequirements => negb (pm_retried prepared)
                             | _ => false end
  | _ => false
  end.

(** The last loop of [submit_move_batch]. *)
Fixpoint settle_batch (batch : list PreparedMove) (per_link : gmap LinkId (Res unit)) (run : MoveRun)
  : M S MoveRun ProtonError :=
  match batch with
  | [] => mret run
  | prepared :: batch =>
      let id := link_id (pm_uid prepared) in
      let answer := per_link !! id in
      let continue := settle_batch batch (delete id per_link) in
      if wants_retry answer prepared then
        let* hash := mtry (remote_original_hash prepared) in
        match hash with
        | Ok hash => continue (push_queue (with_remote_hash hash prepared) run)
        | Err e => continue (push_outcome (pm_uid prepared, Err e) run)
        end
      else
        continue (push_outcome (pm_uid prepared,
          match answer with
          | Some outcome => outcome
          | None => Err (invalid_operation ("move returned no response for node "
                           +:+ NodeUid_display (pm_uid prepared)))
          end) run)
  end.

(** What a batch that failed as a whole charges to each of its nodes. *)
Definition batch_error (e : ProtonError) : ProtonError :=
  match e with
  | Api api => Api api
  | other => invalid_operation (ProtonError_display other)
  end.

Definition move_request (run : MoveRun) (batch : list PreparedMove) : MoveMultipleLinksRequest :=
  let anonymous := match batch with p :: _ => pm_anonymous p | [] => false end in
  {| mm_parent_link_id := link_id (mr_parent run);
     mm_links := pm_item <$> batch;
     mm_name_signature_email := mr_email run;
     mm_signature_email := if anonymous then Some (mr_email run) else None |}.

Definition submit_move_batch (run : MoveRun) (batch : list PreparedMove) : M S MoveRun ProtonError :=
  let path := "volumes/" +:+ volume_id (mr_parent run) +:+ "/links/move-multiple" in
  let* result := mtry (run_context_share_mutation (put_moves path (move_request run batch))) in
  match result with
  | Err e => mret (foldl (fun run p => push_outcome (pm_uid p, Err (batch_error e)) run) run batch)
  | Ok response => settle_batch batch (outcomes_by_link (aggregate_outcomes response)) run
  end.

Definition with_queue (queue : list PreparedMove) (outcomes : list Outcome) (run : MoveRun) : MoveRun :=
  {| mr_parent := mr_parent run; mr_email := mr_email run; mr_queue := queue; mr_outcomes := outcomes |}.

(** [stream::unfold], run to its end; a turn either yields an outcome or sends a
    batch, and the fuel is a number of turns. *)
Fixpoint submit_moves (fuel : nat) (run : MoveRun) (yielded : list Outcome)
  : FM S (list Outcome) ProtonError :=
  match fuel with
  | O => fun _ => None
  | Datatypes.S fuel =>
      match mr_outcomes run with
      | outcome :: outcomes =>
          submit_moves fuel (with_queue (mr_queue run) outcomes run) (yielded ++ [outcome])
      | [] =>
          let (batch, queue) := take_move_batch (mr_queue run) in
          match batch with
          | [] => fret yielded
          | _ => let+ run := flift (submit_move_batch (with_queue queue [] run) batch) in
                 submit_moves fuel run yielded
          end
      end
  end.

Definition move_nodes_streaming (fuel : nat) (items : list NodeMoveItem) (new_parent : NodeUid)
  : FM S (list Outcome) ProtonError :=
  let+ run := flift (prepare_moves items new_parent) in
  submit_moves fuel run [].

(** *** [move_nodes] *)

(** [uids.iter().filter(|uid| seen.insert(uid))] *)
Fixpoint first_occurrences (uids : list NodeUid) (seen : gset NodeUid) : list NodeUid :=
  match uids with
  | [] => []
  | uid :: uids => if bool_decide (uid ∈ seen) then first_occurrences uids seen
                   else uid :: first_occurrences uids ({[ uid ]} ∪ seen)
  end.

(** [try_collect] into a [HashMap]. *)
Definition outcome_map (outcomes : list Outcome) : gmap NodeUid (Res unit) :=
  foldl (fun m '(uid, r) => <[uid := r]> m) ∅ outcomes.

Fixpoint lay_out (uids : list NodeUid) (outcomes : gmap NodeUid (Res unit))
    (repeats : gmap NodeUid (option string)) : list Outcome :=
  match uids with
  | [] => []
  | uid :: uids =>
      match outcomes !! uid with
      | Some outcome =>
          let text := match outcome with Ok _ => None | Err e => Some (ProtonError_display e) end in
          (uid, outcome) :: lay_out uids (delete uid outcomes) (<[uid := text]> repeats)
      | None =>
          (uid, match repeats !! uid with
                | Some None => Ok tt
                | Some (Some message) => Err (invalid_operation message)
                | None => Err (invalid_operation ("move produced no outcome for node "
                                 +:+ NodeUid_display uid))
                end) :: lay_out uids outcomes repeats
      end
  end.

Definition move_nodes (fuel : nat) (uids : list NodeUid) (new_parent : NodeUid)
  : FM S (list Outcome) ProtonError :=
  let items := (fun uid => {| mi_uid := uid; mi_target_name := None |}) <$> first_occurrences uids ∅ in
  let+ outcomes := move_nodes_streaming fuel items new_parent in
  fret (lay_out uids (outcome_map outcomes) ∅).
End Moves.
