(* ===== verification/MovesFacts.v ===== *)
(** * Facts about moving several nodes

    Every node listed gets exactly one outcome, the run ends, and what is sent
    respects the limits of the endpoint: batches of one kind, at most 150 links,
    no link more than twice. *)

From S2P Require Import Prelude Errors Config Keys Node.
From S2P Require Import EntityCache Names Links.
From S2P Require Import LinksFacts Moves.

(** ** Batches *)

Lemma split_batch_spec anonymous queue batch rest batch' rest' :
  split_batch anonymous queue batch rest = (batch', rest') ->
  exists b r, batch' = batch ++ b /\ rest' = rest ++ r /\ queue ≡ₚ b ++ r /\
    r `sublist_of` queue /\ Forall (fun p => pm_anonymous p = anonymous) b /\
    (length batch <= MAX_BATCH_COUNT -> length batch' <= MAX_BATCH_COUNT)%nat.
Proof.
  revert batch rest. induction queue as [|p queue IH]; intros batch rest; cbn [split_batch].
  { intros [= <- <-]. exists [], []. rewrite !app_nil_r. by split_and!. }
  destruct (_ && _) eqn:Ec.
  - apply andb_true_iff in Ec as [Hl%Nat.ltb_lt He%Bool.eqb_prop].
    intros (b & r & -> & -> & Hp & Hs & Hb & Hlen)%IH. exists (p :: b), r.
    rewrite <- app_assoc. split_and!; try done.
    + by rewrite Hp.
    + by constructor.
    + by constructor.
    + intros _. rewrite <- app_assoc in Hlen. apply Hlen. rewrite length_app. simpl. lia.
  - intros (b & r & -> & -> & Hp & Hs & Hb & Hlen)%IH. exists b, (p :: r).
    rewrite <- app_assoc. split_and!; try done.
    + rewrite Hp. apply Permutation_middle.
    + by constructor.
Qed.

(** The next batch: not empty when something is queued, one kind, at most 150,
    and the queue keeps the rest in order. *)
Lemma take_move_batch_spec queue batch rest :
  take_move_batch queue = (batch, rest) ->
  queue ≡ₚ batch ++ rest /\ rest `sublist_of` queue /\ (length batch <= MAX_BATCH_COUNT)%nat /\
  (batch = [] -> queue = []) /\
  forall p, head batch = Some p -> Forall (fun q => pm_anonymous q = pm_anonymous p) batch.
Proof.
  unfold take_move_batch. destruct queue as [|p queue].
  { intros [= <- <-]. split_and!; try done. simpl. lia. }
  intros E. pose proof E as E2. apply split_batch_spec in E as (b & r & -> & -> & Hp & Hs & Hb & Hl).
  rewrite !app_nil_l in *. split_and!; try done.
  - apply Hl. simpl. lia.
  - intros ->. exfalso. revert E2. cbn [split_batch]. rewrite Bool.eqb_reflx.
    change (length [] <? MAX_BATCH_COUNT)%nat with true. cbn [andb].
    intros (b' & r' & Hb' & _)%split_batch_spec. by destruct b'.
  - intros q Hq. destruct b as [|x b]; [done|]. injection Hq as ->.
    apply Forall_cons in Hb as [Hq Hb]. rewrite Hq. by constructor.
Qed.

(** ** Submission *)

(** What a queued move can still cost: a turn to report it, one per attempt. *)
Definition weight (p : PreparedMove) : nat := if pm_retried p then 2 else 3.
Definition weights (l : list PreparedMove) : nat := foldr (fun p n => (weight p + n)%nat) 0%nat l.

Lemma weights_app l k : weights (l ++ k) = (weights l + weights k)%nat.
Proof. induction l as [|p l IH]; simpl; [done|]. rewrite IH. lia. Qed.

Lemma weights_Permutation l k : l ≡ₚ k -> weights l = weights k.
Proof. induction 1; simpl; lia. Qed.

Definition measure (run : MoveRun) : nat := (length (mr_outcomes run) + weights (mr_queue run))%nat.

(** The nodes still to be reported. *)
Definition pending (run : MoveRun) : list NodeUid :=
  (fst <$> mr_outcomes run) ++ (pm_uid <$> mr_queue run).

Section MovesFacts.
Context {S Key : Type} `{KeyOps Key} `{MoveCrypto S Key}.
Context (folder_node_key : NodeUid -> M S Key ProtonError).
Context (get_link_details : VolumeId -> list LinkId -> M S LinkDetailsResponse ProtonError).
Context (put_moves : string -> MoveMultipleLinksRequest -> M S AggregateLinksResponse ProtonError).
Context (clear_context_share_ids : S -> S).

(** [p'] is [p], to be sent again with the hash the server holds. *)
Definition retry_of_move (p p' : PreparedMove) : Prop :=
  pm_retried p = false /\ exists hash s s',
    remote_original_hash folder_node_key get_link_details p s = (Ok hash, s') /\
    p' = with_remote_hash hash p.

Lemma settle_batch_spec batch (per_link : gmap LinkId (Res unit)) run s :
  exists os again s',
    settle_batch folder_node_key get_link_details batch per_link run s
    = (Ok (with_queue (mr_queue run ++ again) (mr_outcomes run ++ os) run), s') /\
    pm_uid <$> batch ≡ₚ (fst <$> os) ++ (pm_uid <$> again) /\
    (length os + weights again + length batch <= weights batch)%nat /\
    (exists ps, ps `sublist_of` batch /\ Forall2 retry_of_move ps again).
Proof.
  revert per_link run s. induction batch as [|p batch IH]; intros per_link run s; cbn [settle_batch].
  { exists [], [], s. rewrite !app_nil_r. destruct run.
    split_and!; try done. exists []. split; constructor. }
  assert (Hw : (2 <= weight p)%nat) by (unfold weight; destruct (pm_retried p); lia).
  assert (Hreport : forall o (m : M S MoveRun ProtonError) s1, o.1 = pm_uid p ->
    m = settle_batch folder_node_key get_link_details batch (delete (link_id (pm_uid p)) per_link)
          (push_outcome o run) ->
    exists os again s', m s1
      = (Ok (with_queue (mr_queue run ++ again) (mr_outcomes run ++ os) run), s') /\
      pm_uid <$> p :: batch ≡ₚ (fst <$> os) ++ (pm_uid <$> again) /\
      (length os + weights again + length (p :: batch) <= weights (p :: batch))%nat /\
      (exists ps, ps `sublist_of` p :: batch /\ Forall2 retry_of_move ps again)).
  { intros o m s1 Ho ->. destruct (IH (delete (link_id (pm_uid p)) per_link) (push_outcome o run) s1)
      as (os & again & s' & E & Hp & Hl & ps & Hps & Hf).
    exists (o :: os), again, s'. rewrite E. simpl. rewrite <- app_assoc. split_and!.
    - done.
    - rewrite Ho. by rewrite Hp.
    - lia.
    - exists ps. split; [by constructor|done]. }
  destruct (wants_retry _ p) eqn:Ew; [|eapply Hreport; [|reflexivity]; done].
  unfold mbind_, mtry. destruct (remote_original_hash _ _ p s) as [[hash|e] s1] eqn:Eh; [|eapply Hreport; [|reflexivity]; done].
  destruct (IH (delete (link_id (pm_uid p)) per_link) (push_queue (with_remote_hash hash p) run) s1)
    as (os & again & s' & E & Hp & Hl & ps & Hps & Hf).
  assert (Hret : pm_retried p = false).
  { unfold wants_retry in Ew. destruct (per_link !! _) as [[[]|[]]|]; try done.
    destruct (pe_code _); try done. by apply negb_true_iff in Ew. }
  exists os, (with_remote_hash hash p :: again), s'. rewrite E. simpl. rewrite <- app_assoc. split_and!.
  - done.
  - rewrite Hp. apply Permutation_middle.
  - unfold weight in *. rewrite Hret. simpl. lia.
  - exists (p :: ps). split; [by constructor|]. constructor; [|done]. split; [done|]. by exists hash, s, s1.
Qed.

Lemma charge_batch batch run e :
  foldl (fun run p => push_outcome (pm_uid p, Err (batch_error e)) run) run batch
  = with_queue (mr_queue run)
      (mr_outcomes run ++ ((fun p => (pm_uid p, Err (batch_error e))) <$> batch)) run.
Proof.
  revert run. induction batch as [|p batch IH]; intros run; cbn [foldl].
  - rewrite app_nil_r. by destruct run.
  - rewrite IH. simpl. by rewrite <- app_assoc.
Qed.

Lemma submit_move_batch_spec run batch s :
  exists os again s',
    submit_move_batch folder_node_key get_link_details put_moves clear_context_share_ids run batch s
    = (Ok (with_queue (mr_queue run ++ again) (mr_outcomes run ++ os) run), s') /\
    pm_uid <$> batch ≡ₚ (fst <$> os) ++ (pm_uid <$> again) /\
    (length os + weights again + length batch <= weights batch)%nat /\
    (exists ps, ps `sublist_of` batch /\ Forall2 retry_of_move ps again).
Proof.
  unfold submit_move_batch. unfold mbind_ at 1, mtry.
  destruct (run_context_share_mutation _ _ s) as [[response|e] s1].
  - apply settle_batch_spec.
  - rewrite charge_batch. exists ((fun p => (pm_uid p, Err (batch_error e))) <$> batch), [], s1.
    rewrite app_nil_r. split_and!; [done| | |].
    + rewrite <- list_fmap_compose. by rewrite app_nil_r.
    + rewrite length_fmap. clear. induction batch as [|p batch IH]; simpl; [lia|].
      unfold weight at 1. destruct (pm_retried p); lia.
    + exists []. split; [apply sublist_nil_l|constructor].
Qed.

Lemma submit_moves_spec fuel run yielded s :
  (measure run < fuel)%nat ->
  exists outcomes s',
    submit_moves folder_node_key get_link_details put_moves clear_context_share_ids fuel run yielded s
    = Some (Ok outcomes, s') /\
    fst <$> outcomes ≡ₚ (fst <$> yielded) ++ pending run.
Proof.
  revert run yielded s. induction fuel as [|fuel IH]; intros run yielded s Hf; [lia|].
  cbn [submit_moves]. unfold measure, pending in *.
  destruct (mr_outcomes run) as [|o outcomes] eqn:Eo.
  - destruct (take_move_batch (mr_queue run)) as [batch queue] eqn:Et.
    pose proof (take_move_batch_spec _ _ _ Et) as (Hp & _ & _ & Hnil & _).
    destruct batch as [|p batch].
    + rewrite (Hnil eq_refl). exists yielded, s. by rewrite app_nil_r.
    + unfold fbind, flift.
      destruct (submit_move_batch_spec (with_queue queue [] run) (p :: batch) s)
        as (os & again & s1 & E & Hu & Hl & _).
      rewrite E. cbn [with_queue mr_queue mr_outcomes mr_parent mr_email app].
      rewrite (weights_Permutation _ _ Hp), weights_app in Hf.
      destruct (IH (with_queue (queue ++ again) os (with_queue queue [] run)) yielded s1)
        as (outs & s' & E' & Ho).
      { simpl in *. rewrite weights_app. lia. }
      exists outs, s'. split; [exact E'|]. rewrite Ho. simpl. f_equiv.
      rewrite Hp, !fmap_app, Hu. rewrite (Permutation_app_comm (pm_uid <$> queue)). by rewrite app_assoc.
  - destruct (IH (with_queue (mr_queue run) outcomes run) (yielded ++ [o]) s) as (outs & s' & E & Ho).
    { simpl in *. lia. }
    exists outs, s'. split; [exact E|]. rewrite Ho. simpl. rewrite fmap_app, <- app_assoc. done.
Qed.
End MovesFacts.

(** ** Preparation *)

Lemma screen_moves_spec parent items seen outcomes targets outcomes' targets' :
  screen_moves parent items seen outcomes targets = (outcomes', targets') ->
  exists os ts, outcomes' = outcomes ++ os /\ targets' = targets ++ ts /\
    mi_uid <$> items ≡ₚ (fst <$> os) ++ (mi_uid <$> ts) /\
    Forall (fun item => volume_id (mi_uid item) = volume_id parent) ts /\
    NoDup (link_id ∘ mi_uid <$> ts) /\
    Forall (fun id => id ∉ seen) (link_id ∘ mi_uid <$> ts).
Proof.
  revert seen outcomes targets.
  induction items as [|item items IH]; intros seen outcomes targets; cbn [screen_moves].
  { intros [= <- <-]. exists [], []. rewrite !app_nil_r. split_and!; done || constructor. }
  assert (Hreject : forall e, screen_moves parent items seen (outcomes ++ [(mi_uid item, Err e)]) targets
            = (outcomes', targets') ->
    exists os ts, outcomes' = outcomes ++ os /\ targets' = targets ++ ts /\
      mi_uid <$> item :: items ≡ₚ (fst <$> os) ++ (mi_uid <$> ts) /\
      Forall (fun item => volume_id (mi_uid item) = volume_id parent) ts /\
      NoDup (link_id ∘ mi_uid <$> ts) /\ Forall (fun id => id ∉ seen) (link_id ∘ mi_uid <$> ts)).
  { intros e (os & ts & -> & -> & Hp & Hv & Hn & Hs)%IH.
    exists ((mi_uid item, Err e) :: os), ts. rewrite <- app_assoc. split_and!; try done.
    rewrite !fmap_cons, Hp. done. }
  case_bool_decide as Hvol; cbn [negb]; [|apply Hreject].
  destruct (validate_node_name <$> mi_target_name item) as [[[]|e]|] eqn:Ename; [|apply Hreject|];
    (case_bool_decide as Hseen; [apply Hreject|]);
    intros (os & ts & -> & -> & Hp & Hv & Hn & Hs)%IH;
    (exists os, (item :: ts); rewrite <- app_assoc; split_and!; try done;
      [rewrite !fmap_cons, Hp; by rewrite Permutation_middle
      |by constructor
      |rewrite fmap_cons; apply NoDup_cons; split; [|done];
       rewrite Forall_forall in Hs; intros Hin; apply (Hs _ Hin); set_solver
      |rewrite fmap_cons; constructor; [done|]; eapply Forall_impl; [exact Hs|]; simpl; set_solver]).
Qed.

(** A queued move as preparation makes it. *)
Definition queued_wf (p : PreparedMove) : Prop :=
  ml_link_id (pm_item p) = link_id (pm_uid p) /\
  pm_anonymous p = bool_decide (is_Some (ml_passphrase_signature (pm_item p))).

Section PrepareFacts.
Context {S Key : Type} `{KeyOps Key} `{MoveCrypto S Key}.
Context (folder_node_key : NodeUid -> M S Key ProtonError).
Context (parent_hash_key : NodeUid -> Key -> M S string ProtonError).
Context (membership_address : M S (AddressId * string * Key) ProtonError).
Context (get_link_details : VolumeId -> list LinkId -> M S LinkDetailsResponse ProtonError).
Context (entity_node : NodeUid -> M S (option CachedNodeInfo) ProtonError).
Context (put_moves : string -> MoveMultipleLinksRequest -> M S AggregateLinksResponse ProtonError).
Context (clear_context_share_ids : S -> S).

Lemma encrypt_moves_spec links dk dh sk targets run s :
  exists os qs s',
    encrypt_moves folder_node_key parent_hash_key entity_node links dk dh sk targets run s
    = (Ok (with_queue (mr_queue run ++ qs) (mr_outcomes run ++ os) run), s') /\
    mi_uid <$> targets ≡ₚ (fst <$> os) ++ (pm_uid <$> qs) /\
    (pm_uid <$> qs) `sublist_of` (mi_uid <$> targets) /\
    Forall (fun p => queued_wf p /\ pm_retried p = false) qs.
Proof.
  revert run s. induction targets as [|item targets IH]; intros run s; cbn [encrypt_moves].
  { exists [], [], s. rewrite !app_nil_r. destruct run. split_and!; done || constructor. }
  assert (Hreport : forall e s1, exists os qs s',
    encrypt_moves folder_node_key parent_hash_key entity_node links dk dh sk targets
      (push_outcome (mi_uid item, Err e) run) s1
    = (Ok (with_queue (mr_queue run ++ qs) (mr_outcomes run ++ os) run), s') /\
    mi_uid <$> item :: targets ≡ₚ (fst <$> os) ++ (pm_uid <$> qs) /\
    (pm_uid <$> qs) `sublist_of` (mi_uid <$> item :: targets) /\
    Forall (fun p => queued_wf p /\ pm_retried p = false) qs).
  { intros e s1. destruct (IH (push_outcome (mi_uid item, Err e) run) s1)
      as (os & qs & s' & E & Hp & Hs & Hf).
    exists ((mi_uid item, Err e) :: os), qs, s'. rewrite E. simpl. rewrite <- app_assoc.
    split_and!; [done|by rewrite Hp|by constructor|done]. }
  destruct (links !! link_id (mi_uid item)) as [link|]; [|apply Hreport].
  unfold mbind_, mtry. destruct (build_move_parts _ _ _ _ _ _ _ _ _ s) as [[parts|e] s1]; [|apply Hreport].
  match goal with |- context [push_queue ?q run] => set (q0 := q) end.
  destruct (IH (push_queue q0 run) s1) as (os & qs & s' & E & Hp & Hs & Hf).
  exists os, (q0 :: qs), s'. rewrite E. simpl. rewrite <- app_assoc. split_and!.
  - done.
  - rewrite Hp. by rewrite Permutation_middle.
  - by constructor.
  - constructor; [|done]. by split.
Qed.

Lemma prepare_moves_spec items parent s r s' :
  prepare_moves folder_node_key parent_hash_key membership_address get_link_details entity_node
    items parent s = (r, s') ->
  forall run, r = Ok run ->
    mr_parent run = parent /\ pending run ≡ₚ mi_uid <$> items /\
    NoDup (link_id ∘ pm_uid <$> mr_queue run) /\
    Forall (fun p => queued_wf p /\ pm_retried p = false) (mr_queue run).
Proof.
  unfold prepare_moves. destruct (screen_moves _ _ _ _ _) as [outcomes targets] eqn:Es.
  apply screen_moves_spec in Es as (os & ts & -> & -> & Hp & _ & Hn & _). rewrite !app_nil_l.
  destruct ts as [|t ts].
  { intros [= <- <-] run [= <-]. simpl. split_and!; [done| |constructor|constructor].
    unfold pending. simpl in *. by rewrite Hp. }
  intros E run ->. revert E.
  intros (dk & s1 & _ & E)%mbind_ok_inv. revert E. intros (dh & s2 & _ & E)%mbind_ok_inv. revert E.
  intros ([[aid email] sk] & s3 & _ & E)%mbind_ok_inv. revert E.
  intros (links & s4 & _ & E)%mbind_ok_inv. revert E.
  destruct (encrypt_moves_spec links dk dh sk (t :: ts)
    {| mr_parent := parent; mr_email := email; mr_queue := []; mr_outcomes := os |} s4)
    as (os2 & qs & s5 & E & Hp2 & Hs & Hf).
  rewrite E. intros [= <- <-]. simpl. split_and!; [done| | |done].
  - unfold pending. simpl. rewrite Hp, Hp2, fmap_app. by rewrite app_assoc.
  - rewrite list_fmap_compose. rewrite list_fmap_compose in Hn. eapply sublist_NoDup; [exact Hn|].
    by apply fmap_sublist.
Qed.

Lemma streaming_reports fuel items parent s :
  (3 * length items < fuel)%nat ->
  exists r s', move_nodes_streaming folder_node_key parent_hash_key membership_address
      get_link_details entity_node put_moves clear_context_share_ids fuel items parent s = Some (r, s') /\
    forall outcomes, r = Ok outcomes -> fst <$> outcomes ≡ₚ mi_uid <$> items.
Proof.
  intros Hf. unfold move_nodes_streaming, fbind, flift.
  destruct (prepare_moves _ _ _ _ _ _ _ s) as [r s1] eqn:Ep.
  pose proof (prepare_moves_spec _ _ _ _ _ Ep) as Hprep. destruct r as [run|e]; [|by eexists _, _].
  destruct (Hprep run eq_refl) as (_ & Hpend & _ & Hq).
  destruct (submit_moves_spec folder_node_key get_link_details put_moves clear_context_share_ids
              fuel run [] s1) as (outs & s' & E & Ho).
  { enough (measure run <= 3 * length items)%nat by lia.
    apply Permutation_length in Hpend. unfold pending in Hpend.
    rewrite length_app, !length_fmap in Hpend. unfold measure, Outcome in *.
    enough (weights (mr_queue run) <= 3 * length (mr_queue run))%nat by lia.
    clear. induction (mr_queue run) as [|p l IH]; simpl; [lia|]. unfold weight at 1.
    destruct (pm_retried p); lia. }
  exists (Ok outs), s'. split; [exact E|]. intros l [= <-]. rewrite Ho. exact Hpend.
Qed.
(** A batch move never runs forever and reports every node listed exactly once:
    unless the preparation failed as a whole, the outcomes yielded are, in some
    order, one per item - refused, failed on its own, charged with its batch's
    failure, or answered by the server, retried or not. *)
Theorem move_nodes_streaming_reports_each fuel items parent s :
  (3 * length items < fuel)%nat ->
  exists r s', move_nodes_streaming folder_node_key parent_hash_key membership_address
      get_link_details entity_node put_moves clear_context_share_ids fuel items parent s = Some (r, s') /\
    forall outcomes, r = Ok outcomes -> fst <$> outcomes ≡ₚ mi_uid <$> items.
Proof. apply streaming_reports. Qed.
End PrepareFacts.

(** ** What is sent *)

Section LoggedMoves.
Context {S Key : Type} `{KeyOps Key}.

Definition Log : Type := list MoveMultipleLinksRequest.

(** An operation that sends no batch, and the sending of one, over a record of
    the batches sent. *)
Definition unlogged {A} (m : M S A ProtonError) : M (Log * S) A ProtonError := fun '(log, s) =>
  let (r, s') := m s in (r, (log, s')).

Definition logged_put (put : string -> MoveMultipleLinksRequest -> M S AggregateLinksResponse ProtonError)
    (path : string) (q : MoveMultipleLinksRequest) : M (Log * S) AggregateLinksResponse ProtonError :=
  fun '(log, s) => let (r, s') := put path q s in (r, (log ++ [q], s')).

Definition logged_clear (f : S -> S) : Log * S -> Log * S := fun '(log, s) => (log, f s).

Context (folder_node_key : NodeUid -> M S Key ProtonError).
Context (get_link_details : VolumeId -> list LinkId -> M S LinkDetailsResponse ProtonError).
Context (put_moves : string -> MoveMultipleLinksRequest -> M S AggregateLinksResponse ProtonError).
Context (clear_context_share_ids : S -> S).

Definition silent {A} (m : M (Log * S) A ProtonError) : Prop :=
  forall log s r log' s', m (log, s) = (r, (log', s')) -> log' = log.

Lemma silent_unlogged {A} (m : M S A ProtonError) : silent (unlogged m).
Proof. intros log s r log' s'. unfold unlogged. destruct (m s). by intros [= _ <- _]. Qed.

Lemma silent_pure {A} (r : Res A) : silent (fun ls => (r, ls)).
Proof. by intros log s r' log' s' [= _ <- _]. Qed.

Lemma silent_bind {A B} (m : M (Log * S) A ProtonError) (k : A -> M (Log * S) B ProtonError) :
  silent m -> (forall a, silent (k a)) -> silent (mbind_ m k).
Proof.
  intros Hm Hk log s r log' s'. unfold mbind_. destruct (m (log, s)) as [[a|e] [log1 s1]] eqn:E.
  - intros E2. apply Hk in E2 as ->. by apply Hm in E.
  - intros [= _ <- _]. by apply Hm in E.
Qed.

Lemma silent_try {A} (m : M (Log * S) A ProtonError) :
  silent m -> silent (mtry (F := ProtonError) m).
Proof.
  intros Hm log s r log' s'. unfold mtry. destruct (m (log, s)) as [r1 [log1 s1]] eqn:E.
  intros [= _ <- _]. by apply Hm in E.
Qed.

Lemma silent_remote p :
  silent (remote_original_hash (fun uid => unlogged (folder_node_key uid))
            (fun v ids => unlogged (get_link_details v ids)) p).
Proof.
  unfold remote_original_hash. apply silent_bind; [apply silent_unlogged|]. intros details.
  apply silent_bind; [apply silent_pure|]. intros first.
  destruct (ln_parent_id _); [|apply silent_pure]. destruct (ln_name_hash _); [|apply silent_pure].
  destruct (_ || _); [apply silent_pure|].
  apply silent_bind; [apply silent_unlogged|]. intros k. apply silent_bind; [apply silent_pure|].
  intros name. destruct (negb _); apply silent_pure.
Qed.

Lemma silent_settle batch (per_link : gmap LinkId (Res unit)) run :
  silent (settle_batch (fun uid => unlogged (folder_node_key uid))
            (fun v ids => unlogged (get_link_details v ids)) batch per_link run).
Proof.
  revert per_link run. induction batch as [|p batch IH]; intros per_link run; cbn [settle_batch];
    [apply silent_pure|]. destruct (wants_retry _ _); [|apply IH].
  apply silent_bind; [apply silent_try, silent_remote|]. intros [hash|e]; apply IH.
Qed.

Lemma submit_move_batch_log run batch log s r log' s' :
  submit_move_batch (fun uid => unlogged (folder_node_key uid))
    (fun v ids => unlogged (get_link_details v ids)) (logged_put put_moves)
    (logged_clear clear_context_share_ids) run batch (log, s) = (r, (log', s')) ->
  log' = log ++ [move_request run batch].
Proof.
  unfold submit_move_batch, run_context_share_mutation, mbind_, mmodify, mtry, mlift, logged_put, logged_clear.
  destruct (put_moves _ _ _) as [[response|e] s1].
  - intros E. by apply silent_settle in E.
  - by intros [= _ <- _].
Qed.

(** How often a link is in the batches sent, and may still be sent from a queue. *)
Definition sent (id : LinkId) (log : Log) : nat :=
  length (filter (fun i => i = id) (concat ((fun q => ml_link_id <$> mm_links q) <$> log))).

Definition budget (id : LinkId) (queue : list PreparedMove) : nat :=
  foldr (fun p n => ((if decide (link_id (pm_uid p) = id) then if pm_retried p then 1 else 2 else 0) + n)%nat)
        0%nat queue.

Definition request_ok (parent : NodeUid) (q : MoveMultipleLinksRequest) : Prop :=
  (0 < length (mm_links q) <= MAX_BATCH_COUNT)%nat /\
  mm_parent_link_id q = link_id parent /\
  (Forall (fun i => ml_passphrase_signature i = None) (mm_links q) /\ mm_signature_email q = None \/
   Forall (fun i => is_Some (ml_passphrase_signature i)) (mm_links q) /\
   mm_signature_email q = Some (mm_name_signature_email q)).

Lemma sent_app id l k : sent id (l ++ k) = (sent id l + sent id k)%nat.
Proof. unfold sent. by rewrite fmap_app, concat_app, filter_app, length_app. Qed.

Lemma budget_app id l k : budget id (l ++ k) = (budget id l + budget id k)%nat.
Proof. induction l as [|p l IH]; simpl; [done|]. rewrite IH. lia. Qed.

Lemma budget_Permutation id l k : l ≡ₚ k -> budget id l = budget id k.
Proof. induction 1; simpl; lia. Qed.

Lemma sent_request id run batch :
  Forall queued_wf batch ->
  sent id [move_request run batch] = length (filter (fun p => link_id (pm_uid p) = id) batch).
Proof.
  unfold sent. simpl. rewrite app_nil_r. induction 1 as [|p batch [Hp _] _ IH]; [done|].
  rewrite !fmap_cons, !filter_cons, Hp.
  destruct (decide (link_id (pm_uid p) = id)); cbn [length]; by rewrite IH.
Qed.

(** What is sent again uses up the second half of what the batch was allowed. *)
Lemma budget_retry id batch ps again :
  ps `sublist_of` batch ->
  Forall2 (retry_of_move (fun uid => unlogged (folder_node_key uid))
             (fun v ids => unlogged (get_link_details v ids))) ps again ->
  (length (filter (fun p => link_id (pm_uid p) = id) batch) + budget id again <= budget id batch)%nat.
Proof.
  intros Hs. revert again. induction Hs as [|p ps batch Hs IH|p ps batch Hs IH]; intros again Hf.
  - by inversion Hf.
  - inversion Hf as [|? p' ? again' Hp Hf']; subst. specialize (IH _ Hf').
    destruct Hp as (Hret & hash & s & s' & _ & ->). simpl. rewrite filter_cons, Hret.
    destruct (decide (link_id (pm_uid p) = id)); cbn [length]; lia.
  - specialize (IH _ Hf). simpl. rewrite filter_cons.
    destruct (decide (link_id (pm_uid p) = id)); cbn [length]; destruct (pm_retried p); lia.
Qed.

Lemma retry_wf p p' :
  retry_of_move (fun uid => unlogged (folder_node_key uid))
    (fun v ids => unlogged (get_link_details v ids)) p p' -> queued_wf p -> queued_wf p'.
Proof. by intros (_ & hash & s & s' & _ & ->). Qed.

Lemma move_request_ok run batch p :
  Forall queued_wf batch -> head batch = Some p ->
  Forall (fun q => pm_anonymous q = pm_anonymous p) batch -> (length batch <= MAX_BATCH_COUNT)%nat ->
  request_ok (mr_parent run) (move_request run batch).
Proof.
  intros Hwf Hp Ha Hl. destruct batch as [|x batch]; [done|]. injection Hp as ->.
  split_and!; [simpl; lia|simpl; by rewrite length_fmap|done|].
  assert (Hsig : Forall (fun i => bool_decide (is_Some (ml_passphrase_signature i)) = pm_anonymous p)
                   (pm_item <$> (p :: batch))).
  { apply Forall_fmap. rewrite Forall_forall in Hwf, Ha |- *. intros q Hq. simpl.
    destruct (Hwf q Hq) as [_ <-]. by apply Ha. }
  unfold move_request. cbn [mm_links mm_signature_email mm_name_signature_email].
  destruct (pm_anonymous p); [right|left]; (split; [|done]); (eapply Forall_impl; [exact Hsig|]);
    intros i Hi; simpl in Hi; [by apply bool_decide_eq_true in Hi|].
  apply bool_decide_eq_false in Hi. by apply eq_None_not_Some.
Qed.

Lemma submit_moves_log fuel run yielded log s r log' s' :
  Forall queued_wf (mr_queue run) ->
  submit_moves (fun uid => unlogged (folder_node_key uid))
    (fun v ids => unlogged (get_link_details v ids)) (logged_put put_moves)
    (logged_clear clear_context_share_ids) fuel run yielded (log, s) = Some (r, (log', s')) ->
  exists more, log' = log ++ more /\ Forall (request_ok (mr_parent run)) more /\
    forall id, (sent id more <= budget id (mr_queue run))%nat.
Proof.
  revert run yielded log s. induction fuel as [|fuel IH]; intros run yielded log s Hwf; [done|].
  cbn [submit_moves]. destruct (mr_outcomes run) as [|o outcomes].
  - destruct (take_move_batch (mr_queue run)) as [batch queue] eqn:Et.
    apply take_move_batch_spec in Et as (Hp & _ & Hl & _ & Ha).
    rewrite Hp in Hwf. apply Forall_app in Hwf as [Hwb Hwq].
    destruct batch as [|p batch].
    + intros [= <- <- <-]. exists []. rewrite app_nil_r. split_and!; [done|constructor|].
      intros id. unfold sent. simpl. lia.
    + unfold fbind, flift.
      destruct (submit_move_batch_spec (fun uid => unlogged (folder_node_key uid))
          (fun v ids => unlogged (get_link_details v ids)) (logged_put put_moves)
          (logged_clear clear_context_share_ids) (with_queue queue [] run) (p :: batch) (log, s))
        as (os & again & [log1 s1] & E & _ & _ & ps & Hps & Hf).
      rewrite E. apply submit_move_batch_log in E as ->.
      intros E2. apply IH in E2 as (more & -> & Hok & Hsent).
      * exists (move_request (with_queue queue [] run) (p :: batch) :: more).
        rewrite <- app_assoc. split_and!; [done| |].
        -- constructor; [|exact Hok].
           exact (move_request_ok (with_queue queue [] run) (p :: batch) p Hwb eq_refl (Ha p eq_refl) Hl).
        -- intros id. specialize (Hsent id). simpl in Hsent.
           rewrite (budget_Permutation id _ _ Hp), budget_app. rewrite budget_app in Hsent.
           change (move_request (with_queue queue [] run) (p :: batch) :: more)
             with ([move_request (with_queue queue [] run) (p :: batch)] ++ more).
           rewrite sent_app, sent_request by done.
           pose proof (budget_retry id _ _ _ Hps Hf). lia.
      * simpl. apply Forall_app. split; [done|].
        rewrite Forall_forall. intros x Hx. apply list_elem_of_lookup in Hx as [i Hi].
        destruct (Forall2_lookup_r _ _ _ _ _ Hf Hi) as (q & Hq & Hr).
        eapply retry_wf; [exact Hr|]. rewrite Forall_forall in Hwb. apply Hwb.
        eapply elem_of_sublist; [|exact Hps]. by eapply list_elem_of_lookup_2.
  - intros E. by apply IH in E.
Qed.

Context (parent_hash_key : NodeUid -> Key -> M S string ProtonError).
Context (membership_address : M S (AddressId * string * Key) ProtonError).
Context (entity_node : NodeUid -> M S (option CachedNodeInfo) ProtonError).
Context `{MoveCrypto S Key}.

(** The client over the record: preparing sends no batch. *)
Definition logged_streaming (fuel : nat) (items : list NodeMoveItem) (parent : NodeUid)
  : FM (Log * S) (list Outcome) ProtonError :=
  let+ run := flift (unlogged (prepare_moves folder_node_key parent_hash_key membership_address
                                 get_link_details entity_node items parent)) in
  submit_moves (fun uid => unlogged (folder_node_key uid))
    (fun v ids => unlogged (get_link_details v ids)) (logged_put put_moves)
    (logged_clear clear_context_share_ids) fuel run [].

Lemma budget_fresh id queue :
  NoDup (link_id ∘ pm_uid <$> queue) -> (budget id queue <= 2)%nat.
Proof.
  induction queue as [|p queue IH]; intros Hn; simpl; [lia|].
  rewrite fmap_cons in Hn. apply NoDup_cons in Hn as [Hp Hn]. specialize (IH Hn).
  destruct (decide (link_id (pm_uid p) = id)) as [Hid|]; [|done].
  enough (budget id queue = 0)%nat by (destruct (pm_retried p); lia).
  clear IH Hn. induction queue as [|q queue IH]; [done|]. simpl.
  rewrite decide_False.
  - apply IH. intros Hin. apply Hp. rewrite fmap_cons. by right.
  - intros Hq. apply Hp. rewrite fmap_cons. simpl. rewrite Hid, Hq. left.
Qed.

(** Whatever the server answers, every [move-multiple] request of a run names the
    destination, carries between one and 150 links, and never mixes anonymously
    signed nodes with signed ones: the mover is named as the signature's author
    exactly when every link in it carries a fresh passphrase signature. And no
    link is sent more than twice. *)
Theorem move_requests_wf fuel items parent log s r log' s' :
  logged_streaming fuel items parent (log, s) = Some (r, (log', s')) ->
  exists more, log' = log ++ more /\ Forall (request_ok parent) more /\
    forall id, (sent id more <= 2)%nat.
Proof.
  unfold logged_streaming, fbind, flift, unlogged at 1.
  destruct (prepare_moves _ _ _ _ _ _ _ s) as [r1 s1] eqn:Ep.
  pose proof (prepare_moves_spec _ _ _ _ _ _ _ _ _ _ Ep) as Hprep.
  destruct r1 as [run|e].
  - destruct (Hprep run eq_refl) as (<- & _ & Hn & Hwf).
    intros E. apply submit_moves_log in E as (more & -> & Hok & Hsent).
    + exists more. split_and!; [done..|]. intros id. specialize (Hsent id).
      pose proof (budget_fresh id _ Hn). lia.
    + eapply Forall_impl; [exact Hwf|]. by intros p [Hp _].
  - intros [= _ <- _]. exists []. rewrite app_nil_r. split_and!; [done|constructor|].
    intros id. unfold sent. simpl. lia.
Qed.
End LoggedMoves.

(** ** [move_nodes] *)

Lemma first_occurrences_spec uids seen :
  NoDup (first_occurrences uids seen) /\
  (forall u, u ∈ first_occurrences uids seen <-> u ∈ uids /\ u ∉ seen) /\
  (length (first_occurrences uids seen) <= length uids)%nat.
Proof.
  revert seen. induction uids as [|u uids IH]; intros seen; cbn [first_occurrences].
  { split_and!; [constructor| |done]. intros u. rewrite elem_of_nil. naive_solver. }
  case_bool_decide as Hu.
  - destruct (IH seen) as (Hn & Hin & Hl). split_and!; [done| |simpl; lia].
    intros v. rewrite Hin, elem_of_cons. naive_solver.
  - destruct (IH ({[u]} ∪ seen)) as (Hn & Hin & Hl). split_and!; [| |simpl; lia].
    + apply NoDup_cons. split; [|done]. rewrite Hin. set_solver.
    + intros v. rewrite !elem_of_cons, Hin. destruct (decide (v = u)) as [->|]; set_solver.
Qed.

(** What a later position of the same node repeats. *)
Definition repeated (r : Res unit) : Res unit :=
  match r with Ok _ => Ok tt | Err e => Err (invalid_operation (ProtonError_display e)) end.

Lemma lay_out_spec uids (outcomes : gmap NodeUid (Res unit)) repeats :
  (forall uid, uid ∈ uids -> is_Some (outcomes !! uid) \/ is_Some (repeats !! uid)) ->
  (forall uid, is_Some (outcomes !! uid) -> repeats !! uid = None) ->
  fst <$> lay_out uids outcomes repeats = uids /\
  (forall i uid o, lay_out uids outcomes repeats !! i = Some (uid, o) ->
     match outcomes !! uid with
     | Some r => o = if decide (uid ∈ take i uids) then repeated r else r
     | None => exists t, repeats !! uid = Some t /\
                 o = match t with None => Ok tt | Some m => Err (invalid_operation m) end
     end).
Proof.
  revert outcomes repeats. induction uids as [|u uids IH]; intros outcomes repeats Hin Hex; [done|].
  cbn [lay_out]. destruct (outcomes !! u) as [r|] eqn:Eu.
  - set (text := match r with Ok _ => None | Err e => Some (ProtonError_display e) end).
    destruct (IH (delete u outcomes) (<[u := text]> repeats)) as [Hf Hl].
    + intros v Hv. destruct (decide (v = u)) as [->|Hne].
      * right. rewrite lookup_insert_eq. by eexists.
      * rewrite lookup_delete_ne, lookup_insert_ne by done. apply Hin. by right.
    + intros v Hv. destruct (decide (v = u)) as [->|Hne].
      * rewrite lookup_delete_eq in Hv. by destruct Hv.
      * rewrite lookup_delete_ne in Hv by done. rewrite lookup_insert_ne by done. by apply Hex.
    + split; [by rewrite fmap_cons, Hf|]. intros [|i] v o; cbn [lookup list_lookup].
      * intros [= <- <-]. by rewrite Eu.
      * intros Hlo. specialize (Hl i v o Hlo). cbn [take]. destruct (decide (v = u)) as [->|Hne].
        -- rewrite lookup_delete_eq, lookup_insert_eq in Hl. destruct Hl as (t & [= <-] & ->).
           rewrite Eu, decide_True by left. unfold text. by destruct r.
        -- rewrite lookup_delete_ne, lookup_insert_ne in Hl by done.
           destruct (outcomes !! v); [|done]. rewrite Hl.
           destruct (decide (v ∈ take i uids)), (decide (v ∈ u :: take i uids)); try done; set_solver.
  - assert (Hr : is_Some (repeats !! u)).
    { destruct (Hin u) as [Hs|]; [left| |done]. rewrite Eu in Hs. by destruct Hs. }
    destruct Hr as [t Ht]. destruct (IH outcomes repeats) as [Hf Hl]; [intros v Hv; apply Hin; by right|done|].
    split; [by rewrite fmap_cons, Hf|]. intros [|i] v o; cbn [lookup list_lookup].
    + intros [= <- <-]. rewrite Eu, Ht. exists t. split; [done|by destruct t].
    + intros Hlo. specialize (Hl i v o Hlo). cbn [take]. destruct (decide (v = u)) as [->|Hne].
      * by rewrite Eu in Hl |- *.
      * destruct (outcomes !! v); [|done]. rewrite Hl.
        destruct (decide (v ∈ take i uids)), (decide (v ∈ u :: take i uids)); try done; set_solver.
Qed.

Lemma outcome_map_spec (outcomes : list Outcome) :
  (forall uid, is_Some (outcome_map outcomes !! uid) <-> uid ∈ fst <$> outcomes) /\
  (forall uid r, outcome_map outcomes !! uid = Some r -> (uid, r) ∈ outcomes).
Proof.
  unfold outcome_map. induction outcomes as [|[u r] outcomes IH] using rev_ind.
  - split; intros uid; simpl; rewrite lookup_empty; [|done].
    rewrite elem_of_nil. split; [by intros []|done].
  - rewrite foldl_app. cbn [foldl]. destruct IH as [IH1 IH2]. split; intros uid.
    + rewrite fmap_app, elem_of_app, <- IH1, lookup_insert_is_Some. simpl.
      rewrite list_elem_of_singleton. destruct (decide (uid = u)); naive_solver.
    + intros o [[<- <-]|[_ Ho]]%lookup_insert_Some; apply elem_of_app; [right; left|left; by apply IH2].
Qed.

Section MoveNodes.
Context {S Key : Type} `{KeyOps Key} `{MoveCrypto S Key}.
Context (folder_node_key : NodeUid -> M S Key ProtonError).
Context (parent_hash_key : NodeUid -> Key -> M S string ProtonError).
Context (membership_address : M S (AddressId * string * Key) ProtonError).
Context (get_link_details : VolumeId -> list LinkId -> M S LinkDetailsResponse ProtonError).
Context (entity_node : NodeUid -> M S (option CachedNodeInfo) ProtonError).
Context (put_moves : string -> MoveMultipleLinksRequest -> M S AggregateLinksResponse ProtonError).
Context (clear_context_share_ids : S -> S).

(** [move_nodes] ends, and unless the call as a whole failed its result has one
    entry per uid given, in the order given, however the batches came back: a
    uid's first entry is the outcome its move had, and a later entry of the same
    uid, which is moved only once, repeats it with the error as text. *)
Theorem move_nodes_in_order fuel uids parent s :
  (3 * length uids < fuel)%nat ->
  exists r s', move_nodes folder_node_key parent_hash_key membership_address get_link_details
      entity_node put_moves clear_context_share_ids fuel uids parent s = Some (r, s') /\
    forall results, r = Ok results ->
      fst <$> results = uids /\
      exists outcomes,
        move_nodes_streaming folder_node_key parent_hash_key membership_address get_link_details
          entity_node put_moves clear_context_share_ids fuel
          ((fun uid => {| mi_uid := uid; mi_target_name := None |}) <$> first_occurrences uids ∅)
          parent s = Some (Ok outcomes, s') /\
        forall i uid o, results !! i = Some (uid, o) -> exists r0, (uid, r0) ∈ outcomes /\
          o = if decide (uid ∈ take i uids) then repeated r0 else r0.
Proof.
  intros Hf. unfold move_nodes, fbind at 1.
  destruct (first_occurrences_spec uids ∅) as (Hn & Hin & Hl).
  set (items := (fun uid => {| mi_uid := uid; mi_target_name := None |}) <$> first_occurrences uids ∅).
  destruct (streaming_reports folder_node_key parent_hash_key membership_address get_link_details
      entity_node put_moves clear_context_share_ids fuel items parent s) as (r & s' & E & Ho).
  { unfold items. rewrite length_fmap. lia. }
  rewrite E. destruct r as [outcomes|e]; [|by exists (Err e), s'].
  eexists _, s'. split; [done|]. intros results [= <-]. specialize (Ho outcomes eq_refl).
  destruct (outcome_map_spec outcomes) as [Hm1 Hm2].
  destruct (lay_out_spec uids (outcome_map outcomes) ∅) as [Hfst Hlay].
  - intros uid Hu. left. apply Hm1. rewrite Ho. unfold items. rewrite <- list_fmap_compose.
    apply list_elem_of_fmap. exists uid. split; [done|]. apply Hin. set_solver.
  - intros uid _. apply lookup_empty.
  - split; [exact Hfst|]. exists outcomes. split; [done|]. intros i uid o Hlo.
    specialize (Hlay i uid o Hlo). destruct (outcome_map outcomes !! uid) as [r0|] eqn:Er.
    + exists r0. split; [by apply Hm2|done].
    + destruct Hlay as (t & Ht & _). by rewrite lookup_empty in Ht.
Qed.
End MoveNodes.

(** ** What was moved opens *)

(** What the key operations of a move promise. *)
Class MoveCryptoLaws (S Key : Type) `{KeyOps Key} `{MoveCrypto S Key} : Prop := {
  rewrap_opens k m k' (s s' : S) m' :
    rewrap_message_to k m k' s = (Ok m', s') -> decrypt_armored_message k' m' = decrypt_armored_message k m;
  move_seal_opens k signer text (s s' : S) m :
    encrypt_and_sign k signer text s = (Ok m, s') -> decrypt_armored_message k m = Ok text
}.

Section MovedOpens.
Context {S Key : Type} `{KeyOps Key} `{MoveCrypto S Key} `{!MoveCryptoLaws S Key}.
Context (folder_node_key : NodeUid -> M S Key ProtonError).
Context (parent_hash_key : NodeUid -> Key -> M S string ProtonError).
Context (membership_address : M S (AddressId * string * Key) ProtonError).
Context (get_link_details : VolumeId -> list LinkId -> M S LinkDetailsResponse ProtonError).
Context (entity_node : NodeUid -> M S (option CachedNodeInfo) ProtonError).

(** The link as the request leaves it. *)
Definition moved_link (link : LinkDto) (parent : LinkId) (parts : MoveParts) : LinkDto :=
  {| ln_id := ln_id link; ln_link_type := ln_link_type link; ln_parent_id := Some parent;
     ln_state := ln_state link; ln_creation_time := ln_creation_time link;
     ln_modification_time := ln_modification_time link; ln_trash_time := ln_trash_time link;
     ln_trashed_legacy := ln_trashed_legacy link; ln_name := mp_encrypted_name parts;
     ln_name_hash := Some (mp_name_hash parts); ln_key := ln_key link;
     ln_passphrase := mp_passphrase parts; ln_passphrase_signature := ln_passphrase_signature link;
     ln_signature_email := ln_signature_email link;
     ln_name_signature_email := ln_name_signature_email link; ln_third_party := ln_third_party link;
     ln_sdk := ln_sdk link |}.

(** Nobody signed the passphrase by name. *)
Definition anonymous (link : LinkDto) : bool :=
  match ln_signature_email link with Some e => Str.is_empty e | None => true end.

Lemma build_move_parts_opens uid link name dest_key dest_hash signing_key parts (s s' : S) :
  build_move_parts folder_node_key parent_hash_key entity_node uid link name dest_key dest_hash signing_key s
    = (Ok parts, s') ->
  exists parent_id source_key s1 s2 text,
    ln_parent_id link = Some parent_id /\
    folder_node_key (NodeUid_new (volume_id uid) parent_id) s1 = (Ok source_key, s2) /\
    decrypt_armored_message source_key (ln_name link) = Ok text /\
    decrypt_armored_message dest_key (mp_encrypted_name parts) = Ok (default text name) /\
    decrypt_armored_message dest_key (mp_passphrase parts) = decrypt_armored_message source_key (ln_passphrase link) /\
    mp_name_hash parts = hex_hmac dest_hash (default text name) /\
    (is_Some (mp_anonymous_signature parts) <-> anonymous link = true).
Proof.
  unfold build_move_parts. intros E.
  apply mbind_ok_inv in E as (parent_id & s1 & [= Hp <-] & E).
  apply mbind_ok_inv in E as (source_key & s2 & Ek & E).
  apply mbind_ok_inv in E as (source_hash & s3 & _ & E).
  apply mbind_ok_inv in E as (text & s4 & [= Ht <-] & E).
  apply mbind_ok_inv in E as (original & s5 & _ & E).
  apply mbind_ok_inv in E as (pass & s6 & Er & E).
  apply mbind_ok_inv in E as (sig & s7 & Es & E).
  apply mbind_ok_inv in E as (ename & s8 & En & [= <- <-]).
  destruct (ln_parent_id link) as [pid|]; [|done]. injection Hp as <-.
  destruct (decrypt_armored_message source_key (ln_name link)) as [t|] eqn:Et; [|done]. injection Ht as <-.
  unfold lift_crypto in Er, En.
  destruct (rewrap_message_to _ _ _ s5) as [[p|] ?] eqn:Er'; [|done]. injection Er as <- <-.
  destruct (encrypt_and_sign _ _ _ s7) as [[n|] ?] eqn:En'; [|done]. injection En as <- <-.
  exists pid, source_key, s, s2, t. simpl. split_and!; [done|exact Ek|done|by eapply move_seal_opens|by eapply rewrap_opens|done|].
  unfold anonymous. destruct (match ln_signature_email link with Some e => _ | None => _ end).
  - apply mbind_ok_inv in Es as (? & ? & _ & Es). apply mbind_ok_inv in Es as (? & ? & _ & [= <- _]). by split.
  - injection Es as <- _. split; [by intros [? ?]|done].
Qed.

(** C22: moving or copying a node loses nothing: the passphrase and name sent open
    under the new parent's key to what the old ones opened to under the old
    parent's - the same node key, and the new name if one was asked for - the name
    hash is the new parent's hash of that name, and the passphrase is signed afresh
    exactly when nobody had signed it by name. *)
Theorem moved_node_opens uid new_parent link name parts email (s s' : S) :
  parts_under folder_node_key parent_hash_key membership_address entity_node uid new_parent link name s
    = (Ok (parts, email), s') ->
  exists dest_key dest_hash source_uid source_key s1 s2 s3 s4,
    folder_node_key new_parent s = (Ok dest_key, s1) /\
    parent_hash_key new_parent dest_key s1 = (Ok dest_hash, s2) /\
    volume_id source_uid = volume_id uid /\ Some (link_id source_uid) = ln_parent_id link /\
    folder_node_key source_uid s3 = (Ok source_key, s4) /\
    (is_Some (signed_by parts email) <-> anonymous link = true) /\
    forall opened, decrypt_link source_key link = Ok opened -> utf8_text (default (dl_name opened) name) = Ok (default (dl_name opened) name) ->
      decrypt_link dest_key (moved_link link (link_id new_parent) parts)
        = Ok {| dl_node_key := dl_node_key opened; dl_name := default (dl_name opened) name |}.
Proof.
  unfold parts_under. intros E.
  apply mbind_ok_inv in E as (dest_key & s1 & E1 & E). apply mbind_ok_inv in E as (dest_hash & s2 & E2 & E).
  apply mbind_ok_inv in E as ([[aid mail] signing_key] & s3 & _ & E).
  apply mbind_ok_inv in E as (ps & s4 & E & [= <- <- <-]).
  apply build_move_parts_opens in E as (pid & source_key & s5 & s6 & text & Hp & Ek & Ht & Hn & Hpass & _ & Hs).
  exists dest_key, dest_hash, (NodeUid_new (volume_id uid) pid), source_key, s1, s2, s5, s6.
  split_and!; [done|done|done|done|exact Ek|unfold signed_by; by rewrite fmap_is_Some|].
  intros opened Ho Hu. revert Ho. unfold decrypt_link. simpl. rewrite Hpass, Ht, Hn.
  destruct (decrypt_armored_message source_key (ln_passphrase link)) as [pass|]; simpl; [|done].
  destruct (key_from_armored (ln_key link) pass) as [k|]; simpl; [|done].
  destruct (utf8_text text) as [t|] eqn:Et; simpl; [|done]. intros [= <-]. simpl in *.
  destruct name as [n|]; simpl in *; [by rewrite Hu|by rewrite Et].
Qed.
End MovedOpens.

(** ** A small move

    Two nodes of one folder, one of them signed anonymously, and a server that
    finds the hash of [a] out of date the first time. *)

#[export] Instance toy_move_crypto {S} : MoveCrypto S string := {
  rewrap_message_to _ m k := fun s => (Ok (k +:+ ":" +:+ m), s);
  sign_detached_with k p := fun s => (Ok (k +:+ " signs " +:+ p), s);
  encrypt_and_sign k signer p := fun s => (Ok (k +:+ ":" +:+ p +:+ " by " +:+ signer), s);
  hex_hmac k p := k +:+ "#" +:+ p
}.

Definition toy_moved (id : LinkId) : LinkDto :=
  {| ln_id := id; ln_link_type := 2; ln_parent_id := Some "src"; ln_state := 1;
     ln_creation_time := 0; ln_modification_time := 0; ln_trash_time := None;
     ln_trashed_legacy := None; ln_name := "key-src:" +:+ id; ln_name_hash := Some ("hash-" +:+ id);
     ln_key := "key-" +:+ id; ln_passphrase := "key-src:pass"; ln_passphrase_signature := None;
     ln_signature_email := if String.eqb id "b" then None else Some "owner@example.org";
     ln_name_signature_email := None; ln_third_party := false; ln_sdk := false |}.

Definition toy_move_keys (uid : NodeUid) : M nat string ProtonError := mret ("key-" +:+ link_id uid).
Definition toy_hash_keys (uid : NodeUid) (_ : string) : M nat string ProtonError :=
  mret ("hk-" +:+ link_id uid).
Definition toy_membership : M nat (AddressId * string * string) ProtonError :=
  mret ("addr", "me@example.org", "signer").
Definition toy_move_details (_ : VolumeId) (ids : list LinkId) : M nat LinkDetailsResponse ProtonError :=
  mret {| lr_links := (fun id => toy_details (toy_moved id)) <$> ids |}.

Definition toy_put (_ : string) (q : MoveMultipleLinksRequest) : M nat AggregateLinksResponse ProtonError :=
  fun n =>
    (Ok {| ag_responses :=
             (fun i => {| lp_link_id := ml_link_id i;
                          lp_response := {|
                            ar_code := if (n =? 0)%nat && String.eqb (ml_link_id i) "a"
                                       then ResponseCode.InvalidRequirements
                                       else ResponseCode.Success;
                            ar_error_message := None; ar_details := None |} |}) <$> mm_links q |}, S n).

Definition toy_uid (id : LinkId) : NodeUid := NodeUid_new "v" id.
Definition toy_dest : NodeUid := toy_uid "dest".

Definition toy_items (ids : list LinkId) : list NodeMoveItem :=
  (fun id => {| mi_uid := toy_uid id; mi_target_name := None |}) <$> ids.

Lemma move_nodes_streaming_reports_each_witness :
  exists s', move_nodes_streaming toy_move_keys toy_hash_keys toy_membership toy_move_details
      toy_cold toy_put id 10 (toy_items ["a"; "b"; "a"]) toy_dest 0%nat
    = Some (Ok [(toy_uid "a", Err (invalid_operation "node v~a is listed more than once in one move"));
                (toy_uid "b", Ok tt); (toy_uid "a", Ok tt)], s').
Proof.
  destruct (move_nodes_streaming_reports_each toy_move_keys toy_hash_keys toy_membership
      toy_move_details toy_cold toy_put id 10 (toy_items ["a"; "b"; "a"]) toy_dest 0%nat)
    as (r & s' & E & _); [simpl; lia|].
  exists s'. rewrite E. f_equal. f_equal. vm_compute in E. by injection E as <- _.
Defined.

Lemma move_requests_wf_witness :
  exists r log s', logged_streaming toy_move_keys toy_move_details toy_put id toy_hash_keys
      toy_membership toy_cold 10 (toy_items ["a"; "b"]) toy_dest ([], 0%nat) = Some (r, (log, s')) /\
    ((fun q => ml_link_id <$> mm_links q) <$> log) = [["a"]; ["b"]; ["a"]] /\
    Forall (request_ok toy_dest) log.
Proof.
  destruct (logged_streaming toy_move_keys toy_move_details toy_put id toy_hash_keys
      toy_membership toy_cold 10 (toy_items ["a"; "b"]) toy_dest ([], 0%nat)) as [[r [log s']]|] eqn:E;
    [|exfalso; vm_compute in E; discriminate].
  exists r, log, s'.
  destruct (move_requests_wf toy_move_keys toy_move_details toy_put id toy_hash_keys toy_membership
      toy_cold 10 (toy_items ["a"; "b"]) toy_dest [] 0%nat r log s' E) as (more & Hlog & Hok & _).
  simpl in Hlog. subst more. split_and!; [done| |exact Hok].
  vm_compute in E. by injection E as _ <- _.
Defined.

Lemma move_nodes_in_order_witness :
  exists results s', move_nodes toy_move_keys toy_hash_keys toy_membership toy_move_details toy_cold
      toy_put id 10 [toy_uid "a"; toy_uid "b"; toy_uid "a"] toy_dest 0%nat = Some (Ok results, s') /\
    fst <$> results = [toy_uid "a"; toy_uid "b"; toy_uid "a"].
Proof.
  destruct (move_nodes_in_order toy_move_keys toy_hash_keys toy_membership toy_move_details toy_cold
      toy_put id 10 [toy_uid "a"; toy_uid "b"; toy_uid "a"] toy_dest 0%nat)
    as (r & s' & E & Hr); [simpl; lia|].
  destruct r as [results|e]; [|exfalso; vm_compute in E; discriminate].
  exists results, s'. split; [exact E|]. apply (Hr results eq_refl).
Defined.

(** *** Keys that keep their promises *)

Definition sealed_for (k text : string) : result string CryptoError :=
  let message := k +:+ ":" +:+ text in
  match decrypt_armored_message k message with
  | Ok read => if String.eqb read text then Ok message else Err (CEncrypt "a name with a colon")
  | Err e => Err e
  end.

Lemma sealed_for_opens k text m : sealed_for k text = Ok m -> decrypt_armored_message k m = Ok text.
Proof.
  unfold sealed_for. destruct (decrypt_armored_message k (k +:+ ":" +:+ text)) as [read|e] eqn:E; [|done].
  destruct (String.eqb_spec read text) as [->|]; [by intros [= <-]|done].
Qed.

#[local] Instance lawful_move_crypto : MoveCrypto nat string := {
  rewrap_message_to k m k' := mlift (let? text := decrypt_armored_message k m in sealed_for k' text);
  sign_detached_with k text := mret ("pub-" +:+ k +:+ "|" +:+ text);
  encrypt_and_sign k _ text := mlift (sealed_for k text);
  hex_hmac k text := k +:+ "#" +:+ text
}.

#[local] Instance lawful_move_laws : MoveCryptoLaws nat string.
Proof.
  split.
  - intros k m k' s s' m' E. unfold rewrap_message_to, lawful_move_crypto, mlift in E.
    destruct (decrypt_armored_message k m) as [text|e]; [|discriminate E].
    injection E as E _. by apply sealed_for_opens.
  - intros k signer text s s' m [= E _]. by apply sealed_for_opens.
Qed.

Lemma moved_node_opens_witness :
  exists parts email s',
    parts_under toy_move_keys toy_hash_keys toy_membership (fun _ => mret None) (NodeUid_new "v" "a")
      (NodeUid_new "v" "dst") (toy_moved "a") (Some "b") 0%nat = (Ok (parts, email), s') /\
    decrypt_link "key-dst" (moved_link (toy_moved "a") "dst" parts)
      = Ok {| dl_node_key := "key-a"; dl_name := "b" |}.
Proof.
  destruct (parts_under toy_move_keys toy_hash_keys toy_membership (fun _ => mret None) (NodeUid_new "v" "a")
      (NodeUid_new "v" "dst") (toy_moved "a") (Some "b") 0%nat) as [[[parts email]|e] s'] eqn:E;
    [|vm_compute in E; discriminate E].
  exists parts, email, s'. split; [reflexivity|].
  destruct (moved_node_opens toy_move_keys toy_hash_keys toy_membership (fun _ => mret None)
    (NodeUid_new "v" "a") (NodeUid_new "v" "dst") (toy_moved "a") (Some "b") parts email 0%nat s' E)
    as (dest_key & dest_hash & source_uid & source_key & s1 & s2 & s3 & s4 & E1 & _ & _ & Hl & Ek & _ & Ho).
  unfold toy_move_keys in E1, Ek. injection E1 as <- _. injection Ek as <- _. injection Hl as Hl.
  apply (Ho {| dl_node_key := "key-a"; dl_name := "a" |}); [|reflexivity]. rewrite Hl. vm_compute. reflexivity.
Defined.
