(* ===== verification/LinkCrypto.v ===== *)
(** * Signatures and verified decryption

    From [crates/proton-sdk/src/crypto/]: reading an encrypted message
    ([messages.rs]) and checking signatures against a ring of keys ([verify.rs]);
    from [crates/proton-drive-rs/src/crypto.rs]: share keys, authorship claims
    and the verified decryption of links, content keys and extended attributes;
    and [verify_manifest] of [client.rs].

    The packets of the [pgp] crate are the interfaces [SignatureOps] and
    [MessageOps]; the thread pool of [blocking] is left out.  Verification is
    metadata here: a status next to the plaintext, never an error. *)

From S2P Require Import Prelude Errors Config Http Keys Transport Node Sealing.
From S2P Require Import EntityCache Links.

(** ** Detached signatures *)

Class SignatureOps (Key Pub Sig : Type) := {
  public_half : Key -> Pub;
  parse_signature : string -> option Sig;
  signature_from_bytes : string -> option Sig;
  (** the notations of the signature, name and value *)
  signature_notations : Sig -> list (string * string);
  signature_verifies : Sig -> Pub -> string -> bool
}.

Definition SIGNATURE_CONTEXT_NOTATION : string := "context@proton.ch".

Section Signatures.
Context {Key Pub Sig : Type} `{SignatureOps Key Pub Sig} `{PassphraseOps}.

(** A [VerificationKeyRing] is its keys. *)
Definition ring_from_public_keys (keys : list Pub) : list Pub := keys.
Definition ring_from_private (key : Key) : list Pub := [public_half key].
Definition ring_from_private_and_public_keys (key : Key) (public_keys : list Pub) : list Pub :=
  public_half key :: public_keys.

Definition verifies_any (signature : Sig) (data : string) (ring : list Pub) : VerificationStatus :=
  if existsb (fun key => signature_verifies signature key data) ring then VOk else Failed.

Definition verify_detached (armored_sig data : string) (ring : list Pub) : VerificationStatus :=
  match parse_signature armored_sig with
  | None => Failed
  | Some signature =>
      match ring with
      | [] => NoVerifier
      | _ => verifies_any signature data ring
      end
  end.

Definition in_context (signature : Sig) (context : string) : bool :=
  existsb (fun n => String.eqb n.1 SIGNATURE_CONTEXT_NOTATION && String.eqb n.2 context)
    (signature_notations signature).

Definition verify_detached_with_context (signature data : string) (ring : list Pub) (context : string)
  : VerificationStatus :=
  match ring with
  | [] => NoVerifier
  | _ =>
      let parsed := match parse_signature signature with
                    | Some s => Some s
                    | None => bytes ← ok (base64_standard_decode (trim_end (trim_start signature)));
                              signature_from_bytes bytes
                    end in
      match parsed with
      | None => Failed
      | Some s => if negb (in_context s context) then Failed else verifies_any s data ring
      end
  end.
End Signatures.

(** ** Encrypted messages *)

Class MessageOps (Key Pub Msg : Type) := {
  parse_message : string -> result Msg string;
  decrypt_message : Key -> Msg -> result Msg string;
  is_compressed : Msg -> bool;
  decompress : Msg -> result Msg string;
  as_data_vec : Msg -> result string string;
  is_signed : Msg -> bool;
  is_one_pass_signed : Msg -> bool;
  (** per signature, whether a key of the ring validates it *)
  verify_nested : Msg -> list Pub -> result (list bool) string
}.

Section Messages.
Context {Key Pub Msg : Type} `{MessageOps Key Pub Msg}.

(** The [while message.is_compressed()] loop; the fuel bounds the layers. *)
Fixpoint decompressed (fuel : nat) (message : Msg) : option (result Msg CryptoError) :=
  if is_compressed message then
    match fuel with
    | O => None
    | S fuel =>
        match decompress message with
        | Err e => Some (Err (CDecrypt ("decompress: " +:+ e)))
        | Ok message => decompressed fuel message
        end
    end
  else Some (Ok message).

Definition read_literal (message : Msg) : result string CryptoError :=
  map_err (fun e => CDecrypt ("read literal: " +:+ e)) (as_data_vec message).

(** What both readers begin with. *)
Definition open_message (fuel : nat) (armored : string) (key : Key) : option (result Msg CryptoError) :=
  match let? message := map_err (fun e => CParse ("message: " +:+ e)) (parse_message armored) in
        map_err CDecrypt (decrypt_message key message) with
  | Err e => Some (Err e)
  | Ok message => decompressed fuel message
  end.

(** [decrypt_armored] and [read_plaintext] *)
Definition decrypt_armored (fuel : nat) (armored : string) (key : Key)
  : option (result string CryptoError) :=
  (fun opened => let? message := opened in read_literal message) <$> open_message fuel armored key.

Definition verify_message (message : Msg) (ring : list Pub) : VerificationStatus :=
  if negb (is_signed message) && negb (is_one_pass_signed message) then NotSigned
  else match ring with
       | [] => NoVerifier
       | _ => match verify_nested message ring with
              | Ok results => if existsb id results then VOk else Failed
              | Err _ => Failed
              end
       end.

Definition decrypt_and_verify (fuel : nat) (armored : string) (key : Key) (ring : list Pub)
  : option (result (string * VerificationStatus) CryptoError) :=
  (fun opened => let? message := opened in
                 let? data := read_literal message in
                 Ok (data, verify_message message ring)) <$> open_message fuel armored key.
End Messages.

(** ** The interface the Drive client decrypts through *)

(** [PrivateKey::decrypt_armored_verify] *)
Class VerifyOps (Key Pub : Type) := {
  decrypt_armored_verify : Key -> string -> list Pub -> result (string * VerificationStatus) CryptoError
}.

(** It reads what [decrypt_armored_message] reads, whatever the ring; the two
    readers above do ([decrypt_and_verify_reads_same]). *)
Class VerifyLaws (Key Pub : Type) `{KeyOps Key} `{VerifyOps Key Pub} : Prop := {
  verify_reads_same key armored ring :
    result_map fst (decrypt_armored_verify key armored ring) = decrypt_armored_message key armored
}.

Record DecryptedLocationExtendedAttributes := {
  lx_latitude : option SpecFloat.spec_float;
  lx_longitude : option SpecFloat.spec_float
}.

Record DecryptedExtendedAttributes := {
  ea_common : option DecryptedCommonExtendedAttributes;
  ea_location : option DecryptedLocationExtendedAttributes
}.

(** serde_json on extended attributes *)
Class AttributeOps := {
  parse_extended_attributes : string -> result DecryptedExtendedAttributes string
}.

(** The account's keys, as the Drive client asks for them. *)
Class AccountKeys (W Key Pub : Type) := {
  acct_address_private_keys : AddressId -> M W (list Key) ProtonError;
  (** never fails: an error is an empty list *)
  acct_public_keys : string -> W -> list Pub * W
}.

Record ShareDto := {
  sh_id : ShareId;
  sh_key : string;
  sh_passphrase : string;
  sh_passphrase_signature : option string;
  sh_address_id : AddressId
}.

Section Claims.
Context {W Key Pub Sig CKey : Type} `{KeyOps Key} `{SignatureOps Key Pub Sig} `{VerifyOps Key Pub}
        `{ContentOps Key CKey} `{ContentKeyExport CKey} `{AttributeOps} `{AccountKeys W Key Pub}.

Definition decrypt_share_key (share : ShareDto) : M W Key ProtonError :=
  let* address_keys := acct_address_private_keys (sh_address_id share) in
  let* passphrase := mlift (map_err Crypto (decrypt_armored_with_keys (sh_passphrase share) address_keys)) in
  mlift (map_err Crypto (key_from_armored (sh_key share) passphrase)).

(** *** Authorship *)

Record AuthorshipClaim := { cm_author : option string; cm_keys : list Pub }.

Definition AuthorshipClaim_create (email : option string) : M W AuthorshipClaim ProtonError := fun w =>
  match email with
  | Some email =>
      if Str.is_empty email then (Ok {| cm_author := None; cm_keys := [] |}, w)
      else let (keys, w) := acct_public_keys email w in
           (Ok {| cm_author := Some email; cm_keys := keys |}, w)
  | None => (Ok {| cm_author := None; cm_keys := [] |}, w)
  end.

Definition claim_ring (claim : AuthorshipClaim) (fallback : Key) : list Pub :=
  match cm_author claim with
  | Some _ => ring_from_public_keys (cm_keys claim)
  | None => ring_from_private fallback
  end.

Definition content_ring (claim : AuthorshipClaim) (node_key : Key) : list Pub :=
  ring_from_private_and_public_keys node_key (cm_keys claim).

(** *** Links *)

Definition decrypt_link_parts (parent_key : Key) (link : LinkDto)
  : M W (string * string * NodeVerification) ProtonError :=
  let* node_claim := AuthorshipClaim_create (ln_signature_email link) in
  let* name_claim := if decide (ln_name_signature_email link = ln_signature_email link)
                     then mret node_claim
                     else AuthorshipClaim_create (ln_name_signature_email link) in
  let node_ring := claim_ring node_claim parent_key in
  let name_ring := claim_ring name_claim parent_key in
  mlift (
    let? passphrase := map_err Crypto (decrypt_armored_message parent_key (ln_passphrase link)) in
    let passphrase_status := match ln_passphrase_signature link with
                             | Some sig => verify_detached sig passphrase node_ring
                             | None => NotSigned
                             end in
    let? (name_bytes, name_status) :=
      map_err Crypto (decrypt_armored_verify parent_key (ln_name link) name_ring) in
    let? name := map_err (fun e => invalid_operation ("node name is not valid UTF-8: " +:+ e))
                   (utf8_text name_bytes) in
    Ok (passphrase, name, {| nv_name := name_status; nv_passphrase := passphrase_status;
                             nv_content_key := None; nv_extended_attributes := None |})).

Definition decrypt_link_verified (parent_key : Key) (link : LinkDto)
  : M W (DecryptedLink Key * NodeVerification) ProtonError :=
  let* (passphrase, name, verification) := decrypt_link_parts parent_key link in
  let* node_key := mlift (map_err Crypto (key_from_armored (ln_key link) passphrase)) in
  mret ({| dl_node_key := node_key; dl_name := name |}, verification).

Definition decrypt_link_name_verified (parent_key : Key) (link : LinkDto)
  : M W (string * NodeVerification) ProtonError :=
  let* (_, name, verification) := decrypt_link_parts parent_key link in
  mret (name, verification).

(** *** Content keys and extended attributes *)

Definition decrypt_content_key_verified (node_key : Key) (node_signature_email : option string)
    (content_key_packet : string) (content_key_signature : option string)
  : M W (CKey * VerificationStatus) ProtonError :=
  let* content_key := mlift (map_err Crypto (decrypt_content_key node_key content_key_packet)) in
  let* status := match content_key_signature with
                 | Some sig =>
                     let* claim := AuthorshipClaim_create node_signature_email in
                     let* exported := mlift (map_err Crypto (export_content_key content_key)) in
                     mret (verify_detached sig exported (content_ring claim node_key))
                 | None => mret NotSigned
                 end in
  mret (content_key, status).

Definition deserialize_extended_attributes (json : string) : Res DecryptedExtendedAttributes :=
  map_err (fun e => invalid_operation ("deserialize extended attributes: " +:+ e))
    (parse_extended_attributes json).

Definition decrypt_extended_attributes_verified (node_key : Key)
    (revision_signature_email : option string) (armored_xattr : string)
  : M W (DecryptedExtendedAttributes * VerificationStatus) ProtonError :=
  let* claim := AuthorshipClaim_create revision_signature_email in
  let* (json, status) := mlift (map_err Crypto
    (decrypt_armored_verify node_key armored_xattr (claim_ring claim node_key))) in
  let* attrs := mlift (deserialize_extended_attributes json) in
  mret (attrs, status).

Definition decrypt_extended_attributes_unverified (node_key : Key) (armored_xattr : string)
  : Res DecryptedExtendedAttributes :=
  let? json := map_err Crypto (decrypt_armored_message node_key armored_xattr) in
  deserialize_extended_attributes json.

(** *** Manifests *)

Definition verify_manifest (revision : RevisionDto) (node_key : Key) (manifest : string) (w : W)
  : VerificationStatus * W :=
  match rev_manifest_signature revision with
  | None => (NotSigned, w)
  | Some signature =>
      let email := default EmptyString (rev_signature_email revision) in
      let (ring, w) := if Str.is_empty email then (ring_from_private node_key, w)
                       else let (keys, w) := acct_public_keys email w in
                            (ring_from_public_keys keys, w) in
      (verify_detached signature manifest ring, w)
  end.
End Claims.
Arguments AuthorshipClaim : clear implicits.
