(* ===== verification/LinkCryptoFacts.v ===== *)
(** * Signatures and verified decryption: theorems

    Proved of [LinkCrypto]: the two readers of a message read the same; what each
    verification status means; a signature made for one purpose never passes for
    another; verified decryption opens exactly what the unverified one opens; and
    an author is named only on a signature of one of their keys. *)

From S2P Require Import Prelude Errors Config Http Keys Transport Node.
From S2P Require Import EntityCache Links LinksFacts LinkCrypto.

(** ** Messages *)

(** Reading a message with verification gives the same plaintext, or the
    same error, as reading it without, whatever the ring; the status is [NotSigned]
    for a message without signatures and [NoVerifier] for a signed one without
    keys to check it with. *)
Theorem decrypt_and_verify_reads_same {Key Pub Msg} `{MessageOps Key Pub Msg} fuel armored key ring :
  result_map fst <$> decrypt_and_verify fuel armored key ring = decrypt_armored fuel armored key /\
  forall data status, decrypt_and_verify fuel armored key ring = Some (Ok (data, status)) ->
    exists message, open_message fuel armored key = Some (Ok message) /\
      (status = NotSigned <-> is_signed message = false /\ is_one_pass_signed message = false) /\
      (status = NoVerifier -> ring = []) /\
      (status = VOk -> ring <> [] /\ exists results, verify_nested message ring = Ok results /\ true ∈ results).
Proof.
  unfold decrypt_and_verify, decrypt_armored.
  destruct (open_message fuel armored key) as [[message|e]|]; simpl; [|by split..].
  destruct (read_literal message) as [data|e]; simpl; [|by split].
  split; [done|]. intros d status [= <- <-]. exists message. split; [done|]. unfold verify_message.
  destruct (is_signed message) eqn:E1, (is_one_pass_signed message) eqn:E2; simpl;
    (destruct ring as [|k ring]; [split_and!; naive_solver|]);
    (destruct (verify_nested message (k :: ring)) as [results|e] eqn:Ev;
      [destruct (existsb id results) eqn:Er|]); split_and!; try naive_solver.
  all: intros _; split; [done|]; exists results; split; [done|];
    apply existsb_exists in Er as (b & Hin & Hb); destruct b; [by apply list_elem_of_In|done].
Qed.

(** ** Detached signatures *)

Section Signatures.
Context {Key Pub Sig : Type} `{SignatureOps Key Pub Sig} `{PassphraseOps}.

Lemma verifies_any_ok (s : Sig) data ring :
  verifies_any s data ring = VOk <-> exists key, key ∈ ring /\ signature_verifies s key data = true.
Proof.
  unfold verifies_any. destruct (existsb _ ring) eqn:E.
  - apply existsb_exists in E as (k & Hin & Hk). split; [|done]. intros _. exists k.
    by rewrite list_elem_of_In.
  - split; [done|]. intros (k & Hin & Hk). enough (true = false) by done. rewrite <- E. symmetry.
    apply existsb_exists. exists k. by rewrite <- list_elem_of_In.
Qed.

Lemma verify_detached_ok sig data ring :
  verify_detached sig data ring = VOk <->
  exists s key, parse_signature sig = Some s /\ key ∈ ring /\ signature_verifies s key data = true.
Proof.
  unfold verify_detached. destruct (parse_signature sig) as [s|]; [|naive_solver].
  destruct ring as [|k ring].
  - split; [done|]. intros (? & ? & _ & Hin & _). by apply elem_of_nil in Hin.
  - rewrite verifies_any_ok. naive_solver.
Qed.

Lemma in_context_spec (s : Sig) context :
  in_context s context = true <-> (SIGNATURE_CONTEXT_NOTATION, context) ∈ signature_notations s.
Proof.
  unfold in_context. rewrite existsb_exists. split.
  - intros ([n v] & Hin & Hnv). cbn [fst snd] in Hnv.
    apply andb_prop in Hnv as [->%String.eqb_eq ->%String.eqb_eq]. by apply list_elem_of_In.
  - intros Hin%list_elem_of_In. exists (SIGNATURE_CONTEXT_NOTATION, context). split; [done|].
    cbn [fst snd]. by rewrite !String.eqb_refl.
Qed.

(** A signature passes under a context only if it was made under that
    context by a key of the ring over that data: one made under another context
    or under none, by whatever key, is refused. *)
Theorem context_signature_spec signature data ring context :
  (verify_detached_with_context signature data ring context = VOk <->
   exists s key,
     (parse_signature signature = Some s \/
      parse_signature signature = None /\
      exists bytes, base64_standard_decode (trim_end (trim_start signature)) = Ok bytes /\
                    signature_from_bytes bytes = Some s) /\
     (SIGNATURE_CONTEXT_NOTATION, context) ∈ signature_notations s /\
     key ∈ ring /\ signature_verifies s key data = true) /\
  verify_detached_with_context signature data ring context <> NotSigned /\
  (verify_detached_with_context signature data ring context = NoVerifier <-> ring = []).
Proof.
  unfold verify_detached_with_context. destruct ring as [|k ring].
  { split_and!; [|done|done]. split; [done|]. intros (? & ? & _ & _ & Hin & _). by apply elem_of_nil in Hin. }
  set (parsed := match parse_signature signature with
                 | Some s => Some s
                 | None => bytes ← ok (base64_standard_decode (trim_end (trim_start signature)));
                           signature_from_bytes bytes
                 end).
  assert (forall s, parsed = Some s <->
    parse_signature signature = Some s \/ parse_signature signature = None /\
      exists bytes, base64_standard_decode (trim_end (trim_start signature)) = Ok bytes /\
                    signature_from_bytes bytes = Some s) as Hparsed.
  { intros s. subst parsed. destruct (parse_signature signature); [naive_solver|].
    destruct (base64_standard_decode _); simpl; naive_solver. }
  destruct parsed as [s|].
  - destruct (in_context s context) eqn:Hc; simpl.
    + apply in_context_spec in Hc. split_and!.
      * rewrite verifies_any_ok. split.
        -- intros (key & Hin & Hk). exists s, key. split_and!; try done. by apply Hparsed.
        -- intros (s' & key & Hp & _ & Hin & Hk). apply Hparsed in Hp as [= <-]. eauto.
      * unfold verifies_any. by destruct (existsb _ _).
      * unfold verifies_any. by destruct (existsb _ _).
    + split_and!; [|done|done]. split; [done|]. intros (s' & key & Hp & Hn & _).
      apply Hparsed in Hp as [= <-]. apply in_context_spec in Hn. congruence.
  - split_and!; [|done|done]. split; [done|]. intros (s' & key & Hp & _). by apply Hparsed in Hp.
Qed.
End Signatures.

(** ** Links *)

Section Links.
Context {W Key Pub Sig CKey : Type} `{KeyOps Key} `{SignatureOps Key Pub Sig} `{!VerifyOps Key Pub}
        `{ContentOps Key CKey} `{ContentKeyExport CKey} `{AttributeOps} `{AccountKeys W Key Pub}.

(** An email address, when it names anybody. *)
Definition named (email : option string) : option string :=
  match email with Some e => if Str.is_empty e then None else Some e | None => None end.

Lemma AuthorshipClaim_create_spec email (w : W) :
  exists keys w', AuthorshipClaim_create email w = (Ok {| cm_author := named email; cm_keys := keys |}, w') /\
    (named email = None -> keys = [] /\ w' = w) /\
    (forall e, named email = Some e -> acct_public_keys e w = (keys, w')).
Proof.
  unfold AuthorshipClaim_create, named. destruct email as [e|]; [|by exists [], w].
  destruct (Str.is_empty e); [by exists [], w|].
  destruct (acct_public_keys e w) as [keys w'] eqn:E. exists keys, w'. naive_solver.
Qed.

(** The keys a claim may be checked with: the author's, or the fallback when
    nobody is named. *)
Definition claimant (email : option string) (fallback : Key) (key : Pub) : Prop :=
  match named email with
  | Some e => exists w, key ∈ (acct_public_keys e w).1
  | None => key = public_half fallback
  end.

Lemma claim_ring_claimant email claim (w w' : W) fallback key :
  AuthorshipClaim_create email w = (Ok claim, w') -> key ∈ claim_ring claim fallback ->
  claimant email fallback key.
Proof.
  destruct (AuthorshipClaim_create_spec email w) as (keys & w1 & -> & _ & Hn). intros [= <- <-].
  unfold claim_ring, claimant. simpl. destruct (named email) as [e|].
  - intros Hin. exists w. by rewrite (Hn e eq_refl).
  - by intros ->%list_elem_of_singleton.
Qed.

Lemma decrypt_link_parts_spec parent_key link (w w' : W) r :
  decrypt_link_parts parent_key link w = (r, w') ->
  exists node_claim name_claim w1,
    AuthorshipClaim_create (ln_signature_email link) w = (Ok node_claim, w1) /\
    (ln_name_signature_email link = ln_signature_email link /\ name_claim = node_claim /\ w' = w1 \/
     AuthorshipClaim_create (ln_name_signature_email link) w1 = (Ok name_claim, w')) /\
    r = (let? passphrase := map_err Crypto (decrypt_armored_message parent_key (ln_passphrase link)) in
         let? (name_bytes, name_status) :=
           map_err Crypto (decrypt_armored_verify parent_key (ln_name link) (claim_ring name_claim parent_key)) in
         let? name := map_err (fun e => invalid_operation ("node name is not valid UTF-8: " +:+ e))
                        (utf8_text name_bytes) in
         Ok (passphrase, name,
             {| nv_name := name_status;
                nv_passphrase := match ln_passphrase_signature link with
                                 | Some sig => verify_detached sig passphrase (claim_ring node_claim parent_key)
                                 | None => NotSigned
                                 end;
                nv_content_key := None; nv_extended_attributes := None |})).
Proof.
  unfold decrypt_link_parts, mbind_.
  destruct (AuthorshipClaim_create_spec (ln_signature_email link) w) as (keys & w1 & -> & _ & _).
  destruct (decide (ln_name_signature_email link = ln_signature_email link)) as [He|He].
  - intros [= <- <-]. eexists _, _, w1. split_and!; [done| |done]. by left.
  - destruct (AuthorshipClaim_create_spec (ln_name_signature_email link) w1) as (keys2 & w2 & E2 & _ & _).
    rewrite E2. intros [= <- <-]. eexists _, _, w1. split_and!; [done| |done]. by right.
Qed.

(** A link whose passphrase or name is reported as verified carries a
    signature over that very passphrase, or a signed name, checked with keys of
    the author it claims - or with the parent key alone when it claims none. *)
Theorem verified_link_author parent_key link (w w' : W) passphrase name verification :
  decrypt_link_parts parent_key link w = (Ok (passphrase, name, verification), w') ->
  decrypt_armored_message parent_key (ln_passphrase link) = Ok passphrase /\
  (nv_passphrase verification = VOk ->
   exists sig s key, ln_passphrase_signature link = Some sig /\ parse_signature sig = Some s /\
     claimant (ln_signature_email link) parent_key key /\ signature_verifies s key passphrase = true) /\
  exists name_bytes ring, utf8_text name_bytes = Ok name /\
    decrypt_armored_verify parent_key (ln_name link) ring = Ok (name_bytes, nv_name verification) /\
    Forall (claimant (ln_name_signature_email link) parent_key) ring.
Proof.
  intros E. apply decrypt_link_parts_spec in E as (node_claim & name_claim & w1 & E1 & E2 & Er).
  destruct (decrypt_armored_message parent_key (ln_passphrase link)) as [p|]; simpl in Er; [|done].
  destruct (decrypt_armored_verify parent_key (ln_name link) (claim_ring name_claim parent_key))
    as [[bytes status]|] eqn:Ev; simpl in Er; [|done].
  destruct (utf8_text bytes) as [text|] eqn:Eu; simpl in Er; [|done]. injection Er as -> -> ->.
  split_and!; [done|..].
  - simpl. destruct (ln_passphrase_signature link) as [sig|]; [|done].
    intros (s & key & Hs & Hin & Hk)%verify_detached_ok. exists sig, s, key.
    split_and!; try done. by eapply claim_ring_claimant.
  - exists bytes, (claim_ring name_claim parent_key). split_and!; [done..|].
    apply Forall_forall. intros key Hin.
    destruct E2 as [(He & -> & _)|E2]; [rewrite He|]; by eapply claim_ring_claimant.
Qed.

(** Verification changes nothing about what opens: a link opens verified
    exactly when it opens unverified, to the same key and name; and the cheap
    reading gives the name and the statuses of the full one. *)
Theorem verified_link_opens_same `{!VerifyLaws Key Pub} parent_key link (w : W) :
  fst <$> ok (decrypt_link_verified parent_key link w).1 = ok (decrypt_link parent_key link) /\
  forall decrypted verification w',
    decrypt_link_verified parent_key link w = (Ok (decrypted, verification), w') ->
    decrypt_link_name_verified parent_key link w = (Ok (dl_name decrypted, verification), w').
Proof.
  unfold decrypt_link_verified, decrypt_link_name_verified, decrypt_link, mbind_.
  destruct (decrypt_link_parts parent_key link w) as [r w'] eqn:E.
  apply decrypt_link_parts_spec in E as (node_claim & name_claim & w1 & _ & _ & ->).
  pose proof (verify_reads_same parent_key (ln_name link) (claim_ring name_claim parent_key)) as Hv.
  destruct (decrypt_armored_message parent_key (ln_passphrase link)) as [p|]; simpl; [|done].
  destruct (decrypt_armored_verify parent_key (ln_name link) (claim_ring name_claim parent_key))
    as [[bytes status]|e]; simpl in Hv |- *; rewrite <- Hv; simpl.
  - destruct (utf8_text bytes) as [text|]; simpl;
      destruct (key_from_armored (ln_key link) p) as [key|]; simpl; try done.
    split; [done|]. by intros d v w2 [= <- <- <-].
  - by destruct (key_from_armored (ln_key link) p).
Qed.
End Links.

(** ** A small author *)

#[export] Instance toy_signatures : SignatureOps string string (string * string) := {
  public_half k := "pub-" +:+ k;
  parse_signature s := Str.split_once "|" s;
  signature_from_bytes _ := None;
  signature_notations _ := [];
  signature_verifies s key data := String.eqb s.1 key && String.eqb s.2 data
}.

(** Names are signed by [bob]. *)
#[export] Instance toy_verify : VerifyOps string string := {
  decrypt_armored_verify k m ring :=
    result_map (fun p => (p, match ring with
                             | [] => NoVerifier
                             | _ => if existsb (String.eqb "pub-bob") ring then VOk else Failed
                             end)) (decrypt_armored_message k m)
}.

#[export] Instance toy_verify_laws : VerifyLaws string string.
Proof.
  split. intros key armored ring. change (decrypt_armored_verify key armored ring) with
    (result_map (fun p => (p, match ring with
                              | [] => NoVerifier
                              | _ => if existsb (String.eqb "pub-bob") ring then VOk else Failed
                              end)) (decrypt_armored_message key armored)).
  by destruct (decrypt_armored_message key armored).
Qed.

#[export] Instance toy_account : AccountKeys unit string string := {
  acct_address_private_keys _ := mret ["addr"];
  acct_public_keys email w := (["pub-" +:+ email], w)
}.

Definition toy_signed_link : LinkDto :=
  {| ln_id := "l"; ln_link_type := 2; ln_parent_id := Some "r"; ln_state := 1; ln_creation_time := 0;
     ln_modification_time := 0; ln_trash_time := None; ln_trashed_legacy := None;
     ln_name := "key-r:report"; ln_name_hash := None; ln_key := "key-l"; ln_passphrase := "key-r:pass";
     ln_passphrase_signature := Some "pub-bob|pass"; ln_signature_email := Some "bob";
     ln_name_signature_email := Some ""; ln_third_party := false; ln_sdk := true |}.

(** The passphrase is bob's; nobody claims the name, and the parent key did not
    sign it. *)
Lemma verified_link_author_witness :
  exists passphrase name verification w',
    decrypt_link_parts "key-r" toy_signed_link tt = (Ok (passphrase, name, verification), w') /\
    nv_passphrase verification = VOk /\ nv_name verification = Failed /\
    decrypt_armored_message "key-r" (ln_passphrase toy_signed_link) = Ok passphrase.
Proof.
  eexists _, _, _, _. split; [vm_compute; reflexivity|]. split; [reflexivity|]. split; [reflexivity|].
  refine (proj1 (verified_link_author "key-r" toy_signed_link tt tt _ _ _ _)).
  vm_compute. reflexivity.
Defined.

Lemma verified_link_opens_same_witness :
  fst <$> ok (decrypt_link_verified "key-r" toy_signed_link tt).1
  = Some {| dl_node_key := "key-l"; dl_name := "report" |}.
Proof.
  rewrite (proj1 (verified_link_opens_same "key-r" toy_signed_link tt)). reflexivity.
Defined.
