(* ===== verification/Content.v ===== *)
(** * Content keys: packets, blocks and key packets

    From [crates/proton-sdk/src/crypto/]: a file's content key and what it seals
    and opens ([content.rs]), the choice of a recipient's encryption key and the
    signatures' subpackets ([encrypt.rs]), private keys and the identifiers a
    message names its recipients by ([keys.rs], [messages.rs]).

    A key is its parts: the primary key and the subkeys.  What the [pgp] crate
    does with one part or one packet - parsing, serializing, AES, PKESK, armor -
    is the interface [PgpOps]; [PgpMessages] is its message builder. *)

From S2P Require Import Prelude Errors Keys Sealing.

(** ** Data *)

Inductive SymmetricKeyAlgorithm := AES256 | OtherAlgorithm (id : Z).

Inductive PlainSessionKey :=
| SK_V3_4 (sym_alg : SymmetricKeyAlgorithm) (key : string)
| SK_V6 (key : string)
| SK_other (key : string).

Definition ContentKey := PlainSessionKey.

Inductive AeadAlgorithm := Eax | Ocb | Gcm.
Inductive ChunkSize := C64KiB | C128KiB | C256KiB.

Definition AEAD_ALGO : AeadAlgorithm := Gcm.
Definition AEAD_CHUNK_SIZE : ChunkSize := C128KiB.

Inductive PkeskVersion := Pkesk_V3 | Pkesk_V6 | Pkesk_other.
Inductive EskType := Esk_V3_4 | Esk_V6.

Inductive Packet (Pkesk Seipd : Type) :=
| PublicKeyEncryptedSessionKey (pkesk : Pkesk)
| SymEncryptedProtectedData (data : Seipd)
| LiteralData (data : string)
| OnePassSignature
| Signature
| OtherPacket.
Arguments PublicKeyEncryptedSessionKey {Pkesk Seipd}. Arguments SymEncryptedProtectedData {Pkesk Seipd}.
Arguments LiteralData {Pkesk Seipd}. Arguments OnePassSignature {Pkesk Seipd}.
Arguments Signature {Pkesk Seipd}. Arguments OtherPacket {Pkesk Seipd}.

Record SignedKey (Part : Type) := { primary_key : Part; subkeys : list Part }.
Arguments primary_key {Part}. Arguments subkeys {Part}.

Record PrivateKey (Part : Type) := { pk_key : SignedKey Part; pk_passphrase : string }.
Arguments pk_key {Part}. Arguments pk_passphrase {Part}.

(** ** The [pgp] crate *)

Class PgpOps (W Part PubPart Pkesk Seipd : Type) := {
  (** packets *)
  PacketParser_new : string -> list (result (Packet Pkesk Seipd) string);
  packet_tag : Packet Pkesk Seipd -> string;
  to_writer_with_header : Packet Pkesk Seipd -> result string string;
  literal_from_bytes : string -> result (Packet Pkesk Seipd) string;
  (** symmetric encryption *)
  new_session_key : SymmetricKeyAlgorithm -> W -> string * W;
  encrypt_seipdv1 : SymmetricKeyAlgorithm -> string -> string -> M W Seipd string;
  encrypt_seipdv2 : SymmetricKeyAlgorithm -> AeadAlgorithm -> ChunkSize -> string -> string
                    -> M W Seipd string;
  seipd_decrypt : Seipd -> string -> SymmetricKeyAlgorithm -> result string string;
  (** [SymKeyEncryptedSessionKey::encrypt_v4] under a fresh default S2K, serialized *)
  skesk_encrypt_v4 : string -> string -> SymmetricKeyAlgorithm -> M W string string;
  skesk_serialize : string -> result string string;
  (** the parts of a key *)
  public_part : Part -> PubPart;
  can_encrypt : PubPart -> bool;
  remove_password : Part -> string -> result Part string;
  legacy_key_id : Part -> string;
  fingerprint : Part -> string;
  from_session_key_v3 : string -> SymmetricKeyAlgorithm -> PubPart -> M W Pkesk string;
  from_session_key_v6 : string -> PubPart -> M W Pkesk string;
  pkesk_values : Pkesk -> result string string;
  pkesk_version : Pkesk -> PkeskVersion;
  pkesk_fingerprint : Pkesk -> result (option string) string;
  (** [None] for the wildcard *)
  pkesk_id : Pkesk -> result (option string) string;
  part_decrypt : Part -> string -> string -> EskType -> result PlainSessionKey string;
  (** text *)
  armor_write : string -> result string string;
  dearmor : string -> result string string;
  from_utf8 : string -> result string string;
  secret_key_from_string : string -> result (SignedKey Part) string
}.

(** [MessageBuilder], as what it is configured with. *)
Record MessageConfig (Part : Type) := {
  mc_data : string;
  mc_seipd_v1 : option SymmetricKeyAlgorithm;
  mc_zlib : bool;
  mc_sign_text : bool;
  mc_signer : option (Part * string)
}.
Arguments mc_data {Part}. Arguments mc_seipd_v1 {Part}. Arguments mc_zlib {Part}.
Arguments mc_sign_text {Part}. Arguments mc_signer {Part}.

Inductive SubpacketData :=
| IssuerFingerprint (fingerprint : string)
| SignatureCreationTime (seconds : Z)
| IssuerKeyId (id : string)
| Notation_ (name value : string).

Record Subpacket := { sp_critical : bool; sp_data : SubpacketData }.

Record SignatureConfig := { sc_hashed : list Subpacket; sc_unhashed : list Subpacket }.

Class PgpMessages (W Part PubPart Sig : Type) := {
  message_to_vec : MessageConfig Part -> M W string string;
  (** [encrypt_to_key], then [to_armored_string] *)
  message_encrypted_to : MessageConfig Part -> PubPart -> M W string string;
  timestamp_now : W -> Z * W;
  part_version : Part -> Z;
  (** [SignatureConfig::from_key], which draws a salt for some versions *)
  config_from_key : Part -> M W unit string;
  subpacket_new : bool -> SubpacketData -> result Subpacket string;
  signature_sign : SignatureConfig -> Part -> string -> string -> M W Sig string;
  signature_armored : Sig -> result string string;
  signature_bytes : Sig -> result string string
}.

Fixpoint mapM_result {A B E} (f : A -> result B E) (l : list A) : result (list B) E :=
  match l with
  | [] => Ok []
  | x :: l => let? y := f x in let? ys := mapM_result f l in Ok (y :: ys)
  end.

Definition encrypt_err (what : string) {A} (r : result A string) : result A CryptoError :=
  map_err (fun e => CEncrypt (what +:+ e)) r.
Definition parse_err (what : string) {A} (r : result A string) : result A CryptoError :=
  map_err (fun e => CParse (what +:+ e)) r.
Definition on_pgp (what : string) {W A} (m : M W A string) : M W A CryptoError := fun w =>
  let (r, w) := m w in (encrypt_err what r, w).

Section Content.
Context {W Part PubPart Pkesk Seipd : Type} `{PgpOps W Part PubPart Pkesk Seipd}.

Abbreviation Packet_ := (Packet Pkesk Seipd).
Abbreviation Secret := (PrivateKey Part).

(** ** Content keys *)

Definition ContentKey_generate : W -> ContentKey * W := fun w =>
  let (key, w) := new_session_key AES256 w in (SK_V3_4 AES256 key, w).

Definition ContentKey_generate_aead : W -> ContentKey * W := fun w =>
  let (key, w) := new_session_key AES256 w in (SK_V6 key, w).

Definition is_aead (k : ContentKey) : bool := match k with SK_V6 _ => true | _ => false end.

Definition session_parts (k : ContentKey) : result (SymmetricKeyAlgorithm * string) CryptoError :=
  match k with
  | SK_V3_4 sym_alg key => Ok (sym_alg, key)
  | SK_V6 key => Ok (AES256, key)
  | SK_other _ => Err (CEncrypt "content key is not a V3/V4 or V6 session key")
  end.

Definition export (k : ContentKey) : result string CryptoError :=
  let? (_, key) := session_parts k in Ok key.

(** ** Sealing *)

Definition seal_seipd (k : ContentKey) (inner : string) : M W string CryptoError :=
  let* (sym_alg, key) := mlift (session_parts k) in
  let* seipd :=
    if is_aead k
    then on_pgp "encrypt seipdv2: " (encrypt_seipdv2 sym_alg AEAD_ALGO AEAD_CHUNK_SIZE key inner)
    else on_pgp "encrypt seipdv1: " (encrypt_seipdv1 sym_alg key inner) in
  mlift (encrypt_err "serialize seipd: " (to_writer_with_header (SymEncryptedProtectedData seipd))).

Definition encrypt_block (k : ContentKey) (plaintext : string) : M W string CryptoError :=
  let* literal := mlift (encrypt_err "literal packet: " (literal_from_bytes plaintext)) in
  let* inner := mlift (encrypt_err "serialize literal: " (to_writer_with_header literal)) in
  seal_seipd k inner.

(** A signed, unencrypted message. *)
Definition signed_config (signer : Secret) (text : bool) (data : string) : MessageConfig Part :=
  {| mc_data := data; mc_seipd_v1 := None; mc_zlib := false; mc_sign_text := text;
     mc_signer := Some (primary_key (pk_key signer), pk_passphrase signer) |}.

Section Messages.
Context {Sig : Type} `{PgpMessages W Part PubPart Sig}.

Definition encrypt_thumbnail (k : ContentKey) (signer : Secret) (plaintext : string)
  : M W string CryptoError :=
  let* inner := on_pgp "sign thumbnail: " (message_to_vec (signed_config signer false plaintext)) in
  seal_seipd k inner.
End Messages.

(** ** Key packets *)

(** [RecipientOp]s are functions of the public part. *)
Fixpoint first_subkey {A} (op : PubPart -> M W A string) (parts : list PubPart) (none : string)
  : M W A CryptoError :=
  match parts with
  | [] => mfail (CEncrypt none)
  | sub :: parts =>
      if can_encrypt sub then on_pgp "encrypt to subkey: " (op sub) else first_subkey op parts none
  end.

Definition recipient_encryption_key {A} (key : SignedKey Part) (op : PubPart -> M W A string)
  : M W A CryptoError :=
  let primary := public_part (primary_key key) in
  if can_encrypt primary then on_pgp "encrypt to primary key: " (op primary)
  else first_subkey op (public_part <$> subkeys key) "key has no encryption-capable (sub)key".

Definition recipient_encryption_key_public {A} (key : SignedKey PubPart) (op : PubPart -> M W A string)
  : M W A CryptoError :=
  if can_encrypt (primary_key key) then on_pgp "encrypt to primary key: " (op (primary_key key))
  else first_subkey op (subkeys key) "public key has no encryption-capable (sub)key".

(** [ContentKeyPacketOp] and [ContentKeyPacketV6Op]. *)
Definition content_key_packet_op (k : ContentKey) (sym_alg : SymmetricKeyAlgorithm) (key : string)
  : PubPart -> M W Pkesk string :=
  if is_aead k then from_session_key_v6 key else from_session_key_v3 key sym_alg.

Definition content_to_packet (k : ContentKey) (node_key : Secret) : M W string CryptoError :=
  let* (sym_alg, key) := mlift (session_parts k) in
  let* packet := recipient_encryption_key (pk_key node_key) (content_key_packet_op k sym_alg key) in
  mlift (encrypt_err "serialize content key packet: "
           (to_writer_with_header (PublicKeyEncryptedSessionKey packet))).

Definition content_to_packet_for_public (k : ContentKey) (pubkey : SignedKey PubPart)
  : M W string CryptoError :=
  let* (sym_alg, key) := mlift (session_parts k) in
  let* packet := recipient_encryption_key_public pubkey (content_key_packet_op k sym_alg key) in
  mlift (encrypt_err "serialize session key packet: "
           (to_writer_with_header (PublicKeyEncryptedSessionKey packet))).

Definition encrypt_with_password (k : ContentKey) (password : string) : M W string CryptoError :=
  let* (sym_alg, key) := mlift (session_parts k) in
  let* skesk := on_pgp "skesk encrypt: " (skesk_encrypt_v4 password key sym_alg) in
  mlift (encrypt_err "serialize skesk: " (skesk_serialize skesk)).

Definition armored (message : string) : result string CryptoError :=
  let? out := encrypt_err "armor message: " (armor_write message) in
  encrypt_err "armored message is not utf8: " (from_utf8 out).

(** ** Opening *)

(** The [loop] that looks for the SEIPD packet. *)
Fixpoint find_seipd (packets : list (result Packet_ string)) : result Seipd CryptoError :=
  match packets with
  | [] => Err (CParse "block has no SEIPD packet")
  | packet :: packets =>
      let? packet := parse_err "block packet: " packet in
      match packet with
      | SymEncryptedProtectedData data => Ok data
      | PublicKeyEncryptedSessionKey _ => find_seipd packets
      | other => Err (CParse ("unexpected block packet: " +:+ packet_tag other))
      end
  end.

Definition decrypt_seipd (k : ContentKey) (ciphertext : string) : result string CryptoError :=
  let? (sym_alg, key) := session_parts k in
  let? seipd := find_seipd (PacketParser_new ciphertext) in
  map_err (fun e => CDecrypt ("block: " +:+ e)) (seipd_decrypt seipd key sym_alg).

Definition content_decrypt_block (k : ContentKey) (ciphertext : string) : result string CryptoError :=
  let? inner := decrypt_seipd k ciphertext in
  let? literal := ok_or (head (PacketParser_new inner)) (CParse "block payload is empty") in
  let? literal := parse_err "block payload packet: " literal in
  match literal with
  | LiteralData data => Ok data
  | other => Err (CParse ("block payload is not literal data: " +:+ packet_tag other))
  end.

Fixpoint find_literal (packets : list (result Packet_ string)) : result string CryptoError :=
  match packets with
  | [] => Err (CParse "thumbnail payload had no literal data")
  | packet :: packets =>
      let? packet := parse_err "thumbnail payload packet: " packet in
      match packet with
      | LiteralData data => Ok data
      | OnePassSignature | Signature => find_literal packets
      | other => Err (CParse ("unexpected thumbnail payload packet: " +:+ packet_tag other))
      end
  end.

Definition content_decrypt_thumbnail (k : ContentKey) (ciphertext : string) : result string CryptoError :=
  let? inner := decrypt_seipd k ciphertext in
  find_literal (PacketParser_new inner).

(** The [for] over the subkeys, with the last error. *)
Fixpoint decrypt_with_subkeys (parts : list Part) (pw values : string) (esk_type : EskType)
    (last_err : CryptoError) : result ContentKey CryptoError :=
  match parts with
  | [] => Err last_err
  | sub :: parts =>
      match part_decrypt sub pw values esk_type with
      | Ok session_key => Ok session_key
      | Err e => decrypt_with_subkeys parts pw values esk_type (CDecrypt ("content key (subkey): " +:+ e))
      end
  end.

Definition secret_decrypt_content_key (k : Secret) (packet_bytes : string) : result ContentKey CryptoError :=
  let? packet := ok_or (head (PacketParser_new packet_bytes)) (CParse "empty content key packet") in
  let? packet := parse_err "content key packet: " packet in
  match packet with
  | PublicKeyEncryptedSessionKey pkesk =>
      let? values := parse_err "content key PKESK values: " (pkesk_values pkesk) in
      let esk_type := match pkesk_version pkesk with Pkesk_V6 => Esk_V6 | _ => Esk_V3_4 end in
      match part_decrypt (primary_key (pk_key k)) (pk_passphrase k) values esk_type with
      | Ok session_key => Ok session_key
      | Err e => decrypt_with_subkeys (subkeys (pk_key k)) (pk_passphrase k) values esk_type
                   (CDecrypt ("content key: " +:+ e))
      end
  | _ => Err (CParse "content key packet is not a PKESK")
  end.

Definition dearmored (armored_message : string) : result string CryptoError :=
  parse_err "de-armor message: " (dearmor armored_message).

Definition secret_recover_message_session_key (k : Secret) (armored_message : string)
  : result ContentKey CryptoError :=
  let? raw := dearmored armored_message in
  secret_decrypt_content_key k raw.

(** ** Rewrapping *)

Fixpoint first_seipd (packets : list (result Packet_ string)) : result string CryptoError :=
  match packets with
  | [] => Err (CParse "message has no SEIPD packet")
  | packet :: packets =>
      let? packet := parse_err "message packet: " packet in
      match packet with
      | SymEncryptedProtectedData data =>
          encrypt_err "serialize seipd: " (to_writer_with_header (SymEncryptedProtectedData data))
      | _ => first_seipd packets
      end
  end.

Definition serialize_seipd (raw : string) : result string CryptoError :=
  first_seipd (PacketParser_new raw).

Definition secret_rewrap_message_to (k : Secret) (armored_message : string) (destination : Secret)
  : M W string CryptoError :=
  let* raw := mlift (dearmored armored_message) in
  let* session := mlift (secret_decrypt_content_key k raw) in
  let* body := mlift (serialize_seipd raw) in
  let* message := content_to_packet session destination in
  mlift (armored (message +:+ body)).

(** ** Private keys *)

(** A subkey that resists stays locked. *)
Definition unlock_subkey (password : string) (sub : Part) : Part :=
  match remove_password sub password with Ok sub => sub | Err _ => sub end.

Definition PrivateKey_from_armored (armored passphrase : string) : result Secret CryptoError :=
  let? key := parse_err "secret key: " (secret_key_from_string armored) in
  let? primary := map_err CUnlock (remove_password (primary_key key) passphrase) in
  Ok {| pk_key := {| primary_key := primary; subkeys := unlock_subkey passphrase <$> subkeys key |};
        pk_passphrase := passphrase |}.

Definition part_ids (part : Part) : list string := [legacy_key_id part; fingerprint part].

Definition key_ids (armored : string) : result (list string) CryptoError :=
  let? key := parse_err "secret key: " (secret_key_from_string armored) in
  Ok (part_ids (primary_key key) ++ concat (part_ids <$> subkeys key)).

Inductive Esk := PkeskEsk (pkesk : Pkesk) | SkeskEsk.

(** [None] for a recipient the message does not name. *)
Definition esk_recipient (esk : Esk) : option (option string) :=
  match esk with
  | PkeskEsk pkesk =>
      Some (match pkesk_fingerprint pkesk with
            | Ok fingerprint => fingerprint
            | Err _ => id ← ok (pkesk_id pkesk); id
            end)
  | SkeskEsk => None
  end.

Definition recipients (message_from_string : string -> result (option (list Esk)) string) (armored : string)
  : result (list (option string)) CryptoError :=
  let? message := parse_err "message: " (message_from_string armored) in
  match message with
  | Some esk => Ok (omap esk_recipient esk)
  | None => Ok []
  end.

(** ** Messages and signatures *)

Section Signing.
Context {Sig : Type} `{PgpMessages W Part PubPart Sig}.

Definition content_encrypt_and_sign_text_to (k : ContentKey) (recipient signer : Secret) (data : string)
  : M W string CryptoError :=
  let* inner := on_pgp "sign name: " (message_to_vec (signed_config signer true data)) in
  let* packet := content_to_packet k recipient in
  let* body := seal_seipd k inner in
  mlift (armored (packet +:+ body)).

(** [EncryptSignOp] *)
Definition encrypt_sign_config (data : string) (signer : option Secret) (text compress : bool)
  : MessageConfig Part :=
  {| mc_data := data; mc_seipd_v1 := Some AES256; mc_zlib := compress; mc_sign_text := text;
     mc_signer := (fun s => (primary_key (pk_key s), pk_passphrase s)) <$> signer |}.

Definition secret_encrypt_and_sign (recipient : Secret) (signer : option Secret) (data : string)
    (text compress : bool) : M W string CryptoError :=
  recipient_encryption_key (pk_key recipient)
    (message_encrypted_to (encrypt_sign_config data signer text compress)).

Definition regular (what : string) (data : SubpacketData) : result Subpacket CryptoError :=
  encrypt_err what (subpacket_new false data).
Definition critical (what : string) (data : SubpacketData) : result Subpacket CryptoError :=
  encrypt_err what (subpacket_new true data).

(** The subpackets both kinds of signature are stamped with. *)
Definition stamped (key : Part) (now : Z) (notations : list SubpacketData)
  : result SignatureConfig CryptoError :=
  let? issuer := regular "issuer fingerprint subpacket: " (IssuerFingerprint (fingerprint key)) in
  let? created := regular "creation-time subpacket: " (SignatureCreationTime now) in
  let? notations := mapM_result (critical "context notation subpacket: ") notations in
  let? unhashed := if part_version key <=? 4
                   then let? issuer := regular "issuer subpacket: " (IssuerKeyId (legacy_key_id key)) in
                        Ok [issuer]
                   else Ok [] in
  Ok {| sc_hashed := issuer :: created :: notations; sc_unhashed := unhashed |}.

Definition sign_stamped (signer : Secret) (notations : list SubpacketData) (data : string)
  : M W Sig CryptoError :=
  let key := primary_key (pk_key signer) in
  let* _ := on_pgp "signature config: " (config_from_key key) in
  let* now := fun w => let (now, w) := timestamp_now w in (Ok now, w) in
  let* config := mlift (stamped key now notations) in
  on_pgp "detached sign: " (signature_sign config key (pk_passphrase signer) data).

Definition secret_sign_detached (signer : Secret) (data : string) : M W string CryptoError :=
  let* signature := sign_stamped signer [] data in
  mlift (encrypt_err "armor signature: " (signature_armored signature)).

Definition context_notation (context : string) : SubpacketData :=
  Notation_ "context@proton.ch" context.

Definition secret_sign_with_context (signer : Secret) (data context : string) : M W string CryptoError :=
  let* signature := sign_stamped signer [context_notation context] data in
  mlift (encrypt_err "serialize signature: " (signature_bytes signature)).
End Signing.
End Content.

(** ** The interfaces of [Keys], [Sealing] and the Drive client, met *)

Section Interfaces.
Context {W Part PubPart Pkesk Seipd : Type} `{PgpOps W Part PubPart Pkesk Seipd}.

Definition pgp_content : ContentOps (PrivateKey Part) ContentKey := {|
  decrypt_content_key := secret_decrypt_content_key;
  decrypt_thumbnail := content_decrypt_thumbnail;
  decrypt_block := content_decrypt_block |}.

Definition pgp_export : ContentKeyExport ContentKey := {| export_content_key := export |}.

Definition pgp_session_keys : SessionKeyOps W (PrivateKey Part) (SignedKey PubPart) ContentKey := {|
  session_key_generate := ContentKey_generate;
  to_packet := content_to_packet;
  to_packet_for_public := content_to_packet_for_public;
  seal_block := encrypt_block;
  armor_message := armored |}.
End Interfaces.
