(* ===== verification/ContentFacts.v ===== *)
(** * Content keys: theorems

    Proved of [Content] against [PgpLaws], what the [pgp] crate promises of one
    packet and one key part: what a content key seals it opens, in either format;
    a content key survives its key packet, kind included; a message rewrapped for
    another key keeps its session key and its body; the share passphrase gives
    its session key back to the node key it was sealed for; and a signature made
    in one context passes in that context only. *)

From S2P Require Import Prelude Errors Config Keys Sealing Http Transport Node EntityCache Links.
From S2P Require Import LinkCrypto LinkCryptoFacts Content.

Class PgpLaws (W Part PubPart Pkesk Seipd : Type) `{PgpOps W Part PubPart Pkesk Seipd} := {
  (** the part's secret material is open, or opens with this password *)
  part_opens : Part -> string -> Prop;
  parse_packet p bytes rest :
    to_writer_with_header p = Ok bytes ->
    PacketParser_new (bytes +:+ rest) = Ok p :: PacketParser_new rest;
  literal_new d p : literal_from_bytes d = Ok p -> p = LiteralData d;
  seipdv1_opens sym key inner (w w' : W) d :
    encrypt_seipdv1 sym key inner w = (Ok d, w') -> seipd_decrypt d key sym = Ok inner;
  seipdv2_opens sym aead chunk key inner (w w' : W) d :
    encrypt_seipdv2 sym aead chunk key inner w = (Ok d, w') -> seipd_decrypt d key sym = Ok inner;
  pkesk_v3_opens key sym part pw (w w' : W) p :
    from_session_key_v3 key sym (public_part part) w = (Ok p, w') -> part_opens part pw ->
    pkesk_version p = Pkesk_V3 /\
    exists v, pkesk_values p = Ok v /\ part_decrypt part pw v Esk_V3_4 = Ok (SK_V3_4 sym key);
  pkesk_v6_opens key part pw (w w' : W) p :
    from_session_key_v6 key (public_part part) w = (Ok p, w') -> part_opens part pw ->
    pkesk_version p = Pkesk_V6 /\
    exists v, pkesk_values p = Ok v /\ part_decrypt part pw v Esk_V6 = Ok (SK_V6 key);
  (** a key that cannot be encrypted to decrypts nothing *)
  signing_part_blind part pw v t :
    can_encrypt (public_part part) = false -> is_ok (part_decrypt part pw v t) = false;
  armor_opens m out : armor_write m = Ok out -> dearmor out = Ok m;
  from_utf8_same s s' : from_utf8 s = Ok s' -> s' = s
}.

Class PgpMessageLaws (W Part PubPart Pkesk Seipd Sig : Type) `{PgpOps W Part PubPart Pkesk Seipd}
    `{PgpMessages W Part PubPart Sig} : Prop := {
  signed_message_parses (cfg : MessageConfig Part) (w w' : W) inner :
    message_to_vec cfg w = (Ok inner, w') -> mc_sign_text cfg = false -> mc_zlib cfg = false ->
    PacketParser_new inner = [Ok OnePassSignature; Ok (LiteralData (mc_data cfg)); Ok Signature]
}.

Section Opens.
Context {W Part PubPart Pkesk Seipd : Type} `{PgpLaws W Part PubPart Pkesk Seipd}.

Definition parts (k : PrivateKey Part) : list Part := primary_key (pk_key k) :: subkeys (pk_key k).

(** Every part of the key can be used. *)
Definition unlocked (k : PrivateKey Part) : Prop :=
  Forall (fun part => part_opens part (pk_passphrase k)) (parts k).

(** ** Blocks *)

Lemma parse_one p bytes : to_writer_with_header p = Ok bytes ->
  PacketParser_new bytes = Ok p :: PacketParser_new EmptyString.
Proof. intros E. rewrite <- (parse_packet _ _ EmptyString E). by rewrite str_app_nil_r. Qed.

(** What [seal_seipd] makes: one packet, that the key opens to what was sealed. *)
Lemma seal_seipd_opens k inner (w w' : W) bytes :
  seal_seipd k inner w = (Ok bytes, w') ->
  exists seipd, to_writer_with_header (SymEncryptedProtectedData seipd) = Ok bytes /\
    exists sym key, session_parts k = Ok (sym, key) /\ seipd_decrypt seipd key sym = Ok inner.
Proof.
  unfold seal_seipd, mbind_, mlift, on_pgp, encrypt_err. destruct (session_parts k) as [[sym key]|e]; [|done].
  destruct (is_aead k).
  - destruct (encrypt_seipdv2 _ _ _ _ _ w) as [[seipd|e] w1] eqn:E; simpl; [|done].
    destruct (to_writer_with_header _) eqn:Eb; simpl; [|done]. intros [= <- <-].
    exists seipd. split; [done|]. exists sym, key. split; [done|]. by eapply seipdv2_opens.
  - destruct (encrypt_seipdv1 _ _ _ w) as [[seipd|e] w1] eqn:E; simpl; [|done].
    destruct (to_writer_with_header _) eqn:Eb; simpl; [|done]. intros [= <- <-].
    exists seipd. split; [done|]. exists sym, key. split; [done|]. by eapply seipdv1_opens.
Qed.

(** The key packets a message begins with are passed over. *)
Inductive key_packets : string -> Prop :=
| key_packets_nil : key_packets EmptyString
| key_packets_cons p bytes rest :
    to_writer_with_header (PublicKeyEncryptedSessionKey p) = Ok bytes -> key_packets rest ->
    key_packets (bytes +:+ rest).

Lemma find_seipd_after front seipd bytes :
  key_packets front -> to_writer_with_header (SymEncryptedProtectedData seipd) = Ok bytes ->
  find_seipd (PacketParser_new (front +:+ bytes)) = Ok seipd.
Proof.
  intros Hf Hb. induction Hf as [|p fb rest Hp _ IH].
  - by rewrite str_app_nil_l, (parse_one _ _ Hb).
  - by rewrite str_app_assoc, (parse_packet _ _ _ Hp).
Qed.

Lemma decrypt_seipd_sealed k inner (w w' : W) front bytes :
  seal_seipd k inner w = (Ok bytes, w') -> key_packets front ->
  decrypt_seipd k (front +:+ bytes) = Ok inner.
Proof.
  intros E Hf. destruct (seal_seipd_opens _ _ _ _ _ E) as (seipd & Hb & sym & key & Hk & Hd).
  unfold decrypt_seipd. rewrite Hk. simpl. by rewrite (find_seipd_after _ _ _ Hf Hb); simpl; rewrite Hd.
Qed.

Lemma block_opens k plaintext (w w' : W) front bytes :
  encrypt_block k plaintext w = (Ok bytes, w') -> key_packets front ->
  content_decrypt_block k (front +:+ bytes) = Ok plaintext.
Proof.
  unfold encrypt_block, mbind_, mlift, encrypt_err.
  destruct (literal_from_bytes plaintext) as [p|e] eqn:El; simpl; [|done].
  apply literal_new in El as ->.
  destruct (to_writer_with_header (LiteralData plaintext)) as [inner|e] eqn:Ei; simpl; [|done].
  intros E Hf. unfold content_decrypt_block. rewrite (decrypt_seipd_sealed _ _ _ _ _ _ E Hf). simpl.
  by rewrite (parse_one _ _ Ei).
Qed.

(** C31: A block a content key sealed opens to its plaintext, in the legacy and in
    the AEAD format alike, alone or behind the key packets of a full message. *)
Theorem content_block_roundtrip k plaintext (w w' : W) front bytes :
  encrypt_block k plaintext w = (Ok bytes, w') -> key_packets front ->
  content_decrypt_block k bytes = Ok plaintext /\ content_decrypt_block k (front +:+ bytes) = Ok plaintext.
Proof.
  intros E Hf. split; [|by eapply block_opens]. apply (block_opens _ _ _ _ EmptyString _ E). constructor.
Qed.

(** ** Key packets *)

Lemma decrypt_with_blind_subkeys front part pw v t e key (rest : list Part) :
  Forall (fun p => can_encrypt (public_part p) = false) front ->
  part_decrypt part pw v t = Ok key ->
  decrypt_with_subkeys (front ++ part :: rest) pw v t e = Ok key.
Proof.
  intros Hf Hp. revert e. induction Hf as [|p front Hb _ IH]; intros e; simpl; [by rewrite Hp|].
  pose proof (signing_part_blind p pw v t Hb) as Hd. destruct (part_decrypt p pw v t); [done|]. apply IH.
Qed.

Lemma first_subkey_spec {A} (op : PubPart -> M W A string) (l : list Part) none (w w' : W) a :
  first_subkey op (public_part <$> l) none w = (Ok a, w') ->
  exists front part rest, l = front ++ part :: rest /\
    Forall (fun p => can_encrypt (public_part p) = false) front /\ op (public_part part) w = (Ok a, w').
Proof.
  induction l as [|p l IH]; simpl; [done|]. destruct (can_encrypt (public_part p)) eqn:Ec.
  - unfold on_pgp, encrypt_err. destruct (op (public_part p) w) as [[r|e] w1] eqn:Eo; simpl; [|done].
    intros [= <- <-]. by exists [], p, l.
  - intros E. destruct (IH E) as (front & part & rest & -> & Hf & Ho).
    exists (p :: front), part, rest. by repeat constructor.
Qed.

(** The recipient is the first part that can encrypt; the parts before it are
    blind. *)
Lemma recipient_spec {A} (k : SignedKey Part) (op : PubPart -> M W A string) (w w' : W) a :
  recipient_encryption_key k op w = (Ok a, w') ->
  exists front part rest, primary_key k :: subkeys k = front ++ part :: rest /\
    Forall (fun p => can_encrypt (public_part p) = false) front /\ op (public_part part) w = (Ok a, w').
Proof.
  unfold recipient_encryption_key. destruct (can_encrypt (public_part (primary_key k))) eqn:Ec.
  - unfold on_pgp, encrypt_err. destruct (op _ w) as [[r|e] w1] eqn:Eo; simpl; [|done].
    intros [= <- <-]. by exists [], (primary_key k), (subkeys k).
  - intros E. destruct (first_subkey_spec _ _ _ _ _ _ E) as (front & part & rest & -> & Hf & Ho).
    exists (primary_key k :: front), part, rest. by repeat constructor.
Qed.

Lemma session_parts_key k sym key : session_parts k = Ok (sym, key) ->
  k = if is_aead k then SK_V6 key else SK_V3_4 sym key.
Proof. by destruct k; simpl; intros [= <- <-]. Qed.

(** A key packet opens, wherever it leads, with the key it was made for. *)
Lemma packet_opens (k : ContentKey) (node_key : PrivateKey Part) (w w' : W) packet rest :
  content_to_packet k node_key w = (Ok packet, w') -> unlocked node_key ->
  secret_decrypt_content_key node_key (packet +:+ rest) = Ok k.
Proof.
  unfold content_to_packet, mbind_, mlift. destruct (session_parts k) as [[sym key]|e] eqn:Es; [|done].
  destruct (recipient_encryption_key _ _ w) as [[p|e] w1] eqn:Er; [|done].
  destruct (to_writer_with_header _) as [bytes|e] eqn:Eb; simpl; [|done]. intros [= <- <-] Hu.
  destruct (recipient_spec _ _ _ _ _ Er) as (front & part & after & Hl & Hf & Ho).
  assert (Hopen : part_opens part (pk_passphrase node_key)).
  { unfold unlocked, parts in Hu. rewrite Hl, Forall_app, Forall_cons in Hu. tauto. }
  assert (exists v t, pkesk_values p = Ok v /\
            match pkesk_version p with Pkesk_V6 => Esk_V6 | _ => Esk_V3_4 end = t /\
            part_decrypt part (pk_passphrase node_key) v t = Ok k) as (v & t & Hv & Ht & Hd).
  { rewrite (session_parts_key _ _ _ Es). unfold content_key_packet_op in Ho. destruct (is_aead k).
    - destruct (pkesk_v6_opens _ _ _ _ _ _ Ho Hopen) as (-> & v & Hv & Hd). eauto.
    - destruct (pkesk_v3_opens _ _ _ _ _ _ _ Ho Hopen) as (-> & v & Hv & Hd). eauto. }
  unfold secret_decrypt_content_key. rewrite (parse_packet _ _ _ Eb). simpl. rewrite Hv. simpl. rewrite Ht.
  destruct front as [|q front]; simpl in Hl; injection Hl as -> Hsub.
  - by rewrite Hd.
  - apply Forall_cons in Hf as [Hq Hf]. pose proof (signing_part_blind q (pk_passphrase node_key) v t Hq) as Hn.
    destruct (part_decrypt q _ v t); [done|]. rewrite Hsub. by apply decrypt_with_blind_subkeys.
Qed.

(** C32: A content key sent as a key packet is opened again by the key it was made
    for, to the same key of the same kind, whatever follows the packet and
    whichever part of the recipient encrypts. *)
Theorem content_key_travels (k : ContentKey) (node_key : PrivateKey Part) (w w' : W) packet rest :
  content_to_packet k node_key w = (Ok packet, w') -> unlocked node_key ->
  secret_decrypt_content_key node_key (packet +:+ rest) = Ok k.
Proof. apply packet_opens. Qed.

(** ** Rewrapping *)

Lemma armored_opens m out : armored m = Ok out -> dearmor out = Ok m.
Proof.
  unfold armored, encrypt_err. destruct (armor_write m) as [a|] eqn:Ea; simpl; [|done].
  destruct (from_utf8 a) as [b|] eqn:Eb; simpl; [|done]. intros [= ->].
  apply from_utf8_same in Eb as ->. by apply armor_opens.
Qed.

Lemma packet_serialized (k : ContentKey) (node_key : PrivateKey Part) (w w' : W) packet :
  content_to_packet k node_key w = (Ok packet, w') ->
  exists p, to_writer_with_header (PublicKeyEncryptedSessionKey p) = Ok packet.
Proof.
  unfold content_to_packet, mbind_, mlift. destruct (session_parts k) as [[sym key]|e]; [|done].
  destruct (recipient_encryption_key _ _ w) as [[p|e] w1]; [|done].
  destruct (to_writer_with_header _) eqn:Eb; simpl; [|done]. intros [= <- <-]. eauto.
Qed.

Lemma first_seipd_serializes l body : first_seipd l = Ok body ->
  exists d, to_writer_with_header (SymEncryptedProtectedData d) = Ok body.
Proof.
  induction l as [|[q|e] l IH]; simpl; [done| |done].
  destruct q; simpl; try exact IH. unfold encrypt_err.
  destruct (to_writer_with_header _) eqn:E; simpl; [|done]. intros [= <-]. eauto.
Qed.

(** A message rewrapped for another key gives that key the session key it gave
    the old one, and carries the encrypted body unchanged: the same plaintext,
    under the same signature. *)
Theorem rewrap_keeps_session_and_body (k destination : PrivateKey Part) message (w w' : W) message' :
  secret_rewrap_message_to k message destination w = (Ok message', w') -> unlocked destination ->
  exists raw raw' session body,
    dearmor message = Ok raw /\ dearmor message' = Ok raw' /\
    secret_recover_message_session_key k message = Ok session /\
    secret_recover_message_session_key destination message' = Ok session /\
    serialize_seipd raw = Ok body /\ serialize_seipd raw' = Ok body.
Proof.
  unfold secret_rewrap_message_to, secret_recover_message_session_key, dearmored, parse_err, mbind_, mlift.
  destruct (dearmor message) as [raw|e] eqn:Ed; simpl; [|done].
  destruct (secret_decrypt_content_key k raw) as [session|e] eqn:Es; [|done].
  destruct (serialize_seipd raw) as [body|e] eqn:Eb; [|done].
  destruct (content_to_packet session destination w) as [[packet|e] w1] eqn:Ep; [|done].
  intros E Hu. injection E as E _. apply armored_opens in E.
  exists raw, (packet +:+ body), session, body. rewrite E. simpl.
  destruct (packet_serialized _ _ _ _ _ Ep) as [p Hp].
  destruct (first_seipd_serializes _ _ Eb) as [d Hd].
  split; [done|]. split; [done|]. split; [done|]. split; [|split; [done|]].
  - by eapply packet_opens.
  - unfold serialize_seipd. rewrite (parse_packet _ _ _ Hp). simpl. rewrite (parse_one _ _ Hd). simpl.
    by rewrite Hd.
Qed.

(** ** The share passphrase *)

Section Shares.
Context `{!KeyOps (PrivateKey Part)} `{!PassphraseOps} `{!SealOps W (PrivateKey Part)}.

#[local] Existing Instances pgp_content pgp_export pgp_session_keys.

Lemma packets_for_spec (k : ContentKey) (l : list (PrivateKey Part)) front (w w' : W) message :
  packets_for k l front w = (Ok message, w') ->
  exists packets, message = front +:+ packets /\ key_packets packets /\
    forall first, head l = Some first -> exists p rest w1 w2,
      packets = p +:+ rest /\ content_to_packet k first w1 = (Ok p, w2).
Proof.
  revert front w. induction l as [|r l IH]; intros front w; simpl.
  - intros [= <- <-]. exists EmptyString. split; [by rewrite str_app_nil_r|]. split; [constructor|done].
  - unfold mbind_. destruct (content_to_packet k r w) as [[p|e] w1] eqn:Ep; [|done]. intros E.
    destruct (IH _ _ E) as (packets & -> & Hk & _). exists (p +:+ packets).
    split; [by rewrite str_app_assoc|]. destruct (packet_serialized _ _ _ _ _ Ep) as [q Hq].
    split; [by econstructor|]. intros first [= <-]. eauto 10.
Qed.

(** A message sealed for several keys: its session key comes back from the first
    recipient, and opens it. *)
Lemma message_to_first_opens (k : ContentKey) (first : PrivateKey Part) others data (w w' : W) message :
  encrypt_message_to k (first :: others) data w = (Ok message, w') -> unlocked first ->
  exists raw, dearmor message = Ok raw /\
    secret_recover_message_session_key first message = Ok k /\ content_decrypt_block k raw = Ok data.
Proof.
  unfold encrypt_message_to, mbind_, mlift. destruct (packets_for k _ _ w) as [[packets|e] w1] eqn:Ep; [|done].
  destruct (seal_block k data w1) as [[body|e] w2] eqn:Eb; [|done]. intros E Hu. injection E as E _.
  change (encrypt_block k data w1 = (Ok body, w2)) in Eb.
  change (armored (packets +:+ body) = Ok message) in E. apply armored_opens in E.
  destruct (packets_for_spec _ _ _ _ _ _ Ep) as (packets' & Heq & Hk & Hfirst).
  rewrite str_app_nil_l in Heq. subst packets'.
  destruct (Hfirst first eq_refl) as (p & rest & v1 & v2 & Heq & Hp).
  exists (packets +:+ body). split; [done|]. split.
  - unfold secret_recover_message_session_key, dearmored, parse_err. rewrite E. simpl.
    rewrite Heq, str_app_assoc. by eapply packet_opens.
  - by eapply block_opens.
Qed.

(** The passphrase of a new share gives its session key back to the node key,
    and opens under it to the passphrase that unlocks the share key: what sharing
    a node once sealed, inviting more people later recovers. *)
Theorem share_session_key_recovered (node_key address_key : PrivateKey Part) passphrase_key name_key
    (w w' : W) (m : StandardShareMaterial (PrivateKey Part) ContentKey) :
  build_standard_share_material node_key passphrase_key name_key address_key w = (Ok m, w') ->
  unlocked node_key ->
  secret_recover_message_session_key node_key (ss_share_passphrase m) = Ok (ss_share_session_key m) /\
  exists raw passphrase, dearmor (ss_share_passphrase m) = Ok raw /\
    content_decrypt_block (ss_share_session_key m) raw = Ok passphrase /\
    key_from_armored (ss_share_key_armored m) passphrase = Ok (ss_share_key m).
Proof.
  unfold build_standard_share_material. intros E Hu.
  apply mbind_ok_inv in E as (node & w1 & Eg & E).
  apply mbind_ok_inv in E as (session & w2 & Es & E).
  apply mbind_ok_inv in E as (share_passphrase & w3 & Ep & E).
  apply mbind_ok_inv in E as (sig & w4 & _ & E).
  apply mbind_ok_inv in E as (packet & w5 & _ & E).
  apply mbind_ok_inv in E as (packet' & w6 & _ & E).
  injection E as E _. subst m. cbn [ss_share_passphrase ss_share_session_key ss_share_key_armored ss_share_key].
  destruct (message_to_first_opens _ _ _ _ _ _ _ Ep Hu) as (raw & Hr & Hrec & Hopen).
  split; [done|]. exists raw, (gk_passphrase node). split; [done|]. split; [done|].
  unfold generate_node_key, generate_node_key_versioned in Eg.
  apply mbind_ok_inv in Eg as (pass & v1 & _ & Eg). apply mbind_ok_inv in Eg as (pw & v2 & _ & Eg).
  apply mbind_ok_inv in Eg as (locked & v3 & _ & Eg). apply mbind_ok_inv in Eg as (key & v4 & Ek & Eg).
  injection Eg as Eg _. subst node. injection Ek as Ek _. exact Ek.
Qed.
End Shares.
End Opens.

(** ** Thumbnails *)

Section Thumbnails.
Context {W Part PubPart Pkesk Seipd Sig : Type} `{PgpLaws W Part PubPart Pkesk Seipd}
        `{!PgpMessages W Part PubPart Sig} `{!PgpMessageLaws W Part PubPart Pkesk Seipd Sig}.

(** A thumbnail a content key sealed opens as a thumbnail to what was sealed;
    as a content block, whose payload is a lone literal, it is refused. *)
Theorem thumbnail_roundtrip k (signer : PrivateKey Part) plaintext (w w' : W) bytes :
  encrypt_thumbnail k signer plaintext w = (Ok bytes, w') ->
  content_decrypt_thumbnail k bytes = Ok plaintext /\
  exists tag, content_decrypt_block k bytes = Err (CParse ("block payload is not literal data: " +:+ tag)).
Proof.
  unfold encrypt_thumbnail, mbind_, on_pgp, encrypt_err.
  destruct (message_to_vec _ w) as [[inner|e] w1] eqn:Em; simpl; [|done]. intros E.
  assert (Hp := signed_message_parses _ _ _ _ Em eq_refl eq_refl).
  assert (Hd : decrypt_seipd k bytes = Ok inner).
  { rewrite <- (str_app_nil_l bytes). eapply decrypt_seipd_sealed; [exact E|constructor]. }
  unfold content_decrypt_thumbnail, content_decrypt_block. rewrite Hd. simpl. rewrite Hp. simpl. eauto.
Qed.
End Thumbnails.

(** ** Signatures for one purpose *)

(** The notations of a configuration, as its signature carries them. *)
Definition config_notations (cfg : SignatureConfig) : list (string * string) :=
  omap (fun sp => match sp_data sp with Notation_ n v => Some (n, v) | _ => None end) (sc_hashed cfg).

Class PgpSignatureLaws (W Part PubPart Pub Sig : Type) `{PgpMessages W Part PubPart Sig}
    `{SignatureOps (PrivateKey Part) Pub Sig} : Prop := {
  subpacket_kept c d sp : subpacket_new c d = Ok sp -> sp = {| sp_critical := c; sp_data := d |};
  signed_notations cfg part pw data (w w' : W) s :
    signature_sign cfg part pw data w = (Ok s, w') -> signature_notations s = config_notations cfg;
  signed_verifies cfg (k : PrivateKey Part) data (w w' : W) s :
    signature_sign cfg (primary_key (pk_key k)) (pk_passphrase k) data w = (Ok s, w') ->
    signature_verifies s (public_half k) data = true;
  signature_reads s b : signature_bytes s = Ok b -> signature_from_bytes b = Some s
}.

(** What a signature travels in: standard base64, which no armor looks like. *)
Class Base64Laws (Sig : Type) (encode : string -> string) `{PassphraseOps}
    (parse : string -> option Sig) : Prop := {
  base64_decodes b : base64_standard_decode (trim_end (trim_start (encode b))) = Ok b;
  base64_not_armored b : parse (encode b) = None
}.

Section Contexts.
Context {W Part PubPart Pkesk Seipd Pub Sig : Type} `{PgpOps W Part PubPart Pkesk Seipd}
        `{!PgpMessages W Part PubPart Sig} `{!SignatureOps (PrivateKey Part) Pub Sig} `{PassphraseOps}
        `{!PgpSignatureLaws W Part PubPart Pub Sig}
        (encode : string -> string) `{!Base64Laws Sig encode parse_signature}.

Lemma context_config_notations key now context cfg :
  stamped key now [context_notation context] = Ok cfg ->
  config_notations cfg = [(SIGNATURE_CONTEXT_NOTATION, context)].
Proof.
  unfold stamped, regular, critical, encrypt_err, mapM_result.
  destruct (subpacket_new false (IssuerFingerprint _)) eqn:E1; simpl; [|done].
  destruct (subpacket_new false (SignatureCreationTime _)) eqn:E2; simpl; [|done].
  destruct (subpacket_new true _) eqn:E3; simpl; [|done].
  apply subpacket_kept in E1 as ->. apply subpacket_kept in E2 as ->. apply subpacket_kept in E3 as ->.
  destruct (if part_version key <=? 4 then _ else _) as [u|e]; simpl; [|done]. by intros [= <-].
Qed.

(** A signature made in one context passes the check in that context for every
    ring its maker is in, and fails it in every other. *)
Theorem context_signature_one_purpose (signer : PrivateKey Part) data context (w w' : W) bytes ring c :
  secret_sign_with_context signer data context w = (Ok bytes, w') -> public_half signer ∈ ring ->
  verify_detached_with_context (encode bytes) data ring c
    = if String.eqb context c then VOk else Failed.
Proof.
  unfold secret_sign_with_context, sign_stamped. intros E Hin.
  apply mbind_ok_inv in E as (s & w1 & Es & E).
  apply mbind_ok_inv in Es as ([] & w2 & _ & Es). apply mbind_ok_inv in Es as (now & w3 & _ & Es).
  apply mbind_ok_inv in Es as (cfg & w4 & Ec & Es). injection Ec as Ec _.
  unfold on_pgp, encrypt_err in Es. destruct (signature_sign _ _ _ _ w4) as [[s'|e] w5] eqn:Esg; simpl in Es; [|done].
  injection Es as -> _. unfold mlift, encrypt_err in E.
  destruct (signature_bytes s) as [b|e] eqn:Eb; simpl in E; [|done]. injection E as -> _.
  apply signed_notations in Esg as Hn. apply signed_verifies in Esg as Hv.
  apply context_config_notations in Ec. apply signature_reads in Eb.
  unfold verify_detached_with_context. rewrite base64_not_armored, base64_decodes. simpl. rewrite Eb.
  destruct ring as [|k ring]; [by apply elem_of_nil in Hin|].
  unfold in_context. rewrite Hn, Ec. simpl. rewrite orb_false_r. destruct (String.eqb context c); simpl; [|done].
  apply verifies_any_ok. eauto.
Qed.
End Contexts.

(** ** A lawful instance *)

Module ToyPgp.
(** Every byte after a mark, and another mark at the end. *)
Fixpoint frame (s : string) : string :=
  match s with
  | EmptyString => "0"
  | String c s => String "1" (String c (frame s))
  end.

Fixpoint unframe (s : string) : option (string * string) :=
  match s with
  | String "1" (String c s) => '(a, rest) ← unframe s; Some (String c a, rest)
  | String "0" s => Some (EmptyString, s)
  | _ => None
  end.

Lemma unframe_frame a rest : unframe (frame a +:+ rest) = Some (a, rest).
Proof. induction a as [|c a IH]; [done|]. cbn [frame]. rewrite !str_app_cons. cbn [unframe]. by rewrite IH. Qed.

Lemma unframe_length s a rest : unframe s = Some (a, rest) -> (String.length rest < String.length s)%nat.
Proof.
  remember (String.length s) as n eqn:Hn. revert s a rest Hn.
  induction n as [n IH] using lt_wf_ind; intros s a rest -> E.
  destruct s as [|m s]; [done|]. destruct (ascii_dec m "0") as [->|H0]; [injection E as <- <-; simpl; lia|].
  destruct (ascii_dec m "1") as [->|H1].
  - destruct s as [|c s]; [done|]. cbn [unframe] in E. destruct (unframe s) as [[b r]|] eqn:Eu; [|done].
    injection E as <- <-. specialize (IH (String.length s) ltac:(simpl; lia) s b r eq_refl Eu). simpl; lia.
  - exfalso. destruct m as [[] [] [] [] [] [] [] []]; done.
Qed.

Record toy_pkesk := { tp_v6 : bool; tp_to : string; tp_key : string }.
Definition toy_seipd : Type := string * string.
Abbreviation toy_packet := (Packet toy_pkesk toy_seipd).

Definition payload (p : toy_packet) : result string string :=
  match p with
  | PublicKeyEncryptedSessionKey p =>
      Ok (String (if tp_v6 p then "6" else "3") (frame (tp_to p) +:+ tp_key p))
  | SymEncryptedProtectedData d => Ok (String "S" (frame d.1 +:+ d.2))
  | LiteralData d => Ok (String "L" d)
  | OnePassSignature => Ok "O"
  | Signature => Ok "G"
  | OtherPacket => Err "other"
  end.

Definition read_payload (s : string) : result toy_packet string :=
  match s with
  | String "3" s => match unframe s with
                    | Some (to, key) => Ok (PublicKeyEncryptedSessionKey {| tp_v6 := false; tp_to := to; tp_key := key |})
                    | None => Err "pkesk" end
  | String "6" s => match unframe s with
                    | Some (to, key) => Ok (PublicKeyEncryptedSessionKey {| tp_v6 := true; tp_to := to; tp_key := key |})
                    | None => Err "pkesk" end
  | String "S" s => match unframe s with
                    | Some d => Ok (SymEncryptedProtectedData d)
                    | None => Err "seipd" end
  | String "L" d => Ok (LiteralData d)
  | String "O" EmptyString => Ok OnePassSignature
  | String "G" EmptyString => Ok Signature
  | _ => Err "packet"
  end.

Lemma read_payload_of p s : payload p = Ok s -> read_payload s = Ok p.
Proof.
  destruct p as [[[] to key]|[k d]|d| | |]; simpl; try done; intros [= <-]; simpl; try done;
    by rewrite unframe_frame.
Qed.

Fixpoint parse (fuel : nat) (s : string) : list (result toy_packet string) :=
  match fuel with
  | O => []
  | S fuel => match unframe s with
              | Some (p, rest) => read_payload p :: parse fuel rest
              | None => []
              end
  end.

Lemma parse_fuel n m s : (String.length s < n)%nat -> (String.length s < m)%nat -> parse n s = parse m s.
Proof.
  revert m s. induction n as [|n IH]; intros m s Hn Hm; [lia|]. destruct m as [|m]; [lia|]. simpl.
  destruct (unframe s) as [[p rest]|] eqn:E; [|done]. apply unframe_length in E. f_equal. apply IH; lia.
Qed.

Definition packets (s : string) := parse (S (String.length s)) s.

Lemma packets_cons p rest : packets (frame p +:+ rest) = read_payload p :: packets rest.
Proof.
  unfold packets at 1. cbn [parse]. rewrite unframe_frame. f_equal. apply parse_fuel; [|lia].
  pose proof (unframe_length _ _ _ (unframe_frame p rest)). lia.
Qed.

(** A part is its name; one beginning with [e] encrypts. *)
Definition encrypts (part : string) : bool := String.prefix "e" part.

#[local] Instance toy_pgp : PgpOps nat string string toy_pkesk toy_seipd := {
  PacketParser_new := packets;
  packet_tag _ := "tag";
  to_writer_with_header p := result_map frame (payload p);
  literal_from_bytes d := Ok (LiteralData d);
  new_session_key _ n := (pretty n, S n);
  encrypt_seipdv1 _ key inner := mret (key, inner);
  encrypt_seipdv2 _ _ _ key inner := mret (key, inner);
  seipd_decrypt d key _ := if String.eqb d.1 key then Ok d.2 else Err "wrong key";
  skesk_encrypt_v4 password key _ := mret (frame password +:+ key);
  skesk_serialize := Ok;
  public_part part := part;
  can_encrypt := encrypts;
  remove_password part _ := Ok part;
  legacy_key_id part := part;
  fingerprint part := part;
  from_session_key_v3 key sym to := fun n =>
    (match sym, encrypts to with
     | AES256, true => Ok {| tp_v6 := false; tp_to := to; tp_key := key |}
     | _, _ => Err "cannot encrypt"
     end, n);
  from_session_key_v6 key to := fun n =>
    (if encrypts to then Ok {| tp_v6 := true; tp_to := to; tp_key := key |} else Err "cannot encrypt", n);
  pkesk_values p := Ok (frame (tp_to p) +:+ tp_key p);
  pkesk_version p := if tp_v6 p then Pkesk_V6 else Pkesk_V3;
  pkesk_fingerprint p := Ok (Some (tp_to p));
  pkesk_id p := Ok (Some (tp_to p));
  part_decrypt part _ values t :=
    match unframe values with
    | Some (to, key) => if encrypts part && String.eqb to part
                        then Ok match t with Esk_V6 => SK_V6 key | Esk_V3_4 => SK_V3_4 AES256 key end
                        else Err "not for this key"
    | None => Err "values"
    end;
  armor_write m := Ok (String "-" m);
  dearmor s := match s with String "-" m => Ok m | _ => Err "armor" end;
  from_utf8 := Ok;
  secret_key_from_string s := Ok {| primary_key := s; subkeys := ["e" +:+ s] |}
}.

#[local] Instance toy_pgp_laws : PgpLaws nat string string toy_pkesk toy_seipd.
Proof.
  unshelve econstructor; [exact (fun _ _ => True)|..].
  - intros p bytes rest E. simpl in E. destruct (payload p) as [s|] eqn:Ep; simpl in E; [|done].
    injection E as <-. cbn [PacketParser_new toy_pgp]. rewrite packets_cons. f_equal. by apply read_payload_of.
  - by intros d p [= <-].
  - intros sym key inner w w' d [= <- _]. simpl. by rewrite String.eqb_refl.
  - intros sym aead chunk key inner w w' d [= <- _]. simpl. by rewrite String.eqb_refl.
  - intros key sym part pw w w' p E _. simpl in E. destruct sym, (encrypts part) eqn:Ee; try discriminate E.
    injection E as <- _. split; [done|]. eexists. split; [done|]. simpl.
    by rewrite unframe_frame, Ee, String.eqb_refl.
  - intros key part pw w w' p E _. simpl in E. destruct (encrypts part) eqn:Ee; try discriminate E.
    injection E as <- _. split; [done|]. eexists. split; [done|]. simpl.
    by rewrite unframe_frame, Ee, String.eqb_refl.
  - intros part pw v t E. simpl in *. destruct (unframe v) as [[to key]|]; [|done]. by rewrite E.
  - by intros m out [= <-].
  - by intros s s' [= <-].
Defined.

Definition toy_key (name : string) : PrivateKey string :=
  {| pk_key := {| primary_key := name; subkeys := ["s"; "e" +:+ name] |}; pk_passphrase := "pw" |}.

Lemma toy_unlocked name : unlocked (toy_key name).
Proof. by repeat constructor. Qed.

(** *** Messages and signatures *)

Record toy_sig := { ts_signer : string; ts_data : string; ts_notations : list (string * string) }.

#[local] Instance toy_messages : PgpMessages nat string string toy_sig := {
  message_to_vec cfg := mret (frame "O" +:+ frame (String "L" (mc_data cfg)) +:+ frame "G");
  message_encrypted_to cfg to := mret (frame to +:+ mc_data cfg);
  timestamp_now n := (Z.of_nat n, n);
  part_version _ := 4;
  config_from_key _ := mret tt;
  subpacket_new c d := Ok {| sp_critical := c; sp_data := d |};
  signature_sign cfg part _ data :=
    mret {| ts_signer := part; ts_data := data; ts_notations := config_notations cfg |};
  signature_armored s := Ok (ts_signer s);
  signature_bytes s :=
    match ts_notations s with
    | [(n, v)] => Ok (frame (ts_signer s) +:+ frame (ts_data s) +:+ frame n +:+ frame v)
    | _ => Err "notations"
    end
}.

#[local] Instance toy_message_laws : PgpMessageLaws nat string string toy_pkesk toy_seipd toy_sig.
Proof.
  split. intros cfg w w' inner E _ _.
  assert (inner = frame "O" +:+ frame (String "L" (mc_data cfg)) +:+ frame "G" +:+ EmptyString) as ->
    by (injection E as <- _; by rewrite str_app_nil_r).
  change (packets (frame "O" +:+ frame (String "L" (mc_data cfg)) +:+ frame "G" +:+ EmptyString)
    = [Ok OnePassSignature; Ok (LiteralData (mc_data cfg)); Ok Signature]).
  by rewrite !packets_cons.
Qed.

#[local] Instance toy_signatures : SignatureOps (PrivateKey string) string toy_sig := {
  public_half k := primary_key (pk_key k);
  parse_signature _ := None;
  signature_from_bytes b :=
    '(signer, b) ← unframe b; '(data, b) ← unframe b; '(n, b) ← unframe b; '(v, _) ← unframe b;
    Some {| ts_signer := signer; ts_data := data; ts_notations := [(n, v)] |};
  signature_notations := ts_notations;
  signature_verifies s k data := String.eqb (ts_signer s) k && String.eqb (ts_data s) data
}.

#[local] Instance toy_signature_laws : PgpSignatureLaws nat string string string toy_sig.
Proof.
  split.
  - by intros c d sp [= <-].
  - by intros cfg part pw data w w' s [= <- _].
  - intros cfg k data w w' s [= <- _]. simpl. by rewrite !String.eqb_refl.
  - intros [signer data notations] b E. simpl in E. destruct notations as [|[n v] [|]]; try discriminate E.
    injection E as <-. simpl. rewrite unframe_frame. simpl. rewrite unframe_frame. simpl.
    rewrite unframe_frame. simpl. rewrite <- (str_app_nil_r (frame v)), unframe_frame. done.
Qed.

#[local] Instance toy_base64 : PassphraseOps := {
  bcrypt_hash _ _ _ := Err "bcrypt";
  base64_standard_decode s := match unframe s with Some (b, _) => Ok b | None => Err "base64" end
}.

Lemma trim_end_framed s : trim_end (frame s) = frame s.
Proof. induction s as [|c s IH]; [done|]. cbn [frame trim_end]. rewrite IH. by destruct s. Qed.

#[local] Instance toy_base64_laws : Base64Laws toy_sig frame parse_signature.
Proof.
  split; [|done]. intros b. simpl. replace (trim_start (frame b)) with (frame b) by by destruct b.
  rewrite trim_end_framed. by rewrite <- (str_app_nil_r (frame b)), unframe_frame.
Qed.

Lemma content_block_roundtrip_witness :
  exists bytes packet, encrypt_block (SK_V6 "k") "hello" 0%nat = (Ok bytes, 0%nat) /\
    content_to_packet (SK_V6 "k") (toy_key "n") 0%nat = (Ok packet, 0%nat) /\
    content_decrypt_block (SK_V6 "k") bytes = Ok "hello" /\
    content_decrypt_block (SK_V6 "k") (packet +:+ bytes) = Ok "hello".
Proof.
  eexists _, _. split; [reflexivity|]. split; [reflexivity|].
  rewrite <- (str_app_nil_r (frame (String "6" _))).
  eapply (content_block_roundtrip _ _ 0%nat 0%nat).
  - reflexivity.
  - apply (key_packets_cons {| tp_v6 := true; tp_to := "en"; tp_key := "k" |}); [reflexivity|constructor].
Defined.

Lemma thumbnail_roundtrip_witness :
  exists bytes, encrypt_thumbnail (SK_V3_4 AES256 "k") (toy_key "n") "pixels" 0%nat = (Ok bytes, 0%nat) /\
    content_decrypt_thumbnail (SK_V3_4 AES256 "k") bytes = Ok "pixels".
Proof.
  eexists. split; [reflexivity|]. eapply (thumbnail_roundtrip _ (toy_key "n") _ 0%nat 0%nat). reflexivity.
Defined.

Lemma content_key_travels_witness :
  exists packet, content_to_packet (SK_V6 "k") (toy_key "n") 0%nat = (Ok packet, 0%nat) /\
    secret_decrypt_content_key (toy_key "n") (packet +:+ "rest") = Ok (SK_V6 "k").
Proof.
  eexists. split; [reflexivity|].
  eapply (content_key_travels (SK_V6 "k") (toy_key "n") 0%nat 0%nat); [reflexivity|apply toy_unlocked].
Defined.

Definition toy_message (k : PrivateKey string) (data : string) : string :=
  match content_to_packet (SK_V3_4 AES256 "k") k 0%nat, encrypt_block (SK_V3_4 AES256 "k") data 0%nat with
  | (Ok packet, _), (Ok block, _) => String "-" (packet +:+ block)
  | _, _ => EmptyString
  end.

Lemma rewrap_keeps_session_and_body_witness :
  exists message', secret_rewrap_message_to (toy_key "a") (toy_message (toy_key "a") "secret") (toy_key "b") 0%nat
      = (Ok message', 0%nat) /\
    secret_recover_message_session_key (toy_key "b") message' = Ok (SK_V3_4 AES256 "k").
Proof.
  eexists. split; [vm_compute; reflexivity|].
  edestruct (rewrap_keeps_session_and_body (toy_key "a") (toy_key "b") (toy_message (toy_key "a") "secret")
    0%nat 0%nat) as (raw & raw' & session & body & _ & _ & Hs & Hs' & _); [vm_compute; reflexivity|apply toy_unlocked|].
  rewrite Hs'. vm_compute in Hs. injection Hs as <-. reflexivity.
Defined.

#[local] Instance toy_share_keys : KeyOps (PrivateKey string) := {
  decrypt_armored_message _ _ := Err (CDecrypt "unused");
  key_from_armored locked pass := Ok {| pk_key := {| primary_key := locked; subkeys := ["e" +:+ locked] |};
                                        pk_passphrase := pass |};
  utf8_text := Ok
}.

#[local] Instance toy_share_seal : SealOps nat (PrivateKey string) := {
  fill_bytes n w := (pretty w, S w);
  base64_standard_encode := frame;
  generate_locked_key _ pw := mret ("locked" +:+ pw);
  key_encrypt _ m := mret m;
  key_encrypt_and_sign _ _ m _ _ := mret m;
  key_sign_detached k m := mret (frame (primary_key (pk_key k)) +:+ m);
  sign_detached_binary_with_context := secret_sign_with_context
}.

Lemma share_session_key_recovered_witness :
  exists m w', build_standard_share_material (CKey := ContentKey) (H2 := pgp_session_keys) (toy_key "node")
      (SK_V3_4 AES256 "p") (SK_V3_4 AES256 "n") (toy_key "address") 0%nat = (Ok m, w') /\
    secret_recover_message_session_key (toy_key "node") (ss_share_passphrase m) = Ok (ss_share_session_key m).
Proof.
  eexists _, _. split; [vm_compute; reflexivity|].
  eapply (share_session_key_recovered (toy_key "node") (toy_key "address")
    (SK_V3_4 AES256 "p") (SK_V3_4 AES256 "n") 0%nat); [vm_compute; reflexivity|apply toy_unlocked].
Defined.

Lemma context_signature_one_purpose_witness :
  exists bytes, secret_sign_with_context (toy_key "a") "data" "drive.share-member.member" 0%nat
      = (Ok bytes, 0%nat) /\
    verify_detached_with_context (frame bytes) "data" ["a"; "b"] "drive.share-member.member" = VOk /\
    verify_detached_with_context (frame bytes) "data" ["a"; "b"] "drive.share-member.inviter" = Failed.
Proof.
  eexists. split; [vm_compute; reflexivity|]. split.
  - eapply (context_signature_one_purpose frame (toy_key "a") "data" "drive.share-member.member" 0%nat 0%nat);
      [vm_compute; reflexivity|constructor].
  - eapply (context_signature_one_purpose frame (toy_key "a") "data" "drive.share-member.member" 0%nat 0%nat);
      [vm_compute; reflexivity|constructor].
Defined.
End ToyPgp.
