(* ===== verification/Account.v ===== *)
(** * The account client

    From [crates/proton-sdk/src/account.rs] and [account/]: the user keys, the
    addresses and their keys, unlocked from the mailbox password (or from
    passphrases derived before) and cached for the life of the client; the report
    on keys that do not open; and the secret derived from the passphrases.

    The four listings of the server are the interface [AccountApi]; PGP, bcrypt
    and base64 are [Keys]' interfaces.  A call runs on the client's cache and
    the world of the requests; the log output is left out. *)

From S2P Require Import Prelude Errors Config Keys.

(** ** Wire records ([dtos.rs]) *)

Record UserKeyDto := {
  uk_id : string;
  uk_private_key : string;
  uk_primary : Z;
  uk_active : Z
}.

Definition UserKeyDto_is_active (k : UserKeyDto) : bool := negb (uk_active k =? 0).

Record UserDto := {
  us_id : string;
  us_max_space : Z;
  us_used_space : Z;
  us_keys : list UserKeyDto
}.

Record AddressKeyDto := {
  ak_id : string;
  ak_private_key : string;
  ak_token : option string;
  ak_signature : option string;
  ak_primary : Z;
  ak_active : Z
}.

Definition AddressKeyDto_is_active (k : AddressKeyDto) : bool := negb (ak_active k =? 0).
Definition AddressKeyDto_is_primary (k : AddressKeyDto) : bool := negb (ak_primary k =? 0).

Record AddressDto := {
  dt_id : AddressId;
  dt_email : string;
  dt_status : Z;
  dt_order : Z;
  dt_keys : list AddressKeyDto
}.

Record KeySalt := { st_key_id : string; st_value : option string }.

Record PublicKeyEntry := { pe_flags : Z; pe_public_key : string }.

Definition is_not_compromised (entry : PublicKeyEntry) : bool :=
  negb (Z.land (pe_flags entry) 1 =? 0).

(** ** Passphrases ([passphrases.rs]) *)

Definition KeyPassphrases : Type := gmap string string.

Definition KeyPassphrases_new : KeyPassphrases := ∅.

Definition KeyPassphrases_insert (key_id passphrase : string) (p : KeyPassphrases) : KeyPassphrases :=
  <[key_id := passphrase]> p.

Definition KeyPassphrases_get (key_id : string) (p : KeyPassphrases) : option string := p !! key_id.

Definition KeyPassphrases_from_iter (l : list (string * string)) : KeyPassphrases :=
  foldl (fun p e => KeyPassphrases_insert e.1 e.2 p) KeyPassphrases_new l.

(** [PartialEq]: the same size, and every entry of one in the other. *)
Definition KeyPassphrases_eq (p q : KeyPassphrases) : bool :=
  Nat.eqb (size p) (size q) &&
  forallb (fun e => match q !! e.1 with Some v => String.eqb e.2 v | None => false end)
    (map_to_list p).

(** [u64::to_be_bytes] of a length *)
Definition byte_of (z : Z) : ascii := ascii_of_N (Z.to_N (z mod 256)).

Fixpoint be_bytes (n : nat) (z : Z) (rest : string) : string :=
  match n with
  | O => rest
  | Datatypes.S n => be_bytes n (z / 256) (String (byte_of z) rest)
  end.

Definition length_prefix (s : string) : string :=
  be_bytes 8 (wrap_u64 (Z.of_nat (String.length s))) s.

(** One entry of the key material: both halves behind their length. *)
Definition entry_material (e : string * string) : string :=
  length_prefix e.1 +:+ length_prefix e.2.

Definition id_le (a b : string * string) : Prop := String.le a.1 b.1.

#[global] Instance id_le_dec : RelDecision id_le.
Proof. intros a b. unfold id_le. apply _. Defined.

(** The material of [derive_secret], for the entries in whatever order the map
    gives them. *)
Definition secret_material (entries : list (string * string)) : string :=
  foldr (fun e rest => entry_material e +:+ rest) EmptyString (merge_sort id_le entries).

(** [derive_secret]; [hkdf salt material info] is [Hkdf::<Sha256>]'s 32 bytes. *)
Definition derive_secret (hkdf : string -> string -> string -> string) (purpose : string)
    (p : KeyPassphrases) : string :=
  hkdf "proton-sdk.KeyPassphrases.derive_secret" (secret_material (map_to_list p)) purpose.

(** ** The public view *)

Record Address := {
  ad_id : AddressId;
  ad_email : string;
  ad_order : Z;
  ad_status : Z;
  ad_primary_key_index : nat;
  ad_primary_key_id : string
}.

Record Quota := { qu_max_space : Z; qu_used_space : Z }.

(** The subtraction wraps as a release build's does. *)
Definition available (q : Quota) : Z := Z.max 0 (wrap_i64 (qu_max_space q - qu_used_space q)).

(** ** The client *)

Record Cache (Key PubKey : Type) := {
  ca_key_salts : option (list KeySalt);
  ca_key_passphrases : option KeyPassphrases;
  ca_user_keys : option (list Key);
  ca_token_keys : option (list Key);
  ca_addresses : option (list Address);
  ca_address_keys : gmap AddressId (list Key);
  ca_failed_addresses : gmap AddressId string;
  ca_default_failed : option string;
  ca_public_keys : gmap string (list PubKey)
}.
Arguments ca_key_salts {Key PubKey}. Arguments ca_key_passphrases {Key PubKey}.
Arguments ca_user_keys {Key PubKey}. Arguments ca_token_keys {Key PubKey}.
Arguments ca_addresses {Key PubKey}. Arguments ca_address_keys {Key PubKey}.
Arguments ca_failed_addresses {Key PubKey}. Arguments ca_default_failed {Key PubKey}.
Arguments ca_public_keys {Key PubKey}.

Definition Cache_default {Key PubKey} : Cache Key PubKey := {|
  ca_key_salts := None; ca_key_passphrases := None; ca_user_keys := None;
  ca_token_keys := None; ca_addresses := None; ca_address_keys := ∅;
  ca_failed_addresses := ∅; ca_default_failed := None; ca_public_keys := ∅ |}.

Section CacheUpdates.
Context {Key PubKey : Type}.
Implicit Types (c : Cache Key PubKey).

Definition cache_key_salts (v : list KeySalt) c : Cache Key PubKey := {|
  ca_key_salts := Some v; ca_key_passphrases := ca_key_passphrases c;
  ca_user_keys := ca_user_keys c; ca_token_keys := ca_token_keys c;
  ca_addresses := ca_addresses c; ca_address_keys := ca_address_keys c;
  ca_failed_addresses := ca_failed_addresses c; ca_default_failed := ca_default_failed c;
  ca_public_keys := ca_public_keys c |}.

Definition cache_key_passphrases (v : KeyPassphrases) c : Cache Key PubKey := {|
  ca_key_salts := ca_key_salts c; ca_key_passphrases := Some v;
  ca_user_keys := ca_user_keys c; ca_token_keys := ca_token_keys c;
  ca_addresses := ca_addresses c; ca_address_keys := ca_address_keys c;
  ca_failed_addresses := ca_failed_addresses c; ca_default_failed := ca_default_failed c;
  ca_public_keys := ca_public_keys c |}.

Definition cache_user_keys (token_keys user_keys : list Key) c : Cache Key PubKey := {|
  ca_key_salts := ca_key_salts c; ca_key_passphrases := ca_key_passphrases c;
  ca_user_keys := Some user_keys; ca_token_keys := Some token_keys;
  ca_addresses := ca_addresses c; ca_address_keys := ca_address_keys c;
  ca_failed_addresses := ca_failed_addresses c; ca_default_failed := ca_default_failed c;
  ca_public_keys := ca_public_keys c |}.

Definition cache_address_keys (id : AddressId) (keys : list Key) c : Cache Key PubKey := {|
  ca_key_salts := ca_key_salts c; ca_key_passphrases := ca_key_passphrases c;
  ca_user_keys := ca_user_keys c; ca_token_keys := ca_token_keys c;
  ca_addresses := ca_addresses c; ca_address_keys := <[id := keys]> (ca_address_keys c);
  ca_failed_addresses := ca_failed_addresses c; ca_default_failed := ca_default_failed c;
  ca_public_keys := ca_public_keys c |}.

Definition cache_addresses (failed : gmap AddressId string) (default_failed : option string)
    (addresses : list Address) c : Cache Key PubKey := {|
  ca_key_salts := ca_key_salts c; ca_key_passphrases := ca_key_passphrases c;
  ca_user_keys := ca_user_keys c; ca_token_keys := ca_token_keys c;
  ca_addresses := Some addresses; ca_address_keys := ca_address_keys c;
  ca_failed_addresses := failed; ca_default_failed := default_failed;
  ca_public_keys := ca_public_keys c |}.

Definition cache_public_keys (email : string) (keys : list PubKey) c : Cache Key PubKey := {|
  ca_key_salts := ca_key_salts c; ca_key_passphrases := ca_key_passphrases c;
  ca_user_keys := ca_user_keys c; ca_token_keys := ca_token_keys c;
  ca_addresses := ca_addresses c; ca_address_keys := ca_address_keys c;
  ca_failed_addresses := ca_failed_addresses c; ca_default_failed := ca_default_failed c;
  ca_public_keys := <[email := keys]> (ca_public_keys c) |}.
End CacheUpdates.

(** [http.get] of the four listings, by path. *)
Class AccountApi (W : Type) := {
  get_key_salts : string -> M W (list KeySalt) ProtonError;
  get_user : string -> M W UserDto ProtonError;
  get_addresses : string -> M W (list AddressDto) ProtonError;
  get_public_key_list : string -> M W (list PublicKeyEntry) ProtonError
}.

(** [PublicKey::from_armored], and what the report reads of armored data. *)
Class ArmoredOps (PubKey : Type) := {
  public_key_from_armored : string -> result PubKey CryptoError;
  key_ids : string -> result (list string) CryptoError;
  recipients : string -> result (list (option string)) CryptoError
}.

(** [encode_query_component] *)
Fixpoint encode_query_component (value : string) : string :=
  match value with
  | EmptyString => EmptyString
  | String byte rest =>
      (if is_unreserved byte then String byte EmptyString else percent_byte byte)
      +:+ encode_query_component rest
  end.

(** [decode_base64] *)
Definition decode_base64 `{PassphraseOps} (value : string) : Res string :=
  map_err (fun e => invalid_operation ("invalid base64 salt: " +:+ e)) (base64_standard_decode value).

(** The loop of [key_passphrases] over the salts. *)
Fixpoint passphrases_of_salts `{PassphraseOps} (password : string) (salts : list KeySalt)
    (passphrases : KeyPassphrases) : Res KeyPassphrases :=
  match salts with
  | [] => Ok passphrases
  | salt :: salts =>
      match st_value salt with
      | None => passphrases_of_salts password salts passphrases
      | Some salt_b64 =>
          if Str.is_empty salt_b64 then passphrases_of_salts password salts passphrases
          else
            let? salt_bytes := decode_base64 salt_b64 in
            let? passphrase := map_err Crypto (derive_key_passphrase password salt_bytes) in
            passphrases_of_salts password salts
              (KeyPassphrases_insert (st_key_id salt) passphrase passphrases)
      end
  end.

(** The loop of [user_keys]: what opens, the active keys and the inactive ones. *)
Fixpoint unlock_user_keys {Key} `{KeyOps Key} (passphrases : KeyPassphrases)
    (dtos : list UserKeyDto) (keys inactive : list Key) : list Key * list Key :=
  match dtos with
  | [] => (keys, inactive)
  | key_dto :: dtos =>
      match KeyPassphrases_get (uk_id key_dto) passphrases with
      | None => unlock_user_keys passphrases dtos keys inactive
      | Some passphrase =>
          match key_from_armored (uk_private_key key_dto) passphrase with
          | Ok key =>
              if UserKeyDto_is_active key_dto
              then unlock_user_keys passphrases dtos (keys ++ [key]) inactive
              else unlock_user_keys passphrases dtos keys (inactive ++ [key])
          | Err _ => unlock_user_keys passphrases dtos keys inactive
          end
      end
  end.

(** How an address key's passphrase is found: by its token, or with the password.
    The reason of a failure is the report's; [decrypt_address] only logs one. *)
Definition address_key_passphrase {Key} `{KeyOps Key} (user_keys : list Key)
    (passphrases : KeyPassphrases) (key_dto : AddressKeyDto) : result string string :=
  match ak_token key_dto, ak_signature key_dto with
  | Some token, Some _ =>
      map_err (fun e => "token: " +:+ CryptoError_display e) (decrypt_armored_with_keys token user_keys)
  | _, _ => ok_or (KeyPassphrases_get (ak_id key_dto) passphrases) "no passphrase for this key"
  end.

(** The loop of [decrypt_address]: the keys that open, and the primary one. *)
Fixpoint decrypt_address_keys {Key} `{KeyOps Key} (user_keys : list Key)
    (passphrases : KeyPassphrases) (dtos : list AddressKeyDto) (keys : list Key)
    (primary : option (nat * string)) : list Key * option (nat * string) :=
  match dtos with
  | [] => (keys, primary)
  | key_dto :: dtos =>
      if negb (AddressKeyDto_is_active key_dto)
      then decrypt_address_keys user_keys passphrases dtos keys primary
      else
        match address_key_passphrase user_keys passphrases key_dto with
        | Err _ => decrypt_address_keys user_keys passphrases dtos keys primary
        | Ok passphrase =>
            match key_from_armored (ak_private_key key_dto) passphrase with
            | Ok key =>
                let primary :=
                  if AddressKeyDto_is_primary key_dto
                     && negb (bool_decide (is_Some primary))
                  then Some (length keys, ak_id key_dto) else primary in
                decrypt_address_keys user_keys passphrases dtos (keys ++ [key]) primary
            | Err _ => decrypt_address_keys user_keys passphrases dtos keys primary
            end
        end
  end.

Definition no_primary_key (id : AddressId) : string := "address " +:+ id +:+ " has no primary key".

(** [decrypt_address] once the keys it needs are at hand. *)
Definition open_address {Key} `{KeyOps Key} (user_keys : list Key) (passphrases : KeyPassphrases)
    (dto : AddressDto) : Res (Address * list Key) :=
  let '(keys, primary) := decrypt_address_keys user_keys passphrases (dt_keys dto) [] None in
  let? (primary_key_index, primary_key_id) :=
    ok_or primary (invalid_operation (no_primary_key (dt_id dto))) in
  Ok ({| ad_id := dt_id dto; ad_email := dt_email dto; ad_order := dt_order dto;
         ad_status := dt_status dto; ad_primary_key_index := primary_key_index;
         ad_primary_key_id := primary_key_id |}, keys).

(** ** Reports ([report.rs]) *)

Record UserKeyReport := {
  ur_id : string;
  ur_primary : bool;
  ur_active : bool;
  ur_unlocks : bool;
  ur_error : option string;
  ur_key_ids : list string
}.

Record AddressKeyReport := {
  ar_key_id : string;
  ar_primary : bool;
  ar_active : bool;
  ar_token_recipients : option (list (option string));
  ar_unlocks : bool;
  ar_error : option string;
  ar_key_ids : list string
}.

Record AddressReport := {
  rp_id : AddressId;
  rp_email : string;
  rp_keys : list AddressKeyReport
}.

Record KeyReport := { kr_user_keys : list UserKeyReport; kr_addresses : list AddressReport }.

Definition names (recipient : string) (ids : list string) : bool :=
  existsb (fun id => String.eqb id recipient) ids.

Definition user_key_named (recipient : string) (r : KeyReport) : option UserKeyReport :=
  List.find (fun key => names recipient (ur_key_ids key)) (kr_user_keys r).

Fixpoint address_key_named_in (recipient : string) (addresses : list AddressReport)
  : option (AddressReport * AddressKeyReport) :=
  match addresses with
  | [] => None
  | address :: addresses =>
      match List.find (fun key => names recipient (ar_key_ids key)) (rp_keys address) with
      | Some key => Some (address, key)
      | None => address_key_named_in recipient addresses
      end
  end.

Definition address_key_named (recipient : string) (r : KeyReport)
  : option (AddressReport * AddressKeyReport) :=
  address_key_named_in recipient (kr_addresses r).

Section Reports.
Context {Key PubKey : Type} `{KeyOps Key} `{ArmoredOps PubKey}.

Definition err {A E} (r : result A E) : option E :=
  match r with Ok _ => None | Err e => Some e end.

Definition unwrap_or_default {A E} (r : result (list A) E) : list A :=
  match r with Ok l => l | Err _ => [] end.

(** Whether a user key opens, or why not. *)
Definition try_user_key (passphrases : KeyPassphrases) (dto : UserKeyDto) : result Key string :=
  match KeyPassphrases_get (uk_id dto) passphrases with
  | Some passphrase => map_err CryptoError_display (key_from_armored (uk_private_key dto) passphrase)
  | None => Err "no passphrase for this key"
  end.

Definition report_user_key (passphrases : KeyPassphrases) (dto : UserKeyDto) : UserKeyReport :=
  let unlocked := try_user_key passphrases dto in
  {| ur_id := uk_id dto; ur_primary := negb (uk_primary dto =? 0);
     ur_active := UserKeyDto_is_active dto; ur_unlocks := is_ok unlocked; ur_error := err unlocked;
     ur_key_ids := unwrap_or_default (key_ids (uk_private_key dto)) |}.

(** The loop of [key_report] over the user keys: the reports, and the keys that
    open, active and inactive. *)
Fixpoint report_user_keys (passphrases : KeyPassphrases) (dtos : list UserKeyDto)
    (reports : list UserKeyReport) (active_unlocked inactive_unlocked : list Key)
  : list UserKeyReport * list Key * list Key :=
  match dtos with
  | [] => (reports, active_unlocked, inactive_unlocked)
  | dto :: dtos =>
      let reports := reports ++ [report_user_key passphrases dto] in
      match try_user_key passphrases dto with
      | Ok key =>
          if UserKeyDto_is_active dto
          then report_user_keys passphrases dtos reports (active_unlocked ++ [key]) inactive_unlocked
          else report_user_keys passphrases dtos reports active_unlocked (inactive_unlocked ++ [key])
      | Err _ => report_user_keys passphrases dtos reports active_unlocked inactive_unlocked
      end
  end.

Definition report_address_key (token_keys : list Key) (passphrases : KeyPassphrases)
    (key_dto : AddressKeyDto) : AddressKeyReport :=
  let unlocked :=
    let? passphrase := address_key_passphrase token_keys passphrases key_dto in
    map_err CryptoError_display (key_from_armored (ak_private_key key_dto) passphrase) in
  {| ar_key_id := ak_id key_dto; ar_primary := AddressKeyDto_is_primary key_dto;
     ar_active := AddressKeyDto_is_active key_dto;
     ar_token_recipients := (fun token => unwrap_or_default (recipients token)) <$> ak_token key_dto;
     ar_unlocks := is_ok unlocked; ar_error := err unlocked;
     ar_key_ids := unwrap_or_default (key_ids (ak_private_key key_dto)) |}.

Definition report_address (token_keys : list Key) (passphrases : KeyPassphrases) (dto : AddressDto)
  : AddressReport :=
  {| rp_id := dt_id dto; rp_email := dt_email dto;
     rp_keys := map (report_address_key token_keys passphrases) (dt_keys dto) |}.
End Reports.

(** ** Operations *)

Section Client.
Context {W Key PubKey : Type} `{KeyOps Key} `{PassphraseOps} `{AccountApi W} `{ArmoredOps PubKey}.

(** [Inner]: the requests' world, the mailbox password and the cache. *)
Record AccountClient := {
  ac_http : W;
  ac_mailbox_password : string;
  ac_cache : Cache Key PubKey
}.

Definition AccountClient_new (http : W) (mailbox_password : string) : AccountClient :=
  {| ac_http := http; ac_mailbox_password := mailbox_password; ac_cache := Cache_default |}.

Definition with_key_salts (http : W) (mailbox_password : string) (salts : list KeySalt)
  : AccountClient :=
  {| ac_http := http; ac_mailbox_password := mailbox_password;
     ac_cache := cache_key_salts salts Cache_default |}.

Definition with_key_passphrases (http : W) (passphrases : KeyPassphrases) : AccountClient :=
  {| ac_http := http; ac_mailbox_password := EmptyString;
     ac_cache := cache_key_passphrases passphrases Cache_default |}.

Definition Call (A : Type) : Type := M AccountClient A ProtonError.

Definition cache : Call (Cache Key PubKey) := fun c => (Ok (ac_cache c), c).

Definition update_cache (f : Cache Key PubKey -> Cache Key PubKey) : Call unit :=
  mmodify (fun c => {| ac_http := ac_http c; ac_mailbox_password := ac_mailbox_password c;
                       ac_cache := f (ac_cache c) |}).

Definition request {A} (m : M W A ProtonError) : Call A := fun c =>
  let (r, w) := m (ac_http c) in
  (r, {| ac_http := w; ac_mailbox_password := ac_mailbox_password c; ac_cache := ac_cache c |}).

Definition mailbox_password : Call string := fun c => (Ok (ac_mailbox_password c), c).

Definition key_salts : Call (list KeySalt) :=
  let* c := cache in
  match ca_key_salts c with
  | Some salts => mret salts
  | None =>
      let* salts := request (get_key_salts "core/v4/keys/salts") in
      let* _ := update_cache (cache_key_salts salts) in
      mret salts
  end.

Definition key_passphrases : Call KeyPassphrases :=
  let* c := cache in
  match ca_key_passphrases c with
  | Some passphrases => mret passphrases
  | None =>
      let* salts := key_salts in
      let* password := mailbox_password in
      let* passphrases := mlift (passphrases_of_salts password salts KeyPassphrases_new) in
      let* _ := update_cache (cache_key_passphrases passphrases) in
      mret passphrases
  end.

Definition user_keys : Call (list Key) :=
  let* c := cache in
  match ca_user_keys c with
  | Some keys => mret keys
  | None =>
      let* passphrases := key_passphrases in
      let* user := request (get_user "core/v4/users") in
      let '(keys, inactive) := unlock_user_keys passphrases (us_keys user) [] [] in
      if Nat.eqb (length keys) 0
      then mfail (if existsb UserKeyDto_is_active (us_keys user) then KeysLocked
                  else invalid_operation "the account has no active user key")
      else
        let* _ := update_cache (cache_user_keys (keys ++ inactive) keys) in
        mret keys
  end.

Definition token_keys : Call (list Key) :=
  let* _ := user_keys in
  let* c := cache in
  mret (default [] (ca_token_keys c)).

Definition unlock : Call unit :=
  let* _ := user_keys in mret tt.

Definition decrypt_address (dto : AddressDto) : Call (Address * list Key) :=
  let* user_keys := token_keys in
  let* passphrases := key_passphrases in
  mlift (open_address user_keys passphrases dto).

(** The loop of [addresses]: the addresses that open, why others do not, and the
    first such reason. *)
Fixpoint decrypt_addresses (dtos : list AddressDto) (addresses : list Address)
    (failed : gmap AddressId string) (first_error : option string)
  : Call (list Address * gmap AddressId string * option string) :=
  match dtos with
  | [] => mret (addresses, failed, first_error)
  | dto :: dtos =>
      let* outcome := mtry (decrypt_address dto) in
      match outcome with
      | Ok (address, keys) =>
          let* _ := update_cache (cache_address_keys (ad_id address) keys) in
          decrypt_addresses dtos (addresses ++ [address]) failed first_error
      | Err (InvalidOperation reason) =>
          decrypt_addresses dtos addresses (<[dt_id dto := reason]> failed)
            (Some (default reason first_error))
      | Err e => mfail e
      end
  end.

Definition addresses : Call (list Address) :=
  let* c := cache in
  match ca_addresses c with
  | Some addresses => mret addresses
  | None =>
      let* _ := user_keys in
      let* dtos := request (get_addresses "core/v4/addresses") in
      let* (addresses, failed, first_error) := decrypt_addresses dtos [] ∅ None in
      match addresses, first_error with
      | [], Some reason => mfail (invalid_operation reason)
      | _, _ =>
          let addresses := sort_by_key ad_order addresses in
          let default_failed := min_by_key dt_order dtos ≫= fun dto => failed !! dt_id dto in
          let* _ := update_cache (cache_addresses failed default_failed addresses) in
          mret addresses
      end
  end.

Definition address (address_id : AddressId) : Call Address :=
  let* addresses := addresses in
  match List.find (fun a => String.eqb (ad_id a) address_id) addresses with
  | Some address => mret address
  | None =>
      let* c := cache in
      mfail (match ca_failed_addresses c !! address_id with
             | Some reason => invalid_operation reason
             | None => invalid_operation ("no address " +:+ address_id)
             end)
  end.

Definition default_address : Call Address :=
  let* addresses := addresses in
  let* c := cache in
  match ca_default_failed c with
  | Some reason => mfail (invalid_operation reason)
  | None => mlift (ok_or (head addresses) (invalid_operation "user has no address"))
  end.

Definition address_private_keys (address_id : AddressId) : Call (list Key) :=
  let* c := cache in
  match ca_address_keys c !! address_id with
  | Some keys => mret keys
  | None =>
      let* _ := addresses in
      let* c := cache in
      match ca_address_keys c !! address_id with
      | Some keys => mret keys
      | None =>
          mfail (match ca_failed_addresses c !! address_id with
                 | Some reason => invalid_operation reason
                 | None => invalid_operation ("no keys for address " +:+ address_id)
                 end)
      end
  end.

(** [filter] and [filter_map] over the entries of [public_keys]. *)
Definition usable_public_keys (entries : list PublicKeyEntry) : list PubKey :=
  omap (fun entry => if is_not_compromised entry
                     then ok (public_key_from_armored (pe_public_key entry)) else None) entries.

Definition public_keys_path (email : string) : string :=
  "core/v4/keys/all?InternalOnly=1&Email=" +:+ encode_query_component email.

Definition public_keys (email : string) : Call (list PubKey) :=
  let* c := cache in
  match ca_public_keys c !! email with
  | Some keys => mret keys
  | None =>
      let* response := mtry (request (get_public_key_list (public_keys_path email))) in
      let keys := match response with
                  | Ok entries => usable_public_keys entries
                  | Err _ => []
                  end in
      let* _ := update_cache (cache_public_keys email keys) in
      mret keys
  end.

Definition quota : Call Quota :=
  let* user := request (get_user "core/v4/users") in
  mret {| qu_max_space := us_max_space user; qu_used_space := us_used_space user |}.

Definition key_report : Call KeyReport :=
  let* passphrases := key_passphrases in
  let* user := request (get_user "core/v4/users") in
  let '(user_keys, active_unlocked, inactive_unlocked) :=
    report_user_keys passphrases (us_keys user) [] [] [] in
  let token_keys := active_unlocked ++ inactive_unlocked in
  let* dtos := request (get_addresses "core/v4/addresses") in
  mret {| kr_user_keys := user_keys;
          kr_addresses := map (report_address token_keys passphrases) dtos |}.
End Client.
Arguments AccountClient : clear implicits.
