(* ===== verification/AccountFacts.v ===== *)
(** * The account client: its answers and its secret

    The client caches what it unlocked, fails over missing keys and skips broken
    addresses.  Proved here: every answer of every sequence of calls is the one a
    fresh computation from the server's data gives, or the error of a request
    that failed (a refinement); once requests succeed, whatever happened before,
    every call gives its answer; what is handed out is well-formed; the default
    address is never another one; the report agrees with the unlock path; the
    key material of [derive_secret] determines the passphrases. *)

From S2P Require Import Prelude Errors Config Keys Account.

(** ** What opens: the loops against list functions *)

Section Opening.
Context {Key : Type} `{KeyOps Key}.

Definition user_key_opens (passphrases : KeyPassphrases) (active : bool) (dto : UserKeyDto)
  : option Key :=
  if bool_decide (UserKeyDto_is_active dto = active)
  then passphrase ← KeyPassphrases_get (uk_id dto) passphrases;
       ok (key_from_armored (uk_private_key dto) passphrase)
  else None.

Lemma unlock_user_keys_spec passphrases dtos keys inactive :
  unlock_user_keys passphrases dtos keys inactive =
    (keys ++ omap (user_key_opens passphrases true) dtos,
     inactive ++ omap (user_key_opens passphrases false) dtos).
Proof.
  unfold user_key_opens. revert keys inactive.
  induction dtos as [|dto dtos IH]; intros keys inactive; simpl; [by rewrite !app_nil_r|].
  destruct (UserKeyDto_is_active dto), (KeyPassphrases_get (uk_id dto) passphrases) as [p|]; simpl;
    rewrite ?IH; try done; destruct (key_from_armored (uk_private_key dto) p) as [k|e]; simpl;
    rewrite ?IH, <- ?app_assoc; done.
Qed.

Definition address_key_opens (user_keys : list Key) (passphrases : KeyPassphrases)
    (dto : AddressKeyDto) : option Key :=
  if AddressKeyDto_is_active dto
  then passphrase ← ok (address_key_passphrase user_keys passphrases dto);
       ok (key_from_armored (ak_private_key dto) passphrase)
  else None.

Lemma decrypt_address_keys_fst user_keys passphrases dtos keys primary :
  (decrypt_address_keys user_keys passphrases dtos keys primary).1 =
    keys ++ omap (address_key_opens user_keys passphrases) dtos.
Proof.
  revert keys primary. induction dtos as [|dto dtos IH]; intros keys primary; simpl.
  - by rewrite app_nil_r.
  - unfold address_key_opens at 1. destruct (AddressKeyDto_is_active dto); simpl; [|by rewrite IH].
    destruct (address_key_passphrase _ _ _) as [p|e]; simpl; [|by rewrite IH].
    destruct (key_from_armored _ _) as [k|e]; simpl; rewrite IH; [by rewrite <- app_assoc|done].
Qed.

(** The first key marked primary among those that open, and its place. *)
Fixpoint first_primary (user_keys : list Key) (passphrases : KeyPassphrases) (n : nat)
    (dtos : list AddressKeyDto) : option (nat * string) :=
  match dtos with
  | [] => None
  | dto :: dtos =>
      match address_key_opens user_keys passphrases dto with
      | None => first_primary user_keys passphrases n dtos
      | Some _ => if AddressKeyDto_is_primary dto then Some (n, ak_id dto)
                  else first_primary user_keys passphrases (Datatypes.S n) dtos
      end
  end.

Lemma decrypt_address_keys_snd user_keys passphrases dtos keys primary :
  (decrypt_address_keys user_keys passphrases dtos keys primary).2 =
    match primary with
    | Some p => Some p
    | None => first_primary user_keys passphrases (length keys) dtos
    end.
Proof.
  revert keys primary. induction dtos as [|dto dtos IH]; intros keys primary; simpl.
  - by destruct primary.
  - unfold address_key_opens at 1. destruct (AddressKeyDto_is_active dto); simpl; [|by rewrite IH].
    destruct (address_key_passphrase _ _ _) as [p|e]; simpl; [|by rewrite IH].
    destruct (key_from_armored _ _) as [k|e]; simpl; [|by rewrite IH].
    rewrite IH, length_app, Nat.add_1_r.
    destruct (AddressKeyDto_is_primary dto), primary; done.
Qed.

Lemma first_primary_Some user_keys passphrases n dtos i id :
  first_primary user_keys passphrases n dtos = Some (i, id) ->
  exists dto key, dto ∈ dtos /\ ak_id dto = id /\ AddressKeyDto_is_primary dto = true /\
    address_key_opens user_keys passphrases dto = Some key /\ (n <= i)%nat /\
    omap (address_key_opens user_keys passphrases) dtos !! (i - n)%nat = Some key.
Proof.
  revert n. induction dtos as [|dto dtos IH]; intros n; simpl; [done|].
  destruct (address_key_opens _ _ dto) as [k|] eqn:Ho.
  - destruct (AddressKeyDto_is_primary dto) eqn:Hp.
    + intros [= <- <-]. exists dto, k. rewrite Nat.sub_diag. split_and!; try done; left.
    + intros (d & key & Hd & Hid & Hprim & Hopen & Hle & Hl)%IH. exists d, key.
      split_and!; try done; [by right|lia|].
      by replace (i - n)%nat with (Datatypes.S (i - Datatypes.S n)) by lia.
  - intros (d & key & Hd & ?)%IH. exists d, key. split; [by right|done].
Qed.

Lemma first_primary_None user_keys passphrases n dtos :
  first_primary user_keys passphrases n dtos = None <->
  Forall (fun d => AddressKeyDto_is_primary d = true ->
                   address_key_opens user_keys passphrases d = None) dtos.
Proof.
  revert n. induction dtos as [|dto dtos IH]; intros n; simpl; [by split|].
  rewrite Forall_cons. destruct (address_key_opens _ _ dto) as [k|] eqn:Ho.
  - destruct (AddressKeyDto_is_primary dto); rewrite ?IH; naive_solver.
  - rewrite IH. naive_solver.
Qed.

(** An address opens when a key marked primary does. *)
Lemma open_address_spec user_keys passphrases dto :
  open_address user_keys passphrases dto =
    match first_primary user_keys passphrases 0 (dt_keys dto) with
    | None => Err (InvalidOperation (no_primary_key (dt_id dto)))
    | Some (i, id) =>
        Ok ({| ad_id := dt_id dto; ad_email := dt_email dto; ad_order := dt_order dto;
               ad_status := dt_status dto; ad_primary_key_index := i; ad_primary_key_id := id |},
            omap (address_key_opens user_keys passphrases) (dt_keys dto))
    end.
Proof.
  unfold open_address. destruct (decrypt_address_keys _ _ _ _ _) as [keys primary] eqn:Hd.
  pose proof (decrypt_address_keys_fst user_keys passphrases (dt_keys dto) [] None) as H1.
  pose proof (decrypt_address_keys_snd user_keys passphrases (dt_keys dto) [] None) as H2.
  rewrite Hd in H1, H2. simpl in *. rewrite <- H2, H1. by destruct primary as [[i id]|].
Qed.

Lemma open_address_ok user_keys passphrases dto a keys :
  open_address user_keys passphrases dto = Ok (a, keys) ->
  ad_id a = dt_id dto /\ ad_order a = dt_order dto /\ ad_email a = dt_email dto /\
  exists k key, k ∈ dt_keys dto /\ ak_id k = ad_primary_key_id a /\
    AddressKeyDto_is_active k = true /\ AddressKeyDto_is_primary k = true /\
    address_key_opens user_keys passphrases k = Some key /\
    keys !! ad_primary_key_index a = Some key.
Proof.
  rewrite open_address_spec. destruct (first_primary _ _ _ _) as [[i id]|] eqn:Hf; [|done].
  intros [= <- <-]. apply first_primary_Some in Hf as (k & key & Hk & Hid & Hp & Ho & _ & Hl).
  rewrite Nat.sub_0_r in Hl. split_and!; try done. exists k, key. split_and!; try done.
  revert Ho. unfold address_key_opens. by destruct (AddressKeyDto_is_active k).
Qed.

(** An address that does not open says so, and nothing else. *)
Lemma open_address_err user_keys passphrases dto e :
  open_address user_keys passphrases dto = Err e ->
  e = InvalidOperation (no_primary_key (dt_id dto)).
Proof. rewrite open_address_spec. destruct (first_primary _ _ _ _) as [[i id]|]; naive_solver. Qed.
End Opening.

(** ** Sequences of calls *)

Inductive Operation :=
| OpKeySalts
| OpKeyPassphrases
| OpUnlock
| OpAddresses
| OpAddress (id : AddressId)
| OpDefaultAddress
| OpAddressPrivateKeys (id : AddressId)
| OpPublicKeys (email : string)
| OpQuota
| OpKeyReport.

Inductive Answer (Key PubKey : Type) :=
| AnSalts (salts : list KeySalt)
| AnPassphrases (passphrases : KeyPassphrases)
| AnUnit
| AnAddresses (addresses : list Address)
| AnAddress (address : Address)
| AnKeys (keys : list Key)
| AnPublicKeys (keys : list PubKey)
| AnQuota (quota : Quota)
| AnReport (report : KeyReport).
Arguments AnSalts {Key PubKey}. Arguments AnPassphrases {Key PubKey}. Arguments AnUnit {Key PubKey}.
Arguments AnAddresses {Key PubKey}. Arguments AnAddress {Key PubKey}. Arguments AnKeys {Key PubKey}.
Arguments AnPublicKeys {Key PubKey}. Arguments AnQuota {Key PubKey}. Arguments AnReport {Key PubKey}.

Section Answers.
Context {W Key PubKey : Type} `{KeyOps Key} `{PassphraseOps} `{AccountApi W} `{ArmoredOps PubKey}.

Definition mmap {S A B E} (f : A -> B) (m : M S A E) : M S B E := let* a := m in mret (f a).

Definition perform (o : Operation) : Call (W := W) (Key := Key) (PubKey := PubKey) (Answer Key PubKey) :=
  match o with
  | OpKeySalts => mmap AnSalts key_salts
  | OpKeyPassphrases => mmap AnPassphrases key_passphrases
  | OpUnlock => mmap (fun _ => AnUnit) unlock
  | OpAddresses => mmap AnAddresses addresses
  | OpAddress id => mmap AnAddress (address id)
  | OpDefaultAddress => mmap AnAddress default_address
  | OpAddressPrivateKeys id => mmap AnKeys (address_private_keys id)
  | OpPublicKeys email => mmap AnPublicKeys (public_keys email)
  | OpQuota => mmap AnQuota quota
  | OpKeyReport => mmap AnReport key_report
  end.

Fixpoint perform_all (ops : list Operation) (c : AccountClient W Key PubKey)
  : list (Res (Answer Key PubKey)) * AccountClient W Key PubKey :=
  match ops with
  | [] => ([], c)
  | o :: ops => let (r, c) := perform o c in
                let (rs, c) := perform_all ops c in (r :: rs, c)
  end.

(** *** The reference: what the server's data and the secret determine *)

Context (salts : list KeySalt) (user : UserDto) (dtos : list AddressDto)
        (key_ring : string -> list PublicKeyEntry).

Definition ref_keys (secret : Res KeyPassphrases) : Res (KeyPassphrases * list Key * list Key) :=
  let? passphrases := secret in
  let active := omap (user_key_opens passphrases true) (us_keys user) in
  let inactive := omap (user_key_opens passphrases false) (us_keys user) in
  if Nat.eqb (length active) 0
  then Err (if existsb UserKeyDto_is_active (us_keys user) then KeysLocked
            else invalid_operation "the account has no active user key")
  else Ok (passphrases, active ++ inactive, active).

Definition opened (token_keys : list Key) (passphrases : KeyPassphrases) : list (Address * list Key) :=
  omap (fun dto => ok (open_address token_keys passphrases dto)) dtos.

Definition broken (token_keys : list Key) (passphrases : KeyPassphrases) : list AddressDto :=
  filter (fun dto => is_ok (open_address token_keys passphrases dto) = false) dtos.

(** What the caches of the addresses hold once the listing was opened. *)
Definition keys_by_id (l : list (Address * list Key)) : gmap AddressId (list Key) :=
  foldl (fun m e => <[ad_id e.1 := e.2]> m) ∅ l.

Definition reasons_by_id (l : list AddressDto) : gmap AddressId string :=
  foldl (fun m dto => <[dt_id dto := no_primary_key (dt_id dto)]> m) ∅ l.

Definition ref_addresses (secret : Res KeyPassphrases) : Res (list Address) :=
  let? (passphrases, token_keys, _) := ref_keys secret in
  match opened token_keys passphrases, broken token_keys passphrases with
  | [], dto :: _ => Err (invalid_operation (no_primary_key (dt_id dto)))
  | l, _ => Ok (sort_by_key ad_order (map fst l))
  end.

(** The first address of the listing's least order, if it opens. *)
Definition ref_default (secret : Res KeyPassphrases) : Res Address :=
  let? _ := ref_addresses secret in
  let? (passphrases, token_keys, _) := ref_keys secret in
  match min_by_key dt_order dtos with
  | None => Err (invalid_operation "user has no address")
  | Some dto =>
      let? (address, _) := open_address token_keys passphrases dto in Ok address
  end.

Definition ref_of_address {A} (secret : Res KeyPassphrases) (id : AddressId) (missing : string)
    (f : Address -> list Key -> A) : Res A :=
  let? _ := ref_addresses secret in
  let? (passphrases, token_keys, _) := ref_keys secret in
  match List.find (fun dto => String.eqb (dt_id dto) id) dtos with
  | None => Err (invalid_operation (missing +:+ id))
  | Some dto =>
      let? (address, keys) := open_address token_keys passphrases dto in Ok (f address keys)
  end.

Definition ref_report (secret : Res KeyPassphrases) : Res KeyReport :=
  let? passphrases := secret in
  let token_keys := omap (user_key_opens passphrases true) (us_keys user) ++
                    omap (user_key_opens passphrases false) (us_keys user) in
  Ok {| kr_user_keys := map (report_user_key passphrases) (us_keys user);
        kr_addresses := map (report_address token_keys passphrases) dtos |}.

(** What the first lookup of an address's public keys gives: its usable ones, or
    none when the request fails.  Later lookups repeat it. *)
Definition looked_up (w : W) (email : string) : list PubKey :=
  match (get_public_key_list (public_keys_path email) w).1 with
  | Ok _ => usable_public_keys (key_ring (public_keys_path email))
  | Err _ => []
  end.

Definition learned (known : gmap string (list PubKey)) (w : W) (o : Operation) : gmap string (list PubKey) :=
  match o with
  | OpPublicKeys email =>
      match known !! email with Some _ => known | None => <[email := looked_up w email]> known end
  | _ => known
  end.

(** The answer of a call, requests that fail aside, where [known] was looked up
    before and requests are made of [w]. *)
Definition specified (secret : Res KeyPassphrases) (known : gmap string (list PubKey)) (w : W)
    (o : Operation) (r : Res (Answer Key PubKey)) : Prop :=
  match o with
  | OpKeySalts => r = Ok (AnSalts salts)
  | OpKeyPassphrases => r = result_map AnPassphrases secret
  | OpUnlock => r = result_map (fun _ => AnUnit) (ref_keys secret)
  | OpAddresses => r = result_map AnAddresses (ref_addresses secret)
  | OpAddress id =>
      r = result_map AnAddress (ref_of_address secret id "no address " (fun a _ => a))
  | OpDefaultAddress => r = result_map AnAddress (ref_default secret)
  | OpAddressPrivateKeys id =>
      r = result_map AnKeys (ref_of_address secret id "no keys for address " (fun _ keys => keys))
  | OpPublicKeys email => r = Ok (AnPublicKeys (default (looked_up w email) (known !! email)))
  | OpQuota => r = Ok (AnQuota {| qu_max_space := us_max_space user; qu_used_space := us_used_space user |})
  | OpKeyReport => r = result_map AnReport (ref_report secret)
  end.

(** *** The server: each listing answers with its data or fails *)

(** A world from which requests keep succeeding. *)
Context (live : W -> Prop).

Definition answers {A} (m : M W A ProtonError) (v : A) : Prop := forall w,
  match m w with
  | (Ok a, w') => a = v /\ (live w -> live w')
  | (Err _, _) => ~ live w
  end.

Class AccountServer : Prop := {
  salts_answer path : answers (get_key_salts path) salts;
  user_answer path : answers (get_user path) user;
  addresses_answer path : answers (get_addresses path) dtos;
  key_ring_answer path : answers (get_public_key_list path) (key_ring path);
  addresses_distinct : NoDup (map dt_id dtos)
}.

(** The error of a request. *)
Definition refused (e : ProtonError) : Prop := exists path w w',
  get_key_salts path w = (Err e, w') \/ get_user path w = (Err e, w') \/
  get_addresses path w = (Err e, w') \/ get_public_key_list path w = (Err e, w').

(** A call may also hand over the error of a request, while requests fail; a lookup
    of public keys never does. *)
Definition excused (w : W) (o : Operation) (r : Res (Answer Key PubKey)) : Prop :=
  match o with OpPublicKeys _ => False | _ => exists e, r = Err e /\ refused e /\ ~ live w end.

(** The answers [rs] of the calls [ops] on [c]: each as specified, or excused. *)
Fixpoint conforms (secret : Res KeyPassphrases) (known : gmap string (list PubKey)) (ops : list Operation)
    (c : AccountClient W Key PubKey) (rs : list (Res (Answer Key PubKey))) : Prop :=
  match ops, rs with
  | [], [] => True
  | o :: ops, r :: rs =>
      (specified secret known (ac_http c) o r \/ excused (ac_http c) o r) /\
      conforms secret (learned known (ac_http c) o) ops (perform o c).2 rs
  | _, _ => False
  end.

(** *** The caches hold reference values *)

Context (secret : Res KeyPassphrases) (password : string).

Definition loaded (passphrases : KeyPassphrases) (token_keys : list Key) (c : Cache Key PubKey) : Prop :=
  exists active, ref_keys secret = Ok (passphrases, token_keys, active) /\
    ca_key_passphrases c = Some passphrases /\ ca_token_keys c = Some token_keys /\
    ca_user_keys c = Some active.

Definition addresses_coherent (c : Cache Key PubKey) : Prop :=
  match ca_addresses c with
  | None => ca_address_keys c = ∅ /\ ca_failed_addresses c = ∅ /\ ca_default_failed c = None
  | Some l => exists passphrases token_keys,
      loaded passphrases token_keys c /\ ref_addresses secret = Ok l /\
      ca_address_keys c = keys_by_id (opened token_keys passphrases) /\
      ca_failed_addresses c = reasons_by_id (broken token_keys passphrases) /\
      ca_default_failed c =
        (min_by_key dt_order dtos ≫= fun dto => reasons_by_id (broken token_keys passphrases) !! dt_id dto)
  end.

Record coherent (c : Cache Key PubKey) : Prop := {
  co_salts s : ca_key_salts c = Some s -> s = salts;
  co_passphrases : match ca_key_passphrases c with
                   | Some p => secret = Ok p
                   | None => secret = passphrases_of_salts password salts KeyPassphrases_new
                   end;
  co_user_keys active : ca_user_keys c = Some active ->
    exists passphrases token_keys, loaded passphrases token_keys c;
  co_addresses : addresses_coherent c
}.

Definition Coherent (c : AccountClient W Key PubKey) : Prop :=
  ac_mailbox_password c = password /\ coherent (ac_cache c).

(** From a coherent client whose cache satisfies [P], [m] answers [v], leaving a
    cache of [Q] - or hands over a request's error, which it does not when the
    requests succeed. *)
Definition yields {A} (P : Cache Key PubKey -> Prop) (m : Call (W := W) A) (v : Res A)
    (Q : Cache Key PubKey -> Prop) : Prop := forall c,
  Coherent c -> P (ac_cache c) ->
  let (r, c') := m c in
  Coherent c' /\ (live (ac_http c) -> live (ac_http c')) /\
  ((r = v /\ Q (ac_cache c')) \/ exists e, r = Err e /\ refused e /\ ~ live (ac_http c)).

Lemma yields_ret {A} P (a : A) : yields P (mret a) (Ok a) P.
Proof. intros c Hc HP. simpl. auto. Qed.

Lemma yields_lift {A} P (v : Res A) : yields P (mlift v) v P.
Proof. intros c Hc HP. simpl. auto. Qed.

Lemma yields_weaken {A} (P P' Q Q' : Cache Key PubKey -> Prop) (m : Call A) v :
  yields P m v Q -> (forall c, P' c -> P c) -> (forall c, Q c -> Q' c) -> yields P' m v Q'.
Proof.
  intros Hm HP HQ c Hc Hpre. specialize (Hm c Hc (HP _ Hpre)).
  destruct (m c) as [r c']. destruct Hm as (H' & Hl & Ho). split_and!; [done..|].
  destruct Ho as [[-> ?]|?]; [left|right]; auto.
Qed.

Lemma yields_bind {A B} P (m : Call A) v (k : A -> Call B) v' R Q :
  yields P m v (fun c => is_ok v = true -> R c) ->
  (forall a, v = Ok a -> yields R (k a) (v' a) Q) -> (forall c, is_ok v = false -> Q c) ->
  yields P (mbind_ m k) (result_bind v v') Q.
Proof.
  intros Hm Hk He c Hc HP. specialize (Hm c Hc HP). unfold mbind_.
  destruct (m c) as [r c1]. destruct Hm as (Hc1 & Hl & [[-> HR]|(e & -> & Hr & Hn)]).
  - destruct v as [a|e]; simpl in *; [|by split_and!; [..|left; split; [|apply He]]]. specialize (Hk a eq_refl c1 Hc1 (HR eq_refl)).
    destruct (k a c1) as [r c2]. destruct Hk as (Hc2 & Hl2 & [?|(e & ? & ? & ?)]);
      (split_and!; [done|by auto|]); [by left|]. right. exists e. split_and!; auto.
  - split_and!; [done..|]. right. by exists e.
Qed.

Lemma yields_cache {A} P (k : Cache Key PubKey -> Call A) v Q :
  (forall c0, coherent c0 -> P c0 -> yields (eq c0) (k c0) v Q) ->
  yields P (mbind_ cache k) v Q.
Proof. intros Hk c Hc HP. apply Hk; [apply Hc|done..]. Qed.

Lemma yields_update {B} P f (m : Call B) v R Q :
  (forall c, coherent c -> P c -> coherent (f c) /\ R (f c)) ->
  yields R m v Q -> yields P (let* _ := update_cache f in m) v Q.
Proof.
  intros Hf Hm c Hc HP. unfold mbind_, update_cache, mmodify. simpl.
  destruct (Hf _ (proj2 Hc) HP) as [Hc' HR]. destruct Hc as [Hpw _].
  exact (Hm {| ac_http := ac_http c; ac_mailbox_password := ac_mailbox_password c;
               ac_cache := f (ac_cache c) |} (conj Hpw Hc') HR).
Qed.

Lemma yields_request {A B} P (m : M W A ProtonError) a (k : A -> Call B) v Q :
  answers m a -> (forall w e w', m w = (Err e, w') -> refused e) ->
  yields P (k a) v Q -> yields P (let* x := request m in k x) v Q.
Proof.
  intros Ha Hr Hk c [Hpw Hc] HP. unfold mbind_, request. specialize (Ha (ac_http c)).
  destruct (m (ac_http c)) as [[x|e] w] eqn:Hm.
  - destruct Ha as [-> Hl]. specialize (Hk {| ac_http := w; ac_mailbox_password := ac_mailbox_password c;
      ac_cache := ac_cache c |} (conj Hpw Hc) HP). simpl in Hk.
    destruct (k a _) as [r c']. destruct Hk as (? & ? & [?|(e & ? & ? & ?)]);
      (split_and!; [done|by auto|]); [by left|]. right. exists e. split_and!; auto.
  - split_and!; [by split|done|]. right. exists e. split_and!; eauto.
Qed.

(** *** Each operation *)

Lemma ref_keys_secret s passphrases token_keys active :
  ref_keys s = Ok (passphrases, token_keys, active) -> s = Ok passphrases.
Proof.
  unfold ref_keys. destruct s as [p|e]; simpl; [|done].
  destruct (Nat.eqb _ _); [done|]. by intros [= -> _ _].
Qed.

Context `{!AccountServer}.

Lemma refused_salts path w e w' : get_key_salts path w = (Err e, w') -> refused e.
Proof. intros He. exists path, w, w'. auto. Qed.
Lemma refused_user path w e w' : get_user path w = (Err e, w') -> refused e.
Proof. intros He. exists path, w, w'. auto. Qed.
Lemma refused_addresses path w e w' : get_addresses path w = (Err e, w') -> refused e.
Proof. intros He. exists path, w, w'. auto. Qed.

Local Hint Resolve refused_salts refused_user refused_addresses : core.

Lemma key_salts_yields : yields (fun _ => True) key_salts (Ok salts) (fun _ => True).
Proof.
  apply yields_cache. intros c0 Hc _. destruct (ca_key_salts c0) as [s|] eqn:Hs.
  - rewrite (co_salts _ Hc _ Hs). by eapply yields_weaken; [apply yields_ret|..].
  - eapply yields_request; [apply salts_answer|eauto|].
    eapply (yields_update _ _ _ _ (fun _ => True)); [|apply yields_ret].
    intros c [Hsalts Hpp Huk Had] _. split; [|done]. split; simpl; [|done..]. by intros s [= ->].
Qed.

Definition has_passphrases (c : Cache Key PubKey) : Prop :=
  forall p, secret = Ok p -> ca_key_passphrases c = Some p.

Lemma mailbox_password_yields {B} P (k : string -> Call B) v Q :
  yields P (k password) v Q -> yields P (mbind_ mailbox_password k) v Q.
Proof. intros Hk c Hc HP. unfold mbind_, mailbox_password. rewrite (proj1 Hc). by apply Hk. Qed.

Lemma cache_key_passphrases_coherent p c :
  coherent c -> secret = Ok p -> coherent (cache_key_passphrases p c).
Proof.
  intros [Hsalts Hpp Huk Had] Hp.
  assert (forall p' tk, loaded p' tk c -> loaded p' tk (cache_key_passphrases p c)) as Hl.
  { intros p' tk (active & Hr & _ & ? & ?). exists active. split_and!; try done.
    apply ref_keys_secret in Hr as Hr'. simpl. congruence. }
  split; simpl; [done|done| |].
  - intros active (p' & tk & ?)%Huk. eauto.
  - unfold addresses_coherent in *. simpl. destruct (ca_addresses c); [|done].
    destruct Had as (p' & tk & ? & ?). exists p', tk. auto.
Qed.

Lemma key_passphrases_yields : yields (fun _ => True) key_passphrases secret has_passphrases.
Proof.
  apply yields_cache. intros c0 Hc _. pose proof (co_passphrases _ Hc) as Hp.
  destruct (ca_key_passphrases c0) as [p|] eqn:Hc0.
  - rewrite Hp. eapply yields_weaken; [apply yields_ret|done|]. intros c <- p' Hp'. congruence.
  - assert (secret = let? s := Ok salts in
                     let? p := passphrases_of_salts password s KeyPassphrases_new in Ok p) as Hs.
    { rewrite Hp. simpl. by destruct (passphrases_of_salts _ _ _). }
    rewrite Hs at 1. eapply yields_bind with (R := fun _ => True).
    + eapply yields_weaken; [apply key_salts_yields|done|]. by intros c _ _.
    + intros s [= <-]. cbv beta. apply mailbox_password_yields. eapply yields_bind with (R := fun _ => True).
      * eapply yields_weaken; [apply (yields_lift (fun _ => True))|done|done].
      * intros p Hok. simpl in Hs. rewrite Hok in Hs. simpl in Hs.
        apply (yields_update _ _ _ _ has_passphrases); [|apply yields_ret].
        intros c Hcc _. split; [by apply cache_key_passphrases_coherent|].
        intros p' Hp'. simpl. congruence.
      * intros c Hno p' Hp'. rewrite Hs in Hp'. simpl in Hp'.
        by destruct (passphrases_of_salts _ _ _).
    + done.
Qed.

Definition has_user_keys (c : Cache Key PubKey) : Prop :=
  forall p tk active, ref_keys secret = Ok (p, tk, active) -> loaded p tk c.

Lemma cache_user_keys_coherent p tk active c :
  coherent c -> ref_keys secret = Ok (p, tk, active) -> ca_key_passphrases c = Some p ->
  coherent (cache_user_keys tk active c) /\ loaded p tk (cache_user_keys tk active c).
Proof.
  intros [Hsalts Hpp Huk Had] Hr Hp.
  assert (loaded p tk (cache_user_keys tk active c)) as Hl by (by exists active).
  split; [|done]. split; simpl; [done|done| |].
  - intros active' [= <-]. eauto.
  - unfold addresses_coherent in *. simpl. destruct (ca_addresses c); [|done].
    destruct Had as (p' & tk' & (active' & Hr' & ?) & ?). exists p', tk'.
    rewrite Hr in Hr'. injection Hr' as <- <- <-. auto.
Qed.

Lemma ref_keys_fold p :
  ref_keys (Ok p) =
    (let '(keys, inactive) := unlock_user_keys p (us_keys user) [] [] in
     if Nat.eqb (length keys) 0
     then Err (if existsb UserKeyDto_is_active (us_keys user) then KeysLocked
               else invalid_operation "the account has no active user key")
     else Ok (p, keys ++ inactive, keys)).
Proof. by rewrite unlock_user_keys_spec. Qed.

Lemma user_keys_yields :
  yields (fun _ => True) user_keys (result_map snd (ref_keys secret)) has_user_keys.
Proof.
  apply yields_cache. intros c0 Hc _. destruct (ca_user_keys c0) as [active|] eqn:Hu.
  - destruct (co_user_keys _ Hc _ Hu) as (p & tk & Hl). pose proof Hl as (active' & Hr & _ & _ & Hu').
    rewrite Hr. simpl. rewrite Hu in Hu'. injection Hu' as ->.
    eapply yields_weaken; [apply yields_ret|done|]. intros c <- p' tk' a' Hr'. congruence.
  - assert (result_map snd (ref_keys secret) = let? p := secret in result_map snd (ref_keys (Ok p)))
      as -> by (by destruct secret).
    eapply yields_bind; [|intros p Hp|by intros c Hno p tk a Hr%ref_keys_secret; rewrite Hr in Hno].
    { eapply yields_weaken; [apply key_passphrases_yields|done|]. intros c HR _. exact HR. }
    eapply yields_request; [apply user_answer|eauto|].
    rewrite ref_keys_fold. destruct (unlock_user_keys _ _ _ _) as [keys inactive] eqn:Hk.
    destruct (Nat.eqb _ _) eqn:Hn.
    + eapply yields_weaken; [apply (yields_lift _ (Err _))|done|].
      intros c _ p' tk' a' Hr'. rewrite Hp, ref_keys_fold, Hk, Hn in Hr'. done.
    + apply (yields_update _ _ _ _ has_user_keys); [|apply yields_ret].
      intros c Hcc HR. assert (ref_keys secret = Ok (p, keys ++ inactive, keys)) as Hr
        by (by rewrite Hp, ref_keys_fold, Hk, Hn).
      destruct (cache_user_keys_coherent _ _ _ _ Hcc Hr (HR _ Hp)) as [? Hl].
      split; [done|]. intros p' tk' a' Hr'. congruence.
Qed.

(** Once the keys are loaded, opening an address is a pure computation. *)
Lemma decrypt_address_loaded p tk dto (c : AccountClient W Key PubKey) :
  loaded p tk (ac_cache c) -> decrypt_address dto c = (open_address tk p dto, c).
Proof.
  intros (active & _ & Hp & Ht & Hu).
  unfold decrypt_address, token_keys, user_keys, key_passphrases, mbind_, cache. simpl.
  rewrite Hu. simpl. rewrite Ht. simpl. rewrite Hp. done.
Qed.

Definition put_keys (c : AccountClient W Key PubKey) (e : Address * list Key)
  : AccountClient W Key PubKey :=
  {| ac_http := ac_http c; ac_mailbox_password := ac_mailbox_password c;
     ac_cache := cache_address_keys (ad_id e.1) e.2 (ac_cache c) |}.

Lemma loaded_put_keys p tk c e : loaded p tk (ac_cache c) -> loaded p tk (ac_cache (put_keys c e)).
Proof. intros (active & ?). by exists active. Qed.

Lemma decrypt_addresses_loaded p tk ds acc failed first_error c :
  loaded p tk (ac_cache c) ->
  let opens := omap (fun dto => ok (open_address tk p dto)) ds in
  let fails := filter (fun dto => is_ok (open_address tk p dto) = false) ds in
  decrypt_addresses ds acc failed first_error c =
    (Ok (acc ++ map fst opens,
         foldl (fun m dto => <[dt_id dto := no_primary_key (dt_id dto)]> m) failed fails,
         match first_error with
         | Some reason => Some reason
         | None => (fun dto => no_primary_key (dt_id dto)) <$> head fails
         end),
     foldl put_keys c opens).
Proof.
  revert acc failed first_error c.
  induction ds as [|dto ds IH]; intros acc failed first_error c Hl; cbn [decrypt_addresses].
  { simpl. rewrite app_nil_r. by destruct first_error. }
  unfold mbind_ at 1, mtry. rewrite (decrypt_address_loaded p tk) by done.
  simpl. rewrite filter_cons. destruct (open_address tk p dto) as [[a ks]|e] eqn:Ho; simpl.
  - unfold mbind_, update_cache, mmodify. simpl.
    rewrite IH by by apply (loaded_put_keys p tk c (a, ks)). by rewrite <- app_assoc.
  - rewrite (open_address_err _ _ _ _ Ho). simpl. rewrite IH by done. simpl. by destruct first_error.
Qed.

(** The caches the loop leaves. *)
Lemma foldl_put_keys l (c : AccountClient W Key PubKey) :
  ac_http (foldl put_keys c l) = ac_http c /\
  ac_mailbox_password (foldl put_keys c l) = ac_mailbox_password c /\
  (forall p tk, loaded p tk (ac_cache c) -> loaded p tk (ac_cache (foldl put_keys c l))) /\
  ca_address_keys (ac_cache (foldl put_keys c l)) =
    foldl (fun m e => <[ad_id e.1 := e.2]> m) (ca_address_keys (ac_cache c)) l /\
  ca_key_salts (ac_cache (foldl put_keys c l)) = ca_key_salts (ac_cache c) /\
  ca_key_passphrases (ac_cache (foldl put_keys c l)) = ca_key_passphrases (ac_cache c) /\
  ca_addresses (ac_cache (foldl put_keys c l)) = ca_addresses (ac_cache c) /\
  ca_failed_addresses (ac_cache (foldl put_keys c l)) = ca_failed_addresses (ac_cache c) /\
  ca_default_failed (ac_cache (foldl put_keys c l)) = ca_default_failed (ac_cache c) /\
  ca_public_keys (ac_cache (foldl put_keys c l)) = ca_public_keys (ac_cache c).
Proof.
  revert c. induction l as [|e l IH]; intros c; simpl; [by split_and!|].
  destruct (IH (put_keys c e)) as (-> & -> & Hl & -> & -> & -> & -> & -> & -> & ->).
  by split_and!.
Qed.

Lemma ref_addresses_unfold p tk active :
  ref_keys secret = Ok (p, tk, active) ->
  ref_addresses secret =
    match opened tk p, broken tk p with
    | [], dto :: _ => Err (invalid_operation (no_primary_key (dt_id dto)))
    | l, _ => Ok (sort_by_key ad_order (map fst l))
    end.
Proof. unfold ref_addresses. by intros ->. Qed.

Definition failed_default (p : KeyPassphrases) (tk : list Key) : option string :=
  min_by_key dt_order dtos ≫= fun dto => reasons_by_id (broken tk p) !! dt_id dto.

Lemma cache_addresses_coherent p tk l c :
  coherent (ac_cache c) -> loaded p tk (ac_cache c) -> ca_addresses (ac_cache c) = None ->
  ref_addresses secret = Ok l ->
  coherent (cache_addresses (reasons_by_id (broken tk p)) (failed_default p tk) l
              (ac_cache (foldl put_keys c (opened tk p)))).
Proof.
  intros [Hsalts Hpp Huk Had] Hl Hno Hl0.
  destruct (foldl_put_keys (opened tk p) c) as (_ & _ & Hl' & Hak & Hs & Hp' & _ & _ & _ & Hpk).
  unfold addresses_coherent in Had. rewrite Hno in Had. destruct Had as (Hak0 & _ & _).
  assert (loaded p tk (cache_addresses (reasons_by_id (broken tk p)) (failed_default p tk) l
              (ac_cache (foldl put_keys c (opened tk p))))) as Hl2.
  { destruct (Hl' _ _ Hl) as (active' & ?). by exists active'. }
  split; simpl.
  - intros s. rewrite Hs. apply Hsalts.
  - by rewrite Hp'.
  - eauto.
  - exists p, tk. simpl. split_and!; try done. by rewrite Hak, Hak0.
Qed.

(** The tail of [addresses], from the listing on. *)
Lemma open_listing_yields p tk active :
  ref_keys secret = Ok (p, tk, active) ->
  yields (fun c => loaded p tk c /\ ca_addresses c = None)
    (let* (addresses, failed, first_error) := decrypt_addresses dtos [] ∅ None in
     match addresses, first_error with
     | [], Some reason => mfail (invalid_operation reason)
     | _, _ =>
         let addresses := sort_by_key ad_order addresses in
         let default_failed := min_by_key dt_order dtos ≫= fun dto => failed !! dt_id dto in
         let* _ := update_cache (cache_addresses failed default_failed addresses) in
         mret addresses
     end)
    (ref_addresses secret)
    (fun c => is_ok (ref_addresses secret) = true -> is_Some (ca_addresses c)).
Proof.
  intros Hr c [Hpw Hc] [Hl Hno]. unfold mbind_ at 1. rewrite (decrypt_addresses_loaded p tk) by done.
  cbn [fst snd app].
  rewrite (ref_addresses_unfold _ _ _ Hr). fold (opened tk p). fold (broken tk p). fold (reasons_by_id (broken tk p)).
  destruct (foldl_put_keys (opened tk p) c) as (Hw & Hpw' & _).
  assert (forall l failed df, ref_addresses secret = Ok l ->
    failed = reasons_by_id (broken tk p) ->
    df = (min_by_key dt_order dtos ≫= fun dto => reasons_by_id (broken tk p) !! dt_id dto) ->
    let (r, c') := (let* _ := update_cache (cache_addresses failed df l) in mret l)
                     (foldl put_keys c (opened tk p)) in
    Coherent c' /\ (live (ac_http c) -> live (ac_http c')) /\
    ((r = Ok l /\ (is_ok (Ok (E := ProtonError) l) = true -> is_Some (ca_addresses (ac_cache c')))) \/
     exists e, r = Err e /\ refused e /\ ~ live (ac_http c))) as Hend.
  { intros l failed df Hl0 Hf1 Hd1. simpl. rewrite Hw. split_and!; [split; simpl|done|left].
    - by rewrite Hpw'.
    - rewrite Hf1, Hd1. by apply cache_addresses_coherent.
    - split; [done|eauto]. }
  rewrite (ref_addresses_unfold _ _ _ Hr) in Hend.
  destruct (opened tk p) as [|e es] eqn:Ho; [destruct (broken tk p) as [|d ds] eqn:Hb|]; simpl in *.
  - by apply Hend.
  - split_and!; [by split|done|by left].
  - by apply Hend.
Qed.

Lemma bind_ref_addresses {A} (k : list Address -> Res A) :
  result_bind (ref_addresses secret) k =
  result_bind (ref_keys secret) (fun _ => result_bind (ref_addresses secret) k).
Proof. unfold ref_addresses. by destruct (ref_keys secret) as [[[p tk] active]|e]. Qed.

(** What a call leaves as it is; loading the user keys, the cached addresses. *)
Lemma keeps_request {A T} (part : Cache Key PubKey -> T) x (m : M W A ProtonError) :
  keeps (fun c : AccountClient W Key PubKey => part (ac_cache c) = x) (fun _ => True) (request m).
Proof. intros c Hc. unfold request. destruct (m (ac_http c)) as [[a|e] w]; simpl; auto. Qed.

Lemma keeps_update {T} (part : Cache Key PubKey -> T) x f :
  (forall c, part (f c) = part c) ->
  keeps (fun c : AccountClient W Key PubKey => part (ac_cache c) = x) (fun _ => True) (update_cache f).
Proof. intros Hf. apply keeps_modify. intros c Hc. simpl. by rewrite Hf. Qed.

Ltac keeps_step :=
  match goal with
  | |- keeps _ _ (mbind_ (request _) _) => eapply keeps_bind; [apply (keeps_request (T := _))|intros ? _]
  | |- keeps _ _ (mbind_ (update_cache _) _) => eapply keeps_bind; [by apply keeps_update|intros ? _]
  | |- keeps _ _ (mbind_ (mlift ?r) _) =>
      eapply (keeps_bind _ (fun _ => True)); [by intros ? ?; simpl; destruct r|intros ? _]
  | |- keeps _ _ (mbind_ cache _) => eapply (keeps_bind _ (fun _ => True)); [by intros ? ?|intros ? _]
  | |- keeps _ _ (mbind_ mailbox_password _) =>
      eapply (keeps_bind _ (fun _ => True)); [by intros ? ?|intros ? _]
  | |- keeps _ _ (mbind_ _ _) => eapply keeps_bind; [eassumption|intros ? _]
  | |- keeps _ _ (mret _) => by apply keeps_ret
  | |- keeps _ _ (mfail _) => by apply keeps_fail
  | |- keeps _ _ (match ?x with _ => _ end) => destruct x
  end.

Lemma keeps_user_keys x :
  keeps (fun c : AccountClient W Key PubKey => ca_addresses (ac_cache c) = x) (fun _ => True) user_keys.
Proof.
  assert (keeps (fun c : AccountClient W Key PubKey => ca_addresses (ac_cache c) = x) (fun _ => True) key_salts) as Hks
    by (unfold key_salts; repeat keeps_step).
  assert (keeps (fun c : AccountClient W Key PubKey => ca_addresses (ac_cache c) = x) (fun _ => True) key_passphrases) as Hkp
    by (unfold key_passphrases; repeat keeps_step).
  unfold user_keys. repeat keeps_step.
Qed.

Lemma yields_keeps {A} P I (R : A -> Prop) (m : Call A) v Q :
  yields P m v Q -> keeps (fun c => I (ac_cache c)) R m ->
  yields (fun c => P c /\ I c) m v (fun c => Q c /\ I c).
Proof.
  intros Hm Hk c Hc [HP HI]. specialize (Hm c Hc HP). specialize (Hk c HI).
  destruct (m c) as [r c']. destruct Hk as [Hk _]. simpl in Hk. naive_solver.
Qed.

Lemma addresses_yields :
  yields (fun _ => True) addresses (ref_addresses secret)
    (fun c => is_ok (ref_addresses secret) = true -> is_Some (ca_addresses c)).
Proof.
  apply yields_cache. intros c0 Hc _. pose proof (co_addresses _ Hc) as Ha. unfold addresses_coherent in Ha.
  destruct (ca_addresses c0) as [l|] eqn:Hl.
  - destruct Ha as (p & tk & _ & -> & _). eapply yields_weaken; [apply yields_ret|done|]. by intros c <-.
  - assert (ref_addresses secret = let? _ := result_map snd (ref_keys secret) in ref_addresses secret) as Heq
      by (unfold ref_addresses; by destruct (ref_keys secret) as [[[p tk] active]|e]).
    rewrite Heq at 1.
    eapply yields_bind with (R := fun c => has_user_keys c /\ ca_addresses c = None).
    + eapply yields_weaken; [eapply (yields_keeps _ (fun c => ca_addresses c = None));
        [apply user_keys_yields|apply keeps_user_keys]|by intros c <-|done].
    + intros uk Huk. destruct (ref_keys secret) as [[[p tk] active]|e] eqn:Hr; [|done].
      eapply yields_request; [apply addresses_answer|eauto|].
      eapply yields_weaken; [by apply (open_listing_yields p tk active)|..|done].
      intros c [Hl' Hno]. split; [by eapply Hl'|done].
    + intros c Hno. rewrite Heq. by destruct (result_map _ _).
Qed.

(** The keys and the failures of the listing, by id. *)
Lemma listing_lookup {A} (f : AddressDto -> option A) (g : A -> AddressId) ds (m : gmap string A) id :
  (forall dto a, f dto = Some a -> g a = dt_id dto) -> NoDup (map dt_id ds) ->
  foldl (fun m a => <[g a := a]> m) m (omap f ds) !! id =
    match List.find (fun dto => String.eqb (dt_id dto) id) ds ≫= f with
    | Some a => Some a
    | None => m !! id
    end.
Proof.
  intros Hg. revert m. induction ds as [|dto ds IH]; intros m Hn; [done|].
  apply NoDup_cons in Hn as [Hd Hn]. csimpl.
  destruct (f dto) as [a|] eqn:Hf; simpl; rewrite IH by done.
  - rewrite (Hg _ _ Hf). destruct (String.eqb_spec (dt_id dto) id) as [He|He]; simpl.
    + rewrite (proj2 (find_none_iff dt_id id ds)) by (by rewrite <- He). simpl.
      by rewrite <- He, lookup_insert_eq, Hf.
    + by rewrite lookup_insert_ne by done.
  - destruct (String.eqb_spec (dt_id dto) id) as [He|He]; [|done].
    rewrite (proj2 (find_none_iff dt_id id ds)) by (by rewrite <- He). simpl. by rewrite Hf.
Qed.

Lemma fold_insert_fmap {A B} (g : A -> string) (h : A -> B) l (m : gmap string A) (m' : gmap string B) :
  m' = h <$> m -> foldl (fun m a => <[g a := h a]> m) m' l = h <$> foldl (fun m a => <[g a := a]> m) m l.
Proof.
  revert m m'. induction l as [|a l IH]; intros m m' ->; simpl; [done|].
  apply IH. by rewrite fmap_insert.
Qed.

Definition find_dto (id : AddressId) : option AddressDto :=
  List.find (fun dto => String.eqb (dt_id dto) id) dtos.

Lemma keys_by_id_lookup tk p id :
  keys_by_id (opened tk p) !! id = dto ← find_dto id; snd <$> ok (open_address tk p dto).
Proof.
  unfold keys_by_id, opened.
  rewrite (fold_insert_fmap (fun e => ad_id e.1) snd _ ∅) by (by rewrite fmap_empty).
  rewrite lookup_fmap, (listing_lookup (fun dto => ok (open_address tk p dto)) (fun e => ad_id e.1)).
  - unfold find_dto. destruct (List.find _ dtos) as [dto|]; simpl; [|by rewrite lookup_empty].
    by destruct (ok _); simpl; [|rewrite lookup_empty].
  - intros dto [a ks]. destruct (open_address tk p dto) eqn:Ho; [|done]. simpl. intros [= ->].
    by apply open_address_ok in Ho as [? _].
  - apply addresses_distinct.
Qed.

Lemma reasons_by_id_lookup tk p id :
  reasons_by_id (broken tk p) !! id =
    dto ← find_dto id; if is_ok (open_address tk p dto) then None else Some (no_primary_key (dt_id dto)).
Proof.
  unfold reasons_by_id, broken.
  rewrite (fold_insert_fmap dt_id (fun dto => no_primary_key (dt_id dto)) _ ∅) by (by rewrite fmap_empty).
  assert (filter (fun dto => is_ok (open_address tk p dto) = false) dtos =
          omap (fun dto => if is_ok (open_address tk p dto) then None else Some dto) dtos) as ->.
  { clear. induction dtos as [|d l IH]; [done|]. rewrite filter_cons. csimpl. rewrite IH.
    by destruct (is_ok _). }
  rewrite lookup_fmap, (listing_lookup _ dt_id).
  - unfold find_dto. destruct (List.find _ dtos) as [dto|]; simpl; [|by rewrite lookup_empty].
    by destruct (is_ok _); simpl; [rewrite lookup_empty|].
  - intros dto a. destruct (is_ok _); [done|]. by intros [= ->].
  - apply addresses_distinct.
Qed.

Lemma elem_of_opened tk p e :
  e ∈ opened tk p <-> exists dto, dto ∈ dtos /\ open_address tk p dto = Ok e.
Proof.
  unfold opened. rewrite list_elem_of_omap. split; intros (dto & Hd & Ho); exists dto; split; try done.
  - by destruct (open_address tk p dto); simplify_eq/=.
  - by rewrite Ho.
Qed.

Lemma find_dto_some id dto : find_dto id = Some dto <-> dto ∈ dtos /\ dt_id dto = id.
Proof. apply (find_some_iff dt_id), addresses_distinct. Qed.

Lemma opened_distinct tk p : NoDup (map (fun e => ad_id e.1) (opened tk p)).
Proof.
  unfold opened. pose proof addresses_distinct as Hn. revert Hn.
  induction dtos as [|d ds IH]; csimpl; [constructor|]. intros [Hd Hn]%NoDup_cons.
  destruct (open_address tk p d) as [[a ks]|e] eqn:Ho; csimpl; [|by apply IH].
  constructor; [|by apply IH]. apply open_address_ok in Ho as [-> _]. contradict Hd.
  apply list_elem_of_fmap in Hd as ([a' ks'] & -> & He).
  apply list_elem_of_omap in He as (d' & Hd' & Ho').
  destruct (open_address tk p d') eqn:Ho''; simplify_eq/=.
  apply open_address_ok in Ho'' as [-> _]. by apply list_elem_of_fmap_2.
Qed.

(** What [address] looks for. *)
Lemma find_address tk p id :
  List.find (fun a => String.eqb (ad_id a) id) (sort_by_key ad_order (map fst (opened tk p))) =
    dto ← find_dto id; fst <$> ok (open_address tk p dto).
Proof.
  destruct (dto ← find_dto id; fst <$> ok (open_address tk p dto)) as [a|] eqn:Hf.
  - apply bind_Some in Hf as (dto & [Hd Hid]%find_dto_some & Ho).
    destruct (open_address tk p dto) as [[a' ks]|] eqn:Ho'; simplify_eq/=.
    apply find_some_iff.
    + rewrite sort_by_key_Permutation, map_map. apply opened_distinct.
    + split; [|by apply open_address_ok in Ho' as [-> _]]. rewrite sort_by_key_Permutation.
      apply list_elem_of_fmap. exists (a, ks). split; [done|]. apply elem_of_opened. eauto.
  - apply find_none_iff. rewrite sort_by_key_Permutation, map_map.
    intros ([a ks] & -> & (dto & Hd & Ho)%elem_of_opened)%list_elem_of_fmap. simpl in *.
    pose proof (open_address_ok _ _ _ _ _ Ho) as [Hid _].
    rewrite (proj2 (find_dto_some (ad_id a) dto)) in Hf by done. simpl in Hf. by rewrite Ho in Hf.
Qed.

Lemma ref_addresses_ok l :
  ref_addresses secret = Ok l ->
  exists p tk active, ref_keys secret = Ok (p, tk, active) /\ l = sort_by_key ad_order (map fst (opened tk p)).
Proof.
  unfold ref_addresses. destruct (ref_keys secret) as [[[p tk] active]|e]; simpl; [|done].
  intros Hl. exists p, tk, active. split; [done|].
  destruct (opened tk p); [destruct (broken tk p)|]; by simplify_eq.
Qed.

(** With the addresses cached, the caches by id are those of the listing. *)
Lemma cached_listing c p tk active :
  coherent c -> is_Some (ca_addresses c) -> ref_keys secret = Ok (p, tk, active) ->
  ca_address_keys c = keys_by_id (opened tk p) /\ ca_failed_addresses c = reasons_by_id (broken tk p) /\
  ca_default_failed c = failed_default p tk.
Proof.
  intros Hc [l Hl] Hr. pose proof (co_addresses _ Hc) as Ha. unfold addresses_coherent in Ha.
  rewrite Hl in Ha. destruct Ha as (p' & tk' & (active' & Hr' & _) & _ & ? & ? & ?).
  rewrite Hr in Hr'. by injection Hr' as <- <- <-.
Qed.

(** A call that loads the addresses and goes on with their caches. *)
Lemma after_addresses {A} (k : list Address -> Call A) (v : list Address -> Res A) :
  (forall l, ref_addresses secret = Ok l -> yields (fun c => is_Some (ca_addresses c)) (k l) (v l) (fun _ => True)) ->
  yields (fun _ => True) (let* l := addresses in k l) (result_bind (ref_addresses secret) v) (fun _ => True).
Proof.
  intros Hk. eapply yields_bind with (R := fun c => is_Some (ca_addresses c)); [|exact Hk|done].
  apply addresses_yields.
Qed.

Lemma yields_fail {A} P e : yields (A := A) P (mfail e) (Err e) (fun _ => True).
Proof. intros c Hc _. simpl. auto. Qed.

Lemma yields_done {A} P a : yields (A := A) P (mret a) (Ok a) (fun _ => True).
Proof. by eapply yields_weaken; [apply yields_ret|..]. Qed.

(** The reason given for an id that is not among the addresses that opened. *)
Lemma missing_reason tk p id missing :
  match reasons_by_id (broken tk p) !! id with
  | Some reason => invalid_operation reason
  | None => missing
  end =
  match find_dto id with
  | Some dto => match open_address tk p dto with Err e => e | Ok _ => missing end
  | None => missing
  end.
Proof.
  rewrite reasons_by_id_lookup. destruct (find_dto id) as [dto|]; simpl; [|done].
  destruct (open_address tk p dto) eqn:Ho; simpl; [done|]. by rewrite (open_address_err _ _ _ _ Ho).
Qed.

Lemma address_yields id :
  yields (fun _ => True) (address id) (ref_of_address secret id "no address " (fun a _ => a)) (fun _ => True).
Proof.
  unfold ref_of_address, address. generalize (invalid_operation ("no address " +:+ id)). intros missing.
  apply after_addresses. intros l (p & tk & active & Hr & ->)%ref_addresses_ok.
  rewrite Hr. cbn [result_bind]. fold (find_dto id). rewrite find_address. pose proof (missing_reason tk p id missing) as Hmiss.
  destruct (find_dto id) as [dto|]; [simpl; destruct (open_address tk p dto) as [[a ks]|e]|]; simpl;
    [apply yields_done|..]; apply yields_cache; intros c Hc Hs;
    destruct (cached_listing _ _ _ _ Hc Hs Hr) as (_ & -> & _); rewrite Hmiss; apply yields_fail.
Qed.

Lemma address_private_keys_yields id :
  yields (fun _ => True) (address_private_keys id)
    (ref_of_address secret id "no keys for address " (fun _ keys => keys)) (fun _ => True).
Proof.
  unfold ref_of_address, address_private_keys. generalize (invalid_operation ("no keys for address " +:+ id)). intros missing.
  apply yields_cache. intros c0 Hc _.
  destruct (ca_address_keys c0 !! id) as [ks|] eqn:Hk.
  - pose proof (co_addresses _ Hc) as Ha. unfold addresses_coherent in Ha.
    destruct (ca_addresses c0) as [l|]; [|destruct Ha as [Ha _]; by rewrite Ha, lookup_empty in Hk].
    destruct Ha as (p & tk & (active & Hr & _) & Hl & Hks & _). rewrite Hks, keys_by_id_lookup in Hk.
    rewrite Hl, Hr. cbn [result_bind]. fold (find_dto id).
    apply bind_Some in Hk as (dto & -> & Ho).
    destruct (open_address tk p dto) as [[a ks']|e]; simplify_eq/=. apply yields_done.
  - apply (yields_weaken (fun _ => True) _ (fun _ => True)); [|done..]. apply after_addresses.
    intros l (p & tk & active & Hr & ->)%ref_addresses_ok. rewrite Hr. cbn [result_bind]. fold (find_dto id).
    apply yields_cache. intros c Hc1 Hs. destruct (cached_listing _ _ _ _ Hc1 Hs Hr) as (-> & -> & _).
    rewrite keys_by_id_lookup, missing_reason.
    destruct (find_dto id) as [dto|]; simpl; [|apply yields_fail].
    destruct (open_address tk p dto) as [[a ks]|e]; simpl; [apply yields_done|apply yields_fail].
Qed.

Lemma find_dto_listed dto : dto ∈ dtos -> find_dto (dt_id dto) = Some dto.
Proof. intros. by apply find_dto_some. Qed.

Lemma default_address_yields :
  yields (fun _ => True) default_address (ref_default secret) (fun _ => True).
Proof.
  apply after_addresses. intros l Hl. pose proof Hl as (p & tk & active & Hr & ->)%ref_addresses_ok.
  rewrite Hr. cbn [result_bind]. apply yields_cache. intros c Hc Hs.
  destruct (cached_listing _ _ _ _ Hc Hs Hr) as (_ & _ & ->). unfold failed_default.
  destruct (min_by_key dt_order dtos) as [dto|] eqn:Hmin; simpl.
  - pose proof (min_by_key_Some _ _ _ Hmin) as [Hd _].
    rewrite reasons_by_id_lookup, find_dto_listed by done. simpl.
    destruct (open_address tk p dto) as [[a ks]|e] eqn:Ho; simpl.
    + rewrite <- min_by_key_head.
      assert (map fst (opened tk p) = omap (fun dto => fst <$> ok (open_address tk p dto)) dtos) as ->.
      { unfold opened. clear. induction dtos as [|d ds IH]; csimpl; [done|].
        destruct (open_address tk p d) as [[a ks]|e]; simpl; [by f_equal|done]. }
      erewrite min_by_key_omap; [|clear|exact Hmin|by rewrite Ho].
      * apply yields_done.
      * intros d b. destruct (open_address tk p d) as [[a' ks']|e] eqn:Ho'; [|done]. intros [= ->].
        by apply open_address_ok in Ho' as (_ & ? & _).
    + rewrite (open_address_err _ _ _ _ Ho). apply yields_fail.
  - assert (opened tk p = []) as ->; [|apply yields_fail].
    unfold opened. destruct dtos as [|d ds]; [done|]. rewrite min_by_key_cons in Hmin.
    by destruct (min_by_key _ ds); [destruct (_ <=? _)|].
Qed.

Lemma unlock_yields :
  yields (fun _ => True) unlock (result_map (fun _ => tt) (ref_keys secret)) (fun _ => True).
Proof.
  assert (result_map (fun _ => tt) (ref_keys secret) =
          let? _ := result_map snd (ref_keys secret) in Ok tt) as -> by (by destruct (ref_keys secret)).
  eapply yields_bind with (R := fun _ => True); [|by intros; apply yields_done|done].
  by eapply yields_weaken; [apply user_keys_yields|..].
Qed.

Lemma quota_yields :
  yields (fun _ => True) quota
    (Ok {| qu_max_space := us_max_space user; qu_used_space := us_used_space user |}) (fun _ => True).
Proof. eapply yields_request; [apply user_answer|eauto|apply yields_done]. Qed.

Lemma report_user_keys_spec p ds reports active inactive :
  report_user_keys p ds reports active inactive =
    (reports ++ map (report_user_key p) ds, active ++ omap (user_key_opens p true) ds,
     inactive ++ omap (user_key_opens p false) ds).
Proof.
  unfold user_key_opens. revert reports active inactive.
  induction ds as [|d ds IH]; intros reports active inactive; simpl; [by rewrite !app_nil_r|].
  unfold try_user_key.
  destruct (UserKeyDto_is_active d), (KeyPassphrases_get (uk_id d) p) as [ph|]; simpl;
    rewrite ?IH, <- ?app_assoc; try done;
    destruct (key_from_armored (uk_private_key d) ph); simpl; rewrite ?IH, <- ?app_assoc; done.
Qed.

Lemma key_report_yields : yields (fun _ => True) key_report (ref_report secret) (fun _ => True).
Proof.
  eapply yields_bind with (R := fun _ => True).
  - by eapply yields_weaken; [apply key_passphrases_yields|..].
  - intros p Hp. eapply yields_request; [apply user_answer|eauto|].
    rewrite report_user_keys_spec. eapply yields_request; [apply addresses_answer|eauto|]. apply yields_done.
  - done.
Qed.

Lemma cache_public_keys_coherent email keys c :
  coherent c -> coherent (cache_public_keys email keys c).
Proof.
  intros [Hsalts Hpp Huk Had]. split; simpl; [done|done| |].
  - intros active (p & tk & active' & ?)%Huk. by exists p, tk, active'.
  - unfold addresses_coherent in *. simpl. destruct (ca_addresses c); [|done].
    destruct Had as (p' & tk & (active' & ?) & ?). exists p', tk. split; [by exists active'|done].
Qed.

(** [public_keys] answers what was looked up, then or now, and keeps it. *)
Lemma public_keys_answer email c :
  Coherent c ->
  let (r, c') := public_keys email c in
  Coherent c' /\ (live (ac_http c) -> live (ac_http c')) /\
  r = Ok (default (looked_up (ac_http c) email) (ca_public_keys (ac_cache c) !! email)) /\
  ca_public_keys (ac_cache c') = learned (ca_public_keys (ac_cache c)) (ac_http c) (OpPublicKeys email).
Proof.
  intros [Hpw Hc]. unfold public_keys, cache, mbind_ at 1, learned, looked_up.
  destruct (ca_public_keys (ac_cache c) !! email) as [keys|] eqn:Hk; [by split_and!|].
  unfold mbind_ at 1, mtry, request. pose proof (key_ring_answer (public_keys_path email) (ac_http c)) as Ha.
  destruct (get_public_key_list _ _) as [[entries|e] w]; simpl.
  - destruct Ha as [-> Hl]. split_and!; [|done..]. split; [done|]. by apply cache_public_keys_coherent.
  - split_and!; [|done..]. split; [done|]. by apply cache_public_keys_coherent.
Qed.

(** *** Sequences *)

Lemma yields_mmap {A B} P (f : A -> B) (m : Call A) v Q :
  yields P m v Q -> yields P (mmap f m) (result_map f v) (fun _ => True).
Proof.
  intros Hm. assert (result_map f v = let? a := v in Ok (f a)) as -> by done.
  eapply yields_bind with (R := fun _ => True); [|by intros; apply yields_done|done].
  by eapply yields_weaken; [exact Hm|..].
Qed.

Lemma yields_specified {A} (m : Call A) v Q c :
  yields (fun _ => True) m v Q -> Coherent c ->
  let (r, c') := m c in
  Coherent c' /\ (live (ac_http c) -> live (ac_http c')) /\
  (r = v \/ exists e, r = Err e /\ refused e /\ ~ live (ac_http c)).
Proof. intros Hm Hc. specialize (Hm c Hc I). destruct (m c). naive_solver. Qed.

Definition is_public_keys (o : Operation) : bool := match o with OpPublicKeys _ => true | _ => false end.

(** The other calls leave the public keys alone. *)
Lemma keeps_public_keys o x :
  (forall email, o <> OpPublicKeys email) ->
  keeps (fun c : AccountClient W Key PubKey => ca_public_keys (ac_cache c) = x) (fun _ => True) (perform o).
Proof.
  assert (keeps (fun c : AccountClient W Key PubKey => ca_public_keys (ac_cache c) = x) (fun _ => True) key_salts) as Hks
    by (unfold key_salts; repeat keeps_step).
  assert (keeps (fun c : AccountClient W Key PubKey => ca_public_keys (ac_cache c) = x) (fun _ => True) key_passphrases) as Hkp
    by (unfold key_passphrases; repeat keeps_step).
  assert (keeps (fun c : AccountClient W Key PubKey => ca_public_keys (ac_cache c) = x) (fun _ => True) user_keys) as Huk
    by (unfold user_keys; repeat keeps_step).
  assert (keeps (fun c : AccountClient W Key PubKey => ca_public_keys (ac_cache c) = x) (fun _ => True) token_keys) as Htk
    by (unfold token_keys; repeat keeps_step).
  assert (Hds : forall l adds failed first_error,
    keeps (fun c : AccountClient W Key PubKey => ca_public_keys (ac_cache c) = x) (fun _ => True)
      (decrypt_addresses l adds failed first_error)).
  { induction l as [|dto l IH]; intros adds failed first_error; simpl; [by apply keeps_ret|].
    eapply keeps_bind with (R := fun _ => True).
    - assert (keeps (fun c : AccountClient W Key PubKey => ca_public_keys (ac_cache c) = x) (fun _ => True)
        (decrypt_address dto)) as Hd.
      { unfold decrypt_address. repeat keeps_step. intros c Hc. simpl. by destruct (open_address _ _ _). }
      intros c Hc. specialize (Hd c Hc). unfold mtry. destruct (decrypt_address dto c). by destruct Hd.
    - intros [[a keys]|e] _; repeat first [keeps_step|apply IH]. }
  assert (keeps (fun c : AccountClient W Key PubKey => ca_public_keys (ac_cache c) = x) (fun _ => True) addresses) as Has.
  { unfold addresses. repeat first [keeps_step|eapply keeps_bind; [apply Hds|intros ? _]]. }
  intros Ho. destruct o as [| | | |id| |id|email| |]; simpl; unfold mmap;
    (eapply (keeps_bind _ (fun _ => True)); [|intros ? _; by apply keeps_ret]).
  all: try done.
  - unfold unlock. repeat keeps_step.
  - unfold address. repeat keeps_step.
  - unfold default_address. repeat keeps_step. intros c Hc. simpl. by destruct (ok_or _ _).
  - unfold address_private_keys. repeat keeps_step.
  - by destruct (Ho email).
  - unfold quota. repeat keeps_step.
  - unfold key_report. repeat keeps_step.
Qed.

Lemma perform_specified o c :
  Coherent c -> (forall email, o <> OpPublicKeys email) ->
  let (r, c') := perform o c in
  Coherent c' /\ (live (ac_http c) -> live (ac_http c')) /\
  (specified secret (ca_public_keys (ac_cache c)) (ac_http c) o r \/ excused (ac_http c) o r).
Proof.
  intros Hc Ho. destruct o; simpl.
  - apply (yields_specified _ _ _ _ (yields_mmap _ _ _ _ _ key_salts_yields) Hc).
  - apply (yields_specified _ _ _ _ (yields_mmap _ _ _ _ _ key_passphrases_yields) Hc).
  - assert (result_map (fun _ => AnUnit) (ref_keys secret) =
      result_map (fun _ : unit => AnUnit (Key := Key) (PubKey := PubKey)) (result_map (fun _ => tt) (ref_keys secret)))
      as -> by (by destruct (ref_keys secret)).
    apply (yields_specified _ _ _ _ (yields_mmap _ _ _ _ _ unlock_yields) Hc).
  - apply (yields_specified _ _ _ _ (yields_mmap _ _ _ _ _ addresses_yields) Hc).
  - apply (yields_specified _ _ _ _ (yields_mmap _ _ _ _ _ (address_yields _)) Hc).
  - apply (yields_specified _ _ _ _ (yields_mmap _ _ _ _ _ default_address_yields) Hc).
  - apply (yields_specified _ _ _ _ (yields_mmap _ _ _ _ _ (address_private_keys_yields _)) Hc).
  - by destruct (Ho email).
  - apply (yields_specified _ _ _ _ (yields_mmap _ _ _ _ _ quota_yields) Hc).
  - apply (yields_specified _ _ _ _ (yields_mmap _ _ _ _ _ key_report_yields) Hc).
Qed.

Lemma perform_step o c :
  Coherent c ->
  let (r, c') := perform o c in
  Coherent c' /\ (specified secret (ca_public_keys (ac_cache c)) (ac_http c) o r \/ excused (ac_http c) o r) /\
  ca_public_keys (ac_cache c') = learned (ca_public_keys (ac_cache c)) (ac_http c) o.
Proof.
  intros Hc. destruct (is_public_keys o) eqn:Ho.
  - destruct o as [| | | | | | |email| |]; try done. simpl. unfold mmap, mbind_.
    pose proof (public_keys_answer email c Hc) as Hp. destruct (public_keys email c) as [r c'].
    destruct Hp as (? & _ & -> & ?). simpl. auto.
  - assert (forall email, o <> OpPublicKeys email) as Hne by (by intros email ->).
    pose proof (perform_specified o c Hc Hne) as Hs.
    pose proof (keeps_public_keys o _ Hne c eq_refl) as Hk.
    destruct (perform o c) as [r c']. destruct Hs as (? & _ & ?), Hk as [Hk _]. simpl in Hk.
    split_and!; [done..|]. rewrite Hk. by destruct o.
Qed.

(** A client as one of the constructors makes it, of [secret]. *)
Inductive started : AccountClient W Key PubKey -> Prop :=
| started_new w :
    secret = passphrases_of_salts password salts KeyPassphrases_new ->
    started (AccountClient_new w password)
| started_with_key_salts w :
    secret = passphrases_of_salts password salts KeyPassphrases_new ->
    started (with_key_salts w password salts)
| started_with_key_passphrases w passphrases :
    secret = Ok passphrases -> password = EmptyString ->
    started (with_key_passphrases w passphrases).

Lemma started_Coherent c : started c -> Coherent c.
Proof.
  assert (forall f : Cache Key PubKey -> Cache Key PubKey, f = id \/ (exists s, f = cache_key_salts s) \/
    (exists p, f = cache_key_passphrases p) -> addresses_coherent (f Cache_default)) as Ha.
  { intros f [-> |[[s ->]|[p ->]]]; by unfold addresses_coherent. }
  intros [w Hs|w Hs|w p Hs Hp]; (split; [done|split]); simpl; try done.
  all: first [by apply (Ha id); auto|by intros s [= <-]|by apply Ha; eauto|idtac].
Qed.

Lemma perform_all_sound ops c :
  Coherent c ->
  let (rs, c') := perform_all ops c in
  Coherent c' /\ conforms secret (ca_public_keys (ac_cache c)) ops c rs.
Proof.
  revert c. induction ops as [|o ops IH]; intros c Hc; simpl; [done|].
  pose proof (perform_step o c Hc) as Hs. destruct (perform o c) as [r c1] eqn:Hp.
  destruct Hs as (Hc1 & Ho & Hk). specialize (IH c1 Hc1).
  destruct (perform_all ops c1) as [rs c2]. destruct IH as (Hc2 & Hall).
  rewrite <- Hk. by split_and!.
Qed.

Lemma started_knows_none c : started c -> ca_public_keys (ac_cache c) = ∅.
Proof. by intros []. Qed.

Lemma reached_Coherent ops c : started c -> Coherent (perform_all ops c).2.
Proof.
  intros Hs%started_Coherent. pose proof (perform_all_sound ops c Hs) as Hp.
  destruct (perform_all ops c). apply Hp.
Qed.

Lemma yields_Ok_inv {A} (m : Call A) v Q c a c' :
  yields (fun _ => True) m v Q -> Coherent c -> m c = (Ok a, c') -> v = Ok a /\ Coherent c' /\ Q (ac_cache c').
Proof.
  intros Hm Hc Heq. specialize (Hm c Hc I). rewrite Heq in Hm.
  destruct Hm as (? & _ & [[-> ?]|(e & ? & _)]); [done|done].
Qed.

(** What a client hands out is usable: the listing is sorted, and each address's
    keys are at hand with the primary one where the address says. *)
Lemma listed_address_usable c l c' a :
  Coherent c -> addresses c = (Ok l, c') -> a ∈ l ->
  exists p tk active dto k keys key,
    ref_keys secret = Ok (p, tk, active) /\ address_private_keys (ad_id a) c' = (Ok keys, c') /\
    keys !! ad_primary_key_index a = Some key /\ dto ∈ dtos /\ dt_id dto = ad_id a /\ k ∈ dt_keys dto /\
    ak_id k = ad_primary_key_id a /\ AddressKeyDto_is_active k = true /\
    AddressKeyDto_is_primary k = true /\ address_key_opens tk p k = Some key.
Proof.
  intros Hc Ha Hin. destruct (yields_Ok_inv _ _ _ _ _ _ addresses_yields Hc Ha) as (Hl & Hc' & Hs).
  pose proof Hl as (p & tk & active & Hr & ->)%ref_addresses_ok. rewrite Hl in Hs. specialize (Hs eq_refl).
  rewrite sort_by_key_Permutation in Hin.
  apply list_elem_of_fmap in Hin as ([a' keys] & -> & (dto & Hd & Ho)%elem_of_opened). simpl.
  pose proof (open_address_ok _ _ _ _ _ Ho) as (Hid & _ & _ & k & key & ? & ? & ? & ? & ? & ?).
  exists p, tk, active, dto, k, keys, key. split_and!; try done.
  destruct (cached_listing _ _ _ _ (proj2 Hc') Hs Hr) as (Hk & _ & _).
  unfold address_private_keys, mbind_, cache. rewrite Hk, keys_by_id_lookup, Hid, find_dto_listed by done.
  simpl. by rewrite Ho.
Qed.

Lemma report_address_agrees tk p dto :
  is_ok (open_address tk p dto) =
  existsb (fun k => ar_active k && ar_primary k && ar_unlocks k) (rp_keys (report_address tk p dto)).
Proof.
  rewrite open_address_spec. simpl.
  assert (forall n, match first_primary tk p n (dt_keys dto) with Some _ => true | None => false end =
    existsb (fun k => ar_active k && ar_primary k && ar_unlocks k)
      (map (report_address_key (PubKey := PubKey) tk p) (dt_keys dto))) as Hgen.
  { induction (dt_keys dto) as [|k ks IH]; intros n; simpl; [done|].
    unfold address_key_opens at 1. destruct (AddressKeyDto_is_active k); simpl; [|apply IH].
    destruct (address_key_passphrase tk p k) as [ph|e]; simpl; [|by rewrite andb_false_r; apply IH].
    destruct (key_from_armored (ak_private_key k) ph) as [key|e]; simpl; [|by rewrite andb_false_r; apply IH].
    rewrite andb_true_r. by destruct (AddressKeyDto_is_primary k); [|apply IH]. }
  rewrite <- (Hgen 0%nat). by destruct (first_primary _ _ _ _) as [[i id]|].
Qed.
End Answers.

(** ** The client's contract *)

Section Contract.
Context {W Key PubKey : Type} `{KeyOps Key} `{PassphraseOps} `{AccountApi W} `{ArmoredOps PubKey}.
Context (salts : list KeySalt) (user : UserDto) (dtos : list AddressDto)
        (key_ring : string -> list PublicKeyEntry).

(** C16: Whatever the sequence of calls on a new client, each answer is the one
    the server's data and the client's secret determine; a call may instead hand
    over the error of a request, and does so only when requests were failing at
    that very call, so a failure is not remembered.  The public keys of an address
    are the exception that the code makes: no lookup of them is an error, and the
    first one of an address decides what all later ones answer - the usable keys
    of the server's ring, or none if the request of that first lookup failed. *)
Theorem account_answers live secret password ops (c : AccountClient W Key PubKey) :
  AccountServer salts user dtos key_ring live ->
  started salts secret password c ->
  conforms salts user dtos key_ring live secret ∅ ops c (perform_all ops c).1.
Proof.
  intros Hs Hst. pose proof (started_Coherent salts user dtos _ _ _ Hst) as Hc.
  rewrite <- (started_knows_none _ _ _ _ Hst).
  pose proof (perform_all_sound salts user dtos key_ring live secret password ops c Hc) as Hp.
  destruct (perform_all ops c). apply Hp.
Qed.

(** An address that a client lists is usable: its keys are at hand without a
    request, and its primary key index points at the key of the active, primary
    address key whose id it carries. *)
Theorem listed_addresses_usable live secret password ops (c c1 : AccountClient W Key PubKey) l a :
  AccountServer salts user dtos key_ring live ->
  started salts secret password c ->
  addresses (perform_all ops c).2 = (Ok l, c1) -> a ∈ l ->
  exists keys key dto k passphrases token_keys,
    address_private_keys (ad_id a) c1 = (Ok keys, c1) /\ keys !! ad_primary_key_index a = Some key /\
    dto ∈ dtos /\ dt_id dto = ad_id a /\ k ∈ dt_keys dto /\ ak_id k = ad_primary_key_id a /\
    AddressKeyDto_is_active k = true /\ AddressKeyDto_is_primary k = true /\
    address_key_opens token_keys passphrases k = Some key.
Proof.
  intros Hs Hc Ha Hin.
  pose proof (reached_Coherent salts user dtos key_ring live secret password ops c Hc) as Hr.
  destruct (listed_address_usable salts user dtos key_ring live secret password _ _ _ _ Hr Ha Hin)
    as (p & tk & active & dto & k & keys & key & _ & ?).
  exists keys, key, dto, k, p, tk. naive_solver.
Qed.

(** The default address is the first of the server's least order, or an
    error: an address that does not open is never replaced by the next one. *)
Theorem default_never_substituted live secret password ops (c c1 : AccountClient W Key PubKey) a :
  AccountServer salts user dtos key_ring live ->
  started salts secret password c ->
  default_address (perform_all ops c).2 = (Ok a, c1) ->
  exists dto, min_by_key dt_order dtos = Some dto /\ ad_id a = dt_id dto /\ ad_email a = dt_email dto.
Proof.
  intros Hs Hc Ha.
  pose proof (reached_Coherent salts user dtos key_ring live secret password ops c Hc) as Hr.
  destruct (yields_Ok_inv _ _ _ _ _ _ _ _ _ _ _ _
              (default_address_yields salts user dtos key_ring live secret password) Hr Ha) as (Hd & _).
  unfold ref_default in Hd. destruct (ref_addresses _ _ _) as [l|]; [|done]. simpl in Hd.
  destruct (ref_keys _ _) as [[[p tk] active]|]; [|done]. simpl in Hd.
  destruct (min_by_key dt_order dtos) as [dto|]; [|done]. exists dto. split; [done|].
  destruct (open_address tk p dto) as [[a' ks]|] eqn:Ho; simplify_eq/=.
  by apply open_address_ok in Ho as (? & _ & ? & _).
Qed.

(** The key report and the unlock path agree: an address of the report is
    listed by [addresses] exactly when the report shows an active primary key of
    it that unlocks. *)
Theorem report_agrees_with_unlock live secret password ops (c c1 c2 : AccountClient W Key PubKey) report l :
  AccountServer salts user dtos key_ring live ->
  started salts secret password c ->
  key_report (perform_all ops c).2 = (Ok report, c1) -> addresses c1 = (Ok l, c2) ->
  map rp_id (kr_addresses report) = map dt_id dtos /\
  forall r, r ∈ kr_addresses report ->
    (exists a, a ∈ l /\ ad_id a = rp_id r) <->
    existsb (fun k => ar_active k && ar_primary k && ar_unlocks k) (rp_keys r) = true.
Proof.
  intros Hs Hc Hk Ha.
  pose proof (reached_Coherent salts user dtos key_ring live secret password ops c Hc) as Hr.
  destruct (yields_Ok_inv _ _ _ _ _ _ _ _ _ _ _ _
              (key_report_yields salts user dtos key_ring live secret password) Hr Hk) as (Hrep & Hc1 & _).
  destruct (yields_Ok_inv _ _ _ _ _ _ _ _ _ _ _ _
              (addresses_yields salts user dtos key_ring live secret password) Hc1 Ha) as (Hl & _).
  apply ref_addresses_ok in Hl as (p & tk & active & Hkeys & ->).
  pose proof (ref_keys_secret _ _ _ _ _ Hkeys) as Hsec.
  assert (tk = omap (user_key_opens p true) (us_keys user) ++ omap (user_key_opens p false) (us_keys user)) as Htk.
  { rewrite Hsec in Hkeys. unfold ref_keys in Hkeys. simpl in Hkeys.
    destruct (Nat.eqb _ _); [done|]. by injection Hkeys. }
  rewrite Hsec in Hrep. unfold ref_report in Hrep. simpl in Hrep. rewrite <- Htk in Hrep.
  injection Hrep as <-. simpl. split; [by rewrite map_map|].
  intros r (dto & -> & Hd)%list_elem_of_fmap. rewrite <- report_address_agrees. simpl. split.
  - intros (a & Hin & Hid). rewrite sort_by_key_Permutation in Hin.
    apply list_elem_of_fmap in Hin as ([a' ks] & -> & (d & Hd' & Ho)%elem_of_opened). simpl in Hid.
    pose proof (open_address_ok _ _ _ _ _ Ho) as [Hid' _].
    assert (d = dto) as ->; [|by rewrite Ho].
    apply (inj Some). rewrite <- (find_dto_listed salts user dtos key_ring live d Hd').
    by rewrite <- Hid', Hid, (find_dto_listed salts user dtos key_ring live dto Hd).
  - destruct (open_address tk p dto) as [[a ks]|] eqn:Ho; [|done]. intros _. exists a.
    split; [|by apply open_address_ok in Ho as [? _]]. rewrite sort_by_key_Permutation.
    apply list_elem_of_fmap. exists (a, ks). split; [done|]. apply elem_of_opened. eauto.
Qed.
End Contract.

(** ** A small account *)

#[local] Instance toy_account_keys : KeyOps string := {
  decrypt_armored_message key armored :=
    match Str.split_once "|" armored with
    | Some (to, text) => if String.eqb to key then Ok text else Err (CDecrypt "missing key")
    | None => Err (CParse "not a message")
    end;
  key_from_armored armored passphrase :=
    if String.eqb armored passphrase then Ok armored else Err (CUnlock "wrong passphrase");
  utf8_text := Ok
}.

#[local] Instance toy_passphrase_ops : PassphraseOps := {
  bcrypt_hash password cost salt := Ok (salt +:+ "-------------" +:+ password);
  base64_standard_decode := Ok
}.

#[local] Instance toy_armored_ops : ArmoredOps string := {
  public_key_from_armored := Ok;
  key_ids armored := Ok [armored];
  recipients armored := Ok [fst <$> Str.split_once "|" armored]
}.

(** The world says which of the next requests succeed; past its end all do. *)
Definition toy_answer {A} (v : A) : M (list bool) A ProtonError := fun w =>
  match w with
  | false :: w => (Err (InvalidOperation "offline"), w)
  | true :: w => (Ok v, w)
  | [] => (Ok v, [])
  end.

Definition toy_salts : list KeySalt := [
  {| st_key_id := "key-1"; st_value := Some "0123456789abcdef" |};
  {| st_key_id := "key-2"; st_value := None |} ].

Definition toy_user : UserDto := {|
  us_id := "user"; us_max_space := 100; us_used_space := 40;
  us_keys := [ {| uk_id := "key-1"; uk_private_key := "u1"; uk_primary := 1; uk_active := 1 |};
               {| uk_id := "key-2"; uk_private_key := "u2"; uk_primary := 0; uk_active := 0 |} ] |}.

Definition toy_address_key (id armored token : string) (primary : Z) : AddressKeyDto := {|
  ak_id := id; ak_private_key := armored; ak_token := Some token; ak_signature := Some "sig";
  ak_primary := primary; ak_active := 1 |}.

Definition toy_address (id email : string) (order : Z) (keys : list AddressKeyDto) : AddressDto := {|
  dt_id := id; dt_email := email; dt_status := 1; dt_order := order; dt_keys := keys |}.

Definition toy_dtos : list AddressDto := [
  toy_address "late" "late@x" 3 [toy_address_key "lk" "l" "u1|l" 1];
  toy_address "main" "main@x" 1 [toy_address_key "k0" "m0" "u1|m0" 0; toy_address_key "k1" "m1" "u2|m1" 1];
  toy_address "old" "old@x" 2 [toy_address_key "ok" "o" "lost|o" 1] ].

Definition toy_ring (path : string) : list PublicKeyEntry :=
  [ {| pe_flags := 3; pe_public_key := "pub" |}; {| pe_flags := 2; pe_public_key := "leaked" |} ].

#[local] Instance toy_api : AccountApi (list bool) := {
  get_key_salts _ := toy_answer toy_salts;
  get_user _ := toy_answer toy_user;
  get_addresses _ := toy_answer toy_dtos;
  get_public_key_list path := toy_answer (toy_ring path)
}.

Definition toy_live (w : list bool) : Prop := Forall (fun b => b = true) w.

Definition toy_passphrases : KeyPassphrases := KeyPassphrases_from_iter [("key-1", "u1"); ("key-2", "u2")].

Lemma toy_server : AccountServer toy_salts toy_user toy_dtos toy_ring toy_live.
Proof.
  assert (forall A (v : A), answers toy_live (toy_answer v) v) as Ha.
  { intros A v [|[] w]; simpl; unfold toy_live; rewrite ?Forall_cons; naive_solver. }
  split; intros; try apply Ha. by apply (bool_decide_unpack _).
Qed.

Definition toy_client (w : list bool) : AccountClient (list bool) string string :=
  with_key_passphrases w toy_passphrases.

Lemma toy_started w : started (W := list bool) (PubKey := string) toy_salts (Ok toy_passphrases) "" (toy_client w).
Proof. by apply started_with_key_passphrases. Qed.

Definition toy_history : list Operation := [OpDefaultAddress; OpUnlock; OpAddress "old"; OpPublicKeys "x"].

(** A request refused, an address that does not open, and the default one. *)
Example toy_run :
  (perform_all (toy_history ++ [OpAddresses; OpDefaultAddress]) (toy_client [false; true; true; true])).1 =
  [ Err (InvalidOperation "offline"); Ok AnUnit; Err (InvalidOperation "address old has no primary key");
    Ok (AnPublicKeys ["pub"]);
    Ok (AnAddresses [ {| ad_id := "main"; ad_email := "main@x"; ad_order := 1; ad_status := 1;
                         ad_primary_key_index := 1; ad_primary_key_id := "k1" |};
                      {| ad_id := "late"; ad_email := "late@x"; ad_order := 3; ad_status := 1;
                         ad_primary_key_index := 0; ad_primary_key_id := "lk" |} ]);
    Ok (AnAddress {| ad_id := "main"; ad_email := "main@x"; ad_order := 1; ad_status := 1;
                     ad_primary_key_index := 1; ad_primary_key_id := "k1" |}) ].
Proof. vm_compute. reflexivity. Qed.

(** A lookup that failed is remembered as no keys; the next address has its own. *)
Example toy_failed_lookup :
  (perform_all [OpPublicKeys "x"; OpPublicKeys "x"; OpPublicKeys "y"; OpPublicKeys "y"]
     (toy_client [false; true; false])).1 =
  [Ok (AnPublicKeys []); Ok (AnPublicKeys []); Ok (AnPublicKeys ["pub"]); Ok (AnPublicKeys ["pub"])].
Proof. vm_compute. reflexivity. Qed.

Lemma account_answers_witness :
  conforms toy_salts toy_user toy_dtos toy_ring toy_live (Ok toy_passphrases) ∅ toy_history
    (toy_client [false; true]) (perform_all toy_history (toy_client [false; true])).1.
Proof.
  exact (account_answers toy_salts toy_user toy_dtos toy_ring toy_live _ _ toy_history _ toy_server
           (toy_started [false; true])).
Defined.

Definition toy_main : Address := {|
  ad_id := "main"; ad_email := "main@x"; ad_order := 1; ad_status := 1;
  ad_primary_key_index := 1; ad_primary_key_id := "k1" |}.

Definition toy_listing : list Address := [toy_main;
  {| ad_id := "late"; ad_email := "late@x"; ad_order := 3; ad_status := 1;
     ad_primary_key_index := 0; ad_primary_key_id := "lk" |}].

Lemma listed_addresses_usable_witness :
  exists (c1 : AccountClient (list bool) string string) keys key dto k passphrases token_keys,
    address_private_keys (ad_id toy_main) c1 = (Ok keys, c1) /\
    keys !! ad_primary_key_index toy_main = Some key /\
    dto ∈ toy_dtos /\ dt_id dto = ad_id toy_main /\ k ∈ dt_keys dto /\ ak_id k = ad_primary_key_id toy_main /\
    AddressKeyDto_is_active k = true /\ AddressKeyDto_is_primary k = true /\
    address_key_opens token_keys passphrases k = Some key.
Proof.
  eexists. eapply (listed_addresses_usable toy_salts toy_user toy_dtos toy_ring toy_live _ _ toy_history
    (toy_client [false]) _ toy_listing toy_main toy_server (toy_started [false])).
  - vm_compute. reflexivity.
  - by left.
Defined.

Lemma default_never_substituted_witness :
  exists dto, min_by_key dt_order toy_dtos = Some dto /\ ad_id toy_main = dt_id dto /\
    ad_email toy_main = dt_email dto.
Proof.
  eapply (default_never_substituted toy_salts toy_user toy_dtos toy_ring toy_live _ _ toy_history
    (toy_client [false]) _ toy_main toy_server (toy_started [false])).
  vm_compute. reflexivity.
Defined.

Lemma report_agrees_with_unlock_witness :
  exists report,
  map rp_id (kr_addresses report) = map dt_id toy_dtos /\
  forall r, r ∈ kr_addresses report ->
    (exists a, a ∈ toy_listing /\ ad_id a = rp_id r) <->
    existsb (fun k => ar_active k && ar_primary k && ar_unlocks k) (rp_keys r) = true.
Proof.
  eexists. eapply (report_agrees_with_unlock toy_salts toy_user toy_dtos toy_ring toy_live _ _ toy_history
    (toy_client [false]) _ _ _ toy_listing toy_server (toy_started [false])); vm_compute; reflexivity.
Defined.
