(* ===== verification/SecretFacts.v ===== *)
(** * The key material of [KeyPassphrases::derive_secret]

    The bytes that go into HKDF depend on the passphrases alone, not on the order
    a [HashMap] gives them in, and determine them: no two sets of passphrases
    share their material.  [PartialEq] is equality. *)

From S2P Require Import Prelude Errors Config Keys Account.

(** ** Big-endian lengths *)

Fixpoint be_read (n : nat) (acc : Z) (s : string) : option (Z * string) :=
  match n with
  | O => Some (acc, s)
  | Datatypes.S n =>
      match s with
      | String a s => be_read n (acc * 256 + Z.of_N (N_of_ascii a)) s
      | EmptyString => None
      end
  end.

Lemma byte_of_value z : Z.of_N (N_of_ascii (byte_of z)) = z mod 256.
Proof.
  unfold byte_of. rewrite N_ascii_embedding; [|pose proof (Z.mod_pos_bound z 256); lia].
  rewrite Z2N.id; [done|]. pose proof (Z.mod_pos_bound z 256). lia.
Qed.

Lemma be_read_last n acc s a t z :
  be_read n acc s = Some (z, String a t) ->
  be_read (Datatypes.S n) acc s = Some (z * 256 + Z.of_N (N_of_ascii a), t).
Proof.
  revert acc s. induction n as [|n IH]; intros acc s.
  - by intros [= -> ->].
  - destruct s as [|b s]; [done|]. intros Hr. apply (IH _ s Hr).
Qed.

Lemma be_read_bytes n acc z rest :
  0 <= z < 256 ^ Z.of_nat n ->
  be_read n acc (be_bytes n z rest) = Some (acc * 256 ^ Z.of_nat n + z, rest).
Proof.
  revert acc z rest. induction n as [|n IH]; intros acc z rest Hz.
  - simpl in *. do 2 f_equal. lia.
  - rewrite Nat2Z.inj_succ, Z.pow_succ_r in * by lia. cbn [be_bytes].
    rewrite (be_read_last n acc _ (byte_of z) rest (acc * 256 ^ Z.of_nat n + z / 256)).
    + rewrite byte_of_value. do 2 f_equal. pose proof (Z.div_mod z 256). lia.
    + apply IH. split; [apply Z.div_pos; lia|]. apply Z.div_lt_upper_bound; lia.
Qed.

Lemma be_bytes_app n z a b : be_bytes n z a +:+ b = be_bytes n z (a +:+ b).
Proof. revert z a. induction n as [|n IH]; intros z a; [done|]. simpl. by rewrite IH. Qed.

(** ** Length-prefixed strings are a prefix code *)

Definition short (s : string) : Prop := Z.of_nat (String.length s) <= u64_max.

Lemma str_app_inj a b x y :
  String.length a = String.length b -> a +:+ x = b +:+ y -> a = b /\ x = y.
Proof.
  revert b. induction a as [|c a IH]; intros [|d b] Hl; try done.
  rewrite !str_app_cons. intros [= -> Heq]. injection Hl as Hl. by destruct (IH b Hl Heq) as [-> ->].
Qed.

Lemma length_prefix_inj a b x y :
  short a -> short b -> length_prefix a +:+ x = length_prefix b +:+ y -> a = b /\ x = y.
Proof.
  unfold short, u64_max, length_prefix. intros Ha Hb Heq. rewrite !be_bytes_app in Heq.
  assert (forall s, Z.of_nat (String.length s) <= 2 ^ 64 - 1 ->
    wrap_u64 (Z.of_nat (String.length s)) = Z.of_nat (String.length s)) as Hw
    by (intros; apply wrap_u64_small; lia).
  rewrite !Hw in Heq by done. apply (f_equal (be_read 8 0)) in Heq.
  rewrite !be_read_bytes in Heq by (simpl; lia). injection Heq as Hl Heq.
  apply str_app_inj; [lia|done].
Qed.

Definition short_entry (e : string * string) : Prop := short e.1 /\ short e.2.

Definition concat_entries (l : list (string * string)) : string :=
  foldr (fun e rest => entry_material e +:+ rest) EmptyString l.

Lemma length_prefix_nonempty a x : length_prefix a +:+ x <> EmptyString.
Proof.
  unfold length_prefix. rewrite be_bytes_app. intros Heq.
  assert (be_read 1 0 (be_bytes 8 (wrap_u64 (Z.of_nat (String.length a))) (a +:+ x)) <> None) as Hn;
    [|by rewrite Heq in Hn].
  clear Heq. generalize (wrap_u64 (Z.of_nat (String.length a))), (a +:+ x). intros z s. simpl. done.
Qed.

Lemma concat_entries_inj k l :
  Forall short_entry k -> Forall short_entry l -> concat_entries k = concat_entries l -> k = l.
Proof.
  intros Hk. revert l. induction Hk as [|[i p] k [Hi Hp] _ IH]; intros [|[j q] l] Hl Heq; [done|..].
  - exfalso. revert Heq. simpl. unfold entry_material. rewrite str_app_assoc. simpl.
    intros Heq. by apply (length_prefix_nonempty j (length_prefix q +:+ concat_entries l)).
  - exfalso. revert Heq. simpl. unfold entry_material. rewrite str_app_assoc. simpl.
    intros Heq. by apply (length_prefix_nonempty i (length_prefix p +:+ concat_entries k)).
  - apply Forall_cons in Hl as [[Hj Hq] Hl]. simpl in *. unfold entry_material in Heq.
    rewrite !str_app_assoc in Heq. simpl in Heq.
    apply length_prefix_inj in Heq as [-> Heq]; [|done..].
    apply length_prefix_inj in Heq as [-> Heq]; [|done..]. by rewrite (IH l Hl Heq).
Qed.

(** ** The order of the entries *)

#[local] Instance id_le_trans : Transitive id_le.
Proof. intros a b c. unfold id_le. apply transitivity. Qed.

#[local] Instance id_le_total : Total id_le.
Proof. intros a b. unfold id_le. apply total, _. Qed.

Lemma sorted_entries_unique k l :
  NoDup k.*1 -> k ≡ₚ l -> merge_sort id_le k = merge_sort id_le l.
Proof.
  intros Hn Hp. apply (StronglySorted_unique_strong id_le).
  - intros a b Ha Hb Hab Hba. rewrite merge_sort_Permutation in Ha, Hb. rewrite <- Hp in Hb.
    assert (a.1 = b.1) as Hid by (unfold id_le in *; by apply (anti_symm String.le)).
    apply list_elem_of_lookup in Ha as [i Hi], Hb as [j Hj].
    assert (i = j) as ->; [|congruence].
    apply (NoDup_lookup k.*1 i j a.1); [done|..]; rewrite list_lookup_fmap, ?Hi, ?Hj; simpl; congruence.
  - apply (StronglySorted_merge_sort _).
  - apply (StronglySorted_merge_sort _).
  - by rewrite !merge_sort_Permutation.
Qed.

(** [PartialEq] for [KeyPassphrases] is equality. *)
Lemma KeyPassphrases_eq_spec p q : KeyPassphrases_eq p q = true <-> p = q.
Proof.
  unfold KeyPassphrases_eq. rewrite andb_true_iff, Nat.eqb_eq, forallb_forall. split.
  - intros [Hs Hall]. apply (map_subseteq_size_eq (M := gmap string)); [|unfold KeyPassphrases in *; lia].
    apply map_subseteq_spec. intros i v Hi.
    specialize (Hall (i, v)). simpl in Hall. rewrite <- list_elem_of_In in Hall.
    specialize (Hall (proj2 (elem_of_map_to_list p i v) Hi)).
    destruct (q !! i) as [w|] eqn:Hw; [|done]. apply String.eqb_eq in Hall. by subst.
  - intros ->. split; [done|]. intros [id v] Hin. rewrite <- list_elem_of_In in Hin.
    apply elem_of_map_to_list in Hin. simpl. destruct (q !! id) as [w|] eqn:Hw.
    + assert (Some w = Some v) as [= ->] by (exact (eq_trans (eq_sym Hw) Hin)). apply String.eqb_refl.
    + by assert (None = Some v) by (exact (eq_trans (eq_sym Hw) Hin)).
Qed.

(** ** The material determines the passphrases *)

Definition short_passphrases (p : KeyPassphrases) : Prop := map_Forall (fun id v => short id /\ short v) p.

Lemma short_entries (p : KeyPassphrases) l : short_passphrases p -> l ≡ₚ map_to_list p -> Forall short_entry (merge_sort id_le l).
Proof.
  intros Hs Hl. rewrite merge_sort_Permutation, Hl. apply Forall_forall. intros [id v] Hin%elem_of_map_to_list.
  by apply (Hs id v).
Qed.

Lemma entries_distinct (p : KeyPassphrases) l : l ≡ₚ map_to_list p -> NoDup l.*1.
Proof. intros ->. apply NoDup_fst_map_to_list. Qed.

(** C17: Two sets of passphrases give the same key material, in whatever order
    their maps list the entries, exactly when they are equal: a secret depends on
    nothing else, and no two sets share one by moving a boundary. *)
Theorem secret_material_determines (p q : KeyPassphrases) k l :
  short_passphrases p -> short_passphrases q -> k ≡ₚ map_to_list p -> l ≡ₚ map_to_list q ->
  secret_material k = secret_material l <-> KeyPassphrases_eq p q = true.
Proof.
  intros Hp Hq Hk Hl. rewrite KeyPassphrases_eq_spec. split.
  - intros Heq%concat_entries_inj; [|by apply (short_entries p)|by apply (short_entries q)].
    apply map_to_list_inj. rewrite <- Hk, <- Hl.
    rewrite <- (merge_sort_Permutation id_le k), Heq. apply merge_sort_Permutation.
  - intros ->. unfold secret_material. f_equal. apply sorted_entries_unique; [by apply (entries_distinct q k)|].
    by rewrite Hk, Hl.
Qed.

Lemma secret_material_determines_witness :
  let p := KeyPassphrases_from_iter [("ab", "c")] in
  let q := KeyPassphrases_from_iter [("a", "bc")] in
  secret_material (map_to_list p) = secret_material (map_to_list q) <-> KeyPassphrases_eq p q = true.
Proof.
  assert (forall a b, short a -> short b -> short_passphrases (KeyPassphrases_from_iter [(a, b)])) as Hs.
  { intros a b Ha Hb. apply map_Forall_insert; [done|]. by split. }
  apply secret_material_determines; [apply Hs; vm_compute; by intros..|done|done].
Defined.
