(* ===== verification/PublicLink.v ===== *)
(** * The public-link client

    From [crates/proton-drive-rs/src/public_link.rs]: the SRP handshake that opens
    someone else's share link, the session that replays it when it expires, and
    the reads a visitor can make - listings, the subtree walk, node keys,
    downloads and thumbnails.

    [Handshake] runs on the world of requests; [Session] is the renewable session
    a revision read uses; [Reader] takes the requests of the session's transport
    as arguments.  What [buffered] starts ahead of time is run in request order,
    the order its results are consumed in. *)

From S2P Require Import Prelude Errors Config Http Srp.
From S2P Require Import Keys Transport Revision Node Names.
From S2P Require Import EntityCache Links LinkCrypto.

(** ** Wire records ([dtos.rs]) *)

Record PublicLinkInfoResponse := {
  pi_version : Z;
  pi_modulus : string;
  pi_server_ephemeral : string;
  pi_url_password_salt : string;
  pi_srp_session : string;
  pi_flags : Z;
  pi_vendor_type : Z
}.

Definition is_custom_password_protected (r : PublicLinkInfoResponse) : bool :=
  Z.land (pi_flags r) 1 =? 1.

Definition is_legacy (r : PublicLinkInfoResponse) : bool :=
  (pi_flags r =? 0) || (pi_flags r =? 1).

Record PublicLinkAuthRequest := {
  pq_client_proof : string;
  pq_client_ephemeral : string;
  pq_srp_session : string
}.

Record PublicLinkShareDto := {
  ps_volume_id : VolumeId;
  ps_link_id : LinkId;
  ps_share_password_salt : string;
  ps_share_key : string;
  ps_share_passphrase : string;
  ps_public_permissions : option Z
}.

Record PublicLinkAuthResponse := {
  pa_server_proof : string;
  pa_uid : string;
  pa_access_token : option string;
  pa_share : PublicLinkShareDto
}.

Record ThumbnailBlock := { tb_thumbnail_id : string; tb_bare_url : string; tb_token : string }.
Record ThumbnailBlockError := { te_thumbnail_id : string; te_error : string }.
Record ThumbnailBlockListResponse := {
  tl_blocks : list ThumbnailBlock;
  tl_errors : list ThumbnailBlockError
}.
Record ThumbnailBlockListRequest := { tq_thumbnail_ids : list string }.

(** ** The handshake *)

Record PublicLinkInfo := {
  pl_is_custom_password_protected : bool;
  pl_is_legacy : bool;
  pl_vendor_type : Z
}.

Record Credentials := {
  cr_config : ProtonClientConfiguration;
  cr_token : string;
  cr_password : string
}.

(** serde_json's half of the handshake, base64's alphabet on bytes, and the
    symmetric decryption of a message by its password. *)
Class PublicLinkCodec := {
  base64_bytes : string -> result (list Z) string;
  bytes_string : list Z -> string;
  decode_link_info : string -> result PublicLinkInfoResponse string;
  encode_link_auth : PublicLinkAuthRequest -> string;
  decode_link_auth : string -> result PublicLinkAuthResponse string;
  decrypt_armored_with_password : string -> string -> result string CryptoError
}.

(** [decode_base64] *)
Definition decode_base64_bytes `{PublicLinkCodec} (value what : string) : Res (list Z) :=
  map_err (fun e => invalid_operation (what +:+ " is not valid base64: " +:+ e)) (base64_bytes value).

(** From [client.rs]: the blocks in memory at once. *)
Definition DEFAULT_MAX_INFLIGHT_BLOCKS : nat := 16.

Section Handshake.
Context {W Key : Type} `{HttpWorld W} `{HttpCodec} `{SrpPrimitives W} `{KeyOps Key}
        `{PassphraseOps} `{PublicLinkCodec}.

(** [AuthOutcome], with the state the new client starts from. *)
Record AuthOutcome := {
  ao_http : ApiHttpClient;
  ao_state : client_state W;
  ao_share_key : Key;
  ao_root_uid : NodeUid;
  ao_public_role : MemberRole
}.

Definition Credentials_info (c : Credentials) (w : W) : Res PublicLinkInfoResponse * W :=
  get_unauthenticated (cr_config c) ("drive/urls/" +:+ cr_token c +:+ "/info") decode_link_info w.

Definition unlock_share_key (c : Credentials) (response : PublicLinkAuthResponse) : Res Key :=
  let? salt := decode_base64_bytes (ps_share_password_salt (pa_share response)) "SharePasswordSalt" in
  let? key_password := map_err Crypto (derive_key_passphrase (cr_password c) (bytes_string salt)) in
  let? passphrase := map_err Crypto
    (decrypt_armored_with_password (ps_share_passphrase (pa_share response)) key_password) in
  map_err Crypto (key_from_armored (ps_share_key (pa_share response)) passphrase).

(** The first half of [auth]: what the link needs, and the proofs for it. *)
Definition prove (bit_length : Z) (fuel : nat) (c : Credentials) (w : W)
  : option (Res (PublicLinkInfoResponse * SrpProofs) * W) :=
  let (info, w) := Credentials_info c w in
  match
    let? info := info in
    if is_legacy info
    then Err (invalid_operation "this public link uses a legacy format that is no longer supported")
    else
      let? url_password_salt := decode_base64_bytes (pi_url_password_salt info) "UrlPasswordSalt" in
      let? server_ephemeral := decode_base64_bytes (pi_server_ephemeral info) "ServerEphemeral" in
      Ok (info, url_password_salt, server_ephemeral)
  with
  | Err e => Some (Err e, w)
  | Ok (info, url_password_salt, server_ephemeral) =>
      match generate_proofs fuel (pi_version info) (string_bytes (cr_password c)) url_password_salt
              (pi_modulus info) server_ephemeral bit_length w with
      | None => None
      | Some (Err e, w) => Some (Err (Crypto e), w)
      | Some (Ok proofs, w) => Some (Ok (info, proofs), w)
      end
  end.

(** The second half: the server's answer is checked before anything is made of it. *)
Definition accept (c : Credentials) (proofs : SrpProofs) (response : PublicLinkAuthResponse) (w : W)
  : Res AuthOutcome :=
  if negb (String.eqb (pa_server_proof response) (base64_encode (expected_server_proof proofs)))
  then Err (invalid_operation "public link server proof did not match; refusing the session")
  else
    let? share_key := unlock_share_key c response in
    let? token := ok_or (pa_access_token response)
      (invalid_operation "public link auth returned no access token") in
    let? (http, state) := ApiHttpClient_new (cr_config c) (pa_uid response)
      {| access_token := token; refresh_token := EmptyString |} w in
    Ok {| ao_http := without_token_refresh (with_base_route "drive/unauth/" http);
          ao_state := state;
          ao_share_key := share_key;
          ao_root_uid := NodeUid_new (ps_volume_id (pa_share response)) (ps_link_id (pa_share response));
          ao_public_role := from_permissions (ps_public_permissions (pa_share response)) |}.

(** [Credentials::auth] for any group size; the code passes [DEFAULT_BIT_LENGTH].
    [None] when drawing the ephemeral ran out of [fuel]. *)
Definition auth_sized (bit_length : Z) (fuel : nat) (c : Credentials) (w : W)
  : option (Res AuthOutcome * W) :=
  match prove bit_length fuel c w with
  | None => None
  | Some (Err e, w) => Some (Err e, w)
  | Some (Ok (info, proofs), w) =>
      let (response, w) := post_unauthenticated (cr_config c)
        ("drive/urls/" +:+ cr_token c +:+ "/auth")
        (encode_link_auth {| pq_client_proof := base64_encode (client_proof proofs);
                             pq_client_ephemeral := base64_encode (client_ephemeral proofs);
                             pq_srp_session := pi_srp_session info |})
        decode_link_auth w in
      Some (let? response := response in accept c proofs response w, w)
  end.

Definition auth (fuel : nat) (c : Credentials) (w : W) : option (Res AuthOutcome * W) :=
  auth_sized DEFAULT_BIT_LENGTH fuel c w.

(** [ProtonDrivePublicLinkClient::info] *)
Definition link_info (config : ProtonClientConfiguration) (url : string) (w : W)
  : Res PublicLinkInfo * W :=
  match parse_public_link_url url with
  | Err e => (Err e, w)
  | Ok (token, password) =>
      let (raw, w) := Credentials_info
        {| cr_config := config; cr_token := token; cr_password := password |} w in
      (let? raw := raw in
       Ok {| pl_is_custom_password_protected := is_custom_password_protected raw;
             pl_is_legacy := is_legacy raw; pl_vendor_type := pi_vendor_type raw |}, w)
  end.

(** The password of [open]: the fragment, and the custom password behind it. *)
Definition link_credentials (config : ProtonClientConfiguration) (url : string)
    (custom_password : option string) : Res Credentials :=
  let? (token, url_password) := parse_public_link_url url in
  let password := match custom_password with
                  | Some custom => if Str.is_empty custom then url_password
                                   else url_password +:+ custom
                  | None => url_password
                  end in
  Ok {| cr_config := config; cr_token := token; cr_password := password |}.

(** ** The renewable session *)

Record PublicLinkSession := {
  pu_credentials : Credentials;
  pu_http : ApiHttpClient;
  pu_state : client_state W;
  pu_generation : Z
}.

(** [PublicLinkSession::open] *)
Definition open_session (fuel : nat) (c : Credentials) (w : W)
  : option (Res (PublicLinkSession * AuthOutcome) * W) :=
  match auth fuel c w with
  | None => None
  | Some (Err e, w) => Some (Err e, w)
  | Some (Ok outcome, w) =>
      Some (Ok ({| pu_credentials := c; pu_http := ao_http outcome; pu_state := ao_state outcome;
                   pu_generation := 0 |}, outcome), w)
  end.

(** [ProtonDrivePublicLinkClient], without the node keys it caches. *)
Record PublicLinkClient := {
  pc_session : PublicLinkSession;
  pc_max_inflight_blocks : nat;
  pc_share_key : Key;
  pc_root_uid : NodeUid;
  pc_public_role : MemberRole
}.

(** [ProtonDrivePublicLinkClient::open] *)
Definition open_link (fuel : nat) (config : ProtonClientConfiguration) (url : string)
    (custom_password : option string) (w : W) : option (Res PublicLinkClient * W) :=
  match link_credentials config url custom_password with
  | Err e => Some (Err e, w)
  | Ok credentials =>
      match open_session fuel credentials w with
      | None => None
      | Some (Err e, w) => Some (Err e, w)
      | Some (Ok (session, auth), w) =>
          Some (Ok {| pc_session := session; pc_max_inflight_blocks := DEFAULT_MAX_INFLIGHT_BLOCKS;
                      pc_share_key := ao_share_key auth; pc_root_uid := ao_root_uid auth;
                      pc_public_role := ao_public_role auth |}, w)
      end
  end.

Definition with_max_inflight_blocks (blocks : nat) (c : PublicLinkClient) : PublicLinkClient :=
  {| pc_session := pc_session c; pc_max_inflight_blocks := Nat.max blocks 1;
     pc_share_key := pc_share_key c; pc_root_uid := pc_root_uid c;
     pc_public_role := pc_public_role c |}.

(** [renew], under the lock that serializes handshakes, for any group size; a
    handshake that runs out of fuel is one that never ends. *)
Definition renew_sized (bit_length : Z) (fuel : nat) (seen : Z) (s : PublicLinkSession)
  : option (Res unit * PublicLinkSession) :=
  if negb (pu_generation s =? seen) then Some (Ok tt, s)
  else
    match auth_sized bit_length fuel (pu_credentials s) (cs_world (pu_state s)) with
    | None => None
    | Some (Err e, w) =>
        Some (Err e, {| pu_credentials := pu_credentials s; pu_http := pu_http s;
                        pu_state := cs_on_world (fun _ => w) (pu_state s);
                        pu_generation := pu_generation s |})
    | Some (Ok outcome, w) =>
        Some (Ok tt, {| pu_credentials := pu_credentials s; pu_http := ao_http outcome;
                        pu_state := cs_on_world (fun _ => w) (ao_state outcome);
                        pu_generation := wrap_u64 (pu_generation s + 1) |})
    end.

Definition renew (fuel : nat) (seen : Z) (s : PublicLinkSession)
  : option (Res unit * PublicLinkSession) :=
  renew_sized DEFAULT_BIT_LENGTH fuel seen s.

(** [refresh_session] *)
Definition refresh_session (fuel : nat) (s : PublicLinkSession)
  : option (Res unit * PublicLinkSession) :=
  renew fuel (pu_generation s) s.

(** [reauth]: the clone shares the session, so it is the client it was cloned from. *)
Definition reauth (fuel : nat) (c : PublicLinkClient) : option (Res unit * PublicLinkClient) :=
  match refresh_session fuel (pc_session c) with
  | None => None
  | Some (r, session) =>
      Some (r, {| pc_session := session; pc_max_inflight_blocks := pc_max_inflight_blocks c;
                  pc_share_key := pc_share_key c; pc_root_uid := pc_root_uid c;
                  pc_public_role := pc_public_role c |})
  end.
End Handshake.
Arguments AuthOutcome : clear implicits.
Arguments PublicLinkSession : clear implicits.
Arguments PublicLinkClient : clear implicits.

(** ** Reading the shared subtree *)

(** [group_by_volume]: the volumes in first-seen order, and the ids of each. *)
Fixpoint volume_groups (uids : list NodeUid) (order : list VolumeId)
    (groups : gmap VolumeId (list LinkId)) : list VolumeId * gmap VolumeId (list LinkId) :=
  match uids with
  | [] => (order, groups)
  | uid :: uids =>
      match groups !! volume_id uid with
      | Some ids => volume_groups uids order (<[volume_id uid := ids ++ [link_id uid]]> groups)
      | None => volume_groups uids (order ++ [volume_id uid]) (<[volume_id uid := [link_id uid]]> groups)
      end
  end.

Definition group_by_volume (uids : list NodeUid) : list (VolumeId * list LinkId) :=
  let (order, groups) := volume_groups uids [] ∅ in
  (fun volume_id => (volume_id, default [] (groups !! volume_id))) <$> order.

Record FileThumbnail := { ft_file_uid : NodeUid; ft_result : Res string }.

Definition MAX_THUMBNAIL_IDS_PER_REQUEST : nat := 30.

Section Reader.
Context {S Key CKey : Type} `{KeyOps Key} `{KeyStore S Key} `{ContentOps Key CKey}
        `{AttributeOps} `{PassphraseOps}.
(** The session's transport. *)
Context (get_children : string -> M S FolderChildrenResponse ProtonError).
Context (post_links : string -> LinkDetailsRequest -> M S LinkDetailsResponse ProtonError).
Context (list_blocks : NodeUid -> string -> FM S (RevisionDto * list BlockDto) ProtonError).
Context (post_thumbnails : string -> ThumbnailBlockListRequest -> M S ThumbnailBlockListResponse ProtonError).
Context (get_blob : string -> string -> M S string ProtonError).
(** The link: its share key and the shared node. *)
Context (share_key : Key) (root_uid : NodeUid).

(** *** Listings *)

Definition enumerate_folder_children_node_uids (fuel : nat) (folder_uid : NodeUid)
  : FM S (list NodeUid) ProtonError :=
  children_pages get_children fuel folder_uid [] None.

Definition fetch_link_details (volume_id : VolumeId) (link_ids : list LinkId)
  : M S LinkDetailsResponse ProtonError :=
  post_links ("v2/volumes/" +:+ volume_id +:+ "/links") {| lq_link_ids := link_ids |}.

Definition link_details (uid : NodeUid) : M S LinkDetailsDto ProtonError :=
  let* response := fetch_link_details (volume_id uid) [link_id uid] in
  mlift (ok_or (head (lr_links response))
           (invalid_operation ("node " +:+ NodeUid_display uid +:+ " was not found"))).

(** *** Node keys *)

Definition no_parent : ProtonError :=
  invalid_operation "node has no parent and is not the shared root".

(** Up: the key of the nearest cached ancestor or of the shared root, and the
    chain below it, nearest to it first.  The fuel bounds the depth. *)
Fixpoint climb (fuel : nat) (cursor : NodeUid) (chain : list LinkDetailsDto)
  : FM S (Key * list LinkDetailsDto) ProtonError :=
  match fuel with
  | O => fun _ => None
  | Datatypes.S fuel =>
      let+ held := flift (folder_key_get cursor) in
      match held with
      | Some key => fret (key, chain)
      | None =>
          let+ details := flift (link_details cursor) in
          if decide (ln_id (ld_link details) = link_id root_uid)
          then
            let+ decrypted := flift (mlift (decrypt_link share_key (ld_link details))) in
            let+ _ := flift (folder_key_put cursor (dl_node_key decrypted)) in
            fret (dl_node_key decrypted, chain)
          else
            let+ parent_id := flift (mlift (ok_or (ln_parent_id (ld_link details)) no_parent)) in
            climb fuel (NodeUid_new (volume_id cursor) parent_id) (details :: chain)
      end
  end.

(** Down: each key unlocks the next. *)
Fixpoint unlock_chain (volume_id : VolumeId) (key : Key) (chain : list LinkDetailsDto)
  : M S Key ProtonError :=
  match chain with
  | [] => mret key
  | details :: chain =>
      let* decrypted := mlift (decrypt_link key (ld_link details)) in
      let* _ := folder_key_put (NodeUid_new volume_id (ln_id (ld_link details))) (dl_node_key decrypted) in
      unlock_chain volume_id (dl_node_key decrypted) chain
  end.

(** [node_key]; concurrent callers share one walk through [SingleFlight]. *)
Definition node_key (fuel : nat) (uid : NodeUid) : FM S Key ProtonError :=
  let+ held := flift (folder_key_get uid) in
  match held with
  | Some key => fret key
  | None =>
      let+ (key, chain) := climb fuel uid [] in
      flift (unlock_chain (volume_id uid) key chain)
  end.

Definition resolve_parent_key (fuel : nat) (volume_id : VolumeId) (details : LinkDetailsDto)
  : FM S Key ProtonError :=
  if decide (ln_id (ld_link details) = link_id root_uid) then fret share_key
  else
    let+ parent_id := flift (mlift (ok_or (ln_parent_id (ld_link details)) no_parent)) in
    node_key fuel (NodeUid_new volume_id parent_id).

(** *** Nodes *)

Definition link_common_attributes (node_key : Key) (active : option ActiveRevisionDto)
  : option DecryptedCommonExtendedAttributes :=
  revision ← active; xattr ← ar_extended_attributes revision;
  attributes ← ok (decrypt_extended_attributes_unverified node_key xattr); ea_common attributes.

Definition build_kind (details : LinkDetailsDto) (node_key : Key) : NodeKind :=
  match parsed_type (ld_link details) with
  | LFolder => Node.Folder
  | _ =>
      let file : option FileDto := file_properties details in
      let active : option ActiveRevisionDto := file ≫= fi_active_revision in
      let common := link_common_attributes node_key active in
      Node.File {|
        fd_media_type := default EmptyString (fi_media_type <$> file);
        fd_total_size_on_storage := default 0 (fi_total_size_on_storage <$> file);
        fd_active_revision_state := (fun r => RevisionState_from_raw (ar_state r)) <$> active;
        fd_active_revision_id := ar_id <$> active;
        fd_claimed_size := common ≫= xa_size;
        fd_claimed_modification_time := common ≫= xa_modification_time;
        fd_content_sha1 := (common ≫= xa_digests) ≫= sha1 |}
  end.

Definition build_node (volume_id : VolumeId) (details : LinkDetailsDto) (parent_key : Key) : Res Node :=
  let link := ld_link details in
  let? decrypted := decrypt_link parent_key link in
  Ok {| nd_uid := NodeUid_new volume_id (ln_id link);
        nd_parent_uid := NodeUid_new volume_id <$> ln_parent_id link;
        nd_kind := build_kind details (dl_node_key decrypted);
        nd_name := dl_name decrypted;
        nd_creation_time := ln_creation_time link;
        nd_modification_time := ln_modification_time link;
        nd_trashed := is_trashed link;
        nd_is_shared := true; nd_is_shared_publicly := true;
        nd_signature_email := ln_name_signature_email link;
        nd_membership := None; nd_direct_role := None; nd_share_id := None;
        nd_photo := None; nd_album := None;
        nd_verification := NodeVerification_default |}.

(** The loop over one response: what does not open is left out. *)
Fixpoint build_nodes (fuel : nat) (volume_id : VolumeId) (links : list LinkDetailsDto)
    (nodes : list Node) : FM S (list Node) ProtonError :=
  match links with
  | [] => fret nodes
  | details :: links => fun s =>
      match resolve_parent_key fuel volume_id details s with
      | None => None
      | Some (Err _, s) => build_nodes fuel volume_id links nodes s
      | Some (Ok parent_key, s) =>
          match build_node volume_id details parent_key with
          | Ok node => build_nodes fuel volume_id links (nodes ++ [node]) s
          | Err _ => build_nodes fuel volume_id links nodes s
          end
      end
  end.

Fixpoint enumerate_batches (fuel : nat) (volume_id : VolumeId) (batches : list (list LinkId))
    (nodes : list Node) : FM S (list Node) ProtonError :=
  match batches with
  | [] => fret nodes
  | link_ids :: batches =>
      let+ response := flift (fetch_link_details volume_id link_ids) in
      let+ nodes := build_nodes fuel volume_id (lr_links response) nodes in
      enumerate_batches fuel volume_id batches nodes
  end.

Fixpoint enumerate_volumes (fuel : nat) (groups : list (VolumeId * list LinkId)) (nodes : list Node)
  : FM S (list Node) ProtonError :=
  match groups with
  | [] => fret nodes
  | (volume_id, link_ids) :: groups =>
      let+ nodes := enumerate_batches fuel volume_id (chunks MAX_BATCH_COUNT link_ids) nodes in
      enumerate_volumes fuel groups nodes
  end.

Definition enumerate_nodes (fuel : nat) (uids : list NodeUid) : FM S (list Node) ProtonError :=
  enumerate_volumes fuel (group_by_volume uids) [].

Definition get_node (fuel : nat) (uid : NodeUid) : FM S (option Node) ProtonError :=
  let+ nodes := enumerate_nodes fuel [uid] in
  fret (last nodes).

Definition get_root_node (fuel : nat) : FM S Node ProtonError :=
  let+ node := get_node fuel root_uid in
  flift (mlift (ok_or node (invalid_operation "the shared node no longer exists"))).

Definition list_folder (fuel : nat) (folder_uid : NodeUid) : FM S (list Node) ProtonError :=
  let+ child_uids := enumerate_folder_children_node_uids fuel folder_uid in
  enumerate_nodes fuel child_uids.

(** One level: the folders in order, with [progress] called on each count. *)
Fixpoint list_level (fuel : nat) (level : list NodeUid) (next : list NodeUid) (found : list Node)
    (progress : list nat) : FM S (list NodeUid * list Node * list nat) ProtonError :=
  match level with
  | [] => fret (next, found, progress)
  | folder :: level =>
      let+ children := list_folder fuel folder in
      let next := next ++ (nd_uid <$> filter (fun child => is_folder child = true) children) in
      let found := found ++ children in
      list_level fuel level next found (progress ++ [length found])
  end.

(** [enumerate_subtree_reporting]; the fuel bounds the levels, [inner] the pages
    of a listing and the depth of a key walk. *)
Fixpoint walk_levels (fuel inner : nat) (level : list NodeUid) (found : list Node) (progress : list nat)
  : FM S (list Node * list nat) ProtonError :=
  match level with
  | [] => fret (found, progress)
  | _ =>
      match fuel with
      | O => fun _ => None
      | Datatypes.S fuel =>
          let+ (next, found, progress) := list_level inner level [] found progress in
          walk_levels fuel inner next found progress
      end
  end.

Definition enumerate_subtree_reporting (fuel inner : nat) (folder_uid : NodeUid)
  : FM S (list Node * list nat) ProtonError :=
  walk_levels fuel inner [folder_uid] [] [].

Definition enumerate_subtree (fuel inner : nat) (folder_uid : NodeUid) : FM S (list Node) ProtonError :=
  let+ (found, _) := enumerate_subtree_reporting fuel inner folder_uid in
  fret found.

(** *** Content *)

Definition content_key (details : LinkDetailsDto) (node_key : Key) : Res CKey :=
  let? packet := ok_or (file_properties details ≫= fi_content_key_packet)
    (invalid_operation "the file has no content key packet") in
  let? packet_bytes := map_err (fun e => invalid_operation ("ContentKeyPacket is not valid base64: " +:+ e))
    (base64_standard_decode packet) in
  map_err Crypto (decrypt_content_key node_key packet_bytes).

Definition no_active_revision : ProtonError :=
  invalid_operation "the shared file has no active revision".

Definition active_revision_id (details : LinkDetailsDto) : Res string :=
  ok_or (ar_id <$> (file_properties details ≫= fi_active_revision)) no_active_revision.

(** What [download_file_to], [open_revision] and [thumbnail_target] begin with. *)
Definition unlock_file (fuel : nat) (uid : NodeUid) (details : LinkDetailsDto)
  : FM S (Key * CKey) ProtonError :=
  let+ parent_key := resolve_parent_key fuel (volume_id uid) details in
  let+ decrypted := flift (mlift (decrypt_link parent_key (ld_link details))) in
  let+ ckey := flift (mlift (content_key details (dl_node_key decrypted))) in
  fret (dl_node_key decrypted, ckey).

(** The blocks, yielded in order and written one after another. *)
Fixpoint write_plaintexts (ckey : CKey) (ciphertext : nat -> FM (BlockTable * S) string ProtonError)
    (indices : list nat) (out : string) : FM (BlockTable * S) string ProtonError :=
  match indices with
  | [] => fret out
  | index :: indices =>
      let+ c := ciphertext index in
      let+ plaintext := flift (mlift (map_err Crypto (decrypt_block ckey c))) in
      write_plaintexts ckey ciphertext indices (out +:+ plaintext)
  end.

Definition download_file (fuel : nat) (uid : NodeUid) : FM S string ProtonError :=
  let+ details := flift (link_details uid) in
  let+ revision_id := flift (mlift (active_revision_id details)) in
  let+ (_, ckey) := unlock_file fuel uid details in
  let+ (_, blocks) := list_blocks uid revision_id in
  fun s =>
    let targets := {| tg_uid := uid; tg_revision_id := revision_id;
                      tg_expected_blocks := length blocks |} in
    match write_plaintexts ckey
            (ciphertext (list_blocks uid revision_id) get_blob targets)
            (seq 0 (length blocks)) EmptyString (BlockTable_new blocks, s) with
    | None => None
    | Some (r, (_, s)) => Some (r, s)
    end.

(** [open_revision_inner]: the reader's parts. *)
Definition open_revision_inner (fuel : nat) (uid : NodeUid) (revision_id : option string)
  : FM S (BlockTargets * CKey * BlockTable * RevisionReader) ProtonError :=
  let+ details := flift (link_details uid) in
  let active : option ActiveRevisionDto := file_properties details ≫= fi_active_revision in
  let+ revision_id := flift (mlift (match revision_id with
                                    | Some id => Ok id
                                    | None => ok_or (ar_id <$> active) no_active_revision
                                    end)) in
  let+ (node_key, ckey) := unlock_file fuel uid details in
  let+ (revision, blocks) := list_blocks uid revision_id in
  let armored : option string := match rev_extended_attributes revision with
                 | Some x => Some x
                 | None => candidate ← active;
                           if String.eqb (ar_id candidate) revision_id
                           then ar_extended_attributes candidate else None
                 end in
  let common : option DecryptedCommonExtendedAttributes := xattr ← armored;
                attributes ← ok (decrypt_extended_attributes_unverified node_key xattr);
                ea_common attributes in
  let+ block_sizes := flift (mlift (rank_block_sizes common revision_id (length blocks))) in
  fret ({| tg_uid := uid; tg_revision_id := revision_id; tg_expected_blocks := length blocks |},
        ckey, BlockTable_new blocks, RevisionReader_new block_sizes).

Definition open_revision (fuel : nat) (uid : NodeUid) := open_revision_inner fuel uid None.

Definition open_revision_at (fuel : nat) (uid : NodeUid) (revision_id : string) :=
  open_revision_inner fuel uid (Some revision_id).

(** [download_range] *)
Definition download_range (fuel : nat) (uid : NodeUid) (offset length : Z) : FM S string ProtonError :=
  let+ (targets, ckey, table, reader) := open_revision fuel uid in
  fun s =>
    match read_at (list_blocks uid (tg_revision_id targets)) get_blob targets (decrypt_block ckey)
            reader offset length (table, s) with
    | None => None
    | Some (r, (_, s)) => Some (r, s)
    end.

(** *** Thumbnails *)

Definition thumbnail_target (fuel : nat) (uid : NodeUid) (thumbnail_type : ThumbnailType)
  : FM S (CKey * option string) ProtonError :=
  let+ details := flift (link_details uid) in
  let+ revision_id := flift (mlift (active_revision_id details)) in
  let+ (_, ckey) := unlock_file fuel uid details in
  let+ (revision, _) := list_blocks uid revision_id in
  fret (ckey, List.find (fun t => th_type t =? ThumbnailType_as_i32 thumbnail_type)
                (rev_thumbnails revision) ≫= th_id).

Definition thumbnails_path (volume_id : VolumeId) : string := "volumes/" +:+ volume_id +:+ "/thumbnails".

Definition download_thumbnail (fuel : nat) (uid : NodeUid) (thumbnail_type : ThumbnailType)
  : FM S (option string) ProtonError :=
  let+ (ckey, thumbnail_id) := thumbnail_target fuel uid thumbnail_type in
  match thumbnail_id with
  | None => fret None
  | Some thumbnail_id =>
      let+ response := flift (post_thumbnails (thumbnails_path (volume_id uid))
                                {| tq_thumbnail_ids := [thumbnail_id] |}) in
      let+ block := flift (mlift (ok_or
        (List.find (fun b => String.eqb (tb_thumbnail_id b) thumbnail_id) (tl_blocks response))
        (invalid_operation ("resolve thumbnail block: " +:+
           default "thumbnail block not returned"
             (te_error <$> List.find (fun e => String.eqb (te_thumbnail_id e) thumbnail_id)
                             (tl_errors response)))))) in
      let+ ciphertext := flift (get_blob (tb_bare_url block) (tb_token block)) in
      let+ bytes := flift (mlift (map_err Crypto (decrypt_thumbnail ckey ciphertext))) in
      fret (Some bytes)
  end.

(** thumbnail id -> the file it belongs to and the key it decrypts under *)
Abbreviation Targets := (gmap string (NodeUid * CKey)).

(** [targets.remove(id)] and, when it was there, an outcome for its file. *)
Definition settle (id : string) (outcome : CKey -> Res string) (tr : Targets * list FileThumbnail)
  : Targets * list FileThumbnail :=
  let (targets, results) := tr in
  match targets !! id with
  | Some (uid, ckey) =>
      (delete id targets, results ++ [{| ft_file_uid := uid; ft_result := outcome ckey |}])
  | None => tr
  end.

Definition settle_all (ids : list (string * ProtonError)) (tr : Targets * list FileThumbnail)
  : Targets * list FileThumbnail :=
  foldl (fun tr e => settle e.1 (fun _ => Err e.2) tr) tr ids.

Fixpoint download_blocks (blocks : list ThumbnailBlock) (tr : Targets * list FileThumbnail)
  : M S (Targets * list FileThumbnail) ProtonError :=
  match blocks with
  | [] => mret tr
  | block :: blocks =>
      match tr.1 !! tb_thumbnail_id block with
      | None => download_blocks blocks tr
      | Some _ =>
          let* downloaded := mtry (get_blob (tb_bare_url block) (tb_token block)) in
          download_blocks blocks
            (settle (tb_thumbnail_id block)
               (fun ckey => let? ciphertext := downloaded in
                            map_err Crypto (decrypt_thumbnail ckey ciphertext)) tr)
      end
  end.

Definition drain_thumbnail_chunk (volume_id : VolumeId) (chunk : list string)
    (tr : Targets * list FileThumbnail) : M S (Targets * list FileThumbnail) ProtonError :=
  let* response := mtry (post_thumbnails (thumbnails_path volume_id) {| tq_thumbnail_ids := chunk |}) in
  match response with
  | Err e =>
      let e := invalid_operation ("resolve thumbnail blocks: " +:+ ProtonError_display e) in
      mret (settle_all ((fun id => (id, e)) <$> chunk) tr)
  | Ok response =>
      let* tr := download_blocks (tl_blocks response) tr in
      let tr := settle_all ((fun e => (te_thumbnail_id e, invalid_operation (te_error e)))
                              <$> tl_errors response) tr in
      mret (settle_all ((fun id => (id, invalid_operation "thumbnail not found")) <$> chunk) tr)
  end.

Fixpoint drain_chunks (volume_id : VolumeId) (chunks : list (list string))
    (tr : Targets * list FileThumbnail) : M S (Targets * list FileThumbnail) ProtonError :=
  match chunks with
  | [] => mret tr
  | chunk :: chunks =>
      let* tr := drain_thumbnail_chunk volume_id chunk tr in
      drain_chunks volume_id chunks tr
  end.

(** The loop over a volume's files: their targets, or why they have none. *)
Fixpoint find_targets (fuel : nat) (volume_id : VolumeId) (thumbnail_type : ThumbnailType)
    (link_ids : list LinkId) (tr : Targets * list FileThumbnail)
  : FM S (Targets * list FileThumbnail) ProtonError :=
  match link_ids with
  | [] => fret tr
  | link_id :: link_ids => fun s =>
      let uid := NodeUid_new volume_id link_id in
      match thumbnail_target fuel uid thumbnail_type s with
      | None => None
      | Some (r, s) =>
          let (targets, results) := tr in
          find_targets fuel volume_id thumbnail_type link_ids
            (match r with
             | Ok (ckey, Some id) => (<[id := (uid, ckey)]> targets, results)
             | Ok (_, None) =>
                 (targets, results ++ [{| ft_file_uid := uid;
                    ft_result := Err (invalid_operation ("node " +:+ NodeUid_display uid
                      +:+ " has no thumbnail of the requested type")) |}])
             | Err e => (targets, results ++ [{| ft_file_uid := uid; ft_result := Err e |}])
             end) s
      end
  end.

(** [arrange] is the order in which the map gives its keys. *)
Fixpoint enumerate_thumbnails_in (fuel : nat) (arrange : Targets -> list string)
    (thumbnail_type : ThumbnailType) (groups : list (VolumeId * list LinkId))
    (results : list FileThumbnail) : FM S (list FileThumbnail) ProtonError :=
  match groups with
  | [] => fret results
  | (volume_id, link_ids) :: groups =>
      let+ (targets, results) := find_targets fuel volume_id thumbnail_type link_ids (∅, results) in
      let+ (_, results) := flift (drain_chunks volume_id
        (chunks MAX_THUMBNAIL_IDS_PER_REQUEST (arrange targets)) (targets, results)) in
      enumerate_thumbnails_in fuel arrange thumbnail_type groups results
  end.

Definition enumerate_thumbnails (fuel : nat) (arrange : Targets -> list string) (uids : list NodeUid)
    (thumbnail_type : ThumbnailType) : FM S (list FileThumbnail) ProtonError :=
  enumerate_thumbnails_in fuel arrange thumbnail_type (group_by_volume uids) [].
End Reader.
