(* ===== verification/PublicLinkFacts.v ===== *)
(** * The public-link client: handshake, renewal, keys, walks

    Proved of [PublicLink]: a session is made only of an answer whose proof
    matched, with the route and the token policy it needs; a burst of renewals
    makes one session; a node key is the right one whatever the cache held, and
    is found within the depth of the node; the subtree walk finds exactly what is
    below the folder; every file of a batch of thumbnails gets one outcome. *)

From S2P Require Import Prelude Errors Config Http HttpFacts Srp Session SessionFacts.
From S2P Require Import Keys Transport Revision Node Names.
From S2P Require Import EntityCache Links LinksFacts LinkCrypto PublicLink.

(** ** The handshake *)

Section HandshakeFacts.
Context {W Key : Type} `{HttpWorld W} `{HttpCodec} `{SrpPrimitives W} `{KeyOps Key}
        `{PassphraseOps} `{PublicLinkCodec}.

Lemma accept_ok c proofs response w (outcome : AuthOutcome W Key) :
  accept c proofs response w = Ok outcome ->
  pa_server_proof response = base64_encode (expected_server_proof proofs) /\
  unlock_share_key c response = Ok (ao_share_key outcome) /\
  exists token,
    pa_access_token response = Some token /\
    cs_tokens (ao_state outcome) = {| access_token := token; refresh_token := EmptyString |} /\
    cs_world (ao_state outcome) = w /\
    hc_session_id (ao_http outcome) = pa_uid response /\
    hc_route_prefix (ao_http outcome) = "drive/unauth/" /\
    hc_refresh_tokens (ao_http outcome) = false /\
    ao_root_uid outcome = NodeUid_new (ps_volume_id (pa_share response)) (ps_link_id (pa_share response)) /\
    ao_public_role outcome = from_permissions (ps_public_permissions (pa_share response)).
Proof.
  unfold accept. destruct (String.eqb_spec (pa_server_proof response)
    (base64_encode (expected_server_proof proofs))) as [Hp|Hp]; [|done]. simpl.
  destruct (unlock_share_key c response) as [key|e]; simpl; [|done].
  destruct (pa_access_token response) as [token|]; simpl; [|done].
  unfold ApiHttpClient_new. destruct (client_build_error _); simpl; [done|].
  intros [= <-]. simpl. split_and!; try done. exists token. by split_and!.
Qed.

End HandshakeFacts.

Section Verified.
Context {W Key : Type} `{HttpWorldLaws W} `{HttpCodec} `{SrpPrimitives W} `{KeyOps Key}
        `{PassphraseOps} `{PublicLinkCodec}.

Lemma prove_ok bit_length fuel c w info proofs w' :
  prove bit_length fuel c w = Some (Ok (info, proofs), w') ->
  is_legacy info = false /\ exists salt ephemeral w1,
    answered_to GET NoBody (cr_config c) ("drive/urls/" +:+ cr_token c +:+ "/info") decode_link_info info w w1 /\
    base64_bytes (pi_url_password_salt info) = Ok salt /\
    base64_bytes (pi_server_ephemeral info) = Ok ephemeral /\
    generate_proofs fuel (pi_version info) (string_bytes (cr_password c)) salt (pi_modulus info) ephemeral
      bit_length w1 = Some (Ok proofs, w').
Proof.
  unfold prove, Credentials_info.
  destruct (get_unauthenticated _ _ _ w) as [[i|e] w1] eqn:Hg; simpl; [|done].
  destruct (is_legacy i) eqn:Hl; [done|]. unfold decode_base64_bytes.
  destruct (base64_bytes (pi_url_password_salt i)) as [salt|] eqn:Hs; simpl; [|done].
  destruct (base64_bytes (pi_server_ephemeral i)) as [eph|] eqn:He; simpl; [|done].
  destruct (generate_proofs _ _ _ _ _ _ _ _) as [[[p|e] w2]|] eqn:Hp; [|done..].
  intros [= <- <- <-]. apply get_unauthenticated_answered in Hg. eauto 10.
Qed.

(** C35: A public-link session has authenticated the server.  The server's last
    response to the link's [info] gave the parameters of the handshake, and they are
    not those of a legacy link; its last response to the client's proof, sent to
    the link's [auth], carried the proof that the handshake expects.  The client
    made of it goes through the unauthenticated route with that response's session
    and access token, never refreshes tokens, and its share key, root and role are
    those that this response unlocks and names. *)
Theorem auth_verifies_server bit_length fuel c w (outcome : AuthOutcome W Key) w' :
  auth_sized bit_length fuel c w = Some (Ok outcome, w') ->
  exists info salt ephemeral proofs response token w1 w2,
    answered_to GET NoBody (cr_config c) ("drive/urls/" +:+ cr_token c +:+ "/info") decode_link_info info w w1 /\
    is_legacy info = false /\
    base64_bytes (pi_url_password_salt info) = Ok salt /\
    base64_bytes (pi_server_ephemeral info) = Ok ephemeral /\
    generate_proofs fuel (pi_version info) (string_bytes (cr_password c)) salt (pi_modulus info) ephemeral
      bit_length w1 = Some (Ok proofs, w2) /\
    answered (cr_config c) ("drive/urls/" +:+ cr_token c +:+ "/auth")
      (encode_link_auth {| pq_client_proof := base64_encode (client_proof proofs);
                           pq_client_ephemeral := base64_encode (client_ephemeral proofs);
                           pq_srp_session := pi_srp_session info |})
      decode_link_auth response w2 w' /\
    pa_server_proof response = base64_encode (expected_server_proof proofs) /\
    unlock_share_key c response = Ok (ao_share_key outcome) /\
    pa_access_token response = Some token /\
    cs_tokens (ao_state outcome) = {| access_token := token; refresh_token := EmptyString |} /\
    hc_session_id (ao_http outcome) = pa_uid response /\
    hc_route_prefix (ao_http outcome) = "drive/unauth/" /\
    hc_refresh_tokens (ao_http outcome) = false /\
    ao_root_uid outcome = NodeUid_new (ps_volume_id (pa_share response)) (ps_link_id (pa_share response)) /\
    ao_public_role outcome = from_permissions (ps_public_permissions (pa_share response)).
Proof.
  unfold auth_sized. destruct (prove _ _ _ _) as [[[[info proofs]|e] w1]|] eqn:Hp; [|done..].
  destruct (post_unauthenticated _ _ _ _ _) as [[response|e] w2] eqn:Hpost; simpl; [|done].
  apply post_unauthenticated_answered in Hpost.
  intros [= Ha <-]. apply accept_ok in Ha as (Hproof & Hkey & (token & Ht & Htok & _ & Hid & Hr & Hf & Hroot & Hrole)).
  apply prove_ok in Hp as (Hl & salt & eph & w0 & Hinfo & Hs & He & Hg).
  by exists info, salt, eph, proofs, response, token, w0, w1.
Qed.
End Verified.

(** ** Renewal *)

Section Renewal.
Context {W Key : Type} `{HttpWorld W} `{HttpCodec} `{SrpPrimitives W} `{KeyOps Key}
        `{PassphraseOps} `{PublicLinkCodec}.

(** Tasks that saw the same session expire, one after another under the lock. *)
Fixpoint renew_burst (bit_length : Z) (fuel : nat) (seen : Z) (tasks : nat) (s : PublicLinkSession W)
  : option (list (Res unit) * PublicLinkSession W) :=
  match tasks with
  | O => Some ([], s)
  | Datatypes.S tasks =>
      match renew_sized (Key := Key) bit_length fuel seen s with
      | None => None
      | Some (r, s) =>
          match renew_burst bit_length fuel seen tasks s with
          | None => None
          | Some (rs, s) => Some (r :: rs, s)
          end
      end
  end.

Lemma renew_stale bl fuel seen (s : PublicLinkSession W) :
  pu_generation s <> seen -> renew_sized (Key := Key) bl fuel seen s = Some (Ok tt, s).
Proof. intros Hg. unfold renew_sized. by rewrite (proj2 (Z.eqb_neq _ _) Hg). Qed.

Lemma renew_burst_stale bl fuel seen tasks (s : PublicLinkSession W) :
  pu_generation s <> seen -> renew_burst bl fuel seen tasks s = Some (replicate tasks (Ok tt), s).
Proof.
  intros Hg. induction tasks as [|tasks IH]; simpl; [done|]. by rewrite renew_stale, IH by done.
Qed.

(** However many requests found a session expired, one handshake replaces it:
    the tasks before it report their failed handshakes, every task after it goes
    on with the session it made, without another request. *)
Theorem renew_burst_one_session bl fuel tasks (s s' : PublicLinkSession W) rs :
  0 <= pu_generation s < u64_max ->
  renew_burst bl fuel (pu_generation s) tasks s = Some (rs, s') ->
  (Forall (fun r => is_ok r = false) rs /\ pu_generation s' = pu_generation s) \/
  exists failed w outcome w',
    (length failed < tasks)%nat /\ Forall (fun r => is_ok r = false) failed /\
    rs = failed ++ replicate (tasks - length failed) (Ok tt) /\
    auth_sized bl fuel (pu_credentials s) w = Some (Ok outcome, w') /\
    s' = {| pu_credentials := pu_credentials s; pu_http := ao_http (Key := Key) outcome;
            pu_state := cs_on_world (fun _ => w') (ao_state outcome);
            pu_generation := pu_generation s + 1 |}.
Proof.
  unfold u64_max. intros Hg. remember (pu_generation s) as seen eqn:Hseen.
  revert s rs Hseen. induction tasks as [|tasks IH]; intros s rs Hseen; simpl.
  { intros [= <- <-]. left. by split. }
  unfold renew_sized at 1. rewrite <- Hseen, Z.eqb_refl. simpl.
  destruct (auth_sized bl fuel (pu_credentials s) _) as [[[outcome|e] w]|] eqn:Ha; [| |done].
  - rewrite wrap_u64_small by lia. rewrite renew_burst_stale by (simpl; lia). intros [= <- <-]. right.
    exists [], (cs_world (pu_state s)), outcome, w.
    rewrite Nat.sub_0_r. split_and!; try done. simpl. lia.
  - destruct (renew_burst _ _ _ _ _) as [[rs1 s1]|] eqn:Hb; [|done]. intros [= <- <-].
    apply IH in Hb; [|done]. simpl in Hb.
    destruct Hb as [[Hf Hgen]|(failed & w1 & outcome & w2 & Hl & Hf & -> & Ho & ->)].
    + left. split; [by constructor|done].
    + right. exists (Err e :: failed), w1, outcome, w2. split_and!; try done; [simpl; lia|by constructor].
Qed.
End Renewal.

(** ** Node keys *)

Section KeyFacts.
Context {S Key : Type} `{KeyOps Key} `{KeyStoreLaws S Key}.
Context (post_links : string -> LinkDetailsRequest -> M S LinkDetailsResponse ProtonError).
Context (share_key : Key) (root_uid : NodeUid).

(** The links of the shared volume, and the keys they have. *)
Context (tree : LinkId -> option LinkDetailsDto) (node_key_of : LinkId -> Key).

Abbreviation vol := (volume_id root_uid).
Abbreviation uid_of id := (NodeUid_new vol id).

(** The key a link of the share was encrypted to. *)
Definition opener (link : LinkDto) : option Key :=
  if decide (ln_id link = link_id root_uid) then Some share_key
  else node_key_of <$> ln_parent_id link.

Definition link_sealed : Prop := forall id details, tree id = Some details ->
  ln_id (ld_link details) = id /\
  (forall k d, decrypt_link k (ld_link details) = Ok d ->
     opener (ld_link details) = Some k /\ dl_node_key d = node_key_of id).

Definition keys_right (s : S) : Prop :=
  forall id k, key_at s (uid_of id) = Some k -> k = node_key_of id.

Definition links_path : string := "v2/volumes/" +:+ vol +:+ "/links".

(** The peers of a request cache only right keys; an answer tells the truth. *)
Record honest_links : Prop := {
  hl_sealed : link_sealed;
  hl_links ids s r s' :
    keys_right s -> post_links links_path {| lq_link_ids := ids |} s = (r, s') ->
    keys_right s' /\
    forall response d, r = Ok response -> d ∈ lr_links response ->
      tree (ln_id (ld_link d)) = Some d /\ ln_id (ld_link d) ∈ ids
}.

Section Sound.
Context (Hh : honest_links).

Lemma get_right uid s r s' :
  keys_right s -> folder_key_get uid s = (r, s') -> keys_right s' /\ r = Ok (key_at s uid).
Proof.
  intros Hs E. destruct (key_get_spec uid s) as (s1 & E1 & Hk). rewrite E1 in E. simplify_eq.
  split; [|done]. intros id k. rewrite Hk. apply Hs.
Qed.

Lemma put_right id s r s' :
  keys_right s -> folder_key_put (uid_of id) (node_key_of id) s = (r, s') -> keys_right s' /\ r = Ok tt.
Proof.
  intros Hs E. destruct (key_put_spec (uid_of id) (node_key_of id) s) as (s1 & E1 & Hk).
  rewrite E1 in E. simplify_eq. split; [|done]. intros i k [[[= ->] ->]|Hu]%Hk; [done|by apply Hs].
Qed.

Lemma link_details_right id s r s' :
  keys_right s -> link_details post_links (uid_of id) s = (r, s') ->
  keys_right s' /\ forall d, r = Ok d -> tree id = Some d.
Proof.
  intros Hs. unfold link_details, fetch_link_details, mbind_. cbn [volume_id link_id NodeUid_new].
  destruct (post_links _ _ s) as [resp s1] eqn:E. apply (hl_links Hh) in E as [Hs1 Hd]; [|done].
  destruct resp as [resp|e]; [|by intros [= <- <-]]. unfold mlift. intros [= <- <-]. split; [done|].
  intros d. destruct (lr_links resp) as [|d' ds] eqn:El; [done|]. intros [= <-].
  destruct (Hd resp d' eq_refl) as [Ht Hin]; [rewrite El; left|].
  apply list_elem_of_singleton in Hin. by rewrite <- Hin.
Qed.

(** The chain above a link: each is the parent of the one before, up to [base]. *)
Inductive chain_from (base : LinkId) : list LinkDetailsDto -> Prop :=
| chain_nil : chain_from base []
| chain_cons d ds : tree (ln_id (ld_link d)) = Some d -> ln_id (ld_link d) <> link_id root_uid ->
    ln_parent_id (ld_link d) = Some base -> chain_from (ln_id (ld_link d)) ds ->
    chain_from base (d :: ds).

Definition chain_end (base : LinkId) (chain : list LinkDetailsDto) : LinkId :=
  match last chain with Some d => ln_id (ld_link d) | None => base end.

Lemma climb_right fuel id chain s r s' target :
  keys_right s -> chain_from id chain -> chain_end id chain = target ->
  climb post_links share_key root_uid fuel (uid_of id) chain s = Some (r, s') ->
  keys_right s' /\ forall key chain', r = Ok (key, chain') ->
    exists base, key = node_key_of base /\ chain_from base chain' /\ chain_end base chain' = target.
Proof.
  revert id chain s. induction fuel as [|fuel IH]; intros id chain s Hs Hc Ht; cbn [climb]; [done|].
  unfold fbind at 1, flift. destruct (folder_key_get _ s) as [h s1] eqn:Eg.
  apply get_right in Eg as [Hs1 ->]; [|done].
  destruct (key_at s (uid_of id)) as [k|] eqn:Ek.
  { intros [= <- <-]. split; [done|]. intros key chain' [= <- <-]. exists id. by rewrite (Hs _ _ Ek). }
  unfold fbind at 1. destruct (link_details _ _ s1) as [d s2] eqn:Ed.
  apply link_details_right in Ed as [Hs2 Hd]; [|done].
  destruct d as [d|e]; [|by intros [= <- <-]]. specialize (Hd d eq_refl).
  destruct (hl_sealed Hh _ _ Hd) as [Hid Hopen].
  destruct (decide (ln_id (ld_link d) = link_id root_uid)) as [Hroot|Hroot].
  - unfold fbind at 1, mlift. destruct (decrypt_link share_key (ld_link d)) as [dl|e] eqn:El;
      [|by intros [= <- <-]].
    destruct (Hopen _ _ El) as [_ Hkey]. rewrite Hkey. unfold fbind.
    destruct (folder_key_put _ _ s2) as [w s3] eqn:Ep. apply put_right in Ep as [Hs3 ->]; [|done].
    intros [= <- <-]. split; [done|]. intros key chain' [= <- <-]. by exists id.
  - unfold fbind at 1, mlift. destruct (ln_parent_id (ld_link d)) as [p|] eqn:Ep; simpl; [|by intros [= <- <-]].
    apply IH; [done| |].
    + constructor; [by rewrite Hid|done|done|by rewrite Hid].
    + subst target. unfold chain_end. destruct chain as [|c chain]; [by rewrite <- Hid|].
      rewrite last_cons_cons. destruct (last (c :: chain)) eqn:El; [done|]. by apply last_None in El.
Qed.

Lemma unlock_chain_right base chain s r s' :
  keys_right s -> chain_from base chain ->
  unlock_chain vol (node_key_of base) chain s = (r, s') ->
  keys_right s' /\ forall key, r = Ok key -> key = node_key_of (chain_end base chain).
Proof.
  revert base s. induction chain as [|d chain IH]; intros base s Hs Hc; cbn [unlock_chain].
  { intros [= <- <-]. split; [done|]. by intros key [= <-]. }
  inversion Hc as [|? ? Ht Hroot Hp Hc']; subst. unfold mbind_ at 1, mlift.
  destruct (hl_sealed Hh _ _ Ht) as [_ Hopen].
  destruct (decrypt_link _ (ld_link d)) as [dl|e] eqn:El; [|by intros [= <- <-]].
  destruct (Hopen _ _ El) as [_ ->]. unfold mbind_ at 1.
  destruct (folder_key_put _ _ s) as [w s1] eqn:Ep. apply put_right in Ep as [Hs1 ->]; [|done].
  intros E. apply IH in E as [Hs' Hr]; [|done..]. split; [done|]. intros key Hk. rewrite (Hr key Hk).
  unfold chain_end. destruct chain as [|c chain]; [done|].
  rewrite last_cons_cons. destruct (last (c :: chain)) eqn:El'; [done|]. by apply last_None in El'.
Qed.

Lemma node_key_right fuel id s r s' :
  keys_right s -> node_key post_links share_key root_uid fuel (uid_of id) s = Some (r, s') ->
  keys_right s' /\ forall key, r = Ok key -> key = node_key_of id.
Proof.
  intros Hs. unfold node_key, fbind at 1, flift at 1.
  destruct (folder_key_get _ s) as [h s1] eqn:Eg. apply get_right in Eg as [Hs1 ->]; [|done].
  destruct (key_at s (uid_of id)) as [k|] eqn:Ek.
  { intros [= <- <-]. split; [done|]. intros key [= <-]. by apply Hs. }
  unfold fbind. destruct (climb _ _ _ _ _ _ s1) as [[c s2]|] eqn:Ec; [|done].
  apply (climb_right _ _ _ _ _ _ id) in Ec as [Hs2 Hc]; [|done|constructor|done].
  destruct c as [[key chain]|e]; [|by intros [= <- <-]].
  destruct (Hc key chain eq_refl) as (base & -> & Hch & Hend). unfold flift. intros [= E].
  apply unlock_chain_right in E as [Hs' Hr]; [|done..]. rewrite <- Hend. by split.
Qed.

Lemma resolve_parent_key_right fuel d s r s' :
  keys_right s -> tree (ln_id (ld_link d)) = Some d ->
  resolve_parent_key post_links share_key root_uid fuel vol d s = Some (r, s') ->
  keys_right s' /\ forall key, r = Ok key -> opener (ld_link d) = Some key.
Proof.
  intros Hs Ht. unfold resolve_parent_key, opener.
  destruct (decide (ln_id (ld_link d) = link_id root_uid)).
  - intros [= <- <-]. split; [done|]. by intros key [= <-].
  - unfold fbind, flift, mlift. destruct (ln_parent_id (ld_link d)) as [p|]; simpl; [|by intros [= <- <-]].
    intros E. apply node_key_right in E as [Hs' Hr]; [|done]. split; [done|].
    intros key Hk. by rewrite (Hr key Hk).
Qed.
End Sound.

(** *** Completeness *)

(** [n] steps above [id] is the shared root. *)
Inductive within : nat -> LinkId -> Prop :=
| within_root d : tree (link_id root_uid) = Some d -> within 0 (link_id root_uid)
| within_child n id d p : tree id = Some d -> id <> link_id root_uid ->
    ln_parent_id (ld_link d) = Some p -> within n p -> within (Datatypes.S n) id.

(** A server that answers every request for links, and links that open. *)
Record reliable_links : Prop := {
  rl_honest : honest_links;
  rl_links ids s : keys_right s -> exists s',
    post_links links_path {| lq_link_ids := ids |} s = (Ok {| lr_links := omap tree ids |}, s');
  rl_open id d k : tree id = Some d -> opener (ld_link d) = Some k ->
    exists name, decrypt_link k (ld_link d) = Ok {| dl_node_key := node_key_of id; dl_name := name |}
}.

Section Complete.
Context (Hr : reliable_links).

Lemma link_details_answers id d s :
  keys_right s -> tree id = Some d ->
  exists s', link_details post_links (uid_of id) s = (Ok d, s') /\ keys_right s'.
Proof.
  intros Hs Ht. destruct (rl_links Hr [id] s Hs) as [s1 E]. exists s1.
  destruct (hl_links (rl_honest Hr) _ _ _ _ Hs E) as [Hs1 _]. split; [|done].
  unfold link_details, fetch_link_details, mbind_. cbn [volume_id link_id NodeUid_new].
  fold links_path. rewrite E. simpl. by rewrite Ht.
Qed.

Lemma get_answers uid s :
  keys_right s -> exists s', folder_key_get uid s = (Ok (key_at s uid), s') /\ keys_right s'.
Proof.
  intros Hs. destruct (key_get_spec uid s) as (s1 & E1 & Hk). exists s1. split; [done|].
  intros id k. rewrite Hk. apply Hs.
Qed.

Lemma put_answers id s :
  keys_right s -> exists s', folder_key_put (uid_of id) (node_key_of id) s = (Ok tt, s') /\ keys_right s'.
Proof.
  intros Hs. destruct (key_put_spec (uid_of id) (node_key_of id) s) as (s1 & E1 & Hk). exists s1.
  split; [done|]. intros i k [[[= ->] ->]|Hu]%Hk; [done|by apply Hs].
Qed.

Lemma climb_ends n id fuel chain s :
  within n id -> (n < fuel)%nat -> keys_right s ->
  exists key chain' s', climb post_links share_key root_uid fuel (uid_of id) chain s
                        = Some (Ok (key, chain'), s').
Proof.
  intros Hw. revert fuel chain s. induction Hw as [d Ht|n id d p Ht Hroot Hp Hw IH];
    intros [|fuel] chain s Hf Hs; [lia| |lia|]; cbn [climb]; unfold fbind at 1, flift.
  - destruct (get_answers (uid_of (link_id root_uid)) s Hs) as (s1 & E1 & Hs1).
    rewrite E1. destruct (key_at s (uid_of (link_id root_uid))) as [k|]; [by eexists _, _, _|].
    destruct (link_details_answers _ d s1 Hs1 Ht) as (s2 & E2 & Hs2). unfold fbind at 1. rewrite E2.
    destruct (hl_sealed (rl_honest Hr) _ _ Ht) as [Hid _]. rewrite decide_True by done.
    destruct (rl_open Hr _ _ share_key Ht) as [name Hopen]; [by unfold opener; rewrite decide_True|].
    unfold fbind, mlift. rewrite Hopen. cbn [dl_node_key].
    destruct (put_answers (link_id root_uid) s2 Hs2) as (s3 & E3 & _). rewrite E3. by eexists _, _, _.
  - destruct (get_answers (uid_of id) s Hs) as (s1 & E1 & Hs1). rewrite E1.
    destruct (key_at s (uid_of id)) as [k|]; [by eexists _, _, _|].
    destruct (link_details_answers _ d s1 Hs1 Ht) as (s2 & E2 & Hs2). unfold fbind at 1. rewrite E2.
    destruct (hl_sealed (rl_honest Hr) _ _ Ht) as [Hid _]. rewrite decide_False by (by rewrite Hid).
    unfold fbind, mlift. rewrite Hp. simpl. apply IH; [lia|done].
Qed.

Lemma unlock_chain_ends base chain s :
  keys_right s -> chain_from base chain ->
  exists k s', unlock_chain vol (node_key_of base) chain s = (Ok k, s').
Proof.
  revert base s. induction chain as [|d chain IH]; intros base s Hs Hc; cbn [unlock_chain]; [by eexists _, _|].
  inversion Hc as [|? ? Ht Hroot Hp Hc']; subst.
  destruct (rl_open Hr _ _ (node_key_of base) Ht) as [name Hopen].
  { unfold opener. rewrite decide_False by done. by rewrite Hp. }
  unfold mbind_, mlift. rewrite Hopen. cbn [dl_node_key].
  destruct (put_answers (ln_id (ld_link d)) s Hs) as (s1 & E1 & Hs1). rewrite E1. by apply IH.
Qed.

Lemma node_key_found n id fuel s :
  within n id -> (n < fuel)%nat -> keys_right s ->
  exists s', node_key post_links share_key root_uid fuel (uid_of id) s = Some (Ok (node_key_of id), s') /\
             keys_right s'.
Proof.
  intros Hw Hf Hs.
  assert (exists r s', node_key post_links share_key root_uid fuel (uid_of id) s = Some (Ok r, s')) as (k & s' & E).
  { unfold node_key, fbind at 1, flift. destruct (get_answers (uid_of id) s Hs) as (s1 & E1 & Hs1).
    rewrite E1. destruct (key_at s (uid_of id)) as [k|]; [by eexists _, _|]. unfold fbind.
    destruct (climb_ends n id fuel [] s1 Hw Hf Hs1) as (key & chain & s2 & E2). rewrite E2.
    apply (climb_right (rl_honest Hr) _ _ _ _ _ _ id) in E2 as [Hs2 Hc]; [|done|constructor|done].
    destruct (Hc key chain eq_refl) as (base & -> & Hch & _).
    destruct (unlock_chain_ends base chain s2 Hs2 Hch) as (k & s3 & E3). exists k, s3.
    cbn [volume_id NodeUid_new]. by rewrite E3. }
  exists s'. rewrite E. apply (node_key_right (rl_honest Hr)) in E as [Hs' Hk]; [|done].
  by rewrite (Hk k eq_refl).
Qed.

Lemma resolve_parent_key_found n id d fuel s :
  within n id -> tree id = Some d -> (n <= fuel)%nat -> keys_right s ->
  exists k s', resolve_parent_key post_links share_key root_uid fuel vol d s = Some (Ok k, s') /\
               keys_right s' /\ opener (ld_link d) = Some k.
Proof.
  intros Hw Ht Hf Hs. destruct (hl_sealed (rl_honest Hr) _ _ Ht) as [Hid _].
  unfold resolve_parent_key, opener. rewrite Hid.
  destruct (decide (id = link_id root_uid)) as [Hroot|Hroot]; [by eexists _, _|].
  inversion Hw as [|m ? d' p Ht' _ Hp Hw']; subst; [done|]. rewrite Ht in Ht'. injection Ht' as <-.
  unfold fbind, flift, mlift. rewrite Hp. simpl.
  destruct (node_key_found m p fuel s Hw') as (s1 & E & Hs1); [lia|done|].
  exists (node_key_of p), s1. by rewrite E.
Qed.

(** *** Listings *)

Context {CKey : Type} `{ContentOps Key CKey} `{AttributeOps} `{PassphraseOps}.

(** The node a link decrypts to. *)
Definition node_at (id : LinkId) : option Node :=
  d ← tree id; k ← opener (ld_link d); ok (build_node vol d k).

Lemma build_nodes_all bound ids nodes s :
  keys_right s -> Forall (fun id => exists n, within n id /\ (n <= bound)%nat) ids ->
  exists s', build_nodes post_links share_key root_uid bound vol (omap tree ids) nodes s
             = Some (Ok (nodes ++ omap node_at ids), s') /\ keys_right s'.
Proof.
  intros Hs Hall. revert nodes s Hs. induction Hall as [|id ids (n & Hw & Hn) _ IH]; intros nodes s Hs; csimpl.
  { exists s. by rewrite app_nil_r. }
  destruct (tree id) as [d|] eqn:Ht; csimpl.
  - destruct (resolve_parent_key_found n id d bound s Hw Ht Hn Hs) as (k & s1 & E & Hs1 & Ho).
    rewrite E. unfold node_at at 1. rewrite Ht. csimpl. rewrite Ho. csimpl.
    destruct (build_node vol d k) as [node|e]; csimpl; [|by apply IH].
    destruct (IH (nodes ++ [node]) s1 Hs1) as (s2 & E2 & Hs2). exists s2. by rewrite E2, <- app_assoc.
  - unfold node_at at 1. rewrite Ht. csimpl. by apply IH.
Qed.

Lemma enumerate_batches_all bound batches nodes s :
  keys_right s -> Forall (fun id => exists n, within n id /\ (n <= bound)%nat) (concat batches) ->
  exists s', enumerate_batches post_links share_key root_uid bound vol batches nodes s
             = Some (Ok (nodes ++ omap node_at (concat batches)), s') /\ keys_right s'.
Proof.
  revert nodes s. induction batches as [|ids batches IH]; intros nodes s Hs Hall; csimpl.
  { exists s. by rewrite app_nil_r. }
  apply Forall_app in Hall as [Hids Hall]. unfold fbind at 1, flift, fetch_link_details.
  destruct (rl_links Hr ids s Hs) as [s1 E1].
  destruct (hl_links (rl_honest Hr) _ _ _ _ Hs E1) as [Hs1 _]. fold links_path. rewrite E1.
  unfold fbind. cbn [lr_links].
  destruct (build_nodes_all bound ids nodes s1 Hs1 Hids) as (s2 & E2 & Hs2). rewrite E2.
  destruct (IH (nodes ++ omap node_at ids) s2 Hs2 Hall) as (s3 & E3 & Hs3). exists s3.
  by rewrite E3, omap_app, app_assoc.
Qed.

Lemma volume_groups_one ids acc :
  volume_groups (NodeUid_new vol <$> ids) [vol] {[ vol := acc ]} = ([vol], {[ vol := acc ++ ids ]}).
Proof.
  revert acc. induction ids as [|id ids IH]; intros acc; simpl; [by rewrite app_nil_r|].
  rewrite lookup_singleton_eq, insert_singleton_eq, IH. by rewrite <- app_assoc.
Qed.

Lemma group_by_volume_one ids :
  ids <> [] -> group_by_volume (NodeUid_new vol <$> ids) = [(vol, ids)].
Proof.
  intros Hne. destruct ids as [|id ids]; [done|]. unfold group_by_volume. simpl.
  rewrite lookup_empty, insert_empty. simpl. rewrite volume_groups_one. simpl.
  by rewrite lookup_singleton_eq.
Qed.

Definition reached (bound : nat) (ids : list LinkId) : Prop :=
  Forall (fun id => exists n, within n id /\ (n <= bound)%nat) ids.

Lemma enumerate_nodes_all bound ids s :
  keys_right s -> reached bound ids ->
  exists s', enumerate_nodes post_links share_key root_uid bound (NodeUid_new vol <$> ids) s
             = Some (Ok (omap node_at ids), s') /\ keys_right s'.
Proof.
  intros Hs Hall. unfold enumerate_nodes. destruct ids as [|id ids]; [by exists s|].
  rewrite group_by_volume_one by done. cbn [enumerate_volumes]. unfold fbind.
  destruct (chunks_of_spec (length (id :: ids)) MAX_BATCH_COUNT (id :: ids)) as [Hc _];
    [unfold MAX_BATCH_COUNT; lia|done|].
  destruct (enumerate_batches_all bound (chunks MAX_BATCH_COUNT (id :: ids)) [] s Hs) as (s1 & E & Hs1).
  { unfold chunks. by rewrite Hc. }
  exists s1. rewrite E. unfold chunks. by rewrite Hc.
Qed.

(** The pages a folder is served in: [listing serves n anchor ids] when from
    [anchor] on there are [n] pages, of [ids]. *)
Inductive listing (serves : option LinkId -> FolderChildrenResponse) :
  nat -> option LinkId -> list LinkId -> Prop :=
| listing_empty anchor : fc_link_ids (serves anchor) = [] -> listing serves 1 anchor []
| listing_last anchor : fc_more_results_exist (serves anchor) = false \/ fc_anchor_id (serves anchor) = None ->
    listing serves 1 anchor (fc_link_ids (serves anchor))
| listing_page n anchor next ids : fc_link_ids (serves anchor) <> [] ->
    fc_more_results_exist (serves anchor) = true -> fc_anchor_id (serves anchor) = Some next ->
    listing serves n (Some next) ids ->
    listing serves (Datatypes.S n) anchor (fc_link_ids (serves anchor) ++ ids).

Context (get_children : string -> M S FolderChildrenResponse ProtonError).
Context (kids : LinkId -> list LinkId).

(** Folders are served in at most [pages] pages, and their children are theirs. *)
Record reliable_children (pages : nat) : Prop := {
  rc_pages id n : within n id -> exists serves m, listing serves m None (kids id) /\ (m <= pages)%nat /\
    forall anchor s, keys_right s -> exists s',
      get_children (children_path (uid_of id) anchor) s = (Ok (serves anchor), s') /\ keys_right s';
  rc_kids id c : c ∈ kids id ->
    c <> link_id root_uid /\ exists d, tree c = Some d /\ ln_parent_id (ld_link d) = Some id
}.

Lemma children_pages_all id serves n anchor ids fuel uids s :
  (forall anchor s, keys_right s -> exists s',
     get_children (children_path (uid_of id) anchor) s = (Ok (serves anchor), s') /\ keys_right s') ->
  listing serves n anchor ids -> (n <= fuel)%nat -> keys_right s ->
  exists s', children_pages get_children fuel (uid_of id) uids anchor s
             = Some (Ok (uids ++ (NodeUid_new vol <$> ids)), s') /\ keys_right s'.
Proof.
  intros Hserves Hl. revert fuel uids s.
  induction Hl as [anchor He|anchor Hlast|n anchor next ids Hne Hmore Hnext Hl IH];
    intros [|fuel] uids s Hf Hs; try lia; cbn [children_pages]; unfold fbind, flift;
    destruct (Hserves anchor s Hs) as (s1 & E & Hs1); rewrite E; cbn [volume_id NodeUid_new].
  - rewrite He. exists s1. by rewrite app_nil_r.
  - destruct (fc_link_ids (serves anchor)) as [|c cs] eqn:Ec; [exists s1; by rewrite app_nil_r|].
    exists s1. destruct Hlast as [Hlast|Hlast]; rewrite Hlast; [done|].
    by destruct (negb _).
  - destruct (fc_link_ids (serves anchor)) as [|c cs] eqn:Ec; [done|]. rewrite Hmore, Hnext. cbn [negb]; cbv zeta.
    destruct (IH fuel (uids ++ (NodeUid_new vol <$> (c :: cs))) s1) as (s2 & E2 & Hs2); [lia|done|].
    exists s2. by rewrite E2, fmap_app, app_assoc.
Qed.

Lemma within_kids n id c pages :
  reliable_children pages -> within n id -> c ∈ kids id -> within (Datatypes.S n) c.
Proof. intros Hrc Hw Hc. destruct (rc_kids _ Hrc _ _ Hc) as (Hroot & d & Hd & Hp). by eapply within_child. Qed.

Definition children_nodes (id : LinkId) : list Node := omap node_at (kids id).

Lemma list_folder_all n id inner s :
  reliable_children inner -> within n id -> (n < inner)%nat -> keys_right s ->
  exists s', list_folder get_children post_links share_key root_uid inner (uid_of id) s
             = Some (Ok (children_nodes id), s') /\ keys_right s'.
Proof.
  intros Hrc Hw Hn Hs. unfold list_folder, enumerate_folder_children_node_uids, fbind.
  destruct (rc_pages _ Hrc id n Hw) as (serves & m & Hl & Hm & Hserves).
  destruct (children_pages_all id serves m None (kids id) inner [] s Hserves Hl Hm Hs) as (s1 & E & Hs1).
  rewrite E. apply enumerate_nodes_all; [done|]. apply Forall_forall. intros c Hc.
  exists (Datatypes.S n). split; [by eapply within_kids|lia].
Qed.

(** A node's id, and that it is below its folder. *)
Lemma children_nodes_uid id node pages :
  reliable_children pages -> node ∈ children_nodes id ->
  exists c, c ∈ kids id /\ node_at c = Some node /\ nd_uid node = uid_of c.
Proof.
  intros Hrc (c & Hc & Hn)%list_elem_of_omap. exists c. split_and!; [done..|].
  destruct (rc_kids _ Hrc _ _ Hc) as (_ & d & Hd & _). unfold node_at in Hn. rewrite Hd in Hn. simpl in Hn.
  destruct (opener (ld_link d)) as [k|]; simpl in Hn; [|done].
  destruct (build_node vol d k) as [node'|e] eqn:Hb; simplify_eq/=.
  unfold build_node in Hb. destruct (decrypt_link k (ld_link d)); simplify_eq/=.
  by destruct (hl_sealed (rl_honest Hr) _ _ Hd) as [-> _].
Qed.

(** *** The subtree walk *)

Definition is_folder_at (id : LinkId) : Prop := exists node, node_at id = Some node /\ is_folder node = true.

(** What is below a folder, through folders. *)
Inductive below (folder : LinkId) : LinkId -> Prop :=
| below_child c : c ∈ kids folder -> below folder c
| below_deeper f c : f ∈ kids folder -> is_folder_at f -> below f c -> below folder c.

Definition folder_ids (nodes : list Node) : list LinkId :=
  (fun n => link_id (nd_uid n)) <$> filter (fun n => is_folder n = true) nodes.

(** The reference: the nodes of each level in the order their folders come. *)
Fixpoint levels (fuel : nat) (ids : list LinkId) : list Node :=
  match fuel with
  | O => []
  | Datatypes.S fuel =>
      let nodes := concat (children_nodes <$> ids) in
      nodes ++ levels fuel (folder_ids nodes)
  end.

Context (height : LinkId -> nat).

(** The subtree is finite: a child is less high than its folder. *)
Definition finite : Prop := forall id c, c ∈ kids id -> (height c < height id)%nat.

Context (inner : nat) (Hrc : reliable_children inner) (Hfin : finite).

(** A level whose keys and listings are in reach, down to its lowest node. *)
Definition level_ok (fuel : nat) (ids : list LinkId) : Prop :=
  Forall (fun id => (exists n, within n id /\ (n + height id < inner)%nat) /\ (height id < fuel)%nat) ids.

Lemma folder_ids_uids ids :
  NodeUid_new vol <$> folder_ids (concat (children_nodes <$> ids)) =
  nd_uid <$> filter (fun n => is_folder n = true) (concat (children_nodes <$> ids)).
Proof.
  unfold folder_ids. rewrite <- list_fmap_compose. apply list_fmap_ext. intros i n Hn.
  apply list_elem_of_lookup_2, list_elem_of_filter in Hn as [_ Hn].
  apply list_elem_of_In, in_concat in Hn as (l & Hl & Hn).
  apply list_elem_of_In, list_elem_of_fmap in Hl as (f & -> & _). apply list_elem_of_In in Hn.
  destruct (children_nodes_uid f n inner Hrc Hn) as (c & _ & _ & Hu). simpl. by rewrite Hu.
Qed.

Lemma elem_of_level ids c :
  c ∈ folder_ids (concat (children_nodes <$> ids)) <->
  exists f, f ∈ ids /\ c ∈ kids f /\ is_folder_at c.
Proof.
  unfold folder_ids. rewrite list_elem_of_fmap. setoid_rewrite list_elem_of_filter. split.
  - intros (n & -> & Hf & Hn). apply list_elem_of_In, in_concat in Hn as (l & Hl & Hn).
    apply list_elem_of_In, list_elem_of_fmap in Hl as (f & -> & Hfi). apply list_elem_of_In in Hn.
    destruct (children_nodes_uid f n inner Hrc Hn) as (c & Hc & Hat & Hu). rewrite Hu. simpl.
    exists f. split_and!; [done..|]. by exists n.
  - intros (f & Hf & Hc & n & Hat & Hfold).
    assert (n ∈ children_nodes f) as Hn by (apply list_elem_of_omap; eauto).
    exists n. split_and!; [|done|].
    + destruct (rc_kids _ Hrc _ _ Hc) as (_ & d & Hd & _). unfold node_at in Hat. rewrite Hd in Hat.
      simpl in Hat. destruct (opener (ld_link d)) as [k|]; simpl in Hat; [|done].
      destruct (build_node vol d k) as [node'|e] eqn:Hb; simplify_eq/=.
      unfold build_node in Hb. destruct (decrypt_link k (ld_link d)); simplify_eq/=.
      by destruct (hl_sealed (rl_honest Hr) _ _ Hd) as [-> _].
    + apply list_elem_of_In, in_concat. exists (children_nodes f).
      split; apply list_elem_of_In; [by apply list_elem_of_fmap_2|done].
Qed.

Lemma level_ok_next fuel ids :
  level_ok (Datatypes.S fuel) ids -> level_ok fuel (folder_ids (concat (children_nodes <$> ids))).
Proof.
  unfold level_ok. rewrite !Forall_forall. intros Hok c (f & Hf & Hc & _)%elem_of_level.
  destruct (Hok f Hf) as [(n & Hw & Hn) Hh]. pose proof (Hfin _ _ Hc). split; [|lia].
  exists (Datatypes.S n). split; [by eapply within_kids|lia].
Qed.

Lemma list_level_all fuel ids next found progress s :
  level_ok fuel ids -> keys_right s ->
  exists progress' s',
    list_level get_children post_links share_key root_uid inner (NodeUid_new vol <$> ids) next found progress s
    = Some (Ok (next ++ (NodeUid_new vol <$> folder_ids (concat (children_nodes <$> ids))),
                found ++ concat (children_nodes <$> ids), progress'), s') /\ keys_right s'.
Proof.
  rewrite folder_ids_uids. intros Hok. revert next found progress s.
  induction Hok as [|id ids [(n & Hw & Hn) _] _ IH]; intros next found progress s Hs.
  { exists progress, s. simpl. by rewrite !app_nil_r. }
  cbn [fmap list_fmap list_level]. unfold fbind.
  destruct (list_folder_all n id inner s Hrc Hw) as (s1 & E & Hs1); [lia|done|]. rewrite E.
  edestruct IH as (progress' & s2 & E2 & Hs2); [exact Hs1|]. exists progress', s2. rewrite E2.
  split; [|done]. cbn [concat]. by rewrite filter_app, fmap_app, !app_assoc.
Qed.

Lemma levels_nil fuel : levels fuel [] = [].
Proof. induction fuel as [|fuel IH]; [done|]. exact IH. Qed.

Lemma walk_levels_all fuel ids found progress s :
  level_ok fuel ids -> keys_right s ->
  exists progress' s',
    walk_levels get_children post_links share_key root_uid fuel inner (NodeUid_new vol <$> ids) found progress s
    = Some (Ok (found ++ levels fuel ids, progress'), s') /\ keys_right s'.
Proof.
  revert ids found progress s. induction fuel as [|fuel IH]; intros ids found progress s Hok Hs.
  - destruct ids as [|id ids]; [|by apply Forall_cons in Hok as [[_ ?] _]; lia].
    exists progress, s. simpl. by rewrite app_nil_r.
  - destruct ids as [|id ids].
    { exists progress, s. by rewrite levels_nil, app_nil_r. }
    cbn [fmap list_fmap walk_levels]. unfold fbind.
    destruct (list_level_all _ (id :: ids) [] found progress s Hok Hs) as (progress1 & s1 & E & Hs1).
    cbn [fmap list_fmap] in E. rewrite E. cbn [app].
    destruct (IH _ (found ++ concat (children_nodes <$> (id :: ids))) progress1 s1 (level_ok_next _ _ Hok) Hs1)
      as (progress2 & s2 & E2 & Hs2). exists progress2, s2. cbn [fmap list_fmap] in E2. rewrite E2.
    split; [|done]. cbn [levels]. by rewrite app_assoc.
Qed.

Lemma elem_of_levels fuel ids node :
  Forall (fun id => (height id < fuel)%nat) ids ->
  node ∈ levels fuel ids <-> exists f c, f ∈ ids /\ below f c /\ node_at c = Some node.
Proof.
  revert ids. induction fuel as [|fuel IH]; intros ids Hh; cbn [levels].
  { split; [by intros ?%elem_of_nil|]. intros (f & c & Hf & _). rewrite Forall_forall in Hh.
    specialize (Hh f Hf). lia. }
  rewrite elem_of_app, IH; clear IH.
  2:{ rewrite Forall_forall in *. intros c (f & Hf & Hc & _)%elem_of_level. specialize (Hh f Hf).
      pose proof (Hfin _ _ Hc). lia. }
  split.
  - intros [Hn|(f & c & (g & Hg & Hf & Hfold)%elem_of_level & Hb & Hat)].
    + apply list_elem_of_In, in_concat in Hn as (l & Hl & Hn).
      apply list_elem_of_In, list_elem_of_fmap in Hl as (f & -> & Hfi). apply list_elem_of_In in Hn.
      destruct (children_nodes_uid f node inner Hrc Hn) as (c & Hc & Hat & _).
      exists f, c. split_and!; [done|by apply below_child|done].
    + exists g, c. split_and!; [done|by eapply below_deeper|done].
  - intros (f & c & Hf & Hb & Hat). destruct Hb as [c Hc|g c Hg Hfold Hb].
    + apply or_introl. apply list_elem_of_In, in_concat. exists (children_nodes f).
      split; apply list_elem_of_In; [by apply list_elem_of_fmap_2|]. apply list_elem_of_omap. eauto.
    + apply or_intror. exists g, c. split_and!; [|done..]. apply elem_of_level. eauto.
Qed.
End Complete.
End KeyFacts.

(** ** What a visitor gets *)

(** Whatever the cache of node keys held and dropped, and whichever requests
    failed, a node key obtained through a public link is the node's own, and the
    cache keeps only right keys; with a server that answers, the key of a node
    [n] folders below the shared root is found within [n + 1] steps. *)
Theorem public_node_key_right {S Key} `{KeyOps Key} `{KeyStoreLaws S Key}
    post_links (share_key : Key) root_uid tree node_key_of id fuel (s : S) r s' :
  honest_links post_links share_key root_uid tree node_key_of ->
  keys_right root_uid node_key_of s ->
  node_key post_links share_key root_uid fuel (NodeUid_new (volume_id root_uid) id) s = Some (r, s') ->
  keys_right root_uid node_key_of s' /\ (forall key, r = Ok key -> key = node_key_of id) /\
  (reliable_links post_links share_key root_uid tree node_key_of ->
   forall n, within root_uid tree n id -> (n < fuel)%nat -> r = Ok (node_key_of id)).
Proof.
  intros Hh Hs E. pose proof (node_key_right _ _ _ _ _ Hh _ _ _ _ _ Hs E) as [Hs' Hk].
  split_and!; [done..|]. intros Hr n Hw Hn.
  destruct (node_key_found _ _ _ _ _ Hr n id fuel s Hw Hn Hs) as (s1 & E1 & _). congruence.
Qed.

(** C34: Against a server that answers, the walk of a shared folder ends and finds
    exactly the nodes below it - every page of every folder, level by level, in
    the order the folders list them. *)
Theorem enumerate_subtree_finds_all {S Key CKey} `{KeyOps Key} `{KeyStoreLaws S Key}
    `{ContentOps Key CKey} `{AttributeOps} `{PassphraseOps}
    post_links (share_key : Key) root_uid tree node_key_of get_children kids height inner folder n (s : S) :
  reliable_links post_links share_key root_uid tree node_key_of ->
  reliable_children root_uid tree node_key_of get_children kids inner ->
  finite kids height ->
  within root_uid tree n folder -> (n + height folder < inner)%nat -> keys_right root_uid node_key_of s ->
  exists nodes s',
    enumerate_subtree get_children post_links share_key root_uid (Datatypes.S (height folder)) inner
      (NodeUid_new (volume_id root_uid) folder) s = Some (Ok nodes, s') /\
    nodes = levels share_key root_uid tree node_key_of kids (Datatypes.S (height folder)) [folder] /\
    forall node, node ∈ nodes <->
      exists id, below share_key root_uid tree node_key_of kids folder id /\
                 node_at share_key root_uid tree node_key_of id = Some node.
Proof.
  intros Hr Hrc Hfin Hw Hn Hs. unfold enumerate_subtree, enumerate_subtree_reporting, fbind.
  destruct (walk_levels_all post_links share_key root_uid tree node_key_of Hr get_children kids height inner
              Hrc Hfin (Datatypes.S (height folder)) [folder] [] [] s) as (progress & s' & E & _); [|done|].
  { constructor; [|done]. split; [by exists n|lia]. }
  cbn [fmap list_fmap] in E. rewrite E. eexists _, s'. split_and!; [done..|].
  intros node. cbn [app].
  rewrite (elem_of_levels post_links share_key root_uid tree node_key_of Hr get_children kids height inner Hrc Hfin)
    by (constructor; [lia|done]).
  split; [intros (f & c & ->%list_elem_of_singleton & ?); eauto|].
  intros (c & Hb & Hat). exists folder, c. split_and!; [by apply list_elem_of_singleton|done..].
Qed.

(** ** A small link *)

#[export] Instance toy_content_ops : ContentOps string string := {
  decrypt_content_key k packet := decrypt_armored_message k packet;
  decrypt_thumbnail ck blob := decrypt_armored_message ck blob;
  decrypt_block ck blob := decrypt_armored_message ck blob
}.

#[export] Instance toy_attribute_ops : AttributeOps := { 
  parse_extended_attributes _ := Ok {| ea_common := None; ea_location := None |}
}.

#[export] Instance toy_link_passphrases : PassphraseOps := {
  bcrypt_hash password _ salt := Ok (salt +:+ salt +:+ password);
  base64_standard_decode := Ok
}.

Definition toy_root_uid : NodeUid := NodeUid_new "v" "r".
Definition toy_link_tree (id : LinkId) : option LinkDetailsDto := toy_details <$> toy_tree "" id.
Definition toy_link_key (id : LinkId) : string := "key-" +:+ id.

Definition toy_kids (id : LinkId) : list LinkId :=
  if decide (id = "r") then ["a"; "b"] else if decide (id = "a") then ["f"] else [].

Definition toy_height (id : LinkId) : nat :=
  if decide (id = "r") then 2 else if decide (id = "a") then 1 else 0.

Definition toy_page (ids : list LinkId) (anchor : option LinkId) : FolderChildrenResponse :=
  {| fc_link_ids := ids; fc_anchor_id := anchor; fc_more_results_exist := bool_decide (is_Some anchor) |}.

(** The root comes in two pages. *)
Definition toy_pages (id : LinkId) (anchor : option LinkId) : FolderChildrenResponse :=
  if decide (id = "r") then
    match anchor with None => toy_page ["a"] (Some "a") | Some _ => toy_page ["b"] None end
  else toy_page (toy_kids id) None.

Definition toy_children_server {S} (path : string) : M S FolderChildrenResponse ProtonError :=
  match List.find (fun id => String.prefix (children_path (NodeUid_new "v" id) None) path)
          ["r"; "a"; "b"; "f"] with
  | Some id => mret (toy_pages id (if String.eqb path (children_path (NodeUid_new "v" id) None)
                                   then None else Some "more"))
  | None => mfail (InvalidOperation "no such folder")
  end.

Lemma toy_opener link : opener "share" toy_root_uid toy_link_key link =
  if decide (ln_id link = "r") then Some "share" else (fun p => "key-" +:+ p) <$> ln_parent_id link.
Proof. done. Qed.

Lemma toy_link_cases id d :
  toy_link_tree id = Some d -> exists l, d = toy_details l /\ toy_tree "" id = Some l /\ l ∈ toy_links.
Proof.
  unfold toy_link_tree. destruct (toy_tree "" id) as [l|] eqn:Ht; [|done]. intros [= <-].
  exists l. split_and!; try done. apply head_Some_elem_of, list_elem_of_filter in Ht as [_ ?]. done.
Qed.

Lemma toy_opener_right l :
  l ∈ toy_links -> opener "share" toy_root_uid toy_link_key l = Some (parent_key_of toy_node_key toy_share_key "v" l).
Proof.
  intros Hl. assert (Forall (fun l => opener "share" toy_root_uid toy_link_key l =
    Some (parent_key_of toy_node_key toy_share_key "v" l)) toy_links) as Hall.
  { repeat (constructor; [vm_compute; reflexivity|]). constructor. }
  rewrite Forall_forall in Hall. by apply Hall.
Qed.

Lemma toy_reliable_links {S} `{KeyStoreLaws S string} :
  reliable_links (S := S) toy_server "share" toy_root_uid toy_link_tree toy_link_key.
Proof.
  split; [split|..].
  - intros id d (l & -> & Ht & Hl)%toy_link_cases. destruct (toy_sealed "v" id l Ht) as (Hid & [name Hopen] & Hexcl).
    split; [done|]. intros k dl Hk. pose proof (Hexcl _ _ Hk) as ->. cbn [ld_link toy_details]. rewrite (toy_opener_right l Hl).
    split; [done|]. simpl in Hk. rewrite Hopen in Hk. injection Hk as <-. done.
  - intros ids s r s' Hs [= <- <-]. split; [done|]. intros response d [= <-]. simpl.
    intros (l & -> & (id & Hid & Ht)%list_elem_of_omap)%list_elem_of_fmap. simpl.
    destruct (toy_sealed "" id l Ht) as [-> _]. split; [|done]. unfold toy_link_tree. by rewrite Ht.
  - intros ids s Hs. exists s. unfold toy_server, mret. do 3 f_equal. simpl.
    induction ids as [|id ids IH]; csimpl; [done|]. rewrite <- IH. unfold toy_link_tree.
    by destruct (toy_tree "" id).
  - intros id d k (l & -> & Ht & Hl)%toy_link_cases. cbn [ld_link toy_details].
    rewrite (toy_opener_right l Hl). intros [= <-].
    destruct (toy_sealed "v" id l Ht) as (Hid & [name Hopen] & _). by exists name.
Qed.

Lemma toy_kids_cases id c :
  c ∈ toy_kids id -> (id = "r" /\ c = "a") \/ (id = "r" /\ c = "b") \/ (id = "a" /\ c = "f").
Proof.
  unfold toy_kids. repeat case_decide; rewrite ?elem_of_cons, ?elem_of_nil; naive_solver.
Qed.

Lemma toy_within id n : within toy_root_uid toy_link_tree n id -> id ∈ ["r"; "a"; "b"; "f"].
Proof.
  intros Hw. assert (exists d, toy_link_tree id = Some d) as [d Hd] by (destruct Hw; eauto).
  apply toy_link_cases in Hd as (l & -> & Ht & Hl).
  destruct (toy_sealed "v" id l Ht) as [<- _]. unfold toy_links in Hl.
  rewrite !elem_of_cons, elem_of_nil in Hl. set_solver.
Qed.

Lemma toy_children_answers {S} id anchor (s : S) :
  id ∈ ["r"; "a"; "b"; "f"] ->
  toy_children_server (children_path (NodeUid_new "v" id) anchor) s = (Ok (toy_pages id anchor), s).
Proof.
  rewrite !elem_of_cons, elem_of_nil.
  intros [->|[->|[->|[->|[]]]]]; destruct anchor as [x|]; vm_compute; reflexivity.
Qed.

Lemma toy_listing id :
  id ∈ ["r"; "a"; "b"; "f"] -> exists m, listing (toy_pages id) m None (toy_kids id) /\ (m <= 2)%nat.
Proof.
  rewrite !elem_of_cons, elem_of_nil. intros [->|[->|[->|[->|[]]]]].
  - exists 2%nat. split; [|done].
    change (toy_kids "r") with (fc_link_ids (toy_pages "r" None) ++ fc_link_ids (toy_pages "r" (Some "a"))).
    apply listing_page with (next := "a"); [done..|]. apply listing_last. by left.
  - exists 1%nat. split; [|lia]. change (toy_kids "a") with (fc_link_ids (toy_pages "a" None)).
    apply listing_last. by left.
  - exists 1%nat. split; [|lia]. change (toy_kids "b") with (@nil LinkId). by apply listing_empty.
  - exists 1%nat. split; [|lia]. change (toy_kids "f") with (@nil LinkId). by apply listing_empty.
Qed.

Lemma toy_reliable_children {S} `{KeyStoreLaws S string} :
  reliable_children (S := S) toy_root_uid toy_link_tree toy_link_key toy_children_server toy_kids 6.
Proof.
  split.
  - intros id n Hw%toy_within. destruct (toy_listing id Hw) as (m & Hl & Hm).
    exists (toy_pages id), m. split_and!; [done|lia|]. intros anchor s Hs. exists s. split; [|done].
    by apply toy_children_answers.
  - intros id c Hc. destruct (toy_kids_cases id c Hc) as [[-> ->]|[[-> ->]|[-> ->]]];
      (split; [done|eexists; split; vm_compute; reflexivity]).
Qed.

Lemma toy_finite : finite toy_kids toy_height.
Proof. intros id c Hc. destruct (toy_kids_cases id c Hc) as [[-> ->]|[[-> ->]|[-> ->]]]; vm_compute; lia. Qed.

Lemma toy_cold_right : keys_right toy_root_uid toy_link_key (∅ : gmap NodeUid string).
Proof. intros id k. simpl. by rewrite lookup_empty. Qed.

Lemma enumerate_subtree_finds_all_witness :
  exists nodes s',
    enumerate_subtree toy_children_server toy_server "share" toy_root_uid 3 6 toy_root_uid
      (∅ : gmap NodeUid string) = Some (Ok nodes, s') /\
    nodes = levels "share" toy_root_uid toy_link_tree toy_link_key toy_kids 3 ["r"] /\
    forall node, node ∈ nodes <->
      exists id, below "share" toy_root_uid toy_link_tree toy_link_key toy_kids "r" id /\
                 node_at "share" toy_root_uid toy_link_tree toy_link_key id = Some node.
Proof.
  exact (enumerate_subtree_finds_all toy_server "share" toy_root_uid toy_link_tree toy_link_key
           toy_children_server toy_kids toy_height 6 "r" 0 ∅ toy_reliable_links toy_reliable_children
           toy_finite (within_root _ _ _ eq_refl) ltac:(vm_compute; lia) toy_cold_right).
Defined.

(** Both folders of the root, from two pages, then the one below. *)
Example toy_subtree_ids :
  (fun n => link_id (nd_uid n)) <$>
    levels "share" toy_root_uid toy_link_tree toy_link_key toy_kids 3 ["r"] = ["a"; "b"; "f"].
Proof. vm_compute. reflexivity. Qed.

Lemma public_node_key_right_witness :
  exists r s',
    node_key toy_server "share" toy_root_uid 3 (NodeUid_new "v" "f") (∅ : gmap NodeUid string) = Some (r, s') /\
    keys_right toy_root_uid toy_link_key s' /\ (forall key, r = Ok key -> key = "key-f") /\
    (reliable_links (S := gmap NodeUid string) toy_server "share" toy_root_uid toy_link_tree toy_link_key ->
     forall n, within toy_root_uid toy_link_tree n "f" -> (n < 3)%nat -> r = Ok "key-f").
Proof.
  eexists _, _. split; [vm_compute; reflexivity|].
  eapply (public_node_key_right toy_server "share" toy_root_uid toy_link_tree toy_link_key "f" 3
            (∅ : gmap NodeUid string)).
  - apply (rl_honest _ _ _ _ _ toy_reliable_links).
  - apply toy_cold_right.
  - vm_compute. reflexivity.
Defined.

(** ** A small handshake *)

Definition link_salt : list Z := [1; 2; 3; 4; 5; 6; 7; 8; 9; 10].

Definition link_server_proof : list Z :=
  match generate_proofs 3 4 (string_bytes "pw") link_salt "N" [9; 9] 16 (scripted_init []) with
  | Some (Ok p, _) => expected_server_proof p
  | _ => []
  end.

#[export] Instance toy_link_codec : PublicLinkCodec := {
  base64_bytes s := if String.eqb s "salt" then Ok link_salt
                    else if String.eqb s "B" then Ok [9; 9] else Err "base64";
  bytes_string _ := "0123456789abcdef";
  decode_link_info _ :=
    Ok {| pi_version := 4; pi_modulus := "N"; pi_server_ephemeral := "B";
          pi_url_password_salt := "salt"; pi_srp_session := "srp"; pi_flags := 2; pi_vendor_type := 0 |};
  encode_link_auth q := pq_client_proof q;
  decode_link_auth body :=
    Ok {| pa_server_proof := if String.eqb body "ok" then base64_encode link_server_proof else "forged";
          pa_uid := "uid"; pa_access_token := Some "a";
          pa_share := {| ps_volume_id := "v"; ps_link_id := "r"; ps_share_password_salt := "salt";
                         ps_share_key := "share"; ps_share_passphrase := "sealed";
                         ps_public_permissions := None |} |};
  decrypt_armored_with_password m _ := Ok m
}.

Definition toy_credentials : Credentials :=
  {| cr_config := demo_config; cr_token := "tok"; cr_password := "pw" |}.

(** An honest server opens the link. *)
Lemma auth_verifies_server_witness :
  exists (outcome : AuthOutcome scripted string) w',
    auth_sized 16 3 toy_credentials (scripted_init [plain 200 "ok"; plain 200 "ok"]) = Some (Ok outcome, w') /\
    ao_share_key outcome = "share" /\ hc_session_id (ao_http outcome) = "uid" /\
    hc_refresh_tokens (ao_http outcome) = false.
Proof.
  destruct (auth_sized 16 3 toy_credentials (scripted_init [plain 200 "ok"; plain 200 "ok"]))
    as [[[outcome|e] w']|] eqn:E; [|vm_compute in E; discriminate E|vm_compute in E; discriminate E].
  exists outcome, w'. split; [reflexivity|].
  destruct (auth_verifies_server _ _ _ _ _ _ E)
    as (i & salt & eph & p & r & t & w1 & w2 & _ & _ & _ & _ & _ & _ & _ & _ & _ & _ & _ & _ & Hf & _).
  split_and!; [vm_compute in E; injection E as <- _; reflexivity..|exact Hf].
Defined.

(** A forged proof opens nothing. *)
Example forged_proof_refused :
  fst <$> auth_sized (Key := string) 16 3 toy_credentials
    (scripted_init [plain 200 "ok"; plain 200 "forged"])
  = Some (Err (invalid_operation "public link server proof did not match; refusing the session")).
Proof. vm_compute. reflexivity. Qed.

(** An expired session, and what the server will answer. *)
Definition toy_session (script : list outcome) : PublicLinkSession scripted :=
  {| pu_credentials := toy_credentials; pu_http := demo_client; pu_state := demo_state script;
     pu_generation := 0 |}.

(** One refused handshake, one that works, and nothing for the third task. *)
Lemma renew_burst_one_session_witness :
  exists rs s',
    renew_burst (Key := string) 16 3 0 3
      (toy_session [plain 200 "ok"; plain 200 "forged"; plain 200 "ok"; plain 200 "ok"]) = Some (rs, s') /\
    pu_generation s' = 1 /\ is_ok <$> rs = [false; true; true].
Proof.
  destruct (renew_burst (Key := string) 16 3 0 3
    (toy_session [plain 200 "ok"; plain 200 "forged"; plain 200 "ok"; plain 200 "ok"]))
    as [[rs s']|] eqn:E; [|vm_compute in E; discriminate E].
  exists rs, s'. split; [reflexivity|].
  destruct (renew_burst_one_session 16 3 3
    (toy_session [plain 200 "ok"; plain 200 "forged"; plain 200 "ok"; plain 200 "ok"]) s' rs)
    as [[_ Hg]|(failed & w & outcome & w' & _ & _ & _ & _ & Hs)]; [vm_compute; split; congruence|exact E|..].
  - vm_compute in E. injection E as <- <-. vm_compute in Hg. discriminate Hg.
  - split; [rewrite Hs; reflexivity|]. vm_compute in E. injection E as <- _. reflexivity.
Defined.
