(* ===== verification/ThumbnailFacts.v ===== *)
(** * Public-link thumbnails: theorems

    Proved of [PublicLink.enumerate_thumbnails]: the batch never fails as a whole,
    and every requested file gets exactly one outcome, whatever the server leaves
    out, repeats or reports as an error. *)

From S2P Require Import Prelude Errors Config Http.
From S2P Require Import Keys Transport Revision Node Names.
From S2P Require Import EntityCache Links LinksFacts LinkCrypto PublicLink PublicLinkFacts.

(** ** Grouping by volume *)

Definition group_uids (g : VolumeId * list LinkId) : list NodeUid := NodeUid_new g.1 <$> g.2.

Definition group_members (groups : list (VolumeId * list LinkId)) : list NodeUid :=
  concat (group_uids <$> groups).

(** What [group_by_volume] keeps of a volume. *)
Definition group_of (groups : gmap VolumeId (list LinkId)) (v : VolumeId) : VolumeId * list LinkId :=
  (v, default [] (groups !! v)).

Definition members_of (order : list VolumeId) (groups : gmap VolumeId (list LinkId)) : list NodeUid :=
  group_members (group_of groups <$> order).

Lemma group_members_app g1 g2 : group_members (g1 ++ g2) = group_members g1 ++ group_members g2.
Proof. unfold group_members. by rewrite fmap_app, concat_app. Qed.

Lemma members_of_app o1 o2 groups : members_of (o1 ++ o2) groups = members_of o1 groups ++ members_of o2 groups.
Proof. unfold members_of. by rewrite fmap_app, group_members_app. Qed.

Lemma members_of_other v ids order groups :
  v ∉ order -> members_of order (<[v := ids]> groups) = members_of order groups.
Proof.
  intros Hv. unfold members_of. f_equal. apply list_fmap_ext. intros i w Hw. unfold group_of.
  rewrite lookup_insert_ne; [done|]. intros ->. by apply list_elem_of_lookup_2 in Hw.
Qed.

Lemma members_of_insert v ids order groups :
  members_of (v :: order) (<[v := ids]> groups)
  = (NodeUid_new v <$> ids) ++ members_of order (<[v := ids]> groups).
Proof. unfold members_of, group_members, group_of. simpl. by rewrite lookup_insert_eq. Qed.

Lemma members_of_cons v ids order groups :
  groups !! v = Some ids -> members_of (v :: order) groups = (NodeUid_new v <$> ids) ++ members_of order groups.
Proof. intros E. unfold members_of, group_members, group_of. simpl. by rewrite E. Qed.

Lemma NodeUid_eta uid : NodeUid_new (volume_id uid) (link_id uid) = uid.
Proof. by destruct uid. Qed.

Lemma volume_groups_perm uids order groups order' groups' :
  NoDup order -> (forall v, v ∈ order <-> is_Some (groups !! v)) ->
  volume_groups uids order groups = (order', groups') ->
  members_of order' groups' ≡ₚ members_of order groups ++ uids.
Proof.
  revert order groups. induction uids as [|uid uids IH]; intros order groups Hnd Hdom; simpl.
  { intros [= <- <-]. by rewrite app_nil_r. }
  destruct (groups !! volume_id uid) as [ids|] eqn:Hg; intros E.
  - assert (volume_id uid ∈ order) as Hin by (apply Hdom; eauto).
    apply IH in E as ->; [|done|].
    + apply list_elem_of_split in Hin as (l1 & l2 & ->).
      apply NoDup_app in Hnd as (_ & H1 & [H2 _]%NoDup_cons).
      assert (volume_id uid ∉ l1) as H1' by (intros Hx; by apply (H1 _ Hx); left).
      rewrite !members_of_app, members_of_insert, !members_of_other by done.
      rewrite (members_of_cons _ _ _ _ Hg), fmap_app. simpl. rewrite NodeUid_eta.
      rewrite <- !app_assoc. do 2 apply Permutation_app_head. simpl. by rewrite Permutation_middle.
    + intros v. rewrite Hdom, lookup_insert_is_Some'. naive_solver.
  - assert (volume_id uid ∉ order) as Hout by (rewrite Hdom, Hg; by intros [? ?]).
    apply IH in E as ->.
    + rewrite members_of_app, members_of_insert, members_of_other by done. simpl.
      by rewrite NodeUid_eta, <- app_assoc.
    + apply NoDup_app. split_and!; [done| |apply NoDup_singleton].
      intros x Hx ->%list_elem_of_singleton. done.
    + intros v. rewrite elem_of_app, list_elem_of_singleton, Hdom, lookup_insert_is_Some'. naive_solver.
Qed.

Lemma group_by_volume_perm uids : group_members (group_by_volume uids) ≡ₚ uids.
Proof.
  unfold group_by_volume. destruct (volume_groups uids [] ∅) as [order groups] eqn:E.
  apply volume_groups_perm in E; [exact E|constructor|].
  intros v. rewrite lookup_empty. split; [by intros ?%elem_of_nil|by intros [? ?]].
Qed.

(** ** One volume's targets *)

Section Thumbnails.
Context {St Key CKey : Type} `{KeyOps Key} `{KeyStore St Key} `{ContentOps Key CKey}
        `{AttributeOps} `{PassphraseOps}.
Context (post_links : string -> LinkDetailsRequest -> M St LinkDetailsResponse ProtonError).
Context (list_blocks : NodeUid -> string -> FM St (RevisionDto * list BlockDto) ProtonError).
Context (post_thumbnails : string -> ThumbnailBlockListRequest -> M St ThumbnailBlockListResponse ProtonError).
Context (get_blob : string -> string -> M St string ProtonError).
Context (share_key : Key) (root_uid : NodeUid).

Implicit Type tr : gmap string (NodeUid * CKey) * list FileThumbnail.

(** The files waiting for an outcome, and those that have one. *)
Definition waiting tr : list NodeUid :=
  (fun e => e.2.1) <$> map_to_list tr.1.
Definition files tr : list NodeUid := waiting tr ++ (ft_file_uid <$> tr.2).

(** Only outcomes happen: the files stay the same, and none waits anew. *)
Definition settles tr tr' : Prop := files tr' ≡ₚ files tr /\ tr'.1 ⊆ tr.1.

#[local] Instance settles_preorder : PreOrder settles.
Proof.
  split; [by intros tr|]. intros t1 t2 t3 [F1 S1] [F2 S2]. split; [by rewrite F2|by transitivity t2.1].
Qed.

Lemma settle_settles id outcome tr :
  settles tr (settle id outcome tr) /\ (settle id outcome tr).1 = delete id tr.1.
Proof.
  destruct tr as [targets results]. simpl. destruct (targets !! id) as [[uid ckey]|] eqn:Hid.
  - split; [|done]. split; [|apply delete_subseteq]. unfold files, waiting. simpl.
    rewrite <- (map_to_list_delete targets id (uid, ckey)) by done. rewrite fmap_app. simpl.
    rewrite Permutation_middle. apply Permutation_app_head. by rewrite Permutation_app_comm.
  - split; [done|]. simpl. by rewrite delete_id.
Qed.

Lemma settle_all_settles ids tr :
  settles tr (settle_all ids tr) /\ Forall (fun e => (settle_all ids tr).1 !! e.1 = None) ids.
Proof.
  unfold settle_all. revert tr. induction ids as [|e ids IH]; intros tr; simpl; [by split|].
  destruct (settle_settles e.1 (fun _ => Err e.2) tr) as [G1 Hd].
  destruct (IH (settle e.1 (fun _ => Err e.2) tr)) as [G2 Hf].
  split; [by etransitivity|]. constructor; [|done].
  destruct G2 as [_ Hsub]. eapply lookup_weaken_None; [|exact Hsub]. rewrite Hd. apply lookup_delete_eq.
Qed.

Lemma download_blocks_settles blocks tr s :
  exists tr' s', download_blocks get_blob blocks tr s = (Ok tr', s') /\ settles tr tr'.
Proof.
  revert tr s. induction blocks as [|block blocks IH]; intros tr s; simpl; [by exists tr, s|].
  destruct (tr.1 !! tb_thumbnail_id block) as [x|]; [|apply IH].
  unfold mbind_, mtry. destruct (get_blob _ _ s) as [r s1].
  match goal with |- context [download_blocks _ _ ?t] => destruct (IH t s1) as (tr' & s' & -> & Hs) end.
  exists tr', s'. split; [done|]. etransitivity; [|exact Hs]. apply settle_settles.
Qed.

Lemma drain_thumbnail_chunk_settles vol chunk tr s :
  exists tr' s', drain_thumbnail_chunk post_thumbnails get_blob vol chunk tr s = (Ok tr', s') /\
                 settles tr tr' /\ Forall (fun id => tr'.1 !! id = None) chunk.
Proof.
  unfold drain_thumbnail_chunk, mbind_, mtry.
  destruct (post_thumbnails _ _ s) as [[response|e] s1].
  - destruct (download_blocks_settles (tl_blocks response) tr s1) as (tr1 & s2 & -> & G1).
    eexists _, s2. split; [reflexivity|].
    match goal with |- context [settle_all ((fun id => (id, ?e)) <$> chunk) ?t] =>
      destruct (settle_all_settles ((fun id => (id, e)) <$> chunk) t) as [G2 Hf] end.
    split; [|by rewrite Forall_fmap in Hf]. etransitivity; [exact G1|]. etransitivity; [|exact G2].
    apply settle_all_settles.
  - eexists _, s1. split; [reflexivity|].
    match goal with |- context [settle_all ((fun id => (id, ?e)) <$> chunk) ?t] =>
      destruct (settle_all_settles ((fun id => (id, e)) <$> chunk) t) as [G2 Hf] end.
    split; [exact G2|]. by rewrite Forall_fmap in Hf.
Qed.

Lemma drain_chunks_settles vol chunks tr s :
  exists tr' s', drain_chunks post_thumbnails get_blob vol chunks tr s = (Ok tr', s') /\
                 settles tr tr' /\ Forall (fun id => tr'.1 !! id = None) (concat chunks).
Proof.
  revert tr s. induction chunks as [|chunk chunks IH]; intros tr s; simpl; [by exists tr, s|].
  unfold mbind_.
  destruct (drain_thumbnail_chunk_settles vol chunk tr s) as (tr1 & s1 & -> & G1 & Hf1).
  destruct (IH tr1 s1) as (tr2 & s2 & -> & G2 & Hf2). exists tr2, s2.
  split_and!; [done|by etransitivity|]. apply Forall_app. split; [|done].
  eapply Forall_impl; [exact Hf1|]. intros id Hid. eapply lookup_weaken_None; [exact Hid|apply G2].
Qed.

(** *** Finding the targets *)

Context (fuel : nat) (ty : ThumbnailType) (owner : string -> NodeUid).

(** Unlocking a file ends, and a thumbnail id names the file it is of. *)
Definition target_found (uid : NodeUid) : Prop := forall s, exists r s',
  thumbnail_target (CKey := CKey) post_links list_blocks share_key root_uid fuel uid ty s = Some (r, s') /\
  forall ckey id, r = Ok (ckey, Some id) -> owner id = uid.

Definition owned tr : Prop := forall id x, tr.1 !! id = Some x -> owner id = x.1.

Lemma not_waiting tr id uid : owned tr -> owner id = uid -> uid ∉ waiting tr -> tr.1 !! id = None.
Proof.
  intros Ho <- Hw. apply eq_None_not_Some. intros [x Hx]. apply Hw. unfold waiting.
  rewrite (Ho _ _ Hx). apply list_elem_of_fmap. exists (id, x). by rewrite elem_of_map_to_list.
Qed.

Lemma find_targets_all vol link_ids tr s :
  Forall target_found (NodeUid_new vol <$> link_ids) -> NoDup link_ids ->
  (forall id, id ∈ link_ids -> NodeUid_new vol id ∉ waiting tr) -> owned tr ->
  exists tr' s',
    find_targets post_links list_blocks share_key root_uid fuel vol ty link_ids tr s = Some (Ok tr', s') /\
    files tr' ≡ₚ files tr ++ (NodeUid_new vol <$> link_ids).
Proof.
  revert tr s. induction link_ids as [|id ids IH]; intros tr s Hf Hnd Hw Ho; simpl.
  { exists tr, s. by rewrite app_nil_r. }
  apply Forall_cons in Hf as [Hid Hf]. apply NoDup_cons in Hnd as [Hni Hnd].
  destruct (Hid s) as (r & s1 & E & Hown). rewrite E. destruct tr as [targets results].
  assert (forall tr', waiting tr' ≡ₚ NodeUid_new vol id :: waiting (targets, results) \/
                      waiting tr' = waiting (targets, results) ->
            forall i, i ∈ ids -> NodeUid_new vol i ∉ waiting tr') as Hw'.
  { intros tr' Hor i Hi Hin. apply (Hw i (list_elem_of_further _ _ _ Hi)).
    destruct Hor as [Hp|<-]; [|done]. rewrite Hp in Hin. apply elem_of_cons in Hin as [[= ->]|]; done. }
  match goal with |- context [find_targets _ _ _ _ _ _ _ _ ?t] => set (tr' := t) end.
  assert (files tr' ≡ₚ files (targets, results) ++ [NodeUid_new vol id] /\ owned tr' /\
          (forall i, i ∈ ids -> NodeUid_new vol i ∉ waiting tr')) as (Hfiles & Ho' & Hw'').
  { subst tr'. destruct r as [[ckey [tid|]]|e].
    - assert (targets !! tid = None) as Hnone
        by (eapply (not_waiting (targets, results)); [done|by eapply Hown|apply Hw; left]).
      assert (waiting (<[tid:=(NodeUid_new vol id, ckey)]> targets, results)
              ≡ₚ NodeUid_new vol id :: waiting (targets, results)) as Hp.
      { unfold waiting. simpl. rewrite map_to_list_insert by done. done. }
      split_and!; [| |apply Hw'; by left].
      + unfold files. rewrite Hp. simpl. by rewrite <- Permutation_cons_append.
      + intros i x. simpl. rewrite lookup_insert_Some. intros [[<- <-]|[_ Hi]]; [by eapply Hown|by eapply Ho].
    - split_and!; [|done|apply Hw'; by right].
      unfold files. simpl. by rewrite fmap_app, app_assoc.
    - split_and!; [|done|apply Hw'; by right].
      unfold files. simpl. by rewrite fmap_app, app_assoc. }
  destruct (IH tr' s1 Hf Hnd Hw'' Ho') as (tr2 & s2 & -> & Hfiles2). exists tr2, s2. split; [done|].
  by rewrite Hfiles2, Hfiles, <- app_assoc.
Qed.

(** *** The batch *)

Context (arrange : gmap string (NodeUid * CKey) -> list string).
Hypothesis arrange_keys : forall targets, arrange targets ≡ₚ (map_to_list targets).*1.

Lemma enumerate_thumbnails_in_all groups results s :
  NoDup (group_members groups) -> Forall target_found (group_members groups) ->
  exists results' s',
    enumerate_thumbnails_in post_links list_blocks post_thumbnails get_blob share_key root_uid fuel
      arrange ty groups results s = Some (Ok results', s') /\
    ft_file_uid <$> results' ≡ₚ (ft_file_uid <$> results) ++ group_members groups.
Proof.
  revert results s. induction groups as [|[vol ids] groups IH]; intros results s Hnd Hf; simpl.
  { exists results, s. by rewrite app_nil_r. }
  change (group_members ((vol, ids) :: groups))
    with ((NodeUid_new vol <$> ids) ++ group_members groups) in *.
  apply NoDup_app in Hnd as (Hnd1 & _ & Hnd2). apply Forall_app in Hf as [Hf1 Hf2].
  unfold fbind, flift.
  destruct (find_targets_all vol ids (∅, results) s) as ([targets found] & s1 & -> & Hfiles); [done|by apply NoDup_fmap_1 in Hnd1| | |].
  { intros id _. unfold waiting. simpl. rewrite map_to_list_empty. by intros ?%elem_of_nil. }
  { intros id x. simpl. by rewrite lookup_empty. }
  destruct (drain_chunks_settles vol
              (chunks MAX_THUMBNAIL_IDS_PER_REQUEST (arrange targets)) (targets, found) s1)
    as ([t2 r2] & s2 & -> & [Hfs Hsub] & Hnone).
  unfold chunks in Hnone. rewrite (proj1 (chunks_of_spec _ MAX_THUMBNAIL_IDS_PER_REQUEST
    (arrange targets) ltac:(unfold MAX_THUMBNAIL_IDS_PER_REQUEST; lia) ltac:(reflexivity))) in Hnone.
  assert (t2 = ∅) as ->.
  { apply map_empty. intros id. destruct (t2 !! id) as [x|] eqn:Hx; [|done].
    pose proof (lookup_weaken _ _ _ _ Hx Hsub) as Hx'. simpl in Hx'.
    rewrite Forall_forall in Hnone. simpl in Hnone. rewrite <- Hx. apply Hnone.
    rewrite arrange_keys. apply list_elem_of_fmap. exists (id, x). by rewrite elem_of_map_to_list. }
  destruct (IH r2 s2 Hnd2 Hf2) as (r3 & s3 & -> & Hp). exists r3, s3. split; [done|].
  rewrite Hp, app_assoc. apply Permutation_app_tail. rewrite Hfiles in Hfs.
  unfold files, waiting in Hfs. simpl in Hfs. rewrite !map_to_list_empty in Hfs. exact Hfs.
Qed.
End Thumbnails.

(** A batch of thumbnails never fails as a whole: each requested file gets
    exactly one outcome, in whichever order the targets are gathered and whatever
    the server leaves out, repeats, adds or reports as failed. *)
Theorem enumerate_thumbnails_one_outcome_each {St Key CKey} `{KeyOps Key} `{KeyStore St Key}
    `{ContentOps Key CKey} `{AttributeOps} `{PassphraseOps}
    post_links list_blocks post_thumbnails get_blob (share_key : Key) root_uid fuel
    (arrange : gmap string (NodeUid * CKey) -> list string) uids ty owner (s : St) :
  (forall targets, arrange targets ≡ₚ (map_to_list targets).*1) ->
  NoDup uids ->
  Forall (target_found (CKey := CKey) post_links list_blocks share_key root_uid fuel ty owner) uids ->
  exists results s',
    enumerate_thumbnails post_links list_blocks post_thumbnails get_blob share_key root_uid fuel
      arrange uids ty s = Some (Ok results, s') /\
    ft_file_uid <$> results ≡ₚ uids.
Proof.
  intros Harr Hnd Hf. pose proof (group_by_volume_perm uids) as Hg. unfold enumerate_thumbnails.
  edestruct (enumerate_thumbnails_in_all post_links list_blocks post_thumbnails get_blob share_key
    root_uid fuel ty owner arrange Harr (group_by_volume uids) [] s) as (results & s' & -> & Hp).
  - by rewrite Hg.
  - by rewrite Hg.
  - exists results, s'. split; [done|]. rewrite Hp. exact Hg.
Qed.

(** ** A small album *)

(** A key cache that remembers nothing. *)
#[export] Instance toy_no_store : KeyStore unit string := {
  folder_key_get _ s := (Ok None, s);
  folder_key_put _ _ s := (Ok tt, s)
}.

Definition toy_file (l : LinkDto) : LinkDetailsDto :=
  {| ld_link := l; ld_folder := None;
     ld_file := Some {| fi_media_type := "image/jpeg"; fi_total_size_on_storage := 1;
                        fi_content_key_packet := Some ("key-" +:+ ln_id l +:+ ":ck-" +:+ ln_id l);
                        fi_content_key_signature := None;
                        fi_active_revision := Some {| ar_id := "rev"; ar_creation_time := 0; ar_state := None;
                          ar_encrypted_size := 1; ar_signature_email := None;
                          ar_extended_attributes := None; ar_third_party := false; ar_sdk := true |} |};
     ld_photo := None; ld_album := None; ld_sharing := None; ld_membership := None |}.

Definition toy_files (_ : string) (q : LinkDetailsRequest) : M unit LinkDetailsResponse ProtonError :=
  mret {| lr_links := toy_file <$> omap (toy_tree "") (lq_link_ids q) |}.

(** [f] has no thumbnail. *)
Definition toy_revision (uid : NodeUid) (_ : string) : FM unit (RevisionDto * list BlockDto) ProtonError :=
  fret ({| rev_id := "rev"; rev_manifest_signature := None; rev_signature_email := None;
           rev_extended_attributes := None;
           rev_thumbnails := if String.eqb (link_id uid) "f" then []
             else [{| th_id := Some ("t-" +:+ link_id uid); th_type := 1; th_hash_digest := None |}];
           rev_blocks := [] |}, []).

(** The server answers for [a] twice, reports an id nobody asked for, and
    says nothing of [b]. *)
Definition toy_thumbnails (_ : string) (_ : ThumbnailBlockListRequest)
  : M unit ThumbnailBlockListResponse ProtonError :=
  mret {| tl_blocks := [{| tb_thumbnail_id := "t-a"; tb_bare_url := "ck-a:img"; tb_token := "t" |};
                        {| tb_thumbnail_id := "t-a"; tb_bare_url := "ck-a:img"; tb_token := "t" |}];
          tl_errors := [{| te_thumbnail_id := "t-z"; te_error := "gone" |}] |}.

Definition toy_blob (url _ : string) : M unit string ProtonError := mret url.

Definition toy_owner (id : string) : NodeUid := NodeUid_new "v" (String.substring 2 1 id).
Definition toy_arrange (m : gmap string (NodeUid * string)) : list string := (map_to_list m).*1.
Definition toy_batch : list NodeUid := NodeUid_new "v" <$> ["a"; "f"; "b"].

Lemma enumerate_thumbnails_one_outcome_each_witness :
  exists results s',
    enumerate_thumbnails toy_files toy_revision toy_thumbnails toy_blob "share" toy_root_uid 5
      toy_arrange toy_batch TThumbnail tt = Some (Ok results, s') /\
    ft_file_uid <$> results ≡ₚ toy_batch /\
    (fun t => is_ok (ft_result t)) <$> results = [false; true; false].
Proof.
  destruct (enumerate_thumbnails_one_outcome_each toy_files toy_revision toy_thumbnails toy_blob "share"
    toy_root_uid 5 toy_arrange toy_batch TThumbnail toy_owner tt) as (results & s' & E & Hp).
  - intros targets. reflexivity.
  - apply (bool_decide_unpack _). vm_compute. exact I.
  - repeat (constructor; [intros []; eexists _, _; split; [vm_compute; reflexivity|by intros ? ? [= <- <-]]|]).
    constructor.
  - exists results, s'. split_and!; [exact E|exact Hp|]. vm_compute in E. injection E as <- _. reflexivity.
Defined.
