(* ===== verification/Drive.v ===== *)
(** * The Drive client: its caches and its shares

    From [crates/proton-drive-rs/src/client.rs]: the in-memory cache of a
    [ProtonDriveClient], the bootstrap of the My Files and Photos volumes, the
    share keys behind parentless links (My Files, devices, shared with me) and the
    address a write is signed with.

    [DriveState] is the cache next to the world [W]: the server ([DriveApi]), the
    account client ([AccountKeys], [AccountAddresses]), the entity cache
    ([DriveEntities]) and the randomness.  The two bounded maps are [Lru]s.  The
    locks of [Bootstrap] serialize callers: a call is modelled as running alone. *)

From S2P Require Import Prelude Errors Config Keys Sealing Http Transport Node.
From S2P Require Import EntityCache Links LinkCrypto Account.

(** ** Wire records ([dtos.rs]) *)

Record ShareVolumeDto := { sv_id : VolumeId }.

Record MyFilesShareResponse := {
  mf_volume : ShareVolumeDto;
  mf_share : ShareDto;
  mf_link : LinkDetailsDto
}.

Record VolumeListItemDto := { vi_id : VolumeId; vi_state : Z; vi_volume_type : option Z }.
Record VolumeListResponse := { vl_volumes : list VolumeListItemDto }.

Record VolumeCreationRequest := {
  vq_address_id : AddressId;
  vq_address_key_id : string;
  vq_share_key : string;
  vq_share_passphrase : string;
  vq_share_passphrase_signature : string;
  vq_folder_name : string;
  vq_folder_key : string;
  vq_folder_passphrase : string;
  vq_folder_passphrase_signature : string;
  vq_folder_hash_key : string
}.

Record ShareResponse := { sr_share : ShareDto; sr_volume_id : VolumeId; sr_root_link_id : LinkId }.

Record ContextShareResponse := { cs_context_share_id : ShareId }.

Inductive ShareTargetType := TRoot | TFolder | TFile | TAlbum | TPhoto | TProtonVendor.

Definition ShareTargetType_from_raw (value : Z) : option ShareTargetType :=
  match value with
  | 0 => Some TRoot | 1 => Some TFolder | 2 => Some TFile
  | 3 => Some TAlbum | 4 => Some TPhoto | 5 => Some TProtonVendor
  | _ => None
  end.

Definition is_drive_item (t : ShareTargetType) : bool :=
  match t with TFolder | TFile | TProtonVendor => true | _ => false end.

Definition is_photos_item (t : ShareTargetType) : bool :=
  match t with TAlbum | TPhoto => true | _ => false end.

Record SharedWithMeLinkDto := {
  sw_volume_id : VolumeId;
  sw_share_id : ShareId;
  sw_link_id : LinkId;
  sw_share_target_type : Z
}.

Record SharedWithMeResponse := {
  sw_links : list SharedWithMeLinkDto;
  sw_anchor_id : option string;
  sw_more : bool
}.

Record SharedWithMeItem := { si_uid : NodeUid; si_share_id : ShareId }.

Record DeviceDataDto := {
  dd_id : string;
  dd_volume_id : VolumeId;
  dd_device_type : Z;
  dd_creation_time : Z;
  dd_last_sync_time : option Z
}.
Record DeviceShareDataDto := { ds_id : ShareId; ds_root_link_id : LinkId; ds_name : option string }.
Record DeviceListItemDto := { di_device : DeviceDataDto; di_share : DeviceShareDataDto }.
Record DeviceListResponse := { de_devices : list DeviceListItemDto }.

(** ** The interfaces *)

Class DriveApi (W : Type) := {
  get_share_bootstrap : string -> M W MyFilesShareResponse ProtonError;
  get_volumes : string -> M W VolumeListResponse ProtonError;
  post_volume : string -> VolumeCreationRequest -> M W unit ProtonError;
  get_share : string -> M W ShareResponse ProtonError;
  get_devices : string -> M W DeviceListResponse ProtonError;
  get_shared_with_me : string -> M W SharedWithMeResponse ProtonError;
  get_context_share : string -> M W ContextShareResponse ProtonError;
  post_links : string -> LinkDetailsRequest -> M W LinkDetailsResponse ProtonError
}.

Class AccountAddresses (W : Type) := {
  acct_default_address : M W Address ProtonError;
  acct_address : AddressId -> M W Address ProtonError
}.

(** [DriveEntityCache] over the client's repository. *)
Class DriveEntities (W : Type) := {
  entity_try_get_node : NodeUid -> M W (option CachedNodeInfo) ProtonError;
  entity_set_node : NodeUid -> Node -> option ShareId -> string -> M W unit ProtonError
}.

(** The [lru] crate's map. *)
Class Lru (L K V : Type) := {
  lru_cache_get : K -> L -> option V * L;
  lru_cache_put : K -> V -> L -> L
}.

(** ** The cache *)

Record ShareKey (Key : Type) := { sk_share_id : ShareId; sk_address_id : AddressId; sk_key : Key }.
Arguments sk_share_id {Key}. Arguments sk_address_id {Key}. Arguments sk_key {Key}.

Record DriveCache (Key FK CS : Type) := {
  dc_main_volume_id : option VolumeId;
  dc_my_files_share : option (ShareKey Key);
  dc_my_files_root : option NodeUid;
  dc_photos_share : option (ShareKey Key);
  dc_photos_root : option NodeUid;
  dc_photos_volume_exists : option bool;
  dc_folder_keys : FK;
  dc_shared_with_me_shares : option (gmap NodeUid ShareId);
  dc_context_share_ids : CS
}.
Arguments dc_main_volume_id {Key FK CS}. Arguments dc_my_files_share {Key FK CS}.
Arguments dc_my_files_root {Key FK CS}. Arguments dc_photos_share {Key FK CS}.
Arguments dc_photos_root {Key FK CS}. Arguments dc_photos_volume_exists {Key FK CS}.
Arguments dc_folder_keys {Key FK CS}. Arguments dc_shared_with_me_shares {Key FK CS}.
Arguments dc_context_share_ids {Key FK CS}.

Record DriveState (W Key FK CS : Type) := { ds_cache : DriveCache Key FK CS; ds_world : W }.
Arguments ds_cache {W Key FK CS}. Arguments ds_world {W Key FK CS}.

Section Updates.
Context {Key FK CS : Type}.
Implicit Type c : DriveCache Key FK CS.

Definition with_main_volume (volume_id : VolumeId) (root : NodeUid) (share : ShareKey Key)
    (keys : FK -> FK) c : DriveCache Key FK CS :=
  {| dc_main_volume_id := Some volume_id; dc_my_files_share := Some share;
     dc_my_files_root := Some root;
     dc_photos_share := dc_photos_share c; dc_photos_root := dc_photos_root c;
     dc_photos_volume_exists := dc_photos_volume_exists c;
     dc_folder_keys := keys (dc_folder_keys c);
     dc_shared_with_me_shares := dc_shared_with_me_shares c;
     dc_context_share_ids := dc_context_share_ids c |}.

Definition with_photos (root : NodeUid) (share : ShareKey Key) (keys : FK -> FK) c
  : DriveCache Key FK CS :=
  {| dc_main_volume_id := dc_main_volume_id c; dc_my_files_share := dc_my_files_share c;
     dc_my_files_root := dc_my_files_root c;
     dc_photos_share := Some share; dc_photos_root := Some root;
     dc_photos_volume_exists := Some true;
     dc_folder_keys := keys (dc_folder_keys c);
     dc_shared_with_me_shares := dc_shared_with_me_shares c;
     dc_context_share_ids := dc_context_share_ids c |}.

Definition with_photos_absent c : DriveCache Key FK CS :=
  {| dc_main_volume_id := dc_main_volume_id c; dc_my_files_share := dc_my_files_share c;
     dc_my_files_root := dc_my_files_root c;
     dc_photos_share := dc_photos_share c; dc_photos_root := dc_photos_root c;
     dc_photos_volume_exists := Some false;
     dc_folder_keys := dc_folder_keys c;
     dc_shared_with_me_shares := dc_shared_with_me_shares c;
     dc_context_share_ids := dc_context_share_ids c |}.

Definition with_lookups (keys : FK) (shares : option (gmap NodeUid ShareId)) (contexts : CS) c
  : DriveCache Key FK CS :=
  {| dc_main_volume_id := dc_main_volume_id c; dc_my_files_share := dc_my_files_share c;
     dc_my_files_root := dc_my_files_root c;
     dc_photos_share := dc_photos_share c; dc_photos_root := dc_photos_root c;
     dc_photos_volume_exists := dc_photos_volume_exists c;
     dc_folder_keys := keys; dc_shared_with_me_shares := shares;
     dc_context_share_ids := contexts |}.
End Updates.

(** [DriveCache::default], over empty maps. *)
Definition DriveCache_default {Key FK CS} (keys : FK) (contexts : CS) : DriveCache Key FK CS :=
  {| dc_main_volume_id := None; dc_my_files_share := None; dc_my_files_root := None;
     dc_photos_share := None; dc_photos_root := None; dc_photos_volume_exists := None;
     dc_folder_keys := keys; dc_shared_with_me_shares := None; dc_context_share_ids := contexts |}.

(** ** Decisions *)

Definition has_active_regular_volume (response : VolumeListResponse) : bool :=
  existsb (fun v => (vi_state v =? 1) && (default 1 (vi_volume_type v) =? 1)) (vl_volumes response).

Definition is_not_found (error : ProtonError) : bool :=
  match error with
  | Api e => bool_decide (pe_code e = ResponseCode.DoesNotExist) || (pe_http_status e =? 404)
  | _ => false
  end.

Definition drive_items (page : SharedWithMeResponse) : list SharedWithMeItem :=
  (fun link => {| si_uid := NodeUid_new (sw_volume_id link) (sw_link_id link);
                  si_share_id := sw_share_id link |})
    <$> filter (fun link => match ShareTargetType_from_raw (sw_share_target_type link) with
                            | Some t => is_drive_item t
                            | None => false
                            end = true) (sw_links page).

Definition context_share_path (uid : NodeUid) : string :=
  "volumes/" +:+ volume_id uid +:+ "/links/" +:+ link_id uid +:+ "/context".

Definition into_device_metadata (item : DeviceListItemDto) : Res DeviceMetadata :=
  let? device_type := DeviceType_from_raw (dd_device_type (di_device item)) in
  Ok {| dm_uid := dd_id (di_device item); dm_device_type := device_type;
        dm_root_folder_uid := NodeUid_new (dd_volume_id (di_device item)) (ds_root_link_id (di_share item));
        dm_creation_time := dd_creation_time (di_device item);
        dm_last_sync_time := dd_last_sync_time (di_device item);
        dm_has_deprecated_name := match ds_name (di_share item) with
                                  | Some name => negb (Str.is_empty name)
                                  | None => false
                                  end;
        dm_share_id := ds_id (di_share item) |}.

Fixpoint into_devices (items : list DeviceListItemDto) : Res (list DeviceMetadata) :=
  match items with
  | [] => Ok []
  | item :: items =>
      let? device := into_device_metadata item in
      let? devices := into_devices items in
      Ok (device :: devices)
  end.

Section Drive.
Context {W Key Pub FK CS : Type} `{KeyOps Key} `{PassphraseOps} `{SealOps W Key}
        `{DriveApi W} `{AccountKeys W Key Pub} `{AccountAddresses W} `{DriveEntities W}
        `{Lru FK NodeUid Key} `{Lru CS NodeUid ShareId}.

Abbreviation State := (DriveState W Key FK CS).
Abbreviation Call A := (M State A ProtonError).

Definition on_world {A} (m : M W A ProtonError) : Call A := fun s =>
  let (r, w) := m (ds_world s) in (r, {| ds_cache := ds_cache s; ds_world := w |}).

Definition drive_cache : Call (DriveCache Key FK CS) := fun s => (Ok (ds_cache s), s).

Definition update_drive (f : DriveCache Key FK CS -> DriveCache Key FK CS) : Call unit := fun s =>
  (Ok tt, {| ds_cache := f (ds_cache s); ds_world := ds_world s |}).

(** [expect]: the panic it would be is an error of its own. *)
Definition panicked (message : string) : ProtonError := invalid_operation ("panicked: " +:+ message).
Definition expect {A} (o : option A) (message : string) : Call A := mlift (ok_or o (panicked message)).

#[export] Instance drive_folder_keys : KeyStore State Key := {
  folder_key_get uid s :=
    let (key, keys) := lru_cache_get uid (dc_folder_keys (ds_cache s)) in
    (Ok key, {| ds_cache := with_lookups keys (dc_shared_with_me_shares (ds_cache s))
                              (dc_context_share_ids (ds_cache s)) (ds_cache s);
                ds_world := ds_world s |});
  folder_key_put uid key := update_drive (fun c =>
    with_lookups (lru_cache_put uid key (dc_folder_keys c)) (dc_shared_with_me_shares c)
      (dc_context_share_ids c) c)
}.

(** ** My Files *)

Definition create_volume : Call unit :=
  let* address := on_world acct_default_address in
  let* address_keys := on_world (acct_address_private_keys (ad_id address)) in
  let* address_key := mlift (ok_or (address_keys !! ad_primary_key_index address)
    (invalid_operation "default address has no primary key")) in
  let* material := on_world (fun w =>
    let (r, w) := build_volume_creation_material address_key "root" w in (map_err Crypto r, w)) in
  on_world (post_volume "volumes"
    {| vq_address_id := ad_id address; vq_address_key_id := ad_primary_key_id address;
       vq_share_key := vm_share_key_armored material;
       vq_share_passphrase := vm_share_passphrase material;
       vq_share_passphrase_signature := vm_share_passphrase_signature material;
       vq_folder_name := vm_folder_name material;
       vq_folder_key := vm_folder_key_armored material;
       vq_folder_passphrase := vm_folder_passphrase material;
       vq_folder_passphrase_signature := vm_folder_passphrase_signature material;
       vq_folder_hash_key := vm_folder_hash_key material |}).

Definition share_key_of_response (response : MyFilesShareResponse) (key : Key) : ShareKey Key :=
  {| sk_share_id := sh_id (mf_share response); sk_address_id := sh_address_id (mf_share response);
     sk_key := key |}.

(** The share as the server has it, created when there is none. *)
Definition my_files_response : Call MyFilesShareResponse :=
  let* found := mtry (on_world (get_share_bootstrap "v2/shares/my-files")) in
  match found with
  | Ok response => mret response
  | Err e =>
      if is_not_found e
      then let* _ := create_volume in on_world (get_share_bootstrap "v2/shares/my-files")
      else mfail e
  end.

(** Its key, from a new volume when the old one is locked. *)
Definition my_files_key (response : MyFilesShareResponse) : Call (MyFilesShareResponse * Key) :=
  let* opened := mtry (on_world (decrypt_share_key (mf_share response))) in
  match opened with
  | Ok key => mret (response, key)
  | Err (Crypto e) =>
      let* volumes := on_world (get_volumes "volumes") in
      if has_active_regular_volume volumes then mfail (Crypto e)
      else
        let* _ := create_volume in
        let* response := on_world (get_share_bootstrap "v2/shares/my-files") in
        let* key := on_world (decrypt_share_key (mf_share response)) in
        mret (response, key)
  | Err e => mfail e
  end.

Definition ensure_my_files : Call unit :=
  let* c := drive_cache in
  match dc_my_files_share c with
  | Some _ => mret tt
  | None =>
      let* found := my_files_response in
      let* (response, share_key) := my_files_key found in
      let root_link := ld_link (mf_link response) in
      let root_uid := NodeUid_new (sv_id (mf_volume response)) (ln_id root_link) in
      let* decrypted_root := mlift (decrypt_link share_key root_link) in
      update_drive (with_main_volume (sv_id (mf_volume response)) root_uid
        (share_key_of_response response share_key)
        (lru_cache_put root_uid (dl_node_key decrypted_root)))
  end.

Definition main_volume_id : Call VolumeId :=
  let* _ := ensure_my_files in
  let* c := drive_cache in
  expect (dc_main_volume_id c) "ensure_my_files populates the volume id".

Definition my_files_share : Call (ShareKey Key) :=
  let* _ := ensure_my_files in
  let* c := drive_cache in
  expect (dc_my_files_share c) "ensure_my_files populates the share".

Definition root_share_key : Call Key :=
  let* share := my_files_share in
  mret (sk_key share).

Definition my_files_share_id : Call (option ShareId) :=
  let* c := drive_cache in
  mret (sk_share_id <$> dc_my_files_share c).

(** ** Shares *)

Definition share_key_by_id (share_id : ShareId) : Call (Key * AddressId) :=
  let* response := on_world (get_share ("shares/" +:+ share_id)) in
  let* key := on_world (decrypt_share_key (sr_share response)) in
  mret (key, sh_address_id (sr_share response)).

Definition device_metadata : Call (list DeviceMetadata) :=
  let* response := on_world (get_devices "devices") in
  mlift (into_devices (de_devices response)).

Definition device_metadata_by_uid (device_uid : string) : Call DeviceMetadata :=
  let* devices := device_metadata in
  mlift (ok_or (List.find (fun d => String.eqb (dm_uid d) device_uid) devices)
           (invalid_operation ("device " +:+ device_uid +:+ " not found"))).

Definition shared_with_me_path (anchor : option string) : string :=
  match anchor with
  | Some anchor_id => "v2/sharedwithme?AnchorID=" +:+ anchor_id
  | None => "v2/sharedwithme"
  end.

Definition index_items (items : list SharedWithMeItem) (shares : gmap NodeUid ShareId)
  : gmap NodeUid ShareId :=
  foldl (fun shares item => <[si_uid item := si_share_id item]> shares) shares items.

(** The [loop] of [page_shared_with_me]; the fuel bounds the pages. *)
Fixpoint shared_with_me_pages (fuel : nat) (items : list SharedWithMeItem)
    (shares : gmap NodeUid ShareId) (anchor : option string)
  : FM State (list SharedWithMeItem * gmap NodeUid ShareId) ProtonError :=
  match fuel with
  | O => fun _ => None
  | S fuel =>
      let+ page := flift (on_world (get_shared_with_me (shared_with_me_path anchor))) in
      let shares := index_items (drive_items page) shares in
      let items := items ++ drive_items page in
      let anchor := id ← sw_anchor_id page; if Str.is_empty id then None else Some id in
      match sw_more page, anchor with
      | true, Some _ => shared_with_me_pages fuel items shares anchor
      | _, _ => fret (items, shares)
      end
  end.

Definition page_shared_with_me (fuel : nat) : FM State (list SharedWithMeItem) ProtonError :=
  let+ (items, shares) := shared_with_me_pages fuel [] ∅ None in
  let+ _ := flift (update_drive (fun c =>
    with_lookups (dc_folder_keys c) (Some shares) (dc_context_share_ids c) c)) in
  fret items.

Definition shared_with_me_shares (fuel : nat) (refresh : bool)
  : FM State (gmap NodeUid ShareId) ProtonError :=
  let+ c := flift drive_cache in
  match refresh, dc_shared_with_me_shares c with
  | false, Some shares => fret shares
  | _, _ =>
      let+ _ := page_shared_with_me fuel in
      let+ c := flift drive_cache in
      fret (default ∅ (dc_shared_with_me_shares c))
  end.

Definition enumerate_shared_with_me (fuel : nat) : FM State (list SharedWithMeItem) ProtonError :=
  page_shared_with_me fuel.

Definition enumerate_shared_with_me_node_uids (fuel : nat) : FM State (list NodeUid) ProtonError :=
  let+ items := page_shared_with_me fuel in
  fret (si_uid <$> items).

Definition shared_with_me_share_key (fuel : nat) (uid : NodeUid) : FM State (option Key) ProtonError :=
  let+ c := flift drive_cache in
  let was_cached := bool_decide (is_Some (dc_shared_with_me_shares c)) in
  let+ shares := shared_with_me_shares fuel false in
  let+ share_id := match shares !! uid with
                   | None =>
                       if was_cached
                       then let+ shares := shared_with_me_shares fuel true in fret (shares !! uid)
                       else fret None
                   | found => fret found
                   end in
  match share_id with
  | Some share_id =>
      let+ (key, _) := flift (share_key_by_id share_id) in
      fret (Some key)
  | None => fret None
  end.

(** The share behind a link without a parent. *)
Definition root_link_share_key (fuel : nat) (volume_id_ : VolumeId) (root_id : LinkId)
  : FM State Key ProtonError :=
  let+ _ := flift ensure_my_files in
  let+ c := flift drive_cache in
  if match dc_my_files_root c with
     | Some uid => String.eqb (link_id uid) root_id
     | None => false
     end
  then flift root_share_key
  else
    let+ devices := flift (mtry device_metadata) in
    match (devices ← ok devices;
           List.find (fun d => String.eqb (link_id (dm_root_folder_uid d)) root_id
                               && String.eqb (volume_id (dm_root_folder_uid d)) volume_id_) devices) with
    | Some device =>
        let+ (key, _) := flift (share_key_by_id (dm_share_id device)) in
        fret key
    | None =>
        let+ shared := shared_with_me_share_key fuel (NodeUid_new volume_id_ root_id) in
        match shared with
        | Some key => fret key
        | None => flift root_share_key
        end
    end.

(** ** Photos *)

Definition is_absent (error : ProtonError) : bool :=
  match error with
  | Api e => bool_decide (pe_code e = ResponseCode.DoesNotExist)
  | _ => false
  end.

Definition ensure_photos : Call bool :=
  let* c := drive_cache in
  match dc_photos_volume_exists c with
  | Some exists_ => mret exists_
  | None =>
      let* found := mtry (on_world (get_share_bootstrap "v2/shares/photos")) in
      match found with
      | Err e =>
          if is_absent e then let* _ := update_drive with_photos_absent in mret false else mfail e
      | Ok response =>
          let* share_key := on_world (decrypt_share_key (mf_share response)) in
          let root_link := ld_link (mf_link response) in
          let root_uid := NodeUid_new (sv_id (mf_volume response)) (ln_id root_link) in
          let* decrypted_root := mlift (decrypt_link share_key root_link) in
          let* _ := update_drive (with_photos root_uid (share_key_of_response response share_key)
                                    (lru_cache_put root_uid (dl_node_key decrypted_root))) in
          mret true
      end
  end.

Definition no_photos_volume : ProtonError := invalid_operation "account has no photos volume".

Definition photos_share : Call (ShareKey Key) :=
  let* exists_ := ensure_photos in
  if negb exists_ then mfail no_photos_volume
  else
    let* c := drive_cache in
    expect (dc_photos_share c) "ensure_photos populated the photos share".

Definition photos_share_key : Call Key :=
  let* share := photos_share in
  mret (sk_key share).

Definition photos_share_id : Call (option ShareId) :=
  let* c := drive_cache in
  mret (sk_share_id <$> dc_photos_share c).

(** [is_own_volume]: what cannot be looked up is not ours. *)
Definition is_own_volume (volume_id_ : VolumeId) : Call bool :=
  let* main := mtry main_volume_id in
  if match main with Ok main => String.eqb main volume_id_ | Err _ => false end then mret true
  else
    let* exists_ := mtry ensure_photos in
    match exists_ with
    | Ok true =>
        let* c := drive_cache in
        mret (match dc_photos_root c with
              | Some root => String.eqb (volume_id root) volume_id_
              | None => false
              end)
    | _ => mret false
    end.

(** ** Membership addresses *)

Definition resolve_membership_address (address_id : AddressId) : Call (AddressId * string * Key) :=
  let* address := on_world (acct_address address_id) in
  let* keys := on_world (acct_address_private_keys address_id) in
  let* signing_key := mlift (ok_or (keys !! ad_primary_key_index address)
    (invalid_operation "membership address has no primary key")) in
  mret (address_id, ad_email address, signing_key).

Definition membership_address : Call (AddressId * string * Key) :=
  let* share := my_files_share in
  resolve_membership_address (sk_address_id share).

Definition photos_membership_address : Call (AddressId * string * Key) :=
  let* share := photos_share in
  resolve_membership_address (sk_address_id share).

(** [context_share_id], under the read half of its gate. *)
Definition context_share_id (uid : NodeUid) : Call ShareId :=
  let* held := fun s : State =>
    let (id, contexts) := lru_cache_get uid (dc_context_share_ids (ds_cache s)) in
    (Ok id, {| ds_cache := with_lookups (dc_folder_keys (ds_cache s))
                             (dc_shared_with_me_shares (ds_cache s)) contexts (ds_cache s);
               ds_world := ds_world s |}) in
  match held with
  | Some share_id => mret share_id
  | None =>
      let* response := on_world (get_context_share (context_share_path uid)) in
      let* _ := update_drive (fun c =>
        with_lookups (dc_folder_keys c) (dc_shared_with_me_shares c)
          (lru_cache_put uid (cs_context_share_id response) (dc_context_share_ids c)) c) in
      mret (cs_context_share_id response)
  end.

Definition membership_address_for (uid : NodeUid) : Call (AddressId * string * Key) :=
  let* context_result := mtry (
    let* share_id := context_share_id uid in
    let* response := on_world (get_share ("shares/" +:+ share_id)) in
    resolve_membership_address (sh_address_id (sr_share response))) in
  match context_result with
  | Ok address => mret address
  | Err _ => membership_address
  end.

Definition address_primary_key_id (address_id : AddressId) : Call string :=
  let* address := on_world (acct_address address_id) in
  mret (ad_primary_key_id address).

(** ** Parent keys *)

Definition drive_post_links (path : string) (q : LinkDetailsRequest) : Call LinkDetailsResponse :=
  on_world (post_links path q).

Definition drive_entity_node (uid : NodeUid) : Call (option CachedNodeInfo) :=
  on_world (entity_try_get_node uid).

Definition drive_resolve_parent_key_ctx (fuel : nat) (volume_id_ : VolumeId) (link : LinkDto)
    (for_photos : bool) : FM State Key ProtonError :=
  resolve_parent_key_ctx drive_post_links drive_entity_node photos_share_key
    (root_link_share_key fuel) fuel volume_id_ link for_photos.

Definition drive_folder_node_key (fuel : nat) (uid : NodeUid) : FM State Key ProtonError :=
  folder_node_key drive_post_links drive_entity_node photos_share_key
    (root_link_share_key fuel) fuel uid.

Definition device_root_folder_name (device : DeviceMetadata) : Call string :=
  let* (share_key, _) := share_key_by_id (dm_share_id device) in
  let uid := dm_root_folder_uid device in
  let* details := get_link_details drive_post_links (volume_id uid) [link_id uid] in
  let* first := mlift (ok_or (head (lr_links details))
    (invalid_operation ("device root folder " +:+ NodeUid_display uid +:+ " not found"))) in
  let* decrypted := mlift (decrypt_link share_key (ld_link first)) in
  let* _ := folder_key_put uid (dl_node_key decrypted) in
  mret (dl_name decrypted).
End Drive.
