(* ===== verification/Nodes.v ===== *)
(** * The Drive client: nodes and folders

    From [crates/proton-drive-rs/src/client.rs]: building a decrypted node from
    what the server says of its link, reading nodes one by one and in batches,
    full and light, walking up to the root and down a path, and making folders.

    On the state of [Drive].  What [buffered] starts ahead is run in request
    order, the order its results are consumed in; concurrent loads of one node
    share a run through [SingleFlight], so a call is modelled as running alone. *)

From S2P Require Import Prelude Errors Config Keys Sealing Http Transport Revision Node Names.
From S2P Require Import EntityCache Links LinkCrypto Account Drive.

(** ** Wire records ([dtos.rs]) and inputs *)

Record ShareTrashDto := { tr_share_id : ShareId; tr_link_ids : list LinkId; tr_parent_ids : list LinkId }.
Record VolumeTrashResponse := { tr_trash_by_share : list ShareTrashDto }.

Record ReportRecentlyAccessedItem := {
  ra_volume_id : VolumeId;
  ra_link_id : LinkId;
  ra_access_time : Z
}.
Record ReportRecentlyAccessedRequest := { ra_items : list ReportRecentlyAccessedItem }.
Record RecentlyAccessedReportItem := { ri_uid : NodeUid; ri_access_time : option Z }.

Record FolderSizeResponse := { fr_descendents_size : Z; fr_descendents_count : Z }.
Record FolderSize := { fs_size : Z; fs_descendants : Z }.

Record FolderCreationRequest := {
  fq_name : string;
  fq_name_hash : string;
  fq_parent_link_id : LinkId;
  fq_passphrase : string;
  fq_passphrase_signature : string;
  fq_key : string;
  fq_node_hash_key : string;
  fq_signature_email : string;
  fq_extended_attributes : option string
}.
Record FolderCreationResponse := { fp_link_id : LinkId }.

Record RenameLinkRequest := {
  rn_name : string;
  rn_name_hash : string;
  rn_name_signature_email : string;
  rn_media_type : option string;
  rn_original_hash : string
}.

Inductive NodeDetail := Full | Light.

#[export] Instance NodeDetail_eq_dec : EqDecision NodeDetail.
Proof. solve_decision. Defined.

#[export] Instance LinkType_eq_dec : EqDecision LinkType.
Proof. solve_decision. Defined.

Definition TRASH_PAGE_SIZE : nat := 500.
Definition REPORT_BATCH : nat := 50.

Class NodeApi (W : Type) := {
  get_folder_children : string -> M W FolderChildrenResponse ProtonError;
  get_trash : string -> M W VolumeTrashResponse ProtonError;
  get_folder_size_response : string -> M W FolderSizeResponse ProtonError;
  post_recently_accessed : string -> ReportRecentlyAccessedRequest -> M W unit ProtonError;
  post_folder : string -> FolderCreationRequest -> M W FolderCreationResponse ProtonError;
  put_rename : string -> RenameLinkRequest -> M W unit ProtonError;
  now_epoch_seconds : W -> Z * W
}.

(** [hex::encode(hmac_sha256(..))], and [ExtendedAttributes] with a modification
    time only, as [serde_json] writes them. *)
Class NameOps := {
  hex_hmac_sha256 : string -> string -> string;
  serialize_modification_time : string -> result string string
}.

Definition share_membership_from_dto (dto : ShareMembershipSummaryDto) : ShareMembership :=
  {| sm_share_id := sd_share_id dto; sm_membership_id := sd_membership_id dto;
     sm_permissions := sd_permissions dto; sm_invite_time := sd_invite_time dto;
     sm_inviter_email := sd_inviter_email dto; sm_inviter_verification := None |}.

Definition with_inviter_verification (status : VerificationStatus) (m : ShareMembership) : ShareMembership :=
  {| sm_share_id := sm_share_id m; sm_membership_id := sm_membership_id m;
     sm_permissions := sm_permissions m; sm_invite_time := sm_invite_time m;
     sm_inviter_email := sm_inviter_email m; sm_inviter_verification := Some status |}.

Definition album_properties (volume_id : VolumeId) (album : AlbumDto) : AlbumProperties :=
  {| ap_photo_count := al_photo_count album;
     ap_cover_photo_uid := NodeUid_new volume_id <$> al_cover_link_id album;
     ap_last_activity_time := if negb (al_last_activity_time album =? 0)
                              then Some (al_last_activity_time album) else None |}.

Definition photo_properties (volume_id : VolumeId) (location : option PhotoLocation) (photo : PhotoDto)
  : PhotoProperties :=
  {| pp_capture_time := ph_capture_time photo;
     pp_content_hash := ph_content_hash photo;
     pp_main_photo_uid := NodeUid_new volume_id <$> ph_main_photo_link_id photo;
     pp_related_photo_uids := NodeUid_new volume_id <$> ph_related_photo_link_ids photo;
     pp_tags := omap PhotoTag_from_raw (ph_tags photo);
     pp_album_uids := (fun album => NodeUid_new volume_id (pa_album_link_id album))
                        <$> ph_album_inclusions photo;
     pp_location := location |}.

Definition file_data (file : FileDto) (attributes : option DecryptedExtendedAttributes) : FileData :=
  let common : option DecryptedCommonExtendedAttributes := attributes ≫= ea_common in
  {| fd_media_type := fi_media_type file;
     fd_total_size_on_storage := fi_total_size_on_storage file;
     fd_active_revision_state := (fun r => RevisionState_from_raw (ar_state r)) <$> fi_active_revision file;
     fd_active_revision_id := ar_id <$> fi_active_revision file;
     fd_claimed_size := common ≫= xa_size;
     fd_claimed_modification_time := common ≫= xa_modification_time;
     fd_content_sha1 := (common ≫= xa_digests) ≫= sha1 |}.

Definition claimed_location (attributes : option DecryptedExtendedAttributes) : option PhotoLocation :=
  attributes ← attributes; l ← ea_location attributes; from_claimed (lx_latitude l) (lx_longitude l).

Section Nodes.
Context {W Key Pub Sig CKey FK CS : Type} `{KeyOps Key} `{PassphraseOps} `{SealOps W Key}
        `{SignatureOps Key Pub Sig} `{VerifyOps Key Pub} `{ContentOps Key CKey}
        `{ContentKeyExport CKey} `{AttributeOps}
        `{DriveApi W} `{NodeApi W} `{AccountKeys W Key Pub} `{AccountAddresses W} `{DriveEntities W}
        `{NameOps} `{Lru FK NodeUid Key} `{Lru CS NodeUid ShareId}.

Abbreviation State := (DriveState W Key FK CS).
Abbreviation Call A := (M State A ProtonError).
Abbreviation Run A := (FM State A ProtonError).

(** ** Building a node *)

Definition verified_membership (dto : ShareMembershipSummaryDto) : Call ShareMembership :=
  let membership := share_membership_from_dto dto in
  let* status :=
    match sd_member_share_passphrase_key_packet dto,
          sd_inviter_share_passphrase_key_packet_signature dto with
    | Some packet, Some signature =>
        match base64_standard_decode packet with
        | Ok packet =>
            let email := default EmptyString (sd_inviter_email dto) in
            let* keys := if Str.is_empty email then mret []
                         else on_world (fun w => let (keys, w) := acct_public_keys (Key := Key) email w in
                                                 (Ok keys, w)) in
            mret (verify_detached_with_context signature packet (ring_from_public_keys keys)
                    SHARING_INVITER_CONTEXT)
        | Err _ => mret Failed
        end
    | _, _ => mret NotSigned
    end in
  mret (with_inviter_verification status membership).

(** The content key's status; whatever fails leaves it absent. *)
Definition content_key_status (link : LinkDto) (file : FileDto) (node_key : option Key)
  : Call (option VerificationStatus) :=
  match node_key, fi_content_key_packet file with
  | Some node_key, Some packet_b64 =>
      match base64_standard_decode packet_b64 with
      | Ok packet =>
          let* decrypted := mtry (on_world (decrypt_content_key_verified (CKey := CKey) node_key
            (ln_signature_email link) packet (fi_content_key_signature file))) in
          mret (snd <$> ok decrypted)
      | Err _ => mret None
      end
  | _, _ => mret None
  end.

(** The active revision's attributes and their status, likewise. *)
Definition active_attributes (file : FileDto) (node_key : option Key)
  : Call (option (DecryptedExtendedAttributes * VerificationStatus)) :=
  match node_key, fi_active_revision file with
  | Some node_key, Some rev =>
      match ar_extended_attributes rev with
      | Some xattr =>
          let* decrypted := mtry (on_world (decrypt_extended_attributes_verified node_key
            (ar_signature_email rev) xattr)) in
          mret (ok decrypted)
      | None => mret None
      end
  | _, _ => mret None
  end.

(** What the parent key opens: all of the link, or its name. *)
Definition open_link (parent_key : Key) (link : LinkDto) (detail : NodeDetail)
  : Call (string * option Key * NodeVerification) :=
  if bool_decide (detail = Full) || negb (bool_decide (parsed_type link = LFile)) then
    let* (decrypted, verification) := on_world (decrypt_link_verified parent_key link) in
    mret (dl_name decrypted, Some (dl_node_key decrypted), verification)
  else
    let* (name, verification) := on_world (decrypt_link_name_verified parent_key link) in
    mret (name, None, verification).

(** The [match] on the link's type: the kind, with the photo, the album and the
    statuses that come with it. *)
Definition node_kind_of (volume_id_ : VolumeId) (details : LinkDetailsDto) (node_key : option Key)
    (verification : NodeVerification)
  : Call (NodeKind * option PhotoProperties * option AlbumProperties * NodeVerification) :=
  let link := ld_link details in
  match parsed_type link with
  | LFolder | LAlbum =>
      let* node_key := mlift (ok_or node_key (invalid_operation "folder node built without its key")) in
      let* _ := folder_key_put (NodeUid_new volume_id_ (ln_id link)) node_key in
      mret (Node.Folder, None, album_properties volume_id_ <$> ld_album details, verification)
  | LFile =>
      let* file := mlift (ok_or (file_properties details)
                            (invalid_operation "file node missing file properties")) in
      let* content_key := content_key_status link file node_key in
      let* attributes := active_attributes file node_key in
      let location := claimed_location (fst <$> attributes) in
      mret (Node.File (file_data file (fst <$> attributes)),
            photo_properties volume_id_ location <$> ld_photo details, None,
            {| nv_name := nv_name verification; nv_passphrase := nv_passphrase verification;
               nv_content_key := content_key; nv_extended_attributes := snd <$> attributes |})
  | LUnknown =>
      mfail (invalid_operation ("unsupported link type " +:+ pretty (ln_link_type link)))
  end.

Definition direct_role_of (volume_id_ : VolumeId) (details : LinkDetailsDto) : Call MemberRole :=
  let* own := is_own_volume volume_id_ in
  mret (if own : bool then Admin
        else from_permissions (sd_permissions <$> ld_membership details)).

(** The node goes to the entity cache with its name hash; a failure there is none
    of the read's. *)
Definition remember_node (link : LinkDto) (node : Node) (for_photos : bool) : Call unit :=
  match ln_name_hash link with
  | None => mret tt
  | Some name_hash =>
      let* membership := if for_photos then photos_share_id else my_files_share_id in
      let* _ := mtry (E := ProtonError) (F := ProtonError)
                  (on_world (entity_set_node (nd_uid node) node membership name_hash)) in
      mret tt
  end.

Definition build_node_ctx (volume_id_ : VolumeId) (details : LinkDetailsDto) (parent_key : Key)
    (for_photos : bool) (detail : NodeDetail) : Call Node :=
  let link := ld_link details in
  let* (name, node_key, verification) := open_link parent_key link detail in
  let uid := NodeUid_new volume_id_ (ln_id link) in
  let* (kind, photo, album, verification) := node_kind_of volume_id_ details node_key verification in
  let* direct_role := direct_role_of volume_id_ details in
  let* membership := match ld_membership details with
                     | Some dto => let* m := verified_membership dto in mret (Some m)
                     | None => mret None
                     end in
  let node :=
    {| nd_uid := uid; nd_parent_uid := NodeUid_new volume_id_ <$> ln_parent_id link;
       nd_kind := kind; nd_name := name;
       nd_creation_time := ln_creation_time link; nd_modification_time := ln_modification_time link;
       nd_trashed := is_trashed link;
       nd_is_shared := bool_decide (is_Some (ld_sharing details));
       nd_is_shared_publicly := bool_decide (is_Some (ld_sharing details ≫= ls_share_url_id));
       nd_signature_email := ln_signature_email link;
       nd_membership := membership; nd_direct_role := Some direct_role;
       nd_share_id := ls_share_id <$> ld_sharing details;
       nd_photo := photo; nd_album := album; nd_verification := verification |} in
  let* _ := remember_node link node for_photos in
  mret node.

Definition build_node (volume_id_ : VolumeId) (details : LinkDetailsDto) (parent_key : Key)
    (detail : NodeDetail) : Call Node :=
  build_node_ctx volume_id_ details parent_key false detail.

(** ** Reading nodes *)

Definition load_node_ctx (fuel : nat) (uid : NodeUid) (for_photos : bool) : Run (option Node) :=
  let+ response := flift (get_link_details_ctx drive_post_links (volume_id uid) [link_id uid] for_photos) in
  match head (lr_links response) with
  | None => fret None
  | Some details =>
      let+ parent_key := drive_resolve_parent_key_ctx fuel (volume_id uid) (ld_link details) for_photos in
      let+ node := flift (build_node_ctx (volume_id uid) details parent_key for_photos Full) in
      fret (Some node)
  end.

Definition load_node (fuel : nat) (uid : NodeUid) : Run (option Node) := load_node_ctx fuel uid false.

Definition get_node (fuel : nat) (uid : NodeUid) : Run (option Node) :=
  let+ cached := flift (drive_entity_node uid) in
  match cached with
  | Some info => fret (Some (ci_node info))
  | None => load_node fuel uid
  end.

Definition get_my_files_folder (fuel : nat) : Run Node :=
  let+ _ := flift ensure_my_files in
  let+ c := flift drive_cache in
  let+ root_uid := flift (expect (dc_my_files_root c) "ensure_my_files populates the root uid") in
  let+ node := get_node fuel root_uid in
  flift (mlift (ok_or node (invalid_operation "My Files root folder not found"))).

Definition drive_get_children (path : string) : Call FolderChildrenResponse :=
  on_world (get_folder_children path).

Definition enumerate_folder_children_node_uids (fuel : nat) (folder_uid : NodeUid) : Run (list NodeUid) :=
  children_pages drive_get_children fuel folder_uid [] None.

(** The nodes of one answer, over the keys its parents resolved to: what has no
    key, or does not build, is left out. *)
Fixpoint build_nodes (volume_id_ : VolumeId) (parent_keys : gmap ParentKeyId Key) (for_photos : bool)
    (detail : NodeDetail) (links : list LinkDetailsDto) (nodes : list Node) : Call (list Node) :=
  match links with
  | [] => mret nodes
  | details :: links =>
      match parent_keys !! ParentKeyId_of (ld_link details) with
      | None => build_nodes volume_id_ parent_keys for_photos detail links nodes
      | Some parent_key =>
          let* built := mtry (build_node_ctx volume_id_ details parent_key for_photos detail) in
          build_nodes volume_id_ parent_keys for_photos detail links
            (nodes ++ match built with Ok node => [node] | Err _ => [] end)
      end
  end.

Fixpoint enumerate_chunks (fuel : nat) (volume_id_ : VolumeId) (detail : NodeDetail)
    (chunks : list (list LinkId)) (nodes : list Node) : Run (list Node) :=
  match chunks with
  | [] => fret nodes
  | chunk :: chunks =>
      let+ details := flift (get_link_details drive_post_links volume_id_ chunk) in
      let+ parent_keys := resolve_parent_keys (lr_links details)
        (fun link => drive_resolve_parent_key_ctx fuel volume_id_ link false) in
      let+ nodes := flift (build_nodes volume_id_ parent_keys false detail (lr_links details) nodes) in
      enumerate_chunks fuel volume_id_ detail chunks nodes
  end.

Fixpoint enumerate_volumes (fuel : nat) (detail : NodeDetail) (groups : list (VolumeId * list LinkId))
    (nodes : list Node) : Run (list Node) :=
  match groups with
  | [] => fret nodes
  | (volume_id_, link_ids) :: groups =>
      let+ nodes := enumerate_chunks fuel volume_id_ detail (chunks MAX_BATCH_COUNT link_ids) nodes in
      enumerate_volumes fuel detail groups nodes
  end.

Definition enumerate_nodes_detail (fuel : nat) (uids : list NodeUid) (detail : NodeDetail)
  : Run (list Node) :=
  enumerate_volumes fuel detail (group_by_volume uids) [].

Definition enumerate_nodes (fuel : nat) (uids : list NodeUid) := enumerate_nodes_detail fuel uids Full.

Definition enumerate_nodes_light (fuel : nat) (uids : list NodeUid) := enumerate_nodes_detail fuel uids Light.

(** ** Up to the root *)

(** The [while let] of [get_node_hierarchy]: [chain] is leaf-first, its last
    element the one whose parent is next; the fuel bounds the ancestors. *)
Fixpoint climb_parents (fuel inner : nat) (chain : list Node) (visited : gset NodeUid)
    (next : option NodeUid) : Run (list Node) :=
  match next with
  | None => fret chain
  | Some parent_uid =>
      match fuel with
      | O => fun _ => None
      | S fuel =>
          if bool_decide (parent_uid ∈ visited)
          then ffail (invalid_operation ("Folder structure loop detected at " +:+ NodeUid_display parent_uid))
          else
            let+ found := get_node inner parent_uid in
            let+ parent := flift (mlift (ok_or found (invalid_operation
              ("Node hierarchy is broken: parent " +:+ NodeUid_display parent_uid +:+ " does not exist")))) in
            climb_parents fuel inner (chain ++ [parent]) ({[parent_uid]} ∪ visited) (nd_parent_uid parent)
      end
  end.

Definition get_node_hierarchy (fuel inner : nat) (uid : NodeUid) : Run (option (list Node)) :=
  let+ found := get_node inner uid in
  match found with
  | None => fret None
  | Some node =>
      let+ chain := climb_parents fuel inner [node] {[uid]} (nd_parent_uid node) in
      fret (Some (rev chain))
  end.

Definition get_node_path (fuel inner : nat) (uid : NodeUid) : Run (option string) :=
  let+ hierarchy := get_node_hierarchy fuel inner uid in
  fret ((fun nodes => join_node_path (nd_name <$> drop 1 nodes)) <$> hierarchy).

(** ** Down a path *)

Definition named_child (name : string) (children : list Node) : option Node :=
  List.find (fun child => String.eqb (nd_name child) name) children.

Definition find_child_by_name (fuel : nat) (parent_uid : NodeUid) (name : string) : Run (option NodeUid) :=
  let+ child_uids := enumerate_folder_children_node_uids fuel parent_uid in
  match child_uids with
  | [] => fret None
  | _ =>
      let+ children := enumerate_nodes_light fuel child_uids in
      fret (nd_uid <$> named_child name children)
  end.

Fixpoint walk_segments (fuel : nat) (current : NodeUid) (segments : list string) : Run (option NodeUid) :=
  match segments with
  | [] => fret (Some current)
  | segment :: segments =>
      let+ child := find_child_by_name fuel current segment in
      match child with
      | None => fret None
      | Some child => walk_segments fuel child segments
      end
  end.

Definition get_node_by_path (fuel : nat) (root_uid : NodeUid) (path : string) : Run (option Node) :=
  let+ current := walk_segments fuel root_uid (path_segments path) in
  match current with
  | None => fret None
  | Some current => get_node fuel current
  end.

Definition find_existing_folder (fuel : nat) (parent_uid : NodeUid) (name : string) : Run (option NodeUid) :=
  let+ child_uids := enumerate_folder_children_node_uids fuel parent_uid in
  match child_uids with
  | [] => fret None
  | _ =>
      let+ children := enumerate_nodes_light fuel child_uids in
      match named_child name children with
      | Some child =>
          if is_folder child then fret (Some (nd_uid child))
          else ffail (invalid_operation ("Cannot create folder path: " +:+ name +:+ " exists as a file ("
                        +:+ NodeUid_display (nd_uid child) +:+ ")"))
      | None => fret None
      end
  end.

(** ** Making folders *)

Definition on_seal {A} (m : M W A CryptoError) : Call A :=
  on_world (fun w => let (r, w) := m w in (map_err Crypto r, w)).

(** The request of [create_folder], once the keys are there. *)
Definition seal_folder (parent_uid : NodeUid) (parent_key : Key) (parent_hash_key email : string)
    (signing_key : Key) (name : string) (last_modification_time : option string)
  : Call FolderCreationRequest :=
  let* node := on_seal generate_node_key in
  let* node_hash_key := on_seal (generate_node_hash_key (gk_key node)) in
  let* encrypted_name := on_seal (key_encrypt_and_sign parent_key signing_key name true false) in
  let name_hash := hex_hmac_sha256 parent_hash_key name in
  let* encrypted_passphrase := on_seal (key_encrypt parent_key (gk_passphrase node)) in
  let* passphrase_signature := on_seal (key_sign_detached signing_key (gk_passphrase node)) in
  let* extended_attributes :=
    match last_modification_time with
    | Some time =>
        let* xattr_json := mlift (map_err (fun e => invalid_operation ("serialize folder xattr: " +:+ e))
                                    (serialize_modification_time time)) in
        let* xattr := on_seal (key_encrypt_and_sign (gk_key node) signing_key xattr_json false true) in
        mret (Some xattr)
    | None => mret None
    end in
  mret {| fq_name := encrypted_name; fq_name_hash := name_hash;
          fq_parent_link_id := link_id parent_uid;
          fq_passphrase := encrypted_passphrase; fq_passphrase_signature := passphrase_signature;
          fq_key := gk_locked_armored node; fq_node_hash_key := node_hash_key;
          fq_signature_email := email; fq_extended_attributes := extended_attributes |}.

Definition create_folder (fuel : nat) (parent_uid : NodeUid) (name : string)
    (last_modification_time : option string) : Run NodeUid :=
  let+ _ := flift (mlift (validate_node_name name)) in
  let+ parent_key := drive_folder_node_key fuel parent_uid in
  let+ parent_hash_key := flift (parent_hash_key drive_post_links parent_uid parent_key) in
  let+ (_, email, signing_key) := flift membership_address in
  let+ request := flift (seal_folder parent_uid parent_key parent_hash_key email signing_key name
                           last_modification_time) in
  let+ created := flift (on_world (post_folder ("v2/volumes/" +:+ volume_id parent_uid +:+ "/folders") request)) in
  fret (NodeUid_new (volume_id parent_uid) (fp_link_id created)).

Fixpoint create_segments (fuel : nat) (current : NodeUid) (segments : list string) : Run NodeUid :=
  match segments with
  | [] => fret current
  | segment :: segments =>
      let+ existing := find_existing_folder fuel current segment in
      match existing with
      | Some existing => create_segments fuel existing segments
      | None =>
          let+ created := ftry (create_folder fuel current segment None) in
          match created with
          | Ok uid => create_segments fuel uid segments
          | Err err =>
              let+ existing := find_existing_folder fuel current segment in
              match existing with
              | None => ffail err
              | Some existing => create_segments fuel existing segments
              end
          end
      end
  end.

Definition create_folder_path (fuel : nat) (root_uid : NodeUid) (path : string) : Run NodeUid :=
  create_segments fuel root_uid (path_segments path).

(** ** Renaming *)

Definition cached_original_name_hash (uid : NodeUid) (link : LinkDto) : Call (option string) :=
  let* cached := drive_entity_node uid in
  mret (match cached with
        | Some info => if negb (Str.is_empty (ci_name_hash_digest info))
                       then Some (ci_name_hash_digest info) else ln_name_hash link
        | None => ln_name_hash link
        end).

Definition original_name_hash (uid : NodeUid) (link : LinkDto) (parent_key : Key)
    (parent_hash_key : string) : Call string :=
  let* cached := cached_original_name_hash uid link in
  match cached with
  | Some hash => mret hash
  | None =>
      let* current_name := mlift (map_err Crypto (decrypt_armored_message parent_key (ln_name link))) in
      mret (hex_hmac_sha256 parent_hash_key current_name)
  end.

Definition rename_node (fuel : nat) (uid : NodeUid) (new_name : string) (new_media_type : option string)
  : Run unit :=
  let+ _ := flift (mlift (validate_node_name new_name)) in
  let+ details := flift (get_link_details drive_post_links (volume_id uid) [link_id uid]) in
  let+ detail := flift (mlift (ok_or (head (lr_links details))
    (invalid_operation ("node " +:+ NodeUid_display uid +:+ " not found")))) in
  let link := ld_link detail in
  let+ parent_id := flift (mlift (ok_or (ln_parent_id link)
    (invalid_operation "cannot rename the root node"))) in
  let parent_uid := NodeUid_new (volume_id uid) parent_id in
  let+ parent_key := drive_folder_node_key fuel parent_uid in
  let+ parent_hash_key := flift (parent_hash_key drive_post_links parent_uid parent_key) in
  let+ (_, email, signing_key) := flift membership_address in
  let+ original_hash := flift (original_name_hash uid link parent_key parent_hash_key) in
  let+ encrypted_name := flift (on_seal (key_encrypt_and_sign parent_key signing_key new_name true false)) in
  flift (on_world (put_rename ("v2/volumes/" +:+ volume_id uid +:+ "/links/" +:+ link_id uid +:+ "/rename")
    {| rn_name := encrypted_name; rn_name_hash := hex_hmac_sha256 parent_hash_key new_name;
       rn_name_signature_email := email; rn_media_type := new_media_type;
       rn_original_hash := original_hash |})).

(** ** Folders and the trash *)

Definition get_folder_size (uid : NodeUid) : Call FolderSize :=
  let* response := on_world (get_folder_size_response ("volumes/" +:+ volume_id uid +:+ "/folders/"
    +:+ link_id uid +:+ "/calculate-descendents-size")) in
  mret {| fs_size := fr_descendents_size response; fs_descendants := fr_descendents_count response |}.

Definition trash_path (volume_id_ : VolumeId) (page : nat) : string :=
  "volumes/" +:+ volume_id_ +:+ "/trash?pageSize=" +:+ pretty TRASH_PAGE_SIZE +:+ "&page=" +:+ pretty page.

(** The [loop] of [enumerate_trash_node_uids]; the fuel bounds the pages. *)
Fixpoint trash_pages (fuel : nat) (volume_id_ : VolumeId) (uids : list NodeUid) (page : nat)
  : Run (list NodeUid) :=
  match fuel with
  | O => fun _ => None
  | S fuel =>
      let+ response := flift (on_world (get_trash (trash_path volume_id_ page))) in
      let ids := concat (tr_link_ids <$> tr_trash_by_share response) in
      let uids := uids ++ (NodeUid_new volume_id_ <$> ids) in
      if (length ids <? TRASH_PAGE_SIZE)%nat then fret uids
      else trash_pages fuel volume_id_ uids (page + 1)
  end.

Definition enumerate_trash_node_uids (fuel : nat) : Run (list NodeUid) :=
  let+ volume_id_ := flift main_volume_id in
  trash_pages fuel volume_id_ [] 0.

(** ** Recently opened *)

Fixpoint report_batches (path : string) (now : Z) (batches : list (list RecentlyAccessedReportItem))
  : Call unit :=
  match batches with
  | [] => mret tt
  | batch :: batches =>
      let* _ := on_world (post_recently_accessed path
        {| ra_items := (fun item => {| ra_volume_id := volume_id (ri_uid item);
                                       ra_link_id := link_id (ri_uid item);
                                       ra_access_time := default now (ri_access_time item) |}) <$> batch |}) in
      report_batches path now batches
  end.

Definition report_recently_accessed_to (path : string) (items : list RecentlyAccessedReportItem)
  : Call unit :=
  let* now := on_world (fun w => let (now, w) := now_epoch_seconds w in (Ok now, w)) in
  report_batches path now (chunks REPORT_BATCH items).

Definition report_recently_accessed (items : list RecentlyAccessedReportItem) : Call unit :=
  report_recently_accessed_to "recently-accessed-items" items.

Definition report_photos_recently_accessed (items : list RecentlyAccessedReportItem) : Call unit :=
  report_recently_accessed_to "photos/recently-accessed-items" items.

(** ** The photos volume's nodes *)

Definition get_photos_node (fuel : nat) (uid : NodeUid) : Run (option Node) := load_node_ctx fuel uid true.

Definition get_photos_root (fuel : nat) : Run (option Node) :=
  let+ exists_ := flift ensure_photos in
  if negb exists_ then fret None
  else
    let+ c := flift drive_cache in
    let+ root_uid := flift (expect (dc_photos_root c) "ensure_photos populated the photos root") in
    get_photos_node fuel root_uid.

Fixpoint build_photos (fuel : nat) (volume_id_ : VolumeId) (links : list LinkDetailsDto)
    (nodes : list Node) : Run (list Node) :=
  match links with
  | [] => fret nodes
  | detail :: links =>
      let+ parent_key := ftry (drive_resolve_parent_key_ctx fuel volume_id_ (ld_link detail) true) in
      match parent_key with
      | Err _ => build_photos fuel volume_id_ links nodes
      | Ok parent_key =>
          let+ built := flift (mtry (build_node_ctx volume_id_ detail parent_key true Full)) in
          build_photos fuel volume_id_ links
            (nodes ++ match built with Ok node => [node] | Err _ => [] end)
      end
  end.

Fixpoint photos_chunks (fuel : nat) (volume_id_ : VolumeId) (chunks : list (list LinkId))
    (nodes : list Node) : Run (list Node) :=
  match chunks with
  | [] => fret nodes
  | chunk :: chunks =>
      let+ details := flift (get_link_details_ctx drive_post_links volume_id_ chunk true) in
      let+ nodes := build_photos fuel volume_id_ (lr_links details) nodes in
      photos_chunks fuel volume_id_ chunks nodes
  end.

Fixpoint photos_volumes (fuel : nat) (groups : list (VolumeId * list LinkId)) (nodes : list Node)
  : Run (list Node) :=
  match groups with
  | [] => fret nodes
  | (volume_id_, link_ids) :: groups =>
      let+ nodes := photos_chunks fuel volume_id_ (chunks MAX_BATCH_COUNT link_ids) nodes in
      photos_volumes fuel groups nodes
  end.

Definition enumerate_photos_nodes (fuel : nat) (uids : list NodeUid) : Run (list Node) :=
  photos_volumes fuel (group_by_volume uids) [].
End Nodes.
