(* ===== verification/NodesFacts.v ===== *)
(** * The Drive client's tree: theorems

    Proved of [Nodes]: the walk up to the root gives the lineage of a node, or
    says that the folders loop, and always ends; the path made of it leads back to
    the node; making a path that is there makes nothing.

    [TreeReads] is what the tree operations are proved against: reading a node,
    listing a folder and the light batch answer from one tree. *)

From S2P Require Import Prelude Errors Config Keys Sealing Http Transport Revision Node Names NamesFacts.
From S2P Require Import EntityCache Links LinksFacts LinkCrypto LinkCryptoFacts Account Drive Nodes.

Section Tree.
Context {W Key Pub Sig CKey FK CS : Type} `{KeyOps Key} `{PassphraseOps} `{SealOps W Key}
        `{SignatureOps Key Pub Sig} `{!VerifyOps Key Pub} `{!ContentOps Key CKey}
        `{!ContentKeyExport CKey} `{AttributeOps}
        `{DriveApi W} `{!NodeApi W} `{!AccountKeys W Key Pub} `{!AccountAddresses W} `{!DriveEntities W}
        `{NameOps} `{!Lru FK NodeUid Key} `{!Lru CS NodeUid ShareId}.

Abbreviation State := (DriveState W Key FK CS).

(** The section's operations, at its key and message types. *)
Abbreviation get_node_ := (get_node (W := W) (Key := Key) (Pub := Pub) (Sig := Sig) (CKey := CKey) (FK := FK) (CS := CS)).
Abbreviation light_nodes_ := (enumerate_nodes_light (W := W) (Key := Key) (Pub := Pub) (Sig := Sig) (CKey := CKey) (FK := FK) (CS := CS)).
Abbreviation list_folder_ := (enumerate_folder_children_node_uids (W := W) (Key := Key) (FK := FK) (CS := CS)).

(** ** The walk up *)

(** The nodes read so far, leaf first, were asked for as [asked]: each is the
    parent the one before it names, and [next] is what the last names. *)
Definition climbing (asked : list NodeUid) (chain : list Node) (next : option NodeUid) : Prop :=
  NoDup asked /\ nd_parent_uid <$> chain = (Some <$> tail asked) ++ [next].

Lemma climb_parents_ends (J : State -> Prop) (universe : gset NodeUid) inner fuel uid asked chain visited
    next (s : State) :
  (forall u s, J s -> exists r s', get_node_ inner u s = Some (r, s') /\ J s' /\
     forall node p, r = Ok (Some node) -> nd_parent_uid node = Some p -> p ∈ universe) -> J s ->
  climbing (uid :: asked) chain next -> visited = list_to_set (uid :: asked) ->
  (forall p, next = Some p -> p ∈ universe) -> (size (universe ∖ visited) < fuel)%nat ->
  exists r s', climb_parents (W := W) (Pub := Pub) (Sig := Sig) (CKey := CKey) (CS := CS)
                 fuel inner chain visited next s = Some (r, s') /\
    forall chain', r = Ok chain' -> exists asked', climbing (uid :: asked') chain' None.
Proof.
  intros Hget. revert asked chain visited next s.
  induction fuel as [|fuel IH]; intros asked chain visited next s HJ [Hnd Hp] -> Hnext Hf; [lia|].
  destruct next as [p|]; [|by eexists _, s; split; [reflexivity|intros c [= <-]; exists asked]].
  cbn [climb_parents]. case_bool_decide as Hv; [by eexists _, s|].
  unfold fbind. destruct (Hget p s HJ) as (r & s1 & -> & HJ1 & Hr).
  destruct r as [[parent|]|e]; [|by eexists _, s1..]. cbn [flift mlift ok_or].
  unfold flift, mlift, ok_or.
  apply (IH (asked ++ [p])); [done|..].
  - split.
    + rewrite app_comm_cons. apply NoDup_app. split_and!; [done| |apply NoDup_singleton].
      intros x Hx ->%list_elem_of_singleton. apply Hv. by apply elem_of_list_to_set.
    + rewrite fmap_app, Hp. cbn [tail fmap list_fmap]. by rewrite fmap_app, <- !app_assoc.
  - rewrite app_comm_cons, list_to_set_app_L. simpl. set_solver.
  - intros q Hq. by eapply Hr.
  - eapply Nat.lt_le_trans; [|apply Nat.lt_succ_r, Hf]. apply subset_size.
    specialize (Hnext p eq_refl). set_solver.
Qed.

(** Whatever parents the server names, as long as they lie in a finite set of
    nodes, the walk to the root ends within as many steps as the set has nodes; and
    a hierarchy it returns is no loop: the first node has no parent, every other
    names as its parent the uid the node before it was read as, the last is the
    node asked for, and no node was read twice. *)
Theorem hierarchy_terminates (J : State -> Prop) (universe : gset NodeUid) inner uid (s : State) :
  (forall u s, J s -> exists r s', get_node_ inner u s = Some (r, s') /\ J s' /\
     forall node p, r = Ok (Some node) -> nd_parent_uid node = Some p -> p ∈ universe) -> J s ->
  exists r s', get_node_hierarchy (W := W) (Pub := Pub) (Sig := Sig) (CKey := CKey) (CS := CS)
                 (size universe + 1) inner uid s = Some (r, s') /\
    forall chain, r = Ok (Some chain) ->
      exists asked, NoDup (asked ++ [uid]) /\ nd_parent_uid <$> chain = None :: (Some <$> asked).
Proof.
  intros Hget HJ. unfold get_node_hierarchy, fbind. destruct (Hget uid s HJ) as (r & s1 & -> & HJ1 & Hr).
  destruct r as [[node|]|e]; [|by eexists _, s1..].
  destruct (climb_parents_ends J universe inner (size universe + 1) uid [] [node] {[uid]} (nd_parent_uid node) s1)
    as (r & s2 & E & Hc); [done|done| | | | |].
  - split; [apply NoDup_singleton|done].
  - simpl. set_solver.
  - intros p Hp. by eapply Hr.
  - rewrite Nat.add_1_r. apply Nat.lt_succ_r, subseteq_size. set_solver.
  - rewrite E. destruct r as [chain|e]; [|by eexists _, s2].
    eexists _, s2. split; [reflexivity|]. intros c [= <-].
    destruct (Hc chain eq_refl) as (asked & Hnd & Hp). exists (rev asked). split.
    + by rewrite <- (Permutation_rev asked), (Permutation_app_comm asked).
    + change (map nd_parent_uid (rev chain) = None :: map Some (rev asked)).
      rewrite map_rev. change (map nd_parent_uid chain) with (nd_parent_uid <$> chain).
      rewrite Hp, rev_app_distr. simpl. by rewrite map_rev.
Qed.

(** ** A tree to read *)

Context (I : State -> Prop) (inner : nat) (node_of : NodeUid -> option Node)
        (kids : NodeUid -> list NodeUid) (light : Node -> Node) (height : NodeUid -> nat).

(** While [I] holds - and reading keeps it - reads answer from the tree, the light
    batch in any order. *)
Record TreeReads : Prop := {
  tr_node uid s : I s -> exists s', get_node_ inner uid s = Some (Ok (node_of uid), s') /\ I s';
  tr_children uid s : I s -> is_Some (node_of uid) ->
    exists s', list_folder_ inner uid s = Some (Ok (kids uid), s') /\ I s';
  tr_light uid s : I s -> is_Some (node_of uid) ->
    exists nodes s', light_nodes_ inner (kids uid) s = Some (Ok nodes, s') /\ I s' /\
                     nodes ≡ₚ light <$> omap node_of (kids uid)
}.

(** Nodes carry their uids, hang below their parents, and siblings differ in name;
    a light node is the node but for what only its own key reads. *)
Record TreeShape : Prop := {
  ts_uid uid n : node_of uid = Some n -> nd_uid n = uid;
  ts_parent uid n p : node_of uid = Some n -> nd_parent_uid n = Some p ->
    is_Some (node_of p) /\ uid ∈ kids p /\ (height p < height uid)%nat;
  ts_names p u v a b : u ∈ kids p -> v ∈ kids p -> node_of u = Some a -> node_of v = Some b ->
    nd_name a = nd_name b -> u = v;
  ts_segment uid n : node_of uid = Some n -> is_Some (nd_parent_uid n) -> segment_ok (nd_name n);
  ts_light n : nd_uid (light n) = nd_uid n /\ nd_name (light n) = nd_name n /\
               is_folder (light n) = is_folder n
}.

Context (Hreads : TreeReads) (Hshape : TreeShape).

(** The nodes from the root down to [uid]. *)
Fixpoint lineage (fuel : nat) (uid : NodeUid) : list Node :=
  match node_of uid with
  | None => []
  | Some n =>
      match nd_parent_uid n, fuel with
      | Some p, Datatypes.S fuel => lineage fuel p ++ [n]
      | _, _ => [n]
      end
  end.

Lemma lineage_fuel fuel fuel' uid :
  (height uid <= fuel)%nat -> (height uid <= fuel')%nat -> lineage fuel uid = lineage fuel' uid.
Proof.
  revert fuel' uid. induction fuel as [|fuel IH]; intros fuel' uid Hf Hf'.
  - destruct fuel' as [|fuel']; [done|]. simpl. destruct (node_of uid) as [n|] eqn:En; [|done].
    destruct (nd_parent_uid n) as [p|] eqn:Ep; [|done].
    destruct (ts_parent Hshape _ _ _ En Ep) as (_ & _ & Hh). lia.
  - simpl. destruct (node_of uid) as [n|] eqn:En; [|by destruct fuel'; simpl; rewrite En].
    destruct (nd_parent_uid n) as [p|] eqn:Ep; [|by destruct fuel'; simpl; rewrite En, Ep].
    destruct (ts_parent Hshape _ _ _ En Ep) as (_ & _ & Hh).
    destruct fuel' as [|fuel']; [lia|]. simpl. rewrite En, Ep. f_equal. apply IH; lia.
Qed.

Lemma lineage_cons fuel uid n : node_of uid = Some n -> (height uid <= fuel)%nat ->
  exists root rest, lineage fuel uid = root :: rest /\ nd_parent_uid root = None /\
                    node_of (nd_uid root) = Some root /\ Forall (fun m => is_Some (nd_parent_uid m)) rest /\
                    Forall (fun m => node_of (nd_uid m) = Some m) rest.
Proof.
  revert uid n. induction fuel as [|fuel IH]; intros uid n En Hf; simpl; rewrite En;
    destruct (nd_parent_uid n) as [p|] eqn:Ep.
  - destruct (ts_parent Hshape _ _ _ En Ep) as (_ & _ & Hh). lia.
  - exists n, []. rewrite (ts_uid Hshape _ _ En). by repeat constructor.
  - destruct (ts_parent Hshape _ _ _ En Ep) as ([m Em] & _ & Hh).
    destruct (IH p m Em) as (root & rest & -> & Hr & Hn & Hp & Ho); [lia|]. exists root, (rest ++ [n]).
    split_and!; [done..|apply Forall_app_2; [done|]|apply Forall_app_2; [done|]]; repeat constructor; eauto.
    by rewrite (ts_uid Hshape _ _ En).
  - exists n, []. rewrite (ts_uid Hshape _ _ En). by repeat constructor.
Qed.

Lemma climb_parents_lineage fuel uid n chain visited s :
  I s -> node_of uid = Some n -> (height uid <= fuel)%nat ->
  (forall v, v ∈ visited -> (height uid <= height v)%nat) ->
  exists s', climb_parents (W := W) (Pub := Pub) (Sig := Sig) (CKey := CKey) (CS := CS)
               fuel inner (chain ++ [n]) visited (nd_parent_uid n) s
             = Some (Ok (chain ++ rev (lineage fuel uid)), s') /\ I s'.
Proof.
  revert uid n chain visited s. induction fuel as [|fuel IH]; intros uid n chain visited s Hs En Hf Hv;
    cbn [climb_parents lineage]; rewrite En; destruct (nd_parent_uid n) as [p|] eqn:Ep;
    try (destruct (ts_parent Hshape _ _ _ En Ep) as ([m Em] & _ & Hh)); try by exists s.
  - lia.
  - rewrite bool_decide_eq_false_2 by (intros Hin; apply Hv in Hin; lia).
    unfold fbind. destruct (tr_node Hreads p s Hs) as (s1 & -> & Hs1). rewrite Em.
    unfold flift, mlift, ok_or.
    destruct (IH p m (chain ++ [n]) ({[p]} ∪ visited) s1 Hs1 Em) as (s2 & E & Hs2); [lia| |].
    { intros v [->%elem_of_singleton|Hin]%elem_of_union; [lia|apply Hv in Hin; lia]. }
    exists s2. rewrite E, rev_app_distr, <- app_assoc. done.
Qed.

Lemma hierarchy_lineage fuel uid s :
  I s -> (height uid <= fuel)%nat ->
  exists s', get_node_hierarchy (W := W) (Pub := Pub) (Sig := Sig) (CKey := CKey) (CS := CS)
               fuel inner uid s
             = Some (Ok ((fun _ => lineage fuel uid) <$> node_of uid), s') /\ I s'.
Proof.
  intros Hs Hf. unfold get_node_hierarchy, fbind.
  destruct (tr_node Hreads uid s Hs) as (s1 & -> & Hs1).
  destruct (node_of uid) as [n|] eqn:En; [|by exists s1].
  destruct (climb_parents_lineage fuel uid n [] {[uid]} s1 Hs1 En Hf) as (s2 & E & Hs2).
  { by intros v ->%elem_of_singleton. }
  simpl in E. rewrite E, rev_involutive. by exists s2.
Qed.

(** ** Down again *)

Lemma named_child_found uid p n nodes :
  node_of uid = Some n -> uid ∈ kids p -> nodes ≡ₚ light <$> omap node_of (kids p) ->
  named_child (nd_name n) nodes = Some (light n).
Proof.
  intros En Hk Hp. unfold named_child. destruct (List.find _ nodes) as [c|] eqn:Ef.
  - apply List.find_some in Ef as [Hin Hc]. apply String.eqb_eq in Hc. f_equal.
    apply list_elem_of_In in Hin. rewrite Hp in Hin. apply list_elem_of_fmap in Hin as (m & -> & Hm).
    apply list_elem_of_omap in Hm as (v & Hv & Em). destruct (ts_light Hshape m) as (_ & Hn & _).
    rewrite Hn in Hc. enough (v = uid) as -> by congruence. by eapply (ts_names Hshape p).
  - apply (List.find_none _ _) with (x := light n) in Ef.
    + destruct (ts_light Hshape n) as (_ & Hn & _). rewrite Hn, String.eqb_refl in Ef. done.
    + apply list_elem_of_In. rewrite Hp. apply list_elem_of_fmap_2, list_elem_of_omap. eauto.
Qed.

(** What listing the parent finds. *)
Lemma listed_child uid p n s :
  I s -> node_of uid = Some n -> nd_parent_uid n = Some p ->
  exists s1 nodes s2, list_folder_ inner p s = Some (Ok (kids p), s1) /\ kids p <> [] /\
    light_nodes_ inner (kids p) s1 = Some (Ok nodes, s2) /\ I s2 /\
    named_child (nd_name n) nodes = Some (light n).
Proof.
  intros Hs En Ep. destruct (ts_parent Hshape _ _ _ En Ep) as (Hp & Hk & _).
  destruct (tr_children Hreads p s Hs Hp) as (s1 & E1 & Hs1).
  destruct (tr_light Hreads p s1 Hs1 Hp) as (nodes & s2 & E2 & Hs2 & Hperm).
  exists s1, nodes, s2. split_and!; try done; [|by eapply named_child_found].
  intros Hnil. rewrite Hnil in Hk. by apply elem_of_nil in Hk.
Qed.

Lemma find_child_found uid p n s :
  I s -> node_of uid = Some n -> nd_parent_uid n = Some p ->
  exists s', find_child_by_name (W := W) (Pub := Pub) (Sig := Sig) (CKey := CKey) (CS := CS)
               inner p (nd_name n) s = Some (Ok (Some uid), s') /\ I s'.
Proof.
  intros Hs En Ep. destruct (listed_child uid p n s Hs En Ep) as (s1 & nodes & s2 & E1 & Hne & E2 & Hs2 & Hc).
  exists s2. split; [|done]. unfold find_child_by_name, fbind. rewrite E1.
  destruct (kids p) as [|k ks] eqn:Ek; [done|]. rewrite E2, Hc. unfold fret. simpl.
  destruct (ts_light Hshape n) as (-> & _). by rewrite (ts_uid Hshape _ _ En).
Qed.

Lemma walk_segments_app xs x u v s s1 s2 :
  walk_segments (W := W) (Pub := Pub) (Sig := Sig) (CKey := CKey) (CS := CS) inner u xs s
    = Some (Ok (Some v), s1) ->
  find_child_by_name (W := W) (Pub := Pub) (Sig := Sig) (CKey := CKey) (CS := CS) inner v x s1 = s2 ->
  walk_segments (W := W) (Pub := Pub) (Sig := Sig) (CKey := CKey) (CS := CS) inner u (xs ++ [x]) s = s2.
Proof.
  revert u s. induction xs as [|y xs IH]; intros u s; simpl; unfold fbind, fret.
  - intros [= <- <-] <-. by destruct (find_child_by_name _ _ _ _) as [[[[c|]|e] s3]|].
  - destruct (find_child_by_name inner u y s) as [[[[c|]|e] s3]|]; [apply IH|done..].
Qed.

Lemma walk_lineage fuel uid n root rest s :
  I s -> node_of uid = Some n -> (height uid <= fuel)%nat -> lineage fuel uid = root :: rest ->
  exists s', walk_segments (W := W) (Pub := Pub) (Sig := Sig) (CKey := CKey) (CS := CS)
               inner (nd_uid root) (nd_name <$> rest) s = Some (Ok (Some uid), s') /\ I s'.
Proof.
  revert uid n rest. induction fuel as [|fuel IH]; intros uid n rest Hs En Hf; simpl; rewrite En;
    destruct (nd_parent_uid n) as [p|] eqn:Ep;
    try (destruct (ts_parent Hshape _ _ _ En Ep) as ([m Em] & _ & Hh)); try lia;
    try (intros [= <- <-]; exists s; by rewrite (ts_uid Hshape _ _ En)).
  destruct (lineage_cons fuel p m Em) as (root' & rest' & El & _); [lia|].
  rewrite El. intros [= <- <-]. destruct (IH p m rest' Hs Em) as (s1 & E1 & Hs1); [lia|done|].
  destruct (find_child_found uid p n s1 Hs1 En Ep) as (s2 & E2 & Hs2). exists s2. split; [|done].
  rewrite fmap_app. by apply (walk_segments_app _ _ _ p s s1).
Qed.

Lemma lineage_segments fuel uid n root rest :
  node_of uid = Some n -> (height uid <= fuel)%nat -> lineage fuel uid = root :: rest ->
  path_segments (join_node_path (nd_name <$> rest)) = nd_name <$> rest.
Proof.
  intros En Hf El. destruct (lineage_cons fuel uid n En Hf) as (root' & rest' & El' & _ & _ & Hp & Ho).
  rewrite El in El'. injection El' as <- <-. apply join_then_split. apply Forall_fmap, Forall_forall.
  intros m Hm. rewrite Forall_forall in Hp, Ho. by eapply (ts_segment Hshape); [apply Ho|apply Hp].
Qed.

(** The path of a node leads back to it: it is made of the names below the
    root of the node's own lineage, and resolving it from that root reads the node
    again, one listing per name. *)
Theorem path_leads_back fuel uid n s :
  I s -> node_of uid = Some n -> (height uid <= fuel)%nat ->
  exists root rest s1 s2, lineage fuel uid = root :: rest /\ nd_parent_uid root = None /\
    get_node_path (W := W) (Pub := Pub) (Sig := Sig) (CKey := CKey) (CS := CS) fuel inner uid s
      = Some (Ok (Some (join_node_path (nd_name <$> rest))), s1) /\ I s1 /\
    get_node_by_path (W := W) (Pub := Pub) (Sig := Sig) (CKey := CKey) (CS := CS) inner (nd_uid root)
      (join_node_path (nd_name <$> rest)) s1 = Some (Ok (Some n), s2) /\ I s2.
Proof.
  intros Hs En Hf. destruct (lineage_cons fuel uid n En Hf) as (root & rest & El & Hr & _).
  destruct (hierarchy_lineage fuel uid s Hs Hf) as (s1 & E1 & Hs1).
  destruct (walk_lineage fuel uid n root rest s1 Hs1 En Hf El) as (s2 & E2 & Hs2).
  destruct (tr_node Hreads uid s2 Hs2) as (s3 & E3 & Hs3).
  exists root, rest, s1, s3. split_and!; try done.
  - unfold get_node_path, fbind. rewrite E1, En. simpl. by rewrite El.
  - unfold get_node_by_path, fbind. rewrite (lineage_segments fuel uid n root rest) by done.
    by rewrite E2, E3, En.
Qed.

(** ** Making a path that is there *)

Lemma find_folder_found uid p n s :
  I s -> node_of uid = Some n -> nd_parent_uid n = Some p -> is_folder n = true ->
  exists s', find_existing_folder (W := W) (Pub := Pub) (Sig := Sig) (CKey := CKey) (CS := CS)
               inner p (nd_name n) s = Some (Ok (Some uid), s') /\ I s'.
Proof.
  intros Hs En Ep Hfold.
  destruct (listed_child uid p n s Hs En Ep) as (s1 & nodes & s2 & E1 & Hne & E2 & Hs2 & Hc).
  exists s2. split; [|done]. unfold find_existing_folder, fbind. rewrite E1.
  destruct (kids p) as [|k ks] eqn:Ek; [done|]. rewrite E2, Hc.
  destruct (ts_light Hshape n) as (-> & _ & ->). by rewrite Hfold, (ts_uid Hshape _ _ En).
Qed.

Lemma create_segments_app xs x u v w s s1 s2 :
  create_segments (W := W) (Pub := Pub) (Sig := Sig) (CKey := CKey) (CS := CS) inner u xs s
    = Some (Ok v, s1) ->
  find_existing_folder (W := W) (Pub := Pub) (Sig := Sig) (CKey := CKey) (CS := CS) inner v x s1
    = Some (Ok (Some w), s2) ->
  create_segments (W := W) (Pub := Pub) (Sig := Sig) (CKey := CKey) (CS := CS) inner u (xs ++ [x]) s
    = Some (Ok w, s2).
Proof.
  revert u s. induction xs as [|y xs IH]; intros u s; simpl; unfold fbind.
  - intros [= <- <-] ->. done.
  - destruct (find_existing_folder inner u y s) as [[[[c|]|e] s3]|]; [by apply IH| |done..].
    unfold ftry. destruct (create_folder _ _ _ _ _) as [[[c|e] s4]|]; [by apply IH| |done].
    destruct (find_existing_folder inner u y s4) as [[[[c|]|e'] s5]|]; [by apply IH|done..].
Qed.

(** Making a path whose folders are all there makes nothing: it finds each by
    its name, gives the last and stays within what reading does. *)
Theorem existing_path_reused fuel uid n root rest s :
  I s -> node_of uid = Some n -> (height uid <= fuel)%nat -> lineage fuel uid = root :: rest ->
  Forall (fun m => is_folder m = true) rest ->
  exists s', create_folder_path (W := W) (Pub := Pub) (Sig := Sig) (CKey := CKey) (CS := CS)
               inner (nd_uid root) (join_node_path (nd_name <$> rest)) s = Some (Ok uid, s') /\ I s'.
Proof.
  intros Hs En Hf El Hfold. unfold create_folder_path.
  rewrite (lineage_segments fuel uid n root rest) by done.
  revert uid n rest En Hf El Hfold. induction fuel as [|fuel IH]; intros uid n rest En Hf; simpl; rewrite En;
    destruct (nd_parent_uid n) as [p|] eqn:Ep;
    try (destruct (ts_parent Hshape _ _ _ En Ep) as ([m Em] & _ & Hh)); try lia;
    try (intros [= <- <-] _; exists s; by rewrite (ts_uid Hshape _ _ En)).
  destruct (lineage_cons fuel p m Em) as (root' & rest' & El & _); [lia|].
  rewrite El. intros [= <- <-] [Hfold [Hn _]%Forall_cons]%Forall_app.
  destruct (IH p m rest' Em) as (s1 & E1 & Hs1); [lia|done|done|].
  destruct (find_folder_found uid p n s1 Hs1 En Ep Hn) as (s2 & E2 & Hs2). exists s2. split; [|done].
  rewrite fmap_app. by eapply create_segments_app.
Qed.
End Tree.

(** ** A small volume

    A root folder [r] with folders [a] and [b], and a file [f] in [a].  Nothing is
    cached, so every read goes to the server. *)

#[export] Instance small_passphrases : PassphraseOps := {
  bcrypt_hash password _ salt := Ok (salt +:+ password);
  base64_standard_decode := Ok
}.
#[export] Instance small_content : ContentOps string string := {
  decrypt_content_key k packet := decrypt_armored_message k packet;
  decrypt_thumbnail ck blob := decrypt_armored_message ck blob;
  decrypt_block ck blob := decrypt_armored_message ck blob
}.
#[export] Instance small_export : ContentKeyExport string := { export_content_key := Ok }.
#[export] Instance small_attributes : AttributeOps := {
  parse_extended_attributes _ := Ok {| ea_common := None; ea_location := None |}
}.

(** Sealing for [k] writes [k:] before the data. *)
#[export] Instance small_seal : SealOps unit string := {
  fill_bytes n w := ("random", w);
  base64_standard_encode s := s;
  generate_locked_key _ pw := mret ("locked-" +:+ pw);
  key_encrypt k data := mret (k +:+ ":" +:+ data);
  key_encrypt_and_sign k _ data _ _ := mret (k +:+ ":" +:+ data);
  key_sign_detached k data := mret ("pub-" +:+ k +:+ "|" +:+ data);
  sign_detached_binary_with_context k data _ := mret (k +:+ data)
}.

Definition small_link (id : LinkId) (parent : option LinkId) (type : Z) : LinkDto :=
  let parent_key := match parent with Some p => "key-" +:+ p | None => "share" end in
  {| ln_id := id; ln_link_type := type; ln_parent_id := parent; ln_state := 1; ln_creation_time := 0;
     ln_modification_time := 0; ln_trash_time := None; ln_trashed_legacy := None;
     ln_name := parent_key +:+ ":name-" +:+ id; ln_name_hash := Some "hash"; ln_key := "key-" +:+ id;
     ln_passphrase := parent_key +:+ ":pass"; ln_passphrase_signature := None;
     ln_signature_email := None; ln_name_signature_email := None;
     ln_third_party := false; ln_sdk := true |}.

Definition small_details (id : LinkId) (parent : option LinkId) (type : Z) : LinkDetailsDto :=
  {| ld_link := small_link id parent type; ld_folder := None;
     ld_file := if type =? 2
                then Some {| fi_media_type := "text/plain"; fi_total_size_on_storage := 3;
                             fi_content_key_packet := Some ("key-" +:+ id +:+ ":ck");
                             fi_content_key_signature := None;
                             fi_active_revision := Some {| ar_id := "rev"; ar_creation_time := 0;
                               ar_state := Some 1; ar_encrypted_size := 3; ar_signature_email := Some "bob";
                               ar_extended_attributes := None; ar_third_party := false; ar_sdk := true |} |}
                else None;
     ld_photo := None; ld_album := None; ld_sharing := None; ld_membership := None |}.

Definition small_tree : list LinkDetailsDto :=
  [small_details "r" None 1; small_details "a" (Some "r") 1; small_details "b" (Some "r") 1;
   small_details "f" (Some "a") 2].

Definition small_find (id : LinkId) : list LinkDetailsDto :=
  filter (fun d => ln_id (ld_link d) = id) small_tree.

Definition small_share : ShareDto :=
  {| sh_id := "s"; sh_key := "share"; sh_passphrase := "addr:pass"; sh_passphrase_signature := None;
     sh_address_id := "me" |}.

#[export] Instance small_server : DriveApi unit := {
  get_share_bootstrap path :=
    if String.eqb path "v2/shares/my-files"
    then mret {| mf_volume := {| sv_id := "v" |}; mf_share := small_share;
                 mf_link := small_details "r" None 1 |}
    else mfail (invalid_operation "absent");
  get_volumes _ := mret {| vl_volumes := [] |};
  post_volume _ _ := mret tt;
  get_share _ := mret {| sr_share := small_share; sr_volume_id := "v"; sr_root_link_id := "r" |};
  get_devices _ := mret {| de_devices := [] |};
  get_shared_with_me _ := mret {| sw_links := []; sw_anchor_id := None; sw_more := false |};
  get_context_share _ := mret {| cs_context_share_id := "s" |};
  post_links path q :=
    mret {| lr_links := if String.eqb path "v2/volumes/v/links"
                        then concat (small_find <$> lq_link_ids q) else [] |}
}.

Definition small_page (ids : list LinkId) : FolderChildrenResponse :=
  {| fc_link_ids := ids; fc_anchor_id := None; fc_more_results_exist := false |}.

#[export] Instance small_nodes : NodeApi unit := {
  get_folder_children path :=
    mret (small_page (if String.eqb path "v2/volumes/v/folders/r/children" then ["b"; "a"]
                      else if String.eqb path "v2/volumes/v/folders/a/children" then ["f"] else []));
  get_trash _ := mret {| tr_trash_by_share := [] |};
  get_folder_size_response _ := mret {| fr_descendents_size := 0; fr_descendents_count := 0 |};
  post_recently_accessed _ _ := mret tt;
  post_folder _ _ := mfail (invalid_operation "read only");
  put_rename _ _ := mfail (invalid_operation "read only");
  now_epoch_seconds w := (0, w)
}.

#[export] Instance small_addresses : AccountAddresses unit := {
  acct_default_address := mfail (invalid_operation "no address");
  acct_address _ := mfail (invalid_operation "no address")
}.
#[export] Instance small_entities : DriveEntities unit := {
  entity_try_get_node _ := mret None;
  entity_set_node _ _ _ _ := mret tt
}.
#[export] Instance small_names : NameOps := {
  hex_hmac_sha256 k m := k +:+ m;
  serialize_modification_time := Ok
}.
#[export] Instance small_lru {K V} : Lru unit K V := {
  lru_cache_get _ l := (None, l);
  lru_cache_put _ _ l := l
}.

Abbreviation SmallState := (DriveState unit string unit unit).

(** After the bootstrap. *)
Definition small_state : SmallState :=
  {| ds_cache := {| dc_main_volume_id := Some "v";
                    dc_my_files_share := Some {| sk_share_id := "s"; sk_address_id := "me"; sk_key := "share" |};
                    dc_my_files_root := Some (NodeUid_new "v" "r"); dc_photos_share := None;
                    dc_photos_root := None; dc_photos_volume_exists := Some false;
                    dc_folder_keys := tt; dc_shared_with_me_shares := None;
                    dc_context_share_ids := tt |};
     ds_world := tt |}.

Example small_bootstrap :
  (ensure_my_files ({| ds_cache := DriveCache_default tt tt; ds_world := tt |} : SmallState)).1 = Ok tt.
Proof. vm_compute. reflexivity. Qed.

Abbreviation small_get := (get_node (W := unit) (Key := string) (Pub := string) (Sig := string * string)
                             (CKey := string) (FK := unit) (CS := unit)).

Definition small_ids : list LinkId := ["r"; "a"; "b"; "f"].

Definition small_node (uid : NodeUid) : option Node :=
  if decide (volume_id uid = "v" /\ link_id uid ∈ small_ids)
  then match small_get 5 uid small_state with Some (Ok n, _) => n | _ => None end
  else None.

Definition small_kids (uid : NodeUid) : list NodeUid :=
  NodeUid_new "v" <$> (if String.eqb (link_id uid) "r" then ["b"; "a"]
                       else if String.eqb (link_id uid) "a" then ["f"] else []).

(** The light node: no status of what the file's own key reads. *)
Definition small_light (n : Node) : Node :=
  {| nd_uid := nd_uid n; nd_parent_uid := nd_parent_uid n; nd_kind := nd_kind n; nd_name := nd_name n;
     nd_creation_time := nd_creation_time n; nd_modification_time := nd_modification_time n;
     nd_trashed := nd_trashed n; nd_is_shared := nd_is_shared n;
     nd_is_shared_publicly := nd_is_shared_publicly n; nd_signature_email := nd_signature_email n;
     nd_membership := nd_membership n; nd_direct_role := nd_direct_role n; nd_share_id := nd_share_id n;
     nd_photo := nd_photo n; nd_album := nd_album n;
     nd_verification := {| nv_name := nv_name (nd_verification n);
                           nv_passphrase := nv_passphrase (nd_verification n);
                           nv_content_key := None; nv_extended_attributes := None |} |}.

Definition small_height (uid : NodeUid) : nat :=
  if String.eqb (link_id uid) "r" then 0 else if String.eqb (link_id uid) "f" then 2 else 1.

(** A node of the volume is one of the four. *)
Lemma small_cases uid (P : NodeUid -> Prop) :
  Forall (fun id => P (NodeUid_new "v" id)) small_ids -> is_Some (small_node uid) -> P uid.
Proof.
  intros Hp [n Hn]. unfold small_node in Hn.
  destruct (decide (volume_id uid = "v" /\ link_id uid ∈ small_ids)) as [[Hv Hin]|]; [|done].
  rewrite Forall_forall in Hp. specialize (Hp _ Hin). destruct uid as [v id]. simpl in Hv. by subst v.
Qed.

Lemma small_find_none id : id ∉ small_ids -> small_find id = [].
Proof.
  intros Hid. unfold small_find, small_tree. unfold small_ids in Hid.
  rewrite !not_elem_of_cons in Hid. destruct Hid as (? & ? & ? & ? & _).
  rewrite !filter_cons_False by (simpl; congruence). done.
Qed.

Lemma small_get_spec uid : small_get 5 uid small_state = Some (Ok (small_node uid), small_state).
Proof.
  destruct uid as [v id]. unfold small_node. case_decide as Hd.
  - destruct Hd as [Hv Hin]. simpl in Hv, Hin. subst v. unfold small_ids in Hin.
    rewrite !elem_of_cons, elem_of_nil in Hin.
    destruct Hin as [->|[->|[->|[->|[]]]]]; vm_compute; reflexivity.
  - unfold get_node, fbind, flift, drive_entity_node, on_world. cbn [entity_try_get_node small_entities mret].
    unfold load_node, load_node_ctx, fbind, flift, get_link_details_ctx, drive_post_links, on_world.
    cbn [post_links small_server mret lq_link_ids volume_id link_id fmap list_fmap concat].
    destruct (String.eqb _ _) eqn:Ep; cbn [lr_links head]; [|done].
    rewrite app_nil_r, small_find_none; [done|]. intros Hin. apply Hd. split; [|done].
    apply String.eqb_eq in Ep. change ("v2/volumes/" +:+ v +:+ "/links" = "v2/volumes/" +:+ "v/links") in Ep.
    apply (inj (String.append "v2/volumes/")) in Ep. destruct v as [|c v]; [done|].
    injection Ep as -> Ep. destruct v as [|c' v]; [done|]. exfalso.
    apply (f_equal String.length) in Ep. rewrite str_length_app in Ep. simpl in Ep. lia.
Qed.

Ltac each_small :=
  repeat (apply Forall_cons_2; [|]); [..|apply Forall_nil_2].

Lemma small_reads :
  TreeReads (W := unit) (Key := string) (Pub := string) (Sig := string * string) (CKey := string)
    (FK := unit) (CS := unit) (fun s => s = small_state) 5 small_node small_kids small_light.
Proof.
  split.
  - intros uid s ->. exists small_state. by rewrite small_get_spec.
  - intros uid s -> Hn. exists small_state. split; [|done].
    pattern uid. apply small_cases; [|exact Hn]. each_small; vm_compute; reflexivity.
  - intros uid s -> Hn. exists (small_light <$> omap small_node (small_kids uid)), small_state.
    split_and!; [|done..]. pattern uid. apply small_cases; [|exact Hn].
    each_small; vm_compute; reflexivity.
Qed.

Lemma small_shape : TreeShape small_node small_kids small_light small_height.
Proof.
  assert (Hname : forall u a, small_node u = Some a -> nd_name a = "name-" +:+ link_id u).
  { intros u a Hu. assert (is_Some (small_node u)) as Hs by eauto. revert a Hu. pattern u.
    apply small_cases; [|exact Hs].
    each_small; intros a Ha; vm_compute in Ha; injection Ha as <-; reflexivity. }
  split.
  - intros u a Hu. assert (is_Some (small_node u)) as Hs by eauto. revert a Hu. pattern u.
    apply small_cases; [|exact Hs].
    each_small; intros a Ha; vm_compute in Ha; injection Ha as <-; reflexivity.
  - intros u a p Hu. assert (is_Some (small_node u)) as Hs by eauto. revert a p Hu. pattern u.
    apply small_cases; [|exact Hs].
    each_small; intros a p Ha; vm_compute in Ha; injection Ha as <-; intros [= <-];
      (split; [vm_compute; eauto|]); (split; [|vm_compute; lia]);
      apply (bool_decide_unpack _); vm_compute; exact I.
  - intros p u v a b Hu Hv Ha Hb Hab. rewrite (Hname u a Ha), (Hname v b Hb) in Hab.
    apply (inj (String.append "name-")) in Hab. destruct u as [vu iu], v as [vv iv]. simpl in Hab. subst iv.
    apply list_elem_of_fmap in Hu as (? & [= -> _] & _). apply list_elem_of_fmap in Hv as (? & [= -> _] & _). done.
  - intros u a Hu _. rewrite (Hname u a Hu). split; [done|].
    assert (is_Some (small_node u)) as Hs by eauto. pattern u. apply small_cases; [|exact Hs].
    each_small; vm_compute; reflexivity.
  - done.
Qed.

Lemma path_leads_back_witness :
  exists path s1 s2,
    get_node_path (W := unit) (Key := string) (Pub := string) (Sig := string * string) (CKey := string)
      (FK := unit) (CS := unit) 2 5 (NodeUid_new "v" "f") small_state = Some (Ok (Some path), s1) /\
    path = "/name-a/name-f" /\
    get_node_by_path (W := unit) (Key := string) (Pub := string) (Sig := string * string) (CKey := string)
      (FK := unit) (CS := unit) 5 (NodeUid_new "v" "r") path s1
      = Some (Ok (small_node (NodeUid_new "v" "f")), s2).
Proof.
  destruct (path_leads_back (fun s : SmallState => s = small_state) 5 small_node small_kids small_light
    small_height small_reads small_shape 2 (NodeUid_new "v" "f")
    ltac:(let n := eval vm_compute in (small_node (NodeUid_new "v" "f")) in
          match n with Some ?n => exact n end) small_state)
    as (root & rest & s1 & s2 & El & _ & E1 & _ & E2 & _).
  - reflexivity.
  - vm_compute. reflexivity.
  - vm_compute. lia.
  - vm_compute in El. injection El as <- <-. eexists _, s1, s2. split; [exact E1|]. split; [reflexivity|exact E2].
Defined.

Lemma existing_path_reused_witness :
  exists s', create_folder_path (W := unit) (Key := string) (Pub := string) (Sig := string * string)
    (CKey := string) (FK := unit) (CS := unit) 5 (NodeUid_new "v" "r") "/name-a" small_state
    = Some (Ok (NodeUid_new "v" "a"), s').
Proof.
  destruct (existing_path_reused (fun s : SmallState => s = small_state) 5 small_node small_kids small_light
    small_height small_reads small_shape 1 (NodeUid_new "v" "a")
    ltac:(let n := eval vm_compute in (small_node (NodeUid_new "v" "a")) in
          match n with Some ?n => exact n end)
    ltac:(let n := eval vm_compute in (small_node (NodeUid_new "v" "r")) in
          match n with Some ?n => exact n end)
    ltac:(let n := eval vm_compute in (small_node (NodeUid_new "v" "a")) in
          match n with Some ?n => exact [n] end) small_state)
    as (s' & E & _).
  - reflexivity.
  - vm_compute. reflexivity.
  - vm_compute. lia.
  - vm_compute. reflexivity.
  - repeat constructor.
  - exists s'. exact E.
Defined.

(** The small volume's parents are its own nodes. *)
Definition small_universe : gset NodeUid := list_to_set (NodeUid_new "v" <$> small_ids).

Lemma hierarchy_terminates_witness :
  exists chain s', get_node_hierarchy (W := unit) (Key := string) (Pub := string) (Sig := string * string)
    (CKey := string) (FK := unit) (CS := unit) (size small_universe + 1)
    5 (NodeUid_new "v" "f") small_state = Some (Ok (Some chain), s') /\ length chain = 3%nat.
Proof.
  destruct (hierarchy_terminates (fun s : SmallState => s = small_state) small_universe 5
    (NodeUid_new "v" "f") small_state) as (r & s' & E & _); [|done|].
  - intros u s ->. exists (Ok (small_node u)), small_state. split; [by rewrite small_get_spec|].
    split; [done|]. intros n p [= Hu]. assert (is_Some (small_node u)) as Hs by eauto. revert n p Hu. pattern u.
    apply small_cases; [|exact Hs].
    each_small; intros n p Hn; vm_compute in Hn; injection Hn as <-; intros [= <-];
      apply (bool_decide_unpack _); vm_compute; exact I.
  - pose proof E as E'. vm_compute in E'. injection E' as <- _.
    eexists _, s'. split; [exact E|reflexivity].
Defined.
