(* ===== verification/SealingFacts.v ===== *)
(** * What is sealed opens again: theorems

    Proved of [Sealing] and [Nodes] against [SealLaws], what the PGP library
    promises of encrypting and signing: a new volume and a new folder, read back as
    the server would serve them, open to the keys and names they were made with,
    verified as written by the address that sealed them. *)

From S2P Require Import Prelude Errors Config Keys Sealing Http Transport Node Names.
From S2P Require Import EntityCache Links LinksFacts LinkCrypto LinkCryptoFacts Account Drive Nodes.

Class SealLaws (W Key Pub Sig : Type) `{KeyOps Key} `{SealOps W Key} `{SignatureOps Key Pub Sig}
    `{VerifyOps Key Pub} : Prop := {
  encrypt_opens k d (w w' : W) m :
    key_encrypt k d w = (Ok m, w') -> decrypt_armored_message k m = Ok d;
  encrypt_and_sign_opens k signer d text compress (w w' : W) m :
    key_encrypt_and_sign k signer d text compress w = (Ok m, w') ->
    decrypt_armored_message k m = Ok d /\
    forall ring, public_half signer ∈ ring -> decrypt_armored_verify k m ring = Ok (d, VOk);
  sign_verifies k d (w w' : W) sig :
    key_sign_detached k d w = (Ok sig, w') ->
    exists s, parse_signature sig = Some s /\ signature_verifies s (public_half k) d = true
}.

Section Sealed.
Context {W Key Pub Sig : Type} `{KeyOps Key} `{PassphraseOps} `{!SealOps W Key}
        `{!SignatureOps Key Pub Sig} `{!VerifyOps Key Pub} `{!SealLaws W Key Pub Sig}.

(** A generated key is the one its armor and passphrase open. *)
Lemma generate_node_key_opens (w w' : W) (node : GeneratedNodeKey Key) :
  generate_node_key w = (Ok node, w') ->
  key_from_armored (gk_locked_armored node) (gk_passphrase node) = Ok (gk_key node).
Proof.
  unfold generate_node_key, generate_node_key_versioned, mbind_, mlift.
  destruct (generate_passphrase w) as [[p|e] w1]; [|done].
  destruct (utf8_text p) as [pw|e]; simpl; [|done].
  destruct (generate_locked_key V4 pw w1) as [[locked|e] w2]; [|done].
  destruct (key_from_armored locked p) as [key|e] eqn:Ek; [|done]. by intros [= <- <-].
Qed.

(** A detached signature passes against any ring with its maker. *)
Lemma sealed_signature_ok k d (w w' : W) sig ring :
  key_sign_detached k d w = (Ok sig, w') -> public_half k ∈ ring -> verify_detached sig d ring = VOk.
Proof.
  intros E Hin. destruct (sign_verifies _ _ _ _ _ E) as (s & Hs & Hv). apply verify_detached_ok. eauto.
Qed.

(** What was sealed for [parent_key] under [passphrase], as a link. *)
Record sealed_as (parent_key signer : Key) (node : GeneratedNodeKey Key) (name : string) (link : LinkDto)
  : Prop := {
  sa_key : ln_key link = gk_locked_armored node /\
           key_from_armored (gk_locked_armored node) (gk_passphrase node) = Ok (gk_key node);
  sa_passphrase : decrypt_armored_message parent_key (ln_passphrase link) = Ok (gk_passphrase node);
  sa_name : decrypt_armored_message parent_key (ln_name link) = Ok name;
  sa_name_verifies ring : public_half signer ∈ ring ->
    decrypt_armored_verify parent_key (ln_name link) ring = Ok (name, VOk);
  sa_signature : exists sig, ln_passphrase_signature link = Some sig /\
    forall ring, public_half signer ∈ ring -> verify_detached sig (gk_passphrase node) ring = VOk
}.

Lemma sealed_as_opens parent_key signer node name link :
  sealed_as parent_key signer node name link -> utf8_text name = Ok name ->
  decrypt_link parent_key link = Ok {| dl_node_key := gk_key node; dl_name := name |}.
Proof.
  intros [[Hk Ho] Hp Hn _ _] Hu. unfold decrypt_link. rewrite Hp. simpl. rewrite Hk, Ho. simpl.
  rewrite Hn. cbn [map_err result_bind]. by rewrite Hu.
Qed.

Lemma sealed_as_verified {V} `{!AccountKeys V Key Pub} parent_key signer node name link email (w : V) :
  sealed_as parent_key signer node name link -> utf8_text name = Ok name ->
  Str.is_empty email = false -> ln_signature_email link = Some email ->
  ln_name_signature_email link = Some email ->
  public_half signer ∈ (acct_public_keys email w).1 ->
  exists w', decrypt_link_verified parent_key link w
    = (Ok ({| dl_node_key := gk_key node; dl_name := name |},
           {| nv_name := VOk; nv_passphrase := VOk; nv_content_key := None;
              nv_extended_attributes := None |}), w').
Proof.
  intros [[Hk Ho] Hp _ Hn (sig & Hs & Hv)] Hu Hne He1 He2 Hin.
  unfold decrypt_link_verified, decrypt_link_parts, mbind_, AuthorshipClaim_create.
  rewrite He1, Hne. destruct (acct_public_keys email w) as [keys w'] eqn:Ek.
  rewrite He2, decide_True by done. unfold mret, mlift. rewrite Hp. cbn [map_err result_bind].
  unfold claim_ring. cbn [cm_author cm_keys]. unfold ring_from_public_keys.
  rewrite (Hn keys Hin), Hs. cbn [map_err result_bind]. rewrite Hu. cbn [map_err result_bind].
  rewrite Hk, Ho. rewrite (Hv keys Hin). by eexists.
Qed.

(** ** A new volume *)

(** The material of a new volume opens: the address key it was built for opens
    the share, the share's key opens the root folder to its own key and its name,
    and that key opens the folder's hash key; and whoever resolves the address
    finds the name and the passphrase signed by it. *)
Theorem volume_material_opens address_key name (w w' : W) m :
  utf8_text name = Ok name ->
  build_volume_creation_material address_key name w = (Ok m, w') ->
  exists (share folder : GeneratedNodeKey Key) hash_key,
    decrypt_armored_with_keys (vm_share_passphrase m) [address_key] = Ok (gk_passphrase share) /\
    key_from_armored (vm_share_key_armored m) (gk_passphrase share) = Ok (gk_key share) /\
    decrypt_armored_message (gk_key folder) (vm_folder_hash_key m) = Ok hash_key /\
    forall link, ln_key link = vm_folder_key_armored m -> ln_passphrase link = vm_folder_passphrase m ->
      ln_name link = vm_folder_name m ->
      ln_passphrase_signature link = Some (vm_folder_passphrase_signature m) ->
      sealed_as (gk_key share) address_key folder name link /\
      decrypt_link (gk_key share) link = Ok {| dl_node_key := gk_key folder; dl_name := name |}.
Proof.
  intros Hu. unfold build_volume_creation_material, mbind_.
  destruct (generate_node_key w) as [[share|e] w1] eqn:E1; [|done].
  destruct (generate_node_key w1) as [[folder|e] w2] eqn:E2; [|done].
  destruct (key_encrypt address_key _ w2) as [[sp|e] w3] eqn:E3; [|done].
  destruct (key_sign_detached address_key _ w3) as [[sps|e] w4] eqn:E4; [|done].
  destruct (key_encrypt_and_sign _ _ _ _ _ w4) as [[fname|e] w5] eqn:E5; [|done].
  destruct (key_encrypt (gk_key share) _ w5) as [[fp|e] w6] eqn:E6; [|done].
  destruct (key_sign_detached address_key _ w6) as [[fps|e] w7] eqn:E7; [|done].
  destruct (random_bytes 32 w7) as [[hk|e] w8] eqn:E8; [|done].
  destruct (key_encrypt_and_sign (gk_key folder) _ _ _ _ w8) as [[fhk|e] w9] eqn:E9; [|done].
  intros [= <- <-]. exists share, folder, hk. simpl.
  apply encrypt_opens in E3. apply encrypt_opens in E6.
  apply encrypt_and_sign_opens in E5 as [Hn Hnv]. apply encrypt_and_sign_opens in E9 as [Hh _].
  split_and!; [|by apply generate_node_key_opens in E1|done|].
  { unfold decrypt_armored_with_keys. simpl. by rewrite E3. }
  intros link Hk Hp Hl Hs.
  assert (sealed_as (gk_key share) address_key folder name link) as Hsealed.
  { split.
    - split; [done|by eapply generate_node_key_opens].
    - by rewrite Hp.
    - by rewrite Hl.
    - intros ring Hin. rewrite Hl. by apply Hnv.
    - exists fps. split; [done|]. intros ring Hin. by eapply sealed_signature_ok. }
  split; [done|]. by eapply sealed_as_opens.
Qed.
End Sealed.

(** ** A new folder *)

Section Folder.
Context {W Key Pub Sig FK CS : Type} `{KeyOps Key} `{PassphraseOps} `{!SealOps W Key}
        `{!SignatureOps Key Pub Sig} `{!VerifyOps Key Pub} `{!SealLaws W Key Pub Sig} `{NameOps}
        `{!AccountKeys W Key Pub}.

Lemma on_seal_ok {A} (m : M W A CryptoError) (s s' : DriveState W Key FK CS) a :
  on_seal m s = (Ok a, s') -> m (ds_world s) = (Ok a, ds_world s').
Proof.
  unfold on_seal, on_world. destruct (m (ds_world s)) as [[x|e] w]; simpl; [|done]. by intros [= <- <-].
Qed.

(** C20: the folder a request creates, served back as a link, opens under its
    parent's key to the new folder's own key and the name asked for; its hash key
    opens under its own key; its name hash is the parent's hash of that name; and
    whoever resolves the email it is signed with reads it as fully verified. *)
Theorem created_folder_opens parent_uid parent_key hash_key email signing_key name time
    (s s' : DriveState W Key FK CS) q link :
  utf8_text name = Ok name -> Str.is_empty email = false ->
  seal_folder parent_uid parent_key hash_key email signing_key name time s = (Ok q, s') ->
  ln_key link = fq_key q -> ln_passphrase link = fq_passphrase q -> ln_name link = fq_name q ->
  ln_passphrase_signature link = Some (fq_passphrase_signature q) ->
  ln_signature_email link = Some (fq_signature_email q) ->
  ln_name_signature_email link = Some (fq_signature_email q) ->
  fq_name_hash q = hex_hmac_sha256 hash_key name /\
  fq_parent_link_id q = link_id parent_uid /\
  exists node_key bytes,
    decrypt_link parent_key link = Ok {| dl_node_key := node_key; dl_name := name |} /\
    decrypt_armored_message node_key (fq_node_hash_key q) = Ok bytes /\
    forall w : W, public_half signing_key ∈ (acct_public_keys email w).1 ->
      exists verification w', decrypt_link_verified parent_key link w
        = (Ok ({| dl_node_key := node_key; dl_name := name |}, verification), w') /\
        nv_name verification = VOk /\ nv_passphrase verification = VOk /\
        is_fully_verified verification = true.
Proof.
  intros Hu Hne. unfold seal_folder, mbind_.
  destruct (on_seal generate_node_key s) as [[node|e] s1] eqn:E1; [|done].
  destruct (on_seal (generate_node_hash_key _) s1) as [[nhk|e] s2] eqn:E2; [|done].
  destruct (on_seal (key_encrypt_and_sign parent_key _ _ _ _) s2) as [[ename|e] s3] eqn:E3; [|done].
  destruct (on_seal (key_encrypt parent_key _) s3) as [[epass|e] s4] eqn:E4; [|done].
  destruct (on_seal (key_sign_detached signing_key _) s4) as [[sig|e] s5] eqn:E5; [|done].
  apply on_seal_ok in E1, E2, E3, E4, E5.
  match goal with |- (match ?m with _ => _ end = _) -> _ => destruct m as [[xattr|e] s6]; [|done] end.
  intros [= <- <-]. cbn [fq_key fq_passphrase fq_name fq_passphrase_signature fq_signature_email
    fq_name_hash fq_parent_link_id fq_node_hash_key]. intros Hk Hp Hn Hs He1 He2.
  split_and!; [done..|].
  apply encrypt_and_sign_opens in E3 as [Hname Hnv]. apply encrypt_opens in E4.
  assert (sealed_as parent_key signing_key node name link) as Hsealed.
  { split.
    - split; [done|by eapply generate_node_key_opens].
    - by rewrite Hp.
    - by rewrite Hn.
    - intros ring Hin. rewrite Hn. by apply Hnv.
    - exists sig. split; [done|]. intros ring Hin. by eapply sealed_signature_ok. }
  unfold generate_node_hash_key, mbind_ in E2.
  destruct (random_bytes 32 _) as [[bytes|e] w2]; [|done].
  apply encrypt_and_sign_opens in E2 as [Hh _].
  exists (gk_key node), bytes. split_and!; [by eapply sealed_as_opens|done|].
  intros w Hin. destruct (sealed_as_verified parent_key signing_key node name link email w) as [w' E]; try done.
  eexists _, w'. split; [exact E|]. done.
Qed.
End Folder.

(** ** A toy seal

    A message names its key and its signer before the data; a signature names its
    maker's public half.  Sealing refuses a key whose name would not read back. *)

Definition sealed_open (message : string) : option (string * string * string) :=
  match Str.split_once ":" message with
  | Some (k, rest) => match Str.split_once ":" rest with
                      | Some (signer, data) => Some (k, signer, data)
                      | None => None
                      end
  | None => None
  end.

#[local] Instance sealed_keys : KeyOps string := {
  decrypt_armored_message k m :=
    match sealed_open m with
    | Some (k', _, data) => if String.eqb k k' then Ok data else Err (CDecrypt "missing key")
    | None => Err (CDecrypt "not a message")
    end;
  key_from_armored armored _ := Ok armored;
  utf8_text s := Ok s
}.

#[local] Instance sealed_verify : VerifyOps string string := {
  decrypt_armored_verify k m ring :=
    match sealed_open m with
    | Some (k', signer, data) =>
        if String.eqb k k' then Ok (data, if bool_decide ("pub-" +:+ signer ∈ ring) then VOk else Failed)
        else Err (CDecrypt "missing key")
    | None => Err (CDecrypt "not a message")
    end
}.

Definition sealed_message (k signer data : string) : result string CryptoError :=
  let message := k +:+ ":" +:+ signer +:+ ":" +:+ data in
  if decide (sealed_open message = Some (k, signer, data)) then Ok message
  else Err (CEncrypt "a name with a colon").

#[local] Instance sealed_seal : SealOps nat string := {
  fill_bytes _ w := ("bytes", Datatypes.S w);
  base64_standard_encode s := s;
  generate_locked_key _ _ w := (Ok ("locked" +:+ pretty w), Datatypes.S w);
  key_encrypt k data := mlift (sealed_message k "" data);
  key_encrypt_and_sign k signer data _ _ := mlift (sealed_message k signer data);
  key_sign_detached k data :=
    let sig := "pub-" +:+ k +:+ "|" +:+ data in
    mlift (if decide (Str.split_once "|" sig = Some ("pub-" +:+ k, data)) then Ok sig
           else Err (CEncrypt "a name with a bar"));
  sign_detached_binary_with_context k data _ := mret (k +:+ data)
}.

Lemma sealed_message_opens k signer data m :
  sealed_message k signer data = Ok m -> sealed_open m = Some (k, signer, data).
Proof. unfold sealed_message. case_decide; [by intros [= <-]|done]. Qed.

#[local] Instance sealed_laws : SealLaws nat string string (string * string).
Proof.
  split.
  - intros k d w w' m [= E _]. apply sealed_message_opens in E. simpl. by rewrite E, String.eqb_refl.
  - intros k signer d text compress w w' m [= E _]. apply sealed_message_opens in E. simpl.
    rewrite E, String.eqb_refl. split; [done|]. intros ring Hin. by rewrite bool_decide_true.
  - intros k d w w' sig. simpl. unfold mlift. case_decide as Hd; [|done]. intros [= <- _].
    exists ("pub-" +:+ k, d). split; [exact Hd|]. simpl. by rewrite !String.eqb_refl.
Qed.

Definition root_link (m : VolumeCreationMaterial) : LinkDto :=
  {| ln_id := "root"; ln_link_type := 1; ln_parent_id := None; ln_state := 1; ln_creation_time := 0;
     ln_modification_time := 0; ln_trash_time := None; ln_trashed_legacy := None;
     ln_name := vm_folder_name m; ln_name_hash := None; ln_key := vm_folder_key_armored m;
     ln_passphrase := vm_folder_passphrase m;
     ln_passphrase_signature := Some (vm_folder_passphrase_signature m);
     ln_signature_email := Some "bob"; ln_name_signature_email := Some "bob";
     ln_third_party := false; ln_sdk := true |}.

Lemma volume_material_opens_witness :
  exists m w' (share folder : string),
    build_volume_creation_material "bob" "root" 0%nat = (Ok m, w') /\
    decrypt_link share (root_link m) = Ok {| dl_node_key := folder; dl_name := "root" |}.
Proof.
  destruct (build_volume_creation_material "bob" "root" 0%nat) as [r w'] eqn:E.
  pose proof E as E'. vm_compute in E'. injection E' as <- <-.
  destruct (volume_material_opens (H := sealed_keys) (W := nat) (Pub := string) (Sig := string * string) "bob" "root" 0%nat _ _
              ltac:(reflexivity) E) as (share & folder & _ & _ & _ & _ & Hl).
  eexists _, _, (gk_key share), (gk_key folder). split; [reflexivity|]. by apply Hl.
Defined.

#[local] Instance sealed_names : NameOps := {
  hex_hmac_sha256 k m := k +:+ m;
  serialize_modification_time := Ok
}.
#[local] Instance sealed_account : AccountKeys nat string string := {
  acct_address_private_keys _ := mret ["bob"];
  acct_public_keys email w := (["pub-" +:+ email], w)
}.
#[local] Instance sealed_passphrases : PassphraseOps := {
  bcrypt_hash password _ salt := Ok (salt +:+ password);
  base64_standard_decode := Ok
}.

Definition folder_link (q : FolderCreationRequest) : LinkDto :=
  {| ln_id := "new"; ln_link_type := 1; ln_parent_id := Some "p"; ln_state := 1; ln_creation_time := 0;
     ln_modification_time := 0; ln_trash_time := None; ln_trashed_legacy := None;
     ln_name := fq_name q; ln_name_hash := Some (fq_name_hash q); ln_key := fq_key q;
     ln_passphrase := fq_passphrase q;
     ln_passphrase_signature := Some (fq_passphrase_signature q);
     ln_signature_email := Some (fq_signature_email q);
     ln_name_signature_email := Some (fq_signature_email q);
     ln_third_party := false; ln_sdk := true |}.

Definition sealing_state : DriveState nat string unit unit :=
  {| ds_cache := DriveCache_default tt tt; ds_world := 0%nat |}.

Lemma created_folder_opens_witness :
  exists q s' node_key verification w',
    seal_folder (NodeUid_new "v" "p") "parent" "hash" "bob" "bob" "report" None sealing_state = (Ok q, s') /\
    decrypt_link_verified "parent" (folder_link q) 0%nat
      = (Ok ({| dl_node_key := node_key; dl_name := "report" |}, verification), w') /\
    is_fully_verified verification = true.
Proof.
  destruct (seal_folder (NodeUid_new "v" "p") "parent" "hash" "bob" "bob" "report" None sealing_state)
    as [r s'] eqn:E.
  destruct r as [q|e]; [|vm_compute in E; discriminate E].
  destruct (created_folder_opens (H := sealed_keys) (Pub := string) (Sig := string * string)
              (NodeUid_new "v" "p") "parent" "hash" "bob" "bob" "report" None _ _ q (folder_link q) ltac:(reflexivity) ltac:(reflexivity) E
              eq_refl eq_refl eq_refl eq_refl eq_refl eq_refl) as (_ & _ & node_key & _ & _ & _ & Hv).
  destruct (Hv 0%nat) as (verification & w' & Ev & _ & _ & Hfull); [by apply list_elem_of_singleton|].
  exists q, s', node_key, verification, w'. split; [reflexivity|]. by split.
Defined.
