(* ===== verification/DriveFacts.v ===== *)
(** * The Drive client's bootstrap: theorems

    Proved of [Drive]: a volume is created only on the server's word that there is
    none; what the bootstrap fills in it fills in together, once. *)

From S2P Require Import Prelude Errors Config Keys Sealing Http Transport Node Names.
From S2P Require Import EntityCache Links LinksFacts LinkCrypto LinkCryptoFacts Account Drive Nodes NodesFacts SealingFacts.

(** ** When is a volume created? *)

(** What the bootstrap asked, with the answers, and what it posted. *)
Inductive Looked {Key : Type} :=
| AskedShare (answer : Res MyFilesShareResponse)
| AskedKeys (address : AddressId) (answer : Res (list Key))
| AskedVolumes (answer : Res VolumeListResponse)
| PostedVolume.
Arguments Looked Key : clear implicits.

Section Missing.
Context {Key : Type} `{KeyOps Key}.

(** The key of a share, of the keys that its address has. *)
Definition share_key_under (share : ShareDto) (keys : Res (list Key)) : Res Key :=
  let? keys := keys in
  map_err Crypto (let? passphrase := decrypt_armored_with_keys (sh_passphrase share) keys in
                  key_from_armored (sh_key share) passphrase).

(** The server said that there is no My Files share; or the share it gave is
    locked - its key fails to decrypt - and no regular volume is active. *)
Definition missing (log : list (Looked Key)) : Prop :=
  (exists before e, log = before ++ [AskedShare (Err e)] /\ is_not_found e = true) \/
  (exists before response keys volumes e,
     log = before ++ [AskedShare (Ok response); AskedKeys (sh_address_id (mf_share response)) keys;
                      AskedVolumes (Ok volumes)] /\
     share_key_under (mf_share response) keys = Err (Crypto e) /\
     has_active_regular_volume volumes = false).

(** A volume is posted with the keys of an address, asked for once the volume was
    found missing. *)
Definition ready_to_post (log : list (Looked Key)) : Prop :=
  exists before address keys, log = before ++ [AskedKeys address (Ok keys)] /\ missing before.

Definition posted_when_missing (log : list (Looked Key)) : Prop :=
  forall before after, log = before ++ PostedVolume :: after -> ready_to_post before.

Lemma posted_nil : posted_when_missing [].
Proof. by intros [|? ?] ?. Qed.

Lemma posted_snoc log x :
  posted_when_missing log -> (x = PostedVolume -> ready_to_post log) -> posted_when_missing (log ++ [x]).
Proof.
  intros Hl Hx before after. destruct (decide (after = [])) as [->|Hne].
  - intros [-> ->]%app_inj_tail. by apply Hx.
  - destruct (exists_last Hne) as (after' & y & ->).
    rewrite app_comm_cons, app_assoc. intros [-> _]%app_inj_tail. by eapply Hl.
Qed.
End Missing.

Section Bootstrap.
Context {W Key Pub FK CS : Type} `{KeyOps Key} `{PassphraseOps} `{SealOps W Key}
        `{DriveApi W} `{!AccountKeys W Key Pub} `{!AccountAddresses W}
        `{!Lru FK NodeUid Key} `{!Lru CS NodeUid ShareId}.

Definition LoggedWorld : Type := list (Looked Key) * W.

Definition unlogged {A E} (m : M W A E) : M LoggedWorld A E :=
  fun '(log, w) => let (r, w) := m w in (r, (log, w)).
Definition logged_as {A E} (f : result A E -> Looked Key) (m : M W A E) : M LoggedWorld A E :=
  fun '(log, w) => let (r, w) := m w in (r, (log ++ [f r], w)).

#[local] Instance logged_api : DriveApi LoggedWorld := {
  get_share_bootstrap path := logged_as AskedShare (get_share_bootstrap path);
  get_volumes path := logged_as AskedVolumes (get_volumes path);
  post_volume path q := logged_as (fun _ => PostedVolume) (post_volume path q);
  get_share path := unlogged (get_share path);
  get_devices path := unlogged (get_devices path);
  get_shared_with_me path := unlogged (get_shared_with_me path);
  get_context_share path := unlogged (get_context_share path);
  post_links path q := unlogged (post_links path q)
}.
#[local] Instance logged_seal : SealOps LoggedWorld Key := {
  fill_bytes n lw := let (bytes, w) := fill_bytes n lw.2 in (bytes, (lw.1, w));
  base64_standard_encode := base64_standard_encode;
  generate_locked_key v p := unlogged (generate_locked_key v p);
  key_encrypt k d := unlogged (key_encrypt k d);
  key_encrypt_and_sign k s d t c := unlogged (key_encrypt_and_sign k s d t c);
  key_sign_detached k d := unlogged (key_sign_detached k d);
  sign_detached_binary_with_context k d c := unlogged (sign_detached_binary_with_context k d c)
}.
#[local] Instance logged_keys : AccountKeys LoggedWorld Key Pub := {
  acct_address_private_keys a := logged_as (AskedKeys a) (acct_address_private_keys (Pub := Pub) a);
  acct_public_keys e lw := let (keys, w) := acct_public_keys (Key := Key) e lw.2 in (keys, (lw.1, w))
}.
#[local] Instance logged_addresses : AccountAddresses LoggedWorld := {
  acct_default_address := unlogged acct_default_address;
  acct_address a := unlogged (acct_address a)
}.

(** [m] looks at nothing and posts nothing. *)
Definition quiet {A E} (m : M LoggedWorld A E) : Prop := forall lw, (m lw).2.1 = lw.1.

Lemma quiet_ret {A E} (a : A) : quiet (E := E) (mret a).
Proof. done. Qed.
Lemma quiet_lift {A E} (r : result A E) : quiet (mlift r).
Proof. done. Qed.
Lemma quiet_unlogged {A E} (m : M W A E) : quiet (unlogged m).
Proof. intros [log w]. simpl. by destruct (m w). Qed.
Lemma quiet_bind {A B E} (m : M LoggedWorld A E) (k : A -> M LoggedWorld B E) :
  quiet m -> (forall a, quiet (k a)) -> quiet (mbind_ m k).
Proof.
  intros Hm Hk lw. unfold mbind_. specialize (Hm lw). destruct (m lw) as [[a|e] lw1]; simpl in *; [|done].
  rewrite Hk. exact Hm.
Qed.
Lemma quiet_random n : quiet (random_bytes n).
Proof. intros [log w]. unfold random_bytes. simpl. by destruct (fill_bytes n w). Qed.

Ltac quiet := intros; repeat (apply quiet_bind; [|intros ?]);
  first [apply quiet_ret|apply quiet_lift|apply quiet_random|apply quiet_unlogged].

Lemma quiet_generate : quiet generate_node_key.
Proof. unfold generate_node_key, generate_node_key_versioned, generate_passphrase. quiet. Qed.

Lemma quiet_material key name : quiet (build_volume_creation_material key name).
Proof.
  unfold build_volume_creation_material. do 2 (apply quiet_bind; [apply quiet_generate|intros ?]). quiet.
Qed.

(** *** Over the whole state *)

Abbreviation LState := (DriveState LoggedWorld Key FK CS).

Definition log_of (s : LState) : list (Looked Key) := (ds_world s).1.

Lemma on_quiet {A} (m : M LoggedWorld A ProtonError) (s s' : LState) r :
  quiet m -> on_world m s = (r, s') -> log_of s' = log_of s.
Proof. intros Hm. unfold on_world. specialize (Hm (ds_world s)). destruct (m _) as [r1 w1]. by intros [= <- <-]. Qed.

(** A request that is logged. *)
Lemma on_logged {A} (f : Res A -> Looked Key) (m : M W A ProtonError) (s s' : LState) r :
  on_world (logged_as f m) s = (r, s') -> log_of s' = log_of s ++ [f r].
Proof.
  unfold on_world, log_of, logged_as. destruct (ds_world s) as [log w]. simpl.
  destruct (m w) as [r1 w1]. by intros [= <- <-].
Qed.

Lemma share_key_log share (s s' : LState) r :
  on_world (decrypt_share_key (Pub := Pub) share) s = (r, s') ->
  exists keys, log_of s' = log_of s ++ [AskedKeys (sh_address_id share) keys] /\ r = share_key_under share keys.
Proof.
  unfold on_world, log_of, decrypt_share_key, mbind_, mlift. destruct (ds_world s) as [log w]. simpl.
  destruct (acct_address_private_keys _ w) as [[keys|e] w1].
  - unfold share_key_under. simpl. destruct (decrypt_armored_with_keys _ keys) as [ph|e] eqn:E; simpl;
      intros [= <- <-]; exists (Ok keys); simpl; by rewrite E.
  - intros [= <- <-]. by exists (Err e).
Qed.

Lemma posted_ask (s s' : LState) x :
  posted_when_missing (log_of s) -> x <> PostedVolume -> log_of s' = log_of s ++ [x] ->
  posted_when_missing (log_of s').
Proof. intros Hp Hx ->. by apply posted_snoc. Qed.

Ltac asked := (eapply posted_ask; [| |eassumption]); [assumption|discriminate].

Lemma posted_create (s s' : LState) r :
  posted_when_missing (log_of s) -> missing (log_of s) ->
  create_volume (Pub := Pub) s = (r, s') -> posted_when_missing (log_of s').
Proof.
  intros Hp Hm. unfold create_volume, mbind_, mlift.
  destruct (on_world acct_default_address s) as [r1 s1] eqn:E1. apply on_quiet in E1; [|quiet].
  destruct r1 as [address|e]; [|intros [= <- <-]; by rewrite E1].
  destruct (on_world _ s1) as [r2 s2] eqn:E2. apply on_logged in E2. rewrite E1 in E2.
  assert (posted_when_missing (log_of s2)) as Hp2 by (by asked).
  destruct r2 as [keys|e]; [|by intros [= <- <-]].
  destruct (ok_or _ _) as [key|e]; [|by intros [= <- <-]].
  destruct (on_world _ s2) as [r3 s3] eqn:E3.
  assert (log_of s3 = log_of s2) as E3'.
  { eapply on_quiet, E3. intros lw. pose proof (quiet_material key "root" lw) as Hq.
    by destruct (build_volume_creation_material _ _ _). }
  destruct r3 as [m|e]; [|intros [= <- <-]; by rewrite E3'].
  intros E4%on_logged. rewrite E4, E3'. apply posted_snoc; [done|]. intros _. rewrite E2. by eexists _, _, _.
Qed.

(** What [my_files_response] answers with is the last thing that it asked. *)
Lemma posted_response (s s' : LState) r :
  posted_when_missing (log_of s) -> my_files_response (Pub := Pub) s = (r, s') ->
  posted_when_missing (log_of s') /\
  forall response, r = Ok response -> exists before, log_of s' = before ++ [AskedShare (Ok response)].
Proof.
  intros Hp. unfold my_files_response, mbind_ at 1, mtry.
  destruct (on_world _ s) as [a s2] eqn:E2. apply on_logged in E2.
  assert (posted_when_missing (log_of s2)) as Hp2 by (by asked).
  destruct a as [resp|e]; [intros [= <- <-]; split; [done|]; intros ? [= <-]; eauto|].
  destruct (is_not_found e) eqn:En; [|by intros [= <- <-]].
  unfold mbind_. destruct (create_volume s2) as [c s3] eqn:E3.
  assert (posted_when_missing (log_of s3)) as Hp3.
  { eapply posted_create, E3; [done|]. left. rewrite E2. eauto. }
  destruct c as [[]|e']; [|by intros [= <- <-]].
  intros E4%on_logged. split; [by asked|]. intros response ->. eauto.
Qed.

Lemma posted_key response before (s s' : LState) r :
  posted_when_missing (log_of s) -> log_of s = before ++ [AskedShare (Ok response)] ->
  my_files_key (Pub := Pub) response s = (r, s') -> posted_when_missing (log_of s').
Proof.
  intros Hp Hlast. unfold my_files_key, mbind_ at 1, mtry.
  destruct (on_world _ s) as [a s3] eqn:E3. apply share_key_log in E3 as (keys & E3 & Ha).
  assert (posted_when_missing (log_of s3)) as Hp3 by (by asked).
  destruct a as [key|[]]; try (by intros [= <- <-]).
  unfold mbind_ at 1. destruct (on_world (get_volumes _) s3) as [v s4] eqn:E4.
  apply on_logged in E4. assert (posted_when_missing (log_of s4)) as Hp4 by (by asked).
  destruct v as [volumes|e']; [|by intros [= <- <-]].
  destruct (has_active_regular_volume volumes) eqn:Hv; [by intros [= <- <-]|].
  unfold mbind_ at 1. destruct (create_volume s4) as [c s5] eqn:E5.
  assert (posted_when_missing (log_of s5)) as Hp5.
  { eapply posted_create, E5; [done|]. right. eexists before, response, keys, volumes, _.
    split; [by rewrite E4, E3, Hlast, <- !app_assoc|done]. }
  destruct c as [[]|e']; [|by intros [= <- <-]].
  unfold mbind_ at 1. destruct (on_world (get_share_bootstrap _) s5) as [q s6] eqn:E6.
  apply on_logged in E6. assert (posted_when_missing (log_of s6)) as Hp6 by (by asked).
  destruct q as [resp|e']; [|by intros [= <- <-]].
  unfold mbind_ at 1. destruct (on_world _ s6) as [k s7] eqn:E7.
  apply share_key_log in E7 as (keys' & E7 & _).
  destruct k as [key|e']; intros [= <- <-]; by asked.
Qed.

(** C18: a My Files volume is created only when the server has just said that there
    is no My Files share, or when the share it gave has a key that fails to decrypt
    (a crypto error of the very share and address keys that were served) and the
    server has then listed no active regular volume.  On any other failure - a
    share request that fails otherwise, address keys that cannot be had, a
    volume listing that fails - the bootstrap creates nothing; and an account that
    has been set up asks nothing. *)
Theorem volume_created_when_missing (s s' : LState) r :
  posted_when_missing (log_of s) -> ensure_my_files (Pub := Pub) s = (r, s') ->
  posted_when_missing (log_of s') /\
  (is_Some (dc_my_files_share (ds_cache s)) -> s' = s).
Proof.
  intros Hp. unfold ensure_my_files, mbind_ at 1, drive_cache. cbv beta match.
  destruct (dc_my_files_share (ds_cache s)) as [share|]; [by unfold mret; intros [= <- <-]|].
  intros E. split; [|by intros [? ?]]. revert E.
  unfold mbind_ at 1. destruct (my_files_response s) as [r1 s1] eqn:E1.
  apply posted_response in E1 as [Hp1 Hlast]; [|done]. destruct r1 as [found|e]; [|by intros [= <- <-]].
  destruct (Hlast found eq_refl) as [before Hb].
  unfold mbind_ at 1. destruct (my_files_key found s1) as [r2 s2] eqn:E2.
  eapply posted_key in E2; [|done..]. destruct r2 as [[response key]|e]; [|by intros [= <- <-]].
  unfold mbind_, mlift. destruct (decrypt_link key _) as [d|e]; intros [= <- <-]; exact E2.
Qed.
End Bootstrap.

(** ** What the bootstrap fills in *)

Section Cache.
Context {W Key Pub FK CS : Type} `{KeyOps Key} `{PassphraseOps} `{SealOps W Key}
        `{DriveApi W} `{!AccountKeys W Key Pub} `{!AccountAddresses W}
        `{!Lru FK NodeUid Key} `{!Lru CS NodeUid ShareId}.

Abbreviation State := (DriveState W Key FK CS).
Implicit Type c : DriveCache Key FK CS.

(** The fields of a volume are there together, and name one volume. *)
Definition cache_whole c : Prop :=
  match dc_my_files_share c with
  | Some _ => exists root, dc_my_files_root c = Some root /\ dc_main_volume_id c = Some (volume_id root)
  | None => dc_my_files_root c = None /\ dc_main_volume_id c = None
  end /\
  (dc_photos_volume_exists c = Some true <-> is_Some (dc_photos_share c)) /\
  (is_Some (dc_photos_share c) <-> is_Some (dc_photos_root c)).

(** Calls that only speak to the world leave the cache alone. *)
Lemma on_world_cache {A} (m : M W A ProtonError) (s s' : State) r :
  on_world m s = (r, s') -> ds_cache s' = ds_cache s.
Proof. unfold on_world. destruct (m _). by intros [= <- <-]. Qed.

Lemma create_volume_cache (s s' : State) r :
  create_volume (Pub := Pub) s = (r, s') -> ds_cache s' = ds_cache s.
Proof.
  unfold create_volume, mbind_, mlift.
  destruct (on_world _ s) as [[a|e] s1] eqn:E1; [|by intros [= <- <-]; eapply on_world_cache].
  apply on_world_cache in E1. destruct (on_world _ s1) as [[k|e] s2] eqn:E2; apply on_world_cache in E2;
    [|intros [= <- <-]; congruence].
  destruct (ok_or _ _); [|intros [= <- <-]; congruence].
  destruct (on_world _ s2) as [[m|e] s3] eqn:E3; apply on_world_cache in E3; [|intros [= <- <-]; congruence].
  intros E4. apply on_world_cache in E4. congruence.
Qed.

Lemma my_files_response_cache (s s' : State) r :
  my_files_response (Pub := Pub) s = (r, s') -> ds_cache s' = ds_cache s.
Proof.
  unfold my_files_response, mbind_ at 1, mtry.
  destruct (on_world _ s) as [[a|e] s1] eqn:E1; apply on_world_cache in E1; [by intros [= <- <-]|].
  destruct (is_not_found e); [|by intros [= <- <-]].
  unfold mbind_. destruct (create_volume s1) as [[[]|e1] s2] eqn:E2; apply create_volume_cache in E2;
    [|intros [= <- <-]; congruence].
  intros E3%on_world_cache. congruence.
Qed.

Lemma my_files_key_cache response (s s' : State) r :
  my_files_key (Pub := Pub) response s = (r, s') -> ds_cache s' = ds_cache s.
Proof.
  unfold my_files_key, mbind_ at 1, mtry.
  destruct (on_world _ s) as [a s1] eqn:E1; apply on_world_cache in E1.
  destruct a as [k|[]]; try (intros [= <- <-]; congruence).
  unfold mbind_. destruct (on_world _ s1) as [[v|e1] s2] eqn:E2; apply on_world_cache in E2;
    [|intros [= <- <-]; congruence].
  destruct (has_active_regular_volume v); [intros [= <- <-]; congruence|].
  destruct (create_volume s2) as [[[]|e1] s3] eqn:E3; apply create_volume_cache in E3;
    [|intros [= <- <-]; congruence].
  destruct (on_world _ s3) as [[q|e1] s4] eqn:E4; apply on_world_cache in E4;
    [|intros [= <- <-]; congruence].
  destruct (on_world _ s4) as [[k|e1] s5] eqn:E5; apply on_world_cache in E5;
    intros [= <- <-]; congruence.
Qed.

(** Either nothing changed, or the three fields and the root's key are new. *)
Lemma ensure_my_files_cache (s s' : State) r :
  ensure_my_files (Pub := Pub) s = (r, s') ->
  (ds_cache s' = ds_cache s /\ (r = Ok tt -> is_Some (dc_my_files_share (ds_cache s)))) \/
  (dc_my_files_share (ds_cache s) = None /\ r = Ok tt /\ exists vol root share key,
    volume_id root = vol /\
    ds_cache s' = with_main_volume vol root share (lru_cache_put root key) (ds_cache s)).
Proof.
  unfold ensure_my_files, mbind_ at 1, drive_cache. cbv beta match.
  destruct (dc_my_files_share (ds_cache s)) as [share|] eqn:Es; [unfold mret; intros [= <- <-]; left; by eauto|].
  unfold mbind_. destruct (my_files_response s) as [[a|e] s1] eqn:E1; apply my_files_response_cache in E1;
    [|intros [= <- <-]; by left].
  destruct (my_files_key a s1) as [[[response key]|e] s2] eqn:E2; apply my_files_key_cache in E2;
    [|intros [= <- <-]; left; split; [congruence|done]].
  unfold mlift. destruct (decrypt_link key _) as [d|e]; [|intros [= <- <-]; left; split; [congruence|done]].
  unfold update_drive. intros [= <- <-]. right. split_and!; [done..|].
  eexists _, _, _, _. split; [|rewrite E2, E1; reflexivity]. done.
Qed.

(** The bootstrap fills in the volume, its root and its share together or not
    at all; once it has succeeded its callers' [expect]s hold - the volume id and
    the share key are there - and running it again does nothing. *)
Theorem bootstrap_all_or_nothing (s s' : State) r :
  cache_whole (ds_cache s) -> ensure_my_files (Pub := Pub) s = (r, s') ->
  cache_whole (ds_cache s') /\
  (forall e, r = Err e -> ds_cache s' = ds_cache s) /\
  (r = Ok tt -> exists root share,
     dc_my_files_root (ds_cache s') = Some root /\
     main_volume_id (Pub := Pub) s' = (Ok (volume_id root), s') /\
     root_share_key (Pub := Pub) s' = (Ok (sk_key share), s') /\
     my_files_share_id s' = (Ok (Some (sk_share_id share)), s') /\
     ensure_my_files (Pub := Pub) s' = (Ok tt, s')).
Proof.
  intros Hw E.
  assert (Hafter : cache_whole (ds_cache s') -> is_Some (dc_my_files_share (ds_cache s')) ->
    exists root share,
     dc_my_files_root (ds_cache s') = Some root /\
     main_volume_id (Pub := Pub) s' = (Ok (volume_id root), s') /\
     root_share_key (Pub := Pub) s' = (Ok (sk_key share), s') /\
     my_files_share_id s' = (Ok (Some (sk_share_id share)), s') /\
     ensure_my_files (Pub := Pub) s' = (Ok tt, s')).
  { intros [Hm _] [share Hs]. rewrite Hs in Hm. destruct Hm as (root & Hr & Hv).
    assert (Hagain : ensure_my_files (Pub := Pub) s' = (Ok tt, s'))
      by (unfold ensure_my_files, mbind_ at 1, drive_cache; cbv beta match; by rewrite Hs).
    exists root, share. unfold main_volume_id, root_share_key, my_files_share, my_files_share_id, mbind_.
    rewrite !Hagain. unfold drive_cache, expect, mlift, mret. by rewrite Hv, Hs. }
  destruct (ensure_my_files_cache s s' r E) as [[Ec Hr]|(Hnone & -> & vol & root & share & key & Hv & Ec)].
  - rewrite Ec in Hafter |- *. split_and!; [done|done|]. intros Hok. by apply Hafter, Hr.
  - assert (cache_whole (ds_cache s')) as Hw'.
    { rewrite Ec. destruct Hw as [_ Hp]. split; [|exact Hp]. simpl. exists root. by rewrite Hv. }
    split_and!; [done|done|]. intros _. apply Hafter; [done|]. rewrite Ec. by eexists.
Qed.
End Cache.

(** ** An account that was never set up

    The server has a volume once the client has drawn the randomness of one; its
    share and root are those of [volume_material_opens_witness]. *)

#[local] Existing Instances sealed_keys sealed_verify sealed_seal sealed_account sealed_passphrases.

#[local] Instance fresh_addresses : AccountAddresses nat := {
  acct_default_address :=
    mret {| ad_id := "me"; ad_email := "bob"; ad_order := 1; ad_status := 1; ad_primary_key_index := 0;
            ad_primary_key_id := "k" |};
  acct_address _ := mfail (invalid_operation "no address")
}.

Definition fresh_share : MyFilesShareResponse :=
  {| mf_volume := {| sv_id := "v" |};
     mf_share := {| sh_id := "s"; sh_key := "locked1"; sh_passphrase := "bob::bytes";
                    sh_passphrase_signature := Some "pub-bob|bytes"; sh_address_id := "me" |};
     mf_link := {| ld_link := root_link {| vm_share_key_armored := "locked1"; vm_share_passphrase := "bob::bytes";
                       vm_share_passphrase_signature := "pub-bob|bytes"; vm_folder_name := "locked1:bob:root";
                       vm_folder_key_armored := "locked3"; vm_folder_passphrase := "locked1::bytes";
                       vm_folder_passphrase_signature := "pub-bob|bytes";
                       vm_folder_hash_key := "locked3:bob:bytes" |};
                   ld_folder := None; ld_file := None; ld_photo := None; ld_album := None;
                   ld_sharing := None; ld_membership := None |} |}.

(** The same share, of another address's key. *)
Definition locked_share : MyFilesShareResponse := {|
  mf_volume := mf_volume fresh_share;
  mf_share := {| sh_id := "s"; sh_key := "locked1"; sh_passphrase := "eve::bytes";
                 sh_passphrase_signature := None; sh_address_id := "me" |};
  mf_link := mf_link fresh_share |}.

Definition not_there : ProtonError :=
  Api {| pe_code := ResponseCode.DoesNotExist; pe_http_status := 422; pe_message := "no share"; pe_details := None |}.

#[local] Instance fresh_server : DriveApi nat := {
  get_share_bootstrap _ w :=
    (if Nat.eqb w 0 then Err not_there else Ok (if Nat.eqb w 100 then locked_share else fresh_share), w);
  get_volumes _ := mret {| vl_volumes := [] |};
  post_volume _ _ _ := (Ok tt, 1%nat);
  get_share _ := mfail not_there;
  get_devices _ := mret {| de_devices := [] |};
  get_shared_with_me _ := mret {| sw_links := []; sw_anchor_id := None; sw_more := false |};
  get_context_share _ := mfail not_there;
  post_links _ _ := mret {| lr_links := [] |}
}.

#[local] Existing Instances logged_api logged_seal logged_keys logged_addresses.

Definition fresh_state {W} (w : W) : DriveState W string unit unit :=
  {| ds_cache := DriveCache_default tt tt; ds_world := w |}.

Lemma volume_created_when_missing_witness :
  let log := [AskedShare (Ok locked_share); AskedKeys "me" (Ok ["bob"]);
              AskedVolumes (Ok {| vl_volumes := [] |}); AskedKeys "me" (Ok ["bob"]); PostedVolume;
              AskedShare (Ok fresh_share); AskedKeys "me" (Ok ["bob"])] in
  exists s' : DriveState (LoggedWorld (W := nat) (Key := string)) string unit unit,
    ensure_my_files (Pub := string) (fresh_state ([], 100%nat)) = (Ok tt, s') /\
    log_of s' = log /\ posted_when_missing (log_of s').
Proof.
  intros log.
  assert (exists s' : DriveState (LoggedWorld (W := nat) (Key := string)) string unit unit,
            ensure_my_files (Pub := string) (fresh_state ([], 100%nat)) = (Ok tt, s') /\ log_of s' = log)
    as (s' & E & Hlog) by (eexists; vm_compute; split; reflexivity).
  exists s'. split_and!; [exact E|exact Hlog|].
  exact (proj1 (volume_created_when_missing (fresh_state ([], 100%nat)) s' (Ok tt) posted_nil E)).
Defined.

(** A share that is not there is made at once. *)
Example first_sign_in :
  log_of (ensure_my_files (Pub := string) (fresh_state (W := LoggedWorld (W := nat) (Key := string)) ([], 0%nat))).2 =
  [AskedShare (Err not_there); AskedKeys "me" (Ok ["bob"]); PostedVolume;
   AskedShare (Ok fresh_share); AskedKeys "me" (Ok ["bob"])].
Proof. vm_compute. reflexivity. Qed.

Lemma bootstrap_all_or_nothing_witness :
  exists s' : DriveState nat string unit unit,
    ensure_my_files (Pub := string) (fresh_state 0%nat) = (Ok tt, s') /\ cache_whole (ds_cache s') /\
    main_volume_id (Pub := string) s' = (Ok "v", s') /\ my_files_share_id s' = (Ok (Some "s"), s').
Proof.
  assert (exists s' : DriveState nat string unit unit,
            ensure_my_files (Pub := string) (fresh_state 0%nat) = (Ok tt, s')) as [s' E]
    by (eexists; vm_compute; reflexivity).
  assert (cache_whole (ds_cache (fresh_state 0%nat))) as Hw.
  { split; [done|]. split; split; intros [? ?] || intros ?; done. }
  destruct (bootstrap_all_or_nothing (Pub := string) (fresh_state 0%nat) s' (Ok tt) Hw E)
    as (Hw' & _ & Hr). exists s'. split_and!; [exact E|exact Hw'|..];
    destruct (Hr eq_refl) as (root & share & Hroot & Hv & Hk & Hs & _);
    vm_compute in E; injection E as <-; vm_compute; reflexivity.
Defined.
