(* ===== verification/Downloads.v ===== *)
(** * The Drive client's content: downloads, revisions, thumbnails

    From [crates/proton-drive-rs/src/client.rs]: whole-file downloads with their
    content manifest, the seekable reader's opening, the revision history, and the
    thumbnails, single and in batches, for files and photos.

    What the output accepts is [Writer]; SHA-256 is [Sha256]; the requests are
    [ContentApi].  The blocks are fetched concurrently but consumed in order, and
    are modelled as fetched in that order ([Revision]); the permits only delay. *)

From S2P Require Import Prelude Errors Config Keys Sealing Http Transport Revision Node Names.
From S2P Require Import EntityCache Links LinkCrypto Account PublicLink Drive Nodes.

(** ** Wire records *)

Record RevisionListItemDto := {
  ri_id : string;
  ri_state : option Z;
  ri_creation_time : Z;
  ri_size : Z;
  ri_manifest_signature : option string;
  ri_signature_email : option string;
  ri_extended_attributes : option string;
  ri_thumbnails : list ThumbnailDto
}.

Record RevisionListResponse := { rl_revisions : list RevisionListItemDto }.
Record RevisionMetadataResponse := { rm_revision : RevisionListItemDto }.

Definition is_listable_revision_state (state : option Z) : bool :=
  match state with Some z => (z =? 1) || (z =? 2) | None => false end.

(** ** What the code calls *)

Class Sha256 := { sha256_digest : string -> string }.

(** [std::io::Write::write_all] *)
Class Writer (O : Type) := { write_all : string -> M O unit string }.

(** A [Vec<u8>] takes all it is given. *)
#[export] Instance VecWriter : Writer string := {
  write_all bytes out := (Ok tt, out +:+ bytes)
}.

Class ContentApi (W : Type) := {
  get_revision_page : string -> M W RevisionDto ProtonError;
  get_block : string -> string -> M W string ProtonError;
  post_thumbnail_ids : string -> ThumbnailBlockListRequest -> M W ThumbnailBlockListResponse ProtonError;
  get_revision_list : string -> M W RevisionListResponse ProtonError;
  get_revision_metadata : string -> M W RevisionMetadataResponse ProtonError;
  post_empty : string -> M W unit ProtonError;
  delete_path : string -> M W unit ProtonError;
  entity_remove_node : NodeUid -> M W unit ProtonError
}.

Section Downloads.
Context {W Key Pub Sig CKey FK CS : Type} `{KeyOps Key} `{PassphraseOps} `{SealOps W Key}
        `{SignatureOps Key Pub Sig} `{!VerifyOps Key Pub} `{!ContentOps Key CKey}
        `{!ContentKeyExport CKey} `{AttributeOps}
        `{DriveApi W} `{!NodeApi W} `{!ContentApi W} `{!AccountKeys W Key Pub} `{!AccountAddresses W}
        `{!DriveEntities W} `{NameOps} `{Sha256} `{!Lru FK NodeUid Key} `{!Lru CS NodeUid ShareId}.

Abbreviation State := (DriveState W Key FK CS).
Abbreviation Call A := (M State A ProtonError).
Abbreviation Run A := (FM State A ProtonError).

(** ** Unlocking *)

(** The head of every operation on one file: its link and its file. *)
Definition requested_file (what : string) (uid : NodeUid) (response : LinkDetailsResponse)
  : Res (LinkDto * FileDto) :=
  let? detail := ok_or (head (lr_links response))
    (invalid_operation (what +:+ " " +:+ NodeUid_display uid +:+ " not found")) in
  let? file := ok_or (file_properties detail)
    (invalid_operation ("node " +:+ NodeUid_display uid +:+ " is not a file")) in
  Ok (ld_link detail, file).

Definition content_packet (what : string) (file : FileDto) : Res string :=
  let? packet := ok_or (fi_content_key_packet file)
    (invalid_operation (what +:+ " is missing its content key packet")) in
  map_err (fun e => invalid_operation ("decode content key packet: " +:+ e))
    (base64_standard_decode (trim_end (trim_start packet))).

Definition active_id (what : string) (file : FileDto) : Res string :=
  ok_or (ar_id <$> fi_active_revision file)
    (invalid_operation (what +:+ " has no active revision")).

Definition unlock_content (fuel : nat) (uid : NodeUid) (link : LinkDto) (packet : string)
    (for_photos : bool) : Run (Key * CKey) :=
  let+ parent_key := drive_resolve_parent_key_ctx fuel (volume_id uid) link for_photos in
  let+ decrypted := flift (mlift (decrypt_link parent_key link)) in
  let+ content_key := flift (mlift (map_err Crypto
    (decrypt_content_key (dl_node_key decrypted) packet))) in
  fret (dl_node_key decrypted, content_key).

Definition fetch_revision_blocks (fuel : nat) (uid : NodeUid) (revision_id : string)
  : Run (RevisionDto * list BlockDto) :=
  list_blocks_with (fun i => on_world (get_revision_page
    (page_path (volume_id uid) (link_id uid) revision_id i))) fuel.

(** ** Whole files *)

(** The thumbnails' digests, concatenated. *)
Fixpoint thumbnail_manifest (thumbnails : list ThumbnailDto) (manifest : string) : Res string :=
  match thumbnails with
  | [] => Ok manifest
  | thumb :: thumbnails =>
      match th_hash_digest thumb with
      | None => thumbnail_manifest thumbnails manifest
      | Some hash_b64 =>
          let? digest := map_err (fun e => invalid_operation ("decode thumbnail digest: " +:+ e))
                           (base64_standard_decode (trim_end (trim_start hash_b64))) in
          thumbnail_manifest thumbnails (manifest +:+ digest)
      end
  end.

Section Output.
Context {O : Type} `{Writer O}.

Definition write_output (what : string) (bytes : string) : M O unit ProtonError := fun out =>
  let (r, out) := write_all bytes out in
  (map_err (fun e => invalid_operation (what +:+ e)) r, out).

(** Beside the output, a run over the rest of the state. *)
Definition beside {T A} (m : FM T A ProtonError) : FM (O * T) A ProtonError := fun '(out, s) =>
  match m s with Some (r, s) => Some (r, (out, s)) | None => None end.
Definition to_output {T A} (m : M O A ProtonError) : FM (O * T) A ProtonError := fun '(out, s) =>
  let (r, out) := m out in Some (r, (out, s)).

(** [write_content_blocks] over any way to fetch block [index]. *)
Fixpoint write_content_blocks {T} (fetch : nat -> FM T string ProtonError) (content_key : CKey)
    (indices : list nat) (manifest : string) : FM (O * T) string ProtonError :=
  match indices with
  | [] => fret manifest
  | index :: indices =>
      let+ ciphertext := beside (fetch index) in
      let+ plaintext := flift (mlift (map_err Crypto (decrypt_block content_key ciphertext))) in
      let+ _ := to_output (write_output "write block: " plaintext) in
      write_content_blocks fetch content_key indices (manifest +:+ sha256_digest ciphertext)
  end.

(** The block table lives as long as the download. *)
Definition with_table {A} (blocks : list BlockDto) (m : FM (O * (BlockTable * State)) A ProtonError)
  : FM (O * State) A ProtonError := fun '(out, s) =>
  match m (out, (BlockTable_new blocks, s)) with
  | Some (r, (out, (_, s))) => Some (r, (out, s))
  | None => None
  end.

(** [download_file_to] and [download_photo_to]; the status is the one logged. *)
Definition download_content_to (what : string) (for_photos : bool) (fuel : nat) (uid : NodeUid)
  : FM (O * State) VerificationStatus ProtonError :=
  let+ response := beside (flift (get_link_details_ctx drive_post_links (volume_id uid) [link_id uid]
                                    for_photos)) in
  let+ (link, file) := flift (mlift (requested_file what uid response)) in
  let+ packet := flift (mlift (content_packet what file)) in
  let+ revision_id := flift (mlift (active_id what file)) in
  let+ (node_key, content_key) := beside (unlock_content fuel uid link packet for_photos) in
  let+ (revision, blocks) := beside (fetch_revision_blocks fuel uid revision_id) in
  let+ manifest := flift (mlift (thumbnail_manifest (sort_by_key th_type (rev_thumbnails revision))
                                   EmptyString)) in
  let targets := {| tg_uid := uid; tg_revision_id := revision_id; tg_expected_blocks := length blocks |} in
  let+ manifest := with_table blocks (write_content_blocks
    (ciphertext (fetch_revision_blocks fuel uid revision_id)
       (fun url token => on_world (get_block url token)) targets)
    content_key (seq 0 (length blocks)) manifest) in
  beside (flift (on_world (fun w => let (status, w) := verify_manifest revision node_key manifest w in
                                    (Ok status, w)))).

Definition download_file_to := download_content_to "file" false.
Definition download_photo_to := download_content_to "photo" true.
End Output.

Definition download_file (fuel : nat) (uid : NodeUid) : Run string := fun s =>
  match download_file_to fuel uid (EmptyString, s) with
  | Some (Ok _, (out, s)) => Some (Ok out, s)
  | Some (Err e, (_, s)) => Some (Err e, s)
  | None => None
  end.

(** ** Ranges *)

Definition resolve_block_sizes (node_key : Key) (revision : RevisionDto) (block_count : nat)
  : Call (list Z) :=
  let* common := match rev_extended_attributes revision with
                 | Some xattr =>
                     let* decrypted := mtry (on_world (decrypt_extended_attributes_verified node_key
                       (rev_signature_email revision) xattr)) in
                     mret (match ok decrypted with
                           | Some (attributes, _) => ea_common attributes
                           | None => None
                           end)
                 | None => mret None
                 end in
  mlift (rank_block_sizes common (rev_id revision) block_count).

Definition open_revision_inner (fuel : nat) (uid : NodeUid) (revision_id : option string)
  : Run (BlockTargets * CKey * BlockTable * RevisionReader) :=
  let+ response := flift (get_link_details drive_post_links (volume_id uid) [link_id uid]) in
  let+ (link, file) := flift (mlift (requested_file "file" uid response)) in
  let+ packet := flift (mlift (content_packet "file" file)) in
  let+ revision_id := flift (mlift (match revision_id with
                                    | Some id => Ok id
                                    | None => active_id "file" file
                                    end)) in
  let+ (node_key, content_key) := unlock_content fuel uid link packet false in
  let+ (revision, blocks) := fetch_revision_blocks fuel uid revision_id in
  let+ block_sizes := flift (resolve_block_sizes node_key revision (length blocks)) in
  fret ({| tg_uid := uid; tg_revision_id := revision_id; tg_expected_blocks := length blocks |},
        content_key, BlockTable_new blocks, RevisionReader_new block_sizes).

Definition open_revision (fuel : nat) (uid : NodeUid) := open_revision_inner fuel uid None.

Definition open_revision_at (fuel : nat) (uid : NodeUid) (revision_id : string) :=
  open_revision_inner fuel uid (Some revision_id).

(** [RevisionReader::read_at] of an opened revision. *)
Definition drive_read_at (fuel : nat) (targets : BlockTargets) (content_key : CKey)
    (reader : RevisionReader) (offset len : Z) : FM (BlockTable * State) string ProtonError :=
  read_at (fetch_revision_blocks fuel (tg_uid targets) (tg_revision_id targets))
    (fun url token => on_world (get_block url token)) targets (decrypt_block content_key)
    reader offset len.

(** A read while the opened table lives. *)
Definition with_reader {A} (table : BlockTable) (m : FM (BlockTable * State) A ProtonError) : Run A := fun s =>
  match m (table, s) with
  | Some (r, (_, s)) => Some (r, s)
  | None => None
  end.

Definition download_range (fuel : nat) (uid : NodeUid) (offset length : Z) : Run string :=
  let+ (targets, content_key, table, reader) := open_revision fuel uid in
  with_reader table (drive_read_at fuel targets content_key reader offset length).

(** The loop of [download_revision_to] over any reader; the fuel bounds the
    chunks. *)
Fixpoint copy_revision {O T} `{Writer O} (fuel : nat) (read : Z -> Z -> FM T string ProtonError)
    (offset size : Z) : FM (O * T) unit ProtonError :=
  if size <=? offset then fret tt
  else match fuel with
       | Datatypes.O => fun _ => None
       | Datatypes.S fuel =>
           let+ chunk := beside (read offset DEFAULT_BLOCK_SIZE) in
           if Str.is_empty chunk then fret tt
           else
             let offset := wrap_u64 (offset + Z.of_nat (String.length chunk)) in
             let+ _ := to_output (write_output "write revision: " chunk) in
             copy_revision fuel read offset size
       end.

Definition download_revision_to {O} `{Writer O} (chunks fuel : nat) (file_uid : NodeUid)
    (revision_id : string) : FM (O * State) unit ProtonError :=
  let+ (targets, content_key, table, reader) := beside (open_revision_at fuel file_uid revision_id) in
  fun '(out, s) =>
    match copy_revision chunks (drive_read_at fuel targets content_key reader) 0 (rr_file_size reader)
            (out, (table, s)) with
    | Some (r, (out, (_, s))) => Some (r, (out, s))
    | None => None
    end.

Definition download_revision (chunks fuel : nat) (file_uid : NodeUid) (revision_id : string)
  : Run string := fun s =>
  match download_revision_to chunks fuel file_uid revision_id (EmptyString, s) with
  | Some (Ok _, (out, s)) => Some (Ok out, s)
  | Some (Err e, (_, s)) => Some (Err e, s)
  | None => None
  end.

(** ** The revision history *)

Definition file_node_key (fuel : nat) (file_uid : NodeUid) : Run Key :=
  let+ response := flift (get_link_details drive_post_links (volume_id file_uid) [link_id file_uid]) in
  let+ detail := flift (mlift (ok_or (head (lr_links response))
    (invalid_operation ("file " +:+ NodeUid_display file_uid +:+ " not found")))) in
  let+ parent_key := drive_resolve_parent_key_ctx fuel (volume_id file_uid) (ld_link detail) false in
  let+ decrypted := flift (mlift (decrypt_link parent_key (ld_link detail))) in
  fret (dl_node_key decrypted).

Definition revision_of (file_uid : NodeUid) (item : RevisionListItemDto)
    (common : option DecryptedCommonExtendedAttributes) : Revision :=
  {| rv_file_uid := file_uid; rv_revision_id := ri_id item;
     rv_state := RevisionState_from_raw (ri_state item);
     rv_creation_time := ri_creation_time item; rv_size_on_storage := ri_size item;
     rv_claimed_size := common ≫= xa_size;
     rv_claimed_modification_time := common ≫= xa_modification_time;
     rv_claimed_sha1 := (d ← common ≫= xa_digests; sha1 d);
     rv_signature_email := (email ← ri_signature_email item;
                            if Str.is_empty email then None else Some email);
     rv_has_thumbnails := match ri_thumbnails item with [] => false | _ => true end |}.

Definition build_revision (file_uid : NodeUid) (node_key : Key) (item : RevisionListItemDto)
  : Call Revision :=
  let* common := match ri_extended_attributes item with
                 | Some xattr =>
                     let* decrypted := mtry (on_world (decrypt_extended_attributes_verified node_key
                       (ri_signature_email item) xattr)) in
                     mret (match ok decrypted with
                           | Some (attributes, _) => ea_common attributes
                           | None => None
                           end)
                 | None => mret None
                 end in
  mret (revision_of file_uid item common).

Fixpoint build_revisions (file_uid : NodeUid) (node_key : Key) (items : list RevisionListItemDto)
    (revisions : list Revision) : Call (list Revision) :=
  match items with
  | [] => mret revisions
  | item :: items =>
      if negb (is_listable_revision_state (ri_state item))
      then build_revisions file_uid node_key items revisions
      else
        let* revision := build_revision file_uid node_key item in
        build_revisions file_uid node_key items (revisions ++ [revision])
  end.

Definition revisions_path (file_uid : NodeUid) : string :=
  "v2/volumes/" +:+ volume_id file_uid +:+ "/files/" +:+ link_id file_uid +:+ "/revisions".

Definition enumerate_revisions (fuel : nat) (file_uid : NodeUid) : Run (list Revision) :=
  let+ node_key := file_node_key fuel file_uid in
  let+ response := flift (on_world (get_revision_list (revisions_path file_uid))) in
  flift (build_revisions file_uid node_key (rl_revisions response) []).

Definition get_revision (fuel : nat) (file_uid : NodeUid) (revision_id : string) : Run (option Revision) :=
  let+ node_key := file_node_key fuel file_uid in
  let+ found := flift (mtry (on_world (get_revision_metadata
    (revisions_path file_uid +:+ "/" +:+ revision_id +:+ "?NoBlockUrls=true")))) in
  match found with
  | Ok response =>
      let+ revision := flift (build_revision file_uid node_key (rm_revision response)) in
      fret (Some revision)
  | Err e => if is_not_found e then fret None else ffail e
  end.

(** A 202 is a restore that was accepted. *)
Definition restore_revision (file_uid : NodeUid) (revision_id : string) : Call unit :=
  let* result := mtry (on_world (post_empty (revisions_path file_uid +:+ "/" +:+ revision_id +:+ "/restore"))) in
  let* _ := match result with
            | Ok _ => mret tt
            | Err (Api e) => if pe_http_status e =? 202 then mret tt else mfail (Api e)
            | Err e => mfail e
            end in
  on_world (entity_remove_node file_uid).

Definition delete_revision_by_ids (volume_id_ : VolumeId) (link_id_ : LinkId) (revision_id : string)
  : Call unit :=
  on_world (delete_path ("v2/volumes/" +:+ volume_id_ +:+ "/files/" +:+ link_id_ +:+ "/revisions/"
                         +:+ revision_id)).

Definition delete_revision (file_uid : NodeUid) (revision_id : string) : Call unit :=
  delete_revision_by_ids (volume_id file_uid) (link_id file_uid) revision_id.

(** ** Thumbnails *)

Definition file_thumbnail_target (fuel : nat) (uid : NodeUid) (thumbnail_type : ThumbnailType)
    (for_photos : bool) : Run (CKey * option string) :=
  let+ response := flift (get_link_details_ctx drive_post_links (volume_id uid) [link_id uid] for_photos) in
  let+ (link, file) := flift (mlift (requested_file "file" uid response)) in
  let+ packet := flift (mlift (content_packet "file" file)) in
  let+ revision_id := flift (mlift (active_id "file" file)) in
  let+ (_, content_key) := unlock_content fuel uid link packet for_photos in
  let+ (revision, _) := fetch_revision_blocks fuel uid revision_id in
  fret (content_key, List.find (fun t => th_type t =? ThumbnailType_as_i32 thumbnail_type)
                       (rev_thumbnails revision) ≫= th_id).

Definition drive_post_thumbnails (path : string) (q : ThumbnailBlockListRequest)
  : Call ThumbnailBlockListResponse := on_world (post_thumbnail_ids path q).

Definition download_thumbnail_ctx (fuel : nat) (uid : NodeUid) (thumbnail_type : ThumbnailType)
    (for_photos : bool) : Run (option string) :=
  let+ (content_key, thumbnail_id) := file_thumbnail_target fuel uid thumbnail_type for_photos in
  match thumbnail_id with
  | None => fret None
  | Some thumbnail_id =>
      let+ response := flift (drive_post_thumbnails ("volumes/" +:+ volume_id uid +:+ "/thumbnails")
                                {| tq_thumbnail_ids := [thumbnail_id] |}) in
      let+ block := flift (mlift (ok_or
        (List.find (fun b => String.eqb (tb_thumbnail_id b) thumbnail_id) (tl_blocks response))
        (invalid_operation ("resolve thumbnail block: " +:+
           default "thumbnail block not returned"
             (te_error <$> List.find (fun e => String.eqb (te_thumbnail_id e) thumbnail_id)
                             (tl_errors response)))))) in
      let+ ciphertext := flift (on_world (get_block (tb_bare_url block) (tb_token block))) in
      let+ plaintext := flift (mlift (map_err Crypto (decrypt_thumbnail content_key ciphertext))) in
      fret (Some plaintext)
  end.

Definition download_thumbnail (fuel : nat) (uid : NodeUid) (thumbnail_type : ThumbnailType) :=
  download_thumbnail_ctx fuel uid thumbnail_type false.

(** *** A batch *)

Abbreviation Targets := (gmap string (NodeUid * CKey)).

(** What one request settled: the targets left, the results, [processed]. *)
Abbreviation Batch := (Targets * list FileThumbnail * gset string)%type.

Definition thumbnail_ok (uid : NodeUid) (bytes : string) : FileThumbnail :=
  {| ft_file_uid := uid; ft_result := Ok bytes |}.
Definition thumbnail_err (uid : NodeUid) (e : ProtonError) : FileThumbnail :=
  {| ft_file_uid := uid; ft_result := Err e |}.

(** The whole request failed: each file in it is told. *)
Fixpoint fail_chunk (e : ProtonError) (chunk : list string) (targets : Targets)
    (results : list FileThumbnail) : Targets * list FileThumbnail :=
  match chunk with
  | [] => (targets, results)
  | id :: chunk =>
      match targets !! id with
      | Some (uid, _) => fail_chunk e chunk (delete id targets) (results ++ [thumbnail_err uid
            (invalid_operation ("resolve thumbnail blocks: " +:+ ProtonError_display e))])
      | None => fail_chunk e chunk targets results
      end
  end.

Fixpoint take_blocks (blocks : list ThumbnailBlock) (b : Batch) : Call Batch :=
  let '(targets, results, processed) := b in
  match blocks with
  | [] => mret b
  | block :: blocks =>
      let id := tb_thumbnail_id block in
      let processed := {[id]} ∪ processed in
      match targets !! id with
      | None => take_blocks blocks (targets, results, processed)
      | Some (uid, content_key) =>
          let* downloaded := mtry (on_world (get_block (tb_bare_url block) (tb_token block))) in
          let downloaded := match downloaded with
                            | Ok ciphertext => map_err Crypto (decrypt_thumbnail content_key ciphertext)
                            | Err e => Err e
                            end in
          take_blocks blocks (delete id targets,
                              results ++ [match downloaded with
                                          | Ok bytes => thumbnail_ok uid bytes
                                          | Err e => thumbnail_err uid e
                                          end], processed)
      end
  end.

Fixpoint take_errors (errors : list ThumbnailBlockError) (b : Batch) : Batch :=
  let '(targets, results, processed) := b in
  match errors with
  | [] => b
  | err :: errors =>
      let id := te_thumbnail_id err in
      match targets !! id with
      | Some (uid, _) =>
          take_errors errors (delete id targets,
            results ++ [thumbnail_err uid (invalid_operation (te_error err))], {[id]} ∪ processed)
      | None => take_errors errors b
      end
  end.

Fixpoint take_missing (chunk : list string) (b : Batch) : Targets * list FileThumbnail :=
  let '(targets, results, processed) := b in
  match chunk with
  | [] => (targets, results)
  | id :: chunk =>
      if bool_decide (id ∈ processed) then take_missing chunk b
      else match targets !! id with
           | Some (uid, _) =>
               take_missing chunk (delete id targets,
                 results ++ [thumbnail_err uid (invalid_operation "thumbnail not found")], processed)
           | None => take_missing chunk b
           end
  end.

Definition thumbnail_chunk (volume_id_ : VolumeId) (chunk : list string)
    (tr : Targets * list FileThumbnail) : Call (Targets * list FileThumbnail) :=
  let* response := mtry (drive_post_thumbnails ("volumes/" +:+ volume_id_ +:+ "/thumbnails")
                           {| tq_thumbnail_ids := chunk |}) in
  match response with
  | Err e => mret (fail_chunk e chunk tr.1 tr.2)
  | Ok response =>
      let* b := take_blocks (tl_blocks response) (tr, ∅) in
      mret (take_missing chunk (take_errors (tl_errors response) b))
  end.

Fixpoint thumbnail_chunks (volume_id_ : VolumeId) (chunks : list (list string))
    (tr : Targets * list FileThumbnail) : Call (Targets * list FileThumbnail) :=
  match chunks with
  | [] => mret tr
  | chunk :: chunks =>
      let* tr := thumbnail_chunk volume_id_ chunk tr in
      thumbnail_chunks volume_id_ chunks tr
  end.

Fixpoint thumbnail_targets (fuel : nat) (volume_id_ : VolumeId) (thumbnail_type : ThumbnailType)
    (for_photos : bool) (link_ids : list LinkId) (tr : Targets * list FileThumbnail)
  : Run (Targets * list FileThumbnail) :=
  match link_ids with
  | [] => fret tr
  | link_id_ :: link_ids =>
      let uid := NodeUid_new volume_id_ link_id_ in
      let+ found := ftry (file_thumbnail_target fuel uid thumbnail_type for_photos) in
      thumbnail_targets fuel volume_id_ thumbnail_type for_photos link_ids
        (match found with
         | Ok (content_key, Some id) => (<[id := (uid, content_key)]> tr.1, tr.2)
         | Ok (_, None) => (tr.1, tr.2 ++ [thumbnail_err uid (invalid_operation
             ("node " +:+ NodeUid_display uid +:+ " has no thumbnail of the requested type"))])
         | Err e => (tr.1, tr.2 ++ [thumbnail_err uid e])
         end)
  end.

(** [arrange] is the order in which the map gives its keys. *)
Fixpoint thumbnail_volumes (fuel : nat) (arrange : Targets -> list string)
    (thumbnail_type : ThumbnailType) (for_photos : bool) (groups : list (VolumeId * list LinkId))
    (results : list FileThumbnail) : Run (list FileThumbnail) :=
  match groups with
  | [] => fret results
  | (volume_id_, link_ids) :: groups =>
      let+ (targets, results) :=
        thumbnail_targets fuel volume_id_ thumbnail_type for_photos link_ids (∅, results) in
      let+ (_, results) := flift (thumbnail_chunks volume_id_
        (chunks MAX_THUMBNAIL_IDS_PER_REQUEST (arrange targets)) (targets, results)) in
      thumbnail_volumes fuel arrange thumbnail_type for_photos groups results
  end.

Definition enumerate_thumbnails_ctx (fuel : nat) (arrange : Targets -> list string)
    (uids : list NodeUid) (thumbnail_type : ThumbnailType) (for_photos : bool)
  : Run (list FileThumbnail) :=
  thumbnail_volumes fuel arrange thumbnail_type for_photos (group_by_volume uids) [].

Definition enumerate_thumbnails (fuel : nat) (arrange : Targets -> list string) (uids : list NodeUid)
    (thumbnail_type : ThumbnailType) := enumerate_thumbnails_ctx fuel arrange uids thumbnail_type false.
End Downloads.
