(* ===== verification/DownloadsFacts.v ===== *)
(** * Downloads: theorems

    Proved of [Downloads]: what reaches the output is the decryption of exactly the
    ciphertexts the manifest check covers; the two ways to download a whole
    revision give the same bytes; the history lists the sealed revisions; a batch
    of thumbnails settles as the visitor's does. *)

From S2P Require Import Prelude Errors Config Keys Sealing Http Transport Revision RevisionFacts.
From S2P Require Import Node Names EntityCache Upload UploadFacts Links LinksFacts LinkCrypto LinkCryptoFacts.
From S2P Require Import Account PublicLink Drive Nodes NodesFacts Downloads.

Lemma fbind_inv {T A B E} (m : FM T A E) (k : A -> FM T B E) s r s' :
  fbind m k s = Some (r, s') ->
  (exists e, m s = Some (Err e, s') /\ r = Err e) \/ (exists a s1, m s = Some (Ok a, s1) /\ k a s1 = Some (r, s')).
Proof. unfold fbind. destruct (m s) as [[[a|e] s1]|]; [|intros [= <- <-]|done]; eauto. Qed.

(** ** The loops *)

Section Loops.
Context {T Key CKey : Type} `{!ContentOps Key CKey} `{Sha256}.

(** The blocks [cs], fetched in turn from index [i] on. *)
Fixpoint fetched_from (step : nat -> T -> string -> T -> Prop) (i : nat) (ts : T) (cs : list string) (ts' : T)
  : Prop :=
  match cs with
  | [] => ts' = ts
  | c :: cs => exists ts1, step i ts c ts1 /\ fetched_from step (Datatypes.S i) ts1 cs ts'
  end.

(** What the block loop did: the blocks it consumed, [cs], are those fetched for
    the indices in turn, they decrypt to what it wrote, and the manifest grew by
    their digests. *)
Lemma write_content_blocks_wrote fetch (step : nat -> T -> string -> T -> Prop) (ck : CKey) i k manifest out
    (ts ts' : T) out' r :
  (forall i ts c ts', fetch i ts = Some (Ok c, ts') -> step i ts c ts') ->
  write_content_blocks (Key := Key) (O := string) fetch ck (seq i k) manifest (out, ts) = Some (r, (out', ts')) ->
  exists cs ps ts1, fetched_from step i ts cs ts1 /\ Forall2 (fun c p => decrypt_block ck c = Ok p) cs ps /\
    out' = out +:+ concat_bytes ps /\
    (length cs <= k)%nat /\
    forall m, r = Ok m -> length cs = k /\ ts' = ts1 /\ m = manifest +:+ concat_bytes (sha256_digest <$> cs).
Proof.
  intros Hstep. revert i manifest out ts. induction k as [|k IH]; intros i manifest out ts; simpl.
  { intros [= <- <- <-]. exists [], [], ts.
    split_and!; [done|by apply Forall2_nil|by rewrite str_app_nil_r|simpl; lia|].
    intros m [= <-]. by rewrite str_app_nil_r. }
  assert (forall e, r = Err e -> out' = out -> exists cs ps ts1, fetched_from step i ts cs ts1 /\
    Forall2 (fun c p => decrypt_block ck c = Ok p) cs ps /\ out' = out +:+ concat_bytes ps /\
    (length cs <= Datatypes.S k)%nat /\
    forall m, r = Ok m -> length cs = Datatypes.S k /\ ts' = ts1 /\
      m = manifest +:+ concat_bytes (sha256_digest <$> cs)) as Hstop.
  { intros e -> ->. exists [], [], ts.
    split_and!; [done|by apply Forall2_nil|by rewrite str_app_nil_r|simpl; lia|done]. }
  unfold fbind at 1, beside. destruct (fetch i ts) as [[[c|e] ts1]|] eqn:Ef; [|intros [= <- <- <-]|done].
  2: { by apply (Hstop e). }
  unfold fbind at 1, flift, mlift. destruct (decrypt_block ck c) as [p|e] eqn:Ed; simpl.
  2: { intros [= <- <- <-]. by apply (Hstop (Crypto e)). }
  unfold fbind at 1, to_output, write_output. simpl. intros E%IH.
  destruct E as (cs & ps & ts2 & Hc & Hf & -> & Hle & Hm). exists (c :: cs), (p :: ps), ts2.
  split_and!; [exists ts1; by auto|by constructor|by rewrite str_app_assoc|simpl; lia|].
  intros m Hr. destruct (Hm m Hr) as (Hl & -> & ->). split_and!; [simpl; lia|done|]. simpl. by rewrite str_app_assoc.
Qed.

(** Reading in chunks to the end. *)
Lemma copy_revision_all fuel (read : Z -> Z -> FM T string ProtonError) (inv : T -> Prop) file offset out ts :
  (forall offset ts, 0 <= offset -> inv ts ->
     exists chunk ts', inv ts' /\ read offset DEFAULT_BLOCK_SIZE ts = Some (Ok chunk, ts') /\
       bytes chunk = cut 0 offset (offset + DEFAULT_BLOCK_SIZE) file) ->
  Z.of_nat (length file) < 2 ^ 64 -> 0 <= offset <= Z.of_nat (length file) ->
  Z.of_nat (length file) - offset <= DEFAULT_BLOCK_SIZE * Z.of_nat fuel -> inv ts ->
  exists out' ts', inv ts' /\
    copy_revision (O := string) fuel read offset (Z.of_nat (length file)) (out, ts)
      = Some (Ok tt, (out', ts')) /\
    bytes out' = bytes out ++ drop (Z.to_nat offset) file.
Proof.
  intros Hread Hlen. revert offset out ts. pose proof DEFAULT_BLOCK_SIZE_pos as Hpos.
  induction fuel as [|fuel IH]; intros offset out ts Ho Hf Hi; simpl;
    destruct (Z.leb_spec (Z.of_nat (length file)) offset) as [Hle|Hgt].
  1,3: exists out, ts; split_and!; [done..|]; rewrite drop_ge by lia; by rewrite app_nil_r.
  { lia. }
  unfold fbind at 1, beside. destruct (Hread offset ts) as (chunk & ts1 & Hi1 & -> & Hc); [lia|done|].
  assert (Hcl : Z.of_nat (String.length chunk)
                = Z.min DEFAULT_BLOCK_SIZE (Z.of_nat (length file) - offset)).
  { rewrite <- bytes_length, Hc. unfold cut. rewrite length_drop, length_take. lia. }
  destruct (Str.is_empty chunk) eqn:Ee.
  { destruct chunk; [|done]. simpl in Hcl. lia. }
  unfold fbind at 1, to_output, write_output. simpl. rewrite wrap_u64_small by lia.
  destruct (IH (offset + Z.of_nat (String.length chunk)) (out +:+ chunk) ts1) as (out' & ts2 & Hi2 & E & Hb);
    [lia|lia|done|].
  exists out', ts2. split_and!; [done|exact E|]. rewrite Hb, bytes_app, <- app_assoc. f_equal.
  rewrite Hc. unfold cut. rewrite !Z.sub_0_r.
  assert (Z.to_nat (offset + Z.of_nat (String.length chunk))
          = Nat.min (Z.to_nat (offset + DEFAULT_BLOCK_SIZE)) (length file)) as -> by lia.
  destruct (decide (Z.to_nat (offset + DEFAULT_BLOCK_SIZE) <= length file)%nat).
  - rewrite Nat.min_l by done. rewrite <- (take_drop (Z.to_nat (offset + DEFAULT_BLOCK_SIZE)) file) at 3.
    rewrite drop_app_le; [done|]. rewrite length_take. lia.
  - rewrite Nat.min_r, drop_all, app_nil_r by lia. by rewrite take_ge by lia.
Qed.
End Loops.

(** ** Two ways to download *)

Section Agree.
Context {S Key CKey : Type} `{!ContentOps Key CKey} `{Sha256}.
Context (relist : FM S (RevisionDto * list BlockDto) ProtonError)
        (fetch : string -> string -> M S string ProtonError)
        (targets : BlockTargets) (ck : CKey) (plains : list string) (inv : BlockTable * S -> Prop).

(** The storage serves, and the content key opens, the blocks [plains]. *)
Definition blocks_served : Prop := forall i p ts, inv ts -> plains !! i = Some p ->
  exists c ts', ciphertext relist fetch targets i ts = Some (Ok c, ts') /\ inv ts' /\
                decrypt_block (Key := Key) ck c = Ok p.

Lemma served_plaintext : blocks_served ->
  forall i p ts, inv ts -> plains !! i = Some p ->
  exists ts', block_plaintext relist fetch targets (decrypt_block (Key := Key) ck) i ts = Some (Ok p, ts') /\ inv ts'.
Proof.
  intros Hs i p ts Hi Hp. destruct (Hs i p ts Hi Hp) as (c & ts' & E & Hi' & Hd). exists ts'. split; [|done].
  unfold block_plaintext, fbind. rewrite E. unfold flift, mlift. by rewrite Hd.
Qed.

Lemma bytes_concat ps : bytes (concat_bytes ps) = concat (bytes <$> ps).
Proof. induction ps as [|p ps IH]; [done|]. simpl. by rewrite bytes_app, IH. Qed.

Lemma write_content_blocks_all n manifest out ts :
  blocks_served -> inv ts -> (n <= length plains)%nat ->
  exists m ts', inv ts' /\
    write_content_blocks (Key := Key) (O := string) (ciphertext relist fetch targets) ck (seq n (length plains - n))
      manifest (out, ts) = Some (Ok m, (out +:+ concat_bytes (drop n plains), ts')).
Proof.
  intros Hs. remember (length plains - n)%nat as k eqn:Hk. revert n manifest out ts Hk.
  induction k as [|k IH]; intros n manifest out ts Hk Hi Hn; simpl.
  { exists manifest, ts. split; [done|]. rewrite drop_ge by lia. by rewrite str_app_nil_r. }
  destruct (plains !! n) as [p|] eqn:Hp; [|apply lookup_ge_None in Hp; lia].
  destruct (Hs n p ts Hi Hp) as (c & ts1 & E & Hi1 & Hd).
  unfold fbind at 1, beside. rewrite E. unfold fbind at 1, flift, mlift. rewrite Hd. simpl.
  unfold fbind at 1, to_output, write_output. simpl.
  destruct (IH (Datatypes.S n) (manifest +:+ sha256_digest c) (out +:+ p) ts1) as (m & ts2 & Hi2 & ->); [lia|done|lia|].
  exists m, ts2. split; [done|]. rewrite (drop_S plains p n Hp). simpl. by rewrite str_app_assoc.
Qed.

(** The two ways to read a whole revision agree: when the storage serves blocks
    that open to [plains] - re-listing expired URLs included - the block-by-block
    download and the chunked reads of [download_revision] both end, within as many
    chunks as the size asks for, and both write exactly the file. *)
Theorem two_downloads_agree fuel manifest ts :
  blocks_served -> inv ts -> sum_Z (plain_size <$> plains) < 2 ^ 64 ->
  sum_Z (plain_size <$> plains) <= DEFAULT_BLOCK_SIZE * Z.of_nat fuel ->
  exists m out ts1 ts2,
    write_content_blocks (Key := Key) (O := string) (ciphertext relist fetch targets) ck (seq 0 (length plains))
      manifest (EmptyString, ts) = Some (Ok m, (out, ts1)) /\
    copy_revision (O := string) fuel
      (read_at relist fetch targets (decrypt_block (Key := Key) ck) (RevisionReader_new (plain_size <$> plains)))
      0 (rr_file_size (RevisionReader_new (plain_size <$> plains))) (EmptyString, ts)
      = Some (Ok tt, (out, ts2)) /\
    out = concat_bytes plains.
Proof.
  intros Hs Hi Hsum Hf. pose proof (whole_file_length plains) as Hw. pose proof (sum_sizes_nonneg plains) as Hn.
  destruct (write_content_blocks_all 0 manifest EmptyString ts Hs Hi) as (m & ts1 & _ & E1); [lia|].
  rewrite Nat.sub_0_r in E1.
  destruct (copy_revision_all fuel
    (read_at relist fetch targets (decrypt_block ck) (RevisionReader_new (plain_size <$> plains)))
    inv (whole_file plains) 0 EmptyString ts) as (out & ts2 & _ & E2 & Hb); [|lia|lia|lia|done|].
  { intros offset ts' Ho Hi'. pose proof DEFAULT_BLOCK_SIZE_pos.
    apply read_at_cut; [by apply served_plaintext|lia|lia|lia|done]. }
  cbn [RevisionReader_new rr_file_size]. rewrite wrap_u64_small by lia. rewrite <- Hw.
  exists m, (concat_bytes plains), ts1, ts2. split_and!; [exact E1| |done].
  rewrite E2. do 3 f_equal. rewrite <- (string_of_list_ascii_of_string out), Hb. simpl.
  unfold whole_file. rewrite drop_0, <- bytes_concat. by rewrite string_of_list_ascii_of_string.
Qed.
End Agree.

(** ** What is written is what is verified *)

Section Content.
Context {W Key Pub Sig CKey FK CS : Type} `{KeyOps Key} `{PassphraseOps} `{SealOps W Key}
        `{SignatureOps Key Pub Sig} `{!VerifyOps Key Pub} `{!ContentOps Key CKey}
        `{!ContentKeyExport CKey} `{AttributeOps}
        `{DriveApi W} `{!NodeApi W} `{!ContentApi W} `{!AccountKeys W Key Pub} `{!AccountAddresses W}
        `{!DriveEntities W} `{NameOps} `{Sha256} `{!Lru FK NodeUid Key} `{!Lru CS NodeUid ShareId}.

Abbreviation State := (DriveState W Key FK CS).

Lemma beside_out {A} (m : FM State A ProtonError) (out : string) s r out' s' :
  beside m (out, s) = Some (r, (out', s')) -> out' = out /\ m s = Some (r, s').
Proof. unfold beside. destruct (m s) as [[r1 s1]|]; [|done]. by intros [= <- <- <-]. Qed.

Lemma with_table_inv {A} blocks (m : FM (string * (BlockTable * State)) A ProtonError) out s r out' s' :
  with_table blocks m (out, s) = Some (r, (out', s')) ->
  exists table, m (out, (BlockTable_new blocks, s)) = Some (r, (out', (table, s'))).
Proof.
  unfold with_table. destruct (m _) as [[? [? [table ?]]]|]; [|done]. intros [= -> -> ->]. by exists table.
Qed.

(** Digests sealed in any order, as an upload lists them. *)
Lemma assemble_indexed thumbs digests blocks :
  blocks ≡ₚ indexed digests -> assemble_manifest thumbs blocks = concat_bytes thumbs +:+ concat_bytes digests.
Proof.
  intros Hp. unfold assemble_manifest. do 2 f_equal.
  rewrite (sort_by_key_unique fst blocks (indexed digests)); [| |done].
  - unfold indexed. apply list_eq. intros i. rewrite list_lookup_fmap, list_lookup_imap.
    by destruct (digests !! i).
  - apply StronglySorted_by_lookup. intros i j x y Hij Hx Hy. unfold indexed in *.
    rewrite list_lookup_imap in Hx, Hy.
    destruct (digests !! i), (digests !! j); simplify_eq/=. lia.
Qed.

(** What the server and the account said of the file, from [s] to [s']: the link
    that [uid] names, its active revision, the node key that the link's parent opens,
    the content key that the node key opens, and the revision's listing. *)
Definition opened_file (for_photos : bool) (fuel : nat) (uid : NodeUid) (s : State) (revision_id : string)
    (node_key : Key) (ck : CKey) (revision : RevisionDto) (blocks : list BlockDto) (s' : State) : Prop :=
  exists response detail file packet_b64 packet parent_key link page s1 s2 s3,
    on_world (post_links ((if for_photos then "photos/" else "v2/") +:+ "volumes/" +:+ volume_id uid +:+ "/links")
                {| lq_link_ids := [link_id uid] |}) s = (Ok response, s1) /\
    head (lr_links response) = Some detail /\ file_properties detail = Some file /\
    ar_id <$> fi_active_revision file = Some revision_id /\
    fi_content_key_packet file = Some packet_b64 /\
    base64_standard_decode (trim_end (trim_start packet_b64)) = Ok packet /\
    drive_resolve_parent_key_ctx fuel (volume_id uid) (ld_link detail) for_photos s1 = Some (Ok parent_key, s2) /\
    decrypt_link parent_key (ld_link detail) = Ok link /\ node_key = dl_node_key link /\
    decrypt_content_key node_key packet = Ok ck /\
    on_world (get_revision_page (page_path (volume_id uid) (link_id uid) revision_id 0)) s2 = (Ok page, s3) /\
    revision = without_blocks page /\
    fetch_revision_blocks fuel uid revision_id s2 = Some (Ok (revision, blocks), s') /\
    (Z.of_nat (length blocks) < 2 ^ 31 -> forall i b, blocks !! i = Some b -> bl_index b = Z.of_nat i + 1).

(** Block [i], as the server answered for its URL in the table - or, that URL having
    expired, for the one in a fresh listing of as many blocks. *)
Inductive block_served (fuel : nat) (uid : NodeUid) (revision_id : string) (expected i : nat)
  : BlockTable * State -> string -> BlockTable * State -> Prop :=
| served_at_once table s b c s' :
    bt_blocks table !! i = Some b ->
    on_world (get_block (bl_bare_url b) (bl_token b)) s = (Ok c, s') ->
    block_served fuel uid revision_id expected i (table, s) c (table, s')
| served_relisted table s b e s1 revision blocks s2 b' c s' :
    bt_blocks table !! i = Some b ->
    on_world (get_block (bl_bare_url b) (bl_token b)) s = (Err e, s1) -> is_expired_block_url e = true ->
    fetch_revision_blocks fuel uid revision_id s1 = Some (Ok (revision, blocks), s2) ->
    length blocks = expected -> blocks !! i = Some b' ->
    on_world (get_block (bl_bare_url b') (bl_token b')) s2 = (Ok c, s') ->
    block_served fuel uid revision_id expected i (table, s) c
      ({| bt_blocks := blocks; bt_generation := wrap_u64 (bt_generation table + 1) |}, s').

Lemma ciphertext_served fuel uid revision_id expected i ts c ts' :
  ciphertext (fetch_revision_blocks fuel uid revision_id) (fun url token => on_world (get_block url token))
    {| tg_uid := uid; tg_revision_id := revision_id; tg_expected_blocks := expected |} i ts = Some (Ok c, ts') ->
  block_served fuel uid revision_id expected i ts c ts'.
Proof.
  destruct ts as [table s]. unfold ciphertext, fbind at 1, location.
  destruct (bt_blocks table !! i) as [b|] eqn:Hb; [|done]. unfold fret, fetch_blob.
  destruct (on_world _ s) as [[blob|e] s1] eqn:E1; [intros [= <- <-]; by eapply served_at_once|].
  destruct (is_expired_block_url e) eqn:He; [|done]. unfold fbind at 1, refresh. rewrite Z.eqb_refl. simpl.
  destruct (fetch_revision_blocks _ _ _ s1) as [[[[rev bs]|e2] s2]|] eqn:E2; [|done..].
  destruct (Nat.eqb_spec (length bs) expected) as [Hl|Hl]; [|done]. simpl.
  unfold fbind. simpl. destruct (bs !! i) as [b'|] eqn:Hb'; [|done].
  destruct (on_world _ s2) as [r s3] eqn:E3. intros [= -> <-]. by eapply served_relisted.
Qed.

(** The thumbnails' digests: decoded, in the order of the thumbnails' types. *)
Definition thumbnails_digested (revision : RevisionDto) (head : string) : Prop :=
  exists digests, head = concat_bytes digests /\
    Forall2 (fun encoded digest => base64_standard_decode (trim_end (trim_start encoded)) = Ok digest)
      (omap th_hash_digest (sort_by_key th_type (rev_thumbnails revision))) digests.

Lemma thumbnail_manifest_ok thumbs m head :
  thumbnail_manifest thumbs m = Ok head ->
  exists digests, head = m +:+ concat_bytes digests /\
    Forall2 (fun encoded digest => base64_standard_decode (trim_end (trim_start encoded)) = Ok digest)
      (omap th_hash_digest thumbs) digests.
Proof.
  revert m. induction thumbs as [|t thumbs IH]; intros m; simpl.
  { intros [= <-]. exists []. by rewrite str_app_nil_r. }
  destruct (th_hash_digest t) as [h|]; [|apply IH].
  destruct (base64_standard_decode _) as [d|e] eqn:Ed; [|done]. simpl. intros (ds & -> & Hf)%IH.
  exists (d :: ds). split; [by rewrite str_app_assoc|by constructor].
Qed.

(** The verdict on [manifest]: its signature under the keys of the signer that the
    revision names, or of the node where it names none. *)
Definition manifest_verdict (revision : RevisionDto) (node_key : Key) (manifest : string) (w : W)
    (status : VerificationStatus) (w' : W) : Prop :=
  match rev_manifest_signature revision with
  | None => status = NotSigned /\ w' = w
  | Some signature => exists ring, status = verify_detached signature manifest ring /\
      ((default EmptyString (rev_signature_email revision) = EmptyString /\
        ring = ring_from_private node_key /\ w' = w) \/
       exists email keys, rev_signature_email revision = Some email /\ email <> EmptyString /\
         acct_public_keys (Key := Key) email w = (keys, w') /\ ring = ring_from_public_keys keys)
  end.

Lemma verify_manifest_verdict revision node_key manifest w status w' :
  verify_manifest revision node_key manifest w = (status, w') ->
  manifest_verdict revision node_key manifest w status w'.
Proof.
  unfold verify_manifest, manifest_verdict. destruct (rev_manifest_signature revision) as [sg|]; [|by intros [= <- <-]].
  destruct (rev_signature_email revision) as [email|]; simpl; [destruct email as [|a email]; simpl|].
  1,3: intros [= <- <-]; eexists; split; [reflexivity|by left].
  destruct (acct_public_keys _ w) as [keys w1] eqn:E. intros [= <- <-]. eexists. split; [reflexivity|].
  right. by eexists _, _.
Qed.

(** The status is that of the manifest of the thumbnails and of the blocks [cs] - the
    one that an upload of those blocks seals, in whatever order it stored them. *)
Definition manifest_checked (revision : RevisionDto) (node_key : Key) (cs : list string)
    (w : W) (status : VerificationStatus) (w' : W) : Prop :=
  exists head, thumbnails_digested revision head /\
    manifest_verdict revision node_key (head +:+ concat_bytes (sha256_digest <$> cs)) w status w' /\
    forall thumbs blocks, head = concat_bytes thumbs -> blocks ≡ₚ indexed (sha256_digest <$> cs) ->
      head +:+ concat_bytes (sha256_digest <$> cs) = assemble_manifest thumbs blocks.

Lemma download_opens what for_photos fuel uid (s : State) response link file packet revision_id node_key ck
    revision blocks s1 s2 s3 :
  get_link_details_ctx drive_post_links (volume_id uid) [link_id uid] for_photos s = (Ok response, s1) ->
  requested_file what uid response = Ok (link, file) -> content_packet what file = Ok packet ->
  active_id what file = Ok revision_id ->
  unlock_content fuel uid link packet for_photos s1 = Some (Ok (node_key, ck), s2) ->
  fetch_revision_blocks fuel uid revision_id s2 = Some (Ok (revision, blocks), s3) ->
  opened_file for_photos fuel uid s revision_id node_key ck revision blocks s3.
Proof.
  intros E1 E2 E3 E4 E5 E6.
  unfold requested_file in E2. destruct (head (lr_links response)) as [detail|] eqn:Hd; [|done]. simpl in E2.
  destruct (file_properties detail) as [f|] eqn:Hf; [|done]. simpl in E2. injection E2 as <- <-.
  unfold content_packet in E3. destruct (fi_content_key_packet f) as [b64|] eqn:Hp; [|done]. simpl in E3.
  destruct (base64_standard_decode _) as [pk|] eqn:Hb; [|done]. injection E3 as <-.
  unfold active_id in E4. destruct (ar_id <$> fi_active_revision f) as [rid|] eqn:Ha; [|done]. injection E4 as <-.
  unfold unlock_content in E5. apply fbind_inv in E5 as [(? & _ & ?)|(parent_key & s5 & Ek & E5)]; [done|].
  unfold fbind, flift, mlift, fret in E5. destruct (decrypt_link _ _) as [l|] eqn:Hl; [|done].
  destruct (decrypt_content_key _ pk) as [k|] eqn:Hk; [|done]. injection E5 as <- <- <-.
  pose proof (fun Hn => list_blocks_sound _ _ _ _ _ _ E6 Hn) as Hsound.
  assert (exists page s4,
    on_world (get_revision_page (page_path (volume_id uid) (link_id uid) rid 0)) s5 = (Ok page, s4) /\
    revision = without_blocks page) as (page & s4 & Epage & Hpage).
  { revert E6. unfold fetch_revision_blocks, list_blocks_with. cbv beta.
    destruct (on_world (get_revision_page _) s5) as [[page|e] s4]; [|done].
    destruct (page_loop _ _ _ _ _ _ _) as [[[bs|e] s6]|]; [|done..].
    destruct (contiguous_from 0 _); [|done]. intros [= <- _ _]. by exists page, s4. }
  unfold get_link_details_ctx, drive_post_links in E1.
  exists response, detail, f, b64, pk, parent_key, l, page, s1, s5, s4.
  split_and!; try done; [by destruct for_photos|by intros [_ ?]%Hsound].
Qed.

(** C21: a download writes the decryptions, in block order, of the ciphertexts whose
    digests the manifest check covers, and they are those of the whole file.  Unless
    it fails before anything is written, the file was opened with what the server
    answered: its link, the active revision, the keys that its parent opens and the
    revision's block listing; the ciphertexts are, from block 1 on and none left out,
    those that storage served for the URLs of that listing (or of a fresh one of
    as many blocks, when a URL had expired), each decrypted with the file's content
    key.  When the download reports a status, it has written all blocks of the
    listing, and the status is that of the revision's own signature over the
    thumbnails' digests followed by those of these ciphertexts - the manifest an
    upload of those blocks seals, in whatever order it stored them; a download
    that fails has written the decryptions of the blocks before the failure, no
    more. *)
Theorem download_writes_what_it_verifies what for_photos fuel uid (out : string) (s : State) r out' s' :
  download_content_to (CKey := CKey) what for_photos fuel uid (out, s) = Some (r, (out', s')) ->
  (out' = out /\ exists e, r = Err e) \/
  exists revision_id node_key ck revision blocks s1 cs ps table s2,
    opened_file for_photos fuel uid s revision_id node_key ck revision blocks s1 /\
    fetched_from (block_served fuel uid revision_id (length blocks)) 0 (BlockTable_new blocks, s1) cs (table, s2) /\
    Forall2 (fun c p => decrypt_block (Key := Key) ck c = Ok p) cs ps /\
    out' = out +:+ concat_bytes ps /\ (length cs <= length blocks)%nat /\
    forall status, r = Ok status ->
      length cs = length blocks /\
      manifest_checked revision node_key cs (ds_world s2) status (ds_world s').
Proof.
  intros E. unfold download_content_to in E.
  apply fbind_inv in E as [(e & E & ->)|(response & [o1 s1] & E1 & E)];
    [apply beside_out in E as [-> _]; left; eauto|]. apply beside_out in E1 as [-> E1].
  unfold flift at 1 in E1. injection E1 as E1.
  apply fbind_inv in E as [(e & [= _ <- _] & ->)|([link file] & [o2 s2] & [= E2 <- <-] & E)]; [left; eauto|].
  apply fbind_inv in E as [(e & [= _ <- _] & ->)|(packet & [o3 s3] & [= E3 <- <-] & E)]; [left; eauto|].
  apply fbind_inv in E as [(e & [= _ <- _] & ->)|(revision_id & [o4 s4] & [= E4 <- <-] & E)]; [left; eauto|].
  apply fbind_inv in E as [(e & E & ->)|([node_key ck] & [o5 s5] & E5 & E)];
    [apply beside_out in E as [-> _]; left; eauto|]. apply beside_out in E5 as [-> E5].
  apply fbind_inv in E as [(e & E & ->)|([revision blocks] & [o6 s6] & E6 & E)];
    [apply beside_out in E as [-> _]; left; eauto|]. apply beside_out in E6 as [-> E6].
  pose proof (download_opens _ _ _ _ _ _ _ _ _ _ _ _ _ _ _ _ _ E1 E2 E3 E4 E5 E6) as Hopen.
  apply fbind_inv in E as [(e & [= _ <- _] & ->)|(head & [o7 s7] & [= Hhead <- <-] & E)]; [left; eauto|].
  right. pose proof (fun i => ciphertext_served fuel uid revision_id (length blocks) i) as Hstep.
  apply fbind_inv in E as [(e & E & ->)|(manifest & [o8 s8] & E8 & E)].
  - apply with_table_inv in E as [table E].
    eapply write_content_blocks_wrote in E as (cs & ps & [table' s9] & Hc & Hf & -> & Hle & _); [|exact Hstep].
    by exists revision_id, node_key, ck, revision, blocks, s6, cs, ps, table', s9.
  - apply with_table_inv in E8 as [table E8].
    eapply write_content_blocks_wrote in E8 as (cs & ps & [table' s9] & Hc & Hf & -> & Hle & Hm); [|exact Hstep].
    destruct (Hm manifest eq_refl) as (Hlen & [= <- <-] & ->). apply beside_out in E as [-> E].
    exists revision_id, node_key, ck, revision, blocks, s6, cs, ps, table, s8. split_and!; try done.
    intros status ->. split; [done|]. revert E. unfold flift, on_world.
    destruct (verify_manifest revision node_key _ _) as [st w] eqn:Ev. intros [= <- <-].
    apply thumbnail_manifest_ok in Hhead as (ds & Hd & Hds). exists head. split_and!; [by exists ds| |].
    + by apply verify_manifest_verdict.
    + intros thumbs blks -> Hp. by rewrite (assemble_indexed thumbs _ blks Hp).
Qed.

(** ** A chunk of thumbnails *)

Abbreviation Targets := (gmap string (NodeUid * CKey)).

Lemma fail_chunk_settles e chunk (targets : Targets) results :
  fail_chunk e chunk targets results
  = settle_all ((fun id => (id, invalid_operation ("resolve thumbnail blocks: " +:+ ProtonError_display e)))
                  <$> chunk) (targets, results).
Proof.
  unfold settle_all. revert targets results.
  induction chunk as [|id chunk IH]; intros targets results; [done|]. simpl.
  destruct (targets !! id) as [[uid ck]|]; apply IH.
Qed.

Lemma take_missing_settles chunk (targets : Targets) results processed :
  (forall id, id ∈ processed -> targets !! id = None) ->
  take_missing chunk (targets, results, processed)
  = settle_all ((fun id => (id, invalid_operation "thumbnail not found")) <$> chunk) (targets, results).
Proof.
  unfold settle_all. revert targets results.
  induction chunk as [|id chunk IH]; intros targets results Hp; [done|]. simpl. case_bool_decide as Hin.
  - rewrite (Hp id Hin). by apply IH.
  - destruct (targets !! id) as [[uid ck]|]; apply IH; [|done]. intros id' Hid'.
    apply lookup_delete_None. right. by apply Hp.
Qed.

Lemma take_errors_settles errors (targets : Targets) results processed :
  (forall id, id ∈ processed -> targets !! id = None) ->
  exists processed', (take_errors errors (targets, results, processed)).1
    = settle_all ((fun e => (te_thumbnail_id e, invalid_operation (te_error e))) <$> errors) (targets, results) /\
    (take_errors errors (targets, results, processed)).2 = processed' /\
    forall id, id ∈ processed' -> (take_errors errors (targets, results, processed)).1.1 !! id = None.
Proof.
  unfold settle_all. revert targets results processed.
  induction errors as [|e errors IH]; intros targets results processed Hp; simpl; [by eexists|].
  destruct (targets !! te_thumbnail_id e) as [[uid ck]|]; [|by apply IH]. apply IH.
  intros id [->%elem_of_singleton|Hid]%elem_of_union; apply lookup_delete_None; [by left|right; by apply Hp].
Qed.

Lemma take_blocks_downloads blocks (targets : Targets) results processed (s : State) :
  (forall id, id ∈ processed -> targets !! id = None) ->
  exists tr' processed' s',
    take_blocks (CKey := CKey) blocks (targets, results, processed) s = (Ok (tr', processed'), s') /\
    download_blocks (fun url token => on_world (get_block url token)) blocks (targets, results) s = (Ok tr', s') /\
    forall id, id ∈ processed' -> tr'.1 !! id = None.
Proof.
  revert targets results processed s.
  induction blocks as [|block blocks IH]; intros targets results processed s Hp; simpl.
  { by exists (targets, results), processed, s. }
  assert (forall (t : Targets), (forall id, id ∈ processed -> t !! id = None) -> t !! tb_thumbnail_id block = None ->
            forall id, id ∈ {[tb_thumbnail_id block]} ∪ processed -> t !! id = None) as Hadd.
  { intros t Ht Hb id [->%elem_of_singleton|Hid]%elem_of_union; auto. }
  destruct (targets !! tb_thumbnail_id block) as [[uid ck]|] eqn:Eb; [|by apply IH, Hadd].
  unfold mbind_ at 1, mtry. unfold mbind_ at 1. destruct (on_world _ s) as [downloaded s1]. simpl.
  assert ({| ft_file_uid := uid; ft_result := result_bind downloaded (fun c => map_err Crypto (decrypt_thumbnail (Key := Key) ck c)) |}
          = match match downloaded with
                  | Ok c => map_err Crypto (decrypt_thumbnail (Key := Key) ck c)
                  | Err e => Err e
                  end with
            | Ok bytes => thumbnail_ok uid bytes
            | Err e => thumbnail_err uid e
            end) as Hft.
  { destruct downloaded as [c|e]; [|done]. simpl. by destruct (decrypt_thumbnail ck c). }
  rewrite Hft. apply IH, Hadd; [|by apply lookup_delete_eq].
  intros id Hid. apply lookup_delete_None. right. by apply Hp.
Qed.

(** One request for thumbnails settles a member's chunk as it settles a
    visitor's: the same requests, the same files settled in the same order with the
    same outcomes, although the member's client keeps a set of the ids it has
    processed and the visitor's goes by its targets alone. *)
Theorem thumbnail_chunk_as_public volume chunk (tr : Targets * list FileThumbnail) (s : State) :
  thumbnail_chunk (CKey := CKey) volume chunk tr s
  = drain_thumbnail_chunk drive_post_thumbnails (fun url token => on_world (get_block url token)) volume chunk tr s.
Proof.
  destruct tr as [targets results]. unfold thumbnail_chunk, drain_thumbnail_chunk, mbind_ at 1 3, mtry.
  unfold thumbnails_path. destruct (drive_post_thumbnails _ _ s) as [[response|e] s1].
  - unfold mbind_. destruct (take_blocks_downloads (tl_blocks response) targets results ∅ s1)
      as ([t1 r1] & p1 & s2 & -> & -> & Hp1); [set_solver|]. unfold mret. do 2 f_equal.
    destruct (take_errors_settles (tl_errors response) t1 r1 p1 Hp1) as (p2 & E1 & E2 & Hp2).
    destruct (take_errors _ _) as [[t2 r2] p3]. simpl in *. subst p3. rewrite <- E1.
    by apply take_missing_settles.
  - unfold mret. by rewrite <- fail_chunk_settles.
Qed.

(** ** The history *)

Lemma build_revision_total uid key item (s : State) :
  exists common s', build_revision (Pub := Pub) (Sig := Sig) uid key item s = (Ok (revision_of uid item common), s').
Proof.
  unfold build_revision, mbind_, mtry, mret. destruct (ri_extended_attributes item) as [xattr|]; [|by exists None, s].
  destruct (on_world _ s) as [r s1]. by eexists _, s1.
Qed.

Lemma build_revisions_total uid key items revisions (s : State) :
  exists more s', build_revisions (Pub := Pub) (Sig := Sig) uid key items revisions s = (Ok (revisions ++ more), s') /\
    Forall2 (fun item rev => is_listable_revision_state (ri_state item) = true /\
                             exists common, rev = revision_of uid item common)
      (filter (fun item => is_listable_revision_state (ri_state item) = true) items) more.
Proof.
  revert revisions s. induction items as [|item items IH]; intros revisions s; simpl.
  { exists [], s. rewrite app_nil_r. split; [done|]. rewrite filter_nil. by apply Forall2_nil. }
  destruct (is_listable_revision_state (ri_state item)) eqn:El; simpl.
  - rewrite filter_cons_True by done. unfold mbind_.
    destruct (build_revision_total uid key item s) as (common & s1 & ->).
    destruct (IH (revisions ++ [revision_of uid item common]) s1) as (more & s2 & -> & Hf).
    exists (revision_of uid item common :: more), s2. rewrite <- app_assoc. split; [done|].
    apply Forall2_cons. split; [split; [done|by exists common]|done].
  - rewrite filter_cons_False by congruence. apply IH.
Qed.

(** The history lists the sealed revisions, no other: once the file's key and
    the listing are there, the call succeeds and returns, in the server's order,
    one entry for each revision that is active or superseded, and none for a draft
    or a state it does not know; the entry says which of the two it is, and
    attributes that do not decrypt cost the claims, not the entry. *)
Theorem history_lists_sealed fuel uid key response (s s1 s2 : State) :
  file_node_key fuel uid s = Some (Ok key, s1) ->
  on_world (get_revision_list (revisions_path uid)) s1 = (Ok response, s2) ->
  exists revisions s', enumerate_revisions (Pub := Pub) (Sig := Sig) fuel uid s = Some (Ok revisions, s') /\
    Forall2 (fun item rev => (exists common, rev = revision_of uid item common) /\
                             (is_active rev = true <-> ri_state item = Some 1))
      (filter (fun item => ri_state item = Some 1 \/ ri_state item = Some 2) (rl_revisions response)) revisions.
Proof.
  intros E1 E2. unfold enumerate_revisions, fbind. rewrite E1. unfold flift at 1. rewrite E2.
  destruct (build_revisions_total uid key (rl_revisions response) [] s2) as (more & s' & E & Hf).
  exists more, s'. unfold flift. rewrite E. split; [done|].
  rewrite (list_filter_iff _ (fun item => is_listable_revision_state (ri_state item) = true)).
  - eapply Forall2_impl; [exact Hf|]. intros item rev [Hl [common ->]]. split; [by exists common|].
      unfold is_active, revision_of, rv_state, RevisionState_from_raw, is_listable_revision_state in *.
      destruct (ri_state item) as [z|]; [|done].
      simpl. destruct (Z.eqb_spec z 1) as [E1z|N1]; [by rewrite E1z|].
      destruct (Z.eqb_spec z 2) as [E2z|N2]; [rewrite E2z; by split|done].
  - intros item. unfold is_listable_revision_state. destruct (ri_state item) as [z|]; [|naive_solver].
    destruct (Z.eqb_spec z 1), (Z.eqb_spec z 2); naive_solver.
Qed.
End Content.

(** ** The small volume's file

    Two blocks and a thumbnail, signed by bob; a history with a draft in it. *)

#[export] Instance small_sha : Sha256 := { sha256_digest c := "<" +:+ c +:+ ">" }.

Definition small_revision : RevisionDto :=
  {| rev_id := "rev"; rev_manifest_signature := Some "pub-bob|T<ck:hello ><ck:world>";
     rev_signature_email := Some "bob"; rev_extended_attributes := None;
     rev_thumbnails := [{| th_id := Some "t"; th_type := 1; th_hash_digest := Some "T" |}];
     rev_blocks := [{| bl_index := 2; bl_bare_url := "world"; bl_token := "t" |};
                    {| bl_index := 1; bl_bare_url := "hello "; bl_token := "t" |}] |}.

Definition small_item (id : string) (state : option Z) : RevisionListItemDto :=
  {| ri_id := id; ri_state := state; ri_creation_time := 0; ri_size := 3; ri_manifest_signature := None;
     ri_signature_email := Some "bob"; ri_extended_attributes := Some "unreadable"; ri_thumbnails := [] |}.

Definition small_history : RevisionListResponse :=
  {| rl_revisions := [small_item "draft" (Some 0); small_item "rev" (Some 1); small_item "old" (Some 2);
                      small_item "odd" None] |}.

#[export] Instance small_content_api : ContentApi unit := {
  get_revision_page _ := mret small_revision;
  get_block url _ := mret ("ck:" +:+ url);
  post_thumbnail_ids _ _ := mret {| tl_blocks := []; tl_errors := [] |};
  get_revision_list _ := mret small_history;
  get_revision_metadata _ := mfail (invalid_operation "read only");
  post_empty _ := mfail (invalid_operation "read only");
  delete_path _ := mfail (invalid_operation "read only");
  entity_remove_node _ := mret tt
}.

Abbreviation small_download := (download_content_to (W := unit) (Key := string) (Pub := string)
  (Sig := string * string) (CKey := string) (FK := unit) (CS := unit) (O := string)).

Lemma download_writes_what_it_verifies_witness :
  exists s', small_download "file" false 5 (NodeUid_new "v" "f") (EmptyString, small_state)
      = Some (Ok VOk, ("hello world", s')) /\
    exists revision_id node_key ck revision blocks s1 cs ps (s2 : SmallState),
      opened_file (W := unit) (Key := string) (Pub := string) (FK := unit) (CS := unit) (CKey := string)
        false 5 (NodeUid_new "v" "f") small_state revision_id node_key ck revision blocks s1 /\
      "hello world" = concat_bytes ps /\ length cs = length blocks /\
      manifest_checked (W := unit) (Key := string) (Pub := string) (Sig := string * string) revision node_key cs
        (ds_world s2) VOk (ds_world s').
Proof.
  assert (exists s', small_download "file" false 5 (NodeUid_new "v" "f") (EmptyString, small_state)
            = Some (Ok VOk, ("hello world", s'))) as [s' E] by (eexists; vm_compute; reflexivity).
  exists s'. split; [exact E|].
  destruct (download_writes_what_it_verifies "file" false 5 (NodeUid_new "v" "f") EmptyString small_state
              (Ok VOk) "hello world" s' E)
    as [[_ [e [=]]]|(rid & key & ck & rev & blocks & s1 & cs & ps & table & s2 & Ho & _ & _ & Hp & _ & Hv)].
  exists rid, key, ck, rev, blocks, s1, cs, ps, s2. destruct (Hv VOk eq_refl) as [Hl Hm]. split_and!; assumption.
Defined.

Lemma history_lists_sealed_witness :
  exists revisions s', enumerate_revisions (W := unit) (Key := string) (Pub := string) (Sig := string * string)
      (FK := unit) (CS := unit) 5 (NodeUid_new "v" "f") small_state = Some (Ok revisions, s') /\
    length revisions = 2%nat.
Proof.
  destruct (history_lists_sealed (Pub := string) (Sig := string * string) 5 (NodeUid_new "v" "f") "key-f"
              small_history small_state small_state small_state) as (revisions & s' & E & Hf);
    [vm_compute; reflexivity..|].
  exists revisions, s'. split; [exact E|]. apply Forall2_length in Hf. rewrite <- Hf. vm_compute. reflexivity.
Defined.

(** Blocks in the clear. *)
Definition plain_content : ContentOps string string := {|
  decrypt_content_key _ packet := Ok packet;
  decrypt_thumbnail _ blob := Ok blob;
  decrypt_block _ blob := Ok blob
|}.

Lemma two_downloads_agree_witness :
  exists out ts2,
    copy_revision (O := string) 1 (read_at toy_relist toy_fetch toy_targets
        (decrypt_block (Key := string) (ContentOps := plain_content) "ck")
        (RevisionReader_new (plain_size <$> toy_plains)))
      0 (rr_file_size (RevisionReader_new (plain_size <$> toy_plains))) (EmptyString, (toy_table "old" 0, 0%nat))
    = Some (Ok tt, (out, ts2)) /\ out = "hello world".
Proof.
  destruct (two_downloads_agree (ContentOps0 := plain_content) toy_relist toy_fetch toy_targets "ck" toy_plains
    toy_inv 1 EmptyString (toy_table "old" 0, 0%nat)) as (m & out & ts1 & ts2 & _ & E & Ho).
  - intros i p ts [-> | ->] Hp; destruct i as [|[|i]]; simpl in Hp; try discriminate Hp;
      injection Hp as <-; eexists _, _; (split; [vm_compute; reflexivity|]); (split; [right; reflexivity|reflexivity]).
  - left. reflexivity.
  - vm_compute. reflexivity.
  - vm_compute. discriminate.
  - exists out, ts2. split; [exact E|]. rewrite Ho. reflexivity.
Defined.
