(* ===== verification/Actions.v ===== *)
(** * The Drive client's actions on nodes and devices

    From [crates/proton-drive-rs/src/client.rs]: trash, restore and delete with
    their streams, emptying the trash, what is shared by us and leaving what is
    shared with us, and the devices: listing, registering, renaming, removing. *)

From S2P Require Import Prelude Errors Config Keys Sealing Http Transport Revision Node Names.
From S2P Require Import EntityCache Links LinkCrypto Account Moves Drive Nodes.

(** ** Trash, restore, delete *)

Definition action_batches (uids : list NodeUid) : list (VolumeId * list LinkId) :=
  concat ((fun '(volume_id, link_ids) =>
             (fun chunk => (volume_id, chunk)) <$> chunks MAX_BATCH_COUNT link_ids)
          <$> group_by_volume uids).

Section Actions.
Context {S : Type}.
Context (post_multiple put_multiple : string -> list LinkId -> M S AggregateLinksResponse ProtonError).

Definition send_action (action : NodeAction) (volume_id : VolumeId) (link_ids : list LinkId)
  : M S AggregateLinksResponse ProtonError :=
  let path := NodeAction_path action volume_id in
  match action with
  | Names.Restore => put_multiple path link_ids
  | Names.Trash | Names.Delete => post_multiple path link_ids
  end.

(** The stream, drained: what it yields, and the error it ends with if a request
    failed. *)
Fixpoint drain_actions (action : NodeAction) (batches : list (VolumeId * list LinkId))
    (yielded : list (NodeUid * Res unit))
  : M S (list (NodeUid * Res unit) * option ProtonError) ProtonError :=
  match batches with
  | [] => mret (yielded, None)
  | (volume_id, link_ids) :: batches =>
      let* response := mtry (send_action action volume_id link_ids) in
      match response with
      | Ok response =>
          drain_actions action batches
            (yielded ++ ((fun '(link_id, o) => (NodeUid_new volume_id link_id, o)) <$> aggregate_outcomes response))
      | Err e => mret (yielded, Some e)
      end
  end.

Definition node_action_stream (action : NodeAction) (uids : list NodeUid)
  : M S (list (NodeUid * Res unit) * option ProtonError) ProtonError :=
  drain_actions action (action_batches uids) [].

(** [try_collect] *)
Definition collect_actions (action : NodeAction) (uids : list NodeUid)
  : M S (list (NodeUid * Res unit)) ProtonError :=
  let* (outcomes, failed) := node_action_stream action uids in
  match failed with
  | None => mret outcomes
  | Some e => mfail e
  end.

Definition trash_nodes (uids : list NodeUid) := collect_actions Names.Trash uids.
Definition restore_nodes (uids : list NodeUid) := collect_actions Names.Restore uids.
Definition delete_nodes (uids : list NodeUid) := collect_actions Names.Delete uids.

(** The same as streams: what each yields, drained. *)
Definition trash_nodes_streaming (uids : list NodeUid) := node_action_stream Names.Trash uids.
Definition restore_nodes_streaming (uids : list NodeUid) := node_action_stream Names.Restore uids.
Definition delete_nodes_streaming (uids : list NodeUid) := node_action_stream Names.Delete uids.
End Actions.

(** ** Sharing by us, with us *)

Record SharedByMeLinkDto := {
  sb_share_id : ShareId;
  sb_link_id : LinkId;
  sb_context_share_id : option ShareId
}.
Record SharedByMeResponse := {
  sb_links : list SharedByMeLinkDto;
  sb_anchor_id : option string;
  sb_more : bool
}.

(** ** Devices *)

Record DeviceCreationDeviceDto := { dq_device_type : Z; dq_sync_state : Z }.
Record DeviceCreationShareDto := {
  dq_address_id : AddressId;
  dq_address_key_id : string;
  dq_share_key : string;
  dq_share_passphrase : string;
  dq_share_passphrase_signature : string
}.
Record DeviceCreationLinkDto := {
  dq_name : string;
  dq_link_key : string;
  dq_link_passphrase : string;
  dq_link_passphrase_signature : string;
  dq_node_hash_key : string
}.
Record DeviceCreationRequest := {
  dq_device : DeviceCreationDeviceDto;
  dq_share : DeviceCreationShareDto;
  dq_link : DeviceCreationLinkDto
}.
Record DeviceCreationResultDto := {
  dr_id : string;
  dr_share_id : ShareId;
  dr_root_link_id : LinkId
}.

Class ActionApi (W : Type) := {
  get_shared_by_me : string -> M W SharedByMeResponse ProtonError;
  post_device : string -> DeviceCreationRequest -> M W DeviceCreationResultDto ProtonError;
  (** [DeviceUpdateRequest] of a share's name *)
  put_device_name : string -> string -> M W unit ProtonError;
  delete_at : string -> M W unit ProtonError
}.

(** Reusing the session key of a message. *)
Class RenameOps (W Key CKey : Type) := {
  recover_message_session_key : Key -> string -> result CKey CryptoError;
  encrypt_and_sign_text_to : CKey -> Key -> Key -> string -> M W string CryptoError
}.

Section Drive.
Context {W Key Pub Sig CKey FK CS : Type} `{KeyOps Key} `{PassphraseOps} `{SealOps W Key}
        `{SignatureOps Key Pub Sig} `{!VerifyOps Key Pub} `{!ContentOps Key CKey}
        `{!ContentKeyExport CKey} `{AttributeOps} `{!RenameOps W Key CKey}
        `{DriveApi W} `{!NodeApi W} `{!ActionApi W} `{!AccountKeys W Key Pub} `{!AccountAddresses W}
        `{!DriveEntities W} `{NameOps} `{!Lru FK NodeUid Key} `{!Lru CS NodeUid ShareId}.

Abbreviation State := (DriveState W Key FK CS).
Abbreviation Call A := (M State A ProtonError).
Abbreviation Run A := (FM State A ProtonError).

Definition empty_trash : Call unit :=
  let* volume_id := main_volume_id in
  on_world (delete_at ("volumes/" +:+ volume_id +:+ "/trash")).

(** [page_shared_by_me]; the fuel bounds the pages. *)
Fixpoint shared_by_me_pages (fuel : nat) (volume_id : VolumeId) (uids : list NodeUid)
    (anchor : option string) : Run (list NodeUid) :=
  match fuel with
  | O => fun _ => None
  | Datatypes.S fuel =>
      let path := "v2/volumes/" +:+ volume_id +:+ "/shares" +:+
                  match anchor with Some id => "?AnchorID=" +:+ id | None => EmptyString end in
      let+ page := flift (on_world (get_shared_by_me path)) in
      let uids := uids ++ ((fun link => NodeUid_new volume_id (sb_link_id link)) <$> sb_links page) in
      let anchor : option string := match sb_anchor_id page with
                                    | Some id => if Str.is_empty id then None else Some id
                                    | None => None
                                    end in
      match anchor with
      | Some anchor => if sb_more page then shared_by_me_pages fuel volume_id uids (Some anchor) else fret uids
      | None => fret uids
      end
  end.

Definition page_shared_by_me (fuel : nat) (volume_id : VolumeId) : Run (list NodeUid) :=
  shared_by_me_pages fuel volume_id [] None.

Definition enumerate_shared_by_me_node_uids (fuel : nat) : Run (list NodeUid) :=
  let+ volume_id := flift main_volume_id in
  page_shared_by_me fuel volume_id.

Definition enumerate_photos_shared_by_me_node_uids (fuel : nat) : Run (list NodeUid) :=
  let+ exists_ := flift ensure_photos in
  if negb exists_ then fret []
  else
    let+ c := flift drive_cache in
    let+ root := flift (expect (dc_photos_root c) "ensure_photos populated the photos root") in
    page_shared_by_me fuel (volume_id root).

Definition remove_share_member (share_id : ShareId) (membership_id : string) : Call unit :=
  on_world (delete_at ("v2/shares/" +:+ share_id +:+ "/members/" +:+ membership_id)).

Definition leave_shared_node (uid : NodeUid) : Call unit :=
  let* details := get_link_details drive_post_links (volume_id uid) [link_id uid] in
  let* membership := mlift (ok_or
    (detail ← List.find (fun d => String.eqb (ln_id (ld_link d)) (link_id uid)) (lr_links details);
     ld_membership detail)
    (invalid_operation "you can leave only an item that is shared with you")) in
  remove_share_member (sd_share_id membership) (sd_membership_id membership).

(** *** Devices *)

(** A name that does not decrypt is part of its device. *)
Fixpoint name_devices (metadata : list DeviceMetadata) (devices : list Device) : Call (list Device) :=
  match metadata with
  | [] => mret devices
  | device :: metadata =>
      let* name := mtry (device_root_folder_name device) in
      name_devices metadata (devices ++ [into_device device name])
  end.

Definition enumerate_devices : Call (list Device) :=
  let* metadata := device_metadata in
  name_devices metadata [].

Definition create_device (fuel : nat) (name : string) (device_type : DeviceType) : Run Device :=
  let+ root := get_my_files_folder (Sig := Sig) (CKey := CKey) fuel in
  let volume := volume_id (nd_uid root) in
  let+ (address_id, _, address_key) := flift (membership_address_for (nd_uid root)) in
  let+ address_key_id := flift (address_primary_key_id address_id) in
  let+ material := flift (on_seal (build_volume_creation_material address_key name)) in
  let+ created := flift (on_world (post_device "devices"
    {| dq_device := {| dq_device_type := DeviceType_as_i32 device_type; dq_sync_state := 0 |};
       dq_share := {| dq_address_id := address_id; dq_address_key_id := address_key_id;
                      dq_share_key := vm_share_key_armored material;
                      dq_share_passphrase := vm_share_passphrase material;
                      dq_share_passphrase_signature := vm_share_passphrase_signature material |};
       dq_link := {| dq_name := vm_folder_name material; dq_link_key := vm_folder_key_armored material;
                     dq_link_passphrase := vm_folder_passphrase material;
                     dq_link_passphrase_signature := vm_folder_passphrase_signature material;
                     dq_node_hash_key := vm_folder_hash_key material |} |})) in
  let+ now := flift (on_world (fun w => let (now, w) := now_epoch_seconds w in (Ok now, w))) in
  fret {| dv_uid := dr_id created; dv_device_type := device_type; dv_name := Ok name;
          dv_root_folder_uid := NodeUid_new volume (dr_root_link_id created);
          dv_creation_time := now; dv_last_sync_time := None; dv_share_id := dr_share_id created |}.

(** The name goes to the share's key under the session key it had. *)
Definition seal_device_name (share_key signing_key : Key) (current_name name : string) : Call string :=
  let* name_session_key := mlift (map_err Crypto
    (recover_message_session_key (CKey := CKey) share_key current_name)) in
  on_seal (encrypt_and_sign_text_to name_session_key share_key signing_key name).

Definition rename_device (device_uid name : string) : Call Device :=
  let* device := device_metadata_by_uid device_uid in
  let* _ := if dm_has_deprecated_name device
            then let* _ := mtry (E := ProtonError) (on_world (put_device_name ("devices/" +:+ device_uid) EmptyString)) in
                 mret tt
            else mret tt in
  let* (share_key, membership_address_id) := share_key_by_id (dm_share_id device) in
  let* (_, email, signing_key) := resolve_membership_address membership_address_id in
  let uid := dm_root_folder_uid device in
  let* details := get_link_details drive_post_links (volume_id uid) [link_id uid] in
  let* current_name := mlift (ok_or
    ((fun d => ln_name (ld_link d)) <$>
       List.find (fun d => String.eqb (ln_id (ld_link d)) (link_id uid)) (lr_links details))
    (invalid_operation ("device root folder " +:+ NodeUid_display uid +:+ " not found"))) in
  let* encrypted_name := seal_device_name share_key signing_key current_name name in
  let* _ := on_world (put_rename ("v2/volumes/" +:+ volume_id uid +:+ "/links/" +:+ link_id uid +:+ "/rename")
    {| rn_name := encrypted_name; rn_name_hash := EmptyString; rn_name_signature_email := email;
       rn_media_type := None; rn_original_hash := EmptyString |}) in
  mret (into_device device (Ok name)).

Definition delete_device (device_uid : string) : Call unit :=
  on_world (delete_at ("devices/" +:+ device_uid)).
End Drive.
