(* ===== verification/ActionsFacts.v ===== *)
(** * Actions on nodes: theorems

    Proved of [Actions]: a batch action asks the server once for every node it was
    given, in requests the endpoint accepts, reports what the answers say and
    nothing else, and stops at the first request that fails. *)

From S2P Require Import Prelude Errors Config Keys Sealing Http Transport Revision Node Names NamesFacts.
From S2P Require Import EntityCache Links LinkCrypto Account Moves Drive Nodes Actions.

(** ** Batches *)

(** The nodes a list of groups or batches names. *)
Definition batch_uids (b : VolumeId * list LinkId) : list NodeUid := NodeUid_new b.1 <$> b.2.
Definition uids_of (groups : list (VolumeId * list LinkId)) : list NodeUid := concat (batch_uids <$> groups).

Lemma uids_of_cons g groups : uids_of (g :: groups) = batch_uids g ++ uids_of groups.
Proof. done. Qed.

Lemma uids_of_app g1 g2 : uids_of (g1 ++ g2) = uids_of g1 ++ uids_of g2.
Proof. unfold uids_of. by rewrite fmap_app, concat_app. Qed.

Lemma uids_of_add uid groups : uids_of (add_to_group uid groups) ≡ₚ uids_of groups ++ [uid].
Proof.
  induction groups as [|[v ids] groups IH]; simpl; [by destruct uid|].
  destruct (decide _) as [->|]; rewrite !uids_of_cons; [|by rewrite IH, app_assoc].
  unfold batch_uids. simpl. rewrite fmap_app, <- !app_assoc. apply Permutation_app_head. simpl.
  rewrite Permutation_app_comm. by destruct uid.
Qed.

Lemma uids_of_group_by_volume uids : uids_of (group_by_volume uids) ≡ₚ uids.
Proof.
  unfold group_by_volume. induction uids as [|uid uids IH] using rev_ind; [done|].
  rewrite foldl_app. cbn [foldl]. by rewrite uids_of_add, IH.
Qed.

Lemma action_batches_spec uids :
  uids_of (action_batches uids) ≡ₚ uids /\
  Forall (fun b => (0 < length b.2 <= MAX_BATCH_COUNT)%nat) (action_batches uids).
Proof.
  rewrite <- (uids_of_group_by_volume uids) at 2. unfold action_batches.
  induction (group_by_volume uids) as [|[v ids] groups [IH1 IH2]]; [by split; [|constructor]|].
  destruct (chunks_of_spec (length ids) MAX_BATCH_COUNT ids) as [Hc Hf]; [unfold MAX_BATCH_COUNT; lia|done|].
  rewrite fmap_cons. cbn [concat]. rewrite uids_of_app, uids_of_cons, IH1. fold (chunks MAX_BATCH_COUNT ids) in *.
  split; [|apply Forall_app_2; [by apply Forall_fmap|done]]. apply Permutation_app_tail.
  rewrite <- Hc at 2. unfold uids_of, batch_uids. cbn [fst snd].
  clear Hc Hf. induction (chunks MAX_BATCH_COUNT ids) as [|c cs IH]; [done|].
  rewrite fmap_cons. cbn [concat fmap list_fmap]. rewrite fmap_app. by apply Permutation_app.
Qed.

(** ** What was sent *)

Record Sent := { st_path : string; st_ids : list LinkId; st_reply : Res AggregateLinksResponse }.

Section Log.
Context {S : Type}.
Context (post_multiple put_multiple : string -> list LinkId -> M S AggregateLinksResponse ProtonError).

Definition recording (send : string -> list LinkId -> M S AggregateLinksResponse ProtonError)
    (path : string) (ids : list LinkId) : M (list Sent * S) AggregateLinksResponse ProtonError :=
  fun '(log, s) =>
    let (r, s) := send path ids s in
    (r, (log ++ [{| st_path := path; st_ids := ids; st_reply := r |}], s)).

(** The request a batch makes. *)
Definition request_of (action : NodeAction) (b : VolumeId * list LinkId) (x : Sent) : Prop :=
  st_path x = NodeAction_path action b.1 /\ st_ids x = b.2.

(** What the answer to a batch says of its volume's nodes. *)
Definition reported (b : VolumeId * list LinkId) (x : Sent) : list (NodeUid * Res unit) :=
  match st_reply x with
  | Ok response => (fun '(link_id, o) => (NodeUid_new b.1 link_id, o)) <$> aggregate_outcomes response
  | Err _ => []
  end.

(** The run over [batches]: [asked] were sent, the rest not. *)
Record ran (action : NodeAction) (batches : list (VolumeId * list LinkId)) (sent : list Sent)
    (yielded : list (NodeUid * Res unit)) (failed : option ProtonError) : Prop := {
  rn_batches : exists asked unsent, batches = asked ++ unsent /\ Forall2 (request_of action) asked sent /\
                 yielded = concat (zip_with reported asked sent) /\ (failed = None -> unsent = []);
  rn_answers : match failed with
               | None => Forall (fun x => is_ok (st_reply x) = true) sent
               | Some e => exists before x, sent = before ++ [x] /\ st_reply x = Err e /\
                             Forall (fun x => is_ok (st_reply x) = true) before
               end
}.

Lemma drain_actions_ran action batches yielded0 log0 s r log s' :
  drain_actions (recording post_multiple) (recording put_multiple) action batches yielded0 (log0, s)
    = (r, (log, s')) ->
  exists yielded failed sent, r = Ok (yielded0 ++ yielded, failed) /\ log = log0 ++ sent /\
    ran action batches sent yielded failed.
Proof.
  revert yielded0 log0 s. induction batches as [|[v ids] batches IH]; intros yielded0 log0 s; simpl.
  { intros [= <- <- _]. exists [], None, []. rewrite !app_nil_r. split_and!; [done..|].
    split; [by exists [], []|constructor]. }
  unfold mbind_, mtry.
  assert (exists reply s1, send_action (recording post_multiple) (recording put_multiple) action v ids (log0, s)
            = (reply, (log0 ++ [{| st_path := NodeAction_path action v; st_ids := ids; st_reply := reply |}], s1)))
    as (reply & s1 & ->).
  { unfold send_action, recording. destruct action;
      match goal with |- context [let (_, _) := ?m in _] => destruct m as [reply s1] end; by exists reply, s1. }
  set (x := {| st_path := _; st_ids := _; st_reply := reply |}).
  assert (request_of action (v, ids) x) as Hx by done.
  destruct reply as [response|e].
  - intros (yielded & failed & sent & -> & -> & [(asked & unsent & -> & Hf & -> & Hn) Ha])%IH.
    exists (reported (v, ids) x ++ concat (zip_with reported asked sent)), failed, (x :: sent).
    rewrite <- !app_assoc. split_and!; [done..|]. split.
    + exists ((v, ids) :: asked), unsent. split_and!; [done|by constructor|done|done].
    + destruct failed as [e|]; [|by constructor]. destruct Ha as (before & y & -> & Hy & Hb).
      exists (x :: before), y. split_and!; [done..|by constructor].
  - intros [= <- <- _]. exists [], (Some e), [x]. rewrite !app_nil_r. split_and!; [done..|]. split.
    + exists [(v, ids)], batches. split_and!; [done|by constructor; [|constructor]|done|done].
    + exists [], x. by split_and!.
Qed.

(** C33: a batch action - trash, restore, delete - asks for every node once: the
    requests go to the action's route of each node's own volume with 1 to 150 links
    each; until one fails, all of them together name exactly the nodes given, as
    often as they were given; what is yielded is what the answers report of those
    volumes' links, in order, whatever the server leaves out or adds; and a request
    that fails is the last one sent, its error the last thing yielded. *)
Theorem node_action_asks_each_once action uids s r log s' :
  node_action_stream (recording post_multiple) (recording put_multiple) action uids ([], s) = (r, (log, s')) ->
  exists yielded failed asked unsent,
    r = Ok (yielded, failed) /\
    Forall2 (request_of action) asked log /\
    Forall (fun x => (0 < length (st_ids x) <= MAX_BATCH_COUNT)%nat) log /\
    uids_of asked ++ uids_of unsent ≡ₚ uids /\
    yielded = concat (zip_with reported asked log) /\
    match failed with
    | None => unsent = [] /\ Forall (fun x => is_ok (st_reply x) = true) log
    | Some e => exists before x, log = before ++ [x] /\ st_reply x = Err e /\
                  Forall (fun x => is_ok (st_reply x) = true) before
    end.
Proof.
  intros (yielded & failed & sent & -> & -> & [(asked & unsent & Hb & Hf & Hy & Hn) Ha])%drain_actions_ran.
  destruct (action_batches_spec uids) as [Hp Hl]. rewrite Hb in Hp, Hl.
  exists yielded, failed, asked, unsent. split_and!; [done|done| |by rewrite <- uids_of_app|done|].
  - apply Forall_app in Hl as [Hl _]. clear -Hf Hl.
    induction Hf as [|b x asked sent [_ Hx] Hf IH]; [constructor|].
    apply Forall_cons in Hl as [Hb Hl]. constructor; [by rewrite Hx|by apply IH].
  - destruct failed as [e|]; [done|]. by split; [apply Hn|].
Qed.
End Log.

(** ** Three nodes of two volumes

    The second volume's request fails. *)

Definition toy_trash_post (path : string) (ids : list LinkId) : M unit AggregateLinksResponse ProtonError :=
  if String.eqb path "v2/volumes/v/trash_multiple"
  then mret {| ag_responses := (fun id => {| lp_link_id := id;
         lp_response := {| ar_code := ResponseCode.Success; ar_error_message := None; ar_details := None |} |}) <$> ids |}
  else mfail (invalid_operation "unreachable").

Lemma node_action_asks_each_once_witness :
  exists yielded log s',
    node_action_stream (recording toy_trash_post) (recording toy_trash_post) Names.Trash
      [NodeUid_new "v" "a"; NodeUid_new "w" "b"; NodeUid_new "v" "c"] ([], tt)
      = (Ok (yielded, Some (invalid_operation "unreachable")), (log, s')) /\
    length log = 2%nat /\ yielded = [(NodeUid_new "v" "a", Ok tt); (NodeUid_new "v" "c", Ok tt)].
Proof.
  destruct (node_action_stream (recording toy_trash_post) (recording toy_trash_post) Names.Trash
      [NodeUid_new "v" "a"; NodeUid_new "w" "b"; NodeUid_new "v" "c"] ([], tt)) as [r [log s']] eqn:E.
  destruct (node_action_asks_each_once toy_trash_post toy_trash_post Names.Trash
      [NodeUid_new "v" "a"; NodeUid_new "w" "b"; NodeUid_new "v" "c"] tt r log s' E)
    as (yielded & failed & asked & unsent & -> & Hf & _ & _ & _ & _).
  vm_compute in E. injection E as <- <- <- <-. eexists _, _, _. split; [reflexivity|]. by split.
Defined.
