(* ===== verification/Sharing.v ===== *)
(** * The Drive client: sharing

    From [crates/proton-drive-rs/src/client.rs] and [sharing.rs]: the standard
    share of a node, inviting Proton users and external addresses, members and
    pending invitations, public links and the secret in their URL, the
    invitations sent to us and the bookmarks.

    On the state of [Drive]; the sealing is [Sealing]'s.  The requests are
    [SharingApi], the addresses of the account [AccountListing]; a session key
    wrapped with a password is [LinkPasswordOps], and Unicode's lower case and
    [String::from_utf8_lossy] are [TextOps]. *)

From S2P Require Import Prelude Errors Config Keys Sealing Http Srp Transport Revision Node Names.
From S2P Require Import EntityCache Links LinkCrypto Account PublicLink Drive Nodes Actions.

(** ** Wire records ([dtos.rs]) *)

Record CreateShareRequest := {
  cq_root_link_id : LinkId;
  cq_address_id : AddressId;
  cq_name : string;
  cq_share_key : string;
  cq_share_passphrase : string;
  cq_share_passphrase_signature : string;
  cq_passphrase_key_packet : string;
  cq_name_key_packet : string
}.
Record CreatedShareDto := { cd_id : ShareId; cd_editors_can_share : bool }.

Record InviteProtonUserInvitationDto := {
  iq_inviter_email : string;
  iq_invitee_email : string;
  iq_permissions : Z;
  iq_key_packet : string;
  iq_key_packet_signature : string;
  iq_external_invitation_id : option string
}.
Record InviteEmailDetailsDto := { ie_message : option string; ie_item_name : option string }.
Record InviteProtonUserRequest := {
  ir_invitation : InviteProtonUserInvitationDto;
  ir_email_details : InviteEmailDetailsDto
}.

Record ShareInvitationDto := {
  id_invitation_id : string;
  id_inviter_email : string;
  id_invitee_email : string;
  id_permissions : option Z;
  id_create_time : Z
}.

Record ShareMemberDto := {
  md_member_id : string;
  md_inviter_email : string;
  md_email : string;
  md_permissions : option Z;
  md_create_time : Z
}.

Record InvitationListItemDto := {
  il_invitation_id : string;
  il_share_id : string;
  il_share_target_type : Z
}.
Record InvitationsListResponse := {
  ip_invitations : list InvitationListItemDto;
  ip_more : bool;
  ip_anchor_id : option string
}.

Record IncomingInvitationDto := {
  in_invitation_id : string;
  in_inviter_email : string;
  in_invitee_email : string;
  in_key_packet : string;
  in_key_packet_signature : string;
  in_permissions : option Z;
  in_create_time : Z
}.
Record InvitationShareDto := {
  is_share_key : string;
  is_passphrase : string;
  is_creator_email : string;
  is_volume_id : string;
  is_share_target_type : Z
}.
Record InvitationLinkDto := {
  ik_link_id : string;
  ik_link_type : Z;
  ik_mime_type : option string;
  ik_name : string
}.
Record InvitationDetailsResponse := {
  iv_invitation : IncomingInvitationDto;
  iv_share : InvitationShareDto;
  iv_link : InvitationLinkDto
}.
Record AcceptInvitationRequest := { aq_session_key_signature : string }.

Record ExternalInvitationDto := {
  xq_inviter_address_id : AddressId;
  xq_invitee_email : string;
  xq_permissions : Z;
  xq_external_invitation_signature : string
}.
Record InviteExternalUserRequest := {
  xr_external_invitation : ExternalInvitationDto;
  xr_email_details : InviteEmailDetailsDto
}.
Record ExternalInvitationResponseDto := {
  xd_external_invitation_id : string;
  xd_inviter_email : string;
  xd_invitee_email : string;
  xd_permissions : option Z;
  xd_create_time : Z;
  xd_state : Z
}.

Record BookmarkTokenDto := {
  bt_token : string;
  bt_share_key : string;
  bt_share_passphrase : string;
  bt_share_password_salt : string;
  bt_link_type : Z;
  bt_mime_type : option string;
  bt_name : string;
  bt_node_key : string;
  bt_node_passphrase : string;
  bt_content_key_packet : option string
}.
Record BookmarkDto := {
  bd_token : BookmarkTokenDto;
  bd_create_time : Z;
  bd_encrypted_url_password : option string
}.
Record BookmarkShareUrlDto := {
  bq_encrypted_url_password : string;
  bq_address_id : AddressId;
  bq_address_key_id : string
}.

Record ModulusResponse := { mo_modulus : string; mo_modulus_id : string }.

Record PublicLinkSettingsDto := {
  lt_permissions : Z;
  lt_flags : Z;
  lt_share_password_salt : string;
  lt_share_passphrase_key_packet : string;
  lt_password : string;
  lt_url_password_salt : string;
  lt_srp_verifier : string;
  lt_srp_modulus_id : string;
  lt_max_accesses : Z
}.
Record CreatePublicLinkRequest := {
  lc_creator_email : string;
  lc_expiration_time : option Z;
  lc_settings : PublicLinkSettingsDto
}.
Record UpdatePublicLinkRequest := {
  lu_expiration_time : option Z;
  lu_settings : PublicLinkSettingsDto
}.
Record ShareUrlDto := {
  ul_share_url_id : string;
  ul_share_id : option ShareId;
  ul_public_url : string;
  ul_password : option string;
  ul_create_time : Z;
  ul_expiration_time : option Z;
  ul_permissions : option Z;
  ul_flags : Z;
  ul_num_accesses : Z
}.

(** ** The model ([sharing.rs]) *)

Record ShareMember := {
  me_share_id : ShareId;
  me_membership_id : string;
  me_email : string;
  me_added_by_email : string;
  me_role : MemberRole;
  me_invitation_time : Z
}.

Record PublicLink := {
  li_share_id : ShareId;
  li_public_link_id : string;
  li_url : option string;
  li_role : MemberRole;
  li_creation_time : Z;
  li_expiration_time : option Z;
  li_has_custom_password : bool;
  li_custom_password : option string
}.

Record ShareInvitation := {
  nv_share_id : ShareId;
  nv_invitation_id : string;
  nv_invitee_email : string;
  nv_inviter_email : string;
  nv_role : MemberRole;
  nv_invitation_time : Z
}.

Record ExternalInvitation := {
  xv_share_id : ShareId;
  xv_invitation_id : string;
  xv_invitee_email : string;
  xv_inviter_email : string;
  xv_role : MemberRole;
  xv_invitation_time : Z;
  xv_state : ExternalInvitationState
}.

Record IncomingInvitation := {
  ii_invitation_id : string;
  ii_inviter_email : string;
  ii_invitee_email : string;
  ii_role : MemberRole;
  ii_invitation_time : Z;
  ii_node_uid : NodeUid;
  ii_node_name : option string;
  ii_is_folder : bool
}.

Record Bookmark := {
  bk_token : string;
  bk_url : string;
  bk_custom_password : option string;
  bk_node_name : option string;
  bk_is_folder : bool;
  bk_creation_time : Z
}.

(** ** The interfaces *)

Class SharingApi (W : Type) := {
  post_share : string -> CreateShareRequest -> M W CreatedShareDto ProtonError;
  get_members : string -> M W (list ShareMemberDto) ProtonError;
  get_invitations : string -> M W (list ShareInvitationDto) ProtonError;
  post_invitation : string -> InviteProtonUserRequest -> M W ShareInvitationDto ProtonError;
  (** [UpdatePermissionsRequest] of a mask *)
  put_permissions : string -> Z -> M W unit ProtonError;
  get_external_invitations : string -> M W (list ExternalInvitationResponseDto) ProtonError;
  post_external_invitation : string -> InviteExternalUserRequest ->
    M W ExternalInvitationResponseDto ProtonError;
  get_incoming_page : string -> M W InvitationsListResponse ProtonError;
  get_incoming : string -> M W InvitationDetailsResponse ProtonError;
  post_accept : string -> AcceptInvitationRequest -> M W unit ProtonError;
  post_reject : string -> M W unit ProtonError;
  post_share_url : string -> CreatePublicLinkRequest -> M W ShareUrlDto ProtonError;
  put_share_url : string -> UpdatePublicLinkRequest -> M W unit ProtonError;
  get_share_urls : string -> M W (list ShareUrlDto) ProtonError;
  get_bookmarks : string -> M W (list BookmarkDto) ProtonError;
  post_bookmark : string -> BookmarkShareUrlDto -> M W unit ProtonError;
  (** at the root of the API, not under [drive/] *)
  get_root_modulus : string -> M W ModulusResponse ProtonError
}.

Class AccountListing (W : Type) := { acct_addresses : M W (list Address) ProtonError }.

(** [ContentKey::encrypt_with_password] *)
Class LinkPasswordOps (W CKey : Type) := {
  wrap_with_password : CKey -> string -> M W string CryptoError
}.

Class TextOps := {
  to_lowercase : string -> string;
  from_utf8_lossy : string -> string
}.

(** ** Conversions *)

Definition invitation_from_dto (share_id : ShareId) (dto : ShareInvitationDto) : ShareInvitation :=
  {| nv_share_id := share_id; nv_invitation_id := id_invitation_id dto;
     nv_invitee_email := id_invitee_email dto; nv_inviter_email := id_inviter_email dto;
     nv_role := from_permissions (id_permissions dto); nv_invitation_time := id_create_time dto |}.

Definition external_invitation_from_dto (share_id : ShareId) (dto : ExternalInvitationResponseDto)
  : ExternalInvitation :=
  {| xv_share_id := share_id; xv_invitation_id := xd_external_invitation_id dto;
     xv_invitee_email := xd_invitee_email dto; xv_inviter_email := xd_inviter_email dto;
     xv_role := from_permissions (xd_permissions dto); xv_invitation_time := xd_create_time dto;
     xv_state := ExternalInvitationState_from_raw (xd_state dto) |}.

Definition member_from_dto (share_id : ShareId) (dto : ShareMemberDto) : ShareMember :=
  {| me_share_id := share_id; me_membership_id := md_member_id dto; me_email := md_email dto;
     me_added_by_email := md_inviter_email dto; me_role := from_permissions (md_permissions dto);
     me_invitation_time := md_create_time dto |}.

(** ** Public link passwords *)

Definition PUBLIC_LINK_PASSWORD_CHARSET : string :=
  "ABCDEFGHIJKLMNOPQRSTUVWXYZabcdefghijklmnopqrstuvwxyz0123456789".

(** The character of one random byte. *)
Definition password_char (b : ascii) : ascii :=
  default b (String.get (nat_of_ascii b mod String.length PUBLIC_LINK_PASSWORD_CHARSET)%nat
               PUBLIC_LINK_PASSWORD_CHARSET).

Fixpoint map_chars (f : ascii -> ascii) (s : string) : string :=
  match s with
  | EmptyString => EmptyString
  | String a s => String (f a) (map_chars f s)
  end.

(** [filter(|p| !p.is_empty())] *)
Definition non_empty (password : option string) : option string :=
  p ← password; if Str.is_empty p then None else Some p.

(** The fragment of a link that can be updated. *)
Definition generated_fragment (url : option string) : option string :=
  url ← url; '(_, fragment) ← Str.split_once "#" url;
  if Str.chars_count fragment =? Z.of_nat PUBLIC_LINK_PASSWORD_LEN then Some fragment else None.

Section Passwords.
Context {W Key : Type} `{SealOps W Key}.

Definition generate_public_link_password : W -> string * W := fun w =>
  let (raw, w) := fill_bytes PUBLIC_LINK_PASSWORD_LEN w in (map_chars password_char raw, w).

Definition generate_key_salt : W -> string * W := fill_bytes 16.
End Passwords.

Section Sharing.
Context {W Key Pub Sig CKey FK CS : Type} `{KeyOps Key} `{PassphraseOps} `{SealOps W Key}
        `{SessionKeyOps W Key Pub CKey} `{!ContentOps Key CKey} `{!ContentKeyExport CKey}
        `{!RenameOps W Key CKey} `{!SrpPrimitives W} `{!PublicLinkCodec}
        `{!LinkPasswordOps W CKey} `{TextOps}
        `{DriveApi W} `{!NodeApi W} `{!ActionApi W} `{!SharingApi W}
        `{!AccountKeys W Key Pub} `{!AccountAddresses W} `{!AccountListing W}
        `{!DriveEntities W} `{!Lru FK NodeUid Key} `{!Lru CS NodeUid ShareId}.

Abbreviation State := (DriveState W Key FK CS).
Abbreviation Call A := (M State A ProtonError).
Abbreviation Run A := (FM State A ProtonError).

Definition draw {A} (m : W -> A * W) : Call A :=
  on_world (fun w => let (a, w) := m w in (Ok a, w)).

Definition account_public_keys (email : string) : Call (list Pub) :=
  draw (acct_public_keys (Key := Key) email).

(** *** The share of a node *)

Definition node_share_id (uid : NodeUid) : Call (option ShareId) :=
  let* details := get_link_details drive_post_links (volume_id uid) [link_id uid] in
  mret (detail ← List.find (fun d => String.eqb (ln_id (ld_link d)) (link_id uid)) (lr_links details);
        ls_share_id <$> ld_sharing detail).

(** The session key of the passphrase of a share that exists. *)
Definition existing_share_session_key (node_key : Key) (share_id : ShareId) : Call CKey :=
  let* response := on_world (get_share ("shares/" +:+ share_id)) in
  mlift (map_err Crypto (recover_message_session_key node_key (sh_passphrase (sr_share response)))).

(** A fresh share, bound to the node and the owning address. *)
Definition create_standard_share (uid : NodeUid) (link : LinkDto) (parent_key node_key : Key)
    (address_id : AddressId) (address_key : Key) : Call (ShareId * CKey) :=
  let* node_passphrase_sk :=
    mlift (map_err Crypto (recover_message_session_key (CKey := CKey) parent_key (ln_passphrase link))) in
  let* node_name_sk :=
    mlift (map_err Crypto (recover_message_session_key (CKey := CKey) parent_key (ln_name link))) in
  let* material := on_seal (build_standard_share_material node_key node_passphrase_sk node_name_sk
                              address_key) in
  let* created := on_world (post_share ("volumes/" +:+ volume_id uid +:+ "/shares")
    {| cq_root_link_id := link_id uid; cq_address_id := address_id; cq_name := "New Share";
       cq_share_key := ss_share_key_armored material;
       cq_share_passphrase := ss_share_passphrase material;
       cq_share_passphrase_signature := ss_share_passphrase_signature material;
       cq_passphrase_key_packet := ss_passphrase_key_packet material;
       cq_name_key_packet := ss_name_key_packet material |}) in
  mret (cd_id created, ss_share_session_key material).

Definition ensure_node_share (fuel : nat) (uid : NodeUid) : Run (ShareId * CKey * string * Key) :=
  let+ details := flift (get_link_details drive_post_links (volume_id uid) [link_id uid]) in
  let+ detail := flift (mlift (ok_or
    (List.find (fun d => String.eqb (ln_id (ld_link d)) (link_id uid)) (lr_links details))
    (invalid_operation "node not found"))) in
  let link := ld_link detail in
  let+ parent_key := drive_resolve_parent_key_ctx fuel (volume_id uid) link false in
  let+ decrypted := flift (mlift (decrypt_link parent_key link)) in
  let+ (address_id, inviter_email, address_key) := flift (membership_address_for uid) in
  let+ (share_id, share_session_key) := flift
    match ld_sharing detail with
    | Some sharing =>
        let* share_session_key :=
          existing_share_session_key (dl_node_key decrypted) (ls_share_id sharing) in
        mret (ls_share_id sharing, share_session_key)
    | None =>
        create_standard_share uid link parent_key (dl_node_key decrypted) address_id address_key
    end in
  fret (share_id, share_session_key, inviter_email, address_key).

(** *** Members and invitations *)

Definition list_share_members_inner (share_id : ShareId) : Call (list ShareMember) :=
  let* members := on_world (get_members ("v2/shares/" +:+ share_id +:+ "/members")) in
  mret (member_from_dto share_id <$> members).

Definition list_share_invitations_inner (share_id : ShareId) : Call (list ShareInvitation) :=
  let* invitations := on_world (get_invitations ("v2/shares/" +:+ share_id +:+ "/invitations")) in
  mret (invitation_from_dto share_id <$> invitations).

Definition list_external_invitations_inner (share_id : ShareId) : Call (list ExternalInvitation) :=
  let* invitations :=
    on_world (get_external_invitations ("v2/shares/" +:+ share_id +:+ "/external-invitations")) in
  mret (external_invitation_from_dto share_id <$> invitations).

(** What a listing of the share on a node gives: nothing when there is none. *)
Definition on_node_share {A} (list_inner : ShareId -> Call (list A)) (uid : NodeUid) : Call (list A) :=
  let* share_id := node_share_id uid in
  match share_id with
  | Some share_id => list_inner share_id
  | None => mret []
  end.

Definition list_share_members := on_node_share list_share_members_inner.
Definition list_share_invitations := on_node_share list_share_invitations_inner.
Definition list_external_invitations := on_node_share list_external_invitations_inner.

Definition inherited_invitee : ProtonError :=
  invalid_operation "cannot invite a user with the inherited role".

Definition email_details (email_message : option string) : InviteEmailDetailsDto :=
  {| ie_message := email_message; ie_item_name := None |}.

(** One invitation of [share_node]: sealed to the invitee's first key, and sent. *)
Definition invite_one (share_id : ShareId) (share_session_key : CKey) (inviter_email : string)
    (inviter_key : Key) (email_message : option string) (email : string) (role : MemberRole)
  : Call ShareInvitation :=
  let* permissions := mlift (ok_or (to_permissions role) inherited_invitee) in
  let* invitee_keys := account_public_keys email in
  let* invitee_pubkey := mlift (ok_or (head invitee_keys)
    (invalid_operation ("no public key for invitee " +:+ email))) in
  let* (key_packet, key_packet_signature) :=
    on_seal (encrypt_invitation share_session_key inviter_key invitee_pubkey) in
  let* invitation := on_world (post_invitation ("v2/shares/" +:+ share_id +:+ "/invitations")
    {| ir_invitation := {| iq_inviter_email := inviter_email; iq_invitee_email := email;
                           iq_permissions := permissions; iq_key_packet := key_packet;
                           iq_key_packet_signature := key_packet_signature;
                           iq_external_invitation_id := None |};
       ir_email_details := email_details email_message |}) in
  mret (invitation_from_dto share_id invitation).

(** The [for] over the invitees; who is in [already] is skipped. *)
Fixpoint invite_each {A} (invite : string -> MemberRole -> Call A) (already : gset string)
    (invitees : list (string * MemberRole)) (created : list A) : Call (list A) :=
  match invitees with
  | [] => mret created
  | (email, role) :: invitees =>
      if bool_decide (to_lowercase email ∈ already) then invite_each invite already invitees created
      else
        let* invitation := invite email role in
        invite_each invite already invitees (created ++ [invitation])
  end.

Definition share_node (fuel : nat) (uid : NodeUid) (invitees : list (string * MemberRole))
    (email_message : option string) : Run (list ShareInvitation) :=
  let+ (share_id, share_session_key, inviter_email, inviter_key) := ensure_node_share fuel uid in
  let+ existing_invites := flift (list_share_invitations_inner share_id) in
  let+ existing_members := flift (list_share_members_inner share_id) in
  let already : gset string := list_to_set
    ((to_lowercase ∘ nv_invitee_email <$> existing_invites)
     ++ (to_lowercase ∘ me_email <$> existing_members)) in
  flift (invite_each (invite_one share_id share_session_key inviter_email inviter_key email_message)
           already invitees []).

Definition update_member_role (member : ShareMember) (role : MemberRole) : Call unit :=
  let* permissions := mlift (ok_or (to_permissions role)
    (invalid_operation "cannot set a member to the inherited role")) in
  on_world (put_permissions
    ("v2/shares/" +:+ me_share_id member +:+ "/members/" +:+ me_membership_id member) permissions).

Definition remove_member (member : ShareMember) : Call unit :=
  remove_share_member (me_share_id member) (me_membership_id member).

Definition update_invitation_role (invitation : ShareInvitation) (role : MemberRole) : Call unit :=
  let* permissions := mlift (ok_or (to_permissions role)
    (invalid_operation "cannot set an invitation to the inherited role")) in
  on_world (put_permissions
    ("v2/shares/" +:+ nv_share_id invitation +:+ "/invitations/" +:+ nv_invitation_id invitation)
    permissions).

Definition delete_invitation (invitation : ShareInvitation) : Call unit :=
  on_world (delete_at
    ("v2/shares/" +:+ nv_share_id invitation +:+ "/invitations/" +:+ nv_invitation_id invitation)).

(** *** Inviting external addresses *)

Definition invite_one_external (share_id : ShareId) (share_session_key : CKey)
    (address_id : AddressId) (inviter_key : Key) (email_message : option string) (email : string)
    (role : MemberRole) : Call ExternalInvitation :=
  let* permissions := mlift (ok_or (to_permissions role) inherited_invitee) in
  let* signature := on_seal (encrypt_external_invitation share_session_key inviter_key email) in
  let* invitation := on_world (post_external_invitation
    ("v2/shares/" +:+ share_id +:+ "/external-invitations")
    {| xr_external_invitation := {| xq_inviter_address_id := address_id; xq_invitee_email := email;
                                    xq_permissions := permissions;
                                    xq_external_invitation_signature := signature |};
       xr_email_details := email_details email_message |}) in
  mret (external_invitation_from_dto share_id invitation).

Definition invite_external_users (fuel : nat) (uid : NodeUid) (invitees : list (string * MemberRole))
    (email_message : option string) : Run (list ExternalInvitation) :=
  let+ (share_id, share_session_key, _, inviter_key) := ensure_node_share fuel uid in
  let+ (address_id, _, _) := flift membership_address in
  let+ external := flift (list_external_invitations_inner share_id) in
  let+ pending := flift (list_share_invitations_inner share_id) in
  let+ members := flift (list_share_members_inner share_id) in
  let already : gset string := list_to_set
    ((to_lowercase ∘ xv_invitee_email <$> external)
     ++ (to_lowercase ∘ nv_invitee_email <$> pending)
     ++ (to_lowercase ∘ me_email <$> members)) in
  flift (invite_each (invite_one_external share_id share_session_key address_id inviter_key email_message)
           already invitees []).

(** Those with keys, and those without: [(proton, external)]. *)
Fixpoint route_invitees (invitees proton external : list (string * MemberRole))
  : Call (list (string * MemberRole) * list (string * MemberRole)) :=
  match invitees with
  | [] => mret (proton, external)
  | (email, role) :: invitees =>
      let* keys := account_public_keys email in
      match keys with
      | [] => route_invitees invitees proton (external ++ [(email, role)])
      | _ => route_invitees invitees (proton ++ [(email, role)]) external
      end
  end.

Definition invite_users (fuel : nat) (uid : NodeUid) (invitees : list (string * MemberRole))
    (email_message : option string) : Run (nat * nat) :=
  let+ (proton, external) := flift (route_invitees invitees [] []) in
  let+ proton_invited := match proton with
                         | [] => fret 0%nat
                         | _ => let+ l := share_node fuel uid proton email_message in fret (length l)
                         end in
  let+ external_invited := match external with
                           | [] => fret 0%nat
                           | _ => let+ l := invite_external_users fuel uid external email_message in
                                  fret (length l)
                           end in
  fret (proton_invited, external_invited).

Definition delete_external_invitation (invitation : ExternalInvitation) : Call unit :=
  on_world (delete_at
    ("v2/shares/" +:+ xv_share_id invitation +:+ "/external-invitations/" +:+ xv_invitation_id invitation)).

(** *** Our own keys *)

Definition own_address_keys (email : string) : Call (list Key * Key) :=
  let email_lc := to_lowercase email in
  let* addresses := on_world acct_addresses in
  let* address := mlift (ok_or
    (List.find (fun a => String.eqb (to_lowercase (ad_email a)) email_lc) addresses)
    (invalid_operation ("no own address for " +:+ email))) in
  let* keys := on_world (acct_address_private_keys (ad_id address)) in
  let* signing_key := mlift (ok_or (keys !! ad_primary_key_index address)
    (invalid_operation "address has no primary key")) in
  mret (keys, signing_key).

(** *** Public links *)

Definition fetch_srp_modulus : Call ModulusResponse := on_world (get_root_modulus "auth/v4/modulus").

Definition full_password (generated : string) (custom_password : option string) : string :=
  generated +:+ default EmptyString (non_empty custom_password).

(** What [spawn_blocking] runs: the share key wrapped under the password, the
    password sealed to its owner, and the verifier of the password. *)
Definition seal_link_password (share_session_key : CKey) (address_key : Key)
    (password key_salt signed_modulus : string) : Call (string * string * SrpVerifier) :=
  let* salted_passphrase := mlift (map_err Crypto (derive_key_passphrase password key_salt)) in
  let* wrapped := on_seal (wrap_with_password share_session_key salted_passphrase) in
  let* armored_password := on_seal (key_encrypt address_key password) in
  let* verifier := on_seal (generate_verifier (string_bytes password) signed_modulus DEFAULT_BIT_LENGTH) in
  mret (base64_standard_encode wrapped, armored_password, verifier).

Definition seal_public_link_settings (permissions : Z) (generated : string)
    (custom_password : option string) (share_session_key : CKey) (address_key : Key)
  : Call PublicLinkSettingsDto :=
  let* modulus := fetch_srp_modulus in
  let* key_salt := draw generate_key_salt in
  let* (share_passphrase_key_packet, armored_password, verifier) :=
    seal_link_password share_session_key address_key (full_password generated custom_password)
      key_salt (mo_modulus modulus) in
  mret {| lt_permissions := permissions;
          lt_flags := match non_empty custom_password with Some _ => 3 | None => 2 end;
          lt_share_password_salt := base64_standard_encode key_salt;
          lt_share_passphrase_key_packet := share_passphrase_key_packet;
          lt_password := armored_password;
          lt_url_password_salt := sv_salt verifier;
          lt_srp_verifier := Srp.sv_verifier verifier;
          lt_srp_modulus_id := mo_modulus_id modulus;
          lt_max_accesses := 0 |}.

Definition create_public_link (fuel : nat) (uid : NodeUid) (role : MemberRole)
    (custom_password : option string) (expiration_time : option Z) : Run PublicLink :=
  let+ permissions := flift (mlift (public_link_permissions role)) in
  let+ (share_id, share_session_key, creator_email, address_key) := ensure_node_share fuel uid in
  let+ generated := flift (draw generate_public_link_password) in
  let+ settings := flift (seal_public_link_settings permissions generated custom_password
                            share_session_key address_key) in
  let+ created := flift (on_world (post_share_url ("shares/" +:+ share_id +:+ "/urls")
    {| lc_creator_email := creator_email; lc_expiration_time := expiration_time;
       lc_settings := settings |})) in
  let+ now := flift (draw now_epoch_seconds) in
  fret {| li_share_id := share_id; li_public_link_id := ul_share_url_id created;
          li_url := Some (ul_public_url created +:+ "#" +:+ generated); li_role := role;
          li_creation_time := now; li_expiration_time := expiration_time;
          li_has_custom_password := lt_flags settings =? 3;
          li_custom_password := non_empty custom_password |}.

(** The stored password, opened with our My Files address keys. *)
Definition stored_link_password (enc : string) : Call string :=
  let* (_, email, _) := membership_address in
  let* (address_keys, _) := own_address_keys email in
  let* bytes := mlift (map_err Crypto (decrypt_armored_with_keys enc address_keys)) in
  mret (from_utf8_lossy bytes).

Definition recover_public_link_secret (dto : ShareUrlDto) : Call (option string * option string) :=
  match ul_password dto with
  | None => mret (None, None)
  | Some enc =>
      let* full := mtry (stored_link_password enc) in
      match full with
      | Err _ => mret (None, None)
      | Ok full =>
          let (generated, custom) := split_link_password full in
          mret (if Str.is_empty (ul_public_url dto) then None
                else Some (ul_public_url dto +:+ "#" +:+ generated), custom)
      end
  end.

Definition get_public_link (uid : NodeUid) : Call (option PublicLink) :=
  let* share_id := node_share_id uid in
  match share_id with
  | None => mret None
  | Some share_id =>
      let* share_urls := on_world (get_share_urls ("shares/" +:+ share_id +:+ "/urls")) in
      match share_urls with
      | [] => mret None
      | dto :: _ =>
          let* (url, custom_password) := recover_public_link_secret dto in
          mret (Some {| li_share_id := share_id; li_public_link_id := ul_share_url_id dto;
                        li_url := url; li_role := from_permissions (ul_permissions dto);
                        li_creation_time := ul_create_time dto;
                        li_expiration_time := ul_expiration_time dto;
                        li_has_custom_password := ul_flags dto =? 3;
                        li_custom_password := custom_password |})
      end
  end.

Definition update_public_link (fuel : nat) (uid : NodeUid) (role : MemberRole)
    (custom_password : option string) (expiration_time : option Z) : Run PublicLink :=
  let+ permissions := flift (mlift (public_link_permissions role)) in
  let+ found := flift (get_public_link uid) in
  let+ link := flift (mlift (ok_or found (invalid_operation "the node has no public link"))) in
  let+ generated := flift (mlift (ok_or (generated_fragment (li_url link))
    (invalid_operation "a legacy public link cannot be updated; remove it and create a new one"))) in
  let+ (_, share_session_key, _, address_key) := ensure_node_share fuel uid in
  let+ settings := flift (seal_public_link_settings permissions generated custom_password
                            share_session_key address_key) in
  let+ _ := flift (on_world (put_share_url
    ("shares/" +:+ li_share_id link +:+ "/urls/" +:+ li_public_link_id link)
    {| lu_expiration_time := expiration_time; lu_settings := settings |})) in
  fret {| li_share_id := li_share_id link; li_public_link_id := li_public_link_id link;
          li_url := li_url link; li_role := role; li_creation_time := li_creation_time link;
          li_expiration_time := expiration_time;
          li_has_custom_password := lt_flags settings =? 3;
          li_custom_password := non_empty custom_password |}.

Definition remove_public_link (link : PublicLink) : Call unit :=
  on_world (delete_at ("shares/" +:+ li_share_id link +:+ "/urls/" +:+ li_public_link_id link)).

(** *** Invitations to us *)

Definition incoming_path (anchor : option string) : string :=
  match anchor with
  | Some a => "v2/shares/invitations?AnchorID=" +:+ a
  | None => "v2/shares/invitations"
  end.

(** The [loop] over the pages; the fuel bounds them. *)
Fixpoint incoming_ids (fuel : nat) (ids : list string) (anchor : option string) : Run (list string) :=
  match fuel with
  | O => fun _ => None
  | Datatypes.S fuel =>
      let+ page := flift (on_world (get_incoming_page (incoming_path anchor))) in
      let ids := ids ++ (il_invitation_id <$> ip_invitations page) in
      match ip_more page, non_empty (ip_anchor_id page) with
      | true, Some a => incoming_ids fuel ids (Some a)
      | _, _ => fret ids
      end
  end.

Definition get_incoming_invitation (invitation_id : string) : Call InvitationDetailsResponse :=
  on_world (get_incoming ("v2/shares/invitations/" +:+ invitation_id)).

(** What [spawn_blocking] runs in [decrypt_invitation_name]. *)
Definition open_invitation_name (keys : list Key) (detail : InvitationDetailsResponse) : option string :=
  passphrase ← head (omap (fun k => ok (decrypt_armored_message k (is_passphrase (iv_share detail)))) keys);
  share_key ← ok (key_from_armored (is_share_key (iv_share detail)) passphrase);
  name_bytes ← ok (decrypt_armored_message share_key (ik_name (iv_link detail)));
  ok (utf8_text name_bytes).

Definition decrypt_invitation_name (detail : InvitationDetailsResponse) : Call (option string) :=
  let* own := mtry (own_address_keys (in_invitee_email (iv_invitation detail))) in
  mret ('(keys, _) ← ok own; open_invitation_name keys detail).

Definition incoming_invitation_detail (invitation_id : string) : Call IncomingInvitation :=
  let* detail := get_incoming_invitation invitation_id in
  let* node_name := decrypt_invitation_name detail in
  let invitation := iv_invitation detail in
  mret {| ii_invitation_id := in_invitation_id invitation;
          ii_inviter_email := in_inviter_email invitation;
          ii_invitee_email := in_invitee_email invitation;
          ii_role := from_permissions (in_permissions invitation);
          ii_invitation_time := in_create_time invitation;
          ii_node_uid := NodeUid_new (is_volume_id (iv_share detail)) (ik_link_id (iv_link detail));
          ii_node_name := node_name;
          ii_is_folder := ik_link_type (iv_link detail) =? 1 |}.

(** An invitation that fails to load is left out. *)
Fixpoint load_invitations (ids : list string) (invitations : list IncomingInvitation)
  : Call (list IncomingInvitation) :=
  match ids with
  | [] => mret invitations
  | id :: ids =>
      let* loaded := mtry (incoming_invitation_detail id) in
      match loaded with
      | Ok invitation => load_invitations ids (invitations ++ [invitation])
      | Err _ => load_invitations ids invitations
      end
  end.

Definition list_incoming_invitations (fuel : nat) : Run (list IncomingInvitation) :=
  let+ ids := incoming_ids fuel [] None in
  flift (load_invitations ids []).

Definition accept_invitation (invitation_id : string) : Call unit :=
  let* detail := get_incoming_invitation invitation_id in
  let* (keys, signing_key) := own_address_keys (in_invitee_email (iv_invitation detail)) in
  let* signature := on_seal (Sealing.accept_invitation (CKey := CKey)
                               (in_key_packet (iv_invitation detail)) keys signing_key) in
  on_world (post_accept ("v2/shares/invitations/" +:+ invitation_id +:+ "/accept")
    {| aq_session_key_signature := signature |}).

Definition reject_invitation (invitation_id : string) : Call unit :=
  on_world (post_reject ("v2/shares/invitations/" +:+ invitation_id +:+ "/reject")).

(** *** Bookmarks *)

Definition decrypt_bookmark_name (password : string) (token : BookmarkTokenDto) : option string :=
  salt ← ok (base64_standard_decode (bt_share_password_salt token));
  key_password ← ok (derive_key_passphrase password salt);
  passphrase ← ok (decrypt_armored_with_password (bt_share_passphrase token) key_password);
  share_key ← ok (key_from_armored (bt_share_key token) passphrase);
  name_bytes ← ok (decrypt_armored_message share_key (bt_name token));
  name ← ok (utf8_text name_bytes);
  _ ← ok (validate_node_name name);
  Some name.

(** [None]: the bookmark is skipped. *)
Definition open_bookmark (address_keys : list Key) (dto : BookmarkDto) : option Bookmark :=
  enc ← bd_encrypted_url_password dto;
  bytes ← ok (decrypt_armored_with_keys enc address_keys);
  let password := from_utf8_lossy bytes in
  let (url_password, custom_password) := split_link_password password in
  Some {| bk_token := bt_token (bd_token dto);
          bk_url := "https://drive.proton.me/urls/" +:+ bt_token (bd_token dto) +:+ "#" +:+ url_password;
          bk_custom_password := custom_password;
          bk_node_name := decrypt_bookmark_name password (bd_token dto);
          bk_is_folder := bt_link_type (bd_token dto) =? 1;
          bk_creation_time := bd_create_time dto |}.

Definition list_bookmarks : Call (list Bookmark) :=
  let* bookmarks := on_world (get_bookmarks "v2/shared-bookmarks") in
  let* (_, email, _) := membership_address in
  let* (address_keys, _) := own_address_keys email in
  mret (omap (open_bookmark address_keys) bookmarks).

Definition create_bookmark (url : string) (custom_password : option string) : Call unit :=
  let* (token, url_password) := mlift (parse_public_link_url url) in
  let* (address_id, email, _) := membership_address in
  let* (_, address_key) := own_address_keys email in
  let* address_key_id := address_primary_key_id address_id in
  let concatenated := url_password +:+ default EmptyString custom_password in
  let* encrypted_url_password :=
    on_seal (key_encrypt_and_sign address_key address_key concatenated false false) in
  on_world (post_bookmark ("v2/urls/" +:+ token +:+ "/bookmark")
    {| bq_encrypted_url_password := encrypted_url_password; bq_address_id := address_id;
       bq_address_key_id := address_key_id |}).

Definition delete_bookmark (token : string) : Call unit :=
  on_world (delete_at ("v2/urls/" +:+ token +:+ "/bookmark")).
End Sharing.
