(* ===== verification/SharingFacts.v ===== *)
(** * Sharing: theorems

    Proved of [Sharing]: everyone who is not yet invited is sent one invitation, in
    order, and what it says; what an inviter seals, the invitee opens and can check; the secret a
    public link's owner reads back is the one in its URL, and a visitor with that
    URL unlocks what was shared; and the case in which the owner cannot. *)

From S2P Require Import Prelude Errors Config Keys Sealing Http Srp Transport Revision Node Names NamesFacts.
From S2P Require Import EntityCache Links LinksFacts LinkCrypto LinkCryptoFacts Account PublicLink Drive Nodes.
From S2P Require Import HttpFacts SealingFacts ContentFacts Actions Sharing.

(** ** Invitations are sent once each *)

Section Invitations.
Context {W Key FK CS : Type} `{TextOps}.

Abbreviation State := (DriveState W Key FK CS).
Abbreviation Call A := (M State A ProtonError).

Definition fresh_invitees (already : gset string) (invitees : list (string * MemberRole)) :=
  filter (fun i => to_lowercase i.1 ∉ already) invitees.

(** The invitations of a list, sent one after another. *)
Inductive invited {A} (invite : string -> MemberRole -> Call A)
  : list (string * MemberRole) -> State -> list A -> State -> Prop :=
| invited_none s : invited invite [] s [] s
| invited_one email role l s a s1 created s2 :
    invite email role s = (Ok a, s1) -> invited invite l s1 created s2 ->
    invited invite ((email, role) :: l) s (a :: created) s2.

Lemma invite_each_run {A} (invite : string -> MemberRole -> Call A) already invitees acc s r s' :
  invite_each invite already invitees acc s = (r, s') ->
  match r with
  | Ok all => exists created, all = acc ++ created /\
      invited invite (fresh_invitees already invitees) s created s'
  | Err e => exists sent email role rest created s1,
      fresh_invitees already invitees = sent ++ (email, role) :: rest /\
      invited invite sent s created s1 /\ invite email role s1 = (Err e, s')
  end.
Proof.
  unfold fresh_invitees. revert acc s. induction invitees as [|[email role] l IH]; intros acc s; simpl.
  { intros [= <- <-]. exists []. rewrite app_nil_r. split; [done|constructor]. }
  rewrite filter_cons. simpl. case_bool_decide as Hin.
  { rewrite decide_False by tauto. apply IH. }
  rewrite decide_True by done. unfold mbind_. destruct (invite email role s) as [[a|e] s1] eqn:Ei.
  - intros E. specialize (IH _ _ E). destruct r as [all|e].
    + destruct IH as (created & -> & Hrun). exists (a :: created). rewrite <- app_assoc.
      split; [done|]. by econstructor.
    + destruct IH as (sent & email' & role' & rest & created & s2 & Hf & Hrun & He).
      exists ((email, role) :: sent), email', role', rest, (a :: created), s2. rewrite Hf.
      split_and!; [done|by econstructor|done].
  - intros [= <- <-]. exists [], email, role, (filter (fun i => to_lowercase i.1 ∉ already) l), [], s.
    split_and!; [done|constructor|done].
Qed.
End Invitations.

(** ** What an invitation carries *)

(** The packet for a public key opens with its private half to the same key, a
    signature made in a context passes in that context alone, and base64 reads
    what it wrote ([content_key_travels], [context_signature_one_purpose]). *)
Class InvitationLaws (W Key Pub Sig CKey : Type) `{SealOps W Key} `{PassphraseOps}
    `{SignatureOps Key Pub Sig} `{!SessionKeyOps W Key Pub CKey} `{!ContentOps Key CKey} : Prop := {
  packet_for_public_opens (k : CKey) (invitee : Key) (w w' : W) packet :
    to_packet_for_public (Key := Key) k (public_half invitee) w = (Ok packet, w') ->
    decrypt_content_key invitee packet = Ok k;
  signed_in_context (signer : Key) data context (w w' : W) sig ring c :
    sign_detached_binary_with_context signer data context w = (Ok sig, w') ->
    public_half signer ∈ ring ->
    verify_detached_with_context (base64_standard_encode sig) data ring c
      = if String.eqb context c then VOk else Failed;
  base64_reads_back b : base64_standard_decode (base64_standard_encode b) = Ok b
}.

Section Accepted.
Context {W Key Pub Sig CKey FK CS : Type} `{KeyOps Key} `{SealOps W Key} `{PassphraseOps}
        `{SignatureOps Key Pub Sig} `{!SessionKeyOps W Key Pub CKey} `{!ContentOps Key CKey}
        `{!ContentKeyExport CKey} `{!AccountKeys W Key Pub}
        `{!InvitationLaws W Key Pub Sig CKey}.

Lemma head_omap_opens {A B} (f : A -> option B) x y l :
  x ∈ l -> f x = Some y -> (forall x' y', x' ∈ l -> f x' = Some y' -> y' = y) ->
  head (omap f l) = Some y.
Proof.
  intros Hx Hf Hall. induction l as [|a l IH]; [by apply elem_of_nil in Hx|]. simpl.
  destruct (f a) as [z|] eqn:Ez.
  - simpl. f_equal. apply (Hall a); [left|done].
  - apply IH; [|intros x' y' Hin; apply Hall; by right].
    apply elem_of_cons in Hx as [->|Hx]; [by rewrite Hf in Ez|done].
Qed.

(** C25: An invitation made by [inviter_key] for the public half of one of the
    invitee's keys: the invitee who accepts it signs the share's session key, and
    no other, in the member context; and whoever resolves the inviter's email to
    a ring with the inviter's key reads the membership as verified. *)
Theorem invitation_accepted_and_verified (k : CKey) inviter_key invitee_key (w w1 : W) packet signature
    (v : W) keys signing_key dto email (s : DriveState W Key FK CS) :
  encrypt_invitation k inviter_key (public_half invitee_key) w = (Ok (packet, signature), w1) ->
  invitee_key ∈ keys ->
  (forall key p k', key ∈ keys -> base64_standard_decode packet = Ok p ->
     decrypt_content_key key p = Ok k' -> k' = k) ->
  sd_member_share_passphrase_key_packet dto = Some packet ->
  sd_inviter_share_passphrase_key_packet_signature dto = Some signature ->
  sd_inviter_email dto = Some email -> email <> EmptyString ->
  public_half inviter_key ∈ (acct_public_keys (Key := Key) email (ds_world s)).1 ->
  (forall accepted v', Sealing.accept_invitation packet keys signing_key v = (Ok accepted, v') ->
     exists exported, export_content_key k = Ok exported /\
       forall ring c, public_half signing_key ∈ ring ->
         verify_detached_with_context accepted exported ring c
           = if String.eqb SHARING_MEMBER_CONTEXT c then VOk else Failed) /\
  (forall e v', Sealing.accept_invitation packet keys signing_key v = (Err e, v') ->
     export_content_key k = Err e \/
     exists exported, export_content_key k = Ok exported /\
       sign_detached_binary_with_context signing_key exported SHARING_MEMBER_CONTEXT v = (Err e, v')) /\
  exists m s', verified_membership dto s = (Ok m, s') /\ sm_inviter_verification m = Some VOk.
Proof.
  unfold encrypt_invitation. intros E Hin Hkeys Hp Hs Hem Hne Hpub.
  apply mbind_ok_inv in E as (kp & w2 & Ekp & E). apply mbind_ok_inv in E as (sig & w3 & Esig & E).
  injection E as <- <- _. rewrite base64_reads_back in Hkeys.
  apply packet_for_public_opens in Ekp as Hopen.
  assert (Hhead : head (omap (fun key => ok (decrypt_content_key key kp)) keys) = Some k).
  { apply (head_omap_opens _ invitee_key); [done|by rewrite Hopen|].
    intros key k' Hk. destruct (decrypt_content_key key kp) as [k2|] eqn:E2; [|done].
    intros [= <-]. by eapply Hkeys. }
  assert (Hacc : forall r v', Sealing.accept_invitation (base64_standard_encode kp) keys signing_key v = (r, v') ->
    match export_content_key k with
    | Ok exported => (let* sg := sign_detached_binary_with_context signing_key exported SHARING_MEMBER_CONTEXT in
                      mret (base64_standard_encode sg)) v = (r, v')
    | Err e => r = Err e
    end).
  { intros r v'. unfold Sealing.accept_invitation. rewrite base64_reads_back.
    unfold mbind_ at 1, mlift at 1. simpl. unfold mbind_ at 1, mlift at 1. rewrite Hhead. simpl.
    unfold mbind_ at 1, mlift at 1. destruct (export_content_key k) as [x|e]; [done|by intros [= <- _]]. }
  split_and!.
  - intros accepted v' Ha%Hacc. destruct (export_content_key k) as [x|e]; [|done].
    exists x. split; [done|]. apply mbind_ok_inv in Ha as (sg & v1 & Esg & [= <- _]).
    intros ring c. by apply signed_in_context with v v1.
  - intros e v' Ha%Hacc. destruct (export_content_key k) as [x|e']; [|left; congruence].
    right. exists x. split; [done|]. unfold mbind_ in Ha.
    destruct (sign_detached_binary_with_context signing_key x _ v) as [[sg|e'] v1]; [done|exact Ha].
  - unfold verified_membership. rewrite Hp, Hs, base64_reads_back, Hem. simpl.
    destruct email as [|a email]; [done|]. unfold mbind_, on_world. simpl.
    destruct (acct_public_keys (String a email) (ds_world s)) as [ring w4]. simpl in *.
    eexists _, _. split; [reflexivity|]. simpl. unfold ring_from_public_keys. f_equal.
    by erewrite (signed_in_context (CKey := CKey)) by done.
Qed.
End Accepted.

(** ** The secret of a public link *)

Lemma password_char_ok b :
  Str.is_char_start (password_char b) = true /\ Ascii.eqb (password_char b) "#" = false.
Proof. destruct b as [[] [] [] [] [] [] [] []]; done. Qed.

Lemma password_chars_count raw :
  Str.chars_count (map_chars password_char raw) = Z.of_nat (String.length raw) /\
  Str.contains "#" (map_chars password_char raw) = false.
Proof.
  induction raw as [|b raw [IH1 IH2]]; [done|]. simpl map_chars. simpl.
  destruct (password_char_ok b) as [-> ->]. rewrite IH1, IH2. simpl. split; [lia|done].
Qed.

(** What does not start with a continuation byte, as every [str]. *)
Definition starts_char (s : string) : Prop :=
  match s with EmptyString => True | String a _ => Str.is_char_start a = true end.

Lemma split_chars_app l r :
  starts_char r -> r <> EmptyString -> (exists raw, l = map_chars password_char raw) ->
  split_chars (String.length l) (l +:+ r) = Some (l, r).
Proof.
  intros Hr Hne (raw & ->). induction raw as [|b raw IH].
  - change (map_chars password_char EmptyString +:+ r) with r. destruct r as [|a r]; [done|].
    simpl in *. by rewrite Hr.
  - cbn [map_chars]. rewrite str_app_cons. simpl. destruct (password_char_ok b) as [-> _]. by rewrite IH.
Qed.

Lemma map_chars_length f s : String.length (map_chars f s) = String.length s.
Proof. induction s as [|a s IH]; simpl; congruence. Qed.

Lemma split_chars_none n raw : (String.length raw <= n)%nat -> split_chars n (map_chars password_char raw) = None.
Proof.
  revert n. induction raw as [|b raw IH]; intros n Hn; [done|]. simpl in *.
  destruct (password_char_ok b) as [-> _]. destruct n as [|n]; [lia|]. by rewrite IH by lia.
Qed.

(** The fragment and the custom password come apart where they were joined. *)
Lemma split_full_password raw custom :
  String.length raw = PUBLIC_LINK_PASSWORD_LEN ->
  (forall c, custom = Some c -> starts_char c) ->
  split_link_password (full_password (map_chars password_char raw) custom)
    = (map_chars password_char raw, non_empty custom).
Proof.
  intros Hl Hc. unfold split_link_password, full_password.
  destruct custom as [[|a c]|]; simpl.
  1, 3: by rewrite str_app_nil_r, split_chars_none by lia.
  rewrite <- Hl, <- (map_chars_length password_char raw), split_chars_app; [done|by apply (Hc _ eq_refl)|done|by eexists].
Qed.

(** The generator fills what it is given, valid text is kept as it is, base64
    reads what it wrote; and a message whose key packet was made with a password
    opens with it to what the session key sealed. *)
Class LinkLaws (W Key CKey : Type) `{KeyOps Key} `{PassphraseOps} `{SealOps W Key} `{PublicLinkCodec}
    `{TextOps} `{!LinkPasswordOps W CKey} `{!ContentOps Key CKey}
    (armor : string -> result string CryptoError) : Prop := {
  fill_bytes_length n (w : W) : String.length (fill_bytes n w).1 = n;
  lossy_valid s t : utf8_text s = Ok t -> from_utf8_lossy s = t;
  base64_bytes_reads_back b : exists l, base64_bytes (base64_standard_encode b) = Ok l /\ bytes_string l = b;
  wrapped_opens (k : CKey) pw (w w' : W) packet body plain message :
    wrap_with_password k pw w = (Ok packet, w') -> decrypt_block k body = Ok plain ->
    armor (packet +:+ body) = Ok message -> decrypt_armored_with_password message pw = Ok plain
}.

Section PublicLinks.
Context {W Key Pub Sig CKey FK CS : Type} `{KeyOps Key} `{PassphraseOps} `{!SealOps W Key}
        `{!SignatureOps Key Pub Sig} `{!VerifyOps Key Pub} `{!SealLaws W Key Pub Sig}
        `{!SessionKeyOps W Key Pub CKey} `{!ContentOps Key CKey}
        `{!RenameOps W Key CKey} `{!SrpPrimitives W} `{!PublicLinkCodec}
        `{!LinkPasswordOps W CKey} `{TextOps} `{!LinkLaws W Key CKey armor_message}
        `{DriveApi W} `{!NodeApi W} `{!SharingApi W}
        `{!AccountKeys W Key Pub} `{!AccountAddresses W} `{!AccountListing W}
        `{!DriveEntities W} `{!Lru FK NodeUid Key} `{!Lru CS NodeUid ShareId}.

Abbreviation State := (DriveState W Key FK CS).

Lemma generated_password (w w' : W) generated :
  generate_public_link_password w = (generated, w') ->
  exists raw, generated = map_chars password_char raw /\ String.length raw = PUBLIC_LINK_PASSWORD_LEN.
Proof.
  unfold generate_public_link_password. pose proof (fill_bytes_length PUBLIC_LINK_PASSWORD_LEN w) as Hl.
  destruct (fill_bytes _ w) as [raw w1]. intros [= <- <-]. by exists raw.
Qed.

Lemma seal_link_password_inv (k : CKey) address_key pw salt modulus (s s' : State) wrapped sealed v :
  seal_link_password k address_key pw salt modulus s = (Ok (wrapped, sealed, v), s') ->
  exists salted packet w w', derive_key_passphrase pw salt = Ok salted /\
    wrap_with_password k salted w = (Ok packet, w') /\ wrapped = base64_standard_encode packet /\
    decrypt_armored_message address_key sealed = Ok pw.
Proof.
  unfold seal_link_password. intros E.
  apply mbind_ok_inv in E as (salted & s1 & Es & E). apply mbind_ok_inv in E as (packet & s2 & Ew & E).
  apply mbind_ok_inv in E as (msg & s3 & Em & E). apply mbind_ok_inv in E as (v' & s4 & _ & [= <- <- _ _]).
  unfold mlift in Es. destruct (derive_key_passphrase pw salt) as [x|e]; [|done]. injection Es as -> <-.
  apply on_seal_ok in Ew, Em. apply encrypt_opens in Em. eauto 10.
Qed.

Lemma seal_settings_inv permissions generated custom (k : CKey) address_key (s s' : State) settings :
  seal_public_link_settings permissions generated custom k address_key s = (Ok settings, s') ->
  exists salt packet salted w w',
    lt_share_password_salt settings = base64_standard_encode salt /\
    derive_key_passphrase (full_password generated custom) salt = Ok salted /\
    wrap_with_password k salted w = (Ok packet, w') /\
    lt_share_passphrase_key_packet settings = base64_standard_encode packet /\
    decrypt_armored_message address_key (lt_password settings) = Ok (full_password generated custom) /\
    lt_flags settings = match non_empty custom with Some _ => 3 | None => 2 end.
Proof.
  unfold seal_public_link_settings. intros E.
  apply mbind_ok_inv in E as (modulus & s1 & _ & E). apply mbind_ok_inv in E as (salt & s2 & _ & E).
  apply mbind_ok_inv in E as ([[wrapped sealed] v] & s3 & El & [= <- _]). simpl.
  apply seal_link_password_inv in El as (salted & packet & w & w' & Hd & Hw & -> & Hs).
  exists salt, packet, salted, w, w'. split_and!; done.
Qed.

Lemma base64_encode_inj a b : base64_standard_encode a = base64_standard_encode b -> a = b.
Proof.
  intros E. destruct (base64_bytes_reads_back (W := W) (CKey := CKey) (armor := armor_message) a) as (l & Hl & <-).
  destruct (base64_bytes_reads_back (W := W) (CKey := CKey) (armor := armor_message) b) as (l' & Hl' & <-).
  congruence.
Qed.

Lemma decrypt_with_keys_opens armored (keys : list Key) key p :
  key ∈ keys -> decrypt_armored_message key armored = Ok p ->
  (forall k q, k ∈ keys -> decrypt_armored_message k armored = Ok q -> q = p) ->
  decrypt_armored_with_keys armored keys = Ok p.
Proof.
  unfold decrypt_armored_with_keys. generalize (CDecrypt "no candidate keys").
  induction keys as [|k keys IH]; intros e Hin Hk Hall; [by apply elem_of_nil in Hin|]. simpl.
  destruct (decrypt_armored_message k armored) as [q|e'] eqn:E.
  - f_equal. apply (Hall k); [left|done].
  - apply IH; [|done|intros k' q Hk'; apply Hall; by right].
    apply elem_of_cons in Hin as [->|Hin]; [congruence|done].
Qed.

(** What the owner reads back of a link sealed to [address_key], with our address
    keys at hand. *)
Lemma recover_sealed public_url generated custom dto (s s1 s2 : State) id email ak keys signing address_key (w w' : W) :
  generate_public_link_password w = (generated, w') ->
  (forall c, custom = Some c -> starts_char c) ->
  utf8_text (full_password generated custom) = Ok (full_password generated custom) ->
  ul_public_url dto = public_url -> public_url <> EmptyString ->
  (exists enc, ul_password dto = Some enc /\
    decrypt_armored_message address_key enc = Ok (full_password generated custom) /\
    forall k p, k ∈ keys -> decrypt_armored_message k enc = Ok p -> p = full_password generated custom) ->
  membership_address s = (Ok (id, email, ak), s1) ->
  own_address_keys email s1 = (Ok (keys, signing), s2) -> address_key ∈ keys ->
  recover_public_link_secret dto s
    = (Ok (Some (public_url +:+ "#" +:+ generated), non_empty custom), s2).
Proof.
  intros Hg Hc Hv Hurl Hne (enc & Henc & Hopen & Hother) Hm Ho Hin.
  apply generated_password in Hg as (raw & -> & Hl). unfold recover_public_link_secret, stored_link_password.
  rewrite Henc. erewrite (mbind_ok (mtry _)); [|unfold mtry; erewrite mbind_ok by exact Hm; cbn beta iota;
    erewrite mbind_ok by exact Ho; cbn beta iota; unfold mbind_ at 1, mlift at 1;
    rewrite (decrypt_with_keys_opens enc keys address_key _ Hin Hopen Hother); reflexivity].
  cbn beta iota. rewrite (lossy_valid (CKey := CKey) (armor := armor_message) _ _ Hv), split_full_password by done.
  rewrite Hurl. by destruct public_url.
Qed.

(** C23: The secret of a public link comes back: what [seal_public_link_settings]
    stored for a generated password and a custom one, read by an owner whose My
    Files address has the key it was sealed to, is the URL with the generated
    password as its fragment and the custom password apart; and that fragment is
    the one an update keeps. *)
Theorem public_link_secret_recovered permissions generated custom (k : CKey) address_key settings
    (t t' : State) (w w' : W) dto (s s1 s2 : State) id email ak keys signing :
  seal_public_link_settings permissions generated custom k address_key t = (Ok settings, t') ->
  generate_public_link_password w = (generated, w') ->
  (forall c, custom = Some c -> starts_char c) ->
  utf8_text (full_password generated custom) = Ok (full_password generated custom) ->
  ul_password dto = Some (lt_password settings) -> ul_public_url dto <> EmptyString ->
  Str.contains "#" (ul_public_url dto) = false ->
  membership_address s = (Ok (id, email, ak), s1) ->
  own_address_keys email s1 = (Ok (keys, signing), s2) -> address_key ∈ keys ->
  (forall key p, key ∈ keys -> decrypt_armored_message key (lt_password settings) = Ok p ->
     p = full_password generated custom) ->
  let url := ul_public_url dto +:+ "#" +:+ generated in
  recover_public_link_secret dto s = (Ok (Some url, non_empty custom), s2) /\
  generated_fragment (Some url) = Some generated.
Proof.
  intros E Hg Hc Hv Hp Hne Hh Hm Ho Hin Hall.
  apply seal_settings_inv in E as (_ & _ & _ & _ & _ & _ & _ & _ & _ & Hs & _). split.
  - eapply recover_sealed; eauto 10.
  - apply generated_password in Hg as (raw & -> & Hl). unfold generated_fragment. simpl.
    change ("#" +:+ ?x) with (String "#" x).
    rewrite (split_once_app "#" (ul_public_url dto) (map_chars password_char raw) Hh). simpl.
    destruct (password_chars_count raw) as [-> _]. by rewrite Hl.
Qed.

(** C24: A visitor with the URL and the custom password unlocks what was shared: the
    URL parses to its token and the generated password; the link is not legacy
    and asks for a custom password exactly when it has one; and the whole
    password opens the share's passphrase, served as the sealed key packet before
    its body, and with it the share key. *)
Theorem public_link_opens_for_visitor permissions generated custom (k : CKey) address_key settings
    (t t' : State) (w w' : W) base token info response packet body passphrase share_key config :
  seal_public_link_settings permissions generated custom k address_key t = (Ok settings, t') ->
  generate_public_link_password w = (generated, w') ->
  Str.contains "#" base = false -> Str.contains "#" token = false ->
  token <> EmptyString -> Str.contains "/" token = false ->
  pi_flags info = lt_flags settings ->
  ps_share_password_salt (pa_share response) = lt_share_password_salt settings ->
  lt_share_passphrase_key_packet settings = base64_standard_encode packet ->
  decrypt_block k body = Ok passphrase ->
  armor_message (packet +:+ body) = Ok (ps_share_passphrase (pa_share response)) ->
  key_from_armored (ps_share_key (pa_share response)) passphrase = Ok share_key ->
  parse_public_link_url (base +:+ "/urls/" +:+ token +:+ "#" +:+ generated) = Ok (token, generated) /\
  is_legacy info = false /\
  (is_custom_password_protected info = true <-> is_Some (non_empty custom)) /\
  unlock_share_key {| cr_config := config; cr_token := token;
                      cr_password := full_password generated custom |} response = Ok share_key.
Proof.
  intros E Hg Hb Ht Hne Hs Hf Hsalt Hpk Hbody Harm Hkey.
  apply seal_settings_inv in E as (salt & packet' & salted & w1 & w2 & Hs1 & Hd & Hw & Hp' & _ & Hfl).
  rewrite Hpk in Hp'. apply base64_encode_inj in Hp' as <-.
  apply generated_password in Hg as (raw & -> & Hl). split_and!.
  - apply parse_public_link_url_spec; [done..|]. by destruct raw.
  - unfold is_legacy. rewrite Hf, Hfl. by destruct (non_empty custom).
  - unfold is_custom_password_protected. rewrite Hf, Hfl. destruct (non_empty custom); simpl; split; intros Hx;
      [by eexists|done|done|by destruct Hx].
  - unfold unlock_share_key, decode_base64_bytes. rewrite Hsalt, Hs1.
    destruct (base64_bytes_reads_back (W := W) (CKey := CKey) (armor := armor_message) salt) as (bytes & -> & Hbs). simpl.
    rewrite Hbs, Hd. simpl. rewrite (wrapped_opens _ _ _ _ _ _ _ _ Hw Hbody Harm). simpl. by rewrite Hkey.
Qed.

(** ** A link its owner cannot update *)

Lemma no_key_opens armored (keys : list Key) :
  (forall key, key ∈ keys -> is_ok (decrypt_armored_message key armored) = false) ->
  exists e, decrypt_armored_with_keys armored keys = Err e.
Proof.
  unfold decrypt_armored_with_keys. generalize (CDecrypt "no candidate keys").
  induction keys as [|k keys IH]; intros e Hall; simpl; [by eexists|].
  assert (Hk := Hall k ltac:(left)). destruct (decrypt_armored_message k armored); [done|].
  apply IH. intros key Hin. apply Hall. by right.
Qed.

(** The stored password is opened with the My Files address's keys alone, while
    [create_public_link] seals it to the address the node is shared through:
    when none of the former opens it, updating the link is refused as if it were
    a legacy link, whatever its fragment is. *)
Theorem link_sealed_elsewhere_not_updated (fuel : nat) uid role custom expiration (s s1 s2 s3 s4 : State)
    share_id dto rest enc id email ak keys signing :
  role = Viewer \/ role = Editor ->
  node_share_id uid s = (Ok (Some share_id), s1) ->
  on_world (get_share_urls ("shares/" +:+ share_id +:+ "/urls")) s1 = (Ok (dto :: rest), s2) ->
  ul_password dto = Some enc ->
  membership_address s2 = (Ok (id, email, ak), s3) ->
  own_address_keys email s3 = (Ok (keys, signing), s4) ->
  (forall key, key ∈ keys -> is_ok (decrypt_armored_message key enc) = false) ->
  update_public_link fuel uid role custom expiration s
    = Some (Err (invalid_operation
        "a legacy public link cannot be updated; remove it and create a new one"), s4).
Proof.
  intros Hrole Hs Hu Hp Hm Ho Hall.
  assert (Hrec : recover_public_link_secret dto s2 = (Ok (None, None), s4)).
  { unfold recover_public_link_secret, stored_link_password. rewrite Hp.
    destruct (no_key_opens enc keys Hall) as [e He].
    erewrite (mbind_ok (mtry _)); [|unfold mtry; erewrite mbind_ok by exact Hm; cbn beta iota;
      erewrite mbind_ok by exact Ho; cbn beta iota; unfold mbind_ at 1, mlift at 1; rewrite He; reflexivity].
    done. }
  assert (Hget : exists link, get_public_link uid s = (Ok (Some link), s4) /\ li_url link = None).
  { unfold get_public_link. erewrite mbind_ok by exact Hs. cbn beta iota.
    erewrite mbind_ok by exact Hu. cbn beta iota. erewrite mbind_ok by exact Hrec. cbn beta iota.
    eexists. by split. }
  destruct Hget as (link & Hg & Hurl). unfold update_public_link.
  assert (exists p, public_link_permissions role = Ok p) as [p ->] by (destruct Hrole as [-> | ->]; by eexists).
  unfold fbind at 1, flift at 1, mlift at 1. unfold fbind at 1, flift at 1. rewrite Hg.
  unfold fbind at 1, flift at 1, mlift at 1. simpl. unfold fbind at 1, flift at 1, mlift at 1. by rewrite Hurl.
Qed.
End PublicLinks.

(** ** Inviting *)

Section Share.
Context {W Key Pub Sig CKey FK CS : Type} `{KeyOps Key} `{PassphraseOps} `{!SealOps W Key}
        `{!SessionKeyOps W Key Pub CKey} `{!ContentOps Key CKey} `{!ContentKeyExport CKey}
        `{!RenameOps W Key CKey} `{TextOps}
        `{DriveApi W} `{!NodeApi W} `{!ActionApi W} `{!SharingApi W}
        `{!AccountKeys W Key Pub} `{!AccountAddresses W}
        `{!DriveEntities W} `{!Lru FK NodeUid Key} `{!Lru CS NodeUid ShareId}.

Abbreviation State := (DriveState W Key FK CS).

Definition at_world (s : State) (w : W) : State := {| ds_cache := ds_cache s; ds_world := w |}.

Section Sent.
Context (share_id : ShareId) (k : CKey) (inviter : string) (key : Key) (message : option string).

(** One invitation, asked for: the share's session key sealed to the first of the
    invitee's public keys, the packet signed by the inviter for that purpose, and both
    posted to the share's invitations, for this address and with the permissions of
    this role. *)
Definition invitation_posted (email : string) (role : MemberRole) (s : State)
    (r : Res ShareInvitation) (s' : State) : Prop :=
  exists permissions pub pubs packet signature answer w1 w2 w3 w4,
    (role, permissions) ∈ [(Viewer, 4); (Editor, 6); (Admin, 22)] /\
    acct_public_keys (Key := Key) email (ds_world s) = (pub :: pubs, w1) /\
    to_packet_for_public k pub w1 = (Ok packet, w2) /\
    sign_detached_binary_with_context key packet "drive.share-member.inviter" w2 = (Ok signature, w3) /\
    post_invitation ("v2/shares/" +:+ share_id +:+ "/invitations")
      {| ir_invitation := {| iq_inviter_email := inviter; iq_invitee_email := email;
                             iq_permissions := permissions;
                             iq_key_packet := base64_standard_encode packet;
                             iq_key_packet_signature := base64_standard_encode signature;
                             iq_external_invitation_id := None |};
         ir_email_details := {| ie_message := message; ie_item_name := None |} |} w3 = (answer, w4) /\
    r = result_map (invitation_from_dto share_id) answer /\ s' = at_world s w4.

(** It failed before anything was posted: the role cannot be granted, the invitee has
    no public key, or the session key cannot be sealed. *)
Definition invitation_unsent (email : string) (role : MemberRole) (s : State)
    (e : ProtonError) (s' : State) : Prop :=
  (role = Inherited /\ e = inherited_invitee /\ s' = s) \/
  (exists w, acct_public_keys (Key := Key) (Pub := Pub) email (ds_world s) = ([], w) /\
     e = invalid_operation ("no public key for invitee " +:+ email) /\ s' = at_world s w) \/
  (exists pub pubs w1 w2 cause, acct_public_keys (Key := Key) email (ds_world s) = (pub :: pubs, w1) /\
     encrypt_invitation k key pub w1 = (Err cause, w2) /\ e = Crypto cause /\ s' = at_world s w2).

Lemma invite_one_asks email role (s s' : State) r :
  invite_one (Pub := Pub) share_id k inviter key message email role s = (r, s') ->
  invitation_posted email role s r s' \/ exists e, r = Err e /\ invitation_unsent email role s e s'.
Proof.
  unfold invite_one. unfold mbind_ at 1, mlift at 1. destruct (to_permissions role) as [permissions|] eqn:Hr.
  2: { intros [= <- <-]. right. eexists. split; [done|]. left. by destruct role. }
  cbn [ok_or]. unfold mbind_ at 1, account_public_keys, draw, on_world.
  destruct (acct_public_keys _ (ds_world s)) as [[|pub pubs] w1] eqn:Hk.
  { unfold mbind_, mlift. intros [= <- <-]. right. eexists. split; [done|]. right. left. by exists w1. }
  cbn [head ok_or]. unfold mbind_ at 1, mlift at 1. unfold mbind_ at 1, on_seal, on_world. cbn [ds_world ds_cache].
  destruct (encrypt_invitation k key pub w1) as [[[packet64 signature64]|cause] w2] eqn:He.
  2: { intros [= <- <-]. right. eexists. split; [done|]. right. right. by exists pub, pubs, w1, w2, cause. }
  unfold encrypt_invitation, mbind_ in He.
  destruct (to_packet_for_public k pub w1) as [[packet|] wp] eqn:Hp; [|done].
  destruct (sign_detached_binary_with_context _ _ _ wp) as [[signature|] ws] eqn:Hs; [|done]. injection He as <- <- <-.
  cbn [map_err]. unfold mbind_. cbn [ds_world ds_cache].
  destruct (post_invitation _ _ ws) as [answer w4] eqn:Ha. intros E. left.
  exists permissions, pub, pubs, packet, signature, answer, w1, wp, ws, w4. split_and!; try done.
  - destruct role; try done; injection Hr as <-; set_solver.
  - by destruct answer; injection E as <- _.
  - by destruct answer; injection E as _ <-.
Qed.

(** The invitations of a list, sent one after another. *)
Fixpoint invitations_sent (l : list (string * MemberRole)) (s : State) (created : list ShareInvitation)
    (s' : State) : Prop :=
  match l, created with
  | [], [] => s' = s
  | (email, role) :: l, a :: created => exists s1,
      invitation_posted email role s (Ok a) s1 /\ invitations_sent l s1 created s'
  | _, _ => False
  end.

Lemma invited_sent l s created s' :
  invited (invite_one (Pub := Pub) share_id k inviter key message) l s created s' ->
  invitations_sent l s created s'.
Proof.
  induction 1 as [|email role l s a s1 created s2 Hi _ IH]; simpl; [done|].
  apply invite_one_asks in Hi as [Hi|(e & [=] & _)]. by exists s1.
Qed.

Lemma invitations_sent_all l s created s' :
  invitations_sent l s created s' -> length created = length l /\ Forall (fun i => i.2 <> Inherited) l.
Proof.
  revert s created. induction l as [|[email role] l IH]; intros s [|a created]; simpl; try done.
  intros (s1 & Hi & [Hl Hf]%IH). split; [congruence|]. constructor; [|done].
  destruct Hi as (? & ? & ? & ? & ? & ? & ? & ? & ? & ? & Hr & _). simpl. intros ->. set_solver.
Qed.
End Sent.

(** C26: Sharing a node: those who are neither invited nor members, compared without
    case, are invited one after another in the order given, until one fails, and
    nobody else is.  Each invitation is one request to the share's invitations: it
    names the inviter and the invitee as given, grants the permissions of the role
    asked for, and carries the share's session key sealed to the invitee's first
    public key with the inviter's signature over that packet; what is returned is
    exactly what the server created.  The call that fails ends it: its request
    was refused, or nothing was posted (a role that cannot be granted, an invitee
    without keys, a sealing error).  Invitees are not compared with one another: an
    address given twice is invited twice. *)
Theorem share_node_invites_each fuel uid invitees message (s : State) share_id (k : CKey) inviter key s1
    pending s2 members s3 r s' :
  ensure_node_share (Pub := Pub) fuel uid s = Some (Ok (share_id, k, inviter, key), s1) ->
  list_share_invitations_inner share_id s1 = (Ok pending, s2) ->
  list_share_members_inner share_id s2 = (Ok members, s3) ->
  share_node (Pub := Pub) fuel uid invitees message s = Some (r, s') ->
  let already : gset string := list_to_set
    ((to_lowercase ∘ nv_invitee_email <$> pending) ++ (to_lowercase ∘ me_email <$> members)) in
  let fresh := filter (fun i => to_lowercase i.1 ∉ already) invitees in
  match r with
  | Ok created =>
      invitations_sent share_id k inviter key message fresh s3 created s' /\
      length created = length fresh /\ Forall (fun i => i.2 <> Inherited) fresh
  | Err e => exists sent email role rest created s4,
      fresh = sent ++ (email, role) :: rest /\
      invitations_sent share_id k inviter key message sent s3 created s4 /\
      (invitation_posted share_id k inviter key message email role s4 (Err e) s' \/
       invitation_unsent k key email role s4 e s')
  end.
Proof.
  intros He Hp Hm. unfold share_node. unfold fbind at 1. rewrite He.
  unfold fbind at 1, flift at 1. rewrite Hp. unfold fbind at 1, flift at 1. rewrite Hm.
  unfold flift. intros [= E]. apply invite_each_run in E. destruct r as [created|e].
  - destruct E as (created' & -> & Hrun%invited_sent). split; [done|]. by eapply invitations_sent_all.
  - destruct E as (sent & email & role & rest & created & s4 & Hf & Hrun%invited_sent & Hi).
    exists sent, email, role, rest, created, s4. split_and!; [done..|].
    apply invite_one_asks in Hi as [?|(e' & [= <-] & ?)]; auto.
Qed.
End Share.

(** ** A small share

    The root [r] of My Files, shared by [bob] with one pending invitation and one
    member.  A message for [k] is [sealed_message]'s; packets and base64 are
    framed strings. *)

Module ToyShare.
Import ContentFacts.ToyPgp.
#[local] Existing Instances sealed_keys sealed_verify.

#[local] Instance share_base64 : PassphraseOps := {
  bcrypt_hash password _ salt := Ok ("$2y$10$0123456789abcdef012345" +:+ salt +:+ password);
  base64_standard_decode s := match unframe s with Some (b, _) => Ok b | None => Err "base64" end
}.

Fixpoint letters (n : nat) : string :=
  match n with O => EmptyString | S n => String "b" (letters n) end.

(** A signature is its maker, its context and its data. *)
#[local] Instance share_seal : SealOps nat string := {
  fill_bytes n w := (letters n, S w);
  base64_standard_encode := frame;
  generate_locked_key := @generate_locked_key _ _ sealed_seal;
  key_encrypt := @key_encrypt _ _ sealed_seal;
  key_encrypt_and_sign := @key_encrypt_and_sign _ _ sealed_seal;
  key_sign_detached k data := mret (frame ("pub-" +:+ k) +:+ frame "" +:+ frame data);
  sign_detached_binary_with_context k data context :=
    mret (frame ("pub-" +:+ k) +:+ frame context +:+ frame data)
}.

Definition share_sig : Type := string * string * string.

Definition read_sig (b : string) : option share_sig :=
  '(signer, b) ← unframe b; '(context, b) ← unframe b; '(data, _) ← unframe b;
  Some (signer, context, data).

(** The armor of a signature without a context. *)
#[local] Instance share_signatures : SignatureOps string string share_sig := {
  public_half k := "pub-" +:+ k;
  parse_signature s := '(signer, context, data) ← read_sig s;
                       if Str.is_empty context then Some (signer, context, data) else None;
  signature_from_bytes := read_sig;
  signature_notations s := [(SIGNATURE_CONTEXT_NOTATION, s.1.2)];
  signature_verifies s key data := String.eqb s.1.1 key && String.eqb s.2 data
}.

Lemma read_sig_frames a b c : read_sig (frame a +:+ frame b +:+ frame c) = Some (a, b, c).
Proof.
  unfold read_sig. rewrite unframe_frame. simpl. rewrite unframe_frame. simpl.
  by rewrite <- (str_app_nil_r (frame c)), unframe_frame.
Qed.

#[local] Instance share_seal_laws : SealLaws nat string string share_sig.
Proof.
  destruct sealed_laws as [H1 H2 _]. split; [exact H1|exact H2|].
  intros k d w w' sig E. assert (sig = frame ("pub-" +:+ k) +:+ frame "" +:+ frame d) as ->
    by (injection E as <- _; reflexivity).
  exists ("pub-" +:+ k, EmptyString, d). split.
  - unfold parse_signature, share_signatures. by rewrite (read_sig_frames _ EmptyString).
  - simpl. by rewrite !String.eqb_refl.
Qed.

#[local] Instance share_content : ContentOps string string := {
  decrypt_content_key k p := match unframe p with
                             | Some (pub, key) => if String.eqb pub ("pub-" +:+ k) then Ok key
                                                  else Err (CDecrypt "another recipient")
                             | None => Err (CParse "packet")
                             end;
  decrypt_thumbnail _ _ := Err (CParse "unused");
  decrypt_block k c := match unframe c with
                       | Some (k', p) => if String.eqb k k' then Ok p else Err (CDecrypt "block")
                       | None => Err (CParse "block")
                       end
}.

#[local] Instance share_export : ContentKeyExport string := { export_content_key := Ok }.

#[local] Instance share_session : SessionKeyOps nat string string string := {
  session_key_generate n := ("sk", n);
  to_packet k key := mret (frame ("pub-" +:+ key) +:+ k);
  to_packet_for_public k pub := mret (frame pub +:+ k);
  seal_block k p := mret (frame k +:+ p);
  armor_message := Ok
}.

#[local] Instance share_invitation_laws : InvitationLaws nat string string share_sig string.
Proof.
  split.
  - intros k invitee w w' packet E. assert (packet = frame (public_half invitee) +:+ k) as ->
      by (injection E as <- _; reflexivity).
    unfold decrypt_content_key, share_content. rewrite unframe_frame. by rewrite String.eqb_refl.
  - intros signer data context w w' sig ring c E Hin. unfold verify_detached_with_context.
    destruct ring as [|k ring]; [by apply elem_of_nil in Hin|].
    assert (Hsig : sig = frame ("pub-" +:+ signer) +:+ frame context +:+ frame data)
      by (injection E as <- _; reflexivity).
    clear E. change (base64_standard_encode sig) with (frame sig).
    assert (Hp : parse_signature (frame sig) = None).
    { unfold parse_signature, share_signatures, read_sig.
      by rewrite <- (str_app_nil_r (frame sig)), unframe_frame. }
    rewrite Hp. replace (trim_start (frame sig)) with (frame sig) by by destruct sig.
    rewrite trim_end_framed.
    assert (base64_standard_decode (frame sig) = Ok sig) as ->.
    { unfold base64_standard_decode, share_base64. by rewrite <- (str_app_nil_r (frame sig)), unframe_frame. }
    change (ok (Ok sig) ≫= (fun bytes => signature_from_bytes bytes)) with (read_sig sig). rewrite Hsig, read_sig_frames.
    unfold in_context, signature_notations, share_signatures, existsb. cbn [fst snd].
    rewrite (String.eqb_refl SIGNATURE_CONTEXT_NOTATION), orb_false_r, andb_true_l.
    destruct (String.eqb context c); simpl; [|done]. apply verifies_any_ok.
    exists (public_half signer). split; [done|].
    unfold signature_verifies, public_half. cbn [fst snd]. by rewrite !String.eqb_refl.
  - intros b. simpl. by rewrite <- (str_app_nil_r (frame b)), unframe_frame.
Qed.

#[local] Instance share_account : AccountKeys nat string string := {
  acct_address_private_keys _ := mret ["old"; "bob"];
  acct_public_keys email w := (["pub-" +:+ email], w)
}.

Definition ann_packet : string := frame (frame "pub-ann" +:+ "sk").
Definition ann_signature : string :=
  frame (frame "pub-bob" +:+ frame SHARING_INVITER_CONTEXT +:+ frame (frame "pub-ann" +:+ "sk")).

Lemma invitation_accepted_and_verified_witness :
  encrypt_invitation "sk" "bob" "pub-ann" 0%nat = (Ok (ann_packet, ann_signature), 0%nat) /\
  exists accepted, Sealing.accept_invitation (CKey := string) ann_packet ["spare"; "ann"] "ann" 0%nat = (Ok accepted, 0%nat) /\
    verify_detached_with_context accepted "sk" ["pub-ann"] SHARING_MEMBER_CONTEXT = VOk /\
    verify_detached_with_context accepted "sk" ["pub-ann"] SHARING_INVITER_CONTEXT = Failed.
Proof.
  split; [vm_compute; reflexivity|]. eexists. split; [vm_compute; reflexivity|].
  destruct (invitation_accepted_and_verified (FK := unit) (CS := unit) "sk" "bob" "ann" 0%nat 0%nat
    ann_packet ann_signature 0%nat ["spare"; "ann"] "ann"
    {| sd_share_id := "s"; sd_membership_id := "m"; sd_permissions := 4; sd_invite_time := None;
       sd_inviter_email := Some "bob";
       sd_member_share_passphrase_key_packet := Some ann_packet;
       sd_inviter_share_passphrase_key_packet_signature := Some ann_signature |}
    "bob" {| ds_cache := DriveCache_default tt tt; ds_world := 0%nat |}) as (Hacc & _ & _).
  - vm_compute. reflexivity.
  - right. left.
  - intros key p k' Hin Hp. vm_compute in Hp. injection Hp as <-. apply elem_of_cons in Hin as [->|Hin]; [done|].
    apply list_elem_of_singleton in Hin as ->. by intros [= <-].
  - reflexivity.
  - reflexivity.
  - reflexivity.
  - done.
  - left.
  - destruct (Hacc _ 0%nat ltac:(vm_compute; reflexivity)) as (x & [= <-] & Hv). split; apply (Hv ["pub-ann"]); left.
Defined.

(** *** The server *)

Definition unused {A} : M nat A ProtonError := mfail (invalid_operation "unused").

Definition bob_address : Address :=
  {| ad_id := "me"; ad_email := "Bob@proton"; ad_order := 1; ad_status := 1;
     ad_primary_key_index := 1; ad_primary_key_id := "k2" |}.

#[local] Instance share_addresses : AccountAddresses nat := {
  acct_default_address := mret bob_address;
  acct_address _ := mret bob_address
}.
#[local] Instance share_listing : AccountListing nat := { acct_addresses := mret [bob_address] }.

Definition root_details : LinkDetailsDto :=
  {| ld_link := {| ln_id := "r"; ln_link_type := 1; ln_parent_id := None; ln_state := 1;
       ln_creation_time := 0; ln_modification_time := 0; ln_trash_time := None;
       ln_trashed_legacy := None; ln_name := "share::root"; ln_name_hash := None; ln_key := "key-r";
       ln_passphrase := "share::pass"; ln_passphrase_signature := None; ln_signature_email := None;
       ln_name_signature_email := None; ln_third_party := false; ln_sdk := true |};
     ld_folder := None; ld_file := None; ld_photo := None; ld_album := None;
     ld_sharing := Some {| ls_share_id := "s"; ls_share_url_id := None |}; ld_membership := None |}.

Definition root_share : ShareDto :=
  {| sh_id := "s"; sh_key := "share"; sh_passphrase := "sealed"; sh_passphrase_signature := None;
     sh_address_id := "me" |}.

#[local] Instance share_server : DriveApi nat := {
  get_share_bootstrap _ := mfail (invalid_operation "unused");
  get_volumes _ := mret {| vl_volumes := [] |};
  post_volume _ _ := mret tt;
  get_share _ := mret {| sr_share := root_share; sr_volume_id := "v"; sr_root_link_id := "r" |};
  get_devices _ := mret {| de_devices := [] |};
  get_shared_with_me _ := mret {| sw_links := []; sw_anchor_id := None; sw_more := false |};
  get_context_share _ := mret {| cs_context_share_id := "s" |};
  post_links _ _ := mret {| lr_links := [root_details] |}
}.
#[local] Instance share_nodes : NodeApi nat := {
  get_folder_children _ := unused;
  get_trash _ := mret {| tr_trash_by_share := [] |};
  get_folder_size_response _ := mret {| fr_descendents_size := 0; fr_descendents_count := 0 |};
  post_recently_accessed _ _ := mret tt;
  post_folder _ _ := mfail (invalid_operation "unused");
  put_rename _ _ := mfail (invalid_operation "unused");
  now_epoch_seconds w := (100, w)
}.
#[local] Instance share_entities : DriveEntities nat := {
  entity_try_get_node _ := mret None;
  entity_set_node _ _ _ _ := mret tt
}.
#[local] Instance share_lru {K V} : Lru unit K V := {
  lru_cache_get _ l := (None, l);
  lru_cache_put _ _ l := l
}.
#[local] Instance share_actions : ActionApi nat := {
  get_shared_by_me _ := mfail (invalid_operation "unused");
  post_device _ _ := mfail (invalid_operation "unused");
  put_device_name _ _ := mret tt;
  delete_at _ := mret tt
}.
#[local] Instance share_messages : RenameOps nat string string := {
  recover_message_session_key _ _ := Ok "sk";
  encrypt_and_sign_text_to _ k signer d := key_encrypt_and_sign k signer d true false
}.

Definition pending_dto (email : string) : ShareInvitationDto :=
  {| id_invitation_id := "i"; id_inviter_email := "Bob@proton"; id_invitee_email := email;
     id_permissions := Some 4; id_create_time := 0 |}.

(** The stored link password is sealed to [bob], or to another address. *)
Definition toy_urls (sealed_to : string) : SharingApi nat := {|
  post_share _ _ := unused;
  get_members _ := mret [{| md_member_id := "m"; md_inviter_email := "Bob@proton"; md_email := "Dave";
                            md_permissions := Some 6; md_create_time := 0 |}];
  get_invitations _ := mret [pending_dto "carol"];
  post_invitation _ q := fun w => (Ok (pending_dto (iq_invitee_email (ir_invitation q))), S w);
  put_permissions _ _ := mret tt;
  get_external_invitations _ := mret [];
  post_external_invitation _ _ := unused;
  get_incoming_page _ := unused;
  get_incoming _ := unused;
  post_accept _ _ := mret tt;
  post_reject _ := mret tt;
  post_share_url _ _ := unused;
  put_share_url _ _ := mret tt;
  get_share_urls _ := mret [{| ul_share_url_id := "u"; ul_share_id := None;
    ul_public_url := "https://drive.proton.me/urls/T0K3N"; ul_password := Some (sealed_to +:+ "::kkkkkkkkkkkksecret");
    ul_create_time := 0; ul_expiration_time := None; ul_permissions := Some 4; ul_flags := 3;
    ul_num_accesses := 0 |}];
  get_bookmarks _ := mret [];
  post_bookmark _ _ := mret tt;
  get_root_modulus _ := mret {| mo_modulus := "N"; mo_modulus_id := "n" |}
|}.

#[local] Instance bob_urls : SharingApi nat := toy_urls "bob".

(** ASCII's lower case. *)
Definition lower_char (a : ascii) : ascii :=
  let n := N_of_ascii a in if ((65 <=? n) && (n <=? 90))%N then ascii_of_N (n + 32) else a.

#[local] Instance share_text : TextOps := {
  to_lowercase := map_chars lower_char;
  from_utf8_lossy s := s
}.

Abbreviation ShareState := (DriveState nat string unit unit).

Definition share_state : ShareState :=
  {| ds_cache := {| dc_main_volume_id := Some "v";
                    dc_my_files_share := Some {| sk_share_id := "s"; sk_address_id := "me"; sk_key := "share" |};
                    dc_my_files_root := Some (NodeUid_new "v" "r"); dc_photos_share := None;
                    dc_photos_root := None; dc_photos_volume_exists := Some false;
                    dc_folder_keys := tt; dc_shared_with_me_shares := None;
                    dc_context_share_ids := tt |};
     ds_world := 0%nat |}.

Definition sent_state : ShareState :=
  {| ds_cache := ds_cache share_state; ds_world := 2%nat |}.

(** Of four, [Carol] is invited already and [dave] is a member. *)
Definition guests : list (string * MemberRole) :=
  [("ann", Viewer); ("Carol", Editor); ("eve", Admin); ("dave", Viewer)].

Lemma share_node_invites_each_witness :
  exists created, share_node (Pub := string) (CKey := string) 3 (NodeUid_new "v" "r") guests None share_state
    = Some (Ok created, sent_state) /\ length created = 2%nat.
Proof.
  eexists. split; [vm_compute; reflexivity|].
  match goal with |- length ?created = _ =>
  pose proof (share_node_invites_each (Pub := string) 3 (NodeUid_new "v" "r") guests None share_state
    "s" "sk" "Bob@proton" "bob" share_state (invitation_from_dto "s" <$> [pending_dto "carol"]) share_state
    (member_from_dto "s" <$> [{| md_member_id := "m"; md_inviter_email := "Bob@proton"; md_email := "Dave";
       md_permissions := Some 6; md_create_time := 0 |}]) share_state (Ok created) sent_state) as Hthm end.
  destruct Hthm as (_ & Hl & _); [vm_compute; reflexivity..|]. rewrite Hl. vm_compute. reflexivity.
Defined.

(** *** The link *)

Definition of_bytes (l : list Z) : string := String.string_of_list_ascii ((fun z => ascii_of_N (Z.to_N z)) <$> l).

Lemma of_bytes_string s : of_bytes (string_bytes s) = s.
Proof.
  induction s as [|a s IH]; [done|].
  change (String (ascii_of_N (Z.to_N (Z.of_N (N_of_ascii a)))) (of_bytes (string_bytes s)) = String a s).
  by rewrite N2Z.id, ascii_N_embedding, IH.
Qed.

(** A wrapped key is its password and the key. *)
Definition open_wrapped (message password : string) : result string CryptoError :=
  match unframe message with
  | Some (password', rest) =>
      if String.eqb password password' then
        match unframe rest with Some (k, body) => decrypt_block (Key := string) k body | None => Err (CParse "packet") end
      else Err (CDecrypt "wrong password")
  | None => Err (CParse "message")
  end.

#[local] Instance share_codec : PublicLinkCodec := {
  base64_bytes s := match unframe s with Some (b, _) => Ok (string_bytes b) | None => Err "base64" end;
  bytes_string := of_bytes;
  decode_link_info _ := Err "unused";
  encode_link_auth q := pq_client_proof q;
  decode_link_auth _ := Err "unused";
  decrypt_armored_with_password := open_wrapped
}.
#[local] Instance share_passwords : LinkPasswordOps nat string := {
  wrap_with_password k pw := mret (frame pw +:+ frame k)
}.
#[local] Instance share_srp : SrpPrimitives nat := {
  sha512 _ := [1];
  bcrypt_hash_with_salt _ _ _ := Ok "$2y$10$tail";
  base64_encode := of_bytes;
  verify_and_decode_modulus _ := Ok [251];
  getrandom_fill n w := (Ok (replicate n 7), S w)
}.

Lemma letters_length n : String.length (letters n) = n.
Proof. induction n as [|n IH]; simpl; congruence. Qed.

#[local] Instance share_link_laws : LinkLaws nat string string armor_message.
Proof.
  split.
  - intros n w. apply letters_length.
  - by intros s t [= <-].
  - intros b. exists (string_bytes b). split; [|apply of_bytes_string].
    unfold base64_bytes, share_codec. simpl (base64_standard_encode b).
    by rewrite <- (str_app_nil_r (frame b)), unframe_frame.
  - intros k pw w w' packet body plain message E Hb Hm.
    assert (packet = frame pw +:+ frame k) as -> by (injection E as <- _; reflexivity).
    assert (message = frame pw +:+ frame k +:+ body) as ->
      by (rewrite <- str_app_assoc; injection Hm as <-; reflexivity).
    unfold decrypt_armored_with_password, share_codec, open_wrapped.
    by rewrite unframe_frame, String.eqb_refl, unframe_frame, Hb.
Qed.

Definition settings : PublicLinkSettingsDto :=
  match seal_public_link_settings (FK := unit) (CS := unit) (Key := string) (CKey := string)
          4 "kkkkkkkkkkkk" (Some "secret") "sk" "bob" share_state with
  | (Ok settings, _) => settings
  | _ => {| lt_permissions := 0; lt_flags := 0; lt_share_password_salt := ""; lt_share_passphrase_key_packet := "";
            lt_password := ""; lt_url_password_salt := ""; lt_srp_verifier := ""; lt_srp_modulus_id := "";
            lt_max_accesses := 0 |}
  end.

Definition shared_url : ShareUrlDto :=
  {| ul_share_url_id := "u"; ul_share_id := None; ul_public_url := "https://drive.proton.me/urls/T0K3N";
     ul_password := Some (lt_password settings); ul_create_time := 0; ul_expiration_time := None;
     ul_permissions := Some 4; ul_flags := 3; ul_num_accesses := 0 |}.

Lemma public_link_secret_recovered_witness :
  recover_public_link_secret shared_url share_state
    = (Ok (Some "https://drive.proton.me/urls/T0K3N#kkkkkkkkkkkk", Some "secret"), share_state).
Proof.
  destruct (public_link_secret_recovered (Pub := string) (Sig := share_sig) 4 "kkkkkkkkkkkk" (Some "secret") "sk" "bob" settings
    share_state sent_state 0%nat 1%nat shared_url share_state share_state share_state "me" "Bob@proton" "bob"
    ["old"; "bob"] "bob") as [Hr _].
  - vm_compute. reflexivity.
  - reflexivity.
  - intros c [= <-]. reflexivity.
  - reflexivity.
  - reflexivity.
  - discriminate.
  - reflexivity.
  - reflexivity.
  - reflexivity.
  - right. left.
  - intros key p Hin Hp. apply elem_of_cons in Hin as [->|Hin]; [vm_compute in Hp; discriminate|].
    apply list_elem_of_singleton in Hin as ->. vm_compute in Hp. by injection Hp as <-.
  - exact Hr.
Defined.

Definition visited : PublicLinkAuthResponse :=
  {| pa_server_proof := ""; pa_uid := "uid"; pa_access_token := None;
     pa_share := {| ps_volume_id := "v"; ps_link_id := "r";
       ps_share_password_salt := lt_share_password_salt settings; ps_share_key := "share-key";
       ps_share_passphrase :=
         match base64_standard_decode (lt_share_passphrase_key_packet settings) with
         | Ok packet => packet +:+ frame "sk" +:+ "passphrase"
         | Err _ => ""
         end;
       ps_public_permissions := Some 4 |} |}.

Lemma public_link_opens_for_visitor_witness :
  parse_public_link_url "https://drive.proton.me/urls/T0K3N#kkkkkkkkkkkk" = Ok ("T0K3N", "kkkkkkkkkkkk") /\
  unlock_share_key {| cr_config := demo_config; cr_token := "T0K3N"; cr_password := "kkkkkkkkkkkksecret" |} visited
    = Ok "share-key".
Proof.
  destruct (public_link_opens_for_visitor (Pub := string) (Sig := share_sig) 4 "kkkkkkkkkkkk" (Some "secret") "sk" "bob" settings
    share_state sent_state 0%nat 1%nat "https://drive.proton.me" "T0K3N"
    {| pi_version := 4; pi_modulus := "N"; pi_server_ephemeral := "B"; pi_url_password_salt := "salt";
       pi_srp_session := "srp"; pi_flags := 3; pi_vendor_type := 0 |} visited
    (frame "bbbbbbbbbbbbbbbbkkkkkkkkkkkksecret" +:+ frame "sk")
    (frame "sk" +:+ "passphrase") "passphrase" "share-key" demo_config) as (Hp & _ & _ & Hu).
  all: try (vm_compute; reflexivity).
  - discriminate.
  - split; [exact Hp|exact Hu].
Defined.

Lemma link_sealed_elsewhere_not_updated_witness :
  update_public_link (SharingApi0 := toy_urls "photos") (Pub := string) (CKey := string) 3 (NodeUid_new "v" "r")
      Viewer None None share_state
    = Some (Err (invalid_operation
        "a legacy public link cannot be updated; remove it and create a new one"), share_state).
Proof.
  eapply (link_sealed_elsewhere_not_updated (SharingApi0 := toy_urls "photos") 3 (NodeUid_new "v" "r") Viewer None None
    share_state share_state share_state share_state share_state "s" _ [] "photos::kkkkkkkkkkkksecret" "me"
    "Bob@proton" "bob" ["old"; "bob"] "bob").
  - by left.
  - vm_compute. reflexivity.
  - reflexivity.
  - reflexivity.
  - vm_compute. reflexivity.
  - vm_compute. reflexivity.
  - intros key Hin. apply elem_of_cons in Hin as [->|Hin]; [reflexivity|].
    by apply list_elem_of_singleton in Hin as ->.
Defined.
End ToyShare.
