(* ===== verification/Drafts.v ===== *)
(** * The Drive client's uploads: drafts, sealing, small files

    From [crates/proton-drive-rs/src/client.rs]: opening the draft of a new file
    or of a new revision, with the recovery of a draft an interrupted upload left
    behind; the verification code; sealing a revision; and the uploads composed
    of them and of [write_blocks] ([Upload]) - files, revisions, photos, and the
    one-request upload of small files with its fallback.

    The requests and what serde and SHA-1 do are [UploadApi]; fresh AEAD keys and
    thumbnails are [FileSealOps].  The schedule of the transfers is an argument,
    as in [Upload]. *)

From S2P Require Import Prelude Errors Config Keys Sealing Http Transport Revision Node Names.
From S2P Require Import EntityCache Upload Links Moves LinkCrypto Account PublicLink Drive Nodes Downloads.

(** ** Wire records ([dtos.rs]) *)

Record FileCreationRequest := {
  fc_name : string;
  fc_name_hash : string;
  fc_parent_link_id : LinkId;
  fc_passphrase : string;
  fc_passphrase_signature : string;
  fc_key : string;
  fc_media_type : string;
  fc_content_key_packet : string;
  fc_content_key_signature : string;
  fc_signature_address : string;
  fc_client_uid : option string;
  fc_intended_upload_size : Z
}.
Record FileCreationResponse := { fe_link_id : LinkId; fe_revision_id : string }.

Record RevisionConflict := {
  cf_link_id : option LinkId;
  cf_revision_id : option string;
  cf_draft_revision_id : option string;
  cf_draft_client_uid : option string
}.

Record RevisionCreationRequest := {
  rc_current_revision_id : string;
  rc_client_uid : option string;
  rc_intended_upload_size : Z
}.
Record RevisionCreationResponse := { re_revision_id : string }.

Record BlockVerificationInputResponse := { bv_verification_code : string; bv_content_key_packet : string }.

Record PhotosAttributesDto := {
  pd_capture_time : Z;
  pd_content_hash : string;
  pd_main_photo_link_id : option LinkId;
  pd_tags : list Z
}.

Record RevisionUpdateRequest := {
  ru_manifest_signature : string;
  ru_signature_address : string;
  ru_checksum_verified : bool;
  ru_extended_attributes : option string;
  ru_photos_attributes : option PhotosAttributesDto
}.

Record SmallFileUploadMetadataRequest := {
  sf_name : string;
  sf_name_hash : string;
  sf_parent_link_id : LinkId;
  sf_passphrase : string;
  sf_passphrase_signature : string;
  sf_key : string;
  sf_media_type : string;
  sf_content_key_packet : string;
  sf_content_key_signature : string;
  sf_manifest_signature : string;
  sf_checksum_verified : bool;
  sf_signature_email : string;
  sf_content_block_verification_token : option string;
  sf_extended_attributes : string;
  sf_photo : option PhotosAttributesDto;
  sf_content_block_encrypted_signature : option string
}.

Record SmallRevisionUploadMetadataRequest := {
  sm_current_revision_id : string;
  sm_manifest_signature : string;
  sm_checksum_verified : bool;
  sm_signature_email : string;
  sm_content_block_encrypted_signature : option string;
  sm_content_block_verification_token : option string;
  sm_extended_attributes : string
}.

Record SmallUploadResponse := { su_link_id : LinkId; su_revision_id : string }.

(** The attributes as they are written; the widths of their integers, [i64] and [i32],
    are those of what fills them in. *)
Record CommonExtendedAttributes := {
  ce_size : option Z;
  ce_modification_time : option string;
  ce_block_sizes : option (list Z);
  ce_sha1 : option string
}.

(** ** Inputs and drafts *)

Record FileDraftSpec := {
  sp_parent_uid : NodeUid;
  sp_name : string;
  sp_media_type : string;
  sp_intended_upload_size : Z;
  sp_aead : bool;
  sp_for_photos : bool;
  sp_override_existing_draft : bool
}.

Record PhotoUploadMetadata := {
  pm_capture_time : option Z;
  pm_last_modification_time : option string;
  pm_main_photo_uid : option NodeUid;
  pm_tags : list PhotoTag
}.

Record RevisionDraft (Key CKey : Type) := {
  dr_volume_id : VolumeId;
  dr_link_id : LinkId;
  dr_revision_id : string;
  dr_node_key : Key;
  dr_content_key : CKey;
  dr_address_id : AddressId;
  dr_email : string;
  dr_signing_key : Key;
  dr_parent_hash_key : string
}.
Arguments dr_volume_id {Key CKey}. Arguments dr_link_id {Key CKey}. Arguments dr_revision_id {Key CKey}.
Arguments dr_node_key {Key CKey}. Arguments dr_content_key {Key CKey}. Arguments dr_address_id {Key CKey}.
Arguments dr_email {Key CKey}. Arguments dr_signing_key {Key CKey}. Arguments dr_parent_hash_key {Key CKey}.

Definition UploadContext_from_draft {Key CKey} (draft : RevisionDraft Key CKey) : UploadContext :=
  {| uc_address_id := dr_address_id draft; uc_volume_id := dr_volume_id draft;
     uc_link_id := dr_link_id draft; uc_revision_id := dr_revision_id draft |}.

(** What is sealed for a new file. *)
Record NewFile (Key CKey : Type) := {
  nf_node : GeneratedNodeKey Key;
  nf_content_key : CKey;
  nf_name : string;
  nf_name_hash : string;
  nf_passphrase : string;
  nf_passphrase_signature : string;
  nf_content_key_packet : string;
  nf_content_key_signature : string
}.
Arguments nf_node {Key CKey}. Arguments nf_content_key {Key CKey}. Arguments nf_name {Key CKey}.
Arguments nf_name_hash {Key CKey}. Arguments nf_passphrase {Key CKey}.
Arguments nf_passphrase_signature {Key CKey}. Arguments nf_content_key_packet {Key CKey}.
Arguments nf_content_key_signature {Key CKey}.

(** What is sealed of the content of a small upload. *)
Record SmallContent := {
  sc_manifest : string;
  sc_binary_parts : list (string * string);
  sc_block_sizes : list Z;
  sc_encrypted_signature : option string;
  sc_verification_token : option string
}.

Definition MAX_DRAFT_ATTEMPTS : nat := 3.

(** ** What the code calls *)

Class FileSealOps (W Key CKey : Type) := {
  content_key_generate_aead : W -> CKey * W;
  (** encrypted and inline-signed *)
  seal_thumbnail : CKey -> Key -> string -> M W string CryptoError
}.

(** The lowercase hex of a SHA-1, and [serde_json]. *)
Class AttributeWriter := {
  sha1_hex_digest : string -> string;
  write_attributes : CommonExtendedAttributes -> result string string
}.

Class UploadApi (W : Type) := {
  http_session_id : string;
  post_file_draft : string -> FileCreationRequest -> M W FileCreationResponse ProtonError;
  post_revision_draft : string -> RevisionCreationRequest -> M W RevisionCreationResponse ProtonError;
  conflict_from_value : json -> option RevisionConflict;
  (** the derived [Debug] *)
  code_debug : ResponseCode.t -> string;
  post_delete_multiple : string -> list LinkId -> M W AggregateLinksResponse ProtonError;
  get_verification_input : string -> M W BlockVerificationInputResponse ProtonError;
  post_block_targets : BlockUploadPreparationRequest -> M W BlockUploadPreparationResponse ProtonError;
  store_upload_blob : string -> string -> string -> M W unit ProtonError;
  put_revision_update : string -> RevisionUpdateRequest -> M W unit ProtonError;
  post_small_file : string -> SmallFileUploadMetadataRequest -> list (string * string)
                    -> M W SmallUploadResponse ProtonError;
  post_small_revision : string -> SmallRevisionUploadMetadataRequest -> list (string * string)
                        -> M W SmallUploadResponse ProtonError
}.

(** [Cursor<&[u8]>] *)
#[export] Instance CursorReader : Reader string := {
  reader_read n left :=
    let n := Z.to_nat n in
    (RData (String.substring 0 n left), String.substring n (String.length left) left)
}.

Section Drafts.
Context {W Key Pub Sig CKey FK CS : Type} `{KeyOps Key} `{PassphraseOps} `{SealOps W Key}
        `{SignatureOps Key Pub Sig} `{!VerifyOps Key Pub} `{!ContentOps Key CKey}
        `{!ContentKeyExport CKey} `{!SessionKeyOps W Key Pub CKey} `{!FileSealOps W Key CKey}
        `{AttributeOps} `{AttributeWriter} `{!UploadApi W}
        `{DriveApi W} `{!NodeApi W} `{!ContentApi W} `{!AccountKeys W Key Pub} `{!AccountAddresses W}
        `{!DriveEntities W} `{NameOps} `{Sha256} `{!Lru FK NodeUid Key} `{!Lru CS NodeUid ShareId}.

Abbreviation State := (DriveState W Key FK CS).
Abbreviation Call A := (M State A ProtonError).
Abbreviation Run A := (FM State A ProtonError).
Abbreviation Draft := (RevisionDraft Key CKey).

(** ** Drafts *)

(** The [for] of both draft creations: [clear] either makes room after a conflict
    or is the error the conflict ends with. *)
Fixpoint draft_attempts {A} (attempts : nat) (create : Call A) (clear : ProtonApiError -> Call unit)
    (kept : string) : Call A :=
  match attempts with
  | O => mfail (invalid_operation kept)
  | S attempts =>
      let* created := mtry create in
      match created with
      | Ok created => mret created
      | Err (Api e) =>
          if bool_decide (pe_code e = ResponseCode.AlreadyExists)
          then let* _ := clear e in draft_attempts attempts create clear kept
          else mfail (Api e)
      | Err other => mfail other
      end
  end.

Definition conflict_of (e : ProtonApiError) : option RevisionConflict :=
  d ← pe_details e; conflict_from_value d.

Definition delete_failures (response : AggregateLinksResponse) : list string :=
  (fun pair => lp_link_id pair +:+ " (" +:+ code_debug (ar_code (lp_response pair)) +:+ ")")
    <$> filter (fun pair => negb (ApiResponse_is_success (lp_response pair))
                  && negb (bool_decide (ar_code (lp_response pair) = ResponseCode.DoesNotExist)) = true)
          (ag_responses response).

Definition delete_draft_nodes (volume_id_ : VolumeId) (link_ids : list LinkId) : Call unit :=
  let* response := on_world (post_delete_multiple
    ("v2/volumes/" +:+ volume_id_ +:+ "/delete_multiple") link_ids) in
  match delete_failures response with
  | [] => mret tt
  | failures =>
      mfail (invalid_operation ("delete draft failed for " +:+ pretty (length failures)
        +:+ " link(s): " +:+ Str.join ", " failures))
  end.

(** The draft a conflict allows to delete: unsealed, and ours or any. *)
Definition stale_draft (override_existing_draft : bool) (client_uid : string)
    (conflict : option RevisionConflict) : option LinkId :=
  c ← conflict;
  match cf_link_id c, cf_revision_id c, cf_draft_revision_id c with
  | Some link_id, None, Some _ =>
      if override_existing_draft || bool_decide (cf_draft_client_uid c = Some client_uid)
      then Some link_id else None
  | _, _, _ => None
  end.

Definition clear_stale_file (volume_id_ : VolumeId) (override_existing_draft : bool) (e : ProtonApiError)
  : Call unit :=
  match stale_draft override_existing_draft http_session_id (conflict_of e) with
  | Some link_id_ => delete_draft_nodes volume_id_ [link_id_]
  | None => mfail (Api e)
  end.

(** What a new file is sealed with, for [create_file_draft] and
    [upload_small_file]. *)
Definition seal_new_file (aead : bool) (parent_key : Key) (parent_hash_key : string) (signing_key : Key)
    (name : string) : Call (NewFile Key CKey) :=
  let* node := on_seal (if aead then generate_node_key_aead else generate_node_key) in
  let* content_key := on_world (fun w =>
    let (k, w) := if aead then content_key_generate_aead w else session_key_generate w in (Ok k, w)) in
  let* encrypted_name := on_seal (key_encrypt_and_sign parent_key signing_key name true false) in
  let* encrypted_passphrase := on_seal (key_encrypt parent_key (gk_passphrase node)) in
  let* passphrase_signature := on_seal (key_sign_detached signing_key (gk_passphrase node)) in
  let* content_key_packet := on_seal (to_packet content_key (gk_key node)) in
  let* exported := mlift (map_err Crypto (export_content_key content_key)) in
  let* content_key_signature := on_seal (key_sign_detached (gk_key node) exported) in
  mret {| nf_node := node; nf_content_key := content_key; nf_name := encrypted_name;
          nf_name_hash := hex_hmac_sha256 parent_hash_key name;
          nf_passphrase := encrypted_passphrase; nf_passphrase_signature := passphrase_signature;
          nf_content_key_packet := content_key_packet;
          nf_content_key_signature := content_key_signature |}.

Definition file_creation_request (spec : FileDraftSpec) (f : NewFile Key CKey) (email : string)
  : FileCreationRequest :=
  {| fc_name := nf_name f; fc_name_hash := nf_name_hash f;
     fc_parent_link_id := link_id (sp_parent_uid spec);
     fc_passphrase := nf_passphrase f; fc_passphrase_signature := nf_passphrase_signature f;
     fc_key := gk_locked_armored (nf_node f); fc_media_type := sp_media_type spec;
     fc_content_key_packet := base64_standard_encode (nf_content_key_packet f);
     fc_content_key_signature := nf_content_key_signature f;
     fc_signature_address := email; fc_client_uid := Some http_session_id;
     fc_intended_upload_size := sp_intended_upload_size spec |}.

Definition create_file_draft (fuel : nat) (spec : FileDraftSpec) : Run Draft :=
  let parent_uid := sp_parent_uid spec in
  let volume_id_ := volume_id parent_uid in
  let+ parent_key := drive_folder_node_key fuel parent_uid in
  let+ parent_hash_key := flift (parent_hash_key_ctx drive_post_links parent_uid parent_key
                                   (sp_for_photos spec)) in
  let+ (address_id, email, signing_key) :=
    flift (if sp_for_photos spec then photos_membership_address else membership_address) in
  let+ f := flift (seal_new_file (sp_aead spec) parent_key parent_hash_key signing_key (sp_name spec)) in
  let create := on_world (post_file_draft ("v2/volumes/" +:+ volume_id_ +:+ "/files")
                            (file_creation_request spec f email)) in
  let+ created := flift (draft_attempts MAX_DRAFT_ATTEMPTS create
    (clear_stale_file volume_id_ (sp_override_existing_draft spec))
    "file draft creation kept conflicting after retries") in
  fret {| dr_volume_id := volume_id_; dr_link_id := fe_link_id created;
          dr_revision_id := fe_revision_id created; dr_node_key := gk_key (nf_node f);
          dr_content_key := nf_content_key f; dr_address_id := address_id; dr_email := email;
          dr_signing_key := signing_key; dr_parent_hash_key := parent_hash_key |}.

(** The secrets of a file that is there: its content key packet, the id of its
    active revision, its node key and its content key. *)
Definition existing_file_secrets (fuel : nat) (file_uid : NodeUid) : Run (string * string * Key * CKey) :=
  let+ response := flift (get_link_details drive_post_links (volume_id file_uid) [link_id file_uid]) in
  let+ detail := flift (mlift (ok_or (head (lr_links response))
    (invalid_operation ("file " +:+ NodeUid_display file_uid +:+ " not found")))) in
  let+ file := flift (mlift (ok_or (ld_file detail)
    (invalid_operation ("node " +:+ NodeUid_display file_uid +:+ " is not a file")))) in
  let+ packet := flift (mlift (content_packet "file" file)) in
  let+ revision_id := flift (mlift (active_id "file" file)) in
  let+ (node_key, content_key) := unlock_content fuel file_uid (ld_link detail) packet false in
  fret (packet, revision_id, node_key, content_key).

Definition clear_stale_revision (file_uid : NodeUid) (e : ProtonApiError) : Call unit :=
  match (c ← conflict_of e; draft_id ← cf_draft_revision_id c; owner ← cf_draft_client_uid c;
         Some (draft_id, owner)) with
  | None => mfail (invalid_operation "revision draft already exists and cannot be recovered")
  | Some (draft_id, owner) =>
      if negb (String.eqb owner http_session_id)
      then mfail (invalid_operation "revision draft is held by another client")
      else delete_revision_by_ids (volume_id file_uid) (link_id file_uid) draft_id
  end.

Definition create_revision_draft (fuel : nat) (file_uid : NodeUid) (intended_upload_size : Z) : Run Draft :=
  let+ (_, active_revision_id, node_key, content_key) := existing_file_secrets fuel file_uid in
  let+ (address_id, email, signing_key) := flift membership_address in
  let create := on_world (post_revision_draft
    ("v2/volumes/" +:+ volume_id file_uid +:+ "/files/" +:+ link_id file_uid +:+ "/revisions")
    {| rc_current_revision_id := active_revision_id; rc_client_uid := Some http_session_id;
       rc_intended_upload_size := intended_upload_size |}) in
  let+ created := flift (draft_attempts MAX_DRAFT_ATTEMPTS create (clear_stale_revision file_uid)
    "revision draft creation kept conflicting after retries") in
  fret {| dr_volume_id := volume_id file_uid; dr_link_id := link_id file_uid;
          dr_revision_id := re_revision_id created; dr_node_key := node_key;
          dr_content_key := content_key; dr_address_id := address_id; dr_email := email;
          dr_signing_key := signing_key; dr_parent_hash_key := EmptyString |}.

(** ** Content *)

Definition verification_path (draft : Draft) : string :=
  "v2/volumes/" +:+ dr_volume_id draft +:+ "/links/" +:+ dr_link_id draft +:+ "/revisions/"
  +:+ dr_revision_id draft +:+ "/verification".

Definition fetch_verification_code (draft : Draft) : Call string :=
  let* response := on_world (get_verification_input (verification_path draft)) in
  let* packet := mlift (map_err (fun e => invalid_operation ("decode verification packet: " +:+ e))
    (base64_standard_decode (trim_end (trim_start (bv_content_key_packet response))))) in
  let* _ := mlift (map_err (fun e => invalid_operation ("verification content key mismatch: "
                                                        +:+ CryptoError_display e))
    (decrypt_content_key (dr_node_key draft) packet)) in
  mlift (map_err (fun e => invalid_operation ("decode verification code: " +:+ e))
    (base64_standard_decode (trim_end (trim_start (bv_verification_code response))))).

(** A step of the world, with its own kind of error. *)
Definition on_world_crypto {A} (m : M W A CryptoError) : M State A CryptoError := fun s =>
  let (r, w) := m (ds_world s) in (r, {| ds_cache := ds_cache s; ds_world := w |}).

(** The draft's keys as [write_blocks] uses them. *)
Definition draft_keys (draft : Draft) : DraftKeys State := {|
  encrypt_block p := on_world_crypto (seal_block (dr_content_key draft) p);
  encrypt_thumbnail p := on_world_crypto (seal_thumbnail (dr_content_key draft) (dr_signing_key draft) p);
  sign_detached p := on_world_crypto (key_sign_detached (dr_signing_key draft) p);
  node_encrypt p := on_world_crypto (key_encrypt (dr_node_key draft) p);
  sha256 := sha256_digest;
  sha1_hex_of := sha1_hex_digest;
  base64 := base64_standard_encode |}.

(** *** Sealing *)

Definition revision_attributes (size : Z) (modification_time : option string) (block_sizes : list Z)
    (sha1 : string) : CommonExtendedAttributes :=
  {| ce_size := Some size; ce_modification_time := modification_time; ce_block_sizes := Some block_sizes;
     ce_sha1 := Some sha1 |}.

Definition revision_path (draft : Draft) : string :=
  "v2/volumes/" +:+ dr_volume_id draft +:+ "/files/" +:+ dr_link_id draft +:+ "/revisions/"
  +:+ dr_revision_id draft.

(** The request of [seal_revision]. *)
Definition sealed_revision (draft : Draft) (written : BlockWriteResult) (modification_time : option string)
    (photos_attributes : option PhotosAttributesDto) : Call RevisionUpdateRequest :=
  let* manifest_signature := on_seal (key_sign_detached (dr_signing_key draft) (bw_manifest written)) in
  let* xattr_json := mlift (map_err (fun e => invalid_operation ("serialize xattr: " +:+ e))
    (write_attributes (revision_attributes (bw_total_size written) modification_time
                         (bw_block_sizes written) (bw_sha1_hex written)))) in
  let* encrypted_xattr := on_seal (key_encrypt_and_sign (dr_node_key draft) (dr_signing_key draft)
                                     xattr_json false true) in
  mret {| ru_manifest_signature := manifest_signature; ru_signature_address := dr_email draft;
          ru_checksum_verified := false; ru_extended_attributes := Some encrypted_xattr;
          ru_photos_attributes := photos_attributes |}.

Definition seal_revision (draft : Draft) (written : BlockWriteResult) (modification_time : option string)
    (photos_attributes : option PhotosAttributesDto) : Call unit :=
  let* request := sealed_revision draft written modification_time photos_attributes in
  on_world (put_revision_update (revision_path draft) request).

Definition build_photos_attributes (parent_hash_key : string) (written : BlockWriteResult)
    (metadata : PhotoUploadMetadata) : Call PhotosAttributesDto :=
  let* capture_time := match pm_capture_time metadata with
                       | Some t => mret t
                       | None => on_world (fun w => let (t, w) := now_epoch_seconds w in (Ok t, w))
                       end in
  mret {| pd_capture_time := capture_time;
          pd_content_hash := hex_hmac_sha256 parent_hash_key (bw_sha1_hex written);
          pd_main_photo_link_id := link_id <$> pm_main_photo_uid metadata;
          pd_tags := PhotoTag_as_i32 <$> pm_tags metadata |}.

(** ** Uploads *)

Section Streams.
Context {R : Type} `{Reader R}.
Context (permits : State -> bool * State).
Context (receive : list PreparedBlock -> list (list PreparedBlock)).
Context (completion : list (option (Z * string)) -> list (option (Z * string))).
Context (read_fuel write_fuel : nat).

Abbreviation Stream A := (FM (State * R) A ProtonError).

(** A run that leaves the reader alone. *)
Definition aside {A} (m : Run A) : Stream A := fun '(s, r) =>
  match m s with Some (a, s) => Some (a, (s, r)) | None => None end.

Definition write_draft (draft : Draft) (thumbnails : list Thumbnail) : Stream BlockWriteResult :=
  @write_blocks State R (draft_keys draft) _
    (fun url token blob => on_world (store_upload_blob url token blob))
    (fun request => on_world (post_block_targets request))
    (fetch_verification_code draft) (UploadContext_from_draft draft)
    permits receive completion read_fuel write_fuel thumbnails.

Definition upload_file_from_inner (fuel : nat) (parent_uid : NodeUid) (name media_type : string)
    (intended_size : Z) (thumbnails : list Thumbnail) (last_modification_time : option string)
    (aead override_existing_draft : bool) : Stream NodeUid :=
  let+ draft := aside (create_file_draft fuel
    {| sp_parent_uid := parent_uid; sp_name := name; sp_media_type := media_type;
       sp_intended_upload_size := intended_size; sp_aead := aead; sp_for_photos := false;
       sp_override_existing_draft := override_existing_draft |}) in
  let+ written := write_draft draft thumbnails in
  let+ _ := aside (flift (seal_revision draft written last_modification_time None)) in
  fret (NodeUid_new (dr_volume_id draft) (dr_link_id draft)).

Definition upload_file_from (fuel : nat) (parent_uid : NodeUid) (name media_type : string)
    (intended_size : Z) (thumbnails : list Thumbnail) (last_modification_time : option string)
    (aead : bool) : Stream NodeUid :=
  upload_file_from_inner fuel parent_uid name media_type intended_size thumbnails
    last_modification_time aead false.

Definition upload_file_replacing_draft_from (fuel : nat) (parent_uid : NodeUid) (name media_type : string)
    (intended_size : Z) (thumbnails : list Thumbnail) (last_modification_time : option string)
    (aead : bool) : Stream NodeUid :=
  upload_file_from_inner fuel parent_uid name media_type intended_size thumbnails
    last_modification_time aead true.

Definition upload_new_revision_from (fuel : nat) (file_uid : NodeUid) (intended_size : Z)
    (thumbnails : list Thumbnail) (last_modification_time : option string) : Stream unit :=
  let+ draft := aside (create_revision_draft fuel file_uid intended_size) in
  let+ written := write_draft draft thumbnails in
  aside (flift (seal_revision draft written last_modification_time None)).

Definition photos_root : Call NodeUid :=
  let* exists_ := ensure_photos in
  if negb exists_ then mfail no_photos_volume
  else
    let* c := drive_cache in
    expect (dc_photos_root c) "ensure_photos populated the photos root".

Definition upload_photo_from (fuel : nat) (name media_type : string) (intended_size : Z)
    (thumbnails : list Thumbnail) (metadata : PhotoUploadMetadata) (aead : bool) : Stream NodeUid :=
  let+ parent_uid := aside (flift photos_root) in
  let+ draft := aside (create_file_draft fuel
    {| sp_parent_uid := parent_uid; sp_name := name; sp_media_type := media_type;
       sp_intended_upload_size := intended_size; sp_aead := aead; sp_for_photos := true;
       sp_override_existing_draft := false |}) in
  let+ written := write_draft draft thumbnails in
  let+ photos_attributes := aside (flift (build_photos_attributes (dr_parent_hash_key draft) written
                                            metadata)) in
  let+ _ := aside (flift (seal_revision draft written (pm_last_modification_time metadata)
                            (Some photos_attributes))) in
  fret (NodeUid_new (dr_volume_id draft) (dr_link_id draft)).
End Streams.

(** ** Small uploads *)

(** The last 32 bytes of the packet, where there are 32. *)
Definition packet_code (packet : string) : Res string :=
  if (String.length packet <? 32)%nat
  then Err (invalid_operation "content key packet has no verification code")
  else Ok (String.substring (String.length packet - 32) 32 packet).

Definition seal_small_content (node_key : Key) (content_key : CKey) (signing_key : Key)
    (packet contents : string) : Call SmallContent :=
  if Str.is_empty contents
  then mret {| sc_manifest := EmptyString; sc_binary_parts := []; sc_block_sizes := [];
               sc_encrypted_signature := None; sc_verification_token := None |}
  else
    let* ciphertext := on_seal (seal_block content_key contents) in
    let* signature := on_seal (key_sign_detached signing_key contents) in
    let* encrypted_signature := on_seal (key_encrypt node_key signature) in
    let* code := mlift (packet_code packet) in
    mret {| sc_manifest := sha256_digest ciphertext;
            sc_binary_parts := [("ContentBlock", ciphertext)];
            sc_block_sizes := [wrap_i32 (Z.of_nat (String.length contents))];
            sc_encrypted_signature := Some encrypted_signature;
            sc_verification_token := Some (base64_standard_encode (verification_token code ciphertext)) |}.

Definition seal_small_attributes (node_key signing_key : Key) (contents : string)
    (modification_time : option string) (block_sizes : list Z) : Call string :=
  let* json := mlift (map_err Serialization (write_attributes
    (revision_attributes (wrap_i64 (Z.of_nat (String.length contents))) modification_time block_sizes
       (sha1_hex_digest contents)))) in
  on_seal (key_encrypt_and_sign node_key signing_key json false true).

Definition upload_small_file (fuel : nat) (parent_uid : NodeUid) (name media_type contents : string)
  : Run NodeUid :=
  let+ parent_key := drive_folder_node_key fuel parent_uid in
  let+ parent_hash_key := flift (parent_hash_key drive_post_links parent_uid parent_key) in
  let+ (_, email, signing_key) := flift membership_address in
  let+ f := flift (seal_new_file false parent_key parent_hash_key signing_key name) in
  let node_key := gk_key (nf_node f) in
  let+ content := flift (seal_small_content node_key (nf_content_key f) signing_key
                           (nf_content_key_packet f) contents) in
  let+ manifest_signature := flift (on_seal (key_sign_detached signing_key (sc_manifest content))) in
  let+ encrypted_xattr := flift (seal_small_attributes node_key signing_key contents None
                                   (sc_block_sizes content)) in
  let+ response := flift (on_world (post_small_file
    ("v2/volumes/" +:+ volume_id parent_uid +:+ "/files/small")
    {| sf_name := nf_name f; sf_name_hash := nf_name_hash f; sf_parent_link_id := link_id parent_uid;
       sf_passphrase := nf_passphrase f; sf_passphrase_signature := nf_passphrase_signature f;
       sf_key := gk_locked_armored (nf_node f); sf_media_type := media_type;
       sf_content_key_packet := base64_standard_encode (nf_content_key_packet f);
       sf_content_key_signature := nf_content_key_signature f;
       sf_manifest_signature := manifest_signature; sf_checksum_verified := false;
       sf_signature_email := email;
       sf_content_block_verification_token := sc_verification_token content;
       sf_extended_attributes := encrypted_xattr; sf_photo := None;
       sf_content_block_encrypted_signature := sc_encrypted_signature content |}
    (sc_binary_parts content))) in
  fret (NodeUid_new (volume_id parent_uid) (su_link_id response)).

Definition upload_small_revision (fuel : nat) (file_uid : NodeUid) (contents : string)
    (modification_time : option string) : Run unit :=
  let+ (packet, current_revision_id, node_key, content_key) := existing_file_secrets fuel file_uid in
  let+ (_, email, signing_key) := flift membership_address in
  let+ content := flift (seal_small_content node_key content_key signing_key packet contents) in
  let+ encrypted_xattr := flift (seal_small_attributes node_key signing_key contents modification_time
                                   (sc_block_sizes content)) in
  let+ manifest_signature := flift (on_seal (key_sign_detached signing_key (sc_manifest content))) in
  let+ _ := flift (on_world (post_small_revision
    ("v2/volumes/" +:+ volume_id file_uid +:+ "/files/" +:+ link_id file_uid +:+ "/revisions/small")
    {| sm_current_revision_id := current_revision_id; sm_manifest_signature := manifest_signature;
       sm_checksum_verified := false; sm_signature_email := email;
       sm_content_block_encrypted_signature := sc_encrypted_signature content;
       sm_content_block_verification_token := sc_verification_token content;
       sm_extended_attributes := encrypted_xattr |} (sc_binary_parts content))) in
  fret tt.

(** ** Buffers *)

(** [small_upload] is the client's flag; a small upload that conflicts falls back
    to blocks. *)
Definition small_or_blocks {A} (small_upload : bool) (contents : string) (small blocks : Run A) : Run A :=
  if small_upload && small_upload_applicable (Z.of_nat (String.length contents)) then
    let+ uploaded := ftry small in
    match uploaded with
    | Ok a => fret a
    | Err error => if small_upload_should_fall_back error then blocks else ffail error
    end
  else blocks.

Section Buffers.
Context (permits : State -> bool * State).
Context (receive : list PreparedBlock -> list (list PreparedBlock)).
Context (completion : list (option (Z * string)) -> list (option (Z * string))).
Context (read_fuel write_fuel : nat).

(** A stream over a buffer. *)
Definition from_buffer {A} (contents : string) (m : FM (State * string) A ProtonError) : Run A := fun s =>
  match m (s, contents) with Some (a, (s, _)) => Some (a, s) | None => None end.

Definition upload_file (fuel : nat) (small_upload : bool) (parent_uid : NodeUid)
    (name media_type contents : string) : Run NodeUid :=
  small_or_blocks small_upload contents
    (upload_small_file fuel parent_uid name media_type contents)
    (from_buffer contents (upload_file_from permits receive completion read_fuel write_fuel fuel
       parent_uid name media_type (wrap_i64 (Z.of_nat (String.length contents))) [] None false)).

Definition upload_new_revision (fuel : nat) (small_upload : bool) (file_uid : NodeUid) (contents : string)
  : Run unit :=
  small_or_blocks small_upload contents
    (upload_small_revision fuel file_uid contents None)
    (from_buffer contents (upload_new_revision_from permits receive completion read_fuel write_fuel fuel
       file_uid (wrap_i64 (Z.of_nat (String.length contents))) [] None)).
End Buffers.
End Drafts.
