(* ===== verification/DraftsFacts.v ===== *)
(** * Uploads: theorems

    Proved of [Drafts]: a conflict deletes nothing but a stale draft, and a draft
    is attempted three times at most; what an upload stored and sealed, a
    download writes back, verified as the uploader's; a small upload describes
    its content as the block path would. *)

From S2P Require Import Prelude Errors Config Keys Sealing Http Transport Revision RevisionFacts.
From S2P Require Import Node Names EntityCache Upload UploadFacts Links LinksFacts Moves LinkCrypto LinkCryptoFacts.
From S2P Require Import Account PublicLink Drive Nodes NodesFacts SealingFacts Downloads DownloadsFacts Drafts.
From S2P Require Import ContentFacts.

(** ** Conflicts *)

Section Conflicts.
Context {W Key FK CS : Type} `{!ContentApi W} `{!UploadApi W}.

Abbreviation State := (DriveState W Key FK CS).
Abbreviation Call A := (M State A ProtonError).

Definition already_exists (e : ProtonApiError) : Prop := pe_code e = ResponseCode.AlreadyExists.

(** Conflicts [es], each cleared before the next attempt. *)
Inductive conflicts {A} (create : Call A) (clear : ProtonApiError -> Call unit)
  : State -> list ProtonApiError -> State -> Prop :=
| conflicts_none s : conflicts create clear s [] s
| conflicts_one s e s1 s2 es s3 :
    create s = (Err (Api e), s1) -> already_exists e -> clear e s1 = (Ok tt, s2) ->
    conflicts create clear s2 es s3 -> conflicts create clear s (e :: es) s3.

(** How the attempts end after the conflicts were cleared. *)
Inductive attempts_end {A} (create : Call A) (clear : ProtonApiError -> Call unit) (kept : string)
    (left_ : nat) : State -> result A ProtonError -> State -> Prop :=
| end_created s a s' : (0 < left_)%nat -> create s = (Ok a, s') ->
    attempts_end create clear kept left_ s (Ok a) s'
| end_failed s e s' : (0 < left_)%nat -> create s = (Err e, s') ->
    (forall a, e = Api a -> ~ already_exists a) ->
    attempts_end create clear kept left_ s (Err e) s'
| end_not_cleared s a s1 e s' : (0 < left_)%nat -> create s = (Err (Api a), s1) -> already_exists a ->
    clear a s1 = (Err e, s') -> attempts_end create clear kept left_ s (Err e) s'
| end_kept s : left_ = O -> attempts_end create clear kept left_ s (Err (invalid_operation kept)) s.

Lemma draft_attempts_run {A} n (create : Call A) clear kept s r s' :
  draft_attempts n create clear kept s = (r, s') ->
  exists es s1, (length es <= n)%nat /\ conflicts create clear s es s1 /\
    attempts_end create clear kept (n - length es) s1 r s'.
Proof.
  revert s. induction n as [|n IH]; intros s; simpl.
  { intros [= <- <-]. exists [], s. split_and!; [simpl; lia|constructor|by constructor]. }
  unfold mbind_, mtry. destruct (create s) as [[a|e] s1] eqn:Ec.
  { intros [= <- <-]. exists [], s. split_and!; [simpl; lia|constructor|constructor; [simpl; lia|done]]. }
  destruct e as [e|e|e|e| |e];
    try (intros [= <- <-]; exists [], s;
         split_and!; [simpl; lia|constructor|apply end_failed; [simpl; lia|done|done]]).
  destruct (bool_decide_reflect (pe_code e = ResponseCode.AlreadyExists)) as [He|He].
  - destruct (clear e s1) as [[[]|e'] s2] eqn:Ecl.
    + intros E. destruct (IH _ E) as (es & s3 & Hl & Hc & Hend). exists (e :: es), s3.
      split_and!; [simpl; lia| |exact Hend]. by eapply conflicts_one.
    + intros [= <- <-]. exists [], s. split_and!; [simpl; lia|constructor|].
      eapply end_not_cleared; [simpl; lia|exact Ec|done|done].
  - intros [= <- <-]. exists [], s. split_and!; [simpl; lia|constructor|].
    apply end_failed; [simpl; lia|done|]. by intros a [= <-].
Qed.

(** The unsealed draft a conflict names, without a sealed revision: this client's
    own, or anyone's when told to override. *)
Definition names_stale_draft (any_owner : bool) (e : ProtonApiError) (link : LinkId) : Prop :=
  exists c draft, conflict_of e = Some c /\ cf_link_id c = Some link /\ cf_revision_id c = None /\
    cf_draft_revision_id c = Some draft /\
    (any_owner = true \/ cf_draft_client_uid c = Some http_session_id).

(** One request, which asks to delete [link] alone, and what its answer means. *)
Definition asks_to_delete (vol : VolumeId) (link : LinkId) (s : State) (r : result unit ProtonError)
    (s' : State) : Prop :=
  exists q w', post_delete_multiple ("v2/volumes/" +:+ vol +:+ "/delete_multiple") [link] (ds_world s) = (q, w') /\
    s' = {| ds_cache := ds_cache s; ds_world := w' |} /\
    match q with
    | Err e => r = Err e
    | Ok response =>
        (r = Ok tt <-> Forall (fun pair => ar_code (lp_response pair) = ResponseCode.Success \/
                                           ar_code (lp_response pair) = ResponseCode.DoesNotExist)
                              (ag_responses response)) /\
        (r = Ok tt \/ exists what, r = Err (invalid_operation what))
    end.

(** Conflicts [es], before each next attempt the draft it named deleted. *)
Inductive drafts_deleted {A} (vol : VolumeId) (any_owner : bool) (create : Call A)
  : State -> list ProtonApiError -> State -> Prop :=
| deleted_none s : drafts_deleted vol any_owner create s [] s
| deleted_one s e s1 link s2 es s3 :
    create s = (Err (Api e), s1) -> already_exists e -> names_stale_draft any_owner e link ->
    asks_to_delete vol link s1 (Ok tt) s2 ->
    drafts_deleted vol any_owner create s2 es s3 -> drafts_deleted vol any_owner create s (e :: es) s3.

(** The last attempt, when one is left. *)
Inductive draft_settled {A} (vol : VolumeId) (any_owner : bool) (create : Call A) (kept : string)
    (left_ : nat) : State -> result A ProtonError -> State -> Prop :=
| settled_created s a s' : (0 < left_)%nat -> create s = (Ok a, s') ->
    draft_settled vol any_owner create kept left_ s (Ok a) s'
| settled_other s e s' : (0 < left_)%nat -> create s = (Err e, s') -> (forall a, e = Api a -> ~ already_exists a) ->
    draft_settled vol any_owner create kept left_ s (Err e) s'
| settled_not_stale s a s' : (0 < left_)%nat -> create s = (Err (Api a), s') -> already_exists a ->
    (forall link, ~ names_stale_draft any_owner a link) ->
    draft_settled vol any_owner create kept left_ s (Err (Api a)) s'
| settled_not_deleted s a s1 link e s' : (0 < left_)%nat -> create s = (Err (Api a), s1) -> already_exists a ->
    names_stale_draft any_owner a link -> asks_to_delete vol link s1 (Err e) s' ->
    draft_settled vol any_owner create kept left_ s (Err e) s'
| settled_kept s : left_ = O ->
    draft_settled vol any_owner create kept left_ s (Err (invalid_operation kept)) s.

Lemma delete_failures_none response :
  delete_failures response = [] <->
  Forall (fun pair => ar_code (lp_response pair) = ResponseCode.Success \/
                      ar_code (lp_response pair) = ResponseCode.DoesNotExist) (ag_responses response).
Proof.
  unfold delete_failures. induction (ag_responses response) as [|pair l IH]; [by split|].
  rewrite filter_cons, Forall_cons, <- IH. case_decide as Hd; unfold ApiResponse_is_success in Hd.
  - split; [done|]. intros [[Hc|Hc] _]; rewrite Hc in Hd; done.
  - split; [|by intros [_ ?]]. intros ?. split; [|done].
    destruct (ar_code (lp_response pair)); simpl in Hd; naive_solver.
Qed.

Lemma delete_draft_asks vol link (s : State) r s' :
  delete_draft_nodes vol [link] s = (r, s') -> asks_to_delete vol link s r s'.
Proof.
  unfold delete_draft_nodes, mbind_, on_world, asks_to_delete.
  destruct (post_delete_multiple _ _ (ds_world s)) as [[response|e] w']; simpl.
  - intros E. exists (Ok response), w'. split; [done|].
    pose proof (delete_failures_none response) as Hn.
    destruct (delete_failures response) eqn:Ef; injection E as <- <-; (split; [done|]); split.
    + by rewrite <- Hn.
    + by left.
    + rewrite <- Hn. split; discriminate.
    + right. by eexists.
  - intros [= <- <-]. by exists (Err e), w'.
Qed.

Lemma clear_stale_file_spec vol any_owner e (s : State) r s' :
  clear_stale_file (Key := Key) (FK := FK) (CS := CS) vol any_owner e s = (r, s') ->
  (exists link, names_stale_draft any_owner e link /\ asks_to_delete vol link s r s') \/
  ((forall link, ~ names_stale_draft any_owner e link) /\ r = Err (Api e) /\ s' = s).
Proof.
  unfold clear_stale_file, stale_draft, names_stale_draft.
  assert (Hnot : mfail (Api e) s = (r, s') ->
    r = Err (Api e) /\ s' = s) by by intros [= <- <-].
  destruct (conflict_of e) as [c|] eqn:Ec; simpl; [|intros [-> ->]%Hnot; right; naive_solver].
  destruct (cf_link_id c) as [l|] eqn:El; [|intros [-> ->]%Hnot; right; naive_solver].
  destruct (cf_revision_id c) eqn:Er; [intros [-> ->]%Hnot; right; naive_solver|].
  destruct (cf_draft_revision_id c) as [d|] eqn:Ed; [|intros [-> ->]%Hnot; right; naive_solver].
  destruct (any_owner || _) eqn:Eo.
  - intros E. left. exists l. split; [|by apply delete_draft_asks].
    exists c, d. split_and!; try done. apply orb_prop in Eo as [->|Eo]; [by left|].
    right. by apply bool_decide_eq_true in Eo.
  - intros [-> ->]%Hnot. right. apply orb_false_iff in Eo as [-> Eo]. apply bool_decide_eq_false in Eo. naive_solver.
Qed.

(** C9: Creating a file asks at most three times.  Between two attempts exactly one
    request is sent, which asks to delete exactly one link: the one that the server's
    conflict names as an unsealed draft, with no sealed revision, and - unless told to
    override - as this client's own; its answer must report that link deleted or
    gone.  A conflict that names no such draft is returned unchanged, with nothing
    deleted, as is any other error; a draft that cannot be deleted ends the attempts
    with that failure. *)
Theorem file_draft_recovery {A} vol any_owner (create : Call A) kept (s : State) r s' :
  draft_attempts MAX_DRAFT_ATTEMPTS create (clear_stale_file vol any_owner) kept s = (r, s') ->
  exists es s1, (length es <= 3)%nat /\ drafts_deleted vol any_owner create s es s1 /\
    draft_settled vol any_owner create kept (3 - length es) s1 r s'.
Proof.
  intros E%draft_attempts_run. destruct E as (es & s1 & Hl & Hc & Hend). exists es, s1.
  split_and!; [exact Hl| |].
  - clear Hend Hl. induction Hc as [|s e s2 s3 es s4 Hcr Hex Hcl _ IH]; [constructor|].
    apply clear_stale_file_spec in Hcl as [(link & Hn & Ha)|(_ & ? & _)]; [|done].
    by eapply deleted_one.
  - unfold MAX_DRAFT_ATTEMPTS in Hend.
    destruct Hend as [s0 a s0' ? ?|s0 e s0' ? ? ?|s0 a s2 e s0' ? ? ? Hcl|s0 ?].
    + by apply settled_created.
    + by apply settled_other.
    + apply clear_stale_file_spec in Hcl as [(link & Hn & Ha)|(Hn & [= ->] & ->)];
        [by eapply settled_not_deleted|by apply settled_not_stale].
    + by apply settled_kept.
Qed.

(** Creating a revision asks at most three times, and between two attempts
    deletes one revision only: the draft the server's conflict attributes to this
    client. A draft of another client, or of no one, is never deleted. *)
Theorem revision_draft_recovery {A} (file_uid : NodeUid) (create : Call A) kept (s : State) r s' :
  draft_attempts MAX_DRAFT_ATTEMPTS create (clear_stale_revision file_uid) kept s = (r, s') ->
  exists es s1, (length es <= 3)%nat /\ conflicts create (clear_stale_revision file_uid) s es s1 /\
    attempts_end create (clear_stale_revision file_uid) kept (3 - length es) s1 r s' /\
    Forall (fun e => exists c draft, conflict_of e = Some c /\ cf_draft_revision_id c = Some draft /\
              cf_draft_client_uid c = Some http_session_id) es /\
    (forall e, (forall c, conflict_of e = Some c -> cf_draft_client_uid c <> Some http_session_id) ->
       forall t, exists what,
         clear_stale_revision (Key := Key) (FK := FK) (CS := CS) file_uid e t = (Err (invalid_operation what), t)).
Proof.
  intros E%draft_attempts_run. destruct E as (es & s1 & Hl & Hc & Hend). exists es, s1.
  split_and!; [exact Hl|exact Hc|exact Hend| |].
  - clear Hend Hl. induction Hc as [|s e s2 s3 es s4 _ _ Hcl _ IH]; constructor; [|done].
    revert Hcl. unfold clear_stale_revision. destruct (conflict_of e) as [c|]; simpl; [|done].
    destruct (cf_draft_revision_id c) as [d|] eqn:Ed; simpl; [|done].
    destruct (cf_draft_client_uid c) as [o|] eqn:Eo; simpl; [|done].
    destruct (String.eqb_spec o http_session_id) as [->|]; simpl; [|done]. eauto.
  - intros e He t. unfold clear_stale_revision. destruct (conflict_of e) as [c|]; simpl; [|eexists; reflexivity].
    destruct (cf_draft_revision_id c) as [d|]; simpl; [|eexists; reflexivity].
    destruct (cf_draft_client_uid c) as [o|] eqn:Eo; simpl; [|eexists; reflexivity].
    destruct (String.eqb_spec o http_session_id) as [->|]; simpl; [|eexists; reflexivity].
    by destruct (He c eq_refl).
Qed.
End Conflicts.

(** ** What is uploaded downloads *)

(** What [ContentFacts] proves of the content keys of the code. *)
Class BlockLaws (W Key Pub CKey : Type) `{!ContentOps Key CKey} `{!SessionKeyOps W Key Pub CKey} : Prop := {
  sealed_block_opens (k : CKey) p (w w' : W) c :
    seal_block (Pub := Pub) k p w = (Ok c, w') -> decrypt_block (Key := Key) k c = Ok p
}.

Lemma thumbnail_manifest_digests `{PassphraseOps} (encode : string -> string) thumbnails digests manifest :
  (forall b, base64_standard_decode (trim_end (trim_start (encode b))) = Ok b) ->
  omap th_hash_digest thumbnails = encode <$> digests ->
  thumbnail_manifest thumbnails manifest = Ok (manifest +:+ concat_bytes digests).
Proof.
  intros He. revert digests manifest. induction thumbnails as [|t l IH]; intros digests manifest; simpl.
  - intros Hd. destruct digests; [|done]. simpl. by rewrite str_app_nil_r.
  - destruct (th_hash_digest t) as [h|]; [|apply IH]. destruct digests as [|d digests]; [done|].
    simpl. intros [= -> Hd]. rewrite He. simpl. rewrite (IH digests _ Hd). by rewrite str_app_assoc.
Qed.

Lemma served_blocks_written {T Key CKey} `{!ContentOps Key CKey} `{Sha256} (fetch : nat -> FM T string ProtonError)
    (ck : CKey) cs ps n manifest out (t : T) :
  (forall i c t, cs !! i = Some c -> exists t', fetch (n + i)%nat t = Some (Ok c, t')) ->
  Forall2 (fun c p => decrypt_block (Key := Key) ck c = Ok p) cs ps ->
  exists t', write_content_blocks (Key := Key) (O := string) fetch ck (seq n (length cs)) manifest (out, t)
    = Some (Ok (manifest +:+ concat_bytes (sha256_digest <$> cs)), (out +:+ concat_bytes ps, t')).
Proof.
  intros Hs Hf. revert n manifest out t Hs. induction Hf as [|c p cs ps Hd _ IH]; intros n manifest out t Hs; simpl.
  - exists t. by rewrite !str_app_nil_r.
  - unfold fbind at 1, beside. destruct (Hs 0%nat c t eq_refl) as [t1 E]. rewrite Nat.add_0_r in E. rewrite E.
    unfold fbind at 1, flift, mlift. rewrite Hd. simpl. unfold fbind at 1, to_output, write_output. simpl.
    destruct (IH (S n) (manifest +:+ sha256_digest c) (out +:+ p) t1) as [t2 ->].
    { intros i c' t' Hi. destruct (Hs (S i) c' t' Hi) as [t3 E3]. exists t3. by rewrite Nat.add_succ_comm. }
    exists t2. by rewrite !str_app_assoc.
Qed.

Lemma prepared_from_chunks {S} `{DraftKeys S} chunks (prepared : list PreparedBlock) :
  Forall2 prepared_from (indexed chunks) prepared ->
  Forall2 (fun p b => pb_digest b = sha256 (pb_ciphertext b) /\
             exists s s', Upload.encrypt_block p s = (Ok (pb_ciphertext b), s')) chunks prepared.
Proof.
  intros Hf. apply Forall2_same_length_lookup. split.
  - rewrite <- (Forall2_length _ _ _ Hf). unfold indexed. by rewrite length_imap.
  - intros i p b Hp Hb. destruct (Forall2_lookup_r _ _ _ _ _ Hf Hb) as ([z p'] & Hi & _ & Hd & He).
    unfold indexed in Hi. rewrite list_lookup_imap, Hp in Hi. injection Hi as <- <-. done.
Qed.

Section Uploads.
Context {W Key Pub Sig CKey FK CS : Type} `{KeyOps Key} `{PassphraseOps} `{!SealOps W Key}
        `{!SignatureOps Key Pub Sig} `{!VerifyOps Key Pub} `{!ContentOps Key CKey}
        `{!ContentKeyExport CKey} `{!SessionKeyOps W Key Pub CKey} `{!FileSealOps W Key CKey}
        `{AttributeWriter} `{!UploadApi W} `{Sha256}
        `{!AccountKeys W Key Pub} `{!SealLaws W Key Pub Sig} `{!BlockLaws W Key Pub CKey}.
Context {R : Type} `{ReaderLaws R}.

Abbreviation State := (DriveState W Key FK CS).

Lemma on_world_crypto_inv {A} (m : M W A CryptoError) (s s' : State) a :
  on_world_crypto m s = (Ok a, s') -> exists w', m (ds_world s) = (Ok a, w').
Proof. unfold on_world_crypto. destruct (m (ds_world s)) as [r w]. intros [= -> <-]. eauto. Qed.

Lemma on_seal_inv {A} (m : M W A CryptoError) (s s' : State) a :
  on_seal m s = (Ok a, s') -> exists w', m (ds_world s) = (Ok a, w').
Proof.
  unfold on_seal, on_world. destruct (m (ds_world s)) as [[r|e] w]; simpl; [|done]. intros [= -> <-]. eauto.
Qed.

(** The sealed revision: the manifest's signature passes for the uploader, the
    attributes open to what was written. *)
Lemma sealed_revision_reads (draft : RevisionDraft Key CKey) written time photos (s s' : State) request :
  sealed_revision draft written time photos s = (Ok request, s') ->
  ru_signature_address request = dr_email draft /\
  (forall ring, public_half (dr_signing_key draft) ∈ ring ->
     verify_detached (ru_manifest_signature request) (bw_manifest written) ring = VOk) /\
  exists json xattr, write_attributes (revision_attributes (bw_total_size written) time
      (bw_block_sizes written) (bw_sha1_hex written)) = Ok json /\
    ru_extended_attributes request = Some xattr /\
    decrypt_armored_message (dr_node_key draft) xattr = Ok json.
Proof.
  unfold sealed_revision. intros E.
  apply mbind_ok_inv in E as (sig & s1 & Es & E). apply on_seal_inv in Es as [w1 Es].
  apply mbind_ok_inv in E as (json & s2 & Ej & E). apply mbind_ok_inv in E as (xattr & s3 & Ex & E).
  apply on_seal_inv in Ex as [w3 Ex]. injection E as <- _. simpl.
  split; [done|]. split; [intros ring; by eapply sealed_signature_ok|].
  exists json, xattr. split; [|split; [done|by eapply encrypt_and_sign_opens]].
  injection Ej as Ej _. by destruct (write_attributes _); simplify_eq/=.
Qed.

(** What the server answers for a revision it was given: the sealed request, and
    a digest per thumbnail. *)
Record serves (rev : RevisionDto) (request : RevisionUpdateRequest) (thumbs : list EncryptedThumbnail) : Prop := {
  sv_signature : rev_manifest_signature rev = Some (ru_manifest_signature request);
  sv_email : rev_signature_email rev = Some (ru_signature_address request);
  sv_thumbnails : omap th_hash_digest (sort_by_key th_type (rev_thumbnails rev))
                  = (fun e => base64_standard_encode (et_digest e)) <$> thumbs
}.

Context (permits : State -> bool * State) (receive : list PreparedBlock -> list (list PreparedBlock))
        (completion : list (option (Z * string)) -> list (option (Z * string))) (read_fuel write_fuel : nat).

(** C8: What an upload stored and sealed, a download writes back. When the content
    of a draft was written and sealed, the ciphertexts a storage host accepted,
    served back in block order by any means, are written as exactly the content
    the reader gave; the manifest they make is the one that was signed, and
    passes as the uploader's; and the attributes open to the size, the layout and
    the hash of the content - whatever reads, permits, batches and completion
    order the upload saw. *)
Theorem uploaded_content_downloads (draft : RevisionDraft Key CKey) thumbnails time photos
    (s s1 s2 s3 : State) (r r1 : R) written request :
  (forall l, concat (receive l) = l) -> (forall l, completion l ≡ₚ l) ->
  (forall b, base64_standard_decode (trim_end (trim_start (base64_standard_encode b))) = Ok b) ->
  Str.is_empty (dr_email draft) = false ->
  write_draft permits receive completion read_fuel write_fuel draft thumbnails (s, r)
    = Some (Ok written, (s1, r1)) ->
  sealed_revision draft written time photos s2 = (Ok request, s3) ->
  exists cs thumbs,
    Forall (accepted (fun url token blob => on_world (FK := FK) (CS := CS) (Key := Key)
                        (store_upload_blob url token blob))) cs /\
    Forall2 (@thumbnail_from State (draft_keys draft))
      (sort_by_key (fun t => ThumbnailType_as_i32 (tn_type t)) thumbnails) thumbs /\
    (exists json xattr, ru_extended_attributes request = Some xattr /\
       decrypt_armored_message (dr_node_key draft) xattr = Ok json /\
       write_attributes (revision_attributes (size_of (reader_rest r)) time (bw_block_sizes written)
                           (sha1_hex_digest (reader_rest r))) = Ok json) /\
    forall rev T (fetch : nat -> FM T string ProtonError) (t : T) (w : W),
      serves rev request thumbs ->
      (forall i c t, cs !! i = Some c -> exists t', fetch i t = Some (Ok c, t')) ->
      public_half (dr_signing_key draft) ∈ (acct_public_keys (dr_email draft) w).1 ->
      exists head t',
        thumbnail_manifest (sort_by_key th_type (rev_thumbnails rev)) EmptyString = Ok head /\
        write_content_blocks (Key := Key) fetch (dr_content_key draft) (seq 0 (length cs)) head (EmptyString, t)
          = Some (Ok (bw_manifest written), (reader_rest r, t')) /\
        (verify_manifest rev (dr_node_key draft) (bw_manifest written) w).1 = VOk.
Proof.
  intros Hrec Hcomp H64 Hemail Ew Es. unfold write_draft in Ew.
  apply write_blocks_recorded in Ew as (chunks & prepared & thumbs & Hdata & _ & _ & Htotal & Hsha & Hp & Hthumbs & _ & Ha & Hm);
    [|done..].
  destruct (sealed_revision_reads _ _ _ _ _ _ _ Es) as (Haddr & Hsig & json & xattr & Hj & Hx & Hdx).
  exists (pb_ciphertext <$> prepared), thumbs. split; [exact Ha|]. split; [exact Hthumbs|]. split.
  { exists json, xattr. rewrite <- Htotal. change (sha1_hex_digest (reader_rest r))
      with (@sha1_hex_of _ (draft_keys (FK := FK) (CS := CS) draft) (reader_rest r)). rewrite <- Hsha. done. }
  intros rev T fetch t w [Hs1 Hs2 Hs3] Hserve Hring.
  apply prepared_from_chunks in Hp.
  assert (Hplain : Forall2 (fun c p => decrypt_block (Key := Key) (dr_content_key draft) c = Ok p)
                     (pb_ciphertext <$> prepared) chunks).
  { apply Forall2_fmap_l, Forall2_flip. eapply Forall2_impl; [exact Hp|]. intros p b (_ & v & v' & E).
    apply on_world_crypto_inv in E as [w' E]. by eapply sealed_block_opens. }
  assert (Hdigests : pb_digest <$> prepared = sha256_digest <$> (pb_ciphertext <$> prepared)).
  { rewrite <- list_fmap_compose. clear -Hp. induction Hp as [|p b l l' [Hd _] _ IH]; [done|].
    cbn [fmap list_fmap]. by rewrite IH, Hd. }
  assert (Hhead : thumbnail_manifest (sort_by_key th_type (rev_thumbnails rev)) EmptyString
                  = Ok (concat_bytes (et_digest <$> thumbs))).
  { rewrite <- (str_app_nil_l (concat_bytes _)).
    apply (thumbnail_manifest_digests base64_standard_encode); [exact H64|]. rewrite Hs3.
    by rewrite <- list_fmap_compose. }
  exists (concat_bytes (et_digest <$> thumbs)).
  destruct (served_blocks_written fetch (dr_content_key draft) (pb_ciphertext <$> prepared) chunks 0
    (concat_bytes (et_digest <$> thumbs)) EmptyString t Hserve Hplain) as [t' Hw].
  exists t'. split; [exact Hhead|]. split.
  - rewrite Hw, Hm, Hdigests, Hdata. by rewrite str_app_nil_l.
  - unfold verify_manifest. rewrite Hs1, Hs2, Haddr. simpl. rewrite Hemail.
    destruct (acct_public_keys (dr_email draft) w) as [keys w'] eqn:Ek. by apply Hsig.
Qed.
End Uploads.

(** ** Small uploads *)

Lemma small_upload_bound n : 0 <= n -> small_upload_applicable n = true -> n <= 119156.
Proof.
  unfold small_upload_applicable, SMALL_UPLOAD_SIZE_LIMIT, u64_max. intros Hn H%Z.ltb_lt. lia.
Qed.

(** A layout below one block's size has one block, or none for nothing. *)
Lemma layout_one_block sizes n :
  standard_layout sizes -> sum_Z sizes = n -> n < DEFAULT_BLOCK_SIZE -> sizes = if n =? 0 then [] else [n].
Proof.
  destruct sizes as [|a [|b sizes]]; cbn [standard_layout sum_Z fold_right]; intros Hl <- Hn.
  - done.
  - rewrite Z.add_0_r. by destruct (Z.eqb_spec a 0); [lia|].
  - destruct Hl as [-> Hl]. change (standard_layout (b :: sizes)) in Hl. apply standard_layout_pos in Hl. apply Forall_cons in Hl as [Hb Hl].
    assert (0 <= fold_right Z.add 0 sizes); [|lia].
    apply sum_Z_nonneg. eapply Forall_impl; [exact Hl|]. simpl. lia.
Qed.

Section Small.
Context {W Key Pub Sig CKey FK CS : Type} `{KeyOps Key} `{PassphraseOps} `{!SealOps W Key}
        `{!ContentOps Key CKey} `{!ContentKeyExport CKey} `{!SessionKeyOps W Key Pub CKey}
        `{!FileSealOps W Key CKey} `{AttributeWriter} `{!UploadApi W} `{Sha256}
        `{!BlockLaws W Key Pub CKey}.
Context {R : Type} `{ReaderLaws R}.

Abbreviation State := (DriveState W Key FK CS).

(** The content of a small upload: one block, or none. *)
Lemma seal_small_content_spec (node_key : Key) (ck : CKey) (signing : Key) packet contents (s s' : State) sc :
  seal_small_content node_key ck signing packet contents s = (Ok sc, s') ->
  exists cs, sc_binary_parts sc = (fun c => ("ContentBlock", c)) <$> cs /\
    sc_manifest sc = concat_bytes (sha256_digest <$> cs) /\
    Forall2 (fun c p => decrypt_block (Key := Key) ck c = Ok p) cs
      (if Str.is_empty contents then [] else [contents]) /\
    sc_block_sizes sc = if Str.is_empty contents then [] else [wrap_i32 (size_of contents)].
Proof.
  unfold seal_small_content. destruct (Str.is_empty contents).
  - intros [= <- _]. exists []. by repeat constructor.
  - intros E. apply mbind_ok_inv in E as (c & s1 & Ec & E). apply on_seal_inv in Ec as [w1 Ec].
    apply mbind_ok_inv in E as (sig & s2 & _ & E). apply mbind_ok_inv in E as (es & s3 & _ & E).
    apply mbind_ok_inv in E as (code & s4 & _ & E). injection E as <- _. exists [c]. simpl.
    rewrite str_app_nil_r. split_and!; [done..| |done]. constructor; [|constructor].
    by eapply sealed_block_opens.
Qed.

Context (permits : State -> bool * State) (receive : list PreparedBlock -> list (list PreparedBlock))
        (completion : list (option (Z * string)) -> list (option (Z * string))) (read_fuel write_fuel : nat).

(** C10: A small upload describes its content as the block path does. Within the
    limit of the one-request endpoint the content is a single standard block, or
    none when it is empty; the sizes fit their 32 bits and are exact; and the
    attributes are, field by field, those a block-by-block upload of the same
    content records, whatever its schedule. *)
Theorem small_upload_as_blocks (draft : RevisionDraft Key CKey) node_key ck signing packet time contents
    (s s1 t t1 : State) (r r1 : R) sc written :
  (forall l, concat (receive l) = l) -> (forall l, completion l ≡ₚ l) ->
  small_upload_applicable (size_of contents) = true ->
  seal_small_content node_key ck signing packet contents s = (Ok sc, s1) ->
  reader_rest r = contents ->
  write_draft permits receive completion read_fuel write_fuel draft [] (t, r) = Some (Ok written, (t1, r1)) ->
  sc_block_sizes sc = bw_block_sizes written /\
  revision_attributes (wrap_i64 (size_of contents)) time (sc_block_sizes sc) (sha1_hex_digest contents)
    = revision_attributes (bw_total_size written) time (bw_block_sizes written) (bw_sha1_hex written) /\
  Forall (fun n => 0 < n <= 119156 /\ n < DEFAULT_BLOCK_SIZE) (sc_block_sizes sc) /\
  sum_Z (sc_block_sizes sc) = size_of contents /\
  exists cs, sc_binary_parts sc = (fun c => ("ContentBlock", c)) <$> cs /\
    sc_manifest sc = concat_bytes (sha256_digest <$> cs) /\
    Forall2 (fun c p => decrypt_block (Key := Key) ck c = Ok p) cs
      (if Str.is_empty contents then [] else [contents]).
Proof.
  intros Hrec Hcomp Happ Esc <- Ew. unfold write_draft in Ew.
  apply write_blocks_recorded in Ew as (chunks & prepared & thumbs & Hdata & Hsizes & Hl & Ht & Hsha & _);
    [|done..].
  apply seal_small_content_spec in Esc as (cs & Hparts & Hman & Hopen & Hsc).
  assert (Hn : 0 <= size_of (reader_rest r)) by (unfold size_of; lia).
  apply small_upload_bound in Happ as Hb; [|done].
  assert (Hsum : sum_Z (bw_block_sizes written) = size_of (reader_rest r)).
  { rewrite Hsizes, Hdata. clear. induction chunks as [|c l IH]; [done|]. cbn [fmap list_fmap concat_bytes foldr sum_Z fold_right].
    unfold size_of at 1 3. rewrite str_length_app. unfold sum_Z in IH. unfold size_of in IH at 2.
    unfold concat_bytes in IH. rewrite IH. lia. }
  assert (H22 : DEFAULT_BLOCK_SIZE = 4194304) by reflexivity.
  assert (Hone := layout_one_block _ _ Hl Hsum ltac:(lia)).
  assert (Hempty : Str.is_empty (reader_rest r) = (size_of (reader_rest r) =? 0)).
  { by destruct (reader_rest r) as [|c d]; [|unfold size_of; simpl]. }
  assert (Heq : sc_block_sizes sc = bw_block_sizes written).
  { rewrite Hsc, Hone, Hempty. destruct (_ =? 0); [done|]. rewrite wrap_i32_small; [done|lia]. }
  split; [done|]. split.
  { rewrite Heq, Ht, wrap_i64_small by lia. f_equal. by rewrite Hsha. }
  split.
  { rewrite Heq, Hone. destruct (Z.eqb_spec (size_of (reader_rest r)) 0); constructor; [|constructor]. lia. }
  split; [by rewrite Heq|]. exists cs. by split_and!.
Qed.
End Small.

(** ** The cursor *)

Lemma substring_all m s : (String.length s <= m)%nat -> String.substring 0 m s = s.
Proof. revert m. induction s as [|c s IH]; intros [|m] Hm; simpl in *; [done|done|lia|]. by rewrite IH by lia. Qed.

Lemma substring_split n m s :
  (String.length s <= m)%nat -> String.substring 0 n s +:+ String.substring n m s = s.
Proof.
  revert n m. induction s as [|c s IH]; intros [|n] m Hm; simpl in *; [by destruct m|by destruct m| |].
  - rewrite str_app_nil_l. destruct m; [lia|]. simpl. by rewrite substring_all by lia.
  - rewrite str_app_cons, IH by lia. done.
Qed.

Lemma substring_0_length n s : String.length (String.substring 0 n s) = Nat.min n (String.length s).
Proof. revert n. induction s as [|c s IH]; intros [|n]; simpl; [done..|]. by rewrite IH. Qed.

#[export] Instance CursorLaws : ReaderLaws string.
Proof.
  unshelve econstructor; [exact (fun s => s)|exact String.length|..].
  - intros n r d r' Hn [= <- <-]. rewrite substring_split by done. split; [done|].
    rewrite substring_0_length. split; [lia|].
    assert (Hl : String.length (String.substring 0 (Z.to_nat n) r) = Nat.min (Z.to_nat n) (String.length r))
      by apply substring_0_length.
    assert (Hsum : (String.length (String.substring 0 (Z.to_nat n) r)
      + String.length (String.substring (Z.to_nat n) (String.length r) r) = String.length r)%nat).
    { rewrite <- str_length_app. by rewrite substring_split. }
    split.
    + intros E. rewrite E in Hl. simpl in Hl. assert (String.length r = 0%nat) by lia.
      split; [by destruct r|lia].
    + intros E. destruct (String.substring 0 (Z.to_nat n) r) as [|c d]; [done|]. simpl in Hsum. lia.
  - done.
Defined.

(** ** A small server *)

Module ToyUpload.
#[local] Existing Instances sealed_keys sealed_verify toy_signatures sealed_account.

(** As [sealed_seal], with a base64 that trims. *)
#[local] Instance draft_seal : SealOps nat string := {
  fill_bytes := @fill_bytes _ _ sealed_seal;
  base64_standard_encode := ContentFacts.ToyPgp.frame;
  generate_locked_key := @generate_locked_key _ _ sealed_seal;
  key_encrypt := @key_encrypt _ _ sealed_seal;
  key_encrypt_and_sign := @key_encrypt_and_sign _ _ sealed_seal;
  key_sign_detached := @key_sign_detached _ _ sealed_seal;
  sign_detached_binary_with_context := @sign_detached_binary_with_context _ _ sealed_seal
}.

#[local] Instance draft_seal_laws : SealLaws nat string string (string * string).
Proof. destruct sealed_laws as [H1 H2 H3]. split; [exact H1|exact H2|exact H3]. Qed.

#[local] Instance draft_content : ContentOps string string := {
  decrypt_content_key _ p := Ok p;
  decrypt_thumbnail k c := match Str.split_once ":" c with Some (_, p) => Ok p | None => Err (CParse "t") end;
  decrypt_block k c := if String.prefix (k +:+ ":") c
                       then Ok (String.substring (S (String.length k)) (String.length c) c)
                       else Err (CDecrypt "block")
}.

#[local] Instance draft_export : ContentKeyExport string := { export_content_key := Ok }.

#[local] Instance draft_session : SessionKeyOps nat string string string := {
  session_key_generate n := ("ck", n);
  to_packet k _ := mret k;
  to_packet_for_public k _ := mret k;
  seal_block k p := fun n =>
    let c := k +:+ ":" +:+ p in
    (match decrypt_block (Key := string) k c with
     | Ok p' => if String.eqb p' p then Ok c else Err (CEncrypt "block")
     | Err e => Err e
     end, S n);
  armor_message := Ok
}.

#[local] Instance draft_block_laws : BlockLaws nat string string string.
Proof. 
  split. intros k p w w' c. unfold seal_block, draft_session.
  destruct (decrypt_block k (k +:+ ":" +:+ p)) as [p'|e] eqn:E; [|done].
  destruct (String.eqb_spec p' p) as [->|]; [|done]. by intros [= <- _].
Qed.

#[local] Instance draft_file_seal : FileSealOps nat string string := {
  content_key_generate_aead n := ("ck6", n);
  seal_thumbnail k _ p := mret (k +:+ ":" +:+ p)
}.

#[local] Instance draft_writer : AttributeWriter := {
  sha1_hex_digest p := "sha1-" +:+ p;
  write_attributes c := Ok (pretty (default 0 (ce_size c)) +:+ "/" +:+ default EmptyString (ce_sha1 c))
}.

Definition toy_conflict : ProtonApiError :=
  {| pe_code := ResponseCode.AlreadyExists; pe_http_status := 422; pe_message := "exists";
     pe_details := Some (JString "ours") |}.

(** The first draft of the day conflicts with ours, left behind. *)
#[local] Instance toy_uploads : UploadApi nat := {
  http_session_id := "session";
  post_file_draft _ _ := fun n =>
    match n with
    | O => (Err (Api toy_conflict), 1%nat)
    | _ => (Ok {| fe_link_id := "new"; fe_revision_id := "rev" |}, n)
    end;
  post_revision_draft _ _ := fun n =>
    match n with
    | O => (Err (Api toy_conflict), 1%nat)
    | _ => (Ok {| re_revision_id := "rev" |}, n)
    end;
  conflict_from_value _ := Some {| cf_link_id := Some "stale"; cf_revision_id := None;
                                   cf_draft_revision_id := Some "draft";
                                   cf_draft_client_uid := Some "session" |};
  code_debug _ := "code";
  post_delete_multiple _ _ := mret {| ag_responses := [] |};
  get_verification_input _ := mret {| bv_verification_code := ContentFacts.ToyPgp.frame "code";
                                      bv_content_key_packet := ContentFacts.ToyPgp.frame "ck" |};
  post_block_targets q := mret
    {| upload_targets := (fun b => {| ut_bare_url := "https://storage"; ut_token := "t";
         ut_index := Some (bc_index b); ut_thumbnail_type := None |}) <$> bp_blocks q;
       thumbnail_upload_targets := (fun t => {| ut_bare_url := "https://storage"; ut_token := "t";
         ut_index := None; ut_thumbnail_type := Some (tc_thumbnail_type t) |}) <$> bp_thumbnails q |};
  store_upload_blob _ _ _ := mret tt;
  put_revision_update _ _ := mret tt;
  post_small_file _ _ _ := mret {| su_link_id := "new"; su_revision_id := "rev" |};
  post_small_revision _ _ _ := mret {| su_link_id := "new"; su_revision_id := "rev" |}
}.

#[local] Instance toy_deletes : ContentApi nat := {
  get_revision_page _ := mfail (invalid_operation "unused");
  get_block _ _ := mfail (invalid_operation "unused");
  post_thumbnail_ids _ _ := mfail (invalid_operation "unused");
  get_revision_list _ := mfail (invalid_operation "unused");
  get_revision_metadata _ := mfail (invalid_operation "unused");
  post_empty _ := mret tt;
  delete_path _ := mret tt;
  entity_remove_node _ := mret tt
}.

Definition state (n : nat) : DriveState nat string unit unit :=
  {| ds_cache := DriveCache_default tt tt; ds_world := n |}.

Definition creates : M (DriveState nat string unit unit) FileCreationResponse ProtonError :=
  on_world (post_file_draft "v2/volumes/v/files"
    {| fc_name := "n"; fc_name_hash := "h"; fc_parent_link_id := "p"; fc_passphrase := ""; fc_key := "";
       fc_passphrase_signature := ""; fc_media_type := ""; fc_content_key_packet := "";
       fc_content_key_signature := ""; fc_signature_address := ""; fc_client_uid := None;
       fc_intended_upload_size := 0 |}).

Lemma file_draft_recovery_witness :
  exists es s1, (length es <= 3)%nat /\ drafts_deleted "v" false creates (state 0) es s1 /\
    draft_settled "v" false creates "kept" (3 - length es) s1
      (Ok {| fe_link_id := "new"; fe_revision_id := "rev" |}) (state 1).
Proof. apply (file_draft_recovery "v" false creates "kept" (state 0)). reflexivity. Defined.

Definition revises : M (DriveState nat string unit unit) RevisionCreationResponse ProtonError :=
  on_world (post_revision_draft "v2/volumes/v/files/f/revisions"
    {| rc_current_revision_id := "old"; rc_client_uid := None; rc_intended_upload_size := 0 |}).

Lemma revision_draft_recovery_witness :
  exists es s1, (length es <= 3)%nat /\
    conflicts revises (clear_stale_revision (NodeUid_new "v" "f")) (state 0) es s1.
Proof.
  edestruct (revision_draft_recovery (NodeUid_new "v" "f") revises "kept" (state 0))
    as (es & s1 & Hl & Hc & _); [reflexivity|]. by exists es, s1.
Defined.

Definition draft : RevisionDraft string string :=
  {| dr_volume_id := "v"; dr_link_id := "new"; dr_revision_id := "rev"; dr_node_key := "node";
     dr_content_key := "ck"; dr_address_id := "address"; dr_email := "bob"; dr_signing_key := "bob";
     dr_parent_hash_key := "hk" |}.

#[local] Instance toy_base64 : PassphraseOps := ContentFacts.ToyPgp.toy_base64.

Definition wrote : BlockWriteResult :=
  {| bw_manifest := "<ck:thumb><ck:hello>"; bw_block_sizes := [5]; bw_total_size := 5;
     bw_sha1_hex := "sha1-hello" |}.

Definition permitting (s : DriveState nat string unit unit) := (true, s).
Definition thumbs : list Thumbnail := [{| tn_type := TThumbnail; tn_content := "thumb" |}].

Definition request : RevisionUpdateRequest :=
  {| ru_manifest_signature := "pub-bob|<ck:thumb><ck:hello>"; ru_signature_address := "bob";
     ru_checksum_verified := false; ru_extended_attributes := Some "node:bob:5/sha1-hello";
     ru_photos_attributes := None |}.

(** The revision as the server gives it back. *)
Definition revision (e : EncryptedThumbnail) : RevisionDto :=
  {| rev_id := "rev"; rev_manifest_signature := Some (ru_manifest_signature request);
     rev_signature_email := Some "bob"; rev_extended_attributes := ru_extended_attributes request;
     rev_thumbnails := [{| th_id := None; th_type := et_thumbnail_type e;
                           th_hash_digest := Some (ContentFacts.ToyPgp.frame (et_digest e)) |}];
     rev_blocks := [] |}.

Definition writes (l : list Thumbnail) :=
  write_draft (W := nat) (Key := string) (Pub := string) (CKey := string) (FK := unit) (CS := unit) (R := string)
    permitting (fun l => [l]) (@List.rev _) 20 20 draft l (state 0, "hello").

Lemma uploaded_content_downloads_witness :
  exists cs e s1,
    writes thumbs = Some (Ok wrote, (s1, EmptyString)) /\
    (exists head t',
      write_content_blocks (Key := string) (T := unit) (CKey := string)
        (fun i t => (fun c => (Ok c, t)) <$> (cs !! i)) "ck" (seq 0 (length cs)) head (EmptyString, tt)
        = Some (Ok "<ck:thumb><ck:hello>", ("hello", t'))) /\
    (verify_manifest (revision e) "node" "<ck:thumb><ck:hello>" 0%nat).1 = VOk.
Proof.
  destruct (uploaded_content_downloads (Pub := string) (Sig := string * string) (R := string) permitting
    (fun l => [l]) (@List.rev _) 20 20 draft thumbs None None (state 0) (state 1) (state 2) (state 2)
    "hello" EmptyString wrote request) as (cs & ts & Ha & Ht & _ & Hd).
  - intros l. simpl. by rewrite app_nil_r.
  - intros l. symmetry. apply Permutation_rev.
  - exact (@base64_decodes _ _ _ _ ContentFacts.ToyPgp.toy_base64_laws).
  - reflexivity.
  - vm_compute. reflexivity.
  - vm_compute. reflexivity.
  - change (sort_by_key (fun t => ThumbnailType_as_i32 (tn_type t)) thumbs) with thumbs in Ht.
    unfold thumbs in Ht. apply Forall2_cons_inv_l in Ht as (e & ts' & _ & Ht & ->).
    apply Forall2_nil_inv_l in Ht as ->.
    destruct (Hd (revision e) unit (fun i t => (fun c => (Ok c, t)) <$> (cs !! i)) tt 0%nat)
      as (head & t' & _ & Hw & Hv).
    + by split.
    + intros i c t Hi. exists t. by rewrite Hi.
    + constructor.
    + exists cs, e, (state 1). split; [vm_compute; reflexivity|]. split; [by exists head, t'|exact Hv].
Defined.

Lemma small_upload_as_blocks_witness :
  exists sc s1 written t1,
    seal_small_content (Pub := string) (FK := unit) (CS := unit) "node" "ck" "bob"
      "0123456789abcdef0123456789abcdef" "hello" (state 0) = (Ok sc, s1) /\
    writes [] = Some (Ok written, (t1, EmptyString)) /\ sc_block_sizes sc = bw_block_sizes written.
Proof.
  eexists _, _, _, _. split; [vm_compute; reflexivity|]. split; [vm_compute; reflexivity|].
  eapply (small_upload_as_blocks (Pub := string) (R := string) permitting (fun l => [l]) (@List.rev _) 20 20 draft
    "node" "ck" "bob" "0123456789abcdef0123456789abcdef" None "hello" (state 0)).
  - intros l. simpl. by rewrite app_nil_r.
  - intros l. symmetry. apply Permutation_rev.
  - reflexivity.
  - vm_compute. reflexivity.
  - reflexivity.
  - vm_compute. reflexivity.
  Unshelve. exact (state 0).
Defined.
End ToyUpload.
