(* ===== verification/Photos.v ===== *)
(** * The Drive client: photos

    From [crates/proton-drive-rs/src/client.rs] and [photos.rs]: the timeline,
    duplicates and name collisions, albums, bringing photos into an album or
    into the timeline, and tags.  The nodes of the photos volume are under
    [Nodes], downloads under [Downloads], uploads under [Drafts].

    [Transfers] is the queue of a transfer with the building of a payload and the
    three requests as arguments; [Photos] runs it on the state of [Drive].  The
    requests are [PhotosApi]. *)

From S2P Require Import Prelude Errors Config Keys Sealing Http Transport Revision Node Names.
From S2P Require Import EntityCache Upload Links Moves LinkCrypto Account PublicLink Drive Nodes Actions Drafts.

(** ** Wire records ([dtos.rs]) *)

Record TimelinePhotoDto := {
  tm_id : LinkId;
  tm_capture_time : Z;
  tm_name_hash : option string;
  tm_content_hash : option string
}.

Record FoundPhotoDuplicateDto := {
  fd_name_hash : string;
  fd_content_hash : string;
  fd_link_state : option Z;
  fd_client_uid : option string;
  fd_link_id : option LinkId
}.

Record AlbumListResponse := {
  ll_albums : list LinkId;
  ll_more : bool;
  ll_anchor_id : option LinkId
}.
Record AlbumItemDto := { li_id : LinkId; li_capture_time : Z }.
Record AlbumItemListResponse := {
  lp_photos : list AlbumItemDto;
  lp_more : bool;
  lp_anchor_id : option LinkId
}.
Record SharedAlbumDto := { sl_volume_id : VolumeId; sl_link_id : LinkId }.
Record SharedAlbumsResponse := {
  sa_albums : list SharedAlbumDto;
  sa_more : bool;
  sa_anchor_id : option LinkId
}.

Record AlbumCreationLink := {
  ac_name : string;
  ac_name_hash : string;
  ac_key : string;
  ac_passphrase : string;
  ac_passphrase_signature : string;
  ac_signature_email : string;
  ac_node_hash_key : string;
  ac_extended_attributes : option string
}.
Record AlbumCreationRequest := { ac_locked : bool; ac_link : AlbumCreationLink }.

Record AlbumUpdateLink := {
  au_name : string;
  au_name_hash : string;
  au_original_hash : string;
  au_name_signature_email : string
}.
Record AlbumUpdateRequest := { au_cover_link_id : option LinkId; au_link : option AlbumUpdateLink }.

Record AddPhotoToAlbumEntry := {
  ae_link_id : LinkId;
  ae_name_hash : string;
  ae_name : string;
  ae_name_signature_email : string;
  ae_passphrase : string;
  ae_content_hash : string
}.

Record PhotoLinkOutcome := {
  po_link_id : LinkId;
  po_code : Z;
  po_error : option string;
  (** [Details.Missing] *)
  po_details_missing : option (list LinkId)
}.

Record TransferPhotoLinkItem := {
  ti_link_id : LinkId;
  ti_name_hash : string;
  ti_original_name_hash : string;
  ti_name : string;
  ti_passphrase : string;
  ti_content_hash : string;
  ti_passphrase_signature : option string
}.
Record TransferPhotosRequest := {
  tq_parent_link_id : LinkId;
  tq_links : list TransferPhotoLinkItem;
  tq_name_signature_email : string;
  tq_signature_email : option string
}.

Record CopyPhotoRelatedItem := {
  cr_link_id : LinkId;
  cr_name_hash : string;
  cr_name : string;
  cr_passphrase : string;
  cr_content_hash : string
}.
Record CopyPhotoContent := { cc_content_hash : string; cc_related_photos : list CopyPhotoRelatedItem }.
Record CopyPhotoRequest := {
  cp_target_volume_id : VolumeId;
  cp_target_parent_link_id : LinkId;
  cp_name_hash : string;
  cp_name : string;
  cp_name_signature_email : string;
  cp_passphrase : string;
  cp_passphrase_signature : option string;
  cp_signature_email : option string;
  cp_photos : CopyPhotoContent
}.

(** ** The model ([photos.rs], [client.rs]) *)

Record PhotosTimelineItem := { pl_uid : NodeUid; pl_capture_time : Z }.
Record AlbumItem := { ai_uid : NodeUid; ai_capture_time : Z }.

Record PhotoTagsUpdate := {
  up_node_uid : NodeUid;
  up_tags_to_add : list PhotoTag;
  up_tags_to_remove : list PhotoTag
}.

#[export] Instance PhotoTag_eq_dec : EqDecision PhotoTag.
Proof. solve_decision. Defined.

Inductive PhotoTransferKind := Timeline | Album.

Record PhotoTransferTarget (Key : Type) := {
  pt_uid : NodeUid;
  pt_kind : PhotoTransferKind;
  pt_key : Key;
  pt_hash_key : string;
  pt_email : string;
  pt_signing_key : Key
}.
Arguments pt_uid {Key}. Arguments pt_kind {Key}. Arguments pt_key {Key}.
Arguments pt_hash_key {Key}. Arguments pt_email {Key}. Arguments pt_signing_key {Key}.

(** Related payloads have none of their own: [photo_target_payload] builds them. *)
Record PhotoPayload := {
  py_uid : NodeUid;
  py_parent_uid : option NodeUid;
  py_original_name_hash : option string;
  py_name_hash : string;
  py_name : string;
  py_name_signature_email : string;
  py_passphrase : string;
  py_content_hash : string
}.
Record PhotoTargetPayload := { py_photo : PhotoPayload; py_related : list PhotoPayload }.

Definition TIMELINE_PAGE_SIZE : nat := 500.
Definition DUPLICATE_BATCH : nat := 150.
Definition REMOVE_BATCH : nat := 10.
Definition LOAD_BATCH : nat := 20.
Definition MAX_LINKS_PER_TRANSFER : nat := 10.
Definition ACTIVE_LINK_STATE : Z := 1.
Definition SUCCESS_CODE : Z := 1000.

(** ** ASCII case ([str::to_ascii_lowercase], [str::eq_ignore_ascii_case]) *)

Definition ascii_lower (a : ascii) : ascii :=
  let n := N_of_ascii a in if ((65 <=? n) && (n <=? 90))%N then ascii_of_N (n + 32) else a.

Fixpoint to_ascii_lowercase (s : string) : string :=
  match s with EmptyString => EmptyString | String a s => String (ascii_lower a) (to_ascii_lowercase s) end.

Definition eq_ignore_ascii_case (a b : string) : bool :=
  String.eqb (to_ascii_lowercase a) (to_ascii_lowercase b).

(** ** Wire conversions *)

Definition album_entry (payload : PhotoPayload) : AddPhotoToAlbumEntry :=
  {| ae_link_id := link_id (py_uid payload); ae_name_hash := py_name_hash payload;
     ae_name := py_name payload; ae_name_signature_email := py_name_signature_email payload;
     ae_passphrase := py_passphrase payload; ae_content_hash := py_content_hash payload |}.

Definition transfer_link_item (payload : PhotoPayload) : option TransferPhotoLinkItem :=
  (fun original_name_hash => {| ti_link_id := link_id (py_uid payload); ti_name_hash := py_name_hash payload;
          ti_original_name_hash := original_name_hash; ti_name := py_name payload;
          ti_passphrase := py_passphrase payload; ti_content_hash := py_content_hash payload;
          ti_passphrase_signature := None |}) <$> py_original_name_hash payload.

(** The main photo, then the related ones. *)
Definition group (payload : PhotoTargetPayload) : list PhotoPayload := py_photo payload :: py_related payload.

Definition named_links (key : string) (error : ProtonApiError) (volume_id_ : VolumeId) : list NodeUid :=
  let links : option (list json) := details ← pe_details error; v ← Json.get key details; Json.as_array v in
  NodeUid_new volume_id_ <$> omap Json.as_str (default [] links).

Definition photos_only_in_album : ProtonApiError -> VolumeId -> list NodeUid := named_links "ChildLinkIDs".
Definition missing_related_links : ProtonApiError -> VolumeId -> list NodeUid := named_links "Missing".

Definition missing_related_photos_error (missing : list NodeUid) : ProtonError :=
  invalid_operation ("server wants related photos sent with it: "
    +:+ Str.join ", " (NodeUid_display <$> missing)).

(** ** The queue of a transfer *)

Record TransferRun := {
  tr_queue : list (NodeUid * list NodeUid);
  tr_retried : gset NodeUid;
  tr_outcomes : list Outcome
}.

Definition push_transfer_outcome (o : Outcome) (run : TransferRun) : TransferRun :=
  {| tr_queue := tr_queue run; tr_retried := tr_retried run; tr_outcomes := tr_outcomes run ++ [o] |}.

Definition pop_transfer (run : TransferRun) : TransferRun :=
  {| tr_queue := tail (tr_queue run); tr_retried := tr_retried run; tr_outcomes := tr_outcomes run |}.

Definition record_transfer_outcome (uid : NodeUid) (failure : option (list NodeUid * ProtonError))
    (run : TransferRun) : TransferRun :=
  match failure with
  | None => push_transfer_outcome (uid, Ok tt) run
  | Some (missing, error) =>
      if negb (bool_decide (missing = [])) && bool_decide (uid ∉ tr_retried run)
      then {| tr_queue := tr_queue run ++ [(uid, missing)];
              tr_retried := {[uid]} ∪ tr_retried run; tr_outcomes := tr_outcomes run |}
      else push_transfer_outcome (uid, Err error) run
  end.

(** What the server reports of a link; [None] for a success. *)
Definition link_failure (volume_id_ : VolumeId) (outcome : PhotoLinkOutcome)
  : option (list NodeUid * ProtonError) :=
  if (po_code outcome =? SUCCESS_CODE) && bool_decide (po_error outcome = None) then None
  else
    let missing := NodeUid_new volume_id_ <$> default [] (po_details_missing outcome) in
    Some (missing,
          match missing with
          | [] => invalid_operation
                    (default ("transfer failed with code " +:+ pretty (po_code outcome)) (po_error outcome))
          | _ => missing_related_photos_error missing
          end).

Definition transfer_failures (volume_id_ : VolumeId) (responses : list PhotoLinkOutcome)
  : gmap LinkId (list NodeUid * ProtonError) :=
  foldl (fun failures outcome =>
    match link_failure volume_id_ outcome with
    | Some failure => <[po_link_id outcome := failure]> failures
    | None => failures
    end) ∅ responses.

(** The [for] over the main photos sent; a failure is taken once. *)
Fixpoint record_each (failures : gmap LinkId (list NodeUid * ProtonError))
    (sent : list PhotoTargetPayload) (run : TransferRun) : TransferRun :=
  match sent with
  | [] => run
  | payload :: sent =>
      let uid := py_uid (py_photo payload) in
      record_each (delete (link_id uid) failures) sent
        (record_transfer_outcome uid (failures !! link_id uid) run)
  end.

Definition record_transfer_outcomes (volume_id_ : VolumeId) (responses : list PhotoLinkOutcome)
    (sent : list PhotoTargetPayload) (run : TransferRun) : TransferRun :=
  record_each (transfer_failures volume_id_ responses) sent run.

(** The groups that can be moved, and the links of their photos; a group with a
    photo whose link has no name hash cannot. *)
Fixpoint transfer_links (payloads sent : list PhotoTargetPayload) (links : list TransferPhotoLinkItem)
    (run : TransferRun) : list PhotoTargetPayload * list TransferPhotoLinkItem * TransferRun :=
  match payloads with
  | [] => (sent, links, run)
  | payload :: payloads =>
      match mapM transfer_link_item (group payload) with
      | Some items => transfer_links payloads (sent ++ [payload]) (links ++ items) run
      | None =>
          let uid := py_uid (py_photo payload) in
          transfer_links payloads sent links
            (push_transfer_outcome (uid, Err (invalid_operation ("photo " +:+ NodeUid_display uid
               +:+ " has no name hash on its current parent; it cannot be moved"))) run)
      end
  end.

Definition copy_photo_request {Key} (target : PhotoTransferTarget Key) (payload : PhotoTargetPayload)
  : CopyPhotoRequest :=
  let photo := py_photo payload in
  {| cp_target_volume_id := volume_id (pt_uid target); cp_target_parent_link_id := link_id (pt_uid target);
     cp_name_hash := py_name_hash photo; cp_name := py_name photo;
     cp_name_signature_email := py_name_signature_email photo; cp_passphrase := py_passphrase photo;
     cp_passphrase_signature := None; cp_signature_email := None;
     cp_photos := {| cc_content_hash := py_content_hash photo;
       cc_related_photos := (fun related =>
         {| cr_link_id := link_id (py_uid related); cr_name_hash := py_name_hash related;
            cr_name := py_name related; cr_passphrase := py_passphrase related;
            cr_content_hash := py_content_hash related |}) <$> py_related payload |} |}.

Section Transfers.
Context {S Key : Type}.
Context (transfer_photo_payload : NodeUid -> list NodeUid -> FM S PhotoTargetPayload ProtonError).
Context (put_transfer : string -> TransferPhotosRequest -> M S (list PhotoLinkOutcome) ProtonError).
Context (post_add_photos : string -> list AddPhotoToAlbumEntry -> M S (list PhotoLinkOutcome) ProtonError).
Context (post_photo_copy : string -> CopyPhotoRequest -> M S CopyLinkResponse ProtonError).
Context (target : PhotoTransferTarget Key).

Definition transfer_photo_batch (payloads : list PhotoTargetPayload) (run : TransferRun)
  : M S TransferRun ProtonError :=
  match pt_kind target with
  | Timeline =>
      let '(sent, links, run) := transfer_links payloads [] [] run in
      match links with
      | [] => mret run
      | _ =>
          let* responses := put_transfer
            ("photos/volumes/" +:+ volume_id (pt_uid target) +:+ "/links/transfer-multiple")
            {| tq_parent_link_id := link_id (pt_uid target); tq_links := links;
               tq_name_signature_email := pt_email target; tq_signature_email := None |} in
          mret (record_transfer_outcomes (volume_id (pt_uid target)) responses sent run)
      end
  | Album =>
      let* responses := post_add_photos
        ("photos/volumes/" +:+ volume_id (pt_uid target) +:+ "/albums/" +:+ link_id (pt_uid target)
          +:+ "/add-multiple")
        (album_entry <$> concat (group <$> payloads)) in
      mret (record_transfer_outcomes (volume_id (pt_uid target)) responses payloads run)
  end.

Definition copy_photo_to_target (payload : PhotoTargetPayload) (run : TransferRun)
  : M S TransferRun ProtonError :=
  let uid := py_uid (py_photo payload) in
  let* response := mtry (post_photo_copy ("volumes/" +:+ volume_id uid +:+ "/links/" +:+ link_id uid +:+ "/copy")
                           (copy_photo_request target payload)) in
  mret (record_transfer_outcome uid
    match response with
    | Ok _ => None
    | Err (Api error) =>
        let missing := missing_related_links error (volume_id uid) in
        Some (missing, match missing with [] => Api error | _ => missing_related_photos_error missing end)
    | Err error => Some ([], error)
    end run).

(** The [for] over [0..LOAD_BATCH]: same-volume and cross-volume payloads. *)
Fixpoint load_payloads (room : nat) (same_volume cross_volume : list PhotoTargetPayload) (run : TransferRun)
  : FM S (list PhotoTargetPayload * list PhotoTargetPayload * TransferRun) ProtonError :=
  match room, tr_queue run with
  | Datatypes.S room, (uid, extra_related) :: _ =>
      let run := pop_transfer run in
      let+ built := ftry (transfer_photo_payload uid extra_related) in
      match built with
      | Ok payload =>
          if String.eqb (volume_id (py_uid (py_photo payload))) (volume_id (pt_uid target))
          then load_payloads room (same_volume ++ [payload]) cross_volume run
          else load_payloads room same_volume (cross_volume ++ [payload]) run
      | Err error => load_payloads room same_volume cross_volume (push_transfer_outcome (uid, Err error) run)
      end
  | _, _ => fret (same_volume, cross_volume, run)
  end.

(** A batch closes before the group that would overflow it. *)
Fixpoint send_batches (payloads batch : list PhotoTargetPayload) (links : nat) (run : TransferRun)
  : M S TransferRun ProtonError :=
  match payloads with
  | [] => match batch with [] => mret run | _ => transfer_photo_batch batch run end
  | payload :: payloads =>
      let count := Datatypes.S (length (py_related payload)) in
      if negb (bool_decide (batch = [])) && (MAX_LINKS_PER_TRANSFER <? links + count)%nat
      then
        let* run := transfer_photo_batch batch run in
        send_batches payloads [payload] count run
      else send_batches payloads (batch ++ [payload]) (links + count) run
  end.

Fixpoint copy_each (payloads : list PhotoTargetPayload) (run : TransferRun) : M S TransferRun ProtonError :=
  match payloads with
  | [] => mret run
  | payload :: payloads =>
      let* run := copy_photo_to_target payload run in
      copy_each payloads run
  end.

(** The [while]; the fuel bounds its rounds. *)
Fixpoint transfer_rounds (fuel : nat) (run : TransferRun) : FM S (list Outcome) ProtonError :=
  match tr_queue run with
  | [] => fret (tr_outcomes run)
  | _ =>
      match fuel with
      | O => fun _ => None
      | Datatypes.S fuel =>
          let+ (same_volume, cross_volume, run) := load_payloads LOAD_BATCH [] [] run in
          let+ run := flift (send_batches same_volume [] 0 run) in
          let+ run := flift (copy_each cross_volume run) in
          transfer_rounds fuel run
      end
  end.

Definition transfer_photos (fuel : nat) (photo_uids : list NodeUid) : FM S (list Outcome) ProtonError :=
  transfer_rounds fuel
    {| tr_queue := (fun uid => (uid, [])) <$> photo_uids; tr_retried := ∅; tr_outcomes := [] |}.
End Transfers.

(** The first position of each photo. *)
Definition positions_of (photo_uids : list NodeUid) : gmap NodeUid nat :=
  foldr (fun p m => <[p.2 := p.1]> m) ∅ (imap pair photo_uids).

(** The outcomes in the order of the input. *)
Definition in_input_order (photo_uids : list NodeUid) (outcomes : list Outcome) : list Outcome :=
  sort_by_key (fun o => match positions_of photo_uids !! o.1 with
                        | Some index => Z.of_nat index
                        | None => 2 ^ 64 - 1
                        end) outcomes.

(** ** The requests *)

Class PhotosApi (W : Type) := {
  get_timeline : string -> M W (list TimelinePhotoDto) ProtonError;
  (** [FindPhotoDuplicatesRequest] of name hashes *)
  post_duplicates : string -> list string -> M W (list FoundPhotoDuplicateDto) ProtonError;
  post_album : string -> AlbumCreationRequest -> M W LinkId ProtonError;
  put_album : string -> AlbumUpdateRequest -> M W unit ProtonError;
  post_remove_photos : string -> list LinkId -> M W unit ProtonError;
  put_transfer_photos : string -> TransferPhotosRequest -> M W (list PhotoLinkOutcome) ProtonError;
  post_album_photos : string -> list AddPhotoToAlbumEntry -> M W (list PhotoLinkOutcome) ProtonError;
  post_copy_photo : string -> CopyPhotoRequest -> M W CopyLinkResponse ProtonError;
  get_albums : string -> M W AlbumListResponse ProtonError;
  get_album_items : string -> M W AlbumItemListResponse ProtonError;
  get_shared_albums : string -> M W SharedAlbumsResponse ProtonError;
  post_favorite : string -> M W unit ProtonError;
  post_tags : string -> list Z -> M W unit ProtonError;
  delete_tags : string -> list Z -> M W unit ProtonError
}.

(** ** Duplicates *)

(** Each input's positions under its name hash, and the distinct hashes in order. *)
Fixpoint index_names (hash : string -> string) (index : nat) (names : list string)
    (positions : gmap string (list nat)) (name_hashes : list string)
  : gmap string (list nat) * list string :=
  match names with
  | [] => (positions, name_hashes)
  | name :: names =>
      let name_hash := hash name in
      match positions !! name_hash with
      | Some indices => index_names hash (Datatypes.S index) names
                          (<[name_hash := indices ++ [index]]> positions) name_hashes
      | None => index_names hash (Datatypes.S index) names
                  (<[name_hash := [index]]> positions) (name_hashes ++ [name_hash])
      end
  end.

(** The link of an active photo with both hashes. *)
Definition duplicate_link (duplicate : FoundPhotoDuplicateDto) : option LinkId :=
  match fd_link_id duplicate with
  | Some link_id_ =>
      if bool_decide (fd_link_state duplicate = Some ACTIVE_LINK_STATE)
         && negb (Str.is_empty (fd_name_hash duplicate)) && negb (Str.is_empty (fd_content_hash duplicate))
      then Some link_id_ else None
  | None => None
  end.

(** One answer of [find_photo_duplicates_many]. *)
Definition match_duplicate (volume_id_ : VolumeId) (positions : gmap string (list nat))
    (content_hashes : list string) (out : list (list NodeUid)) (duplicate : FoundPhotoDuplicateDto)
  : list (list NodeUid) :=
  match duplicate_link duplicate with
  | None => out
  | Some link_id_ =>
      foldl (fun out index =>
        if eq_ignore_ascii_case (fd_content_hash duplicate) (default EmptyString (content_hashes !! index))
        then alter (fun found => found ++ [NodeUid_new volume_id_ link_id_]) index out
        else out) out (default [] (positions !! to_ascii_lowercase (fd_name_hash duplicate)))
  end.

(** One answer of [photo_name_collisions]. *)
Definition match_collision (positions : gmap string (list nat)) (out : list bool)
    (duplicate : FoundPhotoDuplicateDto) : list bool :=
  if bool_decide (fd_link_id duplicate = None)
     || negb (bool_decide (fd_link_state duplicate = Some ACTIVE_LINK_STATE))
  then out
  else foldl (fun out index => <[index := true]> out) out
         (default [] (positions !! to_ascii_lowercase (fd_name_hash duplicate))).

Section Photos.
Context {W Key Pub Sig CKey FK CS : Type} `{KeyOps Key} `{PassphraseOps} `{SealOps W Key}
        `{SignatureOps Key Pub Sig} `{!VerifyOps Key Pub} `{!ContentOps Key CKey}
        `{!ContentKeyExport CKey} `{AttributeOps} `{!MoveCrypto W Key} `{AttributeWriter}
        `{DriveApi W} `{!NodeApi W} `{!ActionApi W} `{!PhotosApi W}
        `{!AccountKeys W Key Pub} `{!AccountAddresses W}
        `{!DriveEntities W} `{NameOps} `{!Lru FK NodeUid Key} `{!Lru CS NodeUid ShareId}.

Abbreviation State := (DriveState W Key FK CS).
Abbreviation Call A := (M State A ProtonError).
Abbreviation Run A := (FM State A ProtonError).

Abbreviation photos_node := (get_photos_node (Sig := Sig) (CKey := CKey)).

Definition cached_photos_root : Call NodeUid :=
  let* c := drive_cache in
  expect (dc_photos_root c) "ensure_photos populated the photos root".

(** The root, or [absent] for an account without a photos volume. *)
Definition existing_photos_root (absent : string) : Call NodeUid :=
  let* exists_ := ensure_photos in
  if negb exists_ then mfail (invalid_operation absent) else cached_photos_root.

Definition root_keys (fuel : nat) (root : NodeUid) : Run (Key * string) :=
  let+ root_key := drive_folder_node_key fuel root in
  let+ hash_key := flift (parent_hash_key_ctx drive_post_links root root_key true) in
  fret (root_key, hash_key).

(** *** The timeline *)

Fixpoint timeline_pages (fuel : nat) (volume_id_ : VolumeId) (items : list PhotosTimelineItem)
    (anchor : option LinkId) : Run (list PhotosTimelineItem) :=
  match fuel with
  | O => fun _ => None
  | Datatypes.S fuel =>
      let path := "volumes/" +:+ volume_id_ +:+ "/photos" +:+
                  match anchor with Some id => "?PreviousPageLastLinkID=" +:+ id | None => EmptyString end in
      let+ photos := flift (on_world (get_timeline path)) in
      let items := items ++ ((fun photo => {| pl_uid := NodeUid_new volume_id_ (tm_id photo);
                                              pl_capture_time := tm_capture_time photo |}) <$> photos) in
      if Nat.eqb (length photos) TIMELINE_PAGE_SIZE then
        match last photos with
        | Some photo => timeline_pages fuel volume_id_ items (Some (tm_id photo))
        | None => fret items
        end
      else fret items
  end.

Definition enumerate_photos_timeline (fuel : nat) : Run (list PhotosTimelineItem) :=
  let+ exists_ := flift ensure_photos in
  if negb exists_ then fret []
  else
    let+ root := flift cached_photos_root in
    timeline_pages fuel (volume_id root) [] None.

(** *** Duplicates *)

Definition duplicates_path (root : NodeUid) : string := "volumes/" +:+ volume_id root +:+ "/photos/duplicates".

Definition find_photo_duplicates (fuel : nat) (name contents : string) : Run (list NodeUid) :=
  let+ root := flift (existing_photos_root "account has no photos volume") in
  let+ (_, hash_key) := root_keys fuel root in
  let name_hash := hex_hmac_sha256 hash_key name in
  let+ found := flift (on_world (post_duplicates (duplicates_path root) [name_hash])) in
  let content_hash := hex_hmac_sha256 hash_key (sha1_hex_digest contents) in
  fret (omap (fun duplicate =>
    link_id_ ← duplicate_link duplicate;
    if eq_ignore_ascii_case (fd_name_hash duplicate) name_hash
       && eq_ignore_ascii_case (fd_content_hash duplicate) content_hash
    then Some (NodeUid_new (volume_id root) link_id_) else None) found).

Fixpoint ask_duplicates {A} (root : NodeUid) (settle : A -> FoundPhotoDuplicateDto -> A)
    (batches : list (list string)) (out : A) : Call A :=
  match batches with
  | [] => mret out
  | batch :: batches =>
      let* found := on_world (post_duplicates (duplicates_path root) batch) in
      ask_duplicates root settle batches (foldl settle out found)
  end.

Definition find_photo_duplicates_many (fuel : nat) (items : list (string * string))
  : Run (list (list NodeUid)) :=
  let out := (fun _ => []) <$> items in
  if bool_decide (items = []) then fret out
  else
    let+ root := flift (existing_photos_root "account has no photos volume") in
    let+ (_, hash_key) := root_keys fuel root in
    let (positions, name_hashes) := index_names (hex_hmac_sha256 hash_key) 0 (fst <$> items) ∅ [] in
    let content_hashes := (fun i => hex_hmac_sha256 hash_key (to_ascii_lowercase i.2)) <$> items in
    flift (ask_duplicates root (match_duplicate (volume_id root) positions content_hashes)
             (chunks DUPLICATE_BATCH name_hashes) out).

Definition photo_name_collisions (fuel : nat) (names : list string) : Run (list bool) :=
  let out := (fun _ => false) <$> names in
  if bool_decide (names = []) then fret out
  else
    let+ root := flift (existing_photos_root "account has no photos volume") in
    let+ (_, hash_key) := root_keys fuel root in
    let (positions, name_hashes) := index_names (hex_hmac_sha256 hash_key) 0 names ∅ [] in
    flift (ask_duplicates root (match_collision positions) (chunks DUPLICATE_BATCH name_hashes) out).

(** *** Albums *)

Definition seal_album (root_key : Key) (root_hash_key email : string) (signing_key : Key) (name : string)
  : Call AlbumCreationRequest :=
  let* node := on_seal generate_node_key in
  let* node_hash_key := on_seal (generate_node_hash_key (gk_key node)) in
  let* sealed_name := on_seal (key_encrypt_and_sign root_key signing_key name true false) in
  let* passphrase := on_seal (key_encrypt root_key (gk_passphrase node)) in
  let* passphrase_signature := on_seal (key_sign_detached signing_key (gk_passphrase node)) in
  mret {| ac_locked := false;
          ac_link := {| ac_name := sealed_name; ac_name_hash := hex_hmac_sha256 root_hash_key name;
                        ac_key := gk_locked_armored node; ac_passphrase := passphrase;
                        ac_passphrase_signature := passphrase_signature; ac_signature_email := email;
                        ac_node_hash_key := node_hash_key; ac_extended_attributes := None |} |}.

Definition create_album (fuel : nat) (name : string) : Run NodeUid :=
  let+ _ := flift (mlift (validate_node_name name)) in
  let+ root := flift (existing_photos_root "account has no photos volume") in
  let+ (root_key, root_hash_key) := root_keys fuel root in
  let+ (_, email, signing_key) := flift photos_membership_address in
  let+ request := flift (seal_album root_key root_hash_key email signing_key name) in
  let+ link := flift (on_world (post_album ("photos/volumes/" +:+ volume_id root +:+ "/albums") request)) in
  fret (NodeUid_new (volume_id root) link).

Definition album_path (album_uid : NodeUid) : string :=
  "photos/volumes/" +:+ volume_id album_uid +:+ "/albums/" +:+ link_id album_uid.

Definition rename_album (fuel : nat) (album_uid : NodeUid) (name : string) : Run unit :=
  let+ _ := flift (mlift (validate_node_name name)) in
  let+ details := flift (get_link_details_ctx drive_post_links (volume_id album_uid) [link_id album_uid] true) in
  let+ detail := flift (mlift (ok_or (head (lr_links details))
    (invalid_operation ("album " +:+ NodeUid_display album_uid +:+ " not found")))) in
  let link := ld_link detail in
  let+ parent_id := flift (mlift (ok_or (ln_parent_id link) (invalid_operation "an album has a parent"))) in
  let parent_uid := NodeUid_new (volume_id album_uid) parent_id in
  let+ (parent_key, parent_hash_key) := root_keys fuel parent_uid in
  let+ (_, email, signing_key) := flift photos_membership_address in
  let+ original_hash := flift (Nodes.original_name_hash album_uid link parent_key parent_hash_key) in
  let+ sealed_name := flift (on_seal (key_encrypt_and_sign parent_key signing_key name true false)) in
  flift (on_world (put_album (album_path album_uid)
    {| au_cover_link_id := None;
       au_link := Some {| au_name := sealed_name; au_name_hash := hex_hmac_sha256 parent_hash_key name;
                          au_original_hash := original_hash; au_name_signature_email := email |} |})).

Definition set_album_cover (album_uid cover_uid : NodeUid) : Call unit :=
  if negb (String.eqb (volume_id cover_uid) (volume_id album_uid))
  then mfail (invalid_operation "the cover photo must be on the same volume as the album")
  else on_world (put_album (album_path album_uid)
         {| au_cover_link_id := Some (link_id cover_uid); au_link := None |}).

Definition delete_album (album_uid : NodeUid) (delete_photos : bool) : Call unit :=
  on_world (delete_at (album_path album_uid +:+ "?DeleteAlbumPhotos=" +:+ if delete_photos then "1" else "0")).

(** The photos that can be sent, by position; the others failed already. *)
Definition refused_photos (album_uid : NodeUid) (photo_uids : list NodeUid) : list (option (Res unit)) :=
  (fun uid => if negb (String.eqb (volume_id uid) (volume_id album_uid))
              then Some (Err (invalid_operation "the photo must be on the same volume as the album"))
              else None) <$> photo_uids.

Definition positions_none {A} (results : list (option A)) : list nat :=
  omap (fun p : nat * option A => match p.2 with None => Some p.1 | Some _ => None end) (imap pair results).

Fixpoint remove_batches (path : string) (photo_uids : list NodeUid) (batches : list (list nat))
    (results : list (option (Res unit))) : Call (list (option (Res unit))) :=
  match batches with
  | [] => mret results
  | batch :: batches =>
      let* result := mtry (on_world (post_remove_photos path
        (omap (fun index => link_id <$> photo_uids !! index) batch))) in
      let outcome : Res unit := match result with
                                | Ok _ => Ok tt
                                | Err error => Err (invalid_operation (ProtonError_display error))
                                end in
      remove_batches path photo_uids batches
        (foldl (fun results index => <[index := Some outcome]> results) results batch)
  end.

Definition remove_photos_from_album (album_uid : NodeUid) (photo_uids : list NodeUid) : Call (list Outcome) :=
  let results := refused_photos album_uid photo_uids in
  let* results := remove_batches (album_path album_uid +:+ "/remove-multiple") photo_uids
                    (chunks REMOVE_BATCH (positions_none results)) results in
  mret (zip_with (fun uid result =>
    (uid, default (Err (panicked "every photo is either refused or sent")) result)) photo_uids results).

(** *** Transfers *)

Definition photo_target_payload (fuel : nat) (uid : NodeUid) (target_key : Key)
    (target_hash_key email : string) (signing_key : Key) : Run PhotoPayload :=
  let not_found := invalid_operation ("photo " +:+ NodeUid_display uid +:+ " not found") in
  let+ found := photos_node fuel uid in
  let+ node := flift (mlift (ok_or found not_found)) in
  let+ content_sha1 := flift (mlift
    match nd_kind node with
    | Node.Folder => Err (invalid_operation (NodeUid_display uid +:+ " is not a photo file"))
    | Node.File data => Ok (fd_content_sha1 data)
    end) in
  let+ sha1 := flift (mlift (ok_or content_sha1 (invalid_operation ("photo " +:+ NodeUid_display uid
    +:+ " has no content digest; it cannot be re-encrypted for another node")))) in
  let+ details := flift (get_link_details_ctx drive_post_links (volume_id uid) [link_id uid] true) in
  let+ detail := flift (mlift (ok_or (head (lr_links details)) not_found)) in
  let link := ld_link detail in
  let+ parent_key := drive_resolve_parent_key_ctx fuel (volume_id uid) link true in
  let+ passphrase := flift (on_seal (rewrap_message_to parent_key (ln_passphrase link) target_key)) in
  let+ name := flift (on_seal (key_encrypt_and_sign target_key signing_key (nd_name node) true false)) in
  fret {| py_uid := uid; py_parent_uid := NodeUid_new (volume_id uid) <$> ln_parent_id link;
          py_original_name_hash := ln_name_hash link;
          py_name_hash := hex_hmac_sha256 target_hash_key (nd_name node); py_name := name;
          py_name_signature_email := email; py_passphrase := passphrase;
          py_content_hash := hex_hmac_sha256 target_hash_key (to_ascii_lowercase sha1) |}.

(** The related photos that can be built. *)
Fixpoint related_payloads (build : NodeUid -> Run PhotoPayload) (related : list NodeUid)
    (payloads : list PhotoPayload) : Run (list PhotoPayload) :=
  match related with
  | [] => fret payloads
  | uid :: related =>
      let+ built := ftry (build uid) in
      related_payloads build related (payloads ++ match built with Ok p => [p] | Err _ => [] end)
  end.

(** What the photo declares, then what the server asked for besides. *)
Definition merge_related (declared extra : list NodeUid) : list NodeUid :=
  foldl (fun related uid => if bool_decide (uid ∈ related) then related else related ++ [uid]) declared extra.

Definition transfer_photo_payload (fuel : nat) (target : PhotoTransferTarget Key) (uid : NodeUid)
    (extra_related : list NodeUid) : Run PhotoTargetPayload :=
  let build uid := photo_target_payload fuel uid (pt_key target) (pt_hash_key target) (pt_email target)
                     (pt_signing_key target) in
  let+ photo := build uid in
  let+ _ := flift (mlift (if bool_decide (py_parent_uid photo = Some (pt_uid target))
    then Err (invalid_operation ("photo " +:+ NodeUid_display uid +:+ " is already in the timeline"))
    else Ok tt)) in
  let+ found := photos_node fuel uid in
  let+ node := flift (mlift (ok_or found
    (invalid_operation ("photo " +:+ NodeUid_display uid +:+ " not found")))) in
  let declared := default [] (pp_related_photo_uids <$> nd_photo node) in
  let+ related := related_payloads build (merge_related declared extra_related) [] in
  fret {| py_photo := photo; py_related := related |}.

Definition transfer_photos_to (fuel : nat) (target : PhotoTransferTarget Key) (photo_uids : list NodeUid)
  : Run (list Outcome) :=
  transfer_photos (transfer_photo_payload fuel target)
    (fun path q => on_world (put_transfer_photos path q)) (fun path l => on_world (post_album_photos path l))
    (fun path q => on_world (post_copy_photo path q)) target (2 * length photo_uids) photo_uids.

Definition add_photos_to_album (fuel : nat) (album_uid : NodeUid) (photo_uids : list NodeUid)
  : Run (list Outcome) :=
  if bool_decide (photo_uids = []) then fret []
  else
    let+ (key, hash_key) := root_keys fuel album_uid in
    let+ (_, email, signing_key) := flift photos_membership_address in
    let target := {| pt_uid := album_uid; pt_kind := Album; pt_key := key; pt_hash_key := hash_key;
                     pt_email := email; pt_signing_key := signing_key |} in
    let+ outcomes := transfer_photos_to fuel target photo_uids in
    fret (in_input_order photo_uids outcomes).

Definition save_photos_to_timeline (fuel : nat) (photo_uids : list NodeUid) : Run (list Outcome) :=
  if bool_decide (photo_uids = []) then fret []
  else
    let+ root := flift (existing_photos_root "this account has no photos volume to save photos to") in
    let+ (key, hash_key) := root_keys fuel root in
    let+ (_, email, signing_key) := flift photos_membership_address in
    transfer_photos_to fuel {| pt_uid := root; pt_kind := Timeline; pt_key := key; pt_hash_key := hash_key;
                               pt_email := email; pt_signing_key := signing_key |} photo_uids.

(** The first failure, if any. *)
Fixpoint first_failure (outcomes : list Outcome) : Res unit :=
  match outcomes with
  | [] => Ok tt
  | (_, Ok _) :: outcomes => first_failure outcomes
  | (_, Err e) :: _ => Err e
  end.

Definition delete_album_saving_photos (fuel : nat) (album_uid : NodeUid) : Run unit :=
  let+ deleted := flift (mtry (delete_album album_uid false)) in
  match deleted with
  | Ok _ => fret tt
  | Err (Api error) =>
      if bool_decide (pe_code error = ResponseCode.AlbumContainsPhotosNotInTimeline) then
        match photos_only_in_album error (volume_id album_uid) with
        | [] => flift (mfail (Api error))
        | photos =>
            let+ outcomes := save_photos_to_timeline fuel photos in
            let+ _ := flift (mlift (first_failure outcomes)) in
            flift (delete_album album_uid false)
        end
      else flift (mfail (Api error))
  | Err error => flift (mfail error)
  end.

(** *** Listings *)

Definition next_anchor (more : bool) (anchor : option string) : option string :=
  match anchor with
  | Some id => if more && negb (Str.is_empty id) then Some id else None
  | None => None
  end.

Definition anchored (path separator : string) (anchor : option string) : string :=
  match anchor with Some id => path +:+ separator +:+ "AnchorID=" +:+ id | None => path end.

Fixpoint album_pages (fuel : nat) (volume_id_ : VolumeId) (uids : list NodeUid) (anchor : option LinkId)
  : Run (list NodeUid) :=
  match fuel with
  | O => fun _ => None
  | Datatypes.S fuel =>
      let+ page := flift (on_world (get_albums
        (anchored ("photos/volumes/" +:+ volume_id_ +:+ "/albums") "?" anchor))) in
      let uids := uids ++ (NodeUid_new volume_id_ <$> ll_albums page) in
      match next_anchor (ll_more page) (ll_anchor_id page) with
      | Some anchor => album_pages fuel volume_id_ uids (Some anchor)
      | None => fret uids
      end
  end.

Definition enumerate_album_node_uids (fuel : nat) : Run (list NodeUid) :=
  let+ exists_ := flift ensure_photos in
  if negb exists_ then fret []
  else
    let+ root := flift cached_photos_root in
    album_pages fuel (volume_id root) [] None.

Fixpoint album_item_pages (fuel : nat) (album_uid : NodeUid) (items : list AlbumItem)
    (anchor : option LinkId) : Run (list AlbumItem) :=
  match fuel with
  | O => fun _ => None
  | Datatypes.S fuel =>
      let+ page := flift (on_world (get_album_items
        (anchored (album_path album_uid +:+ "/children?Sort=Captured&Desc=1") "&" anchor))) in
      let items := items ++ ((fun photo => {| ai_uid := NodeUid_new (volume_id album_uid) (li_id photo);
                                              ai_capture_time := li_capture_time photo |}) <$> lp_photos page) in
      match next_anchor (lp_more page) (lp_anchor_id page) with
      | Some anchor => album_item_pages fuel album_uid items (Some anchor)
      | None => fret items
      end
  end.

Definition enumerate_album (fuel : nat) (album_uid : NodeUid) : Run (list AlbumItem) :=
  album_item_pages fuel album_uid [] None.

Fixpoint shared_album_pages (fuel : nat) (uids : list NodeUid) (anchor : option LinkId) : Run (list NodeUid) :=
  match fuel with
  | O => fun _ => None
  | Datatypes.S fuel =>
      let+ page := flift (on_world (get_shared_albums (anchored "photos/albums/shared-with-me" "?" anchor))) in
      let uids := uids ++ ((fun album => NodeUid_new (sl_volume_id album) (sl_link_id album)) <$> sa_albums page) in
      match next_anchor (sa_more page) (sa_anchor_id page) with
      | Some anchor => shared_album_pages fuel uids (Some anchor)
      | None => fret uids
      end
  end.

Definition enumerate_shared_with_me_album_uids (fuel : nat) : Run (list NodeUid) :=
  shared_album_pages fuel [] None.

Definition photos_items (page : SharedWithMeResponse) : list NodeUid :=
  omap (fun link => match ShareTargetType_from_raw (sw_share_target_type link) with
                    | Some t => if is_photos_item t
                                then Some (NodeUid_new (sw_volume_id link) (sw_link_id link)) else None
                    | None => None
                    end) (sw_links page).

Fixpoint shared_photos_pages (fuel : nat) (uids : list NodeUid) (anchor : option string) : Run (list NodeUid) :=
  match fuel with
  | O => fun _ => None
  | Datatypes.S fuel =>
      let+ page := flift (on_world (get_shared_with_me (shared_with_me_path anchor))) in
      let uids := uids ++ photos_items page in
      match next_anchor (sw_more page) (sw_anchor_id page) with
      | Some anchor => shared_photos_pages fuel uids (Some anchor)
      | None => fret uids
      end
  end.

Definition enumerate_photos_shared_with_me_node_uids (fuel : nat) : Run (list NodeUid) :=
  shared_photos_pages fuel [] None.

(** *** Tags *)

Definition photo_link_path (uid : NodeUid) : string :=
  "photos/volumes/" +:+ volume_id uid +:+ "/links/" +:+ link_id uid.

Definition apply_tag_update (own_photos_volume : option VolumeId) (update : PhotoTagsUpdate) : Call unit :=
  let uid := up_node_uid update in
  let* _ :=
    if bool_decide (Favorite ∈ up_tags_to_add update) then
      if bool_decide (own_photos_volume = Some (volume_id uid))
      then on_world (post_favorite (photo_link_path uid +:+ "/favorite"))
      else mfail (invalid_operation
        "favoriting a photo that is not on this account's photos volume is not supported yet")
    else mret tt in
  let tags_to_add := PhotoTag_as_i32 <$> filter (fun tag => tag <> Favorite) (up_tags_to_add update) in
  let* _ := match tags_to_add with
            | [] => mret tt
            | _ => on_world (post_tags (photo_link_path uid +:+ "/tags") tags_to_add)
            end in
  match up_tags_to_remove update with
  | [] => mret tt
  | _ => on_world (delete_tags (photo_link_path uid +:+ "/tags") (PhotoTag_as_i32 <$> up_tags_to_remove update))
  end.

Fixpoint apply_tag_updates (own_photos_volume : option VolumeId) (updates : list PhotoTagsUpdate)
    (outcomes : list Outcome) : Call (list Outcome) :=
  match updates with
  | [] => mret outcomes
  | update :: updates =>
      let* outcome := mtry (apply_tag_update own_photos_volume update) in
      apply_tag_updates own_photos_volume updates (outcomes ++ [(up_node_uid update, outcome)])
  end.

(** [None] when the account has no photos volume. *)
Definition own_photos_volume : Call (option VolumeId) :=
  let* exists_ := ensure_photos in
  if exists_ then
    let* c := drive_cache in
    mret (volume_id <$> dc_photos_root c)
  else mret None.

Definition update_photos (updates : list PhotoTagsUpdate) : Call (list Outcome) :=
  if bool_decide (up_node_uid <$> updates = []) then mret []
  else
    let* own := own_photos_volume in
    apply_tag_updates own updates [].

(** The stream, drained: the outcomes, and the error it ends with. *)
Definition update_photos_streaming (updates : list PhotoTagsUpdate)
  : Call (list Outcome * option ProtonError) :=
  match updates with
  | [] => mret ([], None)
  | _ =>
      let* own := mtry own_photos_volume in
      match own with
      | Err e => mret ([], Some e)
      | Ok own =>
          let* outcomes := apply_tag_updates own updates [] in
          mret (outcomes, None)
      end
  end.
End Photos.
