(* ===== verification/PhotosFacts.v ===== *)
(** * Photos: theorems

    Proved of [Photos]: a transfer ends and answers once for every photo; its
    requests respect the endpoint's limit and never split a group; the batched
    search for duplicates answers as the search for each photo alone; what is sent
    for a photo opens at the target; an album is deleted only after what it alone
    held was saved. *)

From S2P Require Import Prelude Errors Config Keys Sealing Http Transport Revision Node Names.
From S2P Require Import EntityCache Upload Links Moves LinkCrypto Account PublicLink Drive Nodes Actions Drafts.
From S2P Require Import LinksFacts MovesFacts LinkCryptoFacts SealingFacts NodesFacts DownloadsFacts SharingFacts Photos.

Lemma permutation_inserted {A} (u : A) a b p : (a ++ [u] ++ b) ++ p ≡ₚ (a ++ b) ++ u :: p.
Proof. rewrite <- !app_assoc. apply Permutation_app_head. simpl. by rewrite Permutation_middle. Qed.

Lemma size_list_to_set_le {A} `{Countable A} (l : list A) : (size (list_to_set l : gset A) <= length l)%nat.
Proof.
  induction l as [|u l IH]; [done|]. simpl. rewrite size_union_alt, size_singleton.
  assert (size (list_to_set l ∖ {[u]} : gset A) <= size (list_to_set l : gset A))%nat
    by (apply subseteq_size; set_solver). lia.
Qed.

(** ** The queue *)

Definition uid_of (p : PhotoTargetPayload) : NodeUid := py_uid (py_photo p).

(** The photos of [l] left [run] for [run']: each with an outcome, or once more in
    the queue and then retried. *)
Record settled (l : list NodeUid) (run run' : TransferRun) : Prop := {
  st_each : (tr_outcomes run').*1 ++ (tr_queue run').*1 ≡ₚ ((tr_outcomes run).*1 ++ (tr_queue run).*1) ++ l;
  st_paid : (length (tr_queue run') + size (tr_retried run) <= length (tr_queue run) + size (tr_retried run'))%nat;
  st_known : tr_retried run' ⊆ tr_retried run ∪ list_to_set l
}.

Lemma settled_nil run : settled [] run run.
Proof. split; [by rewrite app_nil_r|lia|set_solver]. Qed.

Lemma settled_app l1 l2 r0 r1 r2 : settled l1 r0 r1 -> settled l2 r1 r2 -> settled (l1 ++ l2) r0 r2.
Proof.
  intros [E1 P1 K1] [E2 P2 K2]. split; [|lia|rewrite list_to_set_app_L; set_solver].
  by rewrite E2, E1, app_assoc.
Qed.

Lemma settled_perm l l' r r' : l ≡ₚ l' -> settled l r r' -> settled l' r r'.
Proof.
  intros Hp [E P K]. split; [by rewrite E, Hp|done|].
  intros x Hx. apply K in Hx. rewrite elem_of_union, !elem_of_list_to_set in *. by rewrite <- Hp.
Qed.

Lemma settled_outcome uid o run : settled [uid] run (push_transfer_outcome (uid, o) run).
Proof.
  split; simpl; [|lia|set_solver]. rewrite fmap_app. simpl. rewrite <- !app_assoc.
  by rewrite (Permutation_app_comm [uid]).
Qed.

Lemma settled_record uid failure run : settled [uid] run (record_transfer_outcome uid failure run).
Proof.
  unfold record_transfer_outcome. destruct failure as [[missing e]|]; [|apply settled_outcome].
  destruct (negb _ && _) eqn:Ec; [|apply settled_outcome].
  apply andb_true_iff in Ec as [_ Hn%bool_decide_eq_true]. split; simpl.
  - by rewrite fmap_app, app_assoc.
  - rewrite length_app, size_union by set_solver. rewrite size_singleton. simpl. lia.
  - set_solver.
Qed.

Lemma settled_record_each failures sent run : settled (uid_of <$> sent) run (record_each failures sent run).
Proof.
  revert failures run. induction sent as [|p sent IH]; intros failures run; simpl; [apply settled_nil|].
  eapply (settled_app [uid_of p]); [apply settled_record|apply IH].
Qed.

Lemma transfer_links_settled payloads sent links run sent' links' run' :
  transfer_links payloads sent links run = (sent', links', run') ->
  (links = [] -> sent = []) ->
  (links' = [] -> sent' = []) /\
  exists unsent, settled unsent run run' /\ (uid_of <$> sent') ++ unsent ≡ₚ (uid_of <$> sent) ++ (uid_of <$> payloads).
Proof.
  revert sent links run. induction payloads as [|p payloads IH]; intros sent links run; cbn [transfer_links].
  { intros [= <- <- <-] Hl. split; [done|]. exists []. split; [apply settled_nil|done]. }
  destruct (mapM transfer_link_item (group p)) as [items|] eqn:Em.
  - intros E Hl. apply IH in E as (Hl' & unsent & Hs & Hp).
    + split; [done|]. exists unsent. split; [done|]. rewrite Hp, fmap_app, <- app_assoc. done.
    + intros Hn. apply app_eq_nil in Hn as [_ ->]. by apply mapM_Some_1 in Em as Em%Forall2_length.
  - intros E Hl. apply IH in E as (Hl' & unsent & Hs & Hp); [|done]. split; [done|].
    exists ([uid_of p] ++ unsent). split; [by eapply settled_app; [apply settled_outcome|]|].
    simpl. rewrite <- Permutation_middle, Hp. by rewrite <- Permutation_middle.
Qed.

Section Transfers.
Context {S Key : Type}.
Context (build : NodeUid -> list NodeUid -> FM S PhotoTargetPayload ProtonError).
Context (put_transfer : string -> TransferPhotosRequest -> M S (list PhotoLinkOutcome) ProtonError).
Context (post_add_photos : string -> list AddPhotoToAlbumEntry -> M S (list PhotoLinkOutcome) ProtonError).
Context (post_photo_copy : string -> CopyPhotoRequest -> M S CopyLinkResponse ProtonError).
Context (target : PhotoTransferTarget Key).

Abbreviation batch_ := (transfer_photo_batch put_transfer post_add_photos target).
Abbreviation send_ := (send_batches put_transfer post_add_photos target).
Abbreviation copy_ := (copy_each post_photo_copy target).
Abbreviation rounds_ := (transfer_rounds build put_transfer post_add_photos post_photo_copy target).

Lemma batch_settled payloads run run' s s' :
  batch_ payloads run s = (Ok run', s') -> settled (uid_of <$> payloads) run run'.
Proof.
  unfold transfer_photo_batch. destruct (pt_kind target).
  - destruct (transfer_links payloads [] [] run) as [[sent links] run1] eqn:El.
    apply transfer_links_settled in El as (Hl & unsent & Hs & Hp); [|done].
    destruct links as [|l links].
    + intros [= <- <-]. rewrite Hl in Hp by done. by eapply settled_perm; [exact Hp|].
    + unfold mbind_. destruct (put_transfer _ _ s) as [[rs|e] s1]; [|done]. intros [= <- <-].
      eapply (settled_perm (unsent ++ (uid_of <$> sent))); [by rewrite Permutation_app_comm|].
      eapply settled_app; [exact Hs|]. apply settled_record_each.
  - unfold mbind_. destruct (post_add_photos _ _ s) as [[rs|e] s1]; [|done]. intros [= <- <-].
    apply settled_record_each.
Qed.

Lemma send_settled payloads batch links run run' s s' :
  send_ payloads batch links run s = (Ok run', s') ->
  settled ((uid_of <$> batch) ++ (uid_of <$> payloads)) run run'.
Proof.
  revert batch links run s. induction payloads as [|p payloads IH]; intros batch links run s; cbn [send_batches].
  - rewrite app_nil_r. destruct batch as [|b batch]; [intros [= <- <-]; apply settled_nil|apply batch_settled].
  - destruct (_ && _).
    + unfold mbind_. destruct (batch_ batch run s) as [[run1|e] s1] eqn:Eb; [|done].
      intros E%IH. eapply settled_app; [by eapply batch_settled|]. exact E.
    + intros E%IH. by rewrite fmap_app, <- app_assoc in E.
Qed.

Ltac case_post := match goal with
  | |- context [post_photo_copy ?p ?q ?s] => destruct (post_photo_copy p q s) as [rs s1]; simpl
  end.

Lemma copy_settled payloads run run' s s' :
  copy_ payloads run s = (Ok run', s') -> settled (uid_of <$> payloads) run run'.
Proof.
  revert run s. induction payloads as [|p payloads IH]; intros run s; cbn [copy_each].
  { intros [= <- <-]. apply settled_nil. }
  unfold mbind_, copy_photo_to_target, mtry, mbind_. case_post. intros E%IH.
  eapply (settled_app [uid_of p]); [apply settled_record|exact E].
Qed.

(** The copies never fail as a whole. *)
Lemma copy_ok payloads run s : exists run' s', copy_ payloads run s = (Ok run', s').
Proof.
  revert run s. induction payloads as [|p payloads IH]; intros run s; cbn [copy_each]; [by eexists _, _|].
  unfold mbind_, copy_photo_to_target, mtry, mbind_. case_post. apply IH.
Qed.

Context (Huid : forall uid extra s p s', build uid extra s = Some (Ok p, s') -> uid_of p = uid).

Lemma load_built room same cross run s same' cross' run' s' :
  load_payloads build target room same cross run s = Some (Ok (same', cross', run'), s') ->
  exists popped, (tr_queue run).*1 = popped ++ (tr_queue run').*1 /\ length popped = Nat.min room (length (tr_queue run)) /\
    tr_retried run' = tr_retried run /\
    (uid_of <$> same') ++ (uid_of <$> cross') ++ (tr_outcomes run').*1
      ≡ₚ ((uid_of <$> same) ++ (uid_of <$> cross) ++ (tr_outcomes run).*1) ++ popped.
Proof.
  revert same cross run s. induction room as [|room IH]; intros same cross run s; cbn [load_payloads].
  { intros [= <- <- <- <-]. exists []. split_and!; [done..|by rewrite app_nil_r]. }
  destruct run as [queue retried outcomes]. cbn [tr_queue]. destruct queue as [|[uid extra] queue].
  { intros [= <- <- <- <-]. exists []. split_and!; [done|simpl; lia|done|by rewrite app_nil_r]. }
  unfold fbind, ftry. destruct (build uid extra s) as [[r s1]|] eqn:Eb; [|done].
  destruct r as [p|e]; [apply Huid in Eb; destruct (String.eqb _ _)|].
  all: intros (popped & Hq & Hl & Hr & Hp)%IH; exists (uid :: popped); simpl in *;
    (split_and!; [f_equal; exact Hq|lia|done|]); rewrite Hp, ?fmap_app; simpl; rewrite ?Eb.
  - rewrite <- (app_assoc (uid_of <$> same)). apply permutation_inserted.
  - rewrite <- (app_assoc (uid_of <$> cross)), !(app_assoc (uid_of <$> same)). apply permutation_inserted.
  - rewrite !app_assoc. by rewrite <- (app_assoc _ [uid] popped).
Qed.

(** One round keeps what is in the queue and in the outcomes. *)
Lemma round_keeps run same cross run1 s1 popped run2 s2 run3 s3 :
  (tr_queue run).*1 = popped ++ (tr_queue run1).*1 ->
  (uid_of <$> same) ++ (uid_of <$> cross) ++ (tr_outcomes run1).*1 ≡ₚ (tr_outcomes run).*1 ++ popped ->
  send_ same [] 0 run1 s1 = (Ok run2, s2) -> copy_ cross run2 s2 = (Ok run3, s3) ->
  settled ((uid_of <$> same) ++ (uid_of <$> cross)) run1 run3 /\
  (tr_outcomes run3).*1 ++ (tr_queue run3).*1 ≡ₚ (tr_outcomes run).*1 ++ (tr_queue run).*1.
Proof.
  intros Hpq Hp Es Ec. apply send_settled in Es. simpl in Es. apply copy_settled in Ec.
  pose proof (settled_app _ _ _ _ _ Es Ec) as Hs. split; [exact Hs|]. rewrite (st_each _ _ _ Hs).
  rewrite Hpq, (app_assoc (tr_outcomes run).*1), <- Hp, Permutation_app_comm. by rewrite <- !app_assoc.
Qed.

(** What a transfer that ends answers. *)
Lemma rounds_answer fuel run s outcomes s' :
  rounds_ fuel run s = Some (Ok outcomes, s') -> outcomes.*1 ≡ₚ (tr_outcomes run).*1 ++ (tr_queue run).*1.
Proof.
  revert run s. induction fuel as [|fuel IH]; intros run s; cbn [transfer_rounds].
  all: destruct (tr_queue run) as [|x q] eqn:Eq; [intros [= <- <-]; by rewrite app_nil_r|].
  { done. }
  unfold fbind at 1. destruct (load_payloads _ _ _ _ _ _ _) as [[[[[same cross] run1]|e] s1]|] eqn:El; [|done..].
  apply load_built in El as (popped & Hpq & _ & _ & Hp). simpl in Hp.
  unfold fbind at 1, flift at 1. destruct (send_ same [] 0 run1 s1) as [[run2|e] s2] eqn:Es; [|done].
  unfold fbind at 1, flift at 1. destruct (copy_ cross run2 s2) as [[run3|e] s3] eqn:Ec; [|done].
  intros E%IH. rewrite E, <- Eq. by eapply round_keeps.
Qed.

Lemma queued_first (photo_uids : list NodeUid) : ((fun uid => (uid, [] : list NodeUid)) <$> photo_uids).*1 = photo_uids.
Proof. rewrite <- list_fmap_compose. apply list_fmap_id. Qed.

Lemma transfer_answer fuel photo_uids s outcomes s' :
  transfer_photos build put_transfer post_add_photos post_photo_copy target fuel photo_uids s
    = Some (Ok outcomes, s') ->
  outcomes.*1 ≡ₚ photo_uids.
Proof. intros E%rounds_answer. simpl in E. by rewrite queued_first in E. Qed.

Context (Hbuild : forall uid extra s, is_Some (build uid extra s)).

Lemma load_returns room same cross run s :
  exists loaded s', load_payloads build target room same cross run s = Some (Ok loaded, s').
Proof.
  revert same cross run s. induction room as [|room IH]; intros same cross run s; cbn [load_payloads]; [by eexists _, _|].
  destruct (tr_queue run) as [|[uid extra] queue]; [by eexists _, _|].
  unfold fbind, ftry. destruct (Hbuild uid extra s) as [[[p|e] s1] ->]; [destruct (String.eqb _ _)|]; apply IH.
Qed.

(** What is to do shrinks by the photos a round takes up. *)
Lemma transfer_round_spec (known : gset NodeUid) run same cross run1 s1 popped run2 s2 run3 s3 :
  (tr_queue run).*1 = popped ++ (tr_queue run1).*1 -> length popped = Nat.min LOAD_BATCH (length (tr_queue run)) ->
  tr_retried run1 = tr_retried run ->
  (uid_of <$> same) ++ (uid_of <$> cross) ++ (tr_outcomes run1).*1 ≡ₚ (tr_outcomes run).*1 ++ popped ->
  send_ same [] 0 run1 s1 = (Ok run2, s2) -> copy_ cross run2 s2 = (Ok run3, s3) ->
  tr_retried run ⊆ known -> list_to_set ((tr_outcomes run).*1 ++ (tr_queue run).*1) ⊆ known ->
  tr_queue run <> [] ->
  (tr_outcomes run3).*1 ++ (tr_queue run3).*1 ≡ₚ (tr_outcomes run).*1 ++ (tr_queue run).*1 /\
  tr_retried run3 ⊆ known /\
  (length (tr_queue run3) + (size known - size (tr_retried run3))
    < length (tr_queue run) + (size known - size (tr_retried run)))%nat.
Proof.
  intros Hpq Hl Hr1 Hp Es Ec Hr Hk Hne.
  destruct (round_keeps _ _ _ _ _ _ _ _ _ _ Hpq Hp Es Ec) as [[He Hpaid Hknown] E].
  assert (Hret : tr_retried run3 ⊆ known).
  { rewrite Hr1 in Hknown. intros u Hu. apply Hknown in Hu as [Hu|Hu]%elem_of_union; [by apply Hr|].
    apply Hk, elem_of_list_to_set. apply elem_of_list_to_set in Hu. rewrite <- E, He. apply elem_of_app. by right. }
  split_and!; [done..|]. apply (f_equal length) in Hpq. rewrite length_app, !length_fmap in Hpq.
  apply subseteq_size in Hr, Hret. rewrite Hr1 in Hpaid. destruct (tr_queue run); [done|]. simpl in *. lia.
Qed.

Lemma rounds_return (known : gset NodeUid) fuel run s :
  tr_retried run ⊆ known -> list_to_set ((tr_outcomes run).*1 ++ (tr_queue run).*1) ⊆ known ->
  (length (tr_queue run) + (size known - size (tr_retried run)) <= fuel)%nat ->
  is_Some (rounds_ fuel run s).
Proof.
  revert run s. induction fuel as [|fuel IH]; intros run s Hr Hk Hf; cbn [transfer_rounds].
  all: destruct (tr_queue run) as [|x q] eqn:Eq; [by eexists|].
  { simpl in Hf. lia. }
  unfold fbind at 1. destruct (load_returns LOAD_BATCH [] [] run s) as ([[same cross] run1] & s1 & El). rewrite El.
  apply load_built in El as (popped & Hpq & Hl & Hr1 & Hp).
  unfold fbind at 1, flift at 1. destruct (send_ same [] 0 run1 s1) as [[run2|e] s2] eqn:Es; [|by eexists].
  unfold fbind at 1, flift at 1. destruct (copy_ok cross run2 s2) as (run3 & s3 & Ec). rewrite Ec.
  rewrite <- Eq in Hk, Hf.
  destruct (transfer_round_spec known run _ _ _ _ _ _ _ _ _ Hpq Hl Hr1 Hp Es Ec Hr Hk ltac:(by rewrite Eq))
    as (E & Hr3 & Hlt).
  apply IH; [done| |lia].
  intros u Hu. apply Hk. apply elem_of_list_to_set in Hu. apply elem_of_list_to_set. by rewrite <- E.
Qed.

(** A request for a batch was refused, and that was the last thing done. *)
Definition batch_refused (e : ProtonError) (s' : S) : Prop := exists s,
  (exists path q, put_transfer path q s = (Err e, s')) \/
  (exists path entries, post_add_photos path entries s = (Err e, s')).

Lemma batch_fails payloads run s e s' : batch_ payloads run s = (Err e, s') -> batch_refused e s'.
Proof.
  unfold transfer_photo_batch, batch_refused. destruct (pt_kind target).
  - destruct (transfer_links payloads [] [] run) as [[sent links] run1]. destruct links as [|l links]; [done|].
    unfold mbind_. destruct (put_transfer _ _ s) as [[rs|e1] s1] eqn:E; [done|]. intros [= <- <-]. eauto.
  - unfold mbind_. destruct (post_add_photos _ _ s) as [[rs|e1] s1] eqn:E; [done|]. intros [= <- <-]. eauto 6.
Qed.

Lemma send_fails payloads batch links run s e s' :
  send_ payloads batch links run s = (Err e, s') -> batch_refused e s'.
Proof.
  revert batch links run s. induction payloads as [|p payloads IH]; intros batch links run s; cbn [send_batches].
  - destruct batch as [|b batch]; [done|apply batch_fails].
  - destruct (_ && _); [|apply IH].
    unfold mbind_. destruct (batch_ batch run s) as [[run1|e1] s1] eqn:Eb; [apply IH|].
    intros [= <- <-]. by eapply batch_fails.
Qed.

Lemma rounds_fail fuel run s e s' : rounds_ fuel run s = Some (Err e, s') -> batch_refused e s'.
Proof.
  revert run s. induction fuel as [|fuel IH]; intros run s; cbn [transfer_rounds].
  all: destruct (tr_queue run) as [|x q] eqn:Eq; [done|].
  { done. }
  unfold fbind at 1. destruct (load_returns LOAD_BATCH [] [] run s) as ([[same cross] run1] & s1 & ->).
  unfold fbind at 1, flift at 1. destruct (send_ same [] 0 run1 s1) as [[run2|e2] s2] eqn:Es.
  - unfold fbind at 1, flift at 1. destruct (copy_ok cross run2 s2) as (run3 & s3 & ->). apply IH.
  - intros [= <- <-]. by eapply send_fails.
Qed.

(** C28: A transfer takes at most two rounds for every photo it is given: if building
    a photo's payload always returns - with the payload, or an error that becomes
    that photo's outcome - the transfer returns, whatever the server answers to its
    requests.  When it returns outcomes, every photo of the input has exactly one
    for each time it was given.  It returns an error instead only when a request
    for a whole batch is refused: the error is that of the request, nothing is sent
    after it, and the outcomes so far are not reported. *)
Theorem transfer_one_outcome_each photo_uids s :
  exists r s', transfer_photos build put_transfer post_add_photos post_photo_copy target
                 (2 * length photo_uids) photo_uids s = Some (r, s') /\
    match r with
    | Ok outcomes => outcomes.*1 ≡ₚ photo_uids
    | Err e => batch_refused e s'
    end.
Proof.
  unfold transfer_photos.
  destruct (rounds_return (list_to_set photo_uids) (2 * length photo_uids)
    {| tr_queue := (fun uid => (uid, [])) <$> photo_uids; tr_retried := ∅; tr_outcomes := [] |} s)
    as [[r s'] Hrun]; simpl.
  - set_solver.
  - by rewrite queued_first.
  - rewrite length_fmap. assert (size (list_to_set photo_uids : gset NodeUid) <= length photo_uids)%nat; [|lia].
    apply size_list_to_set_le.
  - eexists _, _. split; [exact Hrun|]. destruct r as [o|e]; [by eapply transfer_answer|by eapply rounds_fail].
Qed.
End Transfers.

(** ** Batches *)

Definition links_of (batch : list PhotoTargetPayload) : nat := length (concat (group <$> batch)).

(** What a request may hold: whole groups within the limit, or one group alone. *)
Definition sendable (batch : list PhotoTargetPayload) : Prop :=
  batch <> [] /\ ((links_of batch <= MAX_LINKS_PER_TRANSFER)%nat \/ length batch = 1%nat).

Section Batches.
Context {S Key : Type}.
Context (put_transfer : string -> TransferPhotosRequest -> M S (list PhotoLinkOutcome) ProtonError).
Context (post_add_photos : string -> list AddPhotoToAlbumEntry -> M S (list PhotoLinkOutcome) ProtonError).
Context (target : PhotoTransferTarget Key).

Fixpoint send_all (batches : list (list PhotoTargetPayload)) (run : TransferRun) : M S TransferRun ProtonError :=
  match batches with
  | [] => mret run
  | batch :: batches =>
      let* run := transfer_photo_batch put_transfer post_add_photos target batch run in
      send_all batches run
  end.

Lemma links_of_app b b' : links_of (b ++ b') = (links_of b + links_of b')%nat.
Proof. unfold links_of. by rewrite fmap_app, concat_app, length_app. Qed.

Lemma links_of_one p : links_of [p] = Datatypes.S (length (py_related p)).
Proof. unfold links_of. simpl. by rewrite app_nil_r. Qed.

Lemma send_batches_groups payloads batch :
  batch = [] \/ sendable batch ->
  exists batches, concat batches = batch ++ payloads /\ Forall sendable batches /\
    forall run s, send_batches put_transfer post_add_photos target payloads batch (links_of batch) run s
                  = send_all batches run s.
Proof.
  revert batch. induction payloads as [|p payloads IH]; intros batch Hb; cbn [send_batches].
  - destruct batch as [|b batch].
    + by exists [].
    + destruct Hb as [|Hb]; [done|]. exists [b :: batch]. simpl. rewrite app_nil_r. split_and!; [done|by apply Forall_singleton|].
      intros run s. unfold mbind_. by destruct (transfer_photo_batch _ _ _ _ run s) as [[]].
  - destruct (negb (bool_decide (batch = [])) && _) eqn:Ec.
    + apply andb_true_iff in Ec as [Hne%negb_true_iff%bool_decide_eq_false _]. destruct Hb as [|Hb]; [done|].
      destruct (IH [p]) as (batches & Hc & Hall & Hsend).
      { right. split; [done|by right]. }
      exists (batch :: batches). simpl. rewrite Hc. split_and!; [done|by constructor|].
      intros run s. unfold mbind_. destruct (transfer_photo_batch _ _ _ _ run s) as [[run1|e] s1]; [|done].
      rewrite <- Hsend. by rewrite links_of_one.
    + destruct (IH (batch ++ [p])) as (batches & Hc & Hall & Hsend).
      { right. split; [by destruct batch|]. rewrite links_of_app, links_of_one.
        apply andb_false_iff in Ec as [He%negb_false_iff%bool_decide_eq_true|Hl%Nat.ltb_ge]; [|by left].
        subst batch. by right. }
      exists batches. rewrite Hc, <- app_assoc. split_and!; [done..|]. intros run s.
      rewrite <- Hsend. by rewrite links_of_app, links_of_one.
Qed.

(** The photos of one volume go in their order in requests of whole groups: of at
    most ten links, or of a single group that alone has more. *)
Theorem transfer_requests_bounded payloads :
  exists batches, concat batches = payloads /\ Forall sendable batches /\
    forall run s, send_batches put_transfer post_add_photos target payloads [] 0 run s = send_all batches run s.
Proof. apply (send_batches_groups payloads []). by left. Qed.
End Batches.

(** ** Duplicates *)

Section Index.
Context (hash : string -> string).

(** The positions, from [k] on, of the names with a hash. *)
Fixpoint positions_from (k : nat) (names : list string) (h : string) : list nat :=
  match names with
  | [] => []
  | name :: names => (if String.eqb (hash name) h then [k] else []) ++ positions_from (S k) names h
  end.

Lemma positions_from_elem k names h i :
  i ∈ positions_from k names h <-> exists j, i = (k + j)%nat /\ hash <$> names !! j = Some h.
Proof.
  revert k. induction names as [|name names IH]; intros k; simpl.
  { split; [by intros Hi%elem_of_nil|by intros (j & _ & Hj)]. }
  rewrite elem_of_app, IH. split.
  - intros [Hi|(j & -> & Hj)]; [|exists (S j); split; [lia|done]].
    destruct (String.eqb_spec (hash name) h) as [<-|]; [|by apply elem_of_nil in Hi].
    apply list_elem_of_singleton in Hi as ->. exists 0%nat. split; [lia|done].
  - intros ([|j] & -> & Hj); [left|right; exists j; split; [lia|done]].
    simpl in Hj. injection Hj as ->. rewrite String.eqb_refl. apply list_elem_of_singleton. lia.
Qed.

Lemma positions_from_nodup k names h : NoDup (positions_from k names h).
Proof.
  revert k. induction names as [|name names IH]; intros k; simpl; [constructor|].
  apply NoDup_app. split_and!; [destruct (String.eqb _ _); [apply NoDup_singleton|constructor]| |apply IH].
  intros i Hi (j & -> & _)%positions_from_elem. destruct (String.eqb _ _); [|by apply elem_of_nil in Hi].
  apply list_elem_of_singleton in Hi. lia.
Qed.

Lemma index_names_spec k names positions hashes positions' hashes' :
  index_names hash k names positions hashes = (positions', hashes') ->
  NoDup hashes -> (forall h, h ∈ hashes <-> is_Some (positions !! h)) ->
  NoDup hashes' /\ (forall h, h ∈ hashes' <-> h ∈ hashes \/ h ∈ hash <$> names) /\
  forall h, default [] (positions' !! h) = default [] (positions !! h) ++ positions_from k names h.
Proof.
  revert k positions hashes. induction names as [|name names IH]; intros k positions hashes; simpl.
  { intros [= <- <-] Hn Hi. split_and!; [done| |]; intros h; [by rewrite elem_of_nil; tauto|by rewrite app_nil_r]. }
  destruct (positions !! hash name) as [l|] eqn:El; intros E Hn Hi.
  - apply IH in E as (Hn' & Hh & Hp); [|done|].
    + split_and!; [done| |]; intros h.
      * rewrite Hh, elem_of_cons. split; [tauto|]. intros [?|[->|?]]; [by left| |by right].
        left. apply Hi. by rewrite El.
      * rewrite Hp. destruct (String.eqb_spec (hash name) h) as [<-|Hne].
        -- rewrite lookup_insert_eq, El. simpl. by rewrite <- app_assoc.
        -- by rewrite lookup_insert_ne.
    + intros h. rewrite Hi. destruct (decide (hash name = h)) as [<-|Hne].
      * rewrite lookup_insert_eq, El. split; intros _; by eexists.
      * by rewrite lookup_insert_ne.
  - assert (hash name ∉ hashes) by (rewrite Hi, El; by intros []).
    apply IH in E as (Hn' & Hh & Hp).
    + split_and!; [done| |]; intros h.
      * rewrite Hh, elem_of_app, list_elem_of_singleton, elem_of_cons. tauto.
      * rewrite Hp. destruct (String.eqb_spec (hash name) h) as [<-|Hne].
        -- rewrite lookup_insert_eq, El. done.
        -- by rewrite lookup_insert_ne.
    + apply NoDup_app. split_and!; [done| |apply NoDup_singleton]. intros h Hh ->%list_elem_of_singleton. done.
    + intros h. rewrite elem_of_app, Hi, list_elem_of_singleton. destruct (decide (hash name = h)) as [<-|Hne].
      * rewrite lookup_insert_eq. split; [by eexists|by right].
      * rewrite lookup_insert_ne by done. split; [intros [?|?]; [done|congruence]|by left].
Qed.
End Index.

Section Answers.
Context (volume_id_ : VolumeId).

(** What a found photo is for an input with these hashes. *)
Definition duplicate_hit (name_hash content_hash : string) (duplicate : FoundPhotoDuplicateDto)
  : option NodeUid :=
  link_id_ ← duplicate_link duplicate;
  if eq_ignore_ascii_case (fd_name_hash duplicate) name_hash
     && eq_ignore_ascii_case (fd_content_hash duplicate) content_hash
  then Some (NodeUid_new volume_id_ link_id_) else None.

Lemma alter_each {A} (f : A -> A) (p : nat -> bool) (l : list nat) (out : list A) i :
  NoDup l ->
  foldl (fun out index => if p index then alter f index out else out) out l !! i
    = (if bool_decide (i ∈ l) && p i then f <$> out !! i else out !! i).
Proof.
  revert out. induction l as [|x l IH]; intros out Hn; cbn [foldl]; [by rewrite bool_decide_false by set_solver|].
  apply NoDup_cons in Hn as [Hx Hn]. rewrite IH by done.
  destruct (decide (i = x)) as [->|Hne].
  - rewrite bool_decide_false, bool_decide_true by set_solver. rewrite andb_false_l, andb_true_l.
    destruct (p x); [by rewrite list_lookup_alter_eq|done].
  - replace (bool_decide (i ∈ x :: l)) with (bool_decide (i ∈ l)) by (apply bool_decide_ext; set_solver).
    destruct (p x); [by rewrite list_lookup_alter_ne by done|done].
Qed.

Context (hash : string -> string) (Hlower : forall n, to_ascii_lowercase (hash n) = hash n).
Context (names : list string) (positions : gmap string (list nat)) (content_hashes : list string).
Context (Hpos : forall h, default [] (positions !! h) = positions_from hash 0 names h).

Lemma match_duplicate_at out d i name c :
  names !! i = Some name -> content_hashes !! i = Some c ->
  match_duplicate volume_id_ positions content_hashes out d !! i
    = (fun l => l ++ option_list (duplicate_hit (hash name) c d)) <$> out !! i.
Proof.
  intros Hn Hc. unfold match_duplicate, duplicate_hit.
  destruct (duplicate_link d) as [link|]; simpl.
  2: { destruct (out !! i); simpl; by rewrite ?app_nil_r. }
  rewrite alter_each by (rewrite Hpos; apply positions_from_nodup). rewrite Hpos, Hc. simpl.
  assert (Hin : i ∈ positions_from hash 0 names (to_ascii_lowercase (fd_name_hash d)) <->
                to_ascii_lowercase (fd_name_hash d) = to_ascii_lowercase (hash name)).
  { rewrite positions_from_elem, Hlower. split.
    - intros (j & E & Hj). simpl in E. subst j. rewrite Hn in Hj. by injection Hj.
    - intros ->. exists i. by rewrite Hn. }
  unfold eq_ignore_ascii_case at 2. rewrite (bool_decide_ext _ _ Hin).
  destruct (String.eqb_spec (to_ascii_lowercase (fd_name_hash d)) (to_ascii_lowercase (hash name))) as [E|E].
  - rewrite bool_decide_true by done. simpl. destruct (eq_ignore_ascii_case _ c); simpl; [done|].
    destruct (out !! i); simpl; by rewrite ?app_nil_r.
  - rewrite bool_decide_false by done. simpl. destruct (out !! i); simpl; by rewrite ?app_nil_r.
Qed.

Lemma match_duplicates_at ds out i name c :
  names !! i = Some name -> content_hashes !! i = Some c ->
  foldl (match_duplicate volume_id_ positions content_hashes) out ds !! i
    = (fun l => l ++ omap (duplicate_hit (hash name) c) ds) <$> out !! i.
Proof.
  intros Hn Hc. revert out. induction ds as [|d ds IH]; intros out; simpl.
  { destruct (out !! i); simpl; by rewrite ?app_nil_r. }
  rewrite IH, (match_duplicate_at _ _ _ _ _ Hn Hc). destruct (out !! i) as [l|]; simpl; [|done].
  rewrite <- app_assoc. by destruct (duplicate_hit (hash name) c d).
Qed.

Lemma match_duplicates_length ds out :
  length (foldl (match_duplicate volume_id_ positions content_hashes) out ds) = length out.
Proof.
  revert out. induction ds as [|d ds IH]; intros out; simpl; [done|]. rewrite IH. unfold match_duplicate.
  destruct (duplicate_link d); [|done]. generalize (default [] (positions !! to_ascii_lowercase (fd_name_hash d))).
  intros l. revert out. induction l as [|x l IHl]; intros out; simpl; [done|]. rewrite IHl.
  destruct (eq_ignore_ascii_case _ _); [apply length_alter|done].
Qed.
End Answers.

Lemma concat_none {A B} (f : A -> list B) l : (forall y, y ∈ l -> f y = []) -> concat (f <$> l) = [].
Proof.
  induction l as [|y l IH]; intros Hf; [done|]. change (f y ++ concat (f <$> l) = []).
  rewrite (Hf y) by left. apply IH. intros z Hz. apply Hf. by right.
Qed.

Lemma concat_one {A B} `{!EqDecision A} (f : A -> list B) l x :
  NoDup l -> x ∈ l -> (forall y, y ∈ l -> y <> x -> f y = []) -> concat (f <$> l) = f x.
Proof.
  induction l as [|y l IH]; intros Hn Hx Hf; [by apply elem_of_nil in Hx|].
  apply NoDup_cons in Hn as [Hy Hn]. change (f y ++ concat (f <$> l) = f x). destruct (decide (y = x)) as [->|Hne].
  - rewrite concat_none, app_nil_r; [done|]. intros z Hz. apply Hf; [by right|]. by intros ->.
  - rewrite (Hf y); [|left|done]. apply elem_of_cons in Hx as [->|Hx]; [done|].
    apply IH; [done..|]. intros z Hz. apply Hf. by right.
Qed.

Lemma omap_concat {A B} (f : A -> option B) (ls : list (list A)) :
  (omap f (concat ls) : list B) = concat ((fun l => omap f l : list B) <$> ls).
Proof.
  induction ls as [|l ls IH]; [done|].
  change (omap f (l ++ concat ls) = omap f l ++ concat ((fun l => omap f l : list B) <$> ls)).
  by rewrite omap_app, IH.
Qed.

Section Duplicates.
Context {W Key Pub Sig CKey FK CS : Type} `{KeyOps Key} `{PassphraseOps} `{SealOps W Key}
        `{SignatureOps Key Pub Sig} `{!VerifyOps Key Pub} `{!ContentOps Key CKey}
        `{!ContentKeyExport CKey} `{AttributeOps} `{AttributeWriter}
        `{DriveApi W} `{!NodeApi W} `{!ActionApi W} `{!PhotosApi W}
        `{!AccountKeys W Key Pub} `{!AccountAddresses W}
        `{!DriveEntities W} `{NameOps} `{!Lru FK NodeUid Key} `{!Lru CS NodeUid ShareId}.

Abbreviation State := (DriveState W Key FK CS).

(** The endpoint, in a state that answering does not change: for every hash the
    photos that carry it, whatever else is asked in the same request. *)
Definition answers_by_hash (root : NodeUid) (s : State) (answers : string -> list FoundPhotoDuplicateDto) : Prop :=
  (forall batch, on_world (post_duplicates (duplicates_path root) batch) s
                 = (Ok (concat (answers <$> batch)), s)) /\
  forall h d, d ∈ answers h -> to_ascii_lowercase (fd_name_hash d) = to_ascii_lowercase h.

Lemma ask_duplicates_answered {A} root (settle : A -> FoundPhotoDuplicateDto -> A) answers batches out (s : State) :
  answers_by_hash root s answers ->
  ask_duplicates root settle batches out s = (Ok (foldl settle out (concat (answers <$> concat batches))), s).
Proof.
  intros [Ha Hn]. revert out. induction batches as [|b batches IH]; intros out; [done|].
  cbn [ask_duplicates]. erewrite mbind_ok by apply Ha. rewrite IH. simpl.
  by rewrite fmap_app, concat_app, foldl_app.
Qed.

Lemma find_alone fuel root key hash_key name contents answers (s : State) :
  existing_photos_root (Pub := Pub) "account has no photos volume" s = (Ok root, s) ->
  root_keys (Pub := Pub) fuel root s = Some (Ok (key, hash_key), s) ->
  answers_by_hash root s answers ->
  find_photo_duplicates (Pub := Pub) fuel name contents s
    = Some (Ok (omap (duplicate_hit (volume_id root) (hex_hmac_sha256 hash_key name)
                        (hex_hmac_sha256 hash_key (sha1_hex_digest contents)))
                  (answers (hex_hmac_sha256 hash_key name))), s).
Proof.
  intros Hr Hk [Ha _]. unfold find_photo_duplicates. unfold fbind at 1, flift at 1. rewrite Hr.
  unfold fbind at 1. rewrite Hk. cbn beta iota. unfold fbind at 1, flift at 1. rewrite Ha. cbn beta iota.
  cbn [fmap list_fmap concat]. by rewrite app_nil_r.
Qed.

(** C29: Asking about many photos at once, in batches of 150 distinct name hashes,
    answers for each of them what asking about it alone does - two inputs of the
    same name, or of the same name and content, included. *)
Theorem duplicates_many_as_alone fuel root key hash_key (photos : list (string * string)) answers (s : State) :
  photos <> [] ->
  existing_photos_root (Pub := Pub) "account has no photos volume" s = (Ok root, s) ->
  root_keys (Pub := Pub) fuel root s = Some (Ok (key, hash_key), s) ->
  answers_by_hash root s answers ->
  (forall n, to_ascii_lowercase (hex_hmac_sha256 hash_key n) = hex_hmac_sha256 hash_key n) ->
  (forall c, to_ascii_lowercase (sha1_hex_digest c) = sha1_hex_digest c) ->
  exists found,
    find_photo_duplicates_many (Pub := Pub) fuel ((fun p => (p.1, sha1_hex_digest p.2)) <$> photos) s = Some (Ok found, s) /\
    Forall2 (fun p duplicates => find_photo_duplicates (Pub := Pub) fuel p.1 p.2 s = Some (Ok duplicates, s)) photos found.
Proof.
  intros Hne Hr Hk Ha Hhash Hsha. unfold find_photo_duplicates_many.
  rewrite bool_decide_false by (by destruct photos).
  unfold fbind at 1, flift at 1. rewrite Hr. unfold fbind at 1. rewrite Hk. cbn beta iota.
  set (names := fst <$> _). set (contents := _ <$> (_ <$> photos)).
  destruct (index_names (hex_hmac_sha256 hash_key) 0 names ∅ []) as [positions hashes] eqn:Ei.
  apply index_names_spec in Ei as (Hnd & Hh & Hpos); [|constructor|].
  2: { intros h. rewrite lookup_empty. split; [by intros ?%elem_of_nil|by intros []]. }
  unfold flift. rewrite (ask_duplicates_answered _ _ answers) by done.
  destruct (chunks_of_spec (length hashes) DUPLICATE_BATCH hashes) as [Hc _]; [unfold DUPLICATE_BATCH; lia|done|].
  unfold chunks. rewrite Hc. eexists. split; [reflexivity|].
  assert (Hn : forall i p, photos !! i = Some p -> names !! i = Some p.1 /\
    contents !! i = Some (hex_hmac_sha256 hash_key (sha1_hex_digest p.2))).
  { intros i p Hp. unfold names, contents. rewrite !list_lookup_fmap, Hp. simpl. by rewrite Hsha. }
  apply Forall2_same_length_lookup_2.
  { by rewrite match_duplicates_length, !length_fmap. }
  intros i p out Hp Hout. destruct (Hn i p Hp) as [Hni Hci].
  rewrite (find_alone fuel root key hash_key _ _ answers) by done. do 3 f_equal.
  rewrite (match_duplicates_at (volume_id root) (hex_hmac_sha256 hash_key) Hhash names positions contents Hpos _ _ _ _ _ Hni Hci) in Hout.
  rewrite !list_lookup_fmap, Hp in Hout. simpl in Hout. injection Hout as <-.
  rewrite omap_concat, <- list_fmap_compose. symmetry.
  set (hit := duplicate_hit (volume_id root) _ _).
  etransitivity;
    [apply (concat_one ((fun l => omap hit l : list NodeUid) ∘ answers) hashes (hex_hmac_sha256 hash_key p.1))|reflexivity].
  - done.
  - apply Hh. right. apply list_elem_of_fmap. exists p.1. split; [done|]. by eapply list_elem_of_lookup_2.
  - intros h Hin Hneq. unfold compose. destruct Ha as [_ Ha].
    assert (Hall : forall d, d ∈ answers h -> hit d = None).
    { intros d Hd%Ha. unfold hit, duplicate_hit. destruct (duplicate_link d); [|done]. simpl.
      unfold eq_ignore_ascii_case at 1. rewrite Hd, Hhash.
      apply Hh in Hin as [Hin|(n & -> & _)%list_elem_of_fmap]; [by apply elem_of_nil in Hin|].
      rewrite Hhash. by apply String.eqb_neq in Hneq as ->. }
    induction (answers h) as [|d ds IHd]; [done|]. simpl. rewrite (Hall d) by left.
    apply IHd. intros d' Hd'. apply Hall. by right.
Qed.
End Duplicates.

(** ** A photo under its new parent *)

(** The link with what is sent for it. *)
Definition brought_link (link : LinkDto) (p : PhotoPayload) : LinkDto :=
  {| ln_id := ln_id link; ln_link_type := ln_link_type link; ln_parent_id := ln_parent_id link;
     ln_state := ln_state link; ln_creation_time := ln_creation_time link;
     ln_modification_time := ln_modification_time link; ln_trash_time := ln_trash_time link;
     ln_trashed_legacy := ln_trashed_legacy link; ln_name := py_name p; ln_name_hash := Some (py_name_hash p);
     ln_key := ln_key link; ln_passphrase := py_passphrase p;
     ln_passphrase_signature := ln_passphrase_signature link;
     ln_signature_email := ln_signature_email link; ln_name_signature_email := Some (py_name_signature_email p);
     ln_third_party := ln_third_party link; ln_sdk := ln_sdk link |}.

Section Opens.
Context {W Key Pub Sig CKey FK CS : Type} `{KeyOps Key} `{PassphraseOps} `{!SealOps W Key}
        `{!SignatureOps Key Pub Sig} `{!VerifyOps Key Pub} `{!ContentOps Key CKey}
        `{!ContentKeyExport CKey} `{AttributeOps} `{!MoveCrypto W Key} `{AttributeWriter}
        `{DriveApi W} `{!NodeApi W} `{!AccountKeys W Key Pub} `{!AccountAddresses W}
        `{!DriveEntities W} `{NameOps} `{!Lru FK NodeUid Key} `{!Lru CS NodeUid ShareId}
        `{!SealLaws W Key Pub Sig} `{!MoveCryptoLaws W Key}.

Abbreviation State := (DriveState W Key FK CS).

Ltac next E x t Hx := apply fbind_inv in E as [(? & _ & [=])|(x & t & Hx & E)].

Lemma on_seal_answer {A} (m : M W A CryptoError) (s : State) a s' :
  flift (on_seal m) s = Some (Ok a, s') -> exists w w', m w = (Ok a, w').
Proof.
  unfold flift, on_seal, on_world. intros [= E]. destruct (m (ds_world s)) as [r w'] eqn:Em. exists (ds_world s), w'.
  rewrite Em. revert E. destruct r; simpl; [by intros [= <-]|done].
Qed.

Lemma lifted_state {A} (r : Res A) (s : State) a s' : flift (mlift r) s = Some (Ok a, s') -> r = Ok a /\ s' = s.
Proof. by intros [= -> <-]. Qed.

(** C27: What is sent for a photo to join an album or the timeline opens under the target's
    key to what the old link opened to under its parent's key: the same node key,
    and the photo's name, signed by the address that brings it. *)
Theorem photo_opens_at_target fuel uid target_key target_hash_key email signing_key (s : State) p s' :
  photo_target_payload (Pub := Pub) (Sig := Sig) (CKey := CKey) fuel uid target_key target_hash_key email
    signing_key s = Some (Ok p, s') ->
  exists node detail parent_key (s1 s2 s3 : State),
    get_photos_node (Sig := Sig) (CKey := CKey) fuel uid s = Some (Ok (Some node), s1) /\
    (exists details, get_link_details_ctx drive_post_links (volume_id uid) [link_id uid] true s1 = (Ok details, s2) /\
       head (lr_links details) = Some detail) /\
    let link := ld_link detail in
    drive_resolve_parent_key_ctx fuel (volume_id uid) link true s2 = Some (Ok parent_key, s3) /\
    py_name_hash p = hex_hmac_sha256 target_hash_key (nd_name node) /\
    (forall ring, public_half signing_key ∈ ring ->
       decrypt_armored_verify target_key (py_name p) ring = Ok (nd_name node, VOk)) /\
    forall opened, decrypt_link parent_key link = Ok opened -> utf8_text (nd_name node) = Ok (nd_name node) ->
      decrypt_link target_key (brought_link link p)
        = Ok {| dl_node_key := dl_node_key opened; dl_name := nd_name node |}.
Proof.
  unfold photo_target_payload. intros E. next E found s1 Hn. next E node t1 Hf. next E sha t2 Hc.
  next E digest t3 Hs. next E details t4 Hd. next E detail t5 Hh. next E parent_key t6 Hp.
  next E passphrase t7 Hr. next E name t8 Hm. injection E as <- _.
  apply lifted_state in Hf as [Hf ->]. destruct found as [n|]; [|discriminate Hf]. injection Hf as ->.
  apply on_seal_answer in Hr as (w1 & w2 & Hr). apply on_seal_answer in Hm as (w3 & w4 & Hm).
  apply lifted_state in Hc as [_ ->], Hs as [_ ->], Hh as [Hh ->]. injection Hd as Hd.
  destruct (lr_links details) as [|d rest] eqn:El; [discriminate Hh|]. injection Hh as ->.
  exists node, detail, parent_key, s1, t4, t6. simpl.
  split_and!; [exact Hn|exists details; by rewrite El|exact Hp|done| |].
  - by eapply encrypt_and_sign_opens.
  - intros opened Ho Hu. revert Ho. unfold decrypt_link. simpl.
    apply encrypt_and_sign_opens in Hm as [-> _]. apply rewrap_opens in Hr as ->.
    destruct (decrypt_armored_message parent_key (ln_passphrase (ld_link detail))) as [pass|]; simpl; [|done].
    destruct (key_from_armored (ln_key (ld_link detail)) pass) as [k|]; simpl; [|done].
    destruct (decrypt_armored_message parent_key (ln_name (ld_link detail))) as [text|]; simpl; [|done].
    destruct (utf8_text text); simpl; [|done]. intros [= <-]. by rewrite Hu.
Qed.
End Opens.

(** ** Deleting an album *)

Section Albums.
Context {W Key Pub Sig CKey FK CS : Type} `{KeyOps Key} `{PassphraseOps} `{SealOps W Key}
        `{SignatureOps Key Pub Sig} `{!VerifyOps Key Pub} `{!ContentOps Key CKey}
        `{!ContentKeyExport CKey} `{AttributeOps} `{!MoveCrypto W Key} `{AttributeWriter}
        `{DriveApi W} `{!NodeApi W} `{!ActionApi W} `{!PhotosApi W}
        `{!AccountKeys W Key Pub} `{!AccountAddresses W}
        `{!DriveEntities W} `{NameOps} `{!Lru FK NodeUid Key} `{!Lru CS NodeUid ShareId}.

Abbreviation State := (DriveState W Key FK CS).
Abbreviation build_ := (transfer_photo_payload (Pub := Pub) (Sig := Sig) (CKey := CKey) (FK := FK) (CS := CS)).
Abbreviation save_ := (save_photos_to_timeline (Pub := Pub) (Sig := Sig) (CKey := CKey) (FK := FK) (CS := CS)).
Abbreviation delete_ := (delete_album (Key := Key) (FK := FK) (CS := CS)).
Abbreviation delete_saving := (delete_album_saving_photos (Pub := Pub) (Sig := Sig) (CKey := CKey) (FK := FK) (CS := CS)).

Ltac next E x := let t := fresh "t" in apply fbind_inv in E as [(? & _ & [=])|(x & t & ? & E)].

Lemma built_payload_uid fuel uid key hash_key email signing_key (s : State) p s' :
  photo_target_payload (Pub := Pub) (Sig := Sig) (CKey := CKey) fuel uid key hash_key email signing_key s
    = Some (Ok p, s') -> py_uid p = uid.
Proof. unfold photo_target_payload. intros E. do 9 (let x := fresh "x" in next E x). by injection E as <- _. Qed.

Lemma built_for_uid fuel target uid extra (s : State) p s' :
  build_ fuel target uid extra s = Some (Ok p, s') -> uid_of p = uid.
Proof.
  unfold transfer_photo_payload. intros E. apply fbind_inv in E as [(? & _ & [=])|(photo & t & Eb & E)].
  do 4 (let x := fresh "x" in next E x). injection E as <- _. by apply built_payload_uid in Eb.
Qed.

Lemma saved_answers fuel photos (s : State) outcomes s' :
  save_ fuel photos s = Some (Ok outcomes, s') -> outcomes.*1 ≡ₚ photos.
Proof.
  unfold save_photos_to_timeline. case_bool_decide as Hn; [intros [= <- _]; by subst|].
  intros E. next E root. next E keys. destruct keys as [key hash_key]. next E addr. destruct addr as [[a email] signing_key].
  eapply transfer_answer; [|exact E]. intros uid extra s2 p s2'. apply built_for_uid.
Qed.
Lemma all_saved (outcomes : list Outcome) photos :
  outcomes.*1 ≡ₚ photos -> first_failure outcomes = Ok tt -> outcomes ≡ₚ (fun uid => (uid, Ok tt)) <$> photos.
Proof.
  intros <-. clear photos. induction outcomes as [|[uid [[]|e]] outcomes IH]; intros Hf; [done| |done].
  simpl. by rewrite <- IH.
Qed.

(** C30: Deleting an album whose photos are saved first: when the server refuses the
    first attempt and names photos, the second is sent only after every photo it
    named - each exactly once - was brought into the timeline; otherwise the call
    fails, and nothing was asked of the server since the saving. *)
Theorem album_deleted_after_saving fuel album_uid error (s s1 : State) r s' :
  delete_ album_uid false s = (Err (Api error), s1) ->
  pe_code error = ResponseCode.AlbumContainsPhotosNotInTimeline ->
  photos_only_in_album error (volume_id album_uid) <> [] ->
  delete_saving fuel album_uid s = Some (r, s') ->
  (exists e, r = Err e /\ exists saved, save_ fuel (photos_only_in_album error (volume_id album_uid)) s1 = Some (saved, s') /\
     forall outcomes, saved = Ok outcomes -> exists uid, (uid, Err e) ∈ outcomes) \/
  (exists outcomes s2, save_ fuel (photos_only_in_album error (volume_id album_uid)) s1 = Some (Ok outcomes, s2) /\
     outcomes ≡ₚ (fun uid => (uid, Ok tt)) <$> photos_only_in_album error (volume_id album_uid) /\
     delete_ album_uid false s2 = (r, s')).
Proof.
  intros Hd Hcode Hnamed. unfold delete_album_saving_photos.
  unfold fbind at 1, flift at 1, mtry, mbind_. rewrite Hd. simpl. rewrite bool_decide_true by done.
  set (photos := photos_only_in_album error (volume_id album_uid)) in *.
  clearbody photos. destruct photos as [|photo rest]; [done|].
  unfold fbind at 1. destruct (save_ fuel _ s1) as [[[outcomes|e] s2]|] eqn:Es; [| |done].
  2: { intros [= <- <-]. left. eexists. split; [done|]. eexists. by split. }
  unfold fbind, flift, mlift. destruct (first_failure outcomes) as [[]|e] eqn:Ef.
  - intros [= Hr]. right. eexists _, _. split; [done|]. split; [|by destruct (delete_ _ _ _)].
    apply saved_answers in Es. by apply all_saved.
  - intros [= <- <-]. left. eexists. split; [done|]. eexists. split; [done|]. intros ? [= <-].
    clear Es. induction outcomes as [|[uid [[]|e']] outcomes IH]; simpl in Ef; [done| |].
    + destruct (IH Ef) as [u Hu]. exists u. by right.
    + injection Ef as ->. exists uid. left.
Qed.
End Albums.

(** ** A small album *)

Module ToyPhotos.
(** Photos [a], [b], [c], where the server wants [x] with [b] and never gets it. *)
Definition payload (uid : NodeUid) : PhotoTargetPayload :=
  {| py_photo := {| py_uid := uid; py_parent_uid := None; py_original_name_hash := Some "old";
                    py_name_hash := "new"; py_name := "name"; py_name_signature_email := "me";
                    py_passphrase := "pass"; py_content_hash := "sha" |};
     py_related := [] |}.

Definition answer (l : AddPhotoToAlbumEntry) : PhotoLinkOutcome :=
  if String.eqb (ae_link_id l) "b"
  then {| po_link_id := "b"; po_code := 2000; po_error := None; po_details_missing := Some ["x"] |}
  else {| po_link_id := ae_link_id l; po_code := 1000; po_error := None; po_details_missing := None |}.

Definition album : PhotoTransferTarget string :=
  {| pt_uid := NodeUid_new "v" "album"; pt_kind := Album; pt_key := "k"; pt_hash_key := "h";
     pt_email := "me"; pt_signing_key := "s" |}.

Definition given : list NodeUid := NodeUid_new "v" <$> ["a"; "b"; "c"; "b"].

Definition built : NodeUid -> list NodeUid -> FM unit PhotoTargetPayload ProtonError :=
  fun uid _ => fret (payload uid).
Definition moved : string -> TransferPhotosRequest -> M unit (list PhotoLinkOutcome) ProtonError :=
  fun _ _ => mret [].
Definition added : string -> list AddPhotoToAlbumEntry -> M unit (list PhotoLinkOutcome) ProtonError :=
  fun _ l => mret (answer <$> l).
Definition copied : string -> CopyPhotoRequest -> M unit CopyLinkResponse ProtonError :=
  fun _ _ => mret {| cx_link_id := "new" |}.

Lemma transfer_one_outcome_each_witness :
  exists outcomes, transfer_photos built moved added copied album 8 given tt = Some (Ok outcomes, tt) /\
    outcomes.*1 ≡ₚ given /\ snd <$> outcomes !! 1%nat = Some (Ok tt).
Proof.
  destruct (transfer_one_outcome_each built moved added copied album) with (photo_uids := given) (s := tt)
    as (r & s' & Hrun & Hall).
  - by intros uid extra s p s' [= <- _].
  - intros uid extra s. by eexists.
  - change (2 * length given)%nat with 8%nat in Hrun. pose proof Hrun as Hrun'.
    vm_compute in Hrun'. injection Hrun' as <- <-. eexists. split; [exact Hrun|]. split; [exact Hall|reflexivity].
Defined.

(** The root's key is cached; the server knows, of every hash, a photo of that name
    whose contents are ["old"], and a trashed one. *)
#[local] Instance held_key : Lru (option string) NodeUid string := {
  lru_cache_get _ l := (l, l);
  lru_cache_put _ k _ := Some k
}.

Definition root_details : LinkDetailsDto :=
  {| ld_link := small_link "r" None 1;
     ld_folder := Some {| fo_hash_key := "key-r:hk"; fo_extended_attributes := None |};
     ld_file := None; ld_photo := None; ld_album := None; ld_sharing := None; ld_membership := None |}.

(** The photo [x], held by the album [album] only. *)
Definition held_details : LinkDetailsDto :=
  {| ld_link := {| ln_id := "x"; ln_link_type := 2; ln_parent_id := Some "album"; ln_state := 1;
                   ln_creation_time := 0; ln_modification_time := 0; ln_trash_time := None;
                   ln_trashed_legacy := None; ln_name := "key-r:x.jpg"; ln_name_hash := Some "hash";
                   ln_key := "key-x"; ln_passphrase := "key-r:pass"; ln_passphrase_signature := None;
                   ln_signature_email := None; ln_name_signature_email := None;
                   ln_third_party := false; ln_sdk := true |};
     ld_folder := None;
     ld_file := Some {| fi_media_type := "image/jpeg"; fi_total_size_on_storage := 3;
                        fi_content_key_packet := None; fi_content_key_signature := None;
                        fi_active_revision := Some {| ar_id := "rev"; ar_creation_time := 0;
                          ar_state := Some 1; ar_encrypted_size := 3; ar_signature_email := None;
                          ar_extended_attributes := Some "key-x:attributes";
                          ar_third_party := false; ar_sdk := true |} |};
     ld_photo := None; ld_album := None; ld_sharing := None; ld_membership := None |}.

#[local] Instance photo_attributes : AttributeOps := {
  parse_extended_attributes text :=
    Ok {| ea_common := Some {| xa_size := None; xa_modification_time := None; xa_block_sizes := None;
                               xa_digests := Some {| sha1 := Some text |} |};
          ea_location := None |}
}.

#[local] Instance photo_addresses : AccountAddresses unit := {
  acct_default_address := mfail (invalid_operation "absent");
  acct_address id := mret {| ad_id := id; ad_email := "me"; ad_order := 1; ad_status := 1;
                             ad_primary_key_index := 0; ad_primary_key_id := "k" |}
}.

#[local] Instance photo_server : DriveApi unit := {
  get_share_bootstrap := get_share_bootstrap;
  get_volumes := get_volumes;
  post_volume := post_volume;
  get_share := get_share;
  get_devices := get_devices;
  get_shared_with_me := get_shared_with_me;
  get_context_share := get_context_share;
  post_links _ q := mret {| lr_links := if decide (lq_link_ids q = ["x"]) then [held_details] else [root_details] |}
}.

#[local] Instance photo_names : NameOps := {
  hex_hmac_sha256 k m := to_ascii_lowercase (k +:+ "/" +:+ m);
  serialize_modification_time := Ok
}.

#[local] Instance photo_writer : AttributeWriter := {
  sha1_hex_digest := to_ascii_lowercase;
  write_attributes _ := Err "unused"
}.

(** The album cannot be deleted: [x] is in no timeline. *)
Definition refusal : ProtonApiError :=
  {| pe_code := ResponseCode.AlbumContainsPhotosNotInTimeline; pe_http_status := 422; pe_message := "refused";
     pe_details := Some (JObject [("ChildLinkIDs", JArray [JString "x"])]) |}.

#[local] Instance photo_actions : ActionApi unit := {
  get_shared_by_me _ := mfail (invalid_operation "absent");
  post_device _ _ := mfail (invalid_operation "absent");
  put_device_name _ _ := mret tt;
  delete_at _ := mfail (Api refusal)
}.

Definition stored (hash : string) : list FoundPhotoDuplicateDto :=
  (fun state => {| fd_name_hash := hash; fd_content_hash := "hk/old"; fd_link_state := Some state;
                   fd_client_uid := None; fd_link_id := Some ("of-" +:+ hash) |}) <$> [1; 2].

#[local] Instance photo_api : PhotosApi unit := {
  get_timeline _ := mret [];
  post_duplicates _ batch := mret (concat (stored <$> batch));
  post_album _ _ := mret "album";
  put_album _ _ := mret tt;
  post_remove_photos _ _ := mret tt;
  put_transfer_photos _ _ := mret [];
  post_album_photos _ l := mret (answer <$> l);
  post_copy_photo _ _ := mret {| cx_link_id := "new" |};
  get_albums _ := mfail (invalid_operation "absent");
  get_album_items _ := mfail (invalid_operation "absent");
  get_shared_albums _ := mfail (invalid_operation "absent");
  post_favorite _ := mret tt;
  post_tags _ _ := mret tt;
  delete_tags _ _ := mret tt
}.

Definition shared_root : NodeUid := NodeUid_new "v" "r".

Definition photos_state : DriveState unit string (option string) unit :=
  {| ds_cache := {| dc_main_volume_id := None; dc_my_files_share := None; dc_my_files_root := None;
                    dc_photos_share := Some {| sk_share_id := "s"; sk_address_id := "me"; sk_key := "share" |};
                    dc_photos_root := Some shared_root; dc_photos_volume_exists := Some true;
                    dc_folder_keys := Some "key-r"; dc_shared_with_me_shares := None;
                    dc_context_share_ids := tt |};
     ds_world := tt |}.

Lemma ascii_lower_twice c : ascii_lower (ascii_lower c) = ascii_lower c.
Proof. by destruct c as [[] [] [] [] [] [] [] []]. Qed.
Lemma lowercase_twice s : to_ascii_lowercase (to_ascii_lowercase s) = to_ascii_lowercase s.
Proof. induction s as [|c s IH]; [done|]. simpl. by rewrite ascii_lower_twice, IH. Qed.

Definition imported : list (string * string) := [("a.jpg", "old"); ("b.jpg", "new"); ("A.JPG", "OLD")].

Lemma duplicates_many_as_alone_witness :
  exists found,
    find_photo_duplicates_many (Pub := string) 5
      ((fun p => (p.1, sha1_hex_digest p.2)) <$> imported) photos_state = Some (Ok found, photos_state) /\
    found !! 2%nat = Some [NodeUid_new "v" "of-hk/a.jpg"] /\
    find_photo_duplicates (Pub := string) 5 "b.jpg" "new" photos_state
      = Some (Ok [], photos_state).
Proof.
  destruct (duplicates_many_as_alone (Pub := string) 5 shared_root "key-r" "hk" imported stored
              photos_state) as (found & Hmany & Halone).
  - done.
  - vm_compute. reflexivity.
  - vm_compute. reflexivity.
  - split; [done|]. intros h d Hd. by apply list_elem_of_fmap in Hd as (? & -> & _).
  - intros n. apply lowercase_twice.
  - apply lowercase_twice.
  - exists found. split_and!; [exact Hmany| |].
    + vm_compute in Hmany. injection Hmany as <-. reflexivity.
    + by vm_compute.
Defined.

(** The server goes on refusing; the second attempt is made only because [x] is in
    the timeline now. *)
Lemma album_deleted_after_saving_witness :
  exists r s' outcomes s2,
    delete_album_saving_photos (Pub := string) (Sig := string * string) (CKey := string) 5
      (NodeUid_new "v" "album") photos_state = Some (r, s') /\
    save_photos_to_timeline (Pub := string) (Sig := string * string) (CKey := string) 5
      [NodeUid_new "v" "x"] photos_state = Some (Ok outcomes, s2) /\
    outcomes ≡ₚ [(NodeUid_new "v" "x", Ok tt)] /\ r = Err (Api refusal).
Proof.
  destruct (delete_album_saving_photos (Pub := string) (Sig := string * string) (CKey := string) 5
              (NodeUid_new "v" "album") photos_state) as [[r s']|] eqn:E; [|vm_compute in E; discriminate].
  exists r, s'. pose proof E as Er. vm_compute in Er. injection Er as Er _.
  destruct (album_deleted_after_saving 5 (NodeUid_new "v" "album") refusal photos_state photos_state r s')
    as [(e & He & saved & Hs & Hall)|(outcomes & s2 & Hs & Hp & Hd)].
  - reflexivity.
  - reflexivity.
  - vm_compute. discriminate.
  - exact E.
  - exfalso. vm_compute in Hs. injection Hs as <- _. destruct (Hall _ eq_refl) as [uid Hin].
    apply list_elem_of_singleton in Hin. congruence.
  - exists outcomes, s2. split_and!; [done|exact Hs|exact Hp|done].
Defined.
End ToyPhotos.

(** ** A photo on its way into an album

    [sealed_message]'s messages; the photo [x] of the folder [f] is brought into an
    album whose key is [album-key]. *)

Module ToyAlbum.
#[local] Existing Instances sealed_keys sealed_verify sealed_seal sealed_laws toy_signatures sealed_account
  sealed_names sealed_passphrases ToyPhotos.held_key ToyPhotos.photo_attributes ToyPhotos.photo_writer
  SharingFacts.ToyShare.share_nodes SharingFacts.ToyShare.share_entities.

#[local] Instance album_rewrap : MoveCrypto nat string := {
  rewrap_message_to k m k' := mlift (let? text := decrypt_armored_message k m in sealed_message k' "" text);
  sign_detached_with k text := mret ("pub-" +:+ k +:+ "|" +:+ text);
  encrypt_and_sign k signer text := mlift (sealed_message k signer text);
  hex_hmac k text := k +:+ "#" +:+ text
}.

Lemma sealed_decrypts k signer text m : sealed_message k signer text = Ok m -> decrypt_armored_message k m = Ok text.
Proof. intros E%sealed_message_opens. simpl. by rewrite E, String.eqb_refl. Qed.

#[local] Instance album_rewrap_laws : MoveCryptoLaws nat string.
Proof.
  split.
  - intros k m k' s s' m' E. unfold rewrap_message_to, album_rewrap, mlift in E.
    destruct (decrypt_armored_message k m) as [text|e]; [|discriminate E].
    injection E as E _. by eapply sealed_decrypts.
  - intros k signer text s s' m [= E _]. by eapply sealed_decrypts.
Qed.

Definition photo_link : LinkDto :=
  {| ln_id := "x"; ln_link_type := 2; ln_parent_id := Some "f"; ln_state := 1;
     ln_creation_time := 0; ln_modification_time := 0; ln_trash_time := None;
     ln_trashed_legacy := None; ln_name := "key-r:bob:x.jpg"; ln_name_hash := Some "hash";
     ln_key := "key-x"; ln_passphrase := "key-r:bob:pass"; ln_passphrase_signature := None;
     ln_signature_email := None; ln_name_signature_email := None; ln_third_party := false; ln_sdk := true |}.

Definition photo_details : LinkDetailsDto :=
  {| ld_link := photo_link; ld_folder := None;
     ld_file := Some {| fi_media_type := "image/jpeg"; fi_total_size_on_storage := 3;
                        fi_content_key_packet := None; fi_content_key_signature := None;
                        fi_active_revision := Some {| ar_id := "rev"; ar_creation_time := 0;
                          ar_state := Some 1; ar_encrypted_size := 3; ar_signature_email := None;
                          ar_extended_attributes := Some "key-x:bob:digest";
                          ar_third_party := false; ar_sdk := true |} |};
     ld_photo := None; ld_album := None; ld_sharing := None; ld_membership := None |}.

#[local] Instance album_server : DriveApi nat := {
  get_share_bootstrap _ := mfail (invalid_operation "absent");
  get_volumes _ := mret {| vl_volumes := [] |};
  post_volume _ _ := mret tt;
  get_share _ := mfail (invalid_operation "absent");
  get_devices _ := mret {| de_devices := [] |};
  get_shared_with_me _ := mret {| sw_links := []; sw_anchor_id := None; sw_more := false |};
  get_context_share _ := mret {| cs_context_share_id := "s" |};
  post_links _ _ := mret {| lr_links := [photo_details] |}
}.

#[local] Instance album_addresses : AccountAddresses nat := {
  acct_default_address := mfail (invalid_operation "absent");
  acct_address _ := mfail (invalid_operation "absent")
}.

Definition album_state : DriveState nat string (option string) unit :=
  {| ds_cache := ds_cache ToyPhotos.photos_state; ds_world := 0%nat |}.

Lemma photo_opens_at_target_witness :
  exists p s', photo_target_payload (Pub := string) (Sig := string * string) (CKey := string) 5
      (NodeUid_new "v" "x") "album-key" "album-hash" "me" "bob" album_state = Some (Ok p, s') /\
    decrypt_link "album-key" (brought_link photo_link p) = Ok {| dl_node_key := "key-x"; dl_name := "x.jpg" |} /\
    decrypt_armored_verify "album-key" (py_name p) ["pub-bob"] = Ok ("x.jpg", VOk).
Proof.
  destruct (photo_target_payload (Pub := string) (Sig := string * string) (CKey := string) 5
      (NodeUid_new "v" "x") "album-key" "album-hash" "me" "bob" album_state) as [[[p|e] s']|] eqn:E;
    [|vm_compute in E; discriminate..].
  exists p, s'. split; [reflexivity|].
  destruct (photo_opens_at_target (W := nat) (Sig := string * string) 5 (NodeUid_new "v" "x") "album-key" "album-hash" "me" "bob"
    album_state p s' E) as (node & detail & parent_key & s1 & s2 & s3 & Hn & (details & Hd & Hh) & Hp & _ & Hv & Ho).
  vm_compute in Hn. injection Hn as <- <-. vm_compute in Hd. injection Hd as <- <-. injection Hh as <-.
  vm_compute in Hp. injection Hp as <- _. split; [|apply (Hv ["pub-bob"]); left].
  apply (Ho {| dl_node_key := "key-x"; dl_name := "x.jpg" |}); reflexivity.
Defined.
End ToyAlbum.

