(* ===== verification/Clients.v ===== *)
(** * Clients and what their clones share

    The assembly of a [ProtonDriveClient] ([proton-drive-rs/src/client.rs]:
    constructors, [with_*] builders, [Clone]) and of the [ProtonPhotosClient]
    around it ([photos.rs]).  A client is mostly [Arc]s: here references into a
    heap, so that the model says which settings reach which clones.

    Proved: the pool of in-flight blocks is never empty; clones share all of
    cache, account, gates and small-upload switch, and separately built clients
    share none of them; what each builder changes for every other client. *)

From S2P Require Import Prelude Errors Config Keys Http Node LinkCrypto Account PublicLink Drive.

Section Clients.
Context {Key PubKey Repo FK CS : Type}.
(** [InMemoryCacheRepository::shared], an empty folder-key and context-share map *)
Context (in_memory_repository : Repo) (no_folder_keys : FK) (no_context_shares : CS).

(** The session an [AccountClient] sends through is a reference too. *)
Abbreviation Account := (AccountClient nat Key PubKey).

(** What the [Arc]s point to.  A session's HTTP state is its telemetry sink here;
    a gate is the locks and the single flights of one client - [bootstrap],
    [node_loads], [parent_key_loads] and [context_share_gate], four [Arc]s that are
    only ever made and cloned together, so one reference stands for them. *)
Record Heap := {
  hp_http_sinks : list sink;
  hp_accounts : list Account;
  hp_caches : list (DriveCache Key FK CS);
  hp_gates : list unit;
  hp_small_uploads : list bool;
  hp_block_slots : list Z
}.

Record ProtonDriveClient := {
  cl_http : nat;
  cl_route_prefix : string;
  cl_account : nat;
  cl_cache : nat;
  cl_entities : Repo;
  cl_telemetry : sink;
  cl_block_slots : nat;
  cl_small_file_upload : nat;
  cl_gates : nat
}.

(** tokio's [Semaphore::new] panics above [MAX_PERMITS]. *)
Definition MAX_PERMITS : Z := 2 ^ 61 - 1.

(** ** Constructors *)

(** The struct literal of [with_account] and [with_entity_cache]. *)
Definition assemble (session : nat) (account : Account) (entities : Repo) (h : Heap)
  : ProtonDriveClient * Heap :=
  ({| cl_http := session; cl_route_prefix := "drive/"; cl_account := length (hp_accounts h);
      cl_cache := length (hp_caches h); cl_entities := entities; cl_telemetry := None;
      cl_block_slots := length (hp_block_slots h);
      cl_small_file_upload := length (hp_small_uploads h); cl_gates := length (hp_gates h) |},
   {| hp_http_sinks := hp_http_sinks h; hp_accounts := hp_accounts h ++ [account];
      hp_caches := hp_caches h ++ [DriveCache_default no_folder_keys no_context_shares];
      hp_gates := hp_gates h ++ [tt]; hp_small_uploads := hp_small_uploads h ++ [false];
      hp_block_slots := hp_block_slots h ++ [Z.of_nat DEFAULT_MAX_INFLIGHT_BLOCKS] |}).

Definition with_entity_cache (session : nat) (mailbox_password : string) (repository : Repo)
  : Heap -> ProtonDriveClient * Heap :=
  assemble session (AccountClient_new session mailbox_password) repository.

Definition ProtonDriveClient_new (session : nat) (mailbox_password : string)
  : Heap -> ProtonDriveClient * Heap :=
  with_entity_cache session mailbox_password in_memory_repository.

Definition with_account (session : nat) (account : Account) : Heap -> ProtonDriveClient * Heap :=
  assemble session account in_memory_repository.

Definition with_key_salts (session : nat) (mailbox_password : string) (key_salts : list KeySalt)
  : Heap -> ProtonDriveClient * Heap :=
  with_account session (Account.with_key_salts session mailbox_password key_salts).

Definition with_key_passphrases (session : nat) (key_passphrases : KeyPassphrases)
  : Heap -> ProtonDriveClient * Heap :=
  with_account session (Account.with_key_passphrases session key_passphrases).

(** ** Builders: each takes the client it is called on *)

Definition with_entity_repository (repository : Repo) (c : ProtonDriveClient) : ProtonDriveClient :=
  {| cl_http := cl_http c; cl_route_prefix := cl_route_prefix c; cl_account := cl_account c;
     cl_cache := cl_cache c; cl_entities := repository; cl_telemetry := cl_telemetry c;
     cl_block_slots := cl_block_slots c; cl_small_file_upload := cl_small_file_upload c;
     cl_gates := cl_gates c |}.

(** The session's sink is replaced for everyone, the operations' for this client. *)
Definition with_telemetry (telemetry : sink) (c : ProtonDriveClient) (h : Heap)
  : ProtonDriveClient * Heap :=
  ({| cl_http := cl_http c; cl_route_prefix := cl_route_prefix c; cl_account := cl_account c;
      cl_cache := cl_cache c; cl_entities := cl_entities c; cl_telemetry := telemetry;
      cl_block_slots := cl_block_slots c; cl_small_file_upload := cl_small_file_upload c;
      cl_gates := cl_gates c |},
   {| hp_http_sinks := <[cl_http c := telemetry]> (hp_http_sinks h); hp_accounts := hp_accounts h;
      hp_caches := hp_caches h; hp_gates := hp_gates h; hp_small_uploads := hp_small_uploads h;
      hp_block_slots := hp_block_slots h |}).

(** A pool of its own; [None] for the panic of [Semaphore::new]. *)
Definition with_max_inflight_blocks (blocks : Z) (c : ProtonDriveClient) (h : Heap)
  : option (ProtonDriveClient * Heap) :=
  if MAX_PERMITS <? Z.max blocks 1 then None
  else Some
    ({| cl_http := cl_http c; cl_route_prefix := cl_route_prefix c; cl_account := cl_account c;
        cl_cache := cl_cache c; cl_entities := cl_entities c; cl_telemetry := cl_telemetry c;
        cl_block_slots := length (hp_block_slots h); cl_small_file_upload := cl_small_file_upload c;
        cl_gates := cl_gates c |},
     {| hp_http_sinks := hp_http_sinks h; hp_accounts := hp_accounts h; hp_caches := hp_caches h;
        hp_gates := hp_gates h; hp_small_uploads := hp_small_uploads h;
        hp_block_slots := hp_block_slots h ++ [Z.max blocks 1] |}).

Definition with_small_file_upload (enabled : bool) (c : ProtonDriveClient) (h : Heap)
  : ProtonDriveClient * Heap :=
  (c, {| hp_http_sinks := hp_http_sinks h; hp_accounts := hp_accounts h; hp_caches := hp_caches h;
         hp_gates := hp_gates h; hp_small_uploads := <[cl_small_file_upload c := enabled]> (hp_small_uploads h);
         hp_block_slots := hp_block_slots h |}).

(** [#[derive(Clone)]]: the same references. *)
Definition ProtonDriveClient_clone (c : ProtonDriveClient) : ProtonDriveClient := c.

(** ** What a client sees *)

Definition block_slots (c : ProtonDriveClient) (h : Heap) : option Z := hp_block_slots h !! cl_block_slots c.
Definition account (c : ProtonDriveClient) (h : Heap) : option Account := hp_accounts h !! cl_account c.
(** Where the events of its requests go. *)
Definition request_sink (c : ProtonDriveClient) (h : Heap) : option sink := hp_http_sinks h !! cl_http c.
Definition small_uploads (c : ProtonDriveClient) (h : Heap) : option bool :=
  hp_small_uploads h !! cl_small_file_upload c.

(** ** The Photos client: a Drive client of its own, or one it shares *)

Record ProtonPhotosClient := { ph_drive : ProtonDriveClient }.

Definition ProtonPhotosClient_new (session : nat) (mailbox_password : string) (h : Heap)
  : ProtonPhotosClient * Heap :=
  let (drive, h) := ProtonDriveClient_new session mailbox_password h in ({| ph_drive := drive |}, h).

Definition from_drive_client (drive : ProtonDriveClient) : ProtonPhotosClient := {| ph_drive := drive |}.

(** ** Programs that build clients *)

(** What may have happened to a heap and to the clients built on it: sessions
    begin, clients are constructed, cloned, configured - a client that a builder
    consumed stays listed, as a clone taken before would - and used, which
    changes accounts and caches in place. *)
Inductive Reached : Heap -> list ProtonDriveClient -> Prop :=
| R_start : Reached {| hp_http_sinks := []; hp_accounts := []; hp_caches := []; hp_gates := [];
                       hp_small_uploads := []; hp_block_slots := [] |} []
| R_session h cs : Reached h cs ->
    Reached {| hp_http_sinks := hp_http_sinks h ++ [None]; hp_accounts := hp_accounts h;
               hp_caches := hp_caches h; hp_gates := hp_gates h;
               hp_small_uploads := hp_small_uploads h; hp_block_slots := hp_block_slots h |} cs
| R_construct h cs session account entities c h' : Reached h cs ->
    (session < length (hp_http_sinks h))%nat -> assemble session account entities h = (c, h') ->
    Reached h' (c :: cs)
| R_clone h cs c : Reached h cs -> c ∈ cs -> Reached h (ProtonDriveClient_clone c :: cs)
| R_repository h cs repository c : Reached h cs -> c ∈ cs -> Reached h (with_entity_repository repository c :: cs)
| R_telemetry h cs telemetry c c' h' : Reached h cs -> c ∈ cs ->
    with_telemetry telemetry c h = (c', h') -> Reached h' (c' :: cs)
| R_blocks h cs blocks c c' h' : Reached h cs -> c ∈ cs ->
    with_max_inflight_blocks blocks c h = Some (c', h') -> Reached h' (c' :: cs)
| R_small h cs enabled c c' h' : Reached h cs -> c ∈ cs ->
    with_small_file_upload enabled c h = (c', h') -> Reached h' (c' :: cs)
| R_use h cs accounts caches : Reached h cs -> length accounts = length (hp_accounts h) ->
    length caches = length (hp_caches h) ->
    Reached {| hp_http_sinks := hp_http_sinks h; hp_accounts := accounts; hp_caches := caches;
               hp_gates := hp_gates h; hp_small_uploads := hp_small_uploads h;
               hp_block_slots := hp_block_slots h |} cs.

(** A client's four own references are those one construction made. *)
Record client_ok (h : Heap) (c : ProtonDriveClient) : Prop := {
  ok_session : (cl_http c < length (hp_http_sinks h))%nat;
  ok_own : (cl_account c < length (hp_accounts h))%nat;
  ok_cache : cl_cache c = cl_account c;
  ok_gates : cl_gates c = cl_account c;
  ok_small : cl_small_file_upload c = cl_account c;
  ok_slots : exists n, block_slots c h = Some n /\ 1 <= n <= MAX_PERMITS
}.

Record heap_ok (h : Heap) (cs : list ProtonDriveClient) : Prop := {
  ok_caches : length (hp_caches h) = length (hp_accounts h);
  ok_gates_length : length (hp_gates h) = length (hp_accounts h);
  ok_small_length : length (hp_small_uploads h) = length (hp_accounts h);
  ok_clients : Forall (client_ok h) cs
}.

(** A heap that only grew keeps its clients. *)
Lemma client_ok_grown h h' c :
  (length (hp_http_sinks h) <= length (hp_http_sinks h'))%nat ->
  (length (hp_accounts h) <= length (hp_accounts h'))%nat ->
  hp_block_slots h `prefix_of` hp_block_slots h' -> client_ok h c -> client_ok h' c.
Proof.
  intros Hs Ha [slots Hb] [? ? ? ? ? (n & Hn & ?)]. split; [lia|lia|done..|]. exists n. split; [|done].
  unfold block_slots in *. rewrite Hb. by apply lookup_app_l_Some.
Qed.

Lemma reached_ok h cs : Reached h cs -> heap_ok h cs.
Proof.
  assert (Hgrow : forall h h' cs, heap_ok h cs ->
    (length (hp_http_sinks h) <= length (hp_http_sinks h'))%nat ->
    (length (hp_accounts h) <= length (hp_accounts h'))%nat ->
    hp_block_slots h `prefix_of` hp_block_slots h' -> Forall (client_ok h') cs).
  { intros h0 h1 cs0 [_ _ _ Hc] ???. eapply Forall_impl; [exact Hc|]. intros c. by apply client_ok_grown. }
  induction 1 as [|h cs _ IH|h cs session account entities c h' _ IH Hs E|h cs c _ IH Hin|h cs r c _ IH Hin
                  |h cs t c c' h' _ IH Hin E|h cs n c c' h' _ IH Hin E|h cs b c c' h' _ IH Hin E
                  |h cs accounts caches _ IH Ha Hc]; [by split| |..].
  - pose proof IH as [? ? ? _]. split; simpl; [done..|].
    eapply Hgrow; [exact IH|simpl; rewrite ?length_app; lia|done|done].
  - pose proof IH as [? ? ? _]. injection E as <- <-. split; simpl; rewrite ?length_app; simpl; [lia..|].
    constructor.
    + split; simpl; rewrite ?length_app; simpl; [done|lia|done..|]. exists 16.
      unfold block_slots. simpl. rewrite lookup_app_r, Nat.sub_diag by lia. by unfold MAX_PERMITS.
    + eapply Hgrow; [exact IH|done|simpl; rewrite ?length_app; lia|by apply prefix_app_r].
  - pose proof IH as [? ? ? Hc]. split; [done..|]. constructor; [|done]. by eapply Forall_forall in Hc.
  - pose proof IH as [? ? ? Hc]. split; [done..|]. constructor; [|done].
    eapply Forall_forall in Hc as []; [|done]. by split.
  - pose proof IH as [? ? ? Hc]. injection E as <- <-. split; simpl; [done..|]. constructor.
    + eapply Forall_forall in Hc as []; [|done]. split; simpl; rewrite ?length_insert; done.
    + eapply Hgrow; [exact IH|simpl; by rewrite length_insert|done|done].
  - pose proof IH as [? ? ? Hc]. unfold with_max_inflight_blocks in E.
    destruct (MAX_PERMITS <? Z.max n 1) eqn:En; [done|]. apply Z.ltb_ge in En. injection E as <- <-.
    split; simpl; [done..|]. constructor.
    + eapply Forall_forall in Hc as []; [|done]. split; simpl; [done..|]. exists (Z.max n 1). split; [|lia].
      unfold block_slots. simpl. by rewrite lookup_app_r, Nat.sub_diag by lia.
    + eapply Hgrow; [exact IH|done|done|by apply prefix_app_r].
  - pose proof IH as [? ? ? Hc]. injection E as <- <-. split; simpl; rewrite ?length_insert; [done..|].
    constructor; [|by eapply Hgrow]. eapply Forall_forall in Hc as []; [|done]. by split.
  - pose proof IH as [? ? ? Hc']. split; simpl; [congruence..|]. eapply Hgrow; [exact IH|done|simpl; lia|done].
Qed.

(** C39: whatever was built, cloned, configured and used: no client dangles, its
    account, cache, gates, small-upload switch and session are on the heap; it has at
    least one block permit, so no transfer waits forever for its first, and no more
    than a semaphore can hold; and two clients either share account, cache, gates and
    small-upload switch, or none of them. *)
Theorem clients_share_all_or_nothing h cs c d :
  Reached h cs -> c ∈ cs -> d ∈ cs ->
  (is_Some (account c h) /\ is_Some (hp_caches h !! cl_cache c) /\ is_Some (hp_gates h !! cl_gates c) /\
   is_Some (small_uploads c h) /\ is_Some (request_sink c h)) /\
  (exists n, block_slots c h = Some n /\ 1 <= n <= MAX_PERMITS) /\
  let shared := [cl_account c =? cl_account d; cl_cache c =? cl_cache d; cl_gates c =? cl_gates d;
                 cl_small_file_upload c =? cl_small_file_upload d]%nat in
  Forall (fun same => same = true) shared \/ Forall (fun same => same = false) shared.
Proof.
  intros [Lc Lg Ls Hc]%reached_ok Hin Hd. pose proof Hc as Hc'.
  eapply Forall_forall in Hc as [Hh Ho Ec Eg Es Hn]; [|exact Hin].
  eapply Forall_forall in Hc' as [_ _ Dc Dg Ds _]; [|exact Hd].
  split. { unfold account, small_uploads, request_sink. rewrite Ec, Eg, Es. split_and!; apply lookup_lt_is_Some; lia. }
  split; [done|].
  rewrite Ec, Eg, Es, Dc, Dg, Ds. destruct (Nat.eqb _ _); [left|right]; by repeat constructor.
Qed.

(** What the builders called on [c] change for any client [d]: the sink of the
    requests of everyone on the session, but of nobody's operations; the block pool
    of nobody; the small-upload switch of those that share it. *)
Theorem settings_reach h cs c d :
  Reached h cs -> c ∈ cs -> d ∈ cs ->
  (forall telemetry,
     request_sink d (with_telemetry telemetry c h).2
       = (if Nat.eqb (cl_http d) (cl_http c) then Some telemetry else request_sink d h) /\
     cl_telemetry (with_telemetry telemetry c h).1 = telemetry) /\
  (forall blocks c' h', with_max_inflight_blocks blocks c h = Some (c', h') ->
     block_slots c' h' = Some (Z.max blocks 1) /\ block_slots d h' = block_slots d h) /\
  (forall enabled, small_uploads d (with_small_file_upload enabled c h).2
     = (if Nat.eqb (cl_account d) (cl_account c) then Some enabled else small_uploads d h)).
Proof.
  intros [_ _ Hs Hc]%reached_ok Hin Hd. pose proof Hc as Hc'.
  eapply Forall_forall in Hc as [Hh Ho _ _ Es _]; [|exact Hin].
  eapply Forall_forall in Hc' as [Dh Do _ _ Ds (n & Hn & _)]; [|exact Hd]. split_and!.
  - intros t. split; [|done]. unfold request_sink. simpl. destruct (Nat.eqb_spec (cl_http d) (cl_http c)) as [->|Hne].
    + by apply list_lookup_insert_eq.
    + by apply list_lookup_insert_ne.
  - intros blocks c' h'. unfold with_max_inflight_blocks. destruct (_ <? _); [done|]. intros [= <- <-].
    unfold block_slots in *. simpl. split; [by rewrite lookup_app_r, Nat.sub_diag by lia|].
    rewrite Hn. by apply lookup_app_l_Some.
  - intros b. unfold small_uploads. simpl. rewrite Ds, Es.
    destruct (Nat.eqb_spec (cl_account d) (cl_account c)) as [->|Hne].
    + apply list_lookup_insert_eq. by rewrite Hs.
    + by apply list_lookup_insert_ne.
Qed.
End Clients.

(** Two clients of one session, the first cloned with a pool of its own. *)
Lemma clients_share_all_or_nothing_witness :
  exists h (c d e : ProtonDriveClient (Repo := unit)),
    Reached (Key := string) (PubKey := string) (FK := unit) (CS := unit) tt tt h [e; d; c] /\
    block_slots e h = Some 1 /\ (exists n, block_slots e h = Some n /\ 1 <= n <= MAX_PERMITS).
Proof.
  set (fresh := AccountClient_new (Key := string) (PubKey := string) 0%nat "secret").
  assert (H := R_start (Key := string) (PubKey := string) (Repo := unit) (FK := unit) (CS := unit) tt tt).
  apply R_session in H.
  eapply (R_construct _ _ _ _ 0%nat fresh tt) in H; [|simpl; lia|reflexivity].
  eapply (R_construct _ _ _ _ 0%nat fresh tt) in H; [|simpl; lia|reflexivity].
  eapply (R_blocks _ _ _ _ 0) in H; [|right; left|reflexivity].
  eexists _, _, _, _. split; [exact H|]. split; [reflexivity|].
  eapply clients_share_all_or_nothing; [exact H|left|left].
Defined.

(** ** Who the My Files passphrase is for *)

Section Recipients.
Context {W PubKey : Type} `{DriveApi W} `{ArmoredOps PubKey}.

(** It opens nothing, so it answers for a share that no key opens. *)
Definition my_files_share_recipients : M W (AddressId * list (option string)) ProtonError :=
  let* response := get_share_bootstrap "v2/shares/my-files" in
  let share := mf_share response in
  let* recipients := mlift (map_err Crypto (recipients (sh_passphrase share))) in
  mret (sh_address_id share, recipients).
End Recipients.
