(* ===== verification/PhotosClient.v ===== *)
(** * The Photos client's operations

    [proton-drive-rs/src/photos.rs]: what each operation of a [ProtonPhotosClient]
    asks of the Drive client inside it.  The names are those of the source; a state
    of the Drive client is the Photos client's whole state.

    Proved: which of the operations differ from the Drive client's own only in the
    photos route they take, and that the buffered ones are the streaming ones over a
    buffer. *)

From S2P Require Import Prelude Errors Config Keys Sealing Http Transport Revision Node Names.
From S2P Require Import EntityCache Upload Links Moves LinkCrypto Account PublicLink Drive Nodes Downloads.
From S2P Require Import Actions Drafts Photos Events.

Section PhotosClient.
Context {W Key Pub Sig CKey FK CS : Type} `{KeyOps Key} `{PassphraseOps} `{SealOps W Key}
        `{SignatureOps Key Pub Sig} `{!VerifyOps Key Pub} `{!ContentOps Key CKey}
        `{!ContentKeyExport CKey} `{!SessionKeyOps W Key Pub CKey} `{!Drafts.FileSealOps W Key CKey}
        `{AttributeOps} `{AttributeWriter} `{!MoveCrypto W Key} `{!Drafts.UploadApi W}
        `{DriveApi W} `{!NodeApi W} `{!ContentApi W} `{!Actions.ActionApi W} `{!Photos.PhotosApi W}
        `{!AccountKeys W Key Pub} `{!AccountAddresses W}
        `{!DriveEntities W} `{NameOps} `{Sha256} `{!Lru FK NodeUid Key} `{!Lru CS NodeUid ShareId}.

Abbreviation State := (DriveState W Key FK CS).
Abbreviation Call A := (M State A ProtonError).
Abbreviation Run A := (FM State A ProtonError).

(** ** Nodes and listings *)

Definition get_photos_root (fuel : nat) : Run (option Node) :=
  Nodes.get_photos_root (Sig := Sig) (CKey := CKey) fuel.
Definition get_node (fuel : nat) (uid : NodeUid) : Run (option Node) :=
  Nodes.get_photos_node (Sig := Sig) (CKey := CKey) fuel uid.
Definition enumerate_nodes (fuel : nat) (uids : list NodeUid) : Run (list Node) :=
  Nodes.enumerate_photos_nodes (Sig := Sig) (CKey := CKey) fuel uids.
Definition report_recently_accessed (items : list RecentlyAccessedReportItem) : Call unit :=
  Nodes.report_photos_recently_accessed items.
Definition enumerate_timeline (fuel : nat) : Run (list Photos.PhotosTimelineItem) :=
  Photos.enumerate_photos_timeline fuel.
Definition enumerate_shared_node_uids (fuel : nat) : Run (list NodeUid) :=
  Actions.enumerate_photos_shared_by_me_node_uids fuel.
Definition enumerate_shared_with_me_node_uids (fuel : nat) : Run (list NodeUid) :=
  Photos.enumerate_photos_shared_with_me_node_uids fuel.
Definition enumerate_shared_with_me_album_uids (fuel : nat) : Run (list NodeUid) :=
  Photos.enumerate_shared_with_me_album_uids fuel.
Definition enumerate_events `{!Events.EventApi State} (fuel : nat) (scope : VolumeId) (cursor : option DriveEventId)
  : Run (list Events.DriveEvent) := Events.enumerate_events fuel scope cursor.

(** ** Content *)

Definition download_photo_to {O : Type} `{Writer O} (fuel : nat) (uid : NodeUid)
  : FM (O * State) VerificationStatus ProtonError := Downloads.download_photo_to fuel uid.

(** Into a buffer that an error drops. *)
Definition download_photo (fuel : nat) (uid : NodeUid) : Run string := fun s =>
  match download_photo_to fuel uid (EmptyString, s) with
  | Some (Ok _, (buf, s)) => Some (Ok buf, s)
  | Some (Err e, (_, s)) => Some (Err e, s)
  | None => None
  end.

Definition upload_photo_from {R : Type} `{Reader R} (permits : State -> bool * State)
    (receive : list PreparedBlock -> list (list PreparedBlock))
    (completion : list (option (Z * string)) -> list (option (Z * string))) (read_fuel write_fuel fuel : nat)
    (name media_type : string) (intended_size : Z) (thumbnails : list Thumbnail)
    (metadata : PhotoUploadMetadata) (aead : bool) : FM (State * R) NodeUid ProtonError :=
  Drafts.upload_photo_from permits receive completion read_fuel write_fuel fuel name media_type
    intended_size thumbnails metadata aead.

(** [Cursor::new(contents)], [contents.len() as i64]. *)
Definition upload_photo (permits : State -> bool * State)
    (receive : list PreparedBlock -> list (list PreparedBlock))
    (completion : list (option (Z * string)) -> list (option (Z * string))) (read_fuel write_fuel fuel : nat)
    (name media_type contents : string) (metadata : PhotoUploadMetadata) : Run NodeUid :=
  from_buffer contents (upload_photo_from permits receive completion read_fuel write_fuel fuel name media_type
    (wrap_i64 (Z.of_nat (String.length contents))) [] metadata false).

Definition download_thumbnail (fuel : nat) (uid : NodeUid) (thumbnail_type : ThumbnailType)
  : Run (option string) := Downloads.download_thumbnail_ctx fuel uid thumbnail_type true.
Definition enumerate_thumbnails (fuel : nat) (arrange : gmap string (NodeUid * CKey) -> list string) (uids : list NodeUid)
    (thumbnail_type : ThumbnailType) : Run (list FileThumbnail) :=
  Downloads.enumerate_thumbnails_ctx fuel arrange uids thumbnail_type true.

(** ** Duplicates *)

Definition find_duplicates (fuel : nat) (name contents : string) : Run (list NodeUid) :=
  Photos.find_photo_duplicates fuel name contents.
Definition find_duplicates_many (fuel : nat) (items : list (string * string)) : Run (list (list NodeUid)) :=
  Photos.find_photo_duplicates_many fuel items.
Definition name_collisions (fuel : nat) (names : list string) : Run (list bool) :=
  Photos.photo_name_collisions fuel names.

(** ** Albums *)

Definition create_album (fuel : nat) (name : string) : Run NodeUid := Photos.create_album fuel name.
Definition add_photos_to_album (fuel : nat) (album_uid : NodeUid) (photo_uids : list NodeUid) : Run (list Outcome) :=
  Photos.add_photos_to_album (Sig := Sig) (CKey := CKey) fuel album_uid photo_uids.
Definition rename_album (fuel : nat) (album_uid : NodeUid) (name : string) : Run unit :=
  Photos.rename_album fuel album_uid name.
Definition set_album_cover (album_uid cover_uid : NodeUid) : Call unit := Photos.set_album_cover album_uid cover_uid.
Definition delete_album (album_uid : NodeUid) (delete_photos : bool) : Call unit :=
  Photos.delete_album album_uid delete_photos.
Definition delete_album_saving_photos (fuel : nat) (album_uid : NodeUid) : Run unit :=
  Photos.delete_album_saving_photos (Sig := Sig) (CKey := CKey) fuel album_uid.
Definition remove_photos_from_album (album_uid : NodeUid) (photo_uids : list NodeUid) : Call (list Outcome) :=
  Photos.remove_photos_from_album album_uid photo_uids.
Definition enumerate_album_node_uids (fuel : nat) : Run (list NodeUid) := Photos.enumerate_album_node_uids fuel.
Definition enumerate_album (fuel : nat) (album_uid : NodeUid) : Run (list AlbumItem) :=
  Photos.enumerate_album fuel album_uid.

(** ** Tags and the timeline *)

Definition update_photos (updates : list PhotoTagsUpdate) : Call (list Outcome) := Photos.update_photos updates.
Definition save_photos_to_timeline (fuel : nat) (photo_uids : list NodeUid) : Run (list Outcome) :=
  Photos.save_photos_to_timeline (Sig := Sig) (CKey := CKey) fuel photo_uids.
Definition update_photos_streaming (updates : list PhotoTagsUpdate) : Call (list Outcome * option ProtonError) :=
  Photos.update_photos_streaming updates.

(** ** What they promise *)

(** The tag updates answer for every photo given, in the order given. *)
Lemma apply_tag_updates_uids own updates outcomes (s : State) :
  exists more s', apply_tag_updates own updates outcomes s = (Ok (outcomes ++ more), s') /\
    more.*1 = up_node_uid <$> updates.
Proof.
  revert outcomes s. induction updates as [|update updates IH]; intros outcomes s; simpl.
  { exists [], s. by rewrite app_nil_r. }
  unfold mbind_, mtry. destruct (apply_tag_update own update s) as [outcome s1]. simpl.
  destruct (IH (outcomes ++ [(up_node_uid update, outcome)]) s1) as (more & s2 & E & Huids).
  exists ((up_node_uid update, outcome) :: more), s2. by rewrite E, <- app_assoc, !fmap_cons, Huids.
Qed.

(** The collected call and the drained stream are the same requests: the same end
    state, the outcomes of the one those of the other, an outcome for every update in
    order unless the whole call fails; and then the stream yields that error alone. *)
Theorem update_photos_as_streamed updates (s : State) outcomes error s' :
  update_photos_streaming updates s = (Ok (outcomes, error), s') ->
  update_photos updates s = (match error with None => Ok outcomes | Some e => Err e end, s') /\
  match error with
  | None => outcomes.*1 = up_node_uid <$> updates
  | Some _ => outcomes = []
  end.
Proof.
  unfold update_photos_streaming, update_photos, Photos.update_photos_streaming, Photos.update_photos.
  destruct updates as [|update updates]; [by intros [= <- <- <-]|].
  rewrite bool_decide_eq_false_2 by done. unfold mbind_ at 1, mtry.
  unfold mbind_ at 2. destruct (own_photos_volume s) as [[own|e] s1]; [|by intros [= <- <- <-]].
  destruct (apply_tag_updates_uids own (update :: updates) [] s1) as (more & s2 & E & Huids).
  unfold mbind_. rewrite E. intros [= <- <- <-]. done.
Qed.
End PhotosClient.
