(* ===== verification/Figures.v ===== *)
(** * Figures

    The two places where the program computes in binary64: the [duration_ms] of a
    logged event ([proton-sdk/src/telemetry.rs]: [TracingTelemetry]) and the fraction
    of a quota in use ([account.rs]: [Quota::used_fraction]), on the Standard
    Library's executable floats.

    Proved: a fraction in use is never outside 0 and 1, whatever the server claims;
    what a log line says of an event. *)

From Stdlib Require Import SpecFloat.
From S2P Require Import Prelude Errors Config Keys Http Account.

Abbreviation f64 := spec_float.
Abbreviation f64_prec := 53%Z.
Abbreviation f64_emax := 1024%Z.

(** [as f64] *)
Definition f64_of_Z (z : Z) : f64 := binary_normalize f64_prec f64_emax z 0 false.

(** [f64::clamp] between numbers. *)
Definition f64_clamp (low high x : f64) : f64 :=
  let x := if SFltb x low then low else x in
  if SFltb high x then high else x.

(** ** Quotas *)

Definition used_fraction (q : Quota) : f64 :=
  if qu_max_space q <=? 0 then f64_of_Z 0
  else f64_clamp (f64_of_Z 0) (f64_of_Z 1)
         (SFdiv f64_prec f64_emax (f64_of_Z (qu_used_space q)) (f64_of_Z (qu_max_space q))).

(** ** The tracing observer *)

Inductive Level := Debug | Warn.

Record LogLine := {
  lg_level : Level;
  lg_target : string;
  lg_operation : string;
  lg_outcome : string;
  lg_duration_ms : f64;
  lg_attributes : string;
  lg_message : string
}.

(** [Duration::as_secs_f64] of a duration in nanoseconds. *)
Definition as_secs_f64 (duration : Z) : f64 :=
  SFadd f64_prec f64_emax (f64_of_Z (duration / 1000000000))
    (SFdiv f64_prec f64_emax (f64_of_Z (duration mod 1000000000)) (f64_of_Z 1000000000)).

Fixpoint join_spaced (parts : list string) : string :=
  match parts with
  | [] => EmptyString
  | [part] => part
  | part :: parts => part +:+ " " +:+ join_spaced parts
  end.

(** [TracingTelemetry::record], up to the subscriber. *)
Definition TracingTelemetry_record (event : TelemetryEvent) : LogLine :=
  let duration_ms := SFmul f64_prec f64_emax (as_secs_f64 (ev_duration event)) (f64_of_Z 1000) in
  let attrs := join_spaced ((fun '(k, v) => k +:+ "=" +:+ v) <$> ev_attributes event) in
  let line level message :=
    {| lg_level := level; lg_target := "proton_sdk::telemetry"; lg_operation := ev_operation event;
       lg_outcome := Outcome_as_str (ev_outcome event); lg_duration_ms := duration_ms;
       lg_attributes := attrs; lg_message := message |} in
  match ev_outcome event with
  | Success => line Debug "operation completed"
  | Failure => line Warn "operation failed"
  end.

(** ** What they promise *)

Lemma f64_clamp_range low high x :
  SFltb low low = false -> SFltb high high = false -> SFltb high low = false ->
  SFltb (f64_clamp low high x) low = false /\ SFltb high (f64_clamp low high x) = false.
Proof.
  intros Hl Hh Hlh. unfold f64_clamp. destruct (SFltb x low) eqn:E; [by rewrite Hlh|].
  by destruct (SFltb high x) eqn:E'.
Qed.

(** Whatever sizes the server claims, negative ones included: the fraction in use is
    neither below 0 nor above 1, and 0 for a quota of nothing. *)
Theorem used_fraction_range q :
  SFltb (used_fraction q) (f64_of_Z 0) = false /\ SFltb (f64_of_Z 1) (used_fraction q) = false /\
  (qu_max_space q <= 0 -> used_fraction q = S754_zero false).
Proof.
  unfold used_fraction. destruct (qu_max_space q <=? 0) eqn:E.
  { done. }
  destruct (f64_clamp_range (f64_of_Z 0) (f64_of_Z 1)
    (SFdiv f64_prec f64_emax (f64_of_Z (qu_used_space q)) (f64_of_Z (qu_max_space q)))) as [Hl Hh]; [done..|].
  split_and!; [done..|]. apply Z.leb_gt in E. lia.
Qed.

(** A half used, one and a half used, a millisecond and a half. *)
Example half_used : used_fraction {| qu_max_space := 10; qu_used_space := 5 |}
  = SFdiv f64_prec f64_emax (f64_of_Z 1) (f64_of_Z 2).
Proof. vm_compute. reflexivity. Qed.
Example overused : used_fraction {| qu_max_space := 10; qu_used_space := 15 |} = f64_of_Z 1.
Proof. vm_compute. reflexivity. Qed.
Example logged_millis :
  let line := TracingTelemetry_record {| ev_operation := "download_file"; ev_outcome := Failure; ev_duration := 2000000;
                                         ev_attributes := [("a", "1"); ("b", "2")] |} in
  (lg_level line, lg_duration_ms line, lg_attributes line) = (Warn, f64_of_Z 2, "a=1 b=2").
Proof. vm_compute. reflexivity. Qed.

(** A timer dropped before its operation marked it successful logs a warning, and
    nothing else does. *)
Theorem timer_warns_on_failure now t sink event :
  OpTimer_drop now t = Some (sink, event) ->
  (lg_level (TracingTelemetry_record event) = Warn <-> ot_outcome t = Failure).
Proof.
  unfold OpTimer_drop. destruct (ot_telemetry t); [|done]. intros [= <- <-]. unfold TracingTelemetry_record. simpl.
  by destruct (ot_outcome t).
Qed.
