(* ===== verification/Redaction.v ===== *)
(** * What Debug shows

    The hand-written [Debug] of the types that hold secrets: [PublicLink] and
    [Bookmark] ([proton-drive-rs/src/sharing.rs]), [KeyPassphrases]
    ([proton-sdk/src/account/passphrases.rs]).  [fmt]'s own rendering of a field is
    left out: a struct is shown as its name and its fields' values.

    Proved: two values that differ only in their secrets show the same. *)

From S2P Require Import Prelude Errors Config Keys Node Account Sharing.

(** What [debug_struct] is given. *)
Inductive Shown :=
| ShownText (text : string)
| ShownNumber (z : Z)
| ShownBool (b : bool)
| ShownRole (role : MemberRole)
| ShownOption (value : option Shown).

Record DebugStruct := { db_name : string; db_fields : list (string * Shown) }.

Definition shown_text (text : option string) : Shown := ShownOption (ShownText <$> text).

Definition PublicLink_debug (link : PublicLink) : DebugStruct :=
  {| db_name := "PublicLink";
     db_fields :=
       [("share_id", ShownText (li_share_id link));
        ("public_link_id", ShownText (li_public_link_id link));
        ("url", shown_text (redacted (li_url link)));
        ("role", ShownRole (li_role link));
        ("creation_time", ShownNumber (li_creation_time link));
        ("expiration_time", ShownOption (ShownNumber <$> li_expiration_time link));
        ("has_custom_password", ShownBool (li_has_custom_password link));
        ("custom_password", shown_text (redacted (li_custom_password link)))] |}.

Definition Bookmark_debug (bookmark : Bookmark) : DebugStruct :=
  {| db_name := "Bookmark";
     db_fields :=
       [("token", ShownText (bk_token bookmark));
        ("url", ShownText "<redacted>");
        ("custom_password", shown_text (redacted (bk_custom_password bookmark)));
        ("node_name", shown_text (bk_node_name bookmark));
        ("is_folder", ShownBool (bk_is_folder bookmark));
        ("creation_time", ShownNumber (bk_creation_time bookmark))] |}.

Definition KeyPassphrases_debug (p : KeyPassphrases) : string :=
  "KeyPassphrases(" +:+ pretty (N.of_nat (size p)) +:+ " redacted)".

(** ** Nothing secret shows *)

(** Changed as only a holder of the secrets could tell. *)
Definition same_but_secrets (l k : PublicLink) : Prop :=
  li_share_id l = li_share_id k /\ li_public_link_id l = li_public_link_id k /\ li_role l = li_role k /\
  li_creation_time l = li_creation_time k /\ li_expiration_time l = li_expiration_time k /\
  li_has_custom_password l = li_has_custom_password k /\
  (is_Some (li_url l) <-> is_Some (li_url k)) /\
  (is_Some (li_custom_password l) <-> is_Some (li_custom_password k)).

Lemma redacted_same (a b : option string) : (is_Some a <-> is_Some b) -> redacted a = redacted b.
Proof. destruct a, b; unfold is_Some; naive_solver. Qed.

(** Two public links that agree on everything but what their URL and custom password
    are, two bookmarks that agree on everything but these, two sets of passphrases
    for as many keys: shown the same, so nothing of a secret can be read off. *)
Theorem debug_shows_no_secret :
  (forall l k, same_but_secrets l k -> PublicLink_debug l = PublicLink_debug k) /\
  (forall b url password, (is_Some password <-> is_Some (bk_custom_password b)) ->
     Bookmark_debug {| bk_token := bk_token b; bk_url := url; bk_custom_password := password;
                       bk_node_name := bk_node_name b; bk_is_folder := bk_is_folder b;
                       bk_creation_time := bk_creation_time b |} = Bookmark_debug b) /\
  (forall p q : KeyPassphrases, size p = size q -> KeyPassphrases_debug p = KeyPassphrases_debug q).
Proof.
  split_and!.
  - intros l k (E1 & E2 & E3 & E4 & E5 & E6 & Hu & Hp). unfold PublicLink_debug.
    by rewrite E1, E2, E3, E4, E5, E6, (redacted_same _ _ Hu), (redacted_same _ _ Hp).
  - intros b url password Hp. unfold Bookmark_debug. simpl. by rewrite (redacted_same _ _ Hp).
  - intros p q E. unfold KeyPassphrases_debug. by rewrite E.
Qed.

Example one_passphrase_shown : KeyPassphrases_debug (KeyPassphrases_insert "k" "secret" KeyPassphrases_new)
  = "KeyPassphrases(1 redacted)".
Proof. vm_compute. reflexivity. Qed.
