(* ===== verification/Gate.v ===== *)
(** * The Drive client's gates

    The two protocols of [client.rs] that guard a cache across an await, as step
    functions on events, for any interleaving of their callers:
    - the context-share gate ([context_share_gate]): lookups of a node's context
      share ([context_share_id]) hold its read half through cache, request and
      cache; moves ([run_context_share_mutation]) and the invalidations of remote
      events ([invalidate_caches_for_event]) hold its write half;
    - the bootstrap locks ([Bootstrap]): [ensure_my_files] and [ensure_photos] check,
      lock, check again and only then ask.
    The locks are tokio's: a [RwLock] admits readers together or one writer, a
    [Mutex] one holder; in what order it admits them is left open.  Sections under
    the cache's own mutex never await, so each is one step. *)

From S2P Require Import Prelude Errors Config Transport Node LinkCrypto Account Drive.

(** ** The context-share gate *)

(** The share through which each node is reached; [None] where the endpoint refuses. *)
Definition Contexts : Type := NodeUid -> option ShareId.

Inductive LookupPhase :=
| LookupQueued
| LookupEntered                      (* holds the read half *)
| LookupAsked                        (* missed; the request is out *)
| LookupServed (share_id : ShareId)  (* the server has answered *)
| LookupReturned (answer : option ShareId).

Inductive ChangePhase :=
| ChangeQueued
| ChangeEntered                      (* holds the write half *)
| ChangeSent (committed : bool)      (* detached, after the first clear *)
| ChangeAnswered                     (* before the second clear *)
| ChangeReturned.

Inductive InvalidationPhase :=
| InvalidationQueued
| InvalidationEntered
| InvalidationReturned.

Inductive Task :=
| Lookup (uid : NodeUid) (phase : LookupPhase)
| Change (phase : ChangePhase)
| Invalidation (phase : InvalidationPhase)
| Cancelled.

Definition holds_read (t : Task) : bool :=
  match t with
  | Lookup _ (LookupEntered | LookupAsked | LookupServed _) => true
  | _ => false
  end.

Definition holds_write (t : Task) : bool :=
  match t with
  | Change (ChangeEntered | ChangeSent _ | ChangeAnswered) | Invalidation InvalidationEntered => true
  | _ => false
  end.

Definition holds (t : Task) : bool := holds_read t || holds_write t.

Definition finished (t : Task) : bool :=
  match t with
  | Lookup _ (LookupReturned _) | Change ChangeReturned | Invalidation InvalidationReturned
  | Cancelled => true
  | _ => false
  end.

Inductive GateEvent :=
| StartLookup (uid : NodeUid)
| StartChange
| StartInvalidation
| Enter (task : nat)                      (* the lock admits it *)
| Look (task : nat)                       (* the lookup reads the cache *)
| Serve (task : nat)                      (* the server answers the lookup *)
| Fail (task : nat)                       (* the lookup's request fails *)
| Store (task : nat)                      (* the answer is cached and returned *)
| Clear (task : nat)                      (* the first or only clear *)
| Commit (task : nat) (after : Contexts)  (* the server carries out the change *)
| Answer (task : nat)                     (* its request returns, whatever with *)
| ClearAgain (task : nat)
| Remote (after : Contexts)               (* another client's change, or a late one of ours *)
| Cancel (task : nat).                    (* the caller's future is dropped *)

Section ContextGate.
Context {L : Type} `{!Lru L NodeUid ShareId} (lru_cache_clear : L -> L).

(** Every state of the server, the last one current; the cache; the tasks, numbered
    as they came.  [gs_cleared] and [gs_changed] record, for the proofs, the
    server's state at the last clear and after this client's last change. *)
Record GateState := {
  gs_history : list Contexts;
  gs_cache : L;
  gs_tasks : list Task;
  gs_cleared : nat;
  gs_changed : nat
}.

Definition GateState_new (contexts : Contexts) (empty : L) : GateState :=
  {| gs_history := [contexts]; gs_cache := empty; gs_tasks := []; gs_cleared := 0; gs_changed := 0 |}.

Definition current (s : GateState) : nat := pred (length (gs_history s)).

Definition contexts_now (s : GateState) : Contexts :=
  default (fun _ => None) (gs_history s !! current s).

Definition with_task (i : nat) (t : Task) (s : GateState) : GateState :=
  {| gs_history := gs_history s; gs_cache := gs_cache s; gs_tasks := <[i := t]> (gs_tasks s);
     gs_cleared := gs_cleared s; gs_changed := gs_changed s |}.

Definition with_cache (cache : L) (s : GateState) : GateState :=
  {| gs_history := gs_history s; gs_cache := cache; gs_tasks := gs_tasks s;
     gs_cleared := gs_cleared s; gs_changed := gs_changed s |}.

Definition started (t : Task) (s : GateState) : GateState :=
  {| gs_history := gs_history s; gs_cache := gs_cache s; gs_tasks := gs_tasks s ++ [t];
     gs_cleared := gs_cleared s; gs_changed := gs_changed s |}.

(** [cache.lock().await.context_share_ids.clear()] *)
Definition cleared (s : GateState) : GateState :=
  {| gs_history := gs_history s; gs_cache := lru_cache_clear (gs_cache s); gs_tasks := gs_tasks s;
     gs_cleared := current s; gs_changed := gs_changed s |}.

Definition server_changed (own : bool) (after : Contexts) (s : GateState) : GateState :=
  {| gs_history := gs_history s ++ [after]; gs_cache := gs_cache s; gs_tasks := gs_tasks s;
     gs_cleared := gs_cleared s;
     gs_changed := if own then length (gs_history s) else gs_changed s |}.

(** [RwLock]: readers share, a writer is alone. *)
Definition enter (i : nat) (s : GateState) : option GateState :=
  t ← gs_tasks s !! i;
  match t with
  | Lookup uid LookupQueued =>
      if existsb holds_write (gs_tasks s) then None else Some (with_task i (Lookup uid LookupEntered) s)
  | Change ChangeQueued =>
      if existsb holds (gs_tasks s) then None else Some (with_task i (Change ChangeEntered) s)
  | Invalidation InvalidationQueued =>
      if existsb holds (gs_tasks s) then None else Some (with_task i (Invalidation InvalidationEntered) s)
  | _ => None
  end.

(** [context_share_id], from its first cache access to its return *)
Definition lookup_step (e : GateEvent) (uid : NodeUid) (phase : LookupPhase) (i : nat) (s : GateState)
  : option GateState :=
  match e, phase with
  | Look _, LookupEntered =>
      let (held, cache) := lru_cache_get uid (gs_cache s) in
      let s := with_cache cache s in
      Some (with_task i (Lookup uid match held with
                                    | Some share_id => LookupReturned (Some share_id)
                                    | None => LookupAsked
                                    end) s)
  | Serve _, LookupAsked =>
      Some (with_task i (Lookup uid match contexts_now s uid with
                                    | Some share_id => LookupServed share_id
                                    | None => LookupReturned None
                                    end) s)
  | Fail _, (LookupAsked | LookupServed _) => Some (with_task i (Lookup uid (LookupReturned None)) s)
  | Store _, LookupServed share_id =>
      Some (with_task i (Lookup uid (LookupReturned (Some share_id)))
              (with_cache (lru_cache_put uid share_id (gs_cache s)) s))
  | Cancel _, (LookupQueued | LookupEntered | LookupAsked | LookupServed _) => Some (with_task i Cancelled s)
  | _, _ => None
  end.

(** [run_context_share_mutation]: its caller can be cancelled up to the spawn; the
    spawned task goes on without it. *)
Definition change_step (e : GateEvent) (phase : ChangePhase) (i : nat) (s : GateState) : option GateState :=
  match e, phase with
  | Clear _, ChangeEntered => Some (with_task i (Change (ChangeSent false)) (cleared s))
  | Commit _ after, ChangeSent false =>
      Some (with_task i (Change (ChangeSent true)) (server_changed true after s))
  | Answer _, ChangeSent _ => Some (with_task i (Change ChangeAnswered) s)
  | ClearAgain _, ChangeAnswered => Some (with_task i (Change ChangeReturned) (cleared s))
  | Cancel _, (ChangeQueued | ChangeEntered) => Some (with_task i Cancelled s)
  | Cancel _, (ChangeSent _ | ChangeAnswered) => Some s
  | _, _ => None
  end.

(** The guarded block of [invalidate_caches_for_event] *)
Definition invalidation_step (e : GateEvent) (phase : InvalidationPhase) (i : nat) (s : GateState)
  : option GateState :=
  match e, phase with
  | Clear _, InvalidationEntered => Some (with_task i (Invalidation InvalidationReturned) (cleared s))
  | Cancel _, (InvalidationQueued | InvalidationEntered) => Some (with_task i Cancelled s)
  | _, _ => None
  end.

Definition task_step (e : GateEvent) (i : nat) (s : GateState) : option GateState :=
  t ← gs_tasks s !! i;
  match t with
  | Lookup uid phase => lookup_step e uid phase i s
  | Change phase => change_step e phase i s
  | Invalidation phase => invalidation_step e phase i s
  | Cancelled => None
  end.

Definition gate_step (e : GateEvent) (s : GateState) : option GateState :=
  match e with
  | StartLookup uid => Some (started (Lookup uid LookupQueued) s)
  | StartChange => Some (started (Change ChangeQueued) s)
  | StartInvalidation => Some (started (Invalidation InvalidationQueued) s)
  | Remote after => Some (server_changed false after s)
  | Enter i => enter i s
  | Look i | Serve i | Fail i | Store i | Clear i | Commit i _ | Answer i | ClearAgain i | Cancel i =>
      task_step e i s
  end.

Fixpoint gate_run (es : list GateEvent) (s : GateState) : option GateState :=
  match es with
  | [] => Some s
  | e :: es => s ← gate_step e s; gate_run es s
  end.
End ContextGate.
Arguments GateState L : clear implicits.

(** ** The bootstrap locks *)

Inductive CallerPhase :=
| CallerFirst                       (* before the first check *)
| CallerWaiting                     (* for the lock *)
| CallerLocked                      (* before the second check *)
| CallerAsking                      (* the bootstrap's requests are out *)
| CallerReturned (ok : bool)
| CallerCancelled.

Inductive BootstrapEvent :=
| CallStarted
| FirstCheck (caller : nat)
| LockTaken (caller : nat)
| SecondCheck (caller : nat)
| BootstrapEnds (caller : nat) (ok : bool)  (* on success with the cache filled *)
| CallerDropped (caller : nat).

(** Whether the share is cached, the callers as they came, and how many bootstraps
    were run and how many of them succeeded. *)
Record BootstrapState := {
  bs_cached : bool;
  bs_callers : list CallerPhase;
  bs_runs : nat;
  bs_successes : nat
}.

Definition BootstrapState_new : BootstrapState :=
  {| bs_cached := false; bs_callers := []; bs_runs := 0; bs_successes := 0 |}.

Definition locked (c : CallerPhase) : bool :=
  match c with CallerLocked | CallerAsking => true | _ => false end.

Definition with_caller (i : nat) (c : CallerPhase) (s : BootstrapState) : BootstrapState :=
  {| bs_cached := bs_cached s; bs_callers := <[i := c]> (bs_callers s);
     bs_runs := bs_runs s; bs_successes := bs_successes s |}.

Definition caller_step (e : BootstrapEvent) (i : nat) (c : CallerPhase) (s : BootstrapState)
  : option BootstrapState :=
  match e, c with
  | FirstCheck _, CallerFirst =>
      Some (with_caller i (if bs_cached s then CallerReturned true else CallerWaiting) s)
  | LockTaken _, CallerWaiting =>
      if existsb locked (bs_callers s) then None else Some (with_caller i CallerLocked s)
  | SecondCheck _, CallerLocked =>
      Some (if bs_cached s then with_caller i (CallerReturned true) s
            else with_caller i CallerAsking
                   {| bs_cached := bs_cached s; bs_callers := bs_callers s;
                      bs_runs := Datatypes.S (bs_runs s); bs_successes := bs_successes s |})
  | BootstrapEnds _ ok, CallerAsking =>
      Some (with_caller i (CallerReturned ok)
              {| bs_cached := bs_cached s || ok; bs_callers := bs_callers s; bs_runs := bs_runs s;
                 bs_successes := bs_successes s + if ok then 1 else 0 |})
  | CallerDropped _, (CallerFirst | CallerWaiting | CallerLocked | CallerAsking) =>
      Some (with_caller i CallerCancelled s)
  | _, _ => None
  end.

Definition bootstrap_step (e : BootstrapEvent) (s : BootstrapState) : option BootstrapState :=
  match e with
  | CallStarted => Some {| bs_cached := bs_cached s; bs_callers := bs_callers s ++ [CallerFirst];
                           bs_runs := bs_runs s; bs_successes := bs_successes s |}
  | FirstCheck i | LockTaken i | SecondCheck i | BootstrapEnds i _ | CallerDropped i =>
      c ← bs_callers s !! i; caller_step e i c s
  end.

Fixpoint bootstrap_run (es : list BootstrapEvent) (s : BootstrapState) : option BootstrapState :=
  match es with
  | [] => Some s
  | e :: es => s ← bootstrap_step e s; bootstrap_run es s
  end.
