(* ===== verification/GateFacts.v ===== *)
(** * The gates: theorems

    Proved of [Gate], for every interleaving of lookups, moves, invalidations,
    cancellations and changes made elsewhere:
    - nothing the cache holds and nothing a lookup returns is older than the last
      clear, nor than the last finished move of this client;
    - the gate never deadlocks, and whoever is left with it alone finishes within a
      bounded number of steps;
    - a lookup alone is [Drive.context_share_id];
    - one bootstrap runs at a time, none after one succeeded, and a failed one is
      not inherited. *)

From S2P Require Import Prelude Errors Config Keys Sealing Http Transport Node.
From S2P Require Import EntityCache Links LinksFacts LinkCrypto LinkCryptoFacts Account Drive Nodes NodesFacts Gate.

(** What the [lru] crate documents: reading moves an entry, putting adds one and may
    drop others, clearing drops all. *)
Class LruMapLaws (L K V : Type) `{EqDecision K} `{Lru L K V} (clear : L -> L) : Prop := {
  lru_get_keeps k k' (l : L) : (lru_cache_get k' (lru_cache_get k l).2).1 = (lru_cache_get k' l).1;
  lru_put_adds k v k' v' (l : L) :
    (lru_cache_get k' (lru_cache_put k v l)).1 = Some v' ->
    if decide (k' = k) then v' = v else (lru_cache_get k' l).1 = Some v';
  lru_clear_empties k (l : L) : (lru_cache_get k (clear l)).1 = None
}.

Section ContextGate.
Context {L : Type} `{!Lru L NodeUid ShareId} (clear : L -> L) `{!LruMapLaws L NodeUid ShareId clear}.
Implicit Types (s : GateState L).

Abbreviation step := (gate_step clear).
Abbreviation gruns := (gate_run clear).

Definition cached s (uid : NodeUid) : option ShareId := (lru_cache_get uid (gs_cache s)).1.

(** The server said so in a state it was in since version [from]. *)
Definition said_since (from : nat) s (uid : NodeUid) (share_id : ShareId) : Prop :=
  exists version contexts, (from <= version)%nat /\ gs_history s !! version = Some contexts /\
    contexts uid = Some share_id.

(** A change of this client that the server may have carried out, and that is not
    cleared after yet. *)
Definition in_flight (t : Task) : bool :=
  match t with Change (ChangeSent _ | ChangeAnswered) => true | _ => false end.

Record gate_inv s : Prop := {
  gi_history : (gs_cleared s < length (gs_history s))%nat /\ (gs_changed s < length (gs_history s))%nat;
  gi_cached uid share_id : cached s uid = Some share_id -> said_since (gs_cleared s) s uid share_id;
  gi_served i uid share_id : gs_tasks s !! i = Some (Lookup uid (LookupServed share_id)) ->
    said_since (gs_cleared s) s uid share_id;
  gi_alone i j t u : gs_tasks s !! i = Some t -> gs_tasks s !! j = Some u ->
    holds_write t = true -> holds u = true -> i = j;
  gi_changed : existsb in_flight (gs_tasks s) = false -> (gs_changed s <= gs_cleared s)%nat
}.

(** *** Tasks *)

Lemma in_flight_holds t : in_flight t = true -> holds_write t = true.
Proof. by destruct t as [|[]|[]|]. Qed.
Lemma writes_holds t : holds_write t = true -> holds t = true.
Proof. unfold holds. by intros ->; destruct (holds_read t). Qed.

Lemma existsb_at {A} (f : A -> bool) l i x : l !! i = Some x -> f x = true -> existsb f l = true.
Proof. intros Hi Hf. apply existsb_exists. exists x. split; [|done]. by apply list_elem_of_In, (list_elem_of_lookup_2 l i). Qed.

Lemma existsb_none {A} (f : A -> bool) l i x : existsb f l = false -> l !! i = Some x -> f x = false.
Proof. intros Hn Hi. destruct (f x) eqn:E; [|done]. by rewrite (existsb_at f l i x Hi E) in Hn. Qed.

(** A task that holds no more than before leaves the writer alone. *)
Lemma alone_kept (tasks : list Task) i t t' :
  tasks !! i = Some t -> (holds_write t' = true -> holds_write t = true) -> (holds t' = true -> holds t = true) ->
  (forall j k u v, tasks !! j = Some u -> tasks !! k = Some v -> holds_write u = true -> holds v = true -> j = k) ->
  forall j k u v, <[i := t']> tasks !! j = Some u -> <[i := t']> tasks !! k = Some v ->
    holds_write u = true -> holds v = true -> j = k.
Proof.
  intros Hi Hw Hh Hall j k u v Hj Hk Hu Hv.
  apply list_lookup_insert_Some in Hj as [(<- & <- & _)|[Hij Hj]], Hk as [(<- & <- & _)|[Hik Hk]]; eauto.
Qed.

(** One that enters, when nobody it excludes holds. *)
Lemma alone_entered (tasks : list Task) i t' :
  (if holds_write t' then existsb holds tasks else existsb holds_write tasks) = false ->
  (forall j k u v, tasks !! j = Some u -> tasks !! k = Some v -> holds_write u = true -> holds v = true -> j = k) ->
  forall j k u v, <[i := t']> tasks !! j = Some u -> <[i := t']> tasks !! k = Some v ->
    holds_write u = true -> holds v = true -> j = k.
Proof.
  intros Hn Hall j k u v Hj Hk Hu Hv.
  apply list_lookup_insert_Some in Hj as [(<- & <- & _)|[Hij Hj]], Hk as [(<- & <- & _)|[Hik Hk]];
    [done| | |by eapply Hall].
  - rewrite Hu in Hn. by rewrite (existsb_none holds _ _ _ Hn Hk) in Hv.
  - assert (holds_write u = false); [|congruence]. destruct (holds_write t'); [|by eapply existsb_none].
    destruct (holds_write u) eqn:E; [|done]. apply writes_holds in E. by rewrite (existsb_none holds _ _ _ Hn Hj) in E.
Qed.

(** *** The invariant, kind of step by kind of step *)

Lemma said_since_grown from s s' uid share_id :
  gs_history s `prefix_of` gs_history s' -> said_since from s uid share_id -> said_since from s' uid share_id.
Proof. intros [l E] (v & c & Hv & Hl & Hc). exists v, c. rewrite E. split_and!; [done|by apply lookup_app_l_Some|done]. Qed.

Lemma in_flight_insert (tasks : list Task) i t t' :
  tasks !! i = Some t -> in_flight t = false -> existsb in_flight (<[i := t']> tasks) = false ->
  existsb in_flight tasks = false.
Proof.
  intros Hi Ht Hn. destruct (existsb in_flight tasks) eqn:E; [|done].
  apply existsb_exists in E as (u & Hu%list_elem_of_In & Hf). apply list_elem_of_lookup in Hu as [j Hj].
  destruct (decide (i = j)) as [<-|Hij]; [congruence|].
  rewrite (existsb_at in_flight (<[i := t']> tasks) j u) in Hn; [done|by rewrite list_lookup_insert_ne|done].
Qed.

(** A step of one task that neither clears nor changes the server. *)
Lemma inv_task s i t t' (cache : L) :
  gate_inv s -> gs_tasks s !! i = Some t -> in_flight t = false \/ in_flight t' = true ->
  (forall j k u v, <[i := t']> (gs_tasks s) !! j = Some u -> <[i := t']> (gs_tasks s) !! k = Some v ->
     holds_write u = true -> holds v = true -> j = k) ->
  (forall uid share_id, (lru_cache_get uid cache).1 = Some share_id -> said_since (gs_cleared s) s uid share_id) ->
  (forall uid share_id, t' = Lookup uid (LookupServed share_id) -> said_since (gs_cleared s) s uid share_id) ->
  gate_inv (with_task i t' (with_cache cache s)).
Proof.
  intros [Hh Hc Hs Ha Hch] Hi Hf Hall Hcache Ht'. split; simpl.
  - done.
  - intros uid share_id. apply Hcache.
  - intros j uid share_id Hj. apply list_lookup_insert_Some in Hj as [(_ & E & _)|[_ Hj]]; [by apply Ht'|by eapply Hs].
  - exact Hall.
  - intros Hn. apply Hch. destruct Hf as [Hf|Hf]; [by eapply in_flight_insert|].
    rewrite (existsb_at in_flight (<[i := t']> (gs_tasks s)) i t') in Hn; [done| |done].
    apply list_lookup_insert_eq. by apply lookup_lt_Some in Hi.
Qed.

(** A clear by the one that holds the write half. *)
Lemma inv_clear s i t t' :
  gate_inv s -> gs_tasks s !! i = Some t -> holds_write t = true -> holds_read t' = false ->
  gate_inv (with_task i t' (cleared clear s)).
Proof.
  intros [Hh Hc Hs Ha Hch] Hi Hw Hr. split; simpl.
  - unfold current. split; [|lia]. destruct (gs_history s); simpl in *; lia.
  - intros uid share_id. unfold cached. simpl. by rewrite lru_clear_empties.
  - intros j uid share_id Hj. exfalso. apply list_lookup_insert_Some in Hj as [(_ & -> & _)|[Hij Hj]]; [done|].
    by apply Hij, (Ha _ _ _ _ Hi Hj).
  - apply (alone_kept _ i t); [done..| |done]. intros _. by apply writes_holds.
  - unfold current. lia.
Qed.

Lemma inv_server own after s :
  gate_inv s -> (own = true -> existsb in_flight (gs_tasks s) = true) -> gate_inv (server_changed own after s).
Proof.
  intros [Hh Hc Hs Ha Hch] Hown.
  assert (Hp : gs_history s `prefix_of` gs_history (server_changed own after s)) by by apply prefix_app_r.
  split; simpl; rewrite ?length_app; simpl.
  - destruct own; lia.
  - intros uid share_id Hget. by eapply said_since_grown, Hc.
  - intros i uid share_id Hi. by eapply said_since_grown, Hs.
  - exact Ha.
  - intros Hn. destruct own; [by rewrite Hown in Hn|by apply Hch].
Qed.

Lemma inv_started t s : gate_inv s -> holds t = false -> in_flight t = false -> gate_inv (started t s).
Proof.
  intros [Hh Hc Hs Ha Hch] Ht Hf. split; simpl.
  - done.
  - exact Hc.
  - intros i uid share_id [Hi|[_ Hi]]%lookup_app_Some; [by eapply Hs|].
    apply list_lookup_singleton_Some in Hi as [_ ->]. done.
  - intros i j u v [Hi|[_ Hi]]%lookup_app_Some [Hj|[_ Hj]]%lookup_app_Some Hu Hv; [by eapply Ha| | |].
    all: repeat match goal with H : [_] !! _ = Some _ |- _ => apply list_lookup_singleton_Some in H as [_ <-] end.
    all: try apply writes_holds in Hu; congruence.
  - rewrite existsb_app. simpl. rewrite Hf. intros Hn. apply Hch. by destruct (existsb _ _).
Qed.

(** The server's answer is what the current state says. *)
Lemma answer_said s uid share_id :
  gate_inv s -> contexts_now s uid = Some share_id -> said_since (gs_cleared s) s uid share_id.
Proof.
  intros [[Hh _] _ _ _ _]. unfold contexts_now. destruct (gs_history s !! current s) as [c|] eqn:E; simpl; [|done].
  intros Hc. exists (current s), c. split_and!; [unfold current; lia|done|done].
Qed.

Lemma inv_change_cache s (cache : L) uid t' i t :
  gate_inv s -> gs_tasks s !! i = Some t ->
  (forall uid' share_id, (lru_cache_get uid' cache).1 = Some share_id -> said_since (gs_cleared s) s uid' share_id) ->
  t = Lookup uid LookupEntered \/ t = Lookup uid LookupAsked \/ (exists share_id, t = Lookup uid (LookupServed share_id)) ->
  (t' = Cancelled \/ t' = Lookup uid LookupAsked \/ (exists answer, t' = Lookup uid (LookupReturned answer)) \/
   exists share_id, t' = Lookup uid (LookupServed share_id) /\ said_since (gs_cleared s) s uid share_id) ->
  gate_inv (with_task i t' (with_cache cache s)).
Proof.
  intros Hinv Hi Hcache Ht Ht'. apply (inv_task s i t); try done.
  - left. by destruct Ht as [->|[->|[? ->]]].
  - apply (alone_kept _ i t); [done| | |by apply (gi_alone s Hinv)].
    + by destruct Ht' as [->|[->|[[? ->]|(? & -> & _)]]].
    + intros _. by destruct Ht as [->|[->|[? ->]]].
  - intros uid' share_id E. destruct Ht' as [->|[->|[[? ->]|(? & -> & Hs)]]]; by simplify_eq.
Qed.

(** A task that turns to what holds nothing and flies nowhere. *)
Lemma inv_dropped s i t t' :
  gate_inv s -> gs_tasks s !! i = Some t -> in_flight t = false -> holds t' = false ->
  (forall uid share_id, t' <> Lookup uid (LookupServed share_id)) -> gate_inv (with_task i t' s).
Proof.
  intros Hinv Hi Hf Hh Ht'. apply (inv_task s i t t' (gs_cache s)); try done.
  - by left.
  - apply (alone_kept _ i t); [done| |congruence|by apply (gi_alone s Hinv)].
    intros Hw%writes_holds. congruence.
  - by apply (gi_cached s Hinv).
  - naive_solver.
Qed.

Lemma inv_lookup e uid phase i s s' :
  gate_inv s -> gs_tasks s !! i = Some (Lookup uid phase) -> lookup_step e uid phase i s = Some s' -> gate_inv s'.
Proof.
  intros Hinv Hi Hstep. pose proof (gi_cached s Hinv) as Hc. unfold cached in Hc.
  destruct e, phase; try done; simpl in Hstep.
  - destruct (lru_cache_get uid (gs_cache s)) as [held cache] eqn:E. injection Hstep as <-.
    eapply (inv_change_cache s cache uid); [done..| | |].
    + intros uid' share_id. pose proof (lru_get_keeps uid uid' (gs_cache s)) as Hk. rewrite E in Hk. simpl in Hk.
      rewrite Hk. apply Hc.
    + eauto.
    + destruct held; naive_solver.
  - injection Hstep as <-. eapply (inv_change_cache s (gs_cache s) uid); [done..|naive_solver|].
    destruct (contexts_now s uid) eqn:E; [|naive_solver]. apply answer_said in E; naive_solver.
  - injection Hstep as <-. eapply (inv_change_cache s (gs_cache s) uid); naive_solver.
  - injection Hstep as <-. eapply (inv_change_cache s (gs_cache s) uid); naive_solver.
  - injection Hstep as <-. eapply (inv_change_cache s _ uid); [done..| |naive_solver|naive_solver].
    intros uid' id' Hput%lru_put_adds. destruct (decide (uid' = uid)) as [->|]; [|by apply Hc].
    rewrite Hput. by eapply (gi_served s Hinv).
  - injection Hstep as <-. by eapply inv_dropped.
  - injection Hstep as <-. by eapply inv_dropped.
  - injection Hstep as <-. by eapply inv_dropped.
  - injection Hstep as <-. by eapply inv_dropped.
Qed.

Lemma inv_change e phase i s s' :
  gate_inv s -> gs_tasks s !! i = Some (Change phase) -> change_step clear e phase i s = Some s' -> gate_inv s'.
Proof.
  intros Hinv Hi Hstep. assert (Hkeep : forall t', holds_write (Change phase) = true -> in_flight t' = true ->
    gate_inv (with_task i t' s)).
  { intros t' Hw Hf. apply (inv_task s i (Change phase) t' (gs_cache s)); try done.
    - by right.
    - apply (alone_kept _ i (Change phase)); [done|done| |by apply (gi_alone s Hinv)].
      intros _. by apply writes_holds.
    - by apply (gi_cached s Hinv).
    - intros uid share_id ->. done. }
  destruct e, phase as [| |[]| |]; simplify_eq/=; try done.
  all: try (by eapply inv_clear); try (by eapply inv_dropped); try (by apply Hkeep).
  apply (inv_server true after) in Hinv; [|intros _; by eapply existsb_at].
  apply (inv_task (server_changed true after s) i (Change (ChangeSent false)) _ (gs_cache s)); try done.
  - by right.
  - by apply (alone_kept _ i (Change (ChangeSent false))), (gi_alone _ Hinv).
  - apply (gi_cached _ Hinv).
Qed.

Lemma inv_invalidation e phase i s s' :
  gate_inv s -> gs_tasks s !! i = Some (Invalidation phase) -> invalidation_step clear e phase i s = Some s' ->
  gate_inv s'.
Proof.
  intros Hinv Hi Hstep. destruct e, phase; simplify_eq/=; [by eapply inv_clear|by eapply inv_dropped..].
Qed.

Lemma inv_enter i s s' : gate_inv s -> enter i s = Some s' -> gate_inv s'.
Proof.
  intros Hinv Hstep. unfold enter in Hstep. simpl in Hstep.
  destruct (gs_tasks s !! i) as [t|] eqn:Hi; [|done]. simpl in Hstep.
  assert (Hgo : forall t', in_flight t = false -> (forall uid id, t' <> Lookup uid (LookupServed id)) ->
    (if holds_write t' then existsb holds (gs_tasks s) else existsb holds_write (gs_tasks s)) = false ->
    gate_inv (with_task i t' s)).
  { intros t' Hf Ht' Hfree. apply (inv_task s i t t' (gs_cache s)); try done.
    - by left.
    - apply alone_entered; [done|by apply (gi_alone s Hinv)].
    - by apply (gi_cached s Hinv).
    - naive_solver. }
  destruct t as [? []|[]|[]|]; try done; destruct (existsb _ _) eqn:E; simplify_eq; by apply Hgo.
Qed.

Lemma inv_step e s s' : gate_inv s -> step e s = Some s' -> gate_inv s'.
Proof.
  intros Hinv Hstep.
  assert (Htask : forall i, task_step clear e i s = Some s' -> gate_inv s').
  { intros i. unfold task_step. simpl. destruct (gs_tasks s !! i) as [[uid phase|phase|phase|]|] eqn:Hi; simpl;
      [by eapply inv_lookup|by eapply inv_change|by eapply inv_invalidation|done|done]. }
  destruct e; simpl in Hstep; try (by eapply Htask); simplify_eq.
  1-3: by apply inv_started.
  - by eapply inv_enter.
  - by apply inv_server.
Qed.

Lemma inv_run es s s' : gate_inv s -> gruns es s = Some s' -> gate_inv s'.
Proof.
  revert s. induction es as [|e es IH]; intros s Hinv Hrun; simpl in Hrun; [by simplify_eq|].
  destruct (step e s) as [s1|] eqn:E; [|done]. simpl in Hrun. eapply IH; [by eapply inv_step|done].
Qed.

Lemma inv_new contexts (empty : L) : (forall uid, (lru_cache_get uid empty).1 = None) ->
  gate_inv (GateState_new contexts empty).
Proof.
  intros Hempty. split; simpl; [lia| |done|done|lia].
  unfold cached. simpl. intros uid share_id. by rewrite Hempty.
Qed.

(** *** Nothing stale *)

Lemma said_since_now s uid share_id : said_since (current s) s uid share_id -> contexts_now s uid = Some share_id.
Proof.
  intros (version & contexts & Hge & Hv & Hc). assert (version = current s) as ->.
  { apply lookup_lt_Some in Hv. unfold current, Contexts in *. lia. }
  unfold contexts_now. by rewrite Hv.
Qed.

Lemma writer_alone s i t : gate_inv s -> gs_tasks s !! i = Some t -> holds_read t = true ->
  existsb in_flight (gs_tasks s) = false.
Proof.
  intros Hinv Hi Hr. destruct (existsb in_flight (gs_tasks s)) eqn:E; [|done]. exfalso.
  apply existsb_exists in E as (u & Hu%list_elem_of_In & Hf). apply list_elem_of_lookup in Hu as [j Hj].
  pose proof (in_flight_holds _ Hf) as Hw.
  assert (Hh : holds t = true) by (unfold holds; by rewrite Hr).
  rewrite <- (gi_alone s Hinv _ _ _ _ Hj Hi Hw Hh) in Hi. assert (t = u) as -> by congruence.
  by destruct u as [? []|[]|[]|].
Qed.

(** Returning an answer is the step of a lookup that holds the read half. *)
Lemma answering_step e s s' i uid phase share_id :
  step e s = Some s' -> gs_tasks s !! i = Some (Lookup uid phase) -> finished (Lookup uid phase) = false ->
  gs_tasks s' !! i = Some (Lookup uid (LookupReturned (Some share_id))) ->
  holds_read (Lookup uid phase) = true /\ (cached s uid = Some share_id \/ phase = LookupServed share_id).
Proof.
  intros Hstep Hi Hunf Hi'. assert (Hlt := lookup_lt_Some _ _ _ Hi).
  assert (Hkeep : gs_tasks s' !! i = gs_tasks s !! i -> False) by (intros E; rewrite E in Hi'; simplify_eq).
  assert (Hother : forall j t, gs_tasks s' = <[j := t]> (gs_tasks s) -> j <> i -> False).
  { intros j t E Hji. apply Hkeep. rewrite E. by apply list_lookup_insert_ne. }
  assert (Htask : forall j, task_step clear e j s = Some s' ->
    holds_read (Lookup uid phase) = true /\ (cached s uid = Some share_id \/ phase = LookupServed share_id)).
  { intros j. unfold task_step. simpl. destruct (gs_tasks s !! j) as [t|] eqn:Hj; [|done]. simpl. intros Ht.
    destruct (decide (j = i)) as [->|Hji].
    - rewrite Hi in Hj. injection Hj as <-. unfold cached.
      destruct e, phase; simplify_eq/=; repeat case_match; simplify_eq/=;
        rewrite list_lookup_insert_eq in Hi' by done; simplify_eq; eauto.
    - destruct t as [? []|[| |[]| |]|[]|], e; simplify_eq/=; repeat case_match; simplify_eq/=;
        solve [by destruct (Hother j _ eq_refl Hji)|by destruct Hkeep]. }
  destruct e; simpl in Hstep; try (by eapply Htask); simplify_eq; exfalso.
  1-3: apply Hkeep; simpl; rewrite Hi; by apply lookup_app_l_Some.
  - unfold enter in Hstep. simpl in Hstep. destruct (gs_tasks s !! task) as [t|] eqn:Hj; [|done]. simpl in Hstep.
    destruct (decide (task = i)) as [->|Hji].
    + rewrite Hi in Hj. injection Hj as <-. destruct phase; try done. case_match; simplify_eq/=.
      rewrite list_lookup_insert_eq in Hi' by done. simplify_eq.
    + destruct t as [? []|[]|[]|]; try done; case_match; simplify_eq/=; by eapply Hother.
Qed.

(** C13: whatever lookups, moves, invalidations, cancellations and foreign changes are
    interleaved, and whatever becomes of their requests: a mapping in the cache
    ([context_share_ids]), and the answer a lookup ([context_share_id]) is about to
    return, is what the server said at or after the last clear; the answer is also
    no older than this client's last move ([run_context_share_mutation]), carried
    out or reported as failed, and is the server's current one unless another client
    changed something since, or a move given up on was carried out afterwards. *)
Theorem context_never_stale contexts (empty : L) es s :
  (forall uid, (lru_cache_get uid empty).1 = None) ->
  gruns es (GateState_new contexts empty) = Some s ->
  (forall uid share_id, cached s uid = Some share_id -> said_since (gs_cleared s) s uid share_id) /\
  (forall e s' i uid phase share_id,
     step e s = Some s' -> gs_tasks s !! i = Some (Lookup uid phase) -> finished (Lookup uid phase) = false ->
     gs_tasks s' !! i = Some (Lookup uid (LookupReturned (Some share_id))) ->
     said_since (Nat.max (gs_cleared s) (gs_changed s)) s uid share_id /\
     (Nat.max (gs_cleared s) (gs_changed s) = current s -> contexts_now s uid = Some share_id)).
Proof.
  intros Hempty Hrun. assert (Hinv : gate_inv s) by (eapply inv_run; [by apply inv_new|done]).
  split; [apply (gi_cached s Hinv)|].
  intros e s' i uid phase share_id Hstep Hi Hunf Hi'.
  destruct (answering_step _ _ _ _ _ _ _ Hstep Hi Hunf Hi') as [Hr Hfrom].
  rewrite Nat.max_l by (by eapply (gi_changed s Hinv), writer_alone).
  assert (Hs : said_since (gs_cleared s) s uid share_id).
  { destruct Hfrom as [Hc| ->]; [by apply (gi_cached s Hinv)|by eapply (gi_served s Hinv)]. }
  split; [done|]. intros E. rewrite E in Hs. by apply said_since_now.
Qed.

(** *** The gate drains *)

(** The steps a task can still take. *)
Definition steps_left (t : Task) : nat :=
  match t with
  | Lookup _ LookupQueued => 4 | Lookup _ LookupEntered => 3 | Lookup _ LookupAsked => 2
  | Lookup _ (LookupServed _) => 1 | Lookup _ (LookupReturned _) => 0
  | Change ChangeQueued => 5 | Change ChangeEntered => 4 | Change (ChangeSent false) => 3
  | Change (ChangeSent true) => 2 | Change ChangeAnswered => 1 | Change ChangeReturned => 0
  | Invalidation InvalidationQueued => 2 | Invalidation InvalidationEntered => 1
  | Invalidation InvalidationReturned => 0
  | Cancelled => 0
  end.

Definition work (tasks : list Task) : nat := sum_list_with steps_left tasks.

(** The steps the gate takes by itself: nobody comes, nobody goes. *)
Definition by_itself (e : GateEvent) : bool :=
  match e with
  | StartLookup _ | StartChange | StartInvalidation | Remote _ | Cancel _ => false
  | _ => true
  end.

Lemma finished_steps_left t : finished t = true <-> steps_left t = 0%nat.
Proof. by destruct t as [? []|[| |[]| |]|[]|]. Qed.

Lemma work_insert (tasks : list Task) i t t' :
  tasks !! i = Some t -> (work (<[i := t']> tasks) + steps_left t = work tasks + steps_left t')%nat.
Proof.
  unfold work. revert i. induction tasks as [|u tasks IH]; intros [|i] Hi; simplify_eq/=; [lia|].
  specialize (IH _ Hi). lia.
Qed.

Lemma work_zero (tasks : list Task) : work tasks = 0%nat -> forallb finished tasks = true.
Proof.
  unfold work. induction tasks as [|t tasks IH]; simpl; [done|]. intros E.
  apply andb_true_iff. split; [apply finished_steps_left; lia|apply IH; lia].
Qed.

(** Each such step takes one task nearer to its end. *)
Lemma step_works e s s' : by_itself e = true -> step e s = Some s' -> (work (gs_tasks s') < work (gs_tasks s))%nat.
Proof.
  intros Hself Hstep.
  assert (Hins : forall i t t', gs_tasks s !! i = Some t -> (steps_left t' < steps_left t)%nat ->
    (work (<[i := t']> (gs_tasks s)) < work (gs_tasks s))%nat).
  { intros i t t' Hi Hlt. pose proof (work_insert _ _ _ t' Hi). lia. }
  assert (Htask : forall i, task_step clear e i s = Some s' -> (work (gs_tasks s') < work (gs_tasks s))%nat).
  { intros i. unfold task_step. simpl. destruct (gs_tasks s !! i) as [t|] eqn:Hi; [|done]. simpl. intros Ht.
    specialize (Hins i t). destruct t as [? []|[| |[]| |]|[]|], e; simplify_eq/=; repeat case_match; simplify_eq/=;
      apply Hins; simpl; auto with lia. }
  destruct e; try done; simpl in Hstep; try (by eapply Htask).
  unfold enter in Hstep. simpl in Hstep. destruct (gs_tasks s !! task) as [t|] eqn:Hi; [|done].
  simpl in Hstep. specialize (Hins task t).
  destruct t as [? []|[]|[]|]; try done; case_match; simplify_eq/=; apply Hins; simpl; auto with lia.
Qed.

(** Whoever holds the gate has a step. *)
Lemma holder_steps s i t : gs_tasks s !! i = Some t -> holds t = true ->
  exists e, by_itself e = true /\ is_Some (step e s).
Proof.
  intros Hi Hh.
  destruct t as [? []|[]|[]|]; try done;
    [exists (Look i)|exists (Fail i)|exists (Store i)|exists (Clear i)|exists (Answer i)|exists (ClearAgain i)|exists (Clear i)];
    (split; [done|]); simpl; unfold task_step; simpl; rewrite Hi; simpl; repeat case_match; by eexists.
Qed.

Lemma forallb_false {A} (f : A -> bool) l : forallb f l = false -> exists i x, l !! i = Some x /\ f x = false.
Proof.
  induction l as [|x l IH]; simpl; [done|]. destruct (f x) eqn:E; simpl; [|by exists 0%nat, x].
  intros (i & y & Hi & Hy)%IH. by exists (S i), y.
Qed.

(** No deadlock: while a task is unfinished, the gate has a step. *)
Lemma gate_steps s : forallb finished (gs_tasks s) = false -> exists e, by_itself e = true /\ is_Some (step e s).
Proof.
  intros Hunf. destruct (existsb holds (gs_tasks s)) eqn:Hheld.
  { apply existsb_exists in Hheld as (t & Ht%list_elem_of_In & Hh). apply list_elem_of_lookup in Ht as [i Hi].
    by eapply holder_steps. }
  destruct (forallb_false _ _ Hunf) as (i & t & Hi & Hf).
  assert (Hwrite : existsb holds_write (gs_tasks s) = false).
  { destruct (existsb holds_write _) eqn:E; [|done]. apply existsb_exists in E as (u & Hu & Hw%writes_holds).
    assert (existsb holds (gs_tasks s) = true) by (apply existsb_exists; eauto). congruence. }
  pose proof (existsb_none _ _ _ _ Hheld Hi) as Hn.
  exists (Enter i). split; [done|]. simpl. unfold enter. simpl. rewrite Hi. simpl.
  destruct t as [? []|[]|[]|]; try done; rewrite ?Hheld, ?Hwrite; by eexists.
Qed.

Lemma run_works es s s' : forallb by_itself es = true -> gruns es s = Some s' ->
  (length es + work (gs_tasks s') <= work (gs_tasks s))%nat.
Proof.
  revert s. induction es as [|e es IH]; intros s Hself Hrun; simpl in *; [simplify_eq; lia|].
  apply andb_true_iff in Hself as [He Hes]. destruct (step e s) as [s1|] eqn:E; [|done]. simpl in Hrun.
  pose proof (step_works _ _ _ He E). specialize (IH _ Hes Hrun). lia.
Qed.

(** C14: the gate never deadlocks and always drains: left to itself, in any state and
    with the lock admitting its waiters in any order, it takes at most [work] steps
    (five for a move, four for a lookup, two for an invalidation); it stops only
    when every lookup, move and invalidation has finished; and it can get there. *)
Theorem gate_drains s :
  (forall es s', forallb by_itself es = true -> gruns es s = Some s' ->
     (length es <= work (gs_tasks s))%nat /\
     ((forall e, by_itself e = true -> step e s' = None) -> forallb finished (gs_tasks s') = true)) /\
  exists es s', forallb by_itself es = true /\ gruns es s = Some s' /\ forallb finished (gs_tasks s') = true.
Proof.
  split.
  - intros es s' Hself Hrun. split; [pose proof (run_works _ _ _ Hself Hrun); lia|]. intros Hstuck.
    destruct (forallb finished (gs_tasks s')) eqn:E; [done|].
    destruct (gate_steps _ E) as (e & He & s2 & Hs2). by rewrite (Hstuck e He) in Hs2.
  - remember (work (gs_tasks s)) as n eqn:Hn. revert s Hn. induction n as [n IH] using lt_wf_ind. intros s Hn.
    destruct (forallb finished (gs_tasks s)) eqn:E; [by exists [], s|].
    destruct (gate_steps _ E) as (e & He & s1 & Hs1). pose proof (step_works _ _ _ He Hs1) as Hlt.
    destruct (IH (work (gs_tasks s1)) ltac:(lia) s1 eq_refl) as (es & s' & Hes & Hrun & Hfin).
    exists (e :: es), s'. simpl. rewrite He, Hs1. simpl. done.
Qed.
End ContextGate.

(** ** A lookup alone *)

Section LookupAlone.
Context {W Key Pub FK CS : Type} `{KeyOps Key} `{PassphraseOps} `{SealOps W Key}
        `{DriveApi W} `{AccountKeys W Key Pub} `{AccountAddresses W} `{DriveEntities W}
        `{FKL : Lru FK NodeUid Key} `{CSL : Lru CS NodeUid ShareId} (clear : CS -> CS).
Implicit Types (s : GateState CS) (d : DriveState W Key FK CS).

(** [s] with one more task, and another cache. *)
Definition newest s (t : Task) (cache : CS) : GateState CS := with_cache cache (started t s).

Lemma newest_at s t cache : gs_tasks (newest s t cache) !! length (gs_tasks s) = Some t.
Proof. simpl. rewrite lookup_app_r by done. by rewrite Nat.sub_diag. Qed.

Lemma newest_becomes s t t' cache cache' :
  with_task (length (gs_tasks s)) t' (with_cache cache' (newest s t cache)) = newest s t' cache'.
Proof. unfold newest, with_task, with_cache, started. simpl. rewrite insert_app_r_alt by done. by rewrite Nat.sub_diag. Qed.

Lemma newest_turns s t t' cache : with_task (length (gs_tasks s)) t' (newest s t cache) = newest s t' cache.
Proof. apply (newest_becomes _ _ _ _ cache). Qed.

Lemma newest_enters s uid cache : existsb holds_write (gs_tasks s) = false ->
  enter (length (gs_tasks s)) (newest s (Lookup uid LookupQueued) cache)
  = Some (newest s (Lookup uid LookupEntered) cache).
Proof.
  intros Hfree. unfold enter. rewrite newest_at. simpl. rewrite existsb_app, Hfree. simpl.
  f_equal. apply newest_turns.
Qed.

(** Its further steps. *)
Lemma newest_steps s e uid phase cache :
  task_step clear e (length (gs_tasks s)) (newest s (Lookup uid phase) cache)
  = lookup_step e uid phase (length (gs_tasks s)) (newest s (Lookup uid phase) cache).
Proof. unfold task_step. rewrite newest_at. done. Qed.

(** In, and a look. *)
Lemma newest_looks s uid es held cache :
  existsb holds_write (gs_tasks s) = false -> lru_cache_get uid (gs_cache s) = (held, cache) ->
  gate_run clear (StartLookup uid :: Enter (length (gs_tasks s)) :: Look (length (gs_tasks s)) :: es) s
  = gate_run clear es (newest s (Lookup uid match held with
                                            | Some share_id => LookupReturned (Some share_id)
                                            | None => LookupAsked
                                            end) cache).
Proof.
  intros Hfree Hget. cbn [gate_run gate_step mbind option_bind].
  change (started (Lookup uid LookupQueued) s) with (newest s (Lookup uid LookupQueued) (gs_cache s)).
  rewrite newest_enters by done. cbn [mbind option_bind]. rewrite newest_steps. simpl. rewrite Hget.
  apply (f_equal (gate_run clear es)), newest_becomes.
Qed.

(** C15: the handler [context_share_id] refines the gate's lookup: from the same
    cache, with no writer holding the gate and an endpoint whose answers say what the
    server holds, it is the run enter, look and, on a miss, serve and store or fail:
    the same result and the same cache, whatever other lookups hold the gate. *)
Theorem lookup_refines_handler s d uid :
  existsb holds_write (gs_tasks s) = false ->
  dc_context_share_ids (ds_cache d) = gs_cache s ->
  (forall response w', get_context_share (context_share_path uid) (ds_world d) = (Ok response, w') ->
     contexts_now s uid = Some (cs_context_share_id response)) ->
  let i := length (gs_tasks s) in
  exists es s', (es = [] \/ es = [Serve i; Store i] \/ es = [Fail i]) /\
    gate_run clear (StartLookup uid :: Enter i :: Look i :: es) s = Some s' /\
    gs_tasks s' = gs_tasks s ++ [Lookup uid (LookupReturned (ok (context_share_id uid d).1))] /\
    gs_cache s' = dc_context_share_ids (ds_cache (context_share_id uid d).2) /\
    gs_history s' = gs_history s.
Proof.
  intros Hfree Hcache Hsays i.
  destruct (lru_cache_get uid (gs_cache s)) as [held cache] eqn:Hget.
  pose proof (fun es => newest_looks s uid es held cache Hfree Hget) as Hlooks.
  unfold context_share_id, mbind_, on_world, update_drive, mret. simpl. rewrite Hcache, Hget. simpl.
  destruct held as [share_id|].
  { exists [], (newest s (Lookup uid (LookupReturned (Some share_id))) cache).
    split_and!; [by left|apply (Hlooks [])|reflexivity..]. }
  destruct (get_context_share (context_share_path uid) (ds_world d)) as [[response|e] w'] eqn:Hask; simpl; rewrite Hask; simpl.
  - set (share_id := cs_context_share_id response).
    exists [Serve i; Store i],
      (newest s (Lookup uid (LookupReturned (Some share_id))) (lru_cache_put uid share_id cache)).
    split_and!; [by right; left| |reflexivity..].
    etransitivity; [apply (Hlooks [Serve i; Store i])|]. cbn [gate_run gate_step]. unfold i. rewrite newest_steps. simpl.
    change (contexts_now (newest s _ cache)) with (contexts_now s). rewrite (Hsays _ _ eq_refl). simpl.
    rewrite newest_turns, newest_steps. simpl. by rewrite (newest_becomes s _ _ cache).
  - exists [Fail i], (newest s (Lookup uid (LookupReturned None)) cache).
    split_and!; [by right; right| |reflexivity..].
    etransitivity; [apply (Hlooks [Fail i])|]. cbn [gate_run gate_step]. unfold i. rewrite newest_steps. simpl.
    by rewrite newest_turns.
Qed.
End LookupAlone.

(** ** The bootstrap locks *)

Section BootstrapLocks.
Implicit Types (s : BootstrapState).

Record bootstrap_inv s : Prop := {
  bi_alone i j c d : bs_callers s !! i = Some c -> bs_callers s !! j = Some d ->
    locked c = true -> locked d = true -> i = j;
  bi_successes : bs_successes s = if bs_cached s then 1%nat else 0%nat;
  bi_asking i : bs_callers s !! i = Some CallerAsking -> bs_cached s = false;
  bi_served i : bs_callers s !! i = Some (CallerReturned true) -> bs_cached s = true
}.

Lemma locked_kept (callers : list CallerPhase) i c c' :
  callers !! i = Some c -> (locked c' = true -> locked c = true \/ existsb locked callers = false) ->
  (forall j k u v, callers !! j = Some u -> callers !! k = Some v -> locked u = true -> locked v = true -> j = k) ->
  forall j k u v, <[i := c']> callers !! j = Some u -> <[i := c']> callers !! k = Some v ->
    locked u = true -> locked v = true -> j = k.
Proof.
  intros Hi Hl Hall j k u v Hj Hk Hu Hv.
  apply list_lookup_insert_Some in Hj as [(<- & <- & _)|[Hij Hj]], Hk as [(<- & <- & _)|[Hik Hk]];
    [done| | |by eapply Hall].
  - destruct (Hl Hu) as [Hc|Hn]; [by eapply Hall|]. by rewrite (existsb_none locked _ _ _ Hn Hk) in Hv.
  - destruct (Hl Hv) as [Hc|Hn]; [by eapply Hall|]. by rewrite (existsb_none locked _ _ _ Hn Hj) in Hu.
Qed.

(** A step of one caller. *)
Lemma bootstrap_inv_caller s i c c' (cached' : bool) runs' successes' :
  bootstrap_inv s -> bs_callers s !! i = Some c ->
  (locked c' = true -> locked c = true \/ existsb locked (bs_callers s) = false) ->
  successes' = (if cached' then 1%nat else 0%nat) ->
  (bs_cached s = true -> cached' = true) ->
  (c' = CallerAsking -> cached' = false) -> (c' = CallerReturned true -> cached' = true) ->
  (cached' <> bs_cached s -> c = CallerAsking) ->
  bootstrap_inv {| bs_cached := cached'; bs_callers := <[i := c']> (bs_callers s); bs_runs := runs';
                   bs_successes := successes' |}.
Proof.
  intros [Ha Hs Hk Hv] Hi Hl Hs' Hmono Hask Hret Hgrown. split; simpl.
  - by apply (locked_kept _ i c).
  - done.
  - intros j [(_ & E & _)|[Hij Hj]]%list_lookup_insert_Some; [by apply Hask|].
    destruct (decide (cached' = bs_cached s)) as [->|E]; [by eapply Hk|]. exfalso. rewrite (Hgrown E) in Hi.
    by apply Hij, (Ha _ _ _ _ Hi Hj).
  - intros j [(_ & E & _)|[Hij Hj]]%list_lookup_insert_Some; [by apply Hret|]. by eapply Hmono, Hv.
Qed.

Lemma bootstrap_inv_step e s s' : bootstrap_inv s -> bootstrap_step e s = Some s' -> bootstrap_inv s'.
Proof.
  intros Hinv Hstep. pose proof (bi_successes s Hinv) as Hs.
  assert (Hcaller : forall i c, bs_callers s !! i = Some c -> caller_step e i c s = Some s' -> bootstrap_inv s').
  { intros i c Hi Hc. pose proof (bi_asking s Hinv i) as Hask.
    destruct e, c; simpl in Hc; try done; unfold with_caller in Hc; repeat case_match; simplify_eq/=.
    all: eapply (bootstrap_inv_caller s i); eauto; try done; try congruence; try naive_solver.
    all: by rewrite Hs. }
  destruct e; simplify_eq/=; try (destruct (bs_callers s !! _) as [c|] eqn:Hi; [by eapply Hcaller|done]).
  destruct Hinv as [Ha _ Hk Hv]. split; simpl.
  - intros i j c d [Hi|[_ Hi]]%lookup_app_Some [Hj|[_ Hj]]%lookup_app_Some Hc Hd; [by eapply Ha| | |].
    all: repeat match goal with H : [_] !! _ = Some _ |- _ => apply list_lookup_singleton_Some in H as [_ <-] end.
    all: done.
  - done.
  - intros i [Hi|[_ Hi]]%lookup_app_Some; [by eapply Hk|]. by apply list_lookup_singleton_Some in Hi as [_ ?].
  - intros i [Hi|[_ Hi]]%lookup_app_Some; [by eapply Hv|]. by apply list_lookup_singleton_Some in Hi as [_ ?].
Qed.

Lemma bootstrap_inv_run es s s' : bootstrap_inv s -> bootstrap_run es s = Some s' -> bootstrap_inv s'.
Proof.
  revert s. induction es as [|e es IH]; intros s Hinv Hrun; simpl in Hrun; [by simplify_eq|].
  destruct (bootstrap_step e s) as [s1|] eqn:E; [|done]. eapply IH; [by eapply bootstrap_inv_step|done].
Qed.

Lemma bootstrap_inv_new : bootstrap_inv BootstrapState_new.
Proof. by split. Qed.

(** Once cached, nothing is asked any more. *)
Lemma cached_stays e s s' : bootstrap_inv s -> bs_cached s = true -> bootstrap_step e s = Some s' ->
  bs_cached s' = true /\ bs_runs s' = bs_runs s.
Proof.
  intros Hinv Hc Hstep. destruct e; simplify_eq/=; [done|..].
  all: destruct (bs_callers s !! caller) as [c|] eqn:Hi; simplify_eq/=; destruct c; simplify_eq/=.
  all: repeat case_match; simplify_eq/=; rewrite ?Hc; done.
Qed.

Lemma cached_stays_run es s s' : bootstrap_inv s -> bs_cached s = true -> bootstrap_run es s = Some s' ->
  bs_cached s' = true /\ bs_runs s' = bs_runs s.
Proof.
  revert s. induction es as [|e es IH]; intros s Hinv Hc Hrun; simpl in Hrun; [by simplify_eq|].
  destruct (bootstrap_step e s) as [s1|] eqn:E; [|done]. simpl in Hrun.
  destruct (cached_stays _ _ _ Hinv Hc E) as [Hc1 <-]. eapply IH; [by eapply bootstrap_inv_step|done..].
Qed.

(** C19: however first calls to [ensure_my_files] (or [ensure_photos]) are interleaved,
    fail or are dropped: at most one of them talks to the server at a time; at most one
    bootstrap ever succeeds, and then none is run again; a call that returns success
    finds the share cached; and a failure is not inherited, since while nothing is
    cached and the lock is free a waiting call takes it and asks itself. *)
Theorem bootstrap_once es s :
  bootstrap_run es BootstrapState_new = Some s ->
  (forall i j, bs_callers s !! i = Some CallerAsking -> bs_callers s !! j = Some CallerAsking -> i = j) /\
  (bs_successes s <= 1)%nat /\
  (forall i, bs_callers s !! i = Some (CallerReturned true) -> bs_cached s = true) /\
  (bs_cached s = true -> forall es' s', bootstrap_run es' s = Some s' ->
     bs_cached s' = true /\ bs_runs s' = bs_runs s) /\
  (bs_cached s = false -> existsb locked (bs_callers s) = false ->
   forall i, bs_callers s !! i = Some CallerWaiting ->
     exists s', bootstrap_run [LockTaken i; SecondCheck i] s = Some s' /\
       bs_callers s' !! i = Some CallerAsking /\ bs_runs s' = Datatypes.S (bs_runs s)).
Proof.
  intros Hrun. assert (Hinv : bootstrap_inv s) by (eapply bootstrap_inv_run; [apply bootstrap_inv_new|done]).
  split_and!.
  - intros i j Hi Hj. by eapply (bi_alone s Hinv).
  - rewrite (bi_successes s Hinv). destruct (bs_cached s); lia.
  - apply (bi_served s Hinv).
  - intros Hc es' s'. by apply cached_stays_run.
  - intros Hc Hfree i Hi. pose proof (lookup_lt_Some _ _ _ Hi) as Hlt. simpl. rewrite Hi. simpl. rewrite Hfree. simpl.
    rewrite list_lookup_insert_eq by done. simpl. rewrite Hc. eexists. split_and!; [done| |done]. simpl.
    apply list_lookup_insert_eq. by rewrite length_insert.
Qed.
End BootstrapLocks.

(** ** At a concrete input *)

(** The cache as an association list, the newest entry first. *)
#[local] Instance entry_list : Lru (list (NodeUid * ShareId)) NodeUid ShareId := {
  lru_cache_get uid l := (snd <$> find (fun entry => bool_decide (entry.1 = uid)) l, l);
  lru_cache_put uid share_id l := (uid, share_id) :: l
}.
#[local] Instance entry_list_laws :
  LruMapLaws (list (NodeUid * ShareId)) NodeUid ShareId (fun _ => []).
Proof.
  split; [done| |done]. intros k v k' v' l. simpl. case_bool_decide as E; simpl.
  - subst k'. rewrite decide_True by done. congruence.
  - by rewrite decide_False by congruence.
Qed.

Abbreviation Entries := (list (NodeUid * ShareId)).

Definition moved_node : NodeUid := NodeUid_new "v" "n".

(** A node looked up, moved while the first lookup is under way, the mover gone
    before the answer, and looked up twice again. *)
Definition move_story : list GateEvent :=
  [StartLookup moved_node; Enter 0; Look 0; Serve 0; StartChange; Store 0; Enter 1; Clear 1;
   StartLookup moved_node; Commit 1 (fun _ => Some "after"); Cancel 1; Answer 1; ClearAgain 1; Enter 2; Look 2;
   Serve 2].

Definition moved : GateState Entries :=
  default (GateState_new (fun _ => None) [])
    (gate_run (fun _ => []) move_story (GateState_new (fun _ => Some "before") [])).

Example readers_keep_the_writer_out :
  gate_run (fun _ => []) (take 5 move_story ++ [Enter 1])
    (GateState_new (fun _ => Some "before") ([] : Entries)) = None.
Proof. reflexivity. Qed.

Lemma context_never_stale_witness :
  said_since 1 moved moved_node "after" /\ contexts_now moved moved_node = Some "after".
Proof.
  destruct (context_never_stale (L := Entries) (Lru0 := entry_list) (fun _ => []) (fun _ => Some "before") []
    move_story moved) as [_ H]; [done|vm_compute; reflexivity|].
  set (stored := with_task 2 (Lookup moved_node (LookupReturned (Some "after")))
                   (with_cache [(moved_node, "after")] moved)).
  destruct (H (Store 2) stored 2%nat moved_node (LookupServed "after") "after") as [Hs Hn];
    [vm_compute; reflexivity..|]. split; [exact Hs|]. apply Hn. vm_compute. reflexivity.
Defined.

Lemma gate_drains_witness :
  exists es s', forallb by_itself es = true /\ gate_run (fun _ => []) es moved = Some s' /\
    forallb finished (gs_tasks s') = true /\ (length es <= 1)%nat.
Proof.
  destruct (gate_drains (L := Entries) (Lru0 := entry_list) (fun _ => []) moved)
    as (Hbound & es & s' & Hself & Hrun & Hend).
  exists es, s'. split; [exact Hself|]. split; [exact Hrun|]. split; [exact Hend|].
  destruct (Hbound es s' Hself Hrun) as [Hle _]. revert Hle. vm_compute (work _). exact id.
Defined.

(** A lookup through the handler, of a node not cached yet. *)
Lemma lookup_refines_handler_witness :
  exists es s', gate_run (fun _ => []) (StartLookup moved_node :: Enter 0 :: Look 0 :: es)
                  (GateState_new (fun _ => Some "s") ([] : Entries)) = Some s' /\
    gs_tasks s' = [Lookup moved_node (LookupReturned (Some "s"))].
Proof.
  destruct (lookup_refines_handler (CS := Entries) (CSL := entry_list) (fun _ => [])
    (GateState_new (fun _ => Some "s") [])
    ({| ds_cache := DriveCache_default tt []; ds_world := tt |} : DriveState unit string unit Entries) moved_node)
    as (es & s' & _ & Hrun & Ht & _).
  - reflexivity.
  - reflexivity.
  - intros response w' E. injection E as <- <-. reflexivity.
  - exists es, s'. split; [exact Hrun|exact Ht].
Defined.

(** Three first calls: the first is dropped, the second fails, the third succeeds. *)
Definition bootstrap_story : list BootstrapEvent :=
  [CallStarted; CallStarted; CallStarted; FirstCheck 0; FirstCheck 1; FirstCheck 2; LockTaken 1; SecondCheck 1;
   CallerDropped 0; BootstrapEnds 1 false; LockTaken 2; SecondCheck 2; BootstrapEnds 2 true].

Definition bootstrapped : BootstrapState :=
  {| bs_cached := true; bs_callers := [CallerCancelled; CallerReturned false; CallerReturned true];
     bs_runs := 2; bs_successes := 1 |}.

Lemma bootstrap_once_witness :
  bootstrap_run bootstrap_story BootstrapState_new = Some bootstrapped /\ (bs_successes bootstrapped <= 1)%nat /\
    bs_cached bootstrapped = true.
Proof.
  assert (Hrun : bootstrap_run bootstrap_story BootstrapState_new = Some bootstrapped)
    by (vm_compute; reflexivity).
  destruct (bootstrap_once bootstrap_story bootstrapped Hrun) as (_ & Hle & Hserved & _).
  split; [exact Hrun|]. split; [exact Hle|exact (Hserved 2%nat eq_refl)].
Defined.
